(* ===== verification/_CoqProject ===== *)
-Q . S2P
Prelude.v
OrderedMap.v
SendBuffer.v
Sockets.v
TransLayer.v
Receive.v
Transport.v
ConnPool.v
State.v
SharedState.v
Version.v
Double.v
Real.v
Json.v
DoubleRound.v
CLib.v
JsonWriter.v
Logging.v
Layout.v
FastWriter.v
StyledWriter.v
StyledStreamWriter.v
Writers.v
CommentedWriter.v
JsonReader.v
Parsing.v
Tokens.v
LegacyReader.v
Lexing.v
RoundTrip.v
Readers.v
Streams.v
Values.v
Storage.v
Memory.v
Supply.v
Entries.v
Variables.v
Ordering.v
Conversions.v
Floats.v
Containers.v
Iterators.v
JsonView.v
Precision.v
TraceNode.v
PoolManager.v
Forest.v
Threads.v
Agent.v
Api.v
Frame.v
Tracing.v
Sending.v
Senders.v
Service.v
ThreadLocal.v
Python.v
Php.v
Interceptors.v
