(* ===== verification/Prelude.v ===== *)
(** * Verification of the pinpoint C agent

    The agent records traces of a traced process.  An application starts a trace, opens
    and closes nested span events on it and annotates them; when the root ends, the
    trace is encoded as one JSON span, queued on a connection to a collector and freed.
    The code is under src/common: the C interface and the class Agent (src/common.cpp),
    the node pool (src/NodePool), the transport (src/ConnectionPool), the send buffer and
    the process state (src/Cache), the contexts (src/Context) and its copy of jsoncpp
    (jsoncpp/).

    ** How the parts interact and which file models which

    - [Prelude]: machine integers with their wrap-around, outcomes of C++ code (value,
      exception, undefined behaviour, out of fuel), a state and exception monad [M] with
      a weakest precondition [wp], bytes, memory blocks, network byte order, tactics and
      hint databases.
    - [SendBuffer] (Cache/Chunk.h, Chunk.cpp): lists of ready and free chunks; copying
      data in, draining through a callback, the limit on memory.  Abstractly a byte queue.
    - [Sockets] (ConnectionPool/sockets.h): error codes, and the environment: scripts of
      what send, recv, select, connect, getaddrinfo, malloc and the clock answer.  The
      theorems quantify over all scripts.
    - [TransLayer] (ConnectionPool/TransLayer.h, TransLayer.cpp): frames in and out, the
      event loop, connecting.  [Receive] proves the receiving side against an abstract
      frame receiver, [Transport] the invariant of the event loop and the framing.
    - [ConnPool] (SpanConnectionPool.h): the stack of idle connections.
    - [State] (Cache/State.h, State.cpp): start time, unique ids, traces per second.
      [SharedState] splits its methods into their accesses to memory, interleaved by threads.
    - [Logging] (Logging.cpp): messages through the buffer of a thread to a callback.
    - [Version] (compare_version in common.cpp): comparison of version numbers.
    - [Json], [Double], [Real], [JsonWriter] (json_value.cpp, json_writer.cpp, json_tool.h,
      Cache/NodeTreeWriter.h): values, finite doubles, doubles with infinities and NaN and
      their text under all settings, and the stateful stream writer, whose algorithm is
      defined over the style of a class.  [FastWriter], [StyledWriter] and
      [StyledStreamWriter] are the other classes; [Layout] and [Writers] show what all of
      them print, [CommentedWriter] adds the comments of values.  [DoubleRound] shows that
      doubles survive printing with seventeen digits, [Precision] how close other settings come.
    - [JsonReader] (json_reader.cpp): [OurReader], the builder and [parseFromStream];
      [Parsing] shows that it terminates and what it returns, [Tokens] and [RoundTrip] that
      it reads back what the writers print.  [LegacyReader] is the deprecated class [Reader];
      [Lexing] has the tokens of a document as a function, [Readers] the equivalence.
      [Streams] has the operators and overloads on streams and strings, errors added from
      outside and the checking of settings.
    - [OrderedMap], [Values] (json_value.cpp, value.h): [std::map] as an interface on ordered
      keys, and the representation of values with conversions, order, arrays, objects and
      paths.  [Ordering], [Conversions], [Floats] and [Containers] prove its laws; [JsonView] shows that
      [Json], the view the other files have of a value, is refined by it.  [Iterators] has the
      iterators over it.
    - [Storage] (json_value.cpp, value.h): the same class with its memory, strings and keys in
      blocks of a heap whose [malloc] may fail.  [Memory] relates it to [Values] and has
      copying and destruction, [Entries] the operations on entries, [Supply] the absence of
      failures when there is memory, [Variables] programs over variables.
    - [CLib]: stoll, strncpy and the like, as far as the code uses them.
    - [TraceNode] (NodePool/TraceNode.h, TraceNode.cpp, Context/ContextType.h): one node.
    - [PoolManager] (NodePool/PoolManager.h, PoolManager.cpp): cells of nodes with their
      ids, used and free sets, references, the linked list of a trace's events, encoding
      and freeing.  [Forest] proves it against an abstract forest: a finite map from the
      id of a root to the ids of its events in order.
    - [Threads] (ThreadSafePoolManager in PoolManager.h): the pool shared by threads, as a
      step relation that interleaves the critical sections, against an abstract pool.
    - [Agent] (class Agent in common.cpp): traces, clues, contexts, the collector's
      greeting, sending.  [Tracing] has the proofs on the pool only, [Sending] those on
      greeting and connections, [Senders] the stages of sending interleaved by threads.
    - [Api] (the pinpoint_ functions of common.cpp): the exception handlers around the
      agent, and sequences of calls.  [Frame] shows what calls leave alone, [Service]
      composes everything.
    - [ThreadLocal]: the stack of open nodes behind the bindings' calls without an id, as
      an interface [Tracer] that the bindings implement.  [Python] (src/PY/_pinpoint_py.cpp)
      and [Php] (pinpoint_php.cpp, as compiled for PHP 7 and later) are the functions the
      two languages see; what the language's parser made of the arguments is their argument.
    - [Interceptors] (pinpoint_php.cpp): callbacks around PHP's internal functions.  The
      engine is a parameter: a class for its hash table, functions for the code it runs.

    A definition keeps the name of the function it translates; a loop of a function is a
    definition of its own ([HandleMsgStream_loop]).  Code that only reads or fails is a
    function into [outcome]; code that changes state is in [M], which keeps the state an
    exception leaves behind.

    ** What the theorems show

    - The whole interface ([Service]): no call and no sequence of calls, with whatever
      ids, lets an exception out, reaches undefined behaviour or loops; the pool stays a
      forest; starting, ending and forcing the end of traces do to the forest and to the
      wire what they should, with the cause of every exception; ids not in use are refused
      everywhere.
    - The bindings ([ThreadLocal], [Python], [Php]): calls without an id behave as a stack,
      balanced calls restore it; the functions that work on traces are safe; flushing and the end of a
      request close the trace and leave the thread outside; contexts are read back.
    - Interceptors ([Interceptors]): exactly the registered functions are hooked and get
      their handlers back; passive callbacks are invisible; the first exception survives;
      parameters are replaced all or none.
    - The pool ([Forest], [Tracing]): allocation is fresh, appending links the event as
      the last one, freeing frees exactly the trace, encoding collects all events in
      order, clues change the addressed node only.
    - Threads ([Threads]): under every interleaving the shared pool is an atomic pool of ids
      and handles; a wrapper pins its node; returning a node finishes, by force only after
      a thousand waits for it.
    - The transport ([Receive], [Transport], [Sending], [SendBuffer], [ConnPool]): the
      receiver does not depend on how the stream is cut; what is written is a prefix of
      what was queued, in order, under all partial writes; frames read back; the chunk
      list is a byte queue; memory is bounded; connecting is throttled; while [malloc] does
      not fail, threads that send never share a connection or tear a frame ([Senders]).
    - JSON ([Json], [JsonWriter], [Layout], [Writers], [Parsing], [Tokens], [RoundTrip]):
      objects are finite maps in key order; the agent's writer prints the compact form and
      the writers, with settings that are blanks, print it with blanks between the tokens; strings cannot break out of
      their quotes; the reader always comes to an answer that agrees with its error list and
      to a well-formed value; what the writers print is read back, through streams too
      ([Streams]); the two readers agree ([Readers]); where there are no comments the code for
      them changes nothing ([CommentedWriter]).
    - Doubles ([DoubleRound], [Precision], [Floats]): seventeen digits determine a double, which is read
      back bit for bit; other precisions print a number within half a unit of their last place;
      conversion to float rounds to the nearest.
    - The memory of values ([Memory], [Entries], [Variables]): values own disjoint blocks, copies
      are deep, assignment is all or nothing when an allocation fails, the making of members
      too but for a null value that has become an object, and no program over values leaks,
      frees twice or reads freed memory.
    - The representation of values ([Ordering], [Conversions], [Containers], [JsonView]): values
      are totally ordered, conversions to integers are exact where they are defined, arrays
      without holes are lists, objects are finite maps, paths read back what they wrote, and
      all of it implements [Json].
    - State and versions ([State], [SharedState], [Version]): the quota per second, and how far
      threads can exceed it; ids are unique under threads; version comparison is a total
      preorder on lists of numbers.
    - Logging ([Logging]): a message of any length stays within its buffer.

    A few theorems state defects: the send buffer can refuse data that fits, a failed
    [malloc] tears a frame, the cast of a huge timestamp in PHP is undefined, unix addresses keep a colon, a clue named event makes a trace impossible to end, an
    unmatched end in Python disables tracing in its thread, a forced free miscounts the
    references of the node's next owner, growing an array leaves holes that shrinking it
    trips over, the double 2^63 passes the check before its cast, a path with a zero byte is
    read forever, two writers cut names at a NUL, copyPayload is not safe when an allocation
    fails, assigning a key makes two owners of its characters, a stream is
    read up to a byte 255, two threads reset the quota of one second, a line comment swallows
    what is printed behind it on the line, without decimal places a hundred is printed as one.

    ** Fuel and bounds

    Every fuelled loop is given enough by its caller and the theorems exclude
    [OutOfFuel]: the receive loop by the length of the recv script and of the buffer, the
    drain loop by the number of chunks, freeing and encoding by the number of nodes of the
    pool, as are forcing the end of a trace and the end of a request, ReturnNode by its own
    1000 rounds, SyncSendAll by its 20, the reader's loops by
    the characters left and its recursion by the nesting limit.  Counters are kept at
    their width; spans are assumed below a gigabyte and documents below two, so that the
    32-bit lengths of frames and array indices do not overflow; strings given to the C
    interface are shorter than [2^31 - 5] bytes, what a JSON string can hold.

    ** Not modelled

    Threads are modelled where the code shares state between them: the pool ([Threads]),
    the connections ([Senders]) and the process state ([SharedState]); the calls of class Agent
    as a whole are modelled in one thread, and in [Threads] a thread writes to a node in one
    step.  Setting up and stopping the agent and registering handlers are definitions of
    [Api], but not calls of its type [call].  Windows and macOS branches.  The calls of
    pp_trace elsewhere, show_status and debug_nodeid, which only print.  Of jsoncpp: the source offsets the readers note in values, the memory of
    std::map and std::string.
    Of the bindings: the parsing of arguments, which CPython and the Zend engine do, module
    tables and ini entries; reference counts of PHP values; PHP references, so parameters
    that a hooked function takes by reference; functions that come
    into being during a PHP request by inheriting a hooked one.  C++ samples, test
    applications, plugins and the collector, a Go program, are outside. *)
From Stdlib Require Import ZArith Lia.
From Stdlib Require Strings.Byte Strings.String.
From stdpp Require Export base list strings gmap.

#[global] Open Scope Z_scope.

(** ** Machine integers *)

(** [wrapU w z] is the value an unsigned [w]-bit variable holds after [z] is
    stored in it; [wrapS w z] the value a two's complement signed one holds. *)
Definition wrapU (w z : Z) : Z := z mod 2 ^ w.
Definition wrapS (w z : Z) : Z := (z + 2 ^ (w - 1)) mod 2 ^ w - 2 ^ (w - 1).

Abbreviation u32 := (wrapU 32).
Abbreviation u64 := (wrapU 64).
Abbreviation i32 := (wrapS 32).
Abbreviation i64 := (wrapS 64).

Definition in_u32 (z : Z) : Prop := 0 <= z < 2 ^ 32.
Definition in_i32 (z : Z) : Prop := - 2 ^ 31 <= z < 2 ^ 31.
Definition in_u64 (z : Z) : Prop := 0 <= z < 2 ^ 64.
Definition in_i64 (z : Z) : Prop := - 2 ^ 63 <= z < 2 ^ 63.

Lemma wrapU_range w z : 0 <= w -> 0 <= wrapU w z < 2 ^ w.
Proof. intros Hw. apply Z.mod_pos_bound. by apply Z.pow_pos_nonneg. Qed.

Lemma wrapU_small w z : 0 <= z < 2 ^ w -> wrapU w z = z.
Proof. apply Z.mod_small. Qed.

Lemma wrapU_add_l w a b : wrapU w (wrapU w a + b) = wrapU w (a + b).
Proof. apply Zplus_mod_idemp_l. Qed.

Lemma wrapU_add_r w a b : wrapU w (a + wrapU w b) = wrapU w (a + b).
Proof. apply Zplus_mod_idemp_r. Qed.

Lemma wrapU_sub_l w a b : wrapU w (wrapU w a - b) = wrapU w (a - b).
Proof. apply Zminus_mod_idemp_l. Qed.

Lemma wrapU_sub_r w a b : wrapU w (a - wrapU w b) = wrapU w (a - b).
Proof. apply Zminus_mod_idemp_r. Qed.

Lemma wrapU_idemp w z : wrapU w (wrapU w z) = wrapU w z.
Proof. apply Zmod_mod. Qed.

Lemma wrapS_small w z :
  0 < w -> - 2 ^ (w - 1) <= z < 2 ^ (w - 1) -> wrapS w z = z.
Proof.
  intros Hw Hz. unfold wrapS.
  assert (2 ^ w = 2 * 2 ^ (w - 1)) as E.
  { rewrite <- Z.pow_succ_r by lia. f_equal. lia. }
  rewrite Z.mod_small; lia.
Qed.

Lemma wrapS_range w z : 0 < w -> - 2 ^ (w - 1) <= wrapS w z < 2 ^ (w - 1).
Proof.
  intros Hw. unfold wrapS.
  assert (2 ^ w = 2 * 2 ^ (w - 1)) as E.
  { rewrite <- Z.pow_succ_r by lia. f_equal. lia. }
  pose proof (Z.mod_pos_bound (z + 2 ^ (w - 1)) (2 ^ w)).
  pose proof (Z.pow_pos_nonneg 2 (w - 1)). lia.
Qed.

(** Storing a value in a signed variable and converting it back to the
    unsigned type of the same width loses nothing. *)
Lemma wrapU_wrapS w z : 0 < w -> wrapU w (wrapS w z) = wrapU w z.
Proof.
  intros Hw. unfold wrapU, wrapS. rewrite Zminus_mod_idemp_l. f_equal. lia.
Qed.

Lemma wrapS_add_l w a b : wrapS w (wrapS w a + b) = wrapS w (a + b).
Proof.
  unfold wrapS. f_equal.
  replace ((a + 2 ^ (w - 1)) mod 2 ^ w - 2 ^ (w - 1) + b + 2 ^ (w - 1))
    with ((a + 2 ^ (w - 1)) mod 2 ^ w + b) by lia.
  rewrite Zplus_mod_idemp_l. f_equal. lia.
Qed.

Lemma u32_small z : in_u32 z -> u32 z = z.
Proof. apply wrapU_small. Qed.

Lemma i32_small z : in_i32 z -> i32 z = z.
Proof. intros H. apply wrapS_small; [lia|]. exact H. Qed.

Lemma u32_range z : in_u32 (u32 z).
Proof. by apply wrapU_range. Qed.

Lemma u32_i32 z : in_u32 z -> u32 (i32 z) = z.
Proof. intros H. rewrite wrapU_wrapS by lia. by apply u32_small. Qed.

Lemma i32_u32 z : in_i32 z -> i32 (u32 z) = z.
Proof.
  intros Hz. rewrite <- (i32_small z Hz) at 2. unfold wrapS, wrapU.
  by rewrite Zplus_mod_idemp_l.
Qed.

(** A sum kept modulo [2^w] can be read back once it is known to fit. *)
Lemma u64_small z : in_u64 z -> u64 z = z.
Proof. apply wrapU_small. Qed.

Lemma i64_small z : in_i64 z -> i64 z = z.
Proof. intros H. apply wrapS_small; [lia|]. exact H. Qed.

Lemma i64_range z : in_i64 (i64 z).
Proof. apply (wrapS_range 64); lia. Qed.

Lemma i32_range z : in_i32 (i32 z).
Proof. apply (wrapS_range 32); lia. Qed.

#[global] Arguments wrapU : simpl never.
#[global] Arguments wrapS : simpl never.

(** [word] closes arithmetic goals that mention the width predicates. *)
Ltac word := unfold in_u32, in_i32, in_u64, in_i64 in *; lia.

(** ** Outcomes of C++ code *)

(** The exceptions the modelled code raises or lets through.  The three
    standard classes are told apart because the API wrappers catch them in
    separate handlers; [json_logic_error] is [AliasJson::LogicError] and
    [json_runtime_error] is [AliasJson::RuntimeError], which
    derive from [std::exception] only. *)
Inductive exn :=
| out_of_range
| invalid_argument
| logic_error
| runtime_error
| json_logic_error
| json_runtime_error.

#[export] Instance exn_eq_dec : EqDecision exn.
Proof. solve_decision. Defined.

(** A run of a piece of code returns a value, throws, reaches undefined
    behaviour (an out-of-bounds access, a null dereference), or is still inside
    a loop when the fuel given to the loop is spent. *)
Inductive outcome (A : Type) :=
| Ok (a : A)
| Throw (e : exn)
| UB
| OutOfFuel.
#[global] Arguments Ok {A} a.
#[global] Arguments Throw {A} e.
#[global] Arguments UB {A}.
#[global] Arguments OutOfFuel {A}.

#[export] Instance outcome_ret : MRet outcome := fun A a => Ok a.
#[export] Instance outcome_bind : MBind outcome := fun A B f m =>
  match m with
  | Ok a => f a
  | Throw e => Throw e
  | UB => UB
  | OutOfFuel => OutOfFuel
  end.

Lemma outcome_bind_Ok {A B} (f : A -> outcome B) m b :
  m ≫= f = Ok b <-> exists a, m = Ok a /\ f a = Ok b.
Proof.
  destruct m as [a| | |]; cbn; [|split; [done|by intros (? & ? & _)]..].
  split; [eauto|by intros (? & [= <-] & ?)].
Qed.

(** ** Code with state and exceptions

    [M S A] runs on a state [S]; unlike an outcome of a pair it keeps the state a
    thrown exception leaves behind, which the handlers of the callers then see. *)
Definition M (S A : Type) : Type := S -> outcome A * S.

#[export] Instance M_ret {S} : MRet (M S) := fun A a s => (Ok a, s).
#[export] Instance M_bind {S} : MBind (M S) := fun A B f m s =>
  match m s with
  | (Ok a, s') => f a s'
  | (Throw e, s') => (Throw e, s')
  | (UB, s') => (UB, s')
  | (OutOfFuel, s') => (OutOfFuel, s')
  end.

Definition get {S} : M S S := fun s => (Ok s, s).
Definition gets {S A} (f : S -> A) : M S A := fun s => (Ok (f s), s).
Definition modify {S} (f : S -> S) : M S unit := fun s => (Ok tt, f s).
Definition throw {S A} (e : exn) : M S A := fun s => (Throw e, s).
Definition undefined {S A} : M S A := fun s => (UB, s).
Definition lift {S A} (m : outcome A) : M S A := fun s => (m, s).

(** [try m h]: run the handler [h] on the state the exception leaves. *)
Definition try {S A} (m : M S A) (h : exn -> M S A) : M S A := fun s =>
  match m s with
  | (Throw e, s') => h e s'
  | r => r
  end.

(** [finally m f]: run [f] on the way out, on return and on unwinding, as the
    destructor of a local object does. *)
Definition finally {S A} (m : M S A) (f : S -> S) : M S A := fun s =>
  match m s with
  | (Ok a, s') => (Ok a, f s')
  | (Throw e, s') => (Throw e, f s')
  | r => r
  end.

(** One step of a computation, by the shape of its first action. *)
Lemma bind_run {S A B} (m : M S A) (f : A -> M S B) s a s' :
  m s = (Ok a, s') -> (m ≫= f) s = f a s'.
Proof. unfold mbind, M_bind. by intros ->. Qed.

Lemma bind_stop {S A B} (m : M S A) (f : A -> M S B) s e s' :
  m s = (Throw e, s') -> (m ≫= f) s = (Throw e, s').
Proof. unfold mbind, M_bind. by intros ->. Qed.

(** A computation that returns has returned at every bind. *)
Lemma bind_returns {S A B} (m : M S A) (f : A -> M S B) s b s' :
  (m ≫= f) s = (Ok b, s') -> exists a s1, m s = (Ok a, s1) /\ f a s1 = (Ok b, s').
Proof. unfold mbind, M_bind. destruct (m s) as [[] s1]; try done. by exists a, s1. Qed.

Lemma bind_lift {S A B} (a : A) (f : A -> M S B) s : (lift (Ok a) ≫= f) s = f a s.
Proof. done. Qed.

Lemma bind_mret {S A B} (a : A) (f : A -> M S B) s : (mret a ≫= f) s = f a s.
Proof. done. Qed.

Lemma bind_get {S B} (f : S -> M S B) s : (get ≫= f) s = f s s.
Proof. done. Qed.

Lemma bind_gets {S A B} (g : S -> A) (f : A -> M S B) s : (gets g ≫= f) s = f (g s) s.
Proof. done. Qed.

Lemma bind_modify {S B} (g : S -> S) (f : unit -> M S B) s : (modify g ≫= f) s = f tt (g s).
Proof. done. Qed.

Lemma bind_assoc {S A B C} (m : M S A) (f : A -> M S B) (g : B -> M S C) s :
  ((m ≫= f) ≫= g) s = (m ≫= (fun a => f a ≫= g)) s.
Proof. unfold mbind, M_bind. by destruct (m s) as [[]]. Qed.

Create Rewrite HintDb run.
#[export] Hint Rewrite @bind_lift @bind_mret @bind_get @bind_gets @bind_modify : run.

(** *** Specifications

    [wp m Q E s]: from [s] the code [m] returns a value and a state that satisfy [Q],
    or throws with an exception and a state that satisfy [E]; it never reaches
    undefined behaviour and never runs out of fuel. *)
Definition wp {S A} (m : M S A) (Q : A -> S -> Prop) (E : exn -> S -> Prop) (s : S) : Prop :=
  match m s with
  | (Ok a, s') => Q a s'
  | (Throw e, s') => E e s'
  | _ => False
  end.

Lemma wp_bind {S A B} (m : M S A) (f : A -> M S B) Q E s :
  wp m (fun a => wp (f a) Q E) E s -> wp (m ≫= f) Q E s.
Proof. unfold wp, mbind, M_bind. by destruct (m s) as [[]]. Qed.

Lemma wp_mono {S A} (m : M S A) (Q Q' : A -> S -> Prop) (E E' : exn -> S -> Prop) s :
  wp m Q E s -> (forall a s', Q a s' -> Q' a s') -> (forall e s', E e s' -> E' e s') ->
  wp m Q' E' s.
Proof. unfold wp. destruct (m s) as [[]]; eauto. Qed.

Lemma wp_mret {S A} (a : A) (Q : A -> S -> Prop) E s : Q a s -> wp (mret a) Q E s.
Proof. done. Qed.

Lemma wp_get {S} (Q : S -> S -> Prop) E s : Q s s -> wp get Q E s.
Proof. done. Qed.

Lemma wp_gets {S A} (f : S -> A) (Q : A -> S -> Prop) E s : Q (f s) s -> wp (gets f) Q E s.
Proof. done. Qed.

Lemma wp_modify {S} (f : S -> S) (Q : unit -> S -> Prop) E s : Q tt (f s) -> wp (modify f) Q E s.
Proof. done. Qed.

Lemma wp_throw {S A} e (Q : A -> S -> Prop) (E : exn -> S -> Prop) s : E e s -> wp (throw e) Q E s.
Proof. done. Qed.

Lemma wp_lift {S A} (m : outcome A) a (Q : A -> S -> Prop) E s :
  m = Ok a -> Q a s -> wp (lift m) Q E s.
Proof. by intros ->. Qed.

Lemma wp_lift_throw {S A} (m : outcome A) e (Q : A -> S -> Prop) (E : exn -> S -> Prop) s :
  m = Throw e -> E e s -> wp (lift m) Q E s.
Proof. by intros ->. Qed.

Lemma wp_try {S A} (m : M S A) h Q (E : exn -> S -> Prop) s :
  wp m Q (fun e => wp (h e) Q E) s -> wp (try m h) Q E s.
Proof. unfold wp, try. by destruct (m s) as [[] ?] eqn:Em; rewrite ?Em. Qed.

Lemma wp_finally {S A} (m : M S A) f Q E s :
  wp m (fun a s' => Q a (f s')) (fun e s' => E e (f s')) s -> wp (finally m f) Q E s.
Proof. unfold wp, finally. by destruct (m s) as [[] ?]. Qed.

(** What [wp] says of a run that is known. *)
Lemma wp_run {S A} (m : M S A) Q E s r s' :
  wp m Q E s -> m s = (r, s') ->
  (exists a, r = Ok a /\ Q a s') \/ (exists e, r = Throw e /\ E e s').
Proof. unfold wp. intros H E1. rewrite E1 in H. destruct r; naive_solver. Qed.

(** ** Bytes and memory blocks *)

Abbreviation byte := Init.Byte.byte.

#[export] Instance byte_eq_dec : EqDecision byte := Strings.Byte.byte_eq_dec.

(** The bytes of a string literal. *)
Definition bs (s : string) : list byte := Strings.String.list_byte_of_string s.

Definition zlen {A} (l : list A) : Z := Z.of_nat (length l).
Definition ztake {A} (n : Z) (l : list A) : list A := take (Z.to_nat n) l.
Definition zdrop {A} (n : Z) (l : list A) : list A := drop (Z.to_nat n) l.

(** [memcpy dst ofs src n]: copy the first [n] bytes of [src] to offset [ofs]
    of the block [dst]; leaving either block is undefined behaviour. *)
Definition memcpy (dst : list byte) (ofs : Z) (src : list byte) (n : Z)
  : outcome (list byte) :=
  if (0 <=? ofs) && (0 <=? n) && (ofs + n <=? zlen dst) && (n <=? zlen src)
  then Ok (ztake ofs dst ++ ztake n src ++ zdrop (ofs + n) dst)
  else UB.

(** [memread src ofs n]: the [n] bytes at offset [ofs]. *)
Definition memread (src : list byte) (ofs n : Z) : outcome (list byte) :=
  if (0 <=? ofs) && (0 <=? n) && (ofs + n <=? zlen src)
  then Ok (ztake n (zdrop ofs src)) else UB.

Lemma zlen_nonneg {A} (l : list A) : 0 <= zlen l.
Proof. unfold zlen. lia. Qed.

Lemma zlen_nil {A} : zlen (@nil A) = 0.
Proof. done. Qed.

Lemma zlen_cons {A} (x : A) l : zlen (x :: l) = 1 + zlen l.
Proof. unfold zlen. cbn [length]. lia. Qed.

Lemma zlen_app {A} (l k : list A) : zlen (l ++ k) = zlen l + zlen k.
Proof. unfold zlen. rewrite length_app. lia. Qed.

Lemma zlen_ztake {A} n (l : list A) : 0 <= n <= zlen l -> zlen (ztake n l) = n.
Proof. unfold zlen, ztake. rewrite length_take. lia. Qed.

Lemma zlen_zdrop {A} n (l : list A) : 0 <= n <= zlen l -> zlen (zdrop n l) = zlen l - n.
Proof. unfold zlen, zdrop. rewrite length_drop. lia. Qed.

Lemma ztake_zdrop {A} n (l : list A) : ztake n l ++ zdrop n l = l.
Proof. apply take_drop. Qed.

Lemma ztake_all {A} n (l : list A) : zlen l <= n -> ztake n l = l.
Proof. unfold zlen, ztake. intros. apply take_ge. lia. Qed.

Lemma zdrop_all {A} n (l : list A) : zlen l <= n -> zdrop n l = [].
Proof. unfold zlen, zdrop. intros. apply drop_ge. lia. Qed.

Lemma ztake_0 {A} (l : list A) : ztake 0 l = [].
Proof. done. Qed.

Lemma zdrop_0 {A} (l : list A) : zdrop 0 l = l.
Proof. done. Qed.

Lemma zdrop_zdrop {A} n m (l : list A) :
  0 <= n -> 0 <= m -> zdrop n (zdrop m l) = zdrop (m + n) l.
Proof. unfold zdrop. intros. rewrite drop_drop. f_equal. lia. Qed.

Lemma ztake_app_l {A} n (l k : list A) : n <= zlen l -> ztake n (l ++ k) = ztake n l.
Proof. unfold zlen, ztake. intros. apply take_app_le. lia. Qed.

Lemma zdrop_app_l {A} n (l k : list A) : n <= zlen l -> zdrop n (l ++ k) = zdrop n l ++ k.
Proof. unfold zlen, zdrop. intros. apply drop_app_le. lia. Qed.

Lemma ztake_app_eq {A} n (l k : list A) : n = zlen l -> ztake n (l ++ k) = l.
Proof. unfold zlen, ztake. intros ->. rewrite Nat2Z.id. apply take_app_length. Qed.

Lemma zdrop_app_eq {A} n (l k : list A) : n = zlen l -> zdrop n (l ++ k) = k.
Proof. unfold zlen, zdrop. intros ->. rewrite Nat2Z.id. apply drop_app_length. Qed.

(** A window [ [a, b) ] of a list splits at any point inside it. *)
Lemma ztake_split {A} n m (l : list A) :
  0 <= n -> 0 <= m -> ztake (n + m) l = ztake n l ++ ztake m (zdrop n l).
Proof.
  unfold ztake, zdrop. intros. rewrite Z2Nat.inj_add by lia.
  by rewrite take_take_drop.
Qed.

#[global] Arguments zlen : simpl never.
#[global] Arguments ztake : simpl never.
#[global] Arguments zdrop : simpl never.

Lemma memcpy_ok dst ofs src n :
  0 <= ofs -> 0 <= n -> ofs + n <= zlen dst -> n <= zlen src ->
  memcpy dst ofs src n = Ok (ztake ofs dst ++ ztake n src ++ zdrop (ofs + n) dst).
Proof.
  intros. unfold memcpy. by rewrite !(proj2 (Z.leb_le _ _)) by lia.
Qed.

Lemma memread_ok src ofs n :
  0 <= ofs -> 0 <= n -> ofs + n <= zlen src ->
  memread src ofs n = Ok (ztake n (zdrop ofs src)).
Proof.
  intros. unfold memread. by rewrite !(proj2 (Z.leb_le _ _)) by lia.
Qed.

(** ** Network byte order *)

Definition byte_Z (b : byte) : Z := Z.of_N (Byte.to_N b).
Definition Z_byte (z : Z) : byte := default Byte.x00 (Byte.of_N (Z.to_N (z mod 256))).

Lemma byte_Z_range b : 0 <= byte_Z b < 256.
Proof. unfold byte_Z. pose proof (Byte.to_N_bounded b). lia. Qed.

Lemma byte_Z_Z_byte z : byte_Z (Z_byte z) = z mod 256.
Proof.
  unfold byte_Z, Z_byte. pose proof (Z.mod_pos_bound z 256 ltac:(lia)).
  destruct (Byte.of_N (Z.to_N (z mod 256))) as [b|] eqn:E; cbn.
  - apply Byte.to_of_N in E. rewrite E. lia.
  - apply Byte.of_N_None_iff in E. lia.
Qed.

(** [htonl] followed by a copy of the word: the four bytes, high byte first. *)
Definition be32 (z : Z) : list byte :=
  [Z_byte (z / 2 ^ 24); Z_byte (z / 2 ^ 16); Z_byte (z / 2 ^ 8); Z_byte z].

(** [ntohl] of a word copied from four bytes. *)
Definition of_be32 (bs : list byte) : Z :=
  match bs with
  | [a; b; c; d] => byte_Z a * 2 ^ 24 + byte_Z b * 2 ^ 16 + byte_Z c * 2 ^ 8 + byte_Z d
  | _ => 0
  end.

Lemma of_be32_be32 z : in_u32 z -> of_be32 (be32 z) = z.
Proof.
  unfold in_u32. intros Hz. unfold of_be32, be32. rewrite !byte_Z_Z_byte.
  change (2 ^ 24) with 16777216; change (2 ^ 16) with 65536; change (2 ^ 8) with 256.
  change (2 ^ 32) with 4294967296 in Hz.
  rewrite (Z.mod_small (z / 16777216)) by
    (split; [apply Z.div_pos; lia|apply Z.div_lt_upper_bound; lia]).
  replace 16777216 with (256 * 256 * 256) by lia. replace 65536 with (256 * 256) by lia.
  rewrite <- !Z.div_div by lia.
  pose proof (Z.div_mod z 256 ltac:(lia)). pose proof (Z.div_mod (z / 256) 256 ltac:(lia)).
  pose proof (Z.div_mod (z / 256 / 256) 256 ltac:(lia)). lia.
Qed.

Lemma of_be32_range bs : in_u32 (of_be32 bs).
Proof.
  destruct bs as [|a [|b [|c [|d [|? ?]]]]]; try (unfold of_be32; word).
  unfold of_be32. pose proof (byte_Z_range a). pose proof (byte_Z_range b).
  pose proof (byte_Z_range c). pose proof (byte_Z_range d). word.
Qed.

Lemma zlen_be32 z : zlen (be32 z) = 4.
Proof. done. Qed.

(** ** Automation *)

Create HintDb pp discriminated.
#[export] Hint Resolve u32_range i32_range i64_range zlen_nonneg : pp.
Create Rewrite HintDb pp.
#[export] Hint Rewrite @zlen_nil @zlen_cons @zlen_app @ztake_0 @zdrop_0 : pp.

(** [zbool] turns the boolean comparisons of the code into propositions. *)
Ltac zbool :=
  repeat match goal with
  | H : (_ && _) = true |- _ => apply andb_true_iff in H; destruct H
  | H : (_ <=? _) = true |- _ => apply Z.leb_le in H
  | H : (_ <=? _) = false |- _ => apply Z.leb_gt in H
  | H : (_ <? _) = true |- _ => apply Z.ltb_lt in H
  | H : (_ <? _) = false |- _ => apply Z.ltb_ge in H
  | H : (_ =? _) = true |- _ => apply Z.eqb_eq in H
  | H : (_ =? _) = false |- _ => apply Z.eqb_neq in H
  end.

(** [case_if] splits on the first conditional of the goal, in propositional form. *)
Ltac case_if :=
  match goal with
  | |- context [if ?b then _ else _] => destruct b eqn:?; zbool
  end.

(** [agree] reconciles two equations with the same left-hand side. *)
Ltac agree :=
  repeat match goal with
  | H1 : ?a = _, H2 : ?a = _ |- _ => rewrite H1 in H2; progress simplify_eq
  end.

(** [wps] takes the next step of a [wp] goal. *)
Ltac wps :=
  lazymatch goal with
  | |- wp (mbind _ _) _ _ _ => apply wp_bind
  | |- wp (mret _) _ _ _ => apply wp_mret
  | |- wp get _ _ _ => apply wp_get
  | |- wp (gets _) _ _ _ => apply wp_gets
  | |- wp (modify _) _ _ _ => apply wp_modify
  | |- wp (throw _) _ _ _ => apply wp_throw
  | |- wp (try _ _) _ _ _ => apply wp_try
  | |- wp (finally _ _) _ _ _ => apply wp_finally
  end.

(** ** Lists *)

(** A conjunction over a list. *)
Lemma fold_Forall {A} (P : A -> Prop) l : fold_right (fun x Q => P x /\ Q) True l <-> Forall P l.
Proof. induction l; cbn; [by split; [constructor|]|]. by rewrite Forall_cons, IHl. Qed.

Lemma Forall2_impl_in {A B} (P Q : A -> B -> Prop) l k :
  Forall2 P l k -> (forall x y, x ∈ l -> P x y -> Q x y) -> Forall2 Q l k.
Proof.
  induction 1 as [|x y l k Hxy Hlk IH]; intros H; constructor.
  - apply H; [by left|done].
  - apply IH. intros x' y' Hx'. apply H. by right.
Qed.
