(* ===== verification/OrderedMap.v ===== *)
(** * Maps kept in the order of their keys: [std::map]

    A [std::map] is the sequence of its entries in increasing order of keys; the functions
    follow the iterators.  Keys come with a strict total order, as an interface. *)
From Stdlib Require Import ZArith Lia.
From S2P Require Import Prelude.

(** What a comparison must satisfy to order the keys of a [std::map]. *)
Class Key (K : Type) `{EqDecision K} := {
  less : K -> K -> bool;
  less_irrefl : forall a, less a a = false;
  less_trans : forall a b c, less a b = true -> less b c = true -> less a c = true;
  less_total : forall a b, less a b = false -> a <> b -> less b a = true
}.

Module OMap.

Section Map.
Context {K : Type} `{Key K} {V : Type}.
Implicit Types (m : list (K * V)) (k key : K) (x : V).

Lemma less_asym k key : less k key = true -> less key k = false.
Proof.
  intros H1. destruct (less key k) eqn:H2; [|done].
  pose proof (less_trans _ _ _ H1 H2) as E. by rewrite less_irrefl in E.
Qed.

(** [find] *)
Fixpoint find k m : option V :=
  match m with
  | [] => None
  | (k', v) :: m' => if decide (k = k') then Some v else find k m'
  end.

(** Write to the entry of [k], made at its [lower_bound] when there is none. *)
Fixpoint put k x m : list (K * V) :=
  match m with
  | [] => [(k, x)]
  | (k', v) :: m' =>
      if less k' k then (k', v) :: put k x m'
      else if decide (k = k') then (k', x) :: m'
      else (k, x) :: m
  end.

(** [erase] *)
Fixpoint erase k m : list (K * V) :=
  match m with
  | [] => []
  | (k', v) :: m' => if decide (k = k') then m' else (k', v) :: erase k m'
  end.

(** Every entry of [m] is behind [k]. *)
Definition above k m : Prop := Forall (fun kv => less k kv.1 = true) m.

Fixpoint sorted m : Prop :=
  match m with
  | [] => True
  | (k, _) :: m' => above k m' /\ sorted m'
  end.

Lemma above_trans k key m : less k key = true -> above key m -> above k m.
Proof. intros Hl Ha. eapply Forall_impl; [exact Ha|]. intros kv. by apply less_trans. Qed.

Lemma above_of_find k m key x : above k m -> find key m = Some x -> less k key = true.
Proof.
  induction m as [|[k' v] m IH]; cbn; [done|]. intros Ha. inversion Ha; subst.
  case_decide; [by subst|by apply IH].
Qed.

Lemma above_none k m : above k m -> find k m = None.
Proof.
  intros Ha. destruct (find k m) eqn:E; [|done]. apply (above_of_find _ _ _ _ Ha) in E.
  by rewrite less_irrefl in E.
Qed.

Lemma above_put k key x m : less k key = true -> above k m -> above k (put key x m).
Proof.
  intros Hl. induction m as [|[k' v] m IH]; cbn; intros Ha; [by constructor|].
  apply Forall_cons in Ha as [Hk Ha]. case_match; [constructor; [done|by apply IH]|].
  case_decide; repeat constructor; done.
Qed.

Lemma above_erase k key m : above k m -> above k (erase key m).
Proof.
  induction m as [|[k' v] m IH]; cbn; intros Ha; [done|]. apply Forall_cons in Ha as [Hk Ha].
  case_decide; [done|]. constructor; [done|by apply IH].
Qed.

Lemma find_of_put k key x m : find key (put k x m) = if decide (key = k) then Some x else find key m.
Proof.
  induction m as [|[k' v] m IH]; cbn; [done|]. destruct (less k' k) eqn:El; cbn.
  - rewrite IH. repeat case_decide; subst; try done. by rewrite less_irrefl in El.
  - repeat (case_decide; cbn); by subst.
Qed.

Lemma put_keeps_sorted k x m : sorted m -> sorted (put k x m).
Proof.
  induction m as [|[k' v] m IH]; cbn; [intros _; split; [constructor|done]|]. intros [Ha Hs]. destruct (less k' k) eqn:El; cbn.
  - split; [by apply above_put|by apply IH].
  - case_decide as Ek; [by subst|]. assert (less k k' = true) as Hk by (apply less_total; [done|congruence]).
    split; [|done]. constructor; [done|by eapply above_trans].
Qed.

Lemma find_erase k key m : sorted m -> find key (erase k m) = if decide (key = k) then None else find key m.
Proof.
  induction m as [|[k' v] m IH]; cbn; [by case_decide|]. intros [Ha Hs].
  destruct (decide (k = k')) as [->|Hne]; cbn.
  - case_decide; [subst; by apply above_none|done].
  - rewrite IH by done. repeat case_decide; by subst.
Qed.

Lemma erase_sorted k m : sorted m -> sorted (erase k m).
Proof.
  induction m as [|[k' v] m IH]; cbn; [done|]. intros [Ha Hs]. case_decide; [done|].
  cbn. split; [by apply above_erase|by apply IH].
Qed.

(** Maps with the same entries are the same sequence. *)
Lemma sorted_unique m m' : sorted m -> sorted m' -> (forall k, find k m = find k m') -> m = m'.
Proof.
  revert m'. induction m as [|[k v] m IH]; intros [|[k' v'] m'] Hs Hs' He; [done|..].
  { specialize (He k'). cbn in He. by rewrite decide_True in He. }
  { specialize (He k). cbn in He. by rewrite decide_True in He. }
  destruct Hs as [Ha Hs], Hs' as [Ha' Hs'].
  assert (k = k') as <-.
  { destruct (decide (k = k')) as [|Hne]; [done|]. exfalso.
    pose proof (He k) as H1. pose proof (He k') as H2. cbn in H1, H2.
    rewrite decide_True, decide_False in H1 by done. rewrite decide_False, decide_True in H2 by (done || congruence).
    symmetry in H1. apply (above_of_find _ _ _ _ Ha') in H1. apply (above_of_find _ _ _ _ Ha) in H2.
    apply less_asym in H1. congruence. }
  pose proof (He k) as Hk. cbn in Hk. rewrite !decide_True in Hk by done. injection Hk as ->.
  f_equal. apply IH; [done..|]. intros key. specialize (He key). cbn in He.
  case_decide; [subst key|done]. by rewrite !above_none.
Qed.

Lemma put_commutes k1 k2 x1 x2 m : sorted m -> k1 <> k2 -> put k1 x1 (put k2 x2 m) = put k2 x2 (put k1 x1 m).
Proof.
  intros Hs Hne. apply sorted_unique; [by repeat apply put_keeps_sorted..|]. intros k. rewrite !find_of_put.
  repeat case_decide; by subst.
Qed.

Lemma put_twice k x y m : sorted m -> put k x (put k y m) = put k x m.
Proof.
  intros Hs. apply sorted_unique; [by repeat apply put_keeps_sorted..|]. intros key. rewrite !find_of_put. by case_decide.
Qed.

Lemma find_in m k x : sorted m -> (k, x) ∈ m <-> find k m = Some x.
Proof.
  induction m as [|[k' v] m IH]; cbn; [intros _; split; [by intros ?%elem_of_nil|done]|]. intros [Ha Hs].
  rewrite elem_of_cons, IH by done. case_decide as E; [subst|].
  - split; [intros [[= <-]|Hf]; [done|]|intros [= <-]; by left]. by rewrite (above_none _ _ Ha) in Hf.
  - split; [intros [[= <- <-]|?]; done|by right].
Qed.

Lemma sorted_keys m : sorted m -> NoDup m.*1.
Proof.
  induction m as [|[k v] m IH]; cbn; [constructor|]. intros [Ha Hs]. constructor; [|by apply IH].
  intros Hin. apply list_elem_of_fmap in Hin as ([k' v'] & -> & Hin). unfold above in Ha.
  rewrite Forall_forall in Ha. specialize (Ha _ Hin). cbn in Ha. by rewrite less_irrefl in Ha.
Qed.

End Map.
End OMap.

#[export] Instance Z_key : Key Z.
Proof.
  refine {| less := Z.ltb |}.
  - apply Z.ltb_irrefl.
  - intros a b c H1 H2. apply Z.ltb_lt in H1, H2. apply Z.ltb_lt. lia.
  - intros a b H1 H2. apply Z.ltb_ge in H1. apply Z.ltb_lt. lia.
Defined.
