(* ===== verification/SendBuffer.v ===== *)
(** * The send buffer: [Cache::Chunks] (common/src/Cache/Chunk.h, Chunk.cpp)

    A [Chunks] object queues the bytes of outgoing spans in a list of [malloc]ed
    blocks ([ready_cks]), keeps drained blocks for reuse ([free_cks]) and counts
    what it holds in two [uint32_t] counters.  The abstract view is a byte queue,
    [pending]: the theorems show that copying data in appends to it, that draining
    removes a prefix of it, and that no access leaves a block. *)
From Stdlib Require Import ZArith Lia.
From S2P Require Import Prelude.

Module Chunks.

(** ** Data *)

(** [struct DataChunk] with the payload that follows its header in memory. *)
Record DataChunk := mkDataChunk {
  block_size : Z;
  l_ofs : Z;
  r_ofs : Z;
  ck_buf : list byte
}.

(** [sizeof(DataChunk)]: three [uint32_t]. *)
Definition sizeof_DataChunk : Z := 12.

Record Chunks := mkChunks {
  ready_cks : list DataChunk;
  free_cks : list DataChunk;
  c_resident_size : Z;
  c_max_size : Z;
  threshold : Z;
  ck_alloc_size : Z;
  ck_free_ck_capacity : Z
}.

Definition set_lists (this : Chunks) (ready free : list DataChunk) : Chunks :=
  mkChunks ready free (c_resident_size this) (c_max_size this) (threshold this)
    (ck_alloc_size this) (ck_free_ck_capacity this).

Definition set_counters (this : Chunks) (alloc free_cap : Z) : Chunks :=
  mkChunks (ready_cks this) (free_cks this) (c_resident_size this)
    (c_max_size this) (threshold this) alloc free_cap.

(** [Chunks::Chunks]; throws [std::invalid_argument]. *)
Definition new_Chunks (max_size resident_size : Z) : outcome Chunks :=
  if max_size <? resident_size then Throw invalid_argument
  else Ok (mkChunks [] [] resident_size max_size 1024 0 0).

(** ** Copying data in *)

(** The new right end of a chunk after [n] bytes of [data] are written at [r_ofs]. *)
Definition write_at_r (ck : DataChunk) (data : list byte) (n : Z) : outcome DataChunk :=
  buf ← memcpy (ck_buf ck) (r_ofs ck) data n;
  mret (mkDataChunk (block_size ck) (l_ofs ck) (u32 (r_ofs ck + n)) buf).

Definition copyDataIntoReadyCK (this : Chunks) (data : list byte) (length : Z)
  : outcome (Z * Chunks) :=
  match last (ready_cks this) with
  | None => mret (i32 length, this)
  | Some ck =>
      let init := take (pred (List.length (ready_cks this))) (ready_cks this) in
      let capacity := u32 (block_size ck - r_ofs ck) in
      if length <=? capacity then
        ck' ← write_at_r ck data length;
        mret (0, set_lists this (init ++ [ck']) (free_cks this))
      else if 0 <? capacity then
        ck' ← write_at_r ck data capacity;
        mret (i32 (u32 (length - capacity)),
              set_lists this (init ++ [ck']) (free_cks this))
      else mret (i32 length, this)
  end.

(** The [while] loop of [copyDataIntoFreeCK]; [iter] always designates the front
    of [free_cks], because the body pops the element it has just passed. *)
Fixpoint copyFree_loop (free ready : list DataChunk) (cap : Z)
    (data : list byte) (length : Z)
  : outcome (Z * (list DataChunk * list DataChunk * Z)) :=
  match free with
  | [] => mret (i32 length, (free, ready, cap))
  | ck :: free' =>
      if 0 <? length then
        let ck_capacity := u32 (block_size ck - r_ofs ck) in
        if length <=? ck_capacity then
          ck' ← write_at_r ck data length;
          copyFree_loop free' (ready ++ [ck']) (u32 (cap - block_size ck)) data 0
        else if 0 <? ck_capacity then
          ck' ← write_at_r ck data ck_capacity;
          copyFree_loop free' (ready ++ [ck']) (u32 (cap - block_size ck))
            (zdrop ck_capacity data) (u32 (length - ck_capacity))
        else
          copyFree_loop free' (ready ++ [ck]) (u32 (cap - block_size ck)) data length
      else mret (i32 length, (free, ready, cap))
  end.

Definition copyDataIntoFreeCK (this : Chunks) (data : list byte) (length : Z)
  : outcome (Z * Chunks) :=
  match free_cks this with
  | [] => mret (i32 length, this)
  | _ =>
      '(r, (free, ready, cap)) ←
        copyFree_loop (free_cks this) (ready_cks this) (ck_free_ck_capacity this)
          data length;
      mret (r, set_counters (set_lists this ready free) (ck_alloc_size this) cap)
  end.

(** The loop [while (k && !(k & i)) k >>= 1].  A 32-bit [k] is zero after 32
    shifts, so 33 tests are enough for every input. *)
Fixpoint highest_bit_loop (fuel : nat) (k i : Z) : outcome Z :=
  match fuel with
  | O => OutOfFuel
  | S fuel' =>
      if negb (k =? 0) && (Z.land k i =? 0)
      then highest_bit_loop fuel' (Z.shiftr k 1) i
      else Ok k
  end.

Definition ck_ceil_to_k (this : Chunks) (i : Z) : outcome Z :=
  if i <? threshold this then mret (threshold this)
  else k ← highest_bit_loop 33 0x80000000 i; mret (u32 (Z.shiftl k 1)).

(** [malloc] is an input of every call: [None] is the null pointer, [Some b] a
    block whose bytes are [b].  A block it grants has the size asked for. *)
Definition malloc_ok (malloc : Z -> option (list byte)) : Prop :=
  forall n b, 0 <= n -> malloc n = Some b -> zlen b = n.

Definition copyDataIntoNewChunk (malloc : Z -> option (list byte))
    (this : Chunks) (data : list byte) (length : Z) : outcome (Z * Chunks) :=
  k ← ck_ceil_to_k this (u32 (sizeof_DataChunk + length));
  let mem_size := i32 k in
  match malloc (u64 mem_size) with
  | None => mret (-1, this)
  | Some block =>
      if zlen block <? sizeof_DataChunk then UB
      else
        buf ← memcpy (zdrop sizeof_DataChunk block) 0 data length;
        let ck := mkDataChunk (u32 (mem_size - sizeof_DataChunk)) 0 length buf in
        mret (0, set_counters (set_lists this (ready_cks this ++ [ck]) (free_cks this))
                   (u32 (ck_alloc_size this + mem_size)) (ck_free_ck_capacity this))
  end.

Definition copyDataIntoChunks (malloc : Z -> option (list byte))
    (this : Chunks) (data : list byte) (length : Z) : outcome (Z * Chunks) :=
  '(ret1, this1) ← copyDataIntoReadyCK this data length;
  if ret1 =? 0 then mret (0, this1)
  else
    let p1 := zdrop (u32 (length - u32 ret1)) data in
    let length1 := u32 ret1 in
    '(ret2, this2) ← copyDataIntoFreeCK this1 p1 length1;
    if ret2 =? 0 then mret (0, this2)
    else
      let p2 := zdrop (u32 (length1 - u32 ret2)) p1 in
      let length2 := u32 ret2 in
      '(ret3, this3) ← copyDataIntoNewChunk malloc this2 p2 length2;
      if ret3 =? -1 then mret (-1, this3) else mret (0, this3).

(** ** Capacity *)

Definition getAllocSize (this : Chunks) : Z := ck_alloc_size this.

Definition useExistingChunk (this : Chunks) (length : Z) : bool :=
  match last (ready_cks this) with
  | Some c =>
      let available := u32 (block_size c - r_ofs c) in
      if available <? length then false
      else u32 (length - available) <=? ck_free_ck_capacity this
  | None => length <=? ck_free_ck_capacity this
  end.

Definition checkCapacity (this : Chunks) (length : Z) : bool :=
  if negb (useExistingChunk this length)
     && (c_max_size this <? u32 (ck_alloc_size this + length))
  then false else true.

(** ** Giving memory back *)

Definition reduceFreeCK (this : Chunks) : Chunks :=
  match free_cks this with
  | [] => this
  | c :: free' =>
      set_counters (set_lists this (ready_cks this) free')
        (u32 (ck_alloc_size this - (block_size c + sizeof_DataChunk)))
        (u32 (ck_free_ck_capacity this - block_size c))
  end.

(** Every iteration pops [free_cks], so its length bounds the iterations. *)
Fixpoint checkWaterLevel_loop (fuel : nat) (this : Chunks) : Chunks :=
  match fuel with
  | O => this
  | S fuel' =>
      if (c_resident_size this <? ck_alloc_size this)
         && negb (bool_decide (free_cks this = []))
      then checkWaterLevel_loop fuel' (reduceFreeCK this)
      else this
  end.

Definition checkWaterLevel (this : Chunks) : Chunks :=
  checkWaterLevel_loop (length (free_cks this)) this.

(** ** Draining *)

(** The unread bytes of a chunk: the window [ [l_ofs, r_ofs) ] of its payload. *)
Definition content (ck : DataChunk) : list byte :=
  ztake (r_ofs ck - l_ofs ck) (zdrop (l_ofs ck) (ck_buf ck)).

(** The bytes waiting to be sent, in order. *)
Definition pending (this : Chunks) : list byte := concat (content <$> ready_cks this).

Section drain.
Context {W : Type} (in_pipe_cb : list byte -> Z -> M W Z).

(** The [while] loop of [drainOutWithPipe].  [iter] designates the front of
    [ready_cks] throughout: a finished chunk is popped as [iter] moves on. *)
Fixpoint drain_loop (fuel : nat) (this : Chunks) (w : W)
  : outcome (Z * Chunks * W) :=
  match fuel with
  | O => OutOfFuel
  | S fuel' =>
      match ready_cks this with
      | [] => mret (0, checkWaterLevel this, w)
      | cur :: ready' =>
          let cur_size := u32 (r_ofs cur - l_ofs cur) in
          data ← memread (ck_buf cur) (l_ofs cur) cur_size;
          let '(res, w') := in_pipe_cb data cur_size w in
          ret ← res;
          if ret <=? 0 then mret (ret, this, w')
          else if ret =? i32 cur_size then
            let done := mkDataChunk (block_size cur) 0 0 (ck_buf cur) in
            drain_loop fuel'
              (set_counters (set_lists this ready' (done :: free_cks this))
                 (ck_alloc_size this)
                 (u32 (ck_free_ck_capacity this + block_size cur))) w'
          else if ret <? i32 cur_size then
            let cur' := mkDataChunk (block_size cur) (u32 (l_ofs cur + u32 ret))
                          (r_ofs cur) (ck_buf cur) in
            drain_loop fuel' (set_lists this (cur' :: ready') (free_cks this)) w'
          else drain_loop fuel' this w'
      end
  end.

(** Each iteration that goes on consumes at least one pending byte. *)
Definition drainOutWithPipe (this : Chunks) (w : W) : outcome (Z * Chunks * W) :=
  match ready_cks this with
  | [] => mret (0, this, w)
  | _ => drain_loop (S (length (pending this))) this w
  end.
End drain.

(** ** Reset and destruction *)

Fixpoint reset_loop (ready : list DataChunk) (this : Chunks) : Chunks :=
  match ready with
  | [] => this
  | c :: ready' =>
      let c' := mkDataChunk (block_size c) 0 0 (ck_buf c) in
      reset_loop ready'
        (set_counters (set_lists this ready' (free_cks this ++ [c']))
           (ck_alloc_size this) (u32 (ck_free_ck_capacity this + block_size c)))
  end.

Definition resetChunks (this : Chunks) : Chunks :=
  checkWaterLevel (reset_loop (ready_cks this) this).

(** [~Chunks] frees every block of both lists. *)
Definition delete_Chunks (this : Chunks) : Chunks :=
  set_counters (set_lists this [] []) (ck_alloc_size this) 0.

(** ** Well-formedness *)

(** Blocks are powers of two of at most [2^30] bytes, header included. *)
Definition block_ok (ck : DataChunk) : Prop :=
  1000 < block_size ck < 2 ^ 30 /\ zlen (ck_buf ck) = block_size ck.

Definition ready_ok (ck : DataChunk) : Prop :=
  block_ok ck /\ 0 <= l_ofs ck < r_ofs ck /\ r_ofs ck <= block_size ck.

Definition free_ok (ck : DataChunk) : Prop :=
  block_ok ck /\ l_ofs ck = 0 /\ r_ofs ck = 0.

Definition sum_sizes (cks : list DataChunk) : Z :=
  foldr (fun ck n => block_size ck + n) 0 cks.

(** What the blocks occupy, headers included. *)
Definition footprint (cks : list DataChunk) : Z :=
  sum_sizes cks + sizeof_DataChunk * zlen cks.

(** The invariant: blocks are well formed, ready ones hold data, free ones do
    not, and both counters count exactly (modulo [2^32]) what the lists hold. *)
Record wf (this : Chunks) : Prop := mkWf {
  wf_ready : Forall ready_ok (ready_cks this);
  wf_free : Forall free_ok (free_cks this);
  wf_threshold : threshold this = 1024;
  wf_alloc : ck_alloc_size this = u32 (footprint (ready_cks this) + footprint (free_cks this));
  wf_free_cap : ck_free_ck_capacity this = u32 (sum_sizes (free_cks this))
}.

(** ** Lemmas *)

Lemma sum_sizes_app l k : sum_sizes (l ++ k) = sum_sizes l + sum_sizes k.
Proof. induction l as [|ck l IH]; cbn; [done|]. unfold sum_sizes in *. lia. Qed.

Lemma footprint_app l k : footprint (l ++ k) = footprint l + footprint k.
Proof. unfold footprint. rewrite sum_sizes_app, zlen_app. lia. Qed.

Lemma footprint_cons ck l :
  footprint (ck :: l) = block_size ck + sizeof_DataChunk + footprint l.
Proof. unfold footprint. rewrite zlen_cons. cbn. unfold sum_sizes, sizeof_DataChunk. lia. Qed.

Lemma footprint_nil : footprint [] = 0.
Proof. done. Qed.

Lemma content_length ck :
  block_ok ck -> 0 <= l_ofs ck <= r_ofs ck -> r_ofs ck <= block_size ck ->
  zlen (content ck) = r_ofs ck - l_ofs ck.
Proof.
  intros [_ Hl] ??. unfold content. apply zlen_ztake. rewrite zlen_zdrop; lia.
Qed.

(** What writing at the right end does to a chunk. *)
Lemma write_at_r_ok ck data n :
  block_ok ck -> 0 <= l_ofs ck <= r_ofs ck -> 0 <= n ->
  r_ofs ck + n <= block_size ck -> n <= zlen data ->
  exists buf, write_at_r ck data n
              = Ok (mkDataChunk (block_size ck) (l_ofs ck) (r_ofs ck + n) buf)
    /\ zlen buf = block_size ck
    /\ content (mkDataChunk (block_size ck) (l_ofs ck) (r_ofs ck + n) buf)
       = content ck ++ ztake n data.
Proof.
  intros [Hb Hl] Hlr Hn Hcap Hdata. unfold write_at_r.
  rewrite memcpy_ok by lia. cbn [mbind outcome_bind].
  rewrite u32_small by word.
  eexists; split; [reflexivity|]. split.
  { rewrite !zlen_app, !zlen_ztake, zlen_zdrop; lia. }
  unfold content; cbn. rewrite zdrop_app_l by (rewrite zlen_ztake; lia).
  assert (zdrop (l_ofs ck) (ztake (r_ofs ck) (ck_buf ck))
          = ztake (r_ofs ck - l_ofs ck) (zdrop (l_ofs ck) (ck_buf ck))) as ->.
  { unfold ztake, zdrop. rewrite skipn_firstn_comm. f_equal. lia. }
  rewrite app_assoc. apply ztake_app_eq.
  rewrite zlen_app, !zlen_ztake; rewrite ?zlen_zdrop; lia.
Qed.

Lemma concat_snoc ready ck :
  concat (content <$> ready ++ [ck]) = concat (content <$> ready) ++ content ck.
Proof. rewrite fmap_app, concat_app. cbn. by rewrite app_nil_r. Qed.

Lemma pending_snoc this init ck :
  ready_cks this = init ++ [ck] ->
  pending this = concat (content <$> init) ++ content ck.
Proof. intros E. unfold pending. by rewrite E, concat_snoc. Qed.

(** Extending the last ready chunk keeps the invariant and appends to [pending]. *)
Lemma grow_last this init ck ck' d :
  wf this -> ready_cks this = init ++ [ck] -> ready_ok ck' ->
  block_size ck' = block_size ck -> content ck' = content ck ++ d ->
  wf (set_lists this (init ++ [ck']) (free_cks this))
  /\ pending (set_lists this (init ++ [ck']) (free_cks this)) = pending this ++ d.
Proof.
  intros [Hr Hf Ht Ha Hc] E Hok Hbs Hcont. split.
  - split; cbn; try done.
    + rewrite E in Hr. apply Forall_app in Hr as [Hi _]. apply Forall_app; auto.
    + rewrite Ha, E, !footprint_app, !footprint_cons. f_equal. lia.
  - rewrite (pending_snoc this init ck E).
    rewrite (pending_snoc _ init ck') by done. by rewrite Hcont, app_assoc.
Qed.

Lemma write_at_r_grow ck data n :
  ready_ok ck -> 0 <= n -> r_ofs ck + n <= block_size ck -> n <= zlen data ->
  exists ck', write_at_r ck data n = Ok ck' /\ ready_ok ck'
    /\ block_size ck' = block_size ck /\ content ck' = content ck ++ ztake n data.
Proof.
  intros (Hb & Hlr & Hrb) Hn Hcap Hdata.
  destruct (write_at_r_ok ck data n) as (buf & -> & Hbl & Hcont); [done|lia..|].
  eexists; split_and!; [done| |done|done].
  destruct Hb. unfold ready_ok, block_ok; cbn. lia.
Qed.

(** The part of the state that copying into existing chunks leaves alone. *)
Definition same_limits (this this' : Chunks) : Prop :=
  c_max_size this' = c_max_size this /\ c_resident_size this' = c_resident_size this
  /\ ck_alloc_size this' = ck_alloc_size this.

(** The room left in the chunk that takes new data first, and overall. *)
Definition last_room (this : Chunks) : Z :=
  match last (ready_cks this) with Some ck => block_size ck - r_ofs ck | None => 0 end.

Definition room (this : Chunks) : Z := last_room this + sum_sizes (free_cks this).

Lemma copyDataIntoReadyCK_spec this data :
  wf this -> zlen data < 2 ^ 30 ->
  exists n this', copyDataIntoReadyCK this data (zlen data) = Ok (zlen data - n, this')
    /\ 0 <= n <= zlen data /\ wf this'
    /\ pending this' = pending this ++ ztake n data
    /\ free_cks this' = free_cks this /\ same_limits this this'
    /\ (n < zlen data -> n = last_room this).
Proof.
  intros Hwf Hlen. pose proof (zlen_nonneg data). unfold copyDataIntoReadyCK, last_room.
  assert (exists this', Ok (i32 (zlen data), this) = Ok (zlen data - 0, this')
    /\ wf this' /\ pending this' = pending this ++ ztake 0 data
    /\ free_cks this' = free_cks this /\ same_limits this this') as [this0 Hstay].
  { exists this. rewrite i32_small, Z.sub_0_r, ztake_0, app_nil_r by word. done. }
  destruct (last (ready_cks this)) as [ck|] eqn:E; [|exists 0, this0; intuition lia].
  apply last_Some in E as [init E].
  assert (take (pred (length (ready_cks this))) (ready_cks this) = init) as ->.
  { rewrite E, length_app. cbn. rewrite Nat.add_1_r. apply take_app_length. }
  assert (ready_ok ck) as Hck.
  { pose proof (wf_ready _ Hwf) as Hr. rewrite E in Hr. by apply Forall_app in Hr as [_ [? _]%Forall_cons]. }
  pose proof Hck as ((Hbs & _) & Hlr & Hrb).
  rewrite (u32_small (block_size ck - r_ofs ck)) by word.
  repeat case_if; [| |exists 0, this0; intuition lia].
  - destruct (write_at_r_grow ck data (zlen data)) as (ck' & -> & Hok & Hb' & Hc'); [done|lia..|].
    destruct (grow_last this init ck ck' _ Hwf E Hok Hb' Hc') as [Hwf' Hp].
    exists (zlen data). eexists. rewrite Z.sub_diag. cbn. split_and!; try done; lia.
  - remember (block_size ck - r_ofs ck) as n eqn:Hn.
    destruct (write_at_r_grow ck data n) as (ck' & -> & Hok & Hb' & Hc'); [done|lia..|].
    destruct (grow_last this init ck ck' _ Hwf E Hok Hb' Hc') as [Hwf' Hp].
    exists n. eexists. rewrite u32_small, i32_small by word. cbn. split_and!; try done; lia.
Qed.

Lemma free_write ck data n :
  free_ok ck -> 0 < n <= block_size ck -> n <= zlen data ->
  exists ck', write_at_r ck data n = Ok ck' /\ ready_ok ck'
    /\ block_size ck' = block_size ck /\ content ck' = ztake n data.
Proof.
  intros (Hb & Hl & Hr) Hn Hdata.
  destruct (write_at_r_ok ck data n) as (buf & -> & Hbl & Hcont); [done|lia..|].
  eexists; split_and!; [done| |done|].
  - destruct Hb. unfold ready_ok, block_ok; cbn. lia.
  - rewrite Hcont. unfold content. by rewrite Hl, Hr.
Qed.

Lemma copyFree_loop_spec free : forall ready cap data,
  Forall free_ok free -> Forall ready_ok ready -> zlen data < 2 ^ 30 ->
  exists n free' ready' cap',
    copyFree_loop free ready cap data (zlen data)
      = Ok (zlen data - n, (free', ready', cap'))
    /\ 0 <= n <= zlen data
    /\ Forall free_ok free' /\ Forall ready_ok ready'
    /\ concat (content <$> ready') = concat (content <$> ready) ++ ztake n data
    /\ footprint ready' + footprint free' = footprint ready + footprint free
    /\ (cap = u32 (sum_sizes free) -> cap' = u32 (sum_sizes free'))
    /\ (n < zlen data -> n = sum_sizes free).
Proof.
  induction free as [|ck free IH]; intros ready cap data Hf Hr Hlen;
    pose proof (zlen_nonneg data); cbn [copyFree_loop].
  { exists 0, [], ready, cap. rewrite i32_small, Z.sub_0_r, ztake_0, app_nil_r by word.
    split_and!; try done; lia. }
  apply Forall_cons in Hf as [Hck Hf]. pose proof Hck as ((Hbs & _) & Hl0 & Hr0).
  assert (Hcapa : forall cap, cap = u32 (sum_sizes (ck :: free)) ->
            u32 (cap - block_size ck) = u32 (sum_sizes free)).
  { intros ? ->. cbn. rewrite wrapU_sub_l. unfold sum_sizes. f_equal. lia. }
  rewrite Hr0, Z.sub_0_r, (u32_small (block_size ck)) by word.
  repeat case_if; [| |lia|].
  - destruct (free_write ck data (zlen data)) as (ck' & -> & Hok & Hb' & Hc'); [done|lia..|].
    exists (zlen data), free, (ready ++ [ck']), (u32 (cap - block_size ck)).
    rewrite Z.sub_diag. cbn.
    split. { destruct free; done. }
    rewrite concat_snoc, Hc', !footprint_app, !footprint_cons.
    split_and!; try done; try lia; try (by apply Forall_app; auto); auto.
    rewrite footprint_nil. lia.
  - destruct (free_write ck data (block_size ck)) as (ck' & -> & Hok & Hb' & Hc'); [done|lia..|].
    cbn [mbind outcome_bind].
    rewrite (u32_small (zlen data - block_size ck)) by word.
    rewrite <- (zlen_zdrop (block_size ck) data) by lia.
    destruct (IH (ready ++ [ck']) (u32 (cap - block_size ck)) (zdrop (block_size ck) data))
      as (n & free' & ready' & cap' & -> & Hn & Hf' & Hr' & Hcc & Hfoot & Hcap' & Hex); try done.
    { by apply Forall_app; auto. } { rewrite zlen_zdrop; lia. }
    rewrite zlen_zdrop in * by lia.
    exists (block_size ck + n), free', ready', cap'.
    rewrite Hcc, concat_snoc, Hc', <- app_assoc, ztake_split by lia.
    split. { do 2 f_equal. lia. }
    split_and!; try done; try lia; auto.
    + rewrite footprint_app, !footprint_cons in *. rewrite footprint_nil in *. lia.
    + intros. rewrite Hex by lia. done.
  - exists 0, (ck :: free), ready, cap.
    rewrite i32_small, Z.sub_0_r, ztake_0, app_nil_r by word. split_and!; try done; try lia. auto.
Qed.

Lemma land_pow2_zero j i : 0 <= j -> (Z.land (2 ^ j) i =? 0) = negb (Z.testbit i j).
Proof.
  intros Hj. destruct (Z.testbit i j) eqn:E; cbn.
  - apply Z.eqb_neq. intros H0.
    assert (Z.testbit (Z.land (2 ^ j) i) j = false) as F by (rewrite H0; apply Z.bits_0).
    rewrite Z.land_spec, Z.pow2_bits_true, E in F by lia. done.
  - apply Z.eqb_eq. apply Z.bits_inj'. intros m Hm. rewrite Z.land_spec, Z.bits_0.
    destruct (decide (m = j)) as [->|].
    + by rewrite E, andb_false_r.
    + by rewrite Z.pow2_bits_false by lia.
Qed.

Lemma highest_bit_loop_spec (j : nat) : forall fuel i,
  (j < fuel)%nat -> 0 < i < 2 ^ (Z.of_nat j + 1) ->
  highest_bit_loop fuel (2 ^ Z.of_nat j) i = Ok (2 ^ Z.log2 i).
Proof.
  induction j as [|j IH]; intros [|fuel] i Hf Hi; try lia;
    cbn [highest_bit_loop]; rewrite (proj2 (Z.eqb_neq _ _)) by
      (apply Z.pow_nonzero; lia); rewrite land_pow2_zero by lia; cbn [negb andb].
  - assert (i = 1) as -> by (cbn in Hi; lia). done.
  - destruct (Z.le_gt_cases (2 ^ Z.of_nat (S j)) i) as [Hge|Hlt].
    + assert (Z.log2 i = Z.of_nat (S j)) as E by (apply Z.log2_unique; lia).
      rewrite <- E at 1. rewrite Z.bit_log2 by lia. cbn. by rewrite E.
    + assert (Z.testbit i (Z.of_nat (S j)) = false) as ->.
      { apply Z.testbit_false; [lia|]. by rewrite Z.div_small by lia. }
      cbn [negb].
      replace (Z.shiftr (2 ^ Z.of_nat (S j)) 1) with (2 ^ Z.of_nat j).
      * apply IH; [lia|]. rewrite Nat2Z.inj_succ in Hlt. lia.
      * rewrite Z.shiftr_div_pow2, Nat2Z.inj_succ, Z.pow_succ_r by lia.
        change (2 ^ 1) with 2. rewrite Z.mul_comm, Z.div_mul; lia.
Qed.

Lemma ck_ceil_to_k_big this i :
  threshold this = 1024 -> 1024 <= i < 2 ^ 32 ->
  ck_ceil_to_k this i = Ok (u32 (2 ^ (Z.log2 i + 1))).
Proof.
  intros Ht Hi. unfold ck_ceil_to_k. rewrite Ht. case_if; [lia|].
  change 0x80000000 with (2 ^ Z.of_nat 31).
  rewrite highest_bit_loop_spec by (cbn; lia). cbn.
  by rewrite Z.shiftl_mul_pow2, Z.pow_add_r by (try apply Z.log2_nonneg; lia).
Qed.

(** The size of a new block: a power of two that exceeds the request. *)
Lemma ck_ceil_to_k_spec this i :
  threshold this = 1024 -> 0 <= i < 2 ^ 30 ->
  exists k, ck_ceil_to_k this i = Ok k /\ i < k /\ 1024 <= k <= 2 ^ 30
    /\ k <= Z.max 1024 (2 * i).
Proof.
  intros Ht Hi. destruct (Z.lt_ge_cases i 1024) as [Hlt|Hge].
  - exists 1024. unfold ck_ceil_to_k. rewrite Ht. case_if; [|lia]. split_and!; try done; lia.
  - rewrite ck_ceil_to_k_big by lia.
    pose proof (Z.log2_spec i ltac:(lia)) as [Hlo Hhi]. rewrite <- Z.add_1_r in Hhi.
    assert (10 <= Z.log2 i) by (apply Z.log2_le_pow2; lia).
    assert (Z.log2 i < 30) by (apply Z.log2_lt_pow2; lia).
    pose proof (Z.pow_le_mono_r 2 (Z.log2 i + 1) 30 ltac:(lia) ltac:(lia)).
    rewrite u32_small by word. eexists; split; [done|].
    rewrite Z.pow_add_r in * by lia. lia.
Qed.

Lemma copyDataIntoNewChunk_spec malloc this data :
  wf this -> 0 < zlen data -> zlen data + sizeof_DataChunk < 2 ^ 30 ->
  malloc_ok malloc ->
  (exists k, malloc k = None /\ copyDataIntoNewChunk malloc this data (zlen data) = Ok (-1, this))
  \/ exists this' k, copyDataIntoNewChunk malloc this data (zlen data) = Ok (0, this')
    /\ wf this' /\ pending this' = pending this ++ data
    /\ free_cks this' = free_cks this
    /\ 0 <= k <= Z.max 1024 (2 * (sizeof_DataChunk + zlen data))
    /\ ck_alloc_size this' = u32 (ck_alloc_size this + k)
    /\ c_max_size this' = c_max_size this /\ c_resident_size this' = c_resident_size this.
Proof.
  unfold sizeof_DataChunk. intros Hwf Hpos Hlen Hm. unfold copyDataIntoNewChunk, sizeof_DataChunk.
  destruct (ck_ceil_to_k_spec this (12 + zlen data)) as (k & Hk & Hlt & Hrange & Hmax);
    [apply Hwf|lia|].
  rewrite (u32_small (12 + zlen data)) by word. rewrite Hk. cbn [mbind outcome_bind].
  rewrite i32_small, u64_small by word.
  destruct (malloc k) as [block|] eqn:E; [right|left; eauto].
  apply Hm in E; [|lia]. rewrite E. case_if; [lia|].
  rewrite memcpy_ok by (rewrite ?zlen_zdrop; lia). cbn [mbind outcome_bind].
  rewrite ztake_0, (ztake_all (zlen data) data) by lia. cbn [app].
  rewrite (u32_small (k - 12)) by word.
  set (ck := mkDataChunk (k - 12) 0 (zlen data) _).
  assert (content ck = data) as Hc.
  { unfold content, ck. cbn. rewrite zdrop_0, Z.sub_0_r. by apply ztake_app_eq. }
  destruct Hwf as [Hr Hf Ht Ha Hca].
  eexists _, k. split_and!; [done| |rewrite (pending_snoc _ (ready_cks this) ck), Hc by done; done
    |done|lia|done..].
  split; cbn [ready_cks free_cks threshold ck_alloc_size ck_free_ck_capacity set_lists set_counters];
    try done.
  - apply Forall_app; split; [done|]. apply Forall_singleton.
    unfold ready_ok, block_ok, ck; cbn. rewrite zlen_app, !zlen_zdrop; rewrite ?zlen_zdrop; lia.
  - rewrite Ha, wrapU_add_l, footprint_app, footprint_cons, footprint_nil. unfold ck, sizeof_DataChunk; cbn.
    f_equal. lia.
Qed.

Lemma copyDataIntoFreeCK_spec this data :
  wf this -> zlen data < 2 ^ 30 ->
  exists n this', copyDataIntoFreeCK this data (zlen data) = Ok (zlen data - n, this')
    /\ 0 <= n <= zlen data /\ wf this'
    /\ pending this' = pending this ++ ztake n data /\ same_limits this this'
    /\ (n < zlen data -> n = sum_sizes (free_cks this)).
Proof.
  intros Hwf Hlen. pose proof (zlen_nonneg data). unfold copyDataIntoFreeCK.
  destruct (copyFree_loop_spec (free_cks this) (ready_cks this) (ck_free_ck_capacity this) data)
    as (n & free' & ready' & cap' & E & Hn & Hf & Hr & Hp & Hfoot & Hcap & Hex);
    [apply Hwf..|done|].
  exists n, (set_counters (set_lists this ready' free') (ck_alloc_size this) cap').
  split_and!; [|lia|lia| |done|done..].
  - rewrite E. destruct (free_cks this) eqn:Efree; [|done].
    cbn in E. injection E as <- <- <- <-. destruct this; cbn in *; by subst.
  - destruct Hwf as [_ _ Ht Ha Hc]. split; cbn; try done; [|by apply Hcap].
    rewrite Ha. f_equal. lia.
Qed.

(** The whole copy: what it returns, what it appends, what it allocates. *)
Lemma copyDataIntoChunks_spec malloc this data :
  wf this -> zlen data + sizeof_DataChunk < 2 ^ 30 ->
  malloc_ok malloc ->
  exists ret this' k, copyDataIntoChunks malloc this data (zlen data) = Ok (ret, this')
    /\ wf this'
    /\ (ret = 0 /\ pending this' = pending this ++ data
        \/ ret = -1 /\ (exists m, malloc m = None) /\ k = 0 /\ room this < zlen data
           /\ exists n, 0 <= n < zlen data /\ pending this' = pending this ++ ztake n data)
    /\ 0 <= k <= Z.max 1024 (2 * (sizeof_DataChunk + zlen data))
    /\ (k = 0 \/ room this < zlen data)
    /\ ck_alloc_size this' = u32 (ck_alloc_size this + k)
    /\ c_max_size this' = c_max_size this /\ c_resident_size this' = c_resident_size this.
Proof.
  unfold sizeof_DataChunk. intros Hwf Hlen Hm. pose proof (zlen_nonneg data).
  assert (Halloc : u32 (ck_alloc_size this + 0) = ck_alloc_size this).
  { rewrite Z.add_0_r. apply u32_small. rewrite (wf_alloc _ Hwf). apply u32_range. }
  unfold copyDataIntoChunks.
  destruct (copyDataIntoReadyCK_spec this data) as (n1 & this1 & -> & Hn1 & Hwf1 & Hp1 & Hf1 & Hl1 & Hroom1);
    [done|lia|]. destruct Hl1 as (Hx1 & Hs1 & Ha1). cbn [mbind outcome_bind].
  case_if. { assert (n1 = zlen data) as -> by lia. rewrite ztake_all in Hp1 by lia.
    exists 0, this1, 0. rewrite Halloc. split_and!; try done; try lia; by left. }
  rewrite (u32_small (zlen data - n1)), (u32_small (zlen data - _)) by word.
  replace (zlen data - (zlen data - n1)) with n1 by lia.
  rewrite <- (zlen_zdrop n1 data) by lia.
  destruct (copyDataIntoFreeCK_spec this1 (zdrop n1 data)) as (n2 & this2 & -> & Hn2 & Hwf2 & Hp2 & Hl2 & Hroom2);
    [done|rewrite zlen_zdrop; lia|]. destruct Hl2 as (Hx2 & Hs2 & Ha2). cbn [mbind outcome_bind].
  rewrite zlen_zdrop in * by lia.
  assert (pending this2 = pending this ++ ztake (n1 + n2) data) as Hp.
  { by rewrite Hp2, Hp1, <- app_assoc, ztake_split by lia. }
  case_if. { rewrite ztake_all in Hp by lia. exists 0, this2, 0. rewrite Halloc.
    split_and!; try done; [by left|lia|lia|congruence..]. }
  rewrite (u32_small (zlen data - n1 - n2)), (u32_small (zlen data - n1 - _)) by word.
  replace (zlen data - n1 - (zlen data - n1 - n2)) with n2 by lia.
  rewrite zdrop_zdrop by lia.
  replace (zlen data - n1 - n2) with (zlen (zdrop (n1 + n2) data)) by (rewrite zlen_zdrop; lia).
  destruct (copyDataIntoNewChunk_spec malloc this2 (zdrop (n1 + n2) data))
    as [(m & Hnone & ->)|(this3 & k & -> & Hwf3 & Hp3 & _ & Hk & Ha3 & Hx3 & Hs3)];
    unfold sizeof_DataChunk in *; try done; rewrite ?zlen_zdrop in * by lia; try lia; cbn.
  - exists (-1), this2, 0. rewrite Halloc. split_and!; try done; [right|lia|lia|congruence..].
    split_and!; eauto; [unfold room; rewrite <- Hf1; lia|].
    exists (n1 + n2). split; [lia|done].
  - exists 0, this3, k. split_and!; try done; [left|lia|lia|right|congruence..].
    2: { unfold room. rewrite <- Hf1. lia. }
    rewrite Hp3, Hp, <- app_assoc, ztake_zdrop. done.
Qed.

Lemma reduceFreeCK_wf this : wf this -> wf (reduceFreeCK this).
Proof.
  intros [Hr Hf Ht Ha Hc]. unfold reduceFreeCK.
  destruct (free_cks this) as [|c free'] eqn:E; [by split; rewrite ?E|].
  apply Forall_cons in Hf as [_ Hf]. split; cbn; try done.
  - rewrite Ha, wrapU_sub_l, footprint_cons. f_equal. lia.
  - rewrite Hc, wrapU_sub_l. cbn. unfold sum_sizes. f_equal. lia.
Qed.

(** The loop that trims [free_cks]: what it keeps and when it stops. *)
Lemma checkWaterLevel_spec this :
  wf this ->
  wf (checkWaterLevel this)
  /\ ready_cks (checkWaterLevel this) = ready_cks this
  /\ c_resident_size (checkWaterLevel this) = c_resident_size this
  /\ c_max_size (checkWaterLevel this) = c_max_size this
  /\ (exists gone, free_cks this = gone ++ free_cks (checkWaterLevel this))
  /\ (free_cks (checkWaterLevel this) = []
      \/ ck_alloc_size (checkWaterLevel this) <= c_resident_size this).
Proof.
  unfold checkWaterLevel. remember (length (free_cks this)) as fuel eqn:Hfuel.
  assert (length (free_cks this) <= fuel)%nat as Hle by lia. clear Hfuel. revert this Hle.
  induction fuel as [|fuel IH]; intros this Hle Hwf; cbn [checkWaterLevel_loop].
  { destruct (free_cks this) eqn:E; [|cbn in Hle; lia].
    split_and!; try done; [by exists []|by left]. }
  destruct (free_cks this) as [|c free'] eqn:E.
  { rewrite bool_decide_eq_true_2, andb_false_r by done.
    split_and!; try done; [by exists []|by left]. }
  rewrite bool_decide_eq_false_2, andb_true_r by done. case_if.
  - destruct (IH (reduceFreeCK this)) as (H1 & H2 & H3 & H4 & (gone & H5) & H6).
    + unfold reduceFreeCK. rewrite E. cbn in *. lia.
    + by apply reduceFreeCK_wf.
    + assert (ready_cks (reduceFreeCK this) = ready_cks this
        /\ c_resident_size (reduceFreeCK this) = c_resident_size this
        /\ c_max_size (reduceFreeCK this) = c_max_size this
        /\ free_cks (reduceFreeCK this) = free') as (R1 & R2 & R3 & R4).
      { unfold reduceFreeCK. by rewrite E. }
      rewrite R1 in H2; rewrite R2 in H3, H6; rewrite R3 in H4; rewrite R4 in H5.
      split_and!; try done. exists (c :: gone). cbn. by f_equal.
  - split_and!; try done; [by exists []|by right; lia].
Qed.

Lemma checkWaterLevel_pending this : wf this -> pending (checkWaterLevel this) = pending this.
Proof. intros H. unfold pending. by destruct (checkWaterLevel_spec this H) as (_ & -> & _). Qed.

Lemma reset_loop_spec ready : forall this,
  wf this -> ready_cks this = ready ->
  wf (reset_loop ready this) /\ ready_cks (reset_loop ready this) = []
  /\ ck_alloc_size (reset_loop ready this) = ck_alloc_size this
  /\ c_resident_size (reset_loop ready this) = c_resident_size this
  /\ c_max_size (reset_loop ready this) = c_max_size this.
Proof.
  induction ready as [|c ready IH]; intros this Hwf E; cbn; [done|].
  destruct Hwf as [Hr Hf Ht Ha Hc]. rewrite E in *. apply Forall_cons in Hr as [Hck Hr].
  apply (IH (set_counters (set_lists this ready
    (free_cks this ++ [mkDataChunk (block_size c) 0 0 (ck_buf c)]))
    (ck_alloc_size this) (u32 (ck_free_ck_capacity this + block_size c)))); [|done].
  split; cbn; try done.
  - apply Forall_app; split; [done|]. apply Forall_singleton. split; [apply Hck|done].
  - rewrite Ha, footprint_app, !footprint_cons, footprint_nil. f_equal. cbn. lia.
  - rewrite Hc, wrapU_add_l, sum_sizes_app. f_equal. cbn. lia.
Qed.

(** ** The pipe interface

    [drainOutWithPipe] hands each block to a callback.  [Pipe cb sent blocked] is
    what it expects of it: the callback reports how many bytes of the block it
    took (-1 for a broken pipe), [sent] grows by exactly those bytes, and
    [blocked] tells whether the last block was taken in full. *)
Class Pipe {W : Type} (cb : list byte -> Z -> M W Z)
    (sent : W -> list byte) (blocked : W -> bool) := {
  pipe_step b w : zlen b < 2 ^ 31 -> exists ret w', cb b (zlen b) w = (Ok ret, w')
    /\ -1 <= ret <= zlen b
    /\ (0 <= ret -> sent w' = sent w ++ ztake ret b /\ blocked w' = (ret <? zlen b))
    /\ (ret = -1 -> exists n, 0 <= n <= zlen b /\ sent w' = sent w ++ ztake n b)
}.

Lemma ready_content ck :
  ready_ok ck ->
  u32 (r_ofs ck - l_ofs ck) = zlen (content ck)
  /\ memread (ck_buf ck) (l_ofs ck) (zlen (content ck)) = Ok (content ck)
  /\ 0 < zlen (content ck) < 2 ^ 30.
Proof.
  intros (Hb & Hlr & Hrb). pose proof (content_length ck Hb ltac:(lia) Hrb) as Hl.
  destruct Hb as [Hbs Hbuf]. rewrite Hl. split_and!; [|by rewrite memread_ok by lia|lia|lia].
  by apply u32_small; word.
Qed.

(** A finished chunk goes to the front of the free list, emptied. *)
Lemma wf_pop_front this cur ready' :
  wf this -> ready_cks this = cur :: ready' ->
  wf (set_counters
        (set_lists this ready' (mkDataChunk (block_size cur) 0 0 (ck_buf cur) :: free_cks this))
        (ck_alloc_size this) (u32 (ck_free_ck_capacity this + block_size cur))).
Proof.
  intros [Hr Hf Ht Ha Hc] E. rewrite E in *. apply Forall_cons in Hr as [Hck Hr].
  split; cbn; try done.
  - constructor; [|done]. split; [apply Hck|done].
  - rewrite Ha, !footprint_cons. f_equal. cbn. lia.
  - rewrite Hc, wrapU_add_l. f_equal. unfold sum_sizes. lia.
Qed.

(** A chunk of which [n] bytes were taken keeps the rest. *)
Lemma advance_ready ck n :
  ready_ok ck -> 0 < n < zlen (content ck) ->
  let ck' := mkDataChunk (block_size ck) (u32 (l_ofs ck + u32 n)) (r_ofs ck) (ck_buf ck) in
  ready_ok ck' /\ content ck' = zdrop n (content ck).
Proof.
  intros Hok Hn. destruct Hok as (Hb & Hlr & Hrb).
  rewrite content_length in Hn by (done || lia). destruct Hb as [Hbs Hbuf]. cbn.
  rewrite (u32_small n), (u32_small (l_ofs ck + n)) by word. split.
  - unfold ready_ok, block_ok; cbn. lia.
  - unfold content; cbn. rewrite <- zdrop_zdrop by lia.
    unfold ztake, zdrop. rewrite (skipn_firstn_comm (Z.to_nat n)). f_equal. lia.
Qed.

Lemma wf_advance this cur ready' n :
  wf this -> ready_cks this = cur :: ready' -> 0 < n < zlen (content cur) ->
  let cur' := mkDataChunk (block_size cur) (u32 (l_ofs cur + u32 n)) (r_ofs cur) (ck_buf cur) in
  wf (set_lists this (cur' :: ready') (free_cks this))
  /\ pending this = ztake n (content cur) ++ pending (set_lists this (cur' :: ready') (free_cks this)).
Proof.
  intros [Hr Hf Ht Ha Hc] E Hn cur'. rewrite E in *. apply Forall_cons in Hr as [Hck Hr].
  destruct (advance_ready cur n Hck Hn) as [Hok Hcont]. split.
  - by split; cbn; [constructor|..].
  - unfold pending. rewrite E. cbn [ready_cks set_lists]. rewrite !fmap_cons. cbn [concat].
    unfold cur'. by rewrite Hcont, app_assoc, ztake_zdrop.
Qed.

Section drain_proofs.
Context {W : Type} {cb : list byte -> Z -> M W Z}
        {sent : W -> list byte} {blocked : W -> bool} `{!Pipe cb sent blocked}.

(** What a drain achieves, in terms of the byte queue. *)
Definition drained (this : Chunks) (w : W) (ret : Z) (this' : Chunks) (w' : W) : Prop :=
  wf this' /\ -1 <= ret <= 0
  /\ c_resident_size this' = c_resident_size this
  /\ (exists out, sent w' = sent w ++ out /\ out `prefix_of` pending this
      /\ (ret = 0 -> pending this = out ++ pending this'))
  /\ (ret = 0 -> blocked w' = negb (bool_decide (pending this' = [])))
  /\ (ret = 0 -> pending this' = [] ->
      free_cks this' = [] \/ ck_alloc_size this' <= c_resident_size this').

Lemma drained_step this w this1 w1 out ret this' w' :
  sent w1 = sent w ++ out -> pending this = out ++ pending this1 ->
  c_resident_size this1 = c_resident_size this ->
  drained this1 w1 ret this' w' -> drained this w ret this' w'.
Proof.
  intros Hs Hp Hc (Hwf & Hret & Hc' & (out' & Hs' & Hpre & Hp') & Hb & Hf).
  split_and!; try done; try lia; try congruence.
  exists (out ++ out'). rewrite Hs', Hs, Hp, app_assoc. split_and!; [done| |].
  - by apply prefix_app.
  - intros Hr. by rewrite (Hp' Hr), app_assoc.
Qed.

Lemma drain_loop_spec fuel : forall this w,
  wf this -> (length (pending this) < fuel)%nat ->
  (ready_cks this = [] -> blocked w = false) ->
  exists ret this' w', drain_loop cb fuel this w = Ok (ret, this', w')
    /\ drained this w ret this' w'.
Proof.
  induction fuel as [|fuel IH]; intros this w Hwf Hfuel Hbl; [lia|]. cbn [drain_loop].
  destruct (ready_cks this) as [|cur ready'] eqn:E.
  { pose proof (checkWaterLevel_spec this Hwf) as (Hw & _ & Hres & _ & _ & Hstop).
    assert (pending this = []) as Hp by (unfold pending; by rewrite E).
    eexists 0, _, w; split; [done|]. split_and!; try done.
    - exists []. rewrite checkWaterLevel_pending, app_nil_r by done. split_and!; try done.
      apply prefix_nil.
    - rewrite checkWaterLevel_pending, Hp, bool_decide_eq_true_2 by done. by intros; apply Hbl.
    - rewrite Hres. done. }
  assert (ready_ok cur) as Hcur by (pose proof (wf_ready _ Hwf) as Hr; rewrite E in Hr; by inversion Hr).
  destruct (ready_content cur Hcur) as (-> & -> & Hsz). cbn [mbind outcome_bind].
  assert (zlen (content cur) < 2 ^ 31) as H31 by lia.
  assert (pending this = content cur ++ concat (content <$> ready')) as Hp
    by (unfold pending; by rewrite E).
  destruct (pipe_step (content cur) w H31) as (ret & w1 & -> & Hrange & Hsent & Hbroken).
  cbn [mbind outcome_bind].
  rewrite i32_small by word. repeat case_if; [| | |lia].
  - exists ret, this, w1. split; [done|]. split_and!; try done; try lia.
    + destruct (decide (ret = 0)) as [->|].
      * exists []. destruct Hsent as [-> _]; [lia|]. split_and!; try done. apply prefix_nil.
      * destruct Hbroken as (k & Hk & Hs); [lia|]. exists (ztake k (content cur)).
        split_and!; [done| |lia]. rewrite Hp. apply prefix_app_r. exists (zdrop k (content cur)).
        by rewrite ztake_zdrop.
    + intros ->. destruct Hsent as [_ ->]; [lia|]. rewrite bool_decide_eq_false_2 by
        (rewrite Hp; destruct (content cur); [unfold zlen in Hsz; cbn in Hsz; lia|done]).
      cbn. apply Z.ltb_lt. lia.
    + intros _ Hnil. rewrite Hp in Hnil. apply app_eq_nil in Hnil as [Hnil _].
      rewrite Hnil in Hsz. unfold zlen in Hsz. cbn in Hsz. lia.
  - subst ret. destruct Hsent as [Hsent Hblocked]; [lia|].
    rewrite ztake_all in Hsent by lia. rewrite Z.ltb_irrefl in Hblocked.
    edestruct IH as (ret & this' & w' & -> & Hd); [by apply wf_pop_front| | |].
    { unfold pending; cbn. rewrite Hp, length_app in Hfuel. unfold zlen in Hsz. lia. }
    { done. }
    exists ret, this', w'. split; [done|]. eapply drained_step; [..|exact Hd]; done.
  - destruct (wf_advance this cur ready' ret Hwf E ltac:(lia)) as [Hwf' Hp'].
    edestruct IH as (ret' & this' & w' & -> & Hd); [exact Hwf'| |done|].
    { rewrite Hp', length_app in Hfuel.
      assert (zlen (ztake ret (content cur)) = ret) as Hl by (rewrite zlen_ztake; lia).
      unfold zlen in Hl. lia. }
    exists ret', this', w'. split; [done|]. eapply drained_step; [..|exact Hd]; [apply Hsent; lia|exact Hp'|done].
Qed.

End drain_proofs.

(** Whatever the pipe keeps, call by call, a whole drain keeps. *)
Lemma drain_keeps {W : Type} (cb : list byte -> Z -> M W Z) (R : W -> W -> Prop)
    `{!PreOrder R} :
  (forall b n w r w', cb b n w = (r, w') -> R w w') ->
  forall this w ret this' w', drainOutWithPipe cb this w = Ok (ret, this', w') -> R w w'.
Proof.
  intros Hcb this w ret this' w'. unfold drainOutWithPipe.
  destruct (ready_cks this) as [|c cs]; [by intros [= _ _ ->]|].
  generalize (S (length (pending this))). intros fuel. revert this w.
  induction fuel as [|fuel IH]; intros this w; cbn [drain_loop]; [done|].
  destruct (ready_cks this) as [|cur ready']; [by intros [= _ _ ->]|].
  destruct (memread _ _ _) as [d| | |]; cbn [mbind outcome_bind]; try done.
  destruct (cb d _ w) as [res w1] eqn:Ecb. apply Hcb in Ecb.
  destruct res as [r| | |]; cbn [mbind outcome_bind]; try done.
  repeat case_if; [by intros [= _ _ <-]|..]; intros E; (etrans; [exact Ecb|]); by eapply IH.
Qed.

(** ** Theorems *)

(** C19: the send buffer is a byte queue that copying appends to.  From any
    well-formed state and for any data below the 1 GiB block limit, the three-stage
    copy (last ready chunk, free chunks, new chunk) never leaves a block and keeps
    the invariant; it returns 0 with the data appended in full, or -1 exactly when
    [malloc] fails, in which case a strict prefix of the data stays queued. *)
Theorem copyDataIntoChunks_appends malloc this data :
  wf this -> zlen data + sizeof_DataChunk < 2 ^ 30 ->
  malloc_ok malloc ->
  exists ret this', copyDataIntoChunks malloc this data (zlen data) = Ok (ret, this')
    /\ wf this'
    /\ (ret = 0 /\ pending this' = pending this ++ data
        \/ ret = -1 /\ (exists m, malloc m = None)
           /\ exists n, 0 <= n < zlen data /\ pending this' = pending this ++ ztake n data).
Proof.
  intros Hwf Hlen Hm.
  destruct (copyDataIntoChunks_spec malloc this data Hwf Hlen Hm)
    as (ret & this' & k & E & Hwf' & Hres & _).
  exists ret, this'. split_and!; [done..|].
  destruct Hres as [?|(? & ? & _ & _ & ?)]; auto.
Qed.

(** C18: draining is the other end of the queue.  Against any pipe that reports
    how much it took, the drain loop terminates; what reached the pipe is a prefix
    of the pending bytes, in order; on return 0 the rest is exactly what is still
    pending, the pipe is blocked iff something is left, and once nothing is left
    the memory held is back under the resident size or no chunk is kept. *)
Theorem drainOutWithPipe_refines {W : Type} (cb : list byte -> Z -> M W Z)
    (sent : W -> list byte) (blocked : W -> bool) `{!Pipe cb sent blocked} this w :
  wf this -> ready_cks this <> [] ->
  exists ret this' w', drainOutWithPipe cb this w = Ok (ret, this', w')
    /\ drained (sent := sent) (blocked := blocked) this w ret this' w'.
Proof.
  intros Hwf Hne. unfold drainOutWithPipe. destruct (ready_cks this) eqn:E; [done|].
  apply drain_loop_spec; [done|lia|by rewrite E].
Qed.

(** Dropping the connection loses no block: after [resetChunks] nothing is
    pending, every block is on the free list or given back, and the memory held is
    back under the resident size unless no block is kept at all. *)
Theorem resetChunks_empties this :
  wf this ->
  wf (resetChunks this) /\ pending (resetChunks this) = []
  /\ (free_cks (resetChunks this) = []
      \/ getAllocSize (resetChunks this) <= c_resident_size this).
Proof.
  intros Hwf. unfold resetChunks.
  destruct (reset_loop_spec (ready_cks this) this Hwf eq_refl) as (Hw & Hr & _ & Hres & _).
  destruct (checkWaterLevel_spec _ Hw) as (Hw' & _ & _ & _ & _ & Hstop).
  split_and!; [done| |].
  - rewrite checkWaterLevel_pending by done. unfold pending. by rewrite Hr.
  - unfold getAllocSize. by rewrite <- Hres.
Qed.

(** [ck_ceil_to_k] returns for every 32-bit request: the threshold below it,
    the least power of two above the request up to [2^31 - 1], and 0, by the shift
    wrapping, from [2^31] on. *)
Theorem ck_ceil_to_k_correct this i :
  threshold this = 1024 -> 0 <= i < 2 ^ 32 ->
  (i < 1024 -> ck_ceil_to_k this i = Ok 1024)
  /\ (1024 <= i < 2 ^ 31 -> exists e, ck_ceil_to_k this i = Ok (2 ^ e)
        /\ 2 ^ (e - 1) <= i < 2 ^ e)
  /\ (2 ^ 31 <= i -> ck_ceil_to_k this i = Ok 0).
Proof.
  intros Ht Hi. split_and!; intros Hc.
  - unfold ck_ceil_to_k. rewrite Ht. case_if; [done|lia].
  - rewrite ck_ceil_to_k_big by lia. exists (Z.log2 i + 1).
    pose proof (Z.log2_spec i ltac:(lia)) as Hl. rewrite <- Z.add_1_r in Hl.
    assert (Z.log2 i < 31) by (apply Z.log2_lt_pow2; lia).
    pose proof (Z.pow_le_mono_r 2 (Z.log2 i + 1) 31 ltac:(lia) ltac:(lia)).
    rewrite u32_small by word. split; [done|]. by rewrite Z.add_simpl_r.
  - rewrite ck_ceil_to_k_big by lia.
    assert (Z.log2 i = 31) as -> by (apply Z.log2_unique; lia). done.
Qed.

Lemma useExistingChunk_room this len :
  wf this -> useExistingChunk this len = true -> len <= room this.
Proof.
  intros Hwf. unfold useExistingChunk, room, last_room.
  assert (forall l, Forall free_ok l -> 0 <= sum_sizes l) as Hpos.
  { induction 1 as [|ck l ((? & _) & _) _ IH]; cbn; [lia|]. unfold sum_sizes in *. lia. }
  specialize (Hpos _ (wf_free _ Hwf)).
  destruct (last (ready_cks this)) as [c|] eqn:E.
  - apply last_Some in E as [init E]. pose proof (wf_ready _ Hwf) as Hr. rewrite E in Hr.
    apply Forall_app in Hr as [_ [((Hbs & _) & Hlr & Hrb) _]%Forall_cons].
    rewrite (u32_small (block_size c - r_ofs c)) by word. case_if; [done|]. lia.
  - intros Hle. zbool. rewrite (wf_free_cap _ Hwf) in Hle.
    pose proof (Z.mod_le (sum_sizes (free_cks this)) (2 ^ 32) Hpos ltac:(lia)).
    unfold wrapU in Hle. lia.
Qed.

(** [checkCapacity] bounds memory.  Data that passes the check is stored
    without a new block, or with one that keeps the total at no more than twice the
    configured maximum plus one threshold block (a block is rounded up to a power of
    two after the check, so the maximum itself is not an upper bound). *)
Theorem checkCapacity_bounds_memory malloc this data ret this' :
  wf this -> zlen data + sizeof_DataChunk < 2 ^ 30 ->
  malloc_ok malloc ->
  c_max_size this < 2 ^ 30 -> ck_alloc_size this + zlen data < 2 ^ 32 ->
  checkCapacity this (zlen data) = true ->
  copyDataIntoChunks malloc this data (zlen data) = Ok (ret, this') ->
  getAllocSize this' = getAllocSize this
  \/ getAllocSize this' <= 2 * c_max_size this + 1024.
Proof.
  intros Hwf Hlen Hm Hmax Hsum Hcheck E. unfold getAllocSize.
  destruct (copyDataIntoChunks_spec malloc this data Hwf Hlen Hm)
    as (ret1 & this1 & k & E1 & _ & _ & Hk & Hroom & Ha & _).
  rewrite E in E1. injection E1 as <- <-. rewrite Ha.
  assert (in_u32 (ck_alloc_size this)) as Hin by (rewrite (wf_alloc _ Hwf); apply u32_range).
  pose proof (zlen_nonneg data). unfold sizeof_DataChunk in *.
  unfold checkCapacity in Hcheck. destruct (useExistingChunk this (zlen data)) eqn:Eu; cbn in Hcheck.
  - apply useExistingChunk_room in Eu; [|done]. left.
    destruct Hroom as [->|]; [|lia]. by rewrite Z.add_0_r, u32_small.
  - destruct (c_max_size this <? _) eqn:Ec; [done|]. zbool.
    rewrite u32_small in Ec by word. right. rewrite u32_small by word. word.
Qed.

(** [useExistingChunk] answers the opposite of its name where it matters.
    When the last ready chunk has strictly more room than requested, the unsigned
    subtraction [length -= available] wraps and the answer is "no"; so near the
    memory limit [checkCapacity] refuses data that the copy would store without
    allocating anything. *)
Theorem checkCapacity_refuses_fitting_data malloc this data :
  wf this -> zlen data + sizeof_DataChunk < 2 ^ 30 ->
  malloc_ok malloc ->
  zlen data < last_room this ->
  sum_sizes (free_cks this) < 2 ^ 31 ->
  c_max_size this < ck_alloc_size this + zlen data < 2 ^ 32 ->
  checkCapacity this (zlen data) = false
  /\ exists this', copyDataIntoChunks malloc this data (zlen data) = Ok (0, this')
     /\ getAllocSize this' = getAllocSize this /\ pending this' = pending this ++ data.
Proof.
  intros Hwf Hlen Hm Hroom Hfree Hmax. pose proof (zlen_nonneg data).
  assert (0 <= sum_sizes (free_cks this)) as Hpos.
  { pose proof (wf_free _ Hwf) as Hf. clear -Hf.
    induction Hf as [|ck l ((? & _) & _) _ IH]; cbn; [lia|]. unfold sum_sizes in *. lia. }
  assert (in_u32 (ck_alloc_size this)) as Hin by (rewrite (wf_alloc _ Hwf); apply u32_range).
  split.
  - assert (useExistingChunk this (zlen data) = false) as Hu.
    { unfold useExistingChunk, last_room in *.
      destruct (last (ready_cks this)) as [c|] eqn:E; [|lia].
      apply last_Some in E as [init E]. pose proof (wf_ready _ Hwf) as Hr. rewrite E in Hr.
      apply Forall_app in Hr as [_ [((Hbs & _) & Hlr & Hrb) _]%Forall_cons].
      rewrite (u32_small (block_size c - r_ofs c)) by word. case_if; [done|].
      apply Z.leb_gt. rewrite (wf_free_cap _ Hwf), (u32_small (sum_sizes _)) by word.
      unfold wrapU. rewrite <- (Z_mod_plus_full _ 1), Z.mod_small; lia. }
    unfold checkCapacity. rewrite Hu, u32_small by word. cbn. by rewrite (proj2 (Z.ltb_lt _ _)) by lia.
  - destruct (copyDataIntoChunks_spec malloc this data Hwf Hlen Hm)
      as (ret & this' & k & -> & _ & Hres & _ & Hk & Ha & _).
    assert (room this >= zlen data) by (unfold room; lia).
    destruct Hk as [->|]; [|lia]. rewrite Z.add_0_r, u32_small in Ha by done.
    destruct Hres as [[-> Hp]|(_ & _ & _ & ? & _)]; [eauto|lia].
Qed.

(** ** Concrete runs *)

(** The buffer every connection starts with (TransLayer.h: 10 MiB, 40 KiB). *)
Definition demo : Chunks := mkChunks [] [] 40960 10485760 1024 0 0.
Definition malloc0 (n : Z) : option (list byte) := Some (replicate (Z.to_nat n) Byte.x00).
Definition demo_ck : DataChunk :=
  mkDataChunk 1012 0 2 ([Byte.x41; Byte.x42] ++ replicate 1010 Byte.x00).
Definition demo1 : Chunks := mkChunks [demo_ck] [] 1020 1024 1024 1024 0.

(** A pipe that takes everything. *)
Definition sink (b : list byte) (n : Z) : M (list byte * bool) Z :=
  fun w => (Ok n, (w.1 ++ b, false)).

#[export] Instance sink_pipe : Pipe sink fst snd.
Proof.
  split. intros b w _. pose proof (zlen_nonneg b).
  eexists _, _; split; [done|]. split_and!; [lia..| |lia].
  intros _. cbn. by rewrite ztake_all, Z.ltb_irrefl.
Qed.

Lemma malloc0_ok : malloc_ok malloc0.
Proof. intros n b Hn [= <-]. unfold zlen. rewrite length_replicate. lia. Qed.

Lemma demo_wf : wf demo.
Proof. by split; [constructor|constructor|..]. Qed.

Lemma demo1_wf : wf demo1.
Proof.
  split; [|by constructor|done..]. apply Forall_singleton.
  repeat split; vm_compute; done.
Qed.

Lemma copyDataIntoChunks_appends_witness :
  exists ret this', copyDataIntoChunks malloc0 demo [Byte.x41; Byte.x42] 2 = Ok (ret, this')
    /\ wf this'
    /\ (ret = 0 /\ pending this' = pending demo ++ [Byte.x41; Byte.x42]
        \/ ret = -1 /\ (exists m, malloc0 m = None)
           /\ exists n, 0 <= n < 2 /\ pending this' = pending demo ++ ztake n [Byte.x41; Byte.x42]).
Proof.
  apply (copyDataIntoChunks_appends malloc0 demo [Byte.x41; Byte.x42]).
  - apply demo_wf.
  - vm_compute. reflexivity.
  - apply malloc0_ok.
Defined.

Lemma drainOutWithPipe_refines_witness :
  exists ret this' w', drainOutWithPipe sink demo1 ([], true) = Ok (ret, this', w')
    /\ drained (sent := fst) (blocked := snd) demo1 ([], true) ret this' w'.
Proof.
  apply (drainOutWithPipe_refines sink fst snd demo1 ([], true)).
  - apply demo1_wf.
  - discriminate.
Defined.

Lemma resetChunks_empties_witness :
  wf (resetChunks demo1) /\ pending (resetChunks demo1) = []
  /\ (free_cks (resetChunks demo1) = []
      \/ getAllocSize (resetChunks demo1) <= c_resident_size demo1).
Proof. apply (resetChunks_empties demo1). apply demo1_wf. Defined.

Lemma ck_ceil_to_k_correct_witness :
  (5000 < 1024 -> ck_ceil_to_k demo 5000 = Ok 1024)
  /\ (1024 <= 5000 < 2 ^ 31 -> exists e, ck_ceil_to_k demo 5000 = Ok (2 ^ e)
        /\ 2 ^ (e - 1) <= 5000 < 2 ^ e)
  /\ (2 ^ 31 <= 5000 -> ck_ceil_to_k demo 5000 = Ok 0).
Proof. apply (ck_ceil_to_k_correct demo 5000); [reflexivity|lia]. Defined.

Lemma checkCapacity_bounds_memory_witness :
  getAllocSize (mkChunks [mkDataChunk 1012 0 1 (Byte.x41 :: replicate 1011 Byte.x00)]
    [] 40960 10485760 1024 1024 0) = getAllocSize demo
  \/ getAllocSize (mkChunks [mkDataChunk 1012 0 1 (Byte.x41 :: replicate 1011 Byte.x00)]
       [] 40960 10485760 1024 1024 0) <= 2 * c_max_size demo + 1024.
Proof.
  apply (checkCapacity_bounds_memory malloc0 demo [Byte.x41] 0).
  - apply demo_wf.
  - vm_compute. reflexivity.
  - apply malloc0_ok.
  - vm_compute. reflexivity.
  - vm_compute. reflexivity.
  - vm_compute. reflexivity.
  - vm_compute. reflexivity.
Defined.

(** A full buffer (1024 of 1024 bytes allocated) with 1010 bytes of room. *)
Lemma checkCapacity_refuses_fitting_data_witness :
  checkCapacity demo1 1 = false
  /\ exists this', copyDataIntoChunks malloc0 demo1 [Byte.x43] 1 = Ok (0, this')
     /\ getAllocSize this' = getAllocSize demo1 /\ pending this' = pending demo1 ++ [Byte.x43].
Proof.
  apply (checkCapacity_refuses_fitting_data malloc0 demo1 [Byte.x43]).
  - apply demo1_wf.
  - vm_compute. reflexivity.
  - apply malloc0_ok.
  - vm_compute. reflexivity.
  - vm_compute. reflexivity.
  - vm_compute. split; [reflexivity|reflexivity].
Defined.

(** The scenario of common/src/Cache/test_chunk.cc: three kilobytes in, drained by
    a callback that takes short blocks whole and halves of long ones. *)
Definition checkData (b : list byte) (n : Z) : M (list byte) Z :=
  fun w => let r := if n <? 25 then n else n / 2 in (Ok r, w ++ ztake r b).

Example test_all_in_one :
  let buf := replicate 1024 Byte.x61 ++ replicate 1024 Byte.x62 ++ replicate 1024 Byte.x63 in
  (c ← new_Chunks 4096 128;
   '(_, c) ← copyDataIntoChunks malloc0 c (take 1024 buf) 1024;
   '(_, c) ← copyDataIntoChunks malloc0 c (take 1024 (drop 1024 buf)) 1024;
   '(_, c) ← copyDataIntoChunks malloc0 c (drop 2048 buf) 1024;
   '(_, c, w) ← drainOutWithPipe checkData c [];
   mret (bool_decide (w = buf), getAllocSize c)) = Ok (true, 0).
Proof. vm_compute. reflexivity. Qed.

End Chunks.
