(* ===== verification/Sockets.v ===== *)
(** * The operating system as the transport layer sees it

    The calls of common/src/ConnectionPool/sockets.h and of TransLayer into the
    kernel and the resolver ([send], [recv], [select], [socket], [connect],
    [getaddrinfo], [time]) are inputs of the model: [Env] scripts their results and
    records their effects.  Every finite run of the real calls is some script; an
    exhausted script answers [EAGAIN]. *)
From Stdlib Require Import ZArith Lia.
From S2P Require Import Prelude.

Module Net.

(** ** Error numbers (Linux) *)

Definition EINTR : Z := 4.
Definition EAGAIN : Z := 11.
Definition EWOULDBLOCK : Z := 11.
Definition EALREADY : Z := 114.
Definition EINPROGRESS : Z := 115.

Definition nonblock_error (err_code : Z) : bool :=
  (err_code =? EAGAIN) || (err_code =? EWOULDBLOCK) || (err_code =? EINTR)
  || (err_code =? EINPROGRESS).

Definition INVALID_SOCKET : Z := -1.
Definition SOCKET_ERROR : Z := -1.
Definition FD_SETSIZE : Z := 1024.

(** ** Scripts *)

(** One [send]: it takes up to [n] bytes, returns 0, or fails with an error. *)
Inductive send_result :=
| SendOk (n : positive)
| SendZero
| SendErr (errno : Z).

(** One arrival on the socket: bytes ([RecvData []] is the peer's shutdown), or an
    error.  Bytes that do not fit the caller's window wait for the next [recv]. *)
Inductive recv_result :=
| RecvData (bs : list byte)
| RecvErr (errno : Z).

Record select_result := mkSelect {
  sel_ret : Z;
  sel_r : bool;
  sel_w : bool;
  sel_e : bool
}.

(** One candidate address: what [socket] and [connect] return for it. *)
Record attempt := mkAttempt {
  at_fd : Z;
  at_connect : Z;
  at_errno : Z
}.

Record Env := mkEnv {
  send_script : list send_result;
  recv_script : list recv_result;
  select_script : list select_result;
  (** [getaddrinfo]: [None] for a failure *)
  addr_script : list (option (list attempt));
  unix_script : list attempt;
  clock : nat -> Z;
  tick : nat;
  (** [malloc]: the block the [n]-th request gets *)
  heap : nat -> Z -> option (list byte);
  heap_ix : nat;
  (** what the peer has received *)
  wire : list byte;
  (** descriptors closed so far *)
  closed : list Z;
  (** the [struct timeval] given to each [select]: seconds, microseconds *)
  select_args : list (Z * Z);
  (** the path or the host and port of each connection attempt *)
  dialled : list (string * string)
}.

Definition set_send (e : Env) (s : list send_result) (w : list byte) : Env :=
  mkEnv s (recv_script e) (select_script e) (addr_script e) (unix_script e)
    (clock e) (tick e) (heap e) (heap_ix e) w (closed e) (select_args e) (dialled e).

Definition set_recv (e : Env) (s : list recv_result) : Env :=
  mkEnv (send_script e) s (select_script e) (addr_script e) (unix_script e)
    (clock e) (tick e) (heap e) (heap_ix e) (wire e) (closed e) (select_args e) (dialled e).

Definition set_select (e : Env) (s : list select_result) (a : list (Z * Z)) : Env :=
  mkEnv (send_script e) (recv_script e) s (addr_script e) (unix_script e)
    (clock e) (tick e) (heap e) (heap_ix e) (wire e) (closed e) a (dialled e).

Definition set_connect (e : Env) (a : list (option (list attempt))) (u : list attempt)
    (d : list (string * string)) : Env :=
  mkEnv (send_script e) (recv_script e) (select_script e) a u
    (clock e) (tick e) (heap e) (heap_ix e) (wire e) (closed e) (select_args e) d.

Definition set_tick (e : Env) (t : nat) : Env :=
  mkEnv (send_script e) (recv_script e) (select_script e) (addr_script e)
    (unix_script e) (clock e) t (heap e) (heap_ix e) (wire e) (closed e) (select_args e) (dialled e).

Definition set_heap_ix (e : Env) (n : nat) : Env :=
  mkEnv (send_script e) (recv_script e) (select_script e) (addr_script e)
    (unix_script e) (clock e) (tick e) (heap e) n (wire e) (closed e) (select_args e)
    (dialled e).

(** ** Calls *)

(** [std::time(nullptr)] *)
Definition sys_time (e : Env) : Z * Env := (clock e (tick e), set_tick e (S (tick e))).

Definition close_socket (fd : Z) (e : Env) : Env :=
  mkEnv (send_script e) (recv_script e) (select_script e) (addr_script e)
    (unix_script e) (clock e) (tick e) (heap e) (heap_ix e) (wire e) (closed e ++ [fd]) (select_args e)
    (dialled e).

(** [send(fd, data, length, flags)]: the result, [errno] and the new environment. *)
Definition sys_send (data : list byte) (e : Env) : Z * Z * Env :=
  match send_script e with
  | [] => (-1, EAGAIN, e)
  | SendOk n :: s =>
      let taken := Z.min (Z.pos n) (zlen data) in
      (taken, 0, set_send e s (wire e ++ ztake taken data))
  | SendZero :: s => (0, 0, set_send e s (wire e))
  | SendErr errno :: s => (-1, errno, set_send e s (wire e))
  end.

(** [recv(fd, window, n, 0)]: the bytes stored, the result, [errno]. *)
Definition sys_recv (n : Z) (e : Env) : list byte * Z * Z * Env :=
  match recv_script e with
  | [] => ([], -1, EAGAIN, e)
  | RecvData bs :: s =>
      if zlen bs <=? n then (bs, zlen bs, 0, set_recv e s)
      else (ztake n bs, n, 0, set_recv e (RecvData (zdrop n bs) :: s))
  | RecvErr errno :: s => ([], -1, errno, set_recv e s)
  end.

(** [select(fd + 1, &rfds, &wfds, &efds, &tv)]; no event when the script ends. *)
Definition sys_select (tv : Z * Z) (e : Env) : select_result * Env :=
  match select_script e with
  | [] => (mkSelect 0 false false false, set_select e [] (select_args e ++ [tv]))
  | r :: s => (r, set_select e s (select_args e ++ [tv]))
  end.

(** An upper bound on the [recv] calls that can return data. *)
Definition recv_fuel (e : Env) : nat :=
  foldr (fun r n => match r with RecvData bs => S (length bs) | RecvErr _ => 1%nat end + n)%nat
    1%nat (recv_script e).

End Net.
