(* ===== verification/TransLayer.v ===== *)
(** * One connection to the collector agent: [ConnectionPool::TransLayer]
      (common/src/ConnectionPool/TransLayer.h, TransLayer.cpp)

    A [TransLayer] frames outgoing spans into its send buffer, writes the buffer
    when the socket is writable, cuts the incoming byte stream into messages for the
    registered handlers, and drops and re-dials a broken connection. *)
From Stdlib Require Import ZArith Lia Ascii.
From S2P Require Import Prelude SendBuffer Sockets.

Module Layer.
Import Net.

(** ** Constants *)

Definition IN_MSG_BUF_SIZE : Z := 4096.
Definition _chunk_max_size : Z := 10 * 1024 * 1024.
Definition _chunk_hold_size : Z := 40 * 1024.
Definition RECONNECT_TIME_SEC : Z := 5.
Definition sizeof_Header : Z := 8.
Definition RESPONSE_AGENT_INFO : Z := 0.
Definition REQ_UPDATE_SPAN : Z := 1.
Definition E_OFFLINE : Z := 1.

(** [enum E_STATE] *)
Definition S_WRITING : Z := 0x1.
Definition S_READING : Z := 0x2.
Definition S_ERROR : Z := 0x4.

Definition has_flag (state flag : Z) : bool := negb (Z.land state flag =? 0).

(** ** Data *)

Section layer.
(** [H] is the state the registered callbacks act on. *)
Context {H : Type}.

(** [std::function<int(int type, const char* buf, size_t len)>]; [buf] with its
    length is the list of the body's bytes. *)
Abbreviation MsgHandleFunc := (Z -> list byte -> M H Z).

Record TransLayer := mkTransLayer {
  co_host : string;
  chunks : Chunks.Chunks;
  _state : Z;
  in_buf : list byte;
  in_buf_size_ : Z;
  statusChangedCallback_ : option (Z -> H -> H);
  msgRouteMap_ : gmap Z MsgHandleFunc;
  lastConnectTime : Z;
  c_fd : Z
}.

(** The connection, the operating system, and what the callbacks act on. *)
Record World := mkWorld {
  layer : TransLayer;
  env : Env;
  peer : H
}.

Definition set_layer (w : World) (l : TransLayer) : World := mkWorld l (env w) (peer w).
Definition set_env (w : World) (e : Env) : World := mkWorld (layer w) e (peer w).

Definition set_chunks (l : TransLayer) (c : Chunks.Chunks) : TransLayer :=
  mkTransLayer (co_host l) c (_state l) (in_buf l) (in_buf_size_ l)
    (statusChangedCallback_ l) (msgRouteMap_ l) (lastConnectTime l) (c_fd l).

Definition set_state (l : TransLayer) (s : Z) : TransLayer :=
  mkTransLayer (co_host l) (chunks l) s (in_buf l) (in_buf_size_ l)
    (statusChangedCallback_ l) (msgRouteMap_ l) (lastConnectTime l) (c_fd l).

Definition set_in (l : TransLayer) (buf : list byte) (n : Z) : TransLayer :=
  mkTransLayer (co_host l) (chunks l) (_state l) buf n
    (statusChangedCallback_ l) (msgRouteMap_ l) (lastConnectTime l) (c_fd l).

Definition set_handlers (l : TransLayer) (cb : option (Z -> H -> H))
    (m : gmap Z MsgHandleFunc) : TransLayer :=
  mkTransLayer (co_host l) (chunks l) (_state l) (in_buf l) (in_buf_size_ l)
    cb m (lastConnectTime l) (c_fd l).

Definition set_conn (l : TransLayer) (t fd : Z) : TransLayer :=
  mkTransLayer (co_host l) (chunks l) (_state l) (in_buf l) (in_buf_size_ l)
    (statusChangedCallback_ l) (msgRouteMap_ l) t fd.

(** [TransLayer::TransLayer] *)
Definition new_TransLayer (host : string) : outcome TransLayer :=
  c ← Chunks.new_Chunks _chunk_max_size _chunk_hold_size;
  mret (mkTransLayer host c 0 (replicate 4096 Byte.x00) 0 None ∅ 0 (-1)).

Definition RegPeerMsgCallback (l : TransLayer) (type : Z) (call_back : MsgHandleFunc)
  : TransLayer :=
  set_handlers l (statusChangedCallback_ l) (<[type := call_back]> (msgRouteMap_ l)).

Definition RegStatusChangedCallBack (l : TransLayer) (call_back : Z -> H -> H)
  : TransLayer := set_handlers l (Some call_back) (msgRouteMap_ l).

(** [ResetMsgHandler], which [Reset] calls. *)
Definition ResetMsgHandler (l : TransLayer) : TransLayer := set_handlers l None ∅.

(** Run code on the callbacks' state. *)
Definition on_peer {A} (m : M H A) : M World A := fun w =>
  let '(r, h) := m (peer w) in (r, mkWorld (layer w) (env w) h).

(** ** Incoming messages *)

(** The [while] loop of [HandleMsgStream].  A frame takes at least eight bytes, so
    [len] iterations are enough. *)
Fixpoint HandleMsgStream_loop (fuel : nat) (routes : gmap Z MsgHandleFunc)
    (buf : list byte) (len offset : Z) : M H Z :=
  match fuel with
  | O => lift OutOfFuel
  | S fuel' =>
      if sizeof_Header <=? len - offset then
        header ← lift (memread buf offset sizeof_Header);
        let body_len := of_be32 (drop 4 header) in
        if IN_MSG_BUF_SIZE - sizeof_Header <? body_len then mret (-1)
        else
          let frame_size := sizeof_Header + body_len in
          if len - offset <? frame_size then mret offset
          else
            let type := i32 (of_be32 (take 4 header)) in
            match routes !! type with
            | Some handler =>
                body ← lift (memread buf (offset + sizeof_Header) body_len);
                ret ← handler type body;
                if ret =? -1 then mret (-1)
                else HandleMsgStream_loop fuel' routes buf len (offset + frame_size)
            | None => HandleMsgStream_loop fuel' routes buf len (offset + frame_size)
            end
      else mret offset
  end.

Definition HandleMsgStream (routes : gmap Z MsgHandleFunc) (buf : list byte) (len : Z)
  : M H Z := HandleMsgStream_loop (S (Z.to_nat len)) routes buf len 0.

(** The branch of [recvByteStream] that has received data: hand the frames among the
    first [total] bytes over and move the rest to the front; [false] for a fatal
    error. *)
Definition take_frames (buf : list byte) (total : Z) : M World bool :=
  w ← get;
  msg_offset ← on_peer (HandleMsgStream (msgRouteMap_ (layer w)) buf total);
  if msg_offset <? 0 then mret false
  else if msg_offset <? total then
    let left := total - msg_offset in
    rest ← lift (memread buf msg_offset left);
    buf' ← lift (memcpy buf 0 rest left);
    _ ← modify (fun w => set_layer w (set_in (layer w) buf' left));
    mret true
  else
    _ ← modify (fun w => set_layer w (set_in (layer w) buf 0));
    mret true.

(** The [while] loop of [recvByteStream]. *)
Fixpoint recvByteStream_loop (fuel : nat) : M World Z :=
  match fuel with
  | O => lift OutOfFuel
  | S fuel' =>
      w ← get;
      let l := layer w in
      if in_buf_size_ l <? IN_MSG_BUF_SIZE then
        let '(bs, ret, errno, e) := sys_recv (IN_MSG_BUF_SIZE - in_buf_size_ l) (env w) in
        buf ← lift (memcpy (in_buf l) (in_buf_size_ l) bs (zlen bs));
        _ ← modify (fun w => set_env (set_layer w (set_in (layer w) buf (in_buf_size_ l))) e);
        if 0 <? ret then
          ok ← take_frames buf (ret + in_buf_size_ l);
          if (ok : bool) then recvByteStream_loop fuel' else mret (-1)
        else if ret =? 0 then mret (-1)
        else if nonblock_error errno then mret 0
        else mret (-1)
      else mret (-1)
  end.

Definition recvByteStream : M World Z :=
  w ← get; recvByteStream_loop (S (recv_fuel (env w))).


(** ** Outgoing bytes *)

(** The loop of [_do_write_data]; it runs on [_state] and the socket, while the
    caller [drainOutWithPipe] owns the chunks.  Every [send] that lets the loop go on
    consumes a result, so one more than there are results is enough fuel. *)
Fixpoint write_loop (fuel : nat) (data : list byte) (length buf_ofs : Z) : M (Z * Env) Z :=
  match fuel with
  | O => lift OutOfFuel
  | S fuel' =>
      if buf_ofs <? length then
        rest ← lift (memread data buf_ofs (length - buf_ofs));
        '(state, e) ← get;
        let '(ret, errno, e') := sys_send rest e in
        _ ← modify (fun _ => (state, e'));
        if 0 <? ret then write_loop fuel' data length (u32 (buf_ofs + u32 ret))
        else if ret =? -1 then
          if nonblock_error errno then
            _ ← modify (fun _ => (Z.lor state S_WRITING, e'));
            mret (i32 buf_ofs)
          else mret (-1)
        else mret (-1)
      else
        _ ← modify (fun '(state, e) => (Z.land state (Z.lnot S_WRITING), e));
        mret (i32 length)
  end.

Definition _do_write_data (data : list byte) (length : Z) : M (Z * Env) Z :=
  '(_, e) ← get; write_loop (S (List.length (send_script e))) data length 0.

Definition _send_msg_to_collector : M World Z := fun w =>
  match Chunks.drainOutWithPipe _do_write_data (chunks (layer w)) (_state (layer w), env w) with
  | Ok (ret, c, (state, e)) =>
      (Ok ret, mkWorld (set_state (set_chunks (layer w) c) state) e (peer w))
  | Throw ex => (Throw ex, w)
  | UB => (UB, w)
  | OutOfFuel => (OutOfFuel, w)
  end.

(** [malloc] as the environment answers it now, and one copy with it. *)
Definition copy_chunks (data : list byte) : M World unit := fun w =>
  let malloc n := heap (env w) (heap_ix (env w)) n in
  match Chunks.copyDataIntoChunks malloc (chunks (layer w)) data (u32 (zlen data)) with
  | Ok (_, c) =>
      (Ok tt, mkWorld (set_chunks (layer w) c) (set_heap_ix (env w) (S (heap_ix (env w)))) (peer w))
  | Throw ex => (Throw ex, w)
  | UB => (UB, w)
  | OutOfFuel => (OutOfFuel, w)
  end.

(** The eight bytes of [Header]: [type], then [length], in network order. *)
Definition header_bytes (type length : Z) : list byte := be32 (u32 type) ++ be32 (u32 length).

Definition copy_into_send_buffer (data : list byte) : M World bool :=
  w ← get;
  if Chunks.checkCapacity (chunks (layer w)) (u32 (sizeof_Header + zlen data)) then
    _ ← copy_chunks (header_bytes REQ_UPDATE_SPAN (zlen data));
    _ ← copy_chunks data;
    _ ← modify (fun w => set_layer w (set_state (layer w) (Z.lor (_state (layer w)) S_WRITING)));
    mret true
  else mret false.

(** ** Connecting *)

(** [char] is signed on the supported platforms. *)
Definition char_int (c : ascii) : Z := wrapS 8 (Z.of_nat (nat_of_ascii c)).

(** [std::toupper] in the C locale. *)
Definition toupper (p : Z) : Z := if (97 <=? p) && (p <=? 122) then p - 32 else p.

Fixpoint strcasecmp_ (s1 s2 : string) : Z :=
  match s1, s2 with
  | String c1 s1', String c2 s2' =>
      let p1 := char_int c1 in
      let p2 := char_int c2 in
      if negb (toupper p1 =? toupper p2) then p1 - p2 else strcasecmp_ s1' s2'
  | _, EmptyString => 0
  | _, _ => -1
  end.

(** The C string a [std::string] shows through [c_str]. *)
Fixpoint c_str (s : string) : string :=
  match s with
  | EmptyString => EmptyString
  | String c s' => if Ascii.eqb c Ascii.zero then EmptyString else String c (c_str s')
  end.

(** [p[i]] for a pointer [base] characters into the C string [s]. *)
Definition char_at (s : string) (base i : Z) : outcome ascii :=
  let k := base + i in
  if (0 <=? k) && (k <? Z.of_nat (String.length s))
  then match String.get (Z.to_nat k) s with Some c => Ok c | None => UB end
  else if k =? Z.of_nat (String.length s) then Ok Ascii.zero else UB.

(** The search for the last colon of [remote = s + base]: [inr] its offset, [inl tt]
    the invalid-remote exit.  [offset] decreases, so the length of [s] is enough. *)
Fixpoint find_colon (fuel : nat) (s : string) (base offset : Z) : outcome (unit + Z) :=
  match fuel with
  | O => OutOfFuel
  | S fuel' =>
      c ← char_at s base offset;
      if Ascii.eqb c ":" then mret (inr offset)
      else if offset - 1 <=? 0 then mret (inl tt)
      else find_colon fuel' s base (offset - 1)
  end.

(** [std::string(p, n)] with [n] converted to [size_t]: a negative [n] asks for more
    than [max_size] and throws [std::length_error], a [std::logic_error]. *)
Definition string_of (s : string) (base n : Z) : outcome string :=
  if n <? 0 then Throw logic_error
  else mret (String.substring (Z.to_nat base) (Z.to_nat n) s).

(** The loop over the addresses of [connect_stream_remote]. *)
Fixpoint try_addresses (addrs : list attempt) (e : Env) : Z * Env :=
  match addrs with
  | [] => (INVALID_SOCKET, e)
  | a :: addrs' =>
      if at_fd a =? -1 then try_addresses addrs' e
      else if at_connect a =? 0 then (at_fd a, e)
      else if (at_connect a =? -1) && nonblock_error (at_errno a) then (at_fd a, e)
      else try_addresses addrs' (close_socket (at_fd a) e)
  end.

(** [connect_stream_remote(s + base)] *)
Definition connect_stream_remote (s : string) (base : Z) : M World Z :=
  let len := Z.of_nat (String.length s) - base in
  found ← lift (find_colon (S (String.length s)) s base (len - 1));
  match found with
  | inl _ => mret (-1)
  | inr offset =>
      hostname ← lift (string_of s base offset);
      let port_str := String.substring (Z.to_nat (base + offset + 1)) (String.length s) s in
      w ← get;
      let e := env w in
      let e1 := set_connect e (tail (addr_script e)) (unix_script e)
                  (dialled e ++ [(hostname, port_str)]) in
      match head (addr_script e) with
      | Some (Some addrs) =>
          let '(sfd, e') := try_addresses addrs e1 in
          _ ← modify (fun w => set_env w e');
          mret sfd
      | _ =>
          _ ← modify (fun w => set_env w e1);
          mret (-1)
      end
  end.

(** [sizeof(u_sock.sun_path) - 1] *)
Definition sun_path_max : nat := 107.

(** [connect_unix_remote(s + base)] *)
Definition connect_unix_remote (s : string) (base : Z) : M World Z :=
  w ← get;
  let e := env w in
  let remote := String.substring (Z.to_nat base) (String.length s) s in
  match unix_script e with
  | [] => mret (-1)
  | a :: us =>
      if at_fd a <? 0 then
        _ ← modify (fun w => set_env w (set_connect e (addr_script e) us (dialled e)));
        mret (-1)
      else
        let path := String.substring 0 sun_path_max remote in
        let e' := set_connect e (addr_script e) us (dialled e ++ [(path, EmptyString)]) in
        if negb (at_connect a =? 0)
           && (negb (at_errno a =? EALREADY) || negb (at_errno a =? EINPROGRESS))
        then
          _ ← modify (fun w => set_env w (if 0 <? at_fd a then close_socket (at_fd a) e' else e'));
          mret (-1)
        else
          _ ← modify (fun w => set_env w e');
          mret (at_fd a)
  end.

Definition UNIX_SOCKET : string := "unix:".
Definition TCP_SOCKET : string := "tcp:".

(** [std::time(nullptr)] *)
Definition now : M World Z := fun w =>
  let '(t, e) := sys_time (env w) in (Ok t, set_env w e).

(** The label [DONE] of [connect_remote], after [c_fd = fd]. *)
Definition connect_done (fd : Z) : M World Z :=
  _ ← modify (fun w => set_layer w (set_state (set_conn (layer w) (lastConnectTime (layer w)) fd)
        (Z.lor (_state (layer w)) (Z.lor (Z.lor S_ERROR S_READING) S_WRITING))));
  mret fd.

Definition connect_remote (statement : string) : M World Z :=
  if String.eqb statement EmptyString then mret (-1)
  else
    t ← now;
    w ← get;
    if t <? lastConnectTime (layer w) + RECONNECT_TIME_SEC then mret (-1)
    else
      t' ← now;
      _ ← modify (fun w => set_layer w (set_conn (layer w) t' (c_fd (layer w))));
      if strcasecmp_ statement UNIX_SOCKET =? 0 then
        fd ← connect_unix_remote statement (Z.of_nat (String.length TCP_SOCKET));
        connect_done fd
      else if strcasecmp_ statement TCP_SOCKET =? 0 then
        fd ← connect_stream_remote statement (Z.of_nat (String.length TCP_SOCKET));
        connect_done fd
      else mret (-1).

(** ** The event loop *)

Definition _reset_remote : M World unit := fun w =>
  let l0 := set_in (layer w) (in_buf (layer w)) 0 in
  let '(l1, e) :=
    if negb (c_fd l0 =? INVALID_SOCKET)
    then (set_state (set_conn l0 (lastConnectTime l0) (-1)) 0, close_socket (c_fd l0) (env w))
    else (l0, env w) in
  let h := match statusChangedCallback_ l1 with Some f => f E_OFFLINE (peer w) | None => peer w end in
  (Ok tt, mkWorld (set_chunks l1 (Chunks.resetChunks (chunks l1))) e h).

(** The label [ERR_NETWORK] of [PoolEventOnce]. *)
Definition err_network : M World Z :=
  _ ← _reset_remote;
  w ← get;
  _ ← connect_remote (c_str (co_host (layer w)));
  mret (u64 (-1)).

(** The body of [PoolEventOnce] once [c_fd] is a descriptor. *)
Definition pool_events (timeout : Z) : M World Z :=
  w ← get;
  let fd := c_fd (layer w) in
  if (fd <? 0) || (FD_SETSIZE <=? fd) then
    _ ← _reset_remote; mret (u64 (-1))
  else
    let writing := has_flag (_state (layer w)) S_WRITING in
    let '(r, e) := sys_select (timeout / 1000, Z.rem (i32 timeout) 1000) (env w) in
    _ ← modify (fun w => set_env w e);
    if sel_ret r =? SOCKET_ERROR then mret (u64 (-1))
    else if 0 <? sel_ret r then
      if has_flag (_state (layer w)) S_ERROR && sel_e r then err_network
      else
        rd ← (if has_flag (_state (layer w)) S_READING && sel_r r
              then recvByteStream else mret 0);
        if rd =? -1 then err_network
        else
          w1 ← get;
          (* [wfds] holds [fd] only if it was added before [select] *)
          wr ← (if has_flag (_state (layer w1)) S_WRITING && (writing && sel_w r)
                then _send_msg_to_collector else mret 0);
          if wr =? -1 then err_network else mret 0
    else mret 0.

Definition PoolEventOnce (timeout : Z) : M World Z :=
  w ← get;
  if c_fd (layer w) =? -1 then
    _ ← connect_remote (c_str (co_host (layer w)));
    w' ← get;
    if c_fd (layer w') =? -1 then mret (u64 (-1)) else pool_events timeout
  else pool_events timeout.

(** The retry loop of [SyncSendAll]: at most [MAX_RETRY_ITEMS = 20] rounds. *)
Fixpoint sync_loop (rounds : nat) (maxTimeout : Z) : M World unit :=
  match rounds with
  | O => mret tt
  | S rounds' =>
      w ← get;
      if has_flag (_state (layer w)) S_WRITING
      then _ ← PoolEventOnce maxTimeout; sync_loop rounds' maxTimeout
      else mret tt
  end.

Definition SyncSendAll (maxTimeout : Z) : M World unit := sync_loop 20 maxTimeout.

(** [~TransLayer] *)
Definition delete_TransLayer : M World unit :=
  modify (fun w => if negb (c_fd (layer w) =? -1)
                   then set_env w (close_socket (c_fd (layer w)) (env w)) else w).

End layer.
End Layer.
