(* ===== verification/Receive.v ===== *)
(** * Incoming messages are framed correctly however they arrive

    The abstract receiver [deliver] cuts a byte stream into frames and hands them to
    the handlers; it knows no buffer and no [recv].  [HandleMsgStream] and
    [recvByteStream] of TransLayer.v are shown to implement it for every
    fragmentation of the stream. *)
From Stdlib Require Import ZArith Lia.
From S2P Require Import Prelude SendBuffer Sockets TransLayer.

Module Receive.
Import Net Layer.

Section receive.
Context {H : Type}.
Abbreviation MsgHandleFunc := (Z -> list byte -> M H Z).
Abbreviation TransLayer := (@TransLayer H).
Abbreviation World := (@World H).

(** ** The abstract receiver

    A byte stream is cut into frames from the left; each frame goes to the handler
    of its type.  The relation has no buffer, no [recv] and no fragmentation. *)

Inductive cut_result :=
| Wait
| TooLong
| Frame (type : Z) (body rest : list byte).

Definition cut (s : list byte) : cut_result :=
  if zlen s <? sizeof_Header then Wait
  else
    let body_len := of_be32 (ztake 4 (zdrop 4 s)) in
    if IN_MSG_BUF_SIZE - sizeof_Header <? body_len then TooLong
    else if zlen s <? sizeof_Header + body_len then Wait
    else Frame (i32 (of_be32 (ztake 4 s))) (ztake body_len (zdrop sizeof_Header s))
           (zdrop (sizeof_Header + body_len) s).

(** How a stretch of the stream ends: an incomplete frame is left, a frame is
    refused, or a handler does not return. *)
Inductive verdict :=
| Rest (s : list byte)
| Refused
| Crash (o : outcome Z).

Inductive deliver (routes : gmap Z MsgHandleFunc) : list byte -> H -> verdict -> H -> Prop :=
| deliver_wait s h : cut s = Wait -> deliver routes s h (Rest s) h
| deliver_too_long s h : cut s = TooLong -> deliver routes s h Refused h
| deliver_unknown s type body s' h v h' :
    cut s = Frame type body s' -> routes !! type = None ->
    deliver routes s' h v h' -> deliver routes s h v h'
| deliver_next s type body s' (handler : MsgHandleFunc) ret h h1 v h' :
    cut s = Frame type body s' -> routes !! type = Some handler ->
    handler type body h = (Ok ret, h1) -> ret <> -1 ->
    deliver routes s' h1 v h' -> deliver routes s h v h'
| deliver_refused s type body s' (handler : MsgHandleFunc) h h1 :
    cut s = Frame type body s' -> routes !! type = Some handler ->
    handler type body h = (Ok (-1), h1) -> deliver routes s h Refused h1
| deliver_crash s type body s' (handler : MsgHandleFunc) o h h1 :
    cut s = Frame type body s' -> routes !! type = Some handler ->
    handler type body h = (o, h1) -> (forall ret, o <> Ok ret) ->
    deliver routes s h (Crash o) h1.

#[local] Hint Constructors deliver : core.

(** What a run of [recv] results amounts to: the bytes before it ends, and the
    value [recvByteStream] returns at its end. *)
Fixpoint arrivals (script : list recv_result) : list byte * Z :=
  match script with
  | [] => ([], 0)
  | RecvErr errno :: _ => ([], if nonblock_error errno then 0 else -1)
  | RecvData [] :: _ => ([], -1)
  | RecvData bs :: script' =>
      let '(s, code) := arrivals script' in (bs ++ s, code)
  end.

(** The bytes of an incomplete frame kept between two calls. *)
Definition leftover (l : TransLayer) : list byte := ztake (in_buf_size_ l) (in_buf l).

(** ** Lemmas on the abstract receiver *)

Lemma cut_Wait_short s : cut s = Wait -> zlen s < IN_MSG_BUF_SIZE.
Proof.
  unfold cut, IN_MSG_BUF_SIZE, sizeof_Header. repeat case_if; try done; lia.
Qed.

Lemma cut_rest s type body rest :
  cut s = Frame type body rest -> exists n, sizeof_Header <= n <= zlen s /\ rest = zdrop n s.
Proof.
  unfold cut. repeat case_if; try done. intros [= _ _ <-].
  pose proof (of_be32_range (ztake 4 (zdrop 4 s))).
  eexists; split; [|done]. word.
Qed.

(** A body leaves room for its header in the buffer. *)
Lemma cut_body s type body rest : cut s = Frame type body rest -> zlen body < IN_MSG_BUF_SIZE.
Proof.
  unfold cut, sizeof_Header. repeat case_if; try done. intros [= _ <- _].
  pose proof (of_be32_range (ztake 4 (zdrop 4 s))).
  rewrite zlen_ztake; [lia|]. rewrite zlen_zdrop by lia. word.
Qed.

(** More bytes do not change a cut that has been made. *)
Lemma cut_app s k : cut s <> Wait ->
  cut (s ++ k) = match cut s with
                 | Frame type body rest => Frame type body (rest ++ k)
                 | r => r
                 end.
Proof.
  unfold cut. pose proof (zlen_nonneg k). rewrite zlen_app.
  destruct (zlen s <? sizeof_Header) eqn:E1; [done|]. zbool. intros Hw. unfold sizeof_Header in *.
  rewrite (proj2 (Z.ltb_ge (zlen s + zlen k) _)) by lia.
  rewrite zdrop_app_l, ztake_app_l by (rewrite ?zlen_zdrop; lia).
  pose proof (of_be32_range (ztake 4 (zdrop 4 s))) as Hr.
  case_if; [done|]. revert Hw. destruct (zlen s <? _) eqn:E2; [done|]. intros _. zbool.
  rewrite (proj2 (Z.ltb_ge (zlen s + zlen k) _)) by lia.
  rewrite (ztake_app_l 4), !zdrop_app_l, ztake_app_l by (rewrite ?zlen_zdrop; word). done.
Qed.

Section deliver_lemmas.
Context (routes : gmap Z MsgHandleFunc).
Abbreviation deliver := (deliver routes).

Lemma deliver_total s h : exists v h', deliver s h v h'.
Proof.
  remember (length s) as n eqn:Hn. assert (length s <= n)%nat as Hle by lia. clear Hn.
  revert s h Hle. induction n as [|n IH]; intros s h Hle.
  { destruct s; [|cbn in Hle; lia]. exists (Rest []), h. by constructor. }
  destruct (cut s) as [| |type body rest] eqn:E; [by eauto..|].
  assert (length rest <= n)%nat as Hl.
  { destruct (cut_rest _ _ _ _ E) as (k & Hk & ->). unfold zlen, zdrop, sizeof_Header in *.
    rewrite length_drop. lia. }
  destruct (routes !! type) as [f|] eqn:Ef.
  2: { destruct (IH rest h) as (v & h' & ?); [lia|]. eauto. }
  destruct (f type body h) as [[ret|e| |] h1] eqn:Er;
    [|exists (Crash (Throw e)), h1|exists (Crash UB), h1|exists (Crash OutOfFuel), h1];
    try by eapply deliver_crash.
  destruct (decide (ret = -1)) as [->|]; [by eauto|].
  destruct (IH rest h1) as (v & h' & ?); [lia|]. eauto.
Qed.

Lemma deliver_det s h v h' : deliver s h v h' ->
  forall v2 h2, deliver s h v2 h2 -> v2 = v /\ h2 = h'.
Proof.
  induction 1; intros v2 h2 Hd; destruct Hd; agree; eauto.
  all: by match goal with Ho : forall ret, Ok _ <> Ok ret |- _ => destruct (Ho _ eq_refl) end.
Qed.

Lemma deliver_Rest_Wait s h v h' : deliver s h v h' -> forall r, v = Rest r -> cut r = Wait.
Proof. induction 1; intros r [=]; subst; eauto. Qed.

Lemma deliver_app s k h v h' : deliver s h v h' -> forall v2 h2,
  match v with
  | Rest r => deliver (r ++ k) h' v2 h2
  | _ => v2 = v /\ h2 = h'
  end -> deliver (s ++ k) h v2 h2.
Proof.
  induction 1 as [s h E|s h E|s t b s' h v h' E Ef _ IH|s t b s' f r h h1 v h' E Ef Er Hne _ IH
    |s t b s' f h h1 E Ef Er|s t b s' f o h h1 E Ef Er Ho]; intros v2 h2 Hv; [done|..];
    pose proof (cut_app s k ltac:(by rewrite E)) as Ec; rewrite E in Ec;
    try destruct Hv as [-> ->]; eauto.
Qed.

(** A stream that arrives in two parts. *)
Lemma deliver_app_inv s k h v h' v1 h1 :
  deliver (s ++ k) h v h' -> deliver s h v1 h1 ->
  match v1 with
  | Rest r => deliver (r ++ k) h1 v h'
  | _ => v1 = v /\ h1 = h'
  end.
Proof.
  intros Hd H1. destruct v1 as [r| |o].
  - destruct (deliver_total (r ++ k) h1) as (v2 & h2 & H2).
    destruct (deliver_det _ _ _ _ Hd v2 h2) as [-> ->]; [by eapply deliver_app|done].
  - by destruct (deliver_det _ _ _ _ Hd Refused h1) as [-> ->]; [eapply deliver_app|].
  - by destruct (deliver_det _ _ _ _ Hd (Crash o) h1) as [-> ->]; [eapply deliver_app|].
Qed.
End deliver_lemmas.

(** ** The receiver implements the abstract one *)

(** The value [HandleMsgStream] returns for a verdict on the first [len] bytes. *)
Definition stream_result (len : Z) (v : verdict) : outcome Z :=
  match v with
  | Rest r => Ok (len - zlen r)
  | Refused => Ok (-1)
  | Crash o => o
  end.

(** The header of a buffer position is the header of the stream that starts there. *)
Lemma window_header (buf : list byte) (offset len : Z) s :
  0 <= offset -> offset + sizeof_Header <= len <= zlen buf ->
  s = ztake (len - offset) (zdrop offset buf) ->
  memread buf offset sizeof_Header = Ok (ztake sizeof_Header s)
  /\ drop 4 (ztake sizeof_Header s) = ztake 4 (zdrop 4 s)
  /\ take 4 (ztake sizeof_Header s) = ztake 4 s.
Proof.
  unfold sizeof_Header. intros ?? ->. rewrite memread_ok by lia. unfold ztake, zdrop.
  rewrite !take_take, !skipn_firstn_comm, !take_take.
  split_and!; [do 2 f_equal; lia|f_equal; lia..].
Qed.

(** A later window of the buffer, seen from an earlier one. *)
Lemma window_drop (buf : list byte) (offset len n : Z) :
  0 <= offset -> 0 <= n -> offset + n <= len <= zlen buf ->
  zdrop n (ztake (len - offset) (zdrop offset buf))
  = ztake (len - (offset + n)) (zdrop (offset + n) buf).
Proof.
  intros. rewrite <- zdrop_zdrop by lia. unfold ztake, zdrop.
  rewrite skipn_firstn_comm. f_equal. lia.
Qed.

(** One iteration of the loop, in terms of the stream it looks at. *)
Lemma HandleMsgStream_loop_cut fuel (routes : gmap Z MsgHandleFunc) buf len offset h s :
  0 <= offset <= len -> len <= zlen buf -> s = ztake (len - offset) (zdrop offset buf) ->
  HandleMsgStream_loop (S fuel) routes buf len offset h
  = match cut s with
    | Wait => (Ok offset, h)
    | TooLong => (Ok (-1), h)
    | Frame type body rest =>
        match routes !! type with
        | Some handler =>
            (ret ← handler type body;
             if ret =? -1 then mret (-1)
             else HandleMsgStream_loop fuel routes buf len (len - zlen rest)) h
        | None => HandleMsgStream_loop fuel routes buf len (len - zlen rest) h
        end
    end.
Proof.
  intros Hofs Hlen Es. cbn [HandleMsgStream_loop]. unfold cut.
  assert (zlen s = len - offset) as Hs by (rewrite Es, zlen_ztake; rewrite ?zlen_zdrop; lia).
  rewrite Hs, Z.leb_antisym. destruct (len - offset <? sizeof_Header) eqn:E8; cbn [negb]; [done|]. zbool.
  destruct (window_header buf offset len s) as (-> & H2 & H3); [lia|lia|done|].
  rewrite bind_lift, H2, H3.
  remember (of_be32 (ztake 4 (zdrop 4 s))) as body_len eqn:Eb.
  assert (0 <= body_len) by (pose proof (of_be32_range (ztake 4 (zdrop 4 s))); word).
  destruct (IN_MSG_BUF_SIZE - sizeof_Header <? body_len); [done|].
  destruct (len - offset <? sizeof_Header + body_len) eqn:E9; zbool; [done|].
  unfold sizeof_Header in *.
  rewrite memread_ok, zlen_zdrop, Hs by lia.
  assert (ztake body_len (zdrop (offset + 8) buf) = ztake body_len (zdrop 8 s)) as ->.
  { rewrite Es, window_drop by lia. unfold ztake. rewrite take_take. f_equal. lia. }
  replace (len - (len - offset - (8 + body_len))) with (offset + (8 + body_len)) by lia.
  by destruct (routes !! _).
Qed.

Lemma HandleMsgStream_loop_spec routes s h v h' : deliver routes s h v h' ->
  forall fuel buf len offset,
  0 <= offset <= len -> len <= zlen buf ->
  s = ztake (len - offset) (zdrop offset buf) -> (length s < fuel)%nat ->
  HandleMsgStream_loop fuel routes buf len offset h = (stream_result len v, h').
Proof.
  induction 1 as [s h E|s h E|s t b s' h v h' E Ef _ IH|s t b s' f r h h1 v h' E Ef Er Hne _ IH
    |s t b s' f h h1 E Ef Er|s t b s' f o h h1 E Ef Er Ho];
    intros [|fuel] buf len offset Hofs Hlen Es Hfuel; try lia;
    assert (zlen s = len - offset) as Hs by (rewrite Es, zlen_ztake; rewrite ?zlen_zdrop; lia);
    rewrite (HandleMsgStream_loop_cut fuel routes buf len offset h s Hofs Hlen Es), E; rewrite ?Ef;
    try (erewrite bind_run by exact Er).
  - cbn. f_equal. f_equal. lia.
  - done.
  - destruct (cut_rest _ _ _ _ E) as (n & Hn & ->). unfold sizeof_Header in Hn. rewrite zlen_zdrop by lia.
    replace (len - (zlen s - n)) with (offset + n) by lia.
    apply IH; [lia|done| |]; [rewrite Es; by apply window_drop; lia|].
    unfold zdrop. rewrite length_drop. unfold zlen in *. lia.
  - rewrite (proj2 (Z.eqb_neq r (-1))) by done.
    destruct (cut_rest _ _ _ _ E) as (n & Hn & ->). unfold sizeof_Header in Hn. rewrite zlen_zdrop by lia.
    replace (len - (zlen s - n)) with (offset + n) by lia.
    apply IH; [lia|done| |]; [rewrite Es; by apply window_drop; lia|].
    unfold zdrop. rewrite length_drop. unfold zlen in *. lia.
  - done.
  - unfold mbind, M_bind. rewrite Er. by destruct o as [r| | |]; [destruct (Ho r)|..].
Qed.

Lemma HandleMsgStream_spec (routes : gmap Z MsgHandleFunc) buf len h v h' :
  0 <= len <= zlen buf -> deliver routes (ztake len buf) h v h' ->
  HandleMsgStream routes buf len h = (stream_result len v, h').
Proof.
  intros Hlen Hd. apply (HandleMsgStream_loop_spec _ _ _ _ _ Hd); rewrite ?Z.sub_0_r; try done; [lia..|].
  unfold ztake. rewrite length_take. lia.
Qed.

(** One [recv] either extends the stream or ends it. *)
Lemma sys_recv_arrivals n e : 0 < n ->
  (exists d s', sys_recv n e = (d, zlen d, 0, set_recv e s')
     /\ 0 < zlen d <= n
     /\ arrivals (recv_script e) = (d ++ (arrivals s').1, (arrivals s').2)
     /\ (recv_fuel (set_recv e s') < recv_fuel e)%nat)
  \/ (exists ret errno s', sys_recv n e = ([], ret, errno, set_recv e s') /\ ret <= 0
     /\ arrivals (recv_script e)
        = ([], if ret =? 0 then -1 else if nonblock_error errno then 0 else -1)).
Proof.
  intros Hn. unfold sys_recv, recv_fuel. destruct (recv_script e) as [|[bs|errno] s] eqn:E.
  - right. exists (-1), EAGAIN, []. destruct e; cbn in *; by subst.
  - destruct bs as [|b bs].
    + right. exists 0, 0, s. case_if; [done|]. rewrite zlen_nil in *. lia.
    + left. remember (b :: bs) as d eqn:Ed. assert (0 < zlen d) by (subst; unfold zlen; cbn; lia).
      assert (arrivals (RecvData d :: s) = (d ++ (arrivals s).1, (arrivals s).2)) as Ha.
      { subst d. cbn. by destruct (arrivals s). }
      case_if.
      * exists d, s. rewrite Ha. split_and!; try done; cbn; lia.
      * exists (ztake n d), (RecvData (zdrop n d) :: s). rewrite zlen_ztake by lia.
        assert (zlen (zdrop n d) = zlen d - n) as Hd by (rewrite zlen_zdrop; lia).
        split_and!; [done|lia..| |].
        -- rewrite Ha. destruct (zdrop n d) eqn:Ez; [unfold zlen in Hd; cbn in Hd; unfold zlen in *; lia|].
           cbn. destruct (arrivals s); cbn. by rewrite app_comm_cons, <- Ez, app_assoc, ztake_zdrop.
        -- cbn. unfold zlen in *. lia.
  - right. exists (-1), errno, s. done.
Qed.

(** What [recvByteStream] keeps between calls: a buffer of the declared size whose
    first [in_buf_size_] bytes are an incomplete frame. *)
Record in_wf (l : TransLayer) : Prop := mkInWf {
  in_wf_buf : zlen (in_buf l) = IN_MSG_BUF_SIZE;
  in_wf_size : 0 <= in_buf_size_ l <= IN_MSG_BUF_SIZE;
  in_wf_wait : cut (leftover l) = Wait
}.

Lemma in_wf_room l : in_wf l ->
  zlen (leftover l) = in_buf_size_ l /\ in_buf_size_ l < IN_MSG_BUF_SIZE.
Proof.
  intros [Hb Hs Hw]. apply cut_Wait_short in Hw.
  assert (zlen (leftover l) = in_buf_size_ l) by (unfold leftover; rewrite zlen_ztake; lia). lia.
Qed.

(** Storing [d] behind the leftover. *)
Lemma store_behind l d :
  in_wf l -> zlen d <= IN_MSG_BUF_SIZE - in_buf_size_ l ->
  exists buf, memcpy (in_buf l) (in_buf_size_ l) d (zlen d) = Ok buf
    /\ zlen buf = IN_MSG_BUF_SIZE
    /\ ztake (zlen d + in_buf_size_ l) buf = leftover l ++ d
    /\ ztake (in_buf_size_ l) buf = leftover l.
Proof.
  intros Hwf Hd. destruct (in_wf_room l Hwf) as [Hlen Hroom]. destruct Hwf as [Hb Hs _].
  pose proof (zlen_nonneg d). rewrite memcpy_ok by lia. eexists; split; [done|].
  rewrite (ztake_all (zlen d) d) by lia. fold (leftover l). split_and!.
  - rewrite !zlen_app, zlen_zdrop; lia.
  - rewrite app_assoc. apply ztake_app_eq. rewrite zlen_app. lia.
  - by apply ztake_app_eq.
Qed.

(** Moving the unread end of the first [total] bytes to the front. *)
Lemma move_to_front buf total r :
  zlen buf = IN_MSG_BUF_SIZE -> 0 <= total <= IN_MSG_BUF_SIZE -> zlen r <= total ->
  r = zdrop (total - zlen r) (ztake total buf) ->
  memread buf (total - zlen r) (zlen r) = Ok r
  /\ exists buf', memcpy buf 0 r (zlen r) = Ok buf' /\ zlen buf' = IN_MSG_BUF_SIZE
     /\ ztake (zlen r) buf' = r.
Proof.
  intros Hb Ht Hr E. pose proof (zlen_nonneg r). split.
  - rewrite memread_ok by lia. f_equal. rewrite E at 3. unfold ztake, zdrop.
    rewrite skipn_firstn_comm. f_equal. lia.
  - rewrite memcpy_ok by lia. rewrite ztake_0, app_nil_l, (ztake_all (zlen r) r) by lia. eexists; split; [done|].
    split; [rewrite !zlen_app, zlen_zdrop; lia|]. by apply ztake_app_eq.
Qed.

(** What is left of a stream is its end. *)
Lemma deliver_suffix routes s h v h' : deliver routes s h v h' ->
  forall r, v = Rest r -> zlen r <= zlen s /\ r = zdrop (zlen s - zlen r) s.
Proof.
  induction 1 as [s h E|s h E|s t b s' h v h' E Ef _ IH|s t b s' f r h h1 v h' E Ef Er Hne _ IH| |];
    intros r' [= Hr]; try subst r'.
  - by rewrite Z.sub_diag, zdrop_0.
  - destruct (cut_rest _ _ _ _ E) as (n & Hn & ->), (IH _ Hr) as [Hl Hz]. unfold sizeof_Header in *.
    rewrite zlen_zdrop, zdrop_zdrop in * by (rewrite ?zlen_zdrop in *; lia). split; [lia|].
    rewrite Hz at 1. f_equal. lia.
  - destruct (cut_rest _ _ _ _ E) as (n & Hn & ->), (IH _ Hr) as [Hl Hz]. unfold sizeof_Header in *.
    rewrite zlen_zdrop, zdrop_zdrop in * by (rewrite ?zlen_zdrop in *; lia). split; [lia|].
    rewrite Hz at 1. f_equal. lia.
Qed.

Lemma deliver_Crash routes s h v h' : deliver routes s h v h' ->
  forall o r, v = Crash o -> o <> Ok r.
Proof. induction 1; intros o' r' [=]; subst; eauto. Qed.

Lemma take_frames_spec w buf total v h' :
  zlen buf = IN_MSG_BUF_SIZE -> 0 <= total <= IN_MSG_BUF_SIZE ->
  deliver (msgRouteMap_ (layer w)) (ztake total buf) (peer w) v h' ->
  match v with
  | Rest r => exists buf', zlen buf' = IN_MSG_BUF_SIZE /\ ztake (zlen r) buf' = r
      /\ take_frames buf total w
         = (Ok true, mkWorld (set_in (layer w) buf' (zlen r)) (env w) h')
  | Refused => take_frames buf total w = (Ok false, mkWorld (layer w) (env w) h')
  | Crash o => fst (take_frames buf total w) = (_ ← o; Ok false)
      /\ snd (take_frames buf total w) = mkWorld (layer w) (env w) h'
  end.
Proof.
  intros Hb Ht Hd. unfold take_frames. rewrite bind_get.
  assert (zlen (ztake total buf) = total) as Htl by (rewrite zlen_ztake; lia).
  pose proof (deliver_suffix _ _ _ _ _ Hd) as Hsuf. rewrite Htl in Hsuf.
  pose proof (deliver_Crash _ _ _ _ _ Hd) as Hcr.
  apply HandleMsgStream_spec in Hd; [|lia].
  destruct v as [r| |o]; cbn [stream_result] in Hd.
  - destruct (Hsuf r eq_refl) as [Hr Hz]. pose proof (zlen_nonneg r).
    erewrite bind_run by (unfold on_peer; rewrite Hd; reflexivity).
    rewrite (proj2 (Z.ltb_ge _ 0)) by lia.
    replace (total - (total - zlen r)) with (zlen r) by lia.
    destruct (move_to_front buf total r Hb Ht Hr Hz) as (Hm & buf' & Hc & Hb' & Hf).
    case_if; [exists buf'; by rewrite Hm, bind_lift, Hc|].
    assert (zlen r = 0) as Hr0 by lia. exists buf. rewrite Hr0.
    split_and!; [done|by destruct r|done].
  - by erewrite bind_run by (unfold on_peer; rewrite Hd; reflexivity).
  - unfold mbind, M_bind, on_peer. rewrite Hd.
    by destruct o as [r| | |]; [destruct (Hcr (Ok r) r)|..].
Qed.

(** Only the input buffer, the [recv] script and the callbacks' state move. *)
Definition received (w : World) (o : outcome Z) (w' : World) (v : verdict) (code : Z) (h' : H)
  : Prop :=
  (exists buf n s', w' = mkWorld (set_in (layer w) buf n) (set_recv (env w) s') h')
  /\ in_wf (layer w')
  /\ match v with
     | Rest r => o = Ok code /\ leftover (layer w') = r
     | Refused => o = Ok (-1)
     | Crash c => o = c
     end.

Lemma received_step w w1 o w' v code h' :
  (exists buf n s1 h1, w1 = mkWorld (set_in (layer w) buf n) (set_recv (env w) s1) h1) ->
  received w1 o w' v code h' -> received w o w' v code h'.
Proof. intros (buf & n & s1 & h1 & ->) ((buf' & n' & s' & ->) & Hwf & Hv). split; [by exists buf', n', s'|done]. Qed.

Lemma recvByteStream_loop_spec fuel : forall w v h',
  in_wf (layer w) -> (recv_fuel (env w) < fuel)%nat ->
  deliver (msgRouteMap_ (layer w))
    (leftover (layer w) ++ (arrivals (recv_script (env w))).1) (peer w) v h' ->
  exists o w', recvByteStream_loop fuel w = (o, w')
    /\ received w o w' v (arrivals (recv_script (env w))).2 h'.
Proof.
  induction fuel as [|fuel IH]; intros w v h' Hwf Hfuel Hd; [lia|].
  cbn [recvByteStream_loop]. rewrite bind_get.
  destruct (in_wf_room _ Hwf) as [Hlen Hroom].
  pose proof (in_wf_size _ Hwf). rewrite (proj2 (Z.ltb_lt _ _)) by lia.
  destruct (sys_recv_arrivals (IN_MSG_BUF_SIZE - in_buf_size_ (layer w)) (env w)) as
    [(d & s' & -> & Hdl & Ha & Hf)|(ret & errno & s' & -> & Hret & Ha)]; [lia|..];
    rewrite Ha in *; cbn [fst snd] in *.
  - destruct (store_behind (layer w) d Hwf) as (buf & -> & Hb & Ht & Hl); [lia|].
    rewrite bind_lift, bind_modify, (proj2 (Z.ltb_lt 0 (zlen d))) by lia.
    set (w0 := set_env _ _).
    assert (in_wf (layer w0)) as Hwf0.
    { split; cbn; [done|lia|]. unfold leftover; cbn. rewrite Hl. apply Hwf. }
    rewrite app_assoc, <- Ht in Hd.
    destruct (deliver_total (msgRouteMap_ (layer w)) (ztake (zlen d + in_buf_size_ (layer w)) buf) (peer w))
      as (v1 & h1 & H1).
    pose proof (deliver_app_inv _ _ _ _ _ _ _ _ Hd H1) as Hnext.
    apply (take_frames_spec w0 buf) in H1 as Htf; [|done|lia].
    destruct v1 as [r| |o].
    + destruct Htf as (buf' & Hb' & Hr & Htf). erewrite bind_run by exact Htf.
      pose proof (deliver_Rest_Wait _ _ _ _ _ H1 r eq_refl) as Hw.
      pose proof (cut_Wait_short _ Hw). pose proof (zlen_nonneg r).
      edestruct IH as (o & w' & -> & Hrec); [| | |exists o, w'; split; [done|]].
      * split; cbn; [done|lia|]. unfold leftover; cbn. by rewrite Hr.
      * change (recv_fuel (set_recv (env w) s') < fuel)%nat. lia.
      * cbn. unfold leftover; cbn. rewrite Hr. exact Hnext.
      * eapply received_step; [|exact Hrec]. by eexists _, _, _, _.
    + destruct Hnext as [<- <-]. erewrite bind_run by exact Htf.
      eexists _, _; split; [done|]. by split_and!; [eexists _, _, _|..].
    + destruct Hnext as [<- <-], Htf as [Ho Hw]. destruct (take_frames _ _ w0) as [o1 w1] eqn:E.
      cbn in Ho, Hw. subst o1 w1. exists o. eexists.
      pose proof (deliver_Crash _ _ _ _ _ H1) as Hcr.
      split; [unfold mbind at 1, M_bind; rewrite E; by destruct o as [x| | |]; [destruct (Hcr (Ok x) x)|..]|].
      by split_and!; [eexists _, _, _|..].
  - destruct (store_behind (layer w) [] Hwf) as (buf & -> & Hb & Ht & Hl); [rewrite zlen_nil; lia|].
    rewrite bind_lift, bind_modify, (proj2 (Z.ltb_ge 0 ret)) by lia.
    rewrite app_nil_r in *.
    destruct (deliver_det _ _ _ _ _ Hd _ _ (deliver_wait _ _ _ (in_wf_wait _ Hwf))) as [<- <-].
    eexists (Ok (if ret =? 0 then -1 else if nonblock_error errno then 0 else -1)), _.
    split; [by destruct (ret =? 0), (nonblock_error errno)|].
    split_and!; [by eexists _, _, _|..|done|by unfold leftover].
    split; cbn; [done|lia|]. unfold leftover; cbn. rewrite Hl. apply Hwf.
Qed.

(** C9: the receiver is independent of how the network cuts the stream.  From any
    state whose buffer holds an incomplete frame, and for any sequence of [recv]
    results, [recvByteStream] makes exactly the handler calls of the abstract receiver
    on the leftover followed by all the bytes that arrive; it then keeps exactly the
    abstract leftover and returns the code of the event that ended the stream (0 for
    would-block, -1 for a shutdown or an error), returns -1 when a frame is refused,
    and lets a handler's exception through.  It never leaves the buffer, and the
    "buffer full" exit is unreachable: the invariant holds again in every case. *)
Theorem recvByteStream_delivers w v h' :
  in_wf (layer w) ->
  deliver (msgRouteMap_ (layer w))
    (leftover (layer w) ++ (arrivals (recv_script (env w))).1) (peer w) v h' ->
  exists o w', recvByteStream w = (o, w')
    /\ received w o w' v (arrivals (recv_script (env w))).2 h'.
Proof.
  intros Hwf Hd. unfold recvByteStream. rewrite bind_get.
  by apply recvByteStream_loop_spec; [|lia|].
Qed.

End receive.
End Receive.
