(* ===== verification/Transport.v ===== *)
(** * The transport layer keeps its promises across events

    The properties of a connection that need both directions and the event loop:
    the socket writer is a pipe for the send buffer, queued bytes leave in order and
    are never stranded, messages are framed so that the abstract receiver of
    Receive.v reads them back, and every operation keeps the invariant [ok]. *)
From Stdlib Require Import ZArith Lia Ascii.
From S2P Require Import Prelude SendBuffer Sockets TransLayer Receive.

Module Transport.
Import Net Layer Receive.

(** ** Flags *)

Lemma has_flag_lor s f g : has_flag (Z.lor s f) g = has_flag s g || has_flag f g.
Proof.
  unfold has_flag. rewrite Z.land_lor_distr_l.
  destruct (Z.eqb_spec (Z.land s g) 0) as [->|Hs], (Z.eqb_spec (Z.land f g) 0) as [->|Hf]; try done.
  - rewrite Z.lor_0_l. by apply negb_true_iff, Z.eqb_neq.
  - rewrite Z.lor_0_r. by apply negb_true_iff, Z.eqb_neq.
  - apply negb_true_iff, Z.eqb_neq. intros E. by apply Z.lor_eq_0_iff in E as [? ?].
Qed.

Lemma has_flag_clear s f g :
  Z.land f g = 0 -> has_flag (Z.land s (Z.lnot f)) g = has_flag s g.
Proof.
  intros E. unfold has_flag. do 2 f_equal. rewrite <- Z.land_assoc. f_equal.
  apply Z.bits_inj. intros i. rewrite Z.land_spec.
  assert (Z.testbit (Z.land f g) i = false) as Hi by (by rewrite E, Z.bits_0).
  rewrite Z.land_spec in Hi. destruct (Z.lt_ge_cases i 0); [by rewrite !Z.testbit_neg_r|].
  rewrite Z.lnot_spec by lia. by destruct (Z.testbit f i), (Z.testbit g i).
Qed.

Lemma has_flag_cleared s f : has_flag (Z.land s (Z.lnot f)) f = false.
Proof.
  unfold has_flag. rewrite <- Z.land_assoc, (Z.land_comm (Z.lnot f)), Z.land_lnot_diag, Z.land_0_r.
  done.
Qed.

(** ** The socket writer is a pipe *)

(** What a write may change: the send script, the wire, and [S_WRITING]. *)
Definition writes (x y : Z * Env) : Prop :=
  (exists s' w', snd y = set_send (snd x) s' w')
  /\ (forall f, Z.land S_WRITING f = 0 -> has_flag (fst y) f = has_flag (fst x) f).

#[export] Instance writes_preorder : PreOrder writes.
Proof.
  split.
  - intros [s e]. split; [|done]. exists (send_script e), (wire e). by destruct e.
  - intros [s1 e1] [s2 e2] [s3 e3] [(a & b & E1) H1] [(c & d & E2) H2]. cbn in *. subst.
    split; [by exists c, d|]. intros f Hf. cbn. by rewrite H2, H1.
Qed.

Lemma sys_send_env d e ret errno e' :
  sys_send d e = (ret, errno, e') -> exists s' w', e' = set_send e s' w'.
Proof.
  unfold sys_send. destruct (send_script e) as [|[n| |err] s] eqn:E; intros [= _ _ <-];
    [|by eexists _, _..].
  exists [], (wire e). destruct e; cbn in *; by subst.
Qed.

Lemma sys_send_spec d e : 0 < zlen d ->
  exists ret errno e', sys_send d e = (ret, errno, e')
    /\ (0 < ret -> ret <= zlen d /\ wire e' = wire e ++ ztake ret d
                   /\ (length (send_script e') < length (send_script e))%nat)
    /\ (ret <= 0 -> wire e' = wire e).
Proof.
  intros Hd. unfold sys_send. destruct (send_script e) as [|[n| |err] s] eqn:E;
    eexists _, _, _; (split; [done|]); split_and!; try done; try lia.
  intros _. cbn. split_and!; [lia|done|lia].
Qed.

Lemma write_loop_writes fuel : forall b n ofs x r y,
  write_loop fuel b n ofs x = (r, y) -> writes x y.
Proof.
  induction fuel as [|fuel IH]; intros b n ofs [st e] r y; cbn [write_loop]; [by intros [= _ <-]|].
  case_if.
  - destruct (memread _ _ _) as [d| | |]; [|by intros [= _ <-]..].
    rewrite bind_lift, bind_get. destruct (sys_send d e) as [[ret errno] e'] eqn:Es.
    apply sys_send_env in Es as (s' & w' & ->). rewrite bind_modify.
    assert (writes (st, e) (st, set_send e s' w')) as Hw by (split; [by exists s', w'|done]).
    repeat case_if; try (by intros [= _ <-]).
    + intros Hl. etrans; [exact Hw|by eapply IH].
    + intros [= _ <-]. etrans; [exact Hw|]. split; [by exists s', w'|]. intros f Hf. cbn [fst].
      rewrite has_flag_lor. unfold has_flag at 2. rewrite Hf. by rewrite orb_false_r.
  - intros [= _ <-]. split; [exists (send_script e), (wire e); by destruct e|].
    intros f Hf. by apply has_flag_clear.
Qed.

Lemma write_loop_spec fuel : forall b ofs st e,
  0 <= ofs <= zlen b -> zlen b < 2 ^ 31 -> (length (send_script e) < fuel)%nat ->
  exists ret y, write_loop fuel b (zlen b) ofs (st, e) = (Ok ret, y)
    /\ -1 <= ret <= zlen b
    /\ (0 <= ret -> ofs <= ret /\ wire (snd y) = wire e ++ ztake (ret - ofs) (zdrop ofs b)
                    /\ has_flag (fst y) S_WRITING = (ret <? zlen b))
    /\ (ret = -1 -> exists n, ofs <= n <= zlen b
                    /\ wire (snd y) = wire e ++ ztake (n - ofs) (zdrop ofs b)).
Proof.
  induction fuel as [|fuel IH]; intros b ofs st e Hofs Hb Hfuel; [lia|]. cbn [write_loop].
  case_if.
  2: { eexists _, _; split; [reflexivity|]. rewrite i32_small by word. cbn [fst snd].
    assert (ofs = zlen b) as -> by lia. split_and!; try lia.
    - intros _. rewrite Z.sub_diag, ztake_0, app_nil_r, Z.ltb_irrefl.
      split_and!; [lia|done|apply has_flag_cleared]. }
  rewrite memread_ok, bind_lift, bind_get by lia.
  set (d := ztake _ (zdrop ofs b)).
  assert (zlen d = zlen b - ofs) as Hd by (unfold d; rewrite zlen_ztake; rewrite ?zlen_zdrop; lia).
  assert (d = zdrop ofs b) as Ed by (apply ztake_all; rewrite zlen_zdrop; lia).
  destruct (sys_send_spec d e) as (ret & errno & e' & -> & Hpos & Hneg); [lia|].
  rewrite bind_modify. repeat case_if.
  - destruct Hpos as (Hr & Hw & Hf); [lia|]. rewrite !(u32_small) by (rewrite ?u32_small; word).
    destruct (IH b (ofs + ret) st e') as (r & y & -> & Hrange & H0 & H1); [lia|lia|lia|].
    assert (forall n, ofs + ret <= n ->
      wire e' ++ ztake (n - (ofs + ret)) (zdrop (ofs + ret) b)
      = wire e ++ ztake (n - ofs) (zdrop ofs b)) as Hjoin.
    { intros n Hn. rewrite Hw, <- app_assoc. f_equal. rewrite Ed.
      replace (n - ofs) with (ret + (n - (ofs + ret))) by lia.
      rewrite ztake_split, zdrop_zdrop by lia. done. }
    exists r, y. split; [done|]. split_and!; try lia.
    + intros Hr0. destruct (H0 Hr0) as (? & -> & ?). split_and!; [lia|apply Hjoin; lia|done].
    + intros ->. destruct (H1 eq_refl) as (n & Hn & ->). exists n. split; [lia|apply Hjoin; lia].
  - eexists _, _; split; [reflexivity|]. rewrite i32_small by word. cbn [fst snd].
    split_and!; [lia|lia| |lia]. intros _. rewrite Z.sub_diag, ztake_0, app_nil_r, has_flag_lor, orb_true_r.
      split_and!; [lia|apply Hneg; lia|]. symmetry. apply Z.ltb_lt. lia.
  - eexists _, _; split; [reflexivity|]. cbn [fst snd]. split_and!; [lia|lia|lia|].
    intros _. exists ofs. split; [lia|]. rewrite Z.sub_diag, ztake_0, app_nil_r. apply Hneg. lia.
  - eexists _, _; split; [reflexivity|]. cbn [fst snd]. split_and!; [lia|lia|lia|].
    intros _. exists ofs. split; [lia|]. rewrite Z.sub_diag, ztake_0, app_nil_r. apply Hneg. lia.
Qed.

#[export] Instance do_write_data_pipe :
  Chunks.Pipe _do_write_data (fun x => wire (snd x)) (fun x => has_flag (fst x) S_WRITING).
Proof.
  split. intros b [st e] Hb. unfold _do_write_data. rewrite bind_get. pose proof (zlen_nonneg b).
  destruct (write_loop_spec (S (length (send_script e))) b 0 st e) as
    (ret & y & -> & Hr & H0 & H1); [lia..|].
  exists ret, y. rewrite zdrop_0 in *. split_and!; try done; try lia.
  - intros Hge. destruct (H0 Hge) as (_ & Hw & Hf). by rewrite Z.sub_0_r in Hw.
  - intros Hm. destruct (H1 Hm) as (n & Hn & Hw). rewrite Z.sub_0_r in Hw. eauto.
Qed.

Lemma do_write_data_writes b n x r y : _do_write_data b n x = (r, y) -> writes x y.
Proof. destruct x as [st e]. apply write_loop_writes. Qed.

(** ** The invariant of a connection *)

Abbreviation queue w := (Chunks.pending (chunks (layer w))).

Section invariant.
Context {H : Type}.
Abbreviation TransLayer := (@TransLayer H).
Abbreviation World := (@World H).
Implicit Types (l : TransLayer) (w : World).

(** Both buffers are well formed; bytes that wait to be sent are never stranded, since
    [S_WRITING] makes the next [PoolEventOnce] watch for writability; and an open
    descriptor is watched for input and for errors. *)
Record ok l : Prop := mkOk {
  ok_chunks : Chunks.wf (chunks l);
  ok_in : in_wf l;
  ok_wakeup : Chunks.pending (chunks l) <> [] -> has_flag (_state l) S_WRITING = true;
  ok_flags : c_fd l <> -1 ->
    has_flag (_state l) S_READING = true /\ has_flag (_state l) S_ERROR = true
}.

(** What left the queue for the wire between two states: a prefix, in order, and
    what did not leave is still queued unless the connection was reset. *)
Definition sent_from w w' : Prop :=
  exists out, wire (env w') = wire (env w) ++ out /\ out `prefix_of` queue w
    /\ (queue w = out ++ queue w' \/ queue w' = []).

#[export] Instance sent_from_preorder : PreOrder sent_from.
Proof.
  split.
  - intros w. exists []. rewrite app_nil_r. split_and!; [done|apply prefix_nil|by left].
  - intros w1 w2 w3 (o1 & E1 & P1 & Q1) (o2 & E2 & P2 & Q2). exists (o1 ++ o2).
    rewrite E2, E1, app_assoc. split; [done|].
    destruct Q1 as [Q1|Q1].
    + rewrite Q1. split; [by apply prefix_app|]. destruct Q2 as [->|]; [left; by rewrite app_assoc|by right].
    + rewrite Q1 in P2. apply prefix_nil_inv in P2 as ->. rewrite app_nil_r. split; [done|].
      right. rewrite Q1 in Q2. cbn in Q2. by destruct Q2.
Qed.
(** What no event changes: the peer's address, the handlers, the allocator. *)
Definition kept w w' : Prop :=
  co_host (layer w') = co_host (layer w) /\ msgRouteMap_ (layer w') = msgRouteMap_ (layer w)
  /\ statusChangedCallback_ (layer w') = statusChangedCallback_ (layer w)
  /\ heap (env w') = heap (env w).

#[export] Instance kept_preorder : PreOrder kept.
Proof.
  split; [done|]. intros w1 w2 w3 (? & ? & ? & ?) (? & ? & ? & ?). split_and!; congruence.
Qed.

(** One event seen from outside. *)
Definition stepped w w' : Prop := ok (layer w') /\ sent_from w w' /\ kept w w'.

Lemma stepped_trans w1 w2 w3 : stepped w1 w2 -> stepped w2 w3 -> stepped w1 w3.
Proof. intros (_ & S1 & K1) (O2 & S2 & K2). split_and!; [done|by etrans..]. Qed.

Lemma in_wf_ext l l' :
  in_buf l' = in_buf l -> in_buf_size_ l' = in_buf_size_ l -> in_wf l -> in_wf l'.
Proof. intros Eb Es [H1 H2 H3]. split; unfold leftover in *; by rewrite ?Eb, ?Es. Qed.

(** *** Writing *)

Lemma send_msg_spec w : ok (layer w) ->
  wp _send_msg_to_collector (fun ret w' => -1 <= ret <= 0 /\ kept w w'
      /\ Chunks.wf (chunks (layer w')) /\ zlen (in_buf (layer w')) = IN_MSG_BUF_SIZE
      /\ c_fd (layer w') = c_fd (layer w)
      /\ (exists out, wire (env w') = wire (env w) ++ out /\ out `prefix_of` queue w
          /\ (ret = 0 -> queue w = out ++ queue w'))
      /\ (ret = 0 -> ok (layer w'))) (fun _ _ => False) w.
Proof.
  intros Hok. unfold wp, _send_msg_to_collector. set (x := (_state (layer w), env w)).
  destruct (Chunks.ready_cks (chunks (layer w))) as [|ck cks] eqn:Er.
  { unfold Chunks.drainOutWithPipe. rewrite Er. cbn. destruct Hok as [Hc Hi Hw Hf].
    split_and!; [lia|lia|done|done|apply Hi|done| |intros _; split; cbn; [done|by apply (in_wf_ext (layer w))|done|done]].
    exists []. rewrite app_nil_r. split_and!; [done|apply prefix_nil|done]. }
  destruct (Chunks.drain_loop_spec (cb := _do_write_data) (S (length (queue w))) (chunks (layer w)) x)
    as (ret & c & [st e] & Ed & Hwf & Hr & _ & (out & Hout & Hpre & Heq) & Hbl & _);
    [apply Hok|lia|by rewrite Er|].
  assert (Chunks.drainOutWithPipe _do_write_data (chunks (layer w)) x = Ok (ret, c, (st, e))) as Ed'.
  { unfold Chunks.drainOutWithPipe. by rewrite Er. }
  rewrite Ed'. apply (Chunks.drain_keeps _ writes do_write_data_writes) in Ed' as [(s' & w1 & He) Hfl].
  cbn [fst snd] in *. subst e. cbn in *.
  split_and!; [lia|lia|done|done|apply Hok|done|by exists out|].
  intros ->. specialize (Hbl eq_refl). destruct Hok as [Hc Hi Hw Hf]. split; cbn; [done|by apply (in_wf_ext (layer w))| |].
  - intros Hne. rewrite Hbl. by rewrite bool_decide_eq_false_2.
  - intros Hfd. rewrite !Hfl by done. by apply Hf.
Qed.

(** *** Dropping the connection *)

Lemma reset_remote_spec w :
  Chunks.wf (chunks (layer w)) -> zlen (in_buf (layer w)) = IN_MSG_BUF_SIZE ->
  wp _reset_remote (fun _ w' => ok (layer w') /\ kept w w' /\ queue w' = []
      /\ wire (env w') = wire (env w) /\ c_fd (layer w') = -1) (fun _ _ => False) w.
Proof.
  intros Hc Hb. unfold wp, _reset_remote.
  destruct (Chunks.reset_loop_spec _ (chunks (layer w)) Hc eq_refl) as (Hw & Hr & _).
  destruct (Chunks.checkWaterLevel_spec _ Hw) as (Hw' & Hr' & _).
  assert (Chunks.pending (Chunks.resetChunks (chunks (layer w))) = []) as Hp.
  { unfold Chunks.pending, Chunks.resetChunks. by rewrite Hr', Hr. }
  assert (forall l, chunks l = chunks (layer w) -> c_fd l = -1 -> in_buf_size_ l = 0 ->
    in_buf l = in_buf (layer w) -> ok (set_chunks l (Chunks.resetChunks (chunks l)))) as Hok.
  { intros l Ec Ef Es Eb. split; cbn; [by rewrite Ec| |by rewrite Ec, Hp|done].
    split; cbn; [by rewrite Eb|rewrite Es; done|unfold leftover; cbn; by rewrite Es]. }
  destruct (Z.eqb_spec (c_fd (layer w)) (-1)) as [Efd|Efd]; cbn.
  - rewrite Efd. cbn. split_and!; try done; by apply Hok.
  - rewrite (proj2 (Z.eqb_neq _ INVALID_SOCKET)) by done. cbn. split_and!; try done; by apply Hok.
Qed.

(** *** Dialling *)

(** Dialling moves only the environment, and nothing onto the wire. *)
Definition dialling w w' : Prop :=
  layer w' = layer w /\ peer w' = peer w
  /\ wire (env w') = wire (env w) /\ heap (env w') = heap (env w).

Lemma try_addresses_wire addrs : forall e fd e',
  try_addresses addrs e = (fd, e') -> wire e' = wire e /\ heap e' = heap e.
Proof.
  induction addrs as [|a addrs IH]; intros e fd e'; cbn; [by intros [= _ <-]|].
  repeat case_if; try (by intros [= _ <-]); intros E; by apply IH in E.
Qed.

Lemma strcasecmp_length s1 : forall s2,
  strcasecmp_ s1 s2 = 0 -> (String.length s2 <= String.length s1)%nat.
Proof.
  induction s1 as [|c1 s1 IH]; intros [|c2 s2]; cbn; try done; try lia.
  case_if; intros E; [|specialize (IH _ E); lia].
  assert (char_int c1 = char_int c2) as Eq by lia. rewrite Eq, Z.eqb_refl in *. done.
Qed.

Lemma string_get_Some s : forall n, (n < String.length s)%nat -> exists c, String.get n s = Some c.
Proof.
  induction s as [|c s IH]; intros [|n] Hn; cbn in *; [lia|lia|by eexists|]. apply IH. lia.
Qed.

Lemma char_at_ok s base i :
  0 <= base + i < Z.of_nat (String.length s) -> exists c, char_at s base i = Ok c.
Proof.
  intros Hi. unfold char_at. rewrite (proj2 (Z.leb_le 0 _)), (proj2 (Z.ltb_lt _ _)) by lia. cbn.
  destruct (string_get_Some s (Z.to_nat (base + i))) as [c ->]; [lia|eauto].
Qed.

(** The colon search stays inside the string and stops. *)
Lemma find_colon_ok s base : forall fuel offset,
  1 <= base -> -1 <= offset -> base + offset < Z.of_nat (String.length s) ->
  offset < Z.of_nat fuel -> (0 < fuel)%nat ->
  exists r, find_colon fuel s base offset = Ok r
    /\ match r with inr k => -1 <= k <= offset /\ (0 <= offset -> 0 <= k) | inl _ => True end.
Proof.
  induction fuel as [|fuel IH]; intros offset Hb Ho Hs Hf Hf0; [lia|]. cbn [find_colon].
  destruct (char_at_ok s base offset) as [c ->]; [lia|]. cbn [mbind outcome_bind].
  repeat case_if; [eexists; split; [done|cbn; lia]|by eexists|].
  destruct (IH (offset - 1)) as (r & -> & Hr); try lia. eexists; split; [done|].
  by destruct r; [|lia].
Qed.

(** An address that names no host and no port: a bare [tcp:]. *)
Definition no_host (s : string) : Prop := strcasecmp_ s TCP_SOCKET = 0 /\ String.length s = 4%nat.

Lemma connect_stream_remote_spec s w :
  4 <= Z.of_nat (String.length s) ->
  wp (connect_stream_remote s 4) (fun _ w' => dialling w w')
    (fun e w' => dialling w w' /\ e = logic_error /\ String.length s = 4%nat) w.
Proof.
  intros Hs. unfold connect_stream_remote.
  destruct (find_colon_ok s 4 (S (String.length s)) (Z.of_nat (String.length s) - 4 - 1))
    as (r & -> & Hr); [lia..|]. wps. unfold wp at 1, lift.
  destruct r as [|k]; [by wps|]. wps. unfold string_of, wp at 1, lift.
  case_if; [split_and!; [done..|lia]|]. cbn [mret outcome_ret].
  wps. wps. destruct (head (addr_script (env w))) as [[addrs|]|]; [|by repeat wps..].
  destruct (try_addresses _ _) as [sfd e'] eqn:E. wps. wps. wps.
  apply try_addresses_wire in E as [Hw Hh]. by split_and!.
Qed.

Lemma connect_unix_remote_spec s b w :
  wp (connect_unix_remote s b) (fun _ w' => dialling w w') (fun _ _ => False) w.
Proof.
  unfold connect_unix_remote. wps. wps. destruct (unix_script (env w)) as [|a us]; [by wps|].
  repeat case_if; by repeat wps.
Qed.

(** Dialling keeps the queue and the invariant; it may set the descriptor. *)
Lemma connect_remote_spec s w : ok (layer w) ->
  let Q w' := ok (layer w') /\ kept w w' /\ queue w' = queue w /\ wire (env w') = wire (env w) in
  wp (connect_remote s) (fun _ => Q) (fun e w' => Q w' /\ e = logic_error /\ no_host s) w.
Proof.
  intros Hok Q. unfold connect_remote. case_if; [by wps|].
  wps. unfold wp at 1, now. cbn. wps. wps. case_if; [by wps|]. wps. unfold wp at 1, now. cbn.
  wps. wps. set (w1 := set_layer _ _).
  assert (forall w', dialling w1 w' -> Q w') as Hd.
  { intros w' (El & _ & Ew & Eh). unfold Q, kept. rewrite El, Ew, Eh. cbn. split_and!; try done.
    destruct Hok. by split; [|apply (in_wf_ext (layer w))|..]. }
  assert (forall fd w', dialling w1 w' -> wp (connect_done fd) (fun _ => Q)
      (fun e w' => Q w' /\ e = logic_error /\ no_host s) w') as Hdone.
  { intros fd w' (El & _ & Ew & Eh). unfold connect_done. wps. wps. wps. unfold Q, kept. cbn.
    rewrite El, Ew, Eh. cbn [layer w1 set_layer]. split_and!; try done.
    destruct Hok. split; cbn; [done|by apply (in_wf_ext (layer w))|..].
    - intros _. rewrite has_flag_lor. apply orb_true_r.
    - intros _. rewrite !has_flag_lor. by rewrite !orb_true_r. }
  repeat case_if.
  - wps. eapply wp_mono; [apply connect_unix_remote_spec|by eauto|done].
  - wps. eapply wp_mono; [apply connect_stream_remote_spec|by eauto|].
    2: { intros e w' (Hdl & -> & Hn). split_and!; [by apply Hd|done|]. split; [lia|done]. }
    rename select (strcasecmp_ _ TCP_SOCKET = 0) into Htcp. apply strcasecmp_length in Htcp. cbn in Htcp. lia.
  - wps. by apply Hd.
Qed.

(** *** Events *)

(** Handlers return or throw. *)
Definition handlers_safe w : Prop :=
  forall type handler body h, msgRouteMap_ (layer w) !! type = Some handler ->
    zlen body < IN_MSG_BUF_SIZE ->
    (exists ret, (handler type body h).1 = Ok ret) \/ (exists e, (handler type body h).1 = Throw e).

(** Why an event throws: the address is a bare [tcp:], or a message handler threw. *)
Definition fails w (e : exn) : Prop :=
  (e = logic_error /\ no_host (c_str (co_host (layer w))))
  \/ exists type handler body h, msgRouteMap_ (layer w) !! type = Some handler
       /\ zlen body < IN_MSG_BUF_SIZE /\ (handler type body h).1 = Throw e.

Lemma fails_kept w w' e : kept w w' -> fails w' e -> fails w e.
Proof. intros (E1 & E2 & _) Hf. unfold fails in *. by rewrite <- E1, <- E2. Qed.

Lemma deliver_safe w s h v h' : deliver (msgRouteMap_ (layer w)) s h v h' -> handlers_safe w ->
  forall o, v = Crash o -> exists e, o = Throw e /\ fails w e.
Proof.
  induction 1 as [| | | | |s t b s' f o h h1 Ec Ef Er Ho]; intros Hs o' [=]; subst; eauto.
  destruct (Hs t f b h Ef (cut_body _ _ _ _ Ec)) as [[r E]|[e E]]; pose proof E as E'; rewrite Er in E; cbn in E;
    [by destruct (Ho r)|]. exists e. split; [done|right]. exists t, f, b, h. split_and!; [done|by eapply cut_body|done].
Qed.

Lemma recvByteStream_spec w : ok (layer w) -> handlers_safe w ->
  let Q w' := ok (layer w') /\ kept w w' /\ chunks (layer w') = chunks (layer w)
    /\ c_fd (layer w') = c_fd (layer w)
    /\ _state (layer w') = _state (layer w) /\ wire (env w') = wire (env w) in
  wp recvByteStream (fun _ => Q) (fun e w' => Q w' /\ fails w e) w.
Proof.
  intros Hok Hs Q. unfold recvByteStream. wps. wps.
  destruct (deliver_total (msgRouteMap_ (layer w))
    (leftover (layer w) ++ (arrivals (recv_script (env w))).1) (peer w)) as (v & h' & Hd).
  destruct (recvByteStream_loop_spec (S (recv_fuel (env w))) w v h') as
    (o & w' & E & (buf & n & s' & ->) & Hin & Hv); [apply Hok|lia|done|].
  unfold wp. rewrite E. set (w' := mkWorld _ _ _) in *.
  assert (Q w') as HQ. { destruct Hok. by split_and!. }
  destruct v as [r| |o']; [by destruct Hv as [-> _]|by subst o|].
  destruct (deliver_safe _ _ _ _ _ Hd Hs o' eq_refl) as (e & -> & Hf). by subst o.
Qed.

Lemma err_network_spec w0 w :
  Chunks.wf (chunks (layer w)) -> zlen (in_buf (layer w)) = IN_MSG_BUF_SIZE -> kept w0 w ->
  (exists out, wire (env w) = wire (env w0) ++ out /\ out `prefix_of` queue w0) ->
  wp err_network (fun ret w' => ret = u64 (-1) /\ stepped w0 w')
    (fun e w' => stepped w0 w' /\ fails w0 e) w.
Proof.
  intros Hc Hb Hk (out & Hw & Hp). unfold err_network. wps.
  eapply wp_mono; [by apply reset_remote_spec| |done].
  intros _ w1 (Hok1 & Hk1 & Hq1 & Hw1 & _). wps. wps. wps.
  assert (forall w', ok (layer w') /\ kept w1 w' /\ queue w' = queue w1
    /\ wire (env w') = wire (env w1) -> stepped w0 w') as Hst.
  { intros w' (Hok' & Hk' & Hq' & Hw'). split_and!; [done| |by do 2 (etrans; [eassumption|])].
    exists out. rewrite Hw', Hw1, Hq', Hq1. by split_and!; [..|right]. }
  eapply wp_mono; [by apply connect_remote_spec| |].
  - intros r w' HQ. wps. eauto.
  - intros e w' (HQ & -> & Hn). split; [by eauto|]. apply (fails_kept w0 w1); [by etrans|]. by left.
Qed.

(** What one round promises: a zero return means that the connection was not reset. *)
Definition round w (ret : Z) w' : Prop :=
  stepped w w' /\ (ret = 0 -> exists out, wire (env w') = wire (env w) ++ out
                                          /\ queue w = out ++ queue w').

Lemma stepped_same w w' : ok (layer w') -> kept w w' -> queue w' = queue w ->
  wire (env w') = wire (env w) -> stepped w w'.
Proof.
  intros Hok Hk Hq Hw. split_and!; try done. exists []. rewrite app_nil_r, Hq.
  split_and!; [done|apply prefix_nil|by left].
Qed.

Lemma round_same w ret w' : ok (layer w') -> kept w w' -> queue w' = queue w ->
  wire (env w') = wire (env w) -> round w ret w'.
Proof.
  intros. split; [by apply stepped_same|]. intros _. exists []. by rewrite app_nil_r.
Qed.

Lemma u64_m1 : u64 (-1) <> 0.
Proof. done. Qed.

Lemma pool_events_spec timeout w : ok (layer w) -> handlers_safe w ->
  wp (pool_events timeout) (round w) (fun e w' => stepped w w' /\ fails w e) w.
Proof.
  intros Hok Hs. unfold pool_events. wps. wps. case_if.
  { wps. eapply wp_mono; [apply reset_remote_spec; apply Hok| |done].
    intros _ w' (Hok' & Hk & Hq & Hw & _). wps. split; [|done]. split_and!; try done.
    exists []. rewrite app_nil_r. split_and!; [done|apply prefix_nil|by right]. }
  destruct (sys_select _ (env w)) as [r e] eqn:Es. wps. wps. set (w1 := set_env w e).
  assert (exists s a, e = set_select (env w) s a) as (ss & sa & ->).
  { unfold sys_select in Es. destruct (select_script (env w)); injection Es as <- <-; by eexists _, _. }
  assert (forall w', ok (layer w') -> kept w1 w' -> chunks (layer w') = chunks (layer w) ->
    wire (env w') = wire (env w1) -> stepped w w') as Hsame.
  { intros w' Hok' Hk' Hc Hw. apply stepped_same; [done|by etrans; [|exact Hk']|by rewrite Hc|done]. }
  assert (forall w', Chunks.wf (chunks (layer w')) -> zlen (in_buf (layer w')) = IN_MSG_BUF_SIZE ->
    kept w1 w' -> (exists out, wire (env w') = wire (env w) ++ out /\ out `prefix_of` queue w) ->
    wp err_network (round w) (fun e w' => stepped w w' /\ fails w e) w') as Herr.
  { intros w' Hc Hb Hk Hout. eapply wp_mono; [apply (err_network_spec w); try done|..|done].
    intros ret w2 [-> Hst]. by split. }
  case_if; [wps; by apply round_same|]. case_if; [|wps; by apply round_same]. case_if.
  - apply Herr; try apply Hok; [done|]. exists []. rewrite app_nil_r. split; [done|apply prefix_nil].
  - wps. assert (wp (if has_flag (_state (layer w)) S_READING && sel_r r then recvByteStream else mret 0)
      (fun _ w' => ok (layer w') /\ kept w1 w' /\ chunks (layer w') = chunks (layer w)
         /\ wire (env w') = wire (env w)) (fun e w' => stepped w w' /\ fails w e) w1) as Hrd.
    { case_if; [|by wps]. eapply wp_mono; [by apply (recvByteStream_spec w1)|..].
      - by intros _ w' (? & ? & ? & _ & _ & ?).
      - intros e w' ((? & ? & ? & _ & _ & ?) & Hf). split; [by apply Hsame|by apply (fails_kept w w1)]. }
    eapply wp_mono; [exact Hrd| |done]. intros rd w2 (Hok2 & Hk2 & Hc2 & Hw2).
    case_if.
    { apply Herr; try apply Hok2; [done|]. exists []. rewrite Hw2, app_nil_r. split; [done|apply prefix_nil]. }
    wps. wps. wps. case_if.
    + eapply wp_mono; [by apply send_msg_spec| |done].
      intros wr w3 (Hr & Hk3 & Hwf3 & Hb3 & _ & (out & Hout & Hpre & Heq) & Hok3).
      rewrite Hc2, Hw2 in *. case_if.
      * apply Herr; try done; [by etrans|]. by exists out.
      * wps. assert (wr = 0) as -> by lia. specialize (Hok3 eq_refl). specialize (Heq eq_refl).
        split; [|by intros _; exists out]. split_and!; [done| |by etrans; [|exact Hk3]].
        exists out. by split_and!; [..|left].
    + wps. case_if; [lia|]. wps. by apply round_same; rewrite ?Hc2, ?Hw2.
Qed.

Lemma PoolEventOnce_spec timeout w : ok (layer w) -> handlers_safe w ->
  wp (PoolEventOnce timeout) (round w) (fun e w' => stepped w w' /\ fails w e) w.
Proof.
  intros Hok Hs. unfold PoolEventOnce. wps. wps. case_if; [|by apply pool_events_spec].
  wps. eapply wp_mono; [by apply connect_remote_spec|..].
  - intros _ w1 (Hok1 & Hk1 & Hq1 & Hw1). wps. wps.
    assert (stepped w w1) as Hst by by apply stepped_same.
    case_if; [wps; by apply round_same|].
    eapply wp_mono; [apply pool_events_spec; [done|]|..].
    + unfold handlers_safe. destruct Hk1 as (_ & -> & _). exact Hs.
    + intros ret w2 [Hst2 H0]. split; [by eapply stepped_trans|]. rewrite <- Hq1, <- Hw1. done.
    + intros ? w2 [Hst2 Hf2]. split; [by eapply stepped_trans|by apply (fails_kept w w1)].
  - intros ? w1 ((Hok1 & Hk1 & Hq1 & Hw1) & -> & Hn). split; [by apply stepped_same|by left].
Qed.

Lemma sync_loop_spec n timeout : forall w, ok (layer w) -> handlers_safe w ->
  wp (sync_loop n timeout) (fun _ => stepped w) (fun e w' => stepped w w' /\ fails w e) w.
Proof.
  assert (forall w, ok (layer w) -> stepped w w) as Hrefl by (intros; by apply stepped_same).
  induction n as [|n IH]; intros w Hok Hs; cbn [sync_loop]; [wps; auto|].
  wps. wps. case_if; [|wps; auto]. wps.
  eapply wp_mono; [by apply PoolEventOnce_spec| |done].
  intros ret w1 [Hst _]. pose proof Hst as (Hok1 & _ & Hk1).
  eapply wp_mono; [apply IH; [done|]|..].
  - unfold handlers_safe. destruct Hk1 as (_ & -> & _). exact Hs.
  - intros ? w2 Hst2. by eapply stepped_trans.
  - intros ? w2 [Hst2 Hf2]. split; [by eapply stepped_trans|by apply (fails_kept w w1)].
Qed.

(** *** Queueing a message *)

Definition heap_ok w : Prop := forall i, Chunks.malloc_ok (heap (env w) i).

(** Only the chunks and the allocation counter move. *)
Lemma copy_chunks_spec data w :
  Chunks.wf (chunks (layer w)) -> heap_ok w ->
  zlen data + Chunks.sizeof_DataChunk < 2 ^ 30 ->
  wp (copy_chunks data) (fun _ w' => exists c k,
      w' = mkWorld (set_chunks (layer w) c) (set_heap_ix (env w) k) (peer w) /\ Chunks.wf c
      /\ (Chunks.pending c = queue w ++ data
          \/ (exists i m, heap (env w) i m = None)
             /\ exists n, 0 <= n < zlen data /\ Chunks.pending c = queue w ++ ztake n data))
    (fun _ _ => False) w.
Proof.
  intros Hc Hh Hl. unfold wp, copy_chunks. pose proof (zlen_nonneg data).
  unfold Chunks.sizeof_DataChunk in *. rewrite u32_small by word.
  edestruct (Chunks.copyDataIntoChunks_spec (fun n => heap (env w) (heap_ix (env w)) n)
    (chunks (layer w)) data Hc) as (ret & c & k & -> & Hwf & Hres & _);
    [unfold Chunks.sizeof_DataChunk; lia|apply Hh|].
  exists c, (S (heap_ix (env w))). split_and!; [done..|].
  destruct Hres as [[_ ?]|(_ & [m Hm] & _ & _ & ?)]; [by left|right]. eauto.
Qed.

(** The part of [data] that a copy stored: all of it, or a prefix when [malloc] failed. *)
Definition stored (e : Env) (data d : list byte) : Prop :=
  d = data \/ (exists i n, heap e i n = None) /\ d `prefix_of` data.

Lemma stored_all e data d : (forall i n, heap e i n <> None) -> stored e data d -> d = data.
Proof. intros Hm [->|((i & n & He) & _)]; [done|by destruct (Hm i n)]. Qed.

(** The queue after a message was accepted: the old bytes, then what was stored of the
    header, then what was stored of the body. *)
Definition enqueued (e : Env) (data q q' : list byte) : Prop :=
  exists h b, q' = q ++ h ++ b /\ stored e (header_bytes REQ_UPDATE_SPAN (zlen data)) h /\ stored e data b.

Lemma enqueued_all e data q q' : (forall i n, heap e i n <> None) -> enqueued e data q q' ->
  q' = q ++ header_bytes REQ_UPDATE_SPAN (zlen data) ++ data.
Proof. intros Hm (h & b & -> & Hh & Hb). by rewrite (stored_all _ _ _ Hm Hh), (stored_all _ _ _ Hm Hb). Qed.

(** The message is refused for want of room. *)
Definition accepts l (data : list byte) : bool :=
  Chunks.checkCapacity (chunks l) (u32 (sizeof_Header + zlen data)).

Lemma copied_stored w c data :
  (Chunks.pending c = queue w ++ data
   \/ (exists i m, heap (env w) i m = None)
      /\ exists n, 0 <= n < zlen data /\ Chunks.pending c = queue w ++ ztake n data) ->
  exists d, Chunks.pending c = queue w ++ d /\ stored (env w) data d.
Proof.
  intros [->|(He & n & _ & ->)]; [by exists data; split; [|left]|].
  exists (ztake n data). split; [done|right]. split; [done|]. unfold ztake. by eexists (drop _ _); rewrite take_drop.
Qed.

Lemma copy_into_send_buffer_spec data w :
  ok (layer w) -> heap_ok w -> zlen data + 20 < 2 ^ 30 ->
  wp (copy_into_send_buffer data) (fun b w' => b = accepts (layer w) data /\
      if (b : bool) then
        ok (layer w') /\ kept w w' /\ wire (env w') = wire (env w)
        /\ has_flag (_state (layer w')) S_WRITING = true
        /\ enqueued (env w) data (queue w) (queue w')
      else w' = w) (fun _ _ => False) w.
Proof.
  intros Hok Hh Hl. unfold copy_into_send_buffer, accepts. wps. wps. case_match eqn:Eacc; [|by wps].
  wps. eapply wp_mono; [apply copy_chunks_spec; [apply Hok|done|done]| |done].
  intros [] w1 (c1 & k1 & -> & Hwf1 & Hp1). wps.
  eapply wp_mono; [apply copy_chunks_spec; [done|done|unfold Chunks.sizeof_DataChunk; lia]| |done].
  intros [] w2 (c2 & k2 & -> & Hwf2 & Hp2). wps. wps. wps. cbn [env set_layer layer].
  assert (has_flag (Z.lor (_state (layer w)) S_WRITING) S_WRITING = true) as Hfl
    by (rewrite has_flag_lor; apply orb_true_r).
  split_and!; [done| |done|done|done|].
  - destruct Hok as [Hc Hi Hw Hf]. split; cbn [chunks set_state set_chunks _state c_fd];
      [done|by apply (in_wf_ext (layer w))|done|].
    intros Hfd. rewrite !has_flag_lor. by destruct (Hf Hfd) as [-> ->].
  - destruct (copied_stored w c1 _ Hp1) as (h & Eh & Sh), (copied_stored _ c2 _ Hp2) as (b & Eb & Sb).
    cbn [chunks set_state layer set_chunks] in *. exists h, b. by rewrite Eb, Eh, <- app_assoc.
Qed.

(** The frame of a message is cut back into the message. *)
Lemma cut_header_bytes type data k :
  in_i32 type -> zlen data <= IN_MSG_BUF_SIZE - sizeof_Header ->
  cut (header_bytes type (zlen data) ++ data ++ k) = Frame type data k.
Proof.
  intros Ht Hd. pose proof (zlen_nonneg data). pose proof (zlen_nonneg k).
  unfold cut, header_bytes, IN_MSG_BUF_SIZE, sizeof_Header in *.
  rewrite <- (app_assoc (be32 _)). set (rest := data ++ k).
  rewrite !zlen_app, !zlen_be32. rewrite (proj2 (Z.ltb_ge _ 8)) by (unfold rest; rewrite zlen_app; lia).
  assert (zdrop 4 (be32 (u32 type) ++ be32 (u32 (zlen data)) ++ rest) = be32 (u32 (zlen data)) ++ rest) as ->
    by (by apply zdrop_app_eq).
  rewrite !ztake_app_eq by done. rewrite !of_be32_be32 by apply u32_range.
  rewrite (u32_small (zlen data)) by word. rewrite (proj2 (Z.ltb_ge _ (zlen data))) by lia.
  unfold rest. rewrite zlen_app, (proj2 (Z.ltb_ge _ _)) by lia.
  assert (forall n, 0 <= n -> zdrop (8 + n) (be32 (u32 type) ++ be32 (zlen data) ++ data ++ k)
    = zdrop n (data ++ k)) as Hz.
  { intros n Hn. by rewrite <- zdrop_zdrop by lia. }
  pose proof (Hz 0 ltac:(lia)) as Hz0. rewrite Z.add_0_r, zdrop_0 in Hz0.
  rewrite Hz, Hz0, zdrop_app_eq, ztake_app_eq by (done || lia).
  f_equal. by apply i32_u32.
Qed.

(** *** Many messages *)

(** Queue the bodies one after the other; [false] as soon as one is refused. *)
Fixpoint queue_all (bodies : list (list byte)) : M World bool :=
  match bodies with
  | [] => mret true
  | body :: rest =>
      b ← copy_into_send_buffer body;
      if (b : bool) then queue_all rest else mret false
  end.

Definition framed (bodies : list (list byte)) : list byte :=
  concat ((fun body => header_bytes REQ_UPDATE_SPAN (zlen body) ++ body) <$> bodies).

(** The bodies in front of the first one refused are queued. *)
Lemma queue_all_spec bodies : forall w,
  ok (layer w) -> heap_ok w -> (forall i n, heap (env w) i n <> None) ->
  Forall (fun body => zlen body + 20 < 2 ^ 30) bodies ->
  wp (queue_all bodies) (fun b w' => ok (layer w') /\ kept w w'
      /\ exists pre post, bodies = pre ++ post /\ queue w' = queue w ++ framed pre
         /\ match post with
            | [] => b = true
            | body :: _ => b = false /\ accepts (layer w') body = false
            end) (fun _ _ => False) w.
Proof.
  induction bodies as [|body bodies IH]; intros w Hok Hh Hm Hl; cbn [queue_all].
  { wps. split_and!; [done|done|]. exists [], []. unfold framed. cbn. by rewrite app_nil_r. }
  apply Forall_cons in Hl as [Hb Hl]. wps.
  eapply wp_mono; [by apply copy_into_send_buffer_spec| |done].
  intros [|] w1 [Ha Hw1].
  2: { wps. subst w1. split_and!; [done|done|]. exists [], (body :: bodies). unfold framed. cbn.
       by rewrite app_nil_r. }
  destruct Hw1 as (Hok1 & Hk1 & _ & _ & Hq1). apply (enqueued_all _ _ _ _ Hm) in Hq1.
  pose proof Hk1 as (_ & _ & _ & Eh).
  eapply wp_mono; [apply IH; try done; unfold heap_ok; by rewrite Eh| |done].
  intros b w2 (Hok2 & Hk2 & pre & post & -> & Hq2 & Hp). split_and!; [done|by etrans|].
  exists (body :: pre), post. split_and!; [done| |done].
  rewrite Hq2, Hq1, <- !app_assoc. unfold framed. cbn. by rewrite ?app_assoc.
Qed.

(** ** Theorems *)


(** [SyncSendAll] ends after at most twenty rounds with the stream intact, and a
    cleared [S_WRITING] really means that nothing is left to send. *)
Theorem SyncSendAll_keeps_stream timeout w :
  ok (layer w) -> handlers_safe w ->
  wp (SyncSendAll timeout)
    (fun _ w' => ok (layer w') /\ sent_from w w'
       /\ (has_flag (_state (layer w')) S_WRITING = false -> queue w' = []))
    (fun _ w' => ok (layer w') /\ sent_from w w') w.
Proof.
  intros Hok Hs. eapply wp_mono; [by apply sync_loop_spec|..].
  - intros _ w' (Hok' & ? & _). split_and!; try done. intros Hf.
    destruct (decide (queue w' = [])) as [|Hne]; [done|]. by rewrite (ok_wakeup _ Hok' Hne) in Hf.
  - by intros ? w' ((? & ? & _) & _).
Qed.

(** Queueing a span frames it.  [copy_into_send_buffer] either refuses and
    changes nothing, or, when no allocation fails, appends exactly one header (type
    [REQ_UPDATE_SPAN], the body's length, network byte order) and the body, keeps the
    invariant and asks for a write event. *)
Theorem copy_into_send_buffer_frames data w :
  ok (layer w) -> heap_ok w -> (forall i n, heap (env w) i n <> None) ->
  zlen data + 20 < 2 ^ 30 ->
  wp (copy_into_send_buffer data) (fun b w' => b = accepts (layer w) data /\
      if (b : bool) then
        ok (layer w') /\ wire (env w') = wire (env w)
        /\ has_flag (_state (layer w')) S_WRITING = true
        /\ queue w' = queue w ++ header_bytes REQ_UPDATE_SPAN (zlen data) ++ data
      else w' = w) (fun _ _ => False) w.
Proof.
  intros Hok Hh Hm Hl. eapply wp_mono; [by apply copy_into_send_buffer_spec| |done].
  intros [|] w' [Ha H']; (split; [done|]); [|done]. destruct H' as (? & _ & ? & ? & Hq). split_and!; auto. by apply (enqueued_all _ _ _ _ Hm).
Qed.

End invariant.

(** A handler that records the bodies it is given. *)
Definition record_body : Z -> list byte -> M (list (list byte)) Z :=
  fun _ body h => (Ok 0, h ++ [body]).

(** Queued frames are read back one by one. *)
Lemma deliver_framed bodies : forall seen,
  Forall (fun body => zlen body <= IN_MSG_BUF_SIZE - sizeof_Header) bodies ->
  deliver {[REQ_UPDATE_SPAN := record_body]} (framed bodies) seen (Rest []) (seen ++ bodies).
Proof.
  induction bodies as [|body bodies IH]; intros seen Hb.
  { rewrite app_nil_r. by constructor. }
  apply Forall_cons in Hb as [Hl Hb]. unfold framed. cbn [fmap list_fmap concat]. rewrite <- app_assoc.
  eapply deliver_next; [by apply cut_header_bytes|by rewrite lookup_singleton_eq|done|done|].
  specialize (IH (seen ++ [body]) Hb). rewrite <- app_assoc in IH. exact IH.
Qed.

(** C33: round trip through the frame format.  Spans of at most 4088 bytes are queued one
    after the other on a connection with an empty queue, while [malloc] does not fail.  The
    queue then holds the spans in front of the first one that the buffer had no room for
    (all of them when the calls report success, and only a refusal by [checkCapacity] ends
    them early), and the abstract receiver of the agent's own framing reads exactly these
    spans back from it, one handler call per span, with the same bodies in the same order
    and nothing left over. *)
Theorem queued_spans_read_back {H} (w : @World H) bodies :
  ok (layer w) -> heap_ok w -> (forall i n, heap (env w) i n <> None) -> queue w = [] ->
  Forall (fun body => zlen body <= IN_MSG_BUF_SIZE - sizeof_Header) bodies ->
  wp (queue_all bodies) (fun b w' => exists pre post, bodies = pre ++ post
      /\ deliver {[REQ_UPDATE_SPAN := record_body]} (queue w') [] (Rest []) pre
      /\ match post with
         | [] => b = true
         | body :: _ => b = false /\ accepts (layer w') body = false
         end)
    (fun _ _ => False) w.
Proof.
  intros Hok Hh Hm Hq Hb.
  eapply wp_mono; [apply queue_all_spec; try done| |done].
  { eapply Forall_impl; [exact Hb|]. unfold IN_MSG_BUF_SIZE, sizeof_Header. cbn. lia. }
  intros b w' (_ & _ & pre & post & -> & Hqa & Hp). exists pre, post. split_and!; [done| |done].
  apply Forall_app in Hb as [Hb _]. rewrite Hqa, Hq. by apply (deliver_framed pre []).
Qed.

Lemma substring_all s : forall n, (String.length s <= n)%nat -> String.substring 0 n s = s.
Proof.
  induction s as [|c s IH]; intros [|n] Hn; cbn in *; [done..|lia|]. f_equal. apply IH. lia.
Qed.

(** Upper-case comparison of two characters, as [strcasecmp_] does it. *)
Definition same_letter (c1 c2 : ascii) : bool :=
  toupper (char_int c1) =? toupper (char_int c2).

(** [strcasecmp_] is a case-insensitive prefix test, not the comparison its name
    says: it returns 0 exactly when the second string, up to the case of ASCII
    letters, begins the first. *)
Theorem strcasecmp_prefix s1 s2 :
  strcasecmp_ s1 s2 = 0
  <-> exists p k, s1 = String.append p k
      /\ Forall2 (fun c1 c2 => same_letter c1 c2 = true) (String.list_ascii_of_string p)
           (String.list_ascii_of_string s2).
Proof.
  revert s1. induction s2 as [|c2 s2 IH]; intros s1.
  { destruct s1 as [|c s1]; cbn; (split; [intros _|done]);
      [by exists EmptyString, EmptyString|by exists EmptyString, (String c s1)]. }
  destruct s1 as [|c1 s1]; cbn [strcasecmp_].
  { split; [done|]. intros ([|? ?] & k & E & Hf); [by inversion Hf|done]. }
  unfold same_letter in *. case_if; [|rewrite IH].
  - split; [intros E|intros (p & k & E & Hf)].
    + assert (char_int c1 = char_int c2) as Eq by lia. by rewrite Eq, Z.eqb_refl in *.
    + destruct p as [|c p]; cbn in *; inversion Hf as [|? ? ? ? Hc _]; subst.
      injection E as -> _. by rewrite Hc in *.
  - split.
    + intros (p & k & -> & Hf). exists (String c1 p), k. split; [done|]. constructor; [|done].
      by apply negb_false_iff.
    + intros ([|c p] & k & E & Hf); cbn in *; inversion Hf; subst. injection E as _ ->. by exists p, k.
Qed.

(** Reconnects are throttled.  An attempt earlier than five seconds after the
    last one dials nothing and leaves the connection as it was; an attempt that dials
    happens at least five seconds after the recorded time and records a new one. *)
Theorem connect_remote_throttled {H} s (w w' : @World H) r :
  connect_remote s w = (r, w') ->
  let t := clock (env w) (tick (env w)) in
  (t < lastConnectTime (layer w) + RECONNECT_TIME_SEC ->
     r = Ok (-1) /\ layer w' = layer w /\ dialled (env w') = dialled (env w))
  /\ (dialled (env w') <> dialled (env w) ->
     lastConnectTime (layer w) + RECONNECT_TIME_SEC <= t
     /\ lastConnectTime (layer w') = clock (env w) (S (tick (env w)))).
Proof.
  intros E t. unfold connect_remote in E. destruct (String.eqb s EmptyString).
  { injection E as <- <-. done. }
  rewrite (bind_run now _ w t (set_env w (set_tick (env w) (S (tick (env w)))))) in E by done.
  rewrite bind_get in E. cbn [layer set_env] in E.
  destruct (t <? lastConnectTime (layer w) + RECONNECT_TIME_SEC) eqn:Et; zbool.
  { injection E as <- <-. done. }
  split; [lia|]. intros _. split; [lia|].
  erewrite bind_run in E by reflexivity. rewrite bind_modify in E. cbn [env set_env set_tick clock tick] in E.
  set (w1 := set_layer _ _) in E.
  assert (lastConnectTime (layer w1) = clock (env w) (S (tick (env w)))) as <- by done.
  assert (forall m, wp m (fun _ w2 => dialling w1 w2) (fun _ w2 => dialling w1 w2) w1 ->
     (fd ← m; connect_done fd) w1 = (r, w') -> lastConnectTime (layer w') = lastConnectTime (layer w1)) as Hm.
  { intros m Hwp Er. unfold wp in Hwp. destruct (m w1) as [[fd|e| |] w2] eqn:Em; try done.
    - rewrite (bind_run _ _ _ _ _ Em) in Er. injection Er as <- <-. cbn. by destruct Hwp as (-> & _).
    - rewrite (bind_stop _ _ _ _ _ Em) in Er. injection Er as <- <-. by destruct Hwp as (-> & _). }
  destruct (strcasecmp_ s UNIX_SOCKET =? 0).
  { apply (Hm _) in E; [done|]. eapply wp_mono; [apply connect_unix_remote_spec|done|done]. }
  destruct (strcasecmp_ s TCP_SOCKET =? 0) eqn:Etcp; [|by injection E as <- <-].
  apply (Hm _) in E; [done|]. eapply wp_mono; [apply connect_stream_remote_spec|done|by intros ? ? [? _]]. zbool.
  apply strcasecmp_length in Etcp. cbn in Etcp. lia.
Qed.

(** The path of a Unix socket keeps a leading colon.  The prefix "unix:" is
    skipped by the length of "tcp:", so an address "unix:P" dials the path ":P" (cut
    to the size of [sun_path]), never "P". *)
Theorem unix_address_keeps_colon {H} (w : @World H) p a us :
  lastConnectTime (layer w) + RECONNECT_TIME_SEC <= clock (env w) (tick (env w)) ->
  unix_script (env w) = a :: us -> 0 <= at_fd a ->
  exists r w', connect_remote (String.append "unix:" p) w = (r, w')
    /\ dialled (env w')
       = dialled (env w) ++ [(String.substring 0 sun_path_max (String ":" p), EmptyString)].
Proof.
  intros Ht Hu Hfd. unfold connect_remote.
  change (String.eqb (String.append "unix:" p) EmptyString) with false. cbv iota.
  erewrite bind_run by reflexivity. rewrite bind_get. cbn [layer set_env].
  rewrite (proj2 (Z.ltb_ge _ _)) by lia. erewrite bind_run by reflexivity. rewrite bind_modify.
  replace (strcasecmp_ _ UNIX_SOCKET =? 0) with true by (by destruct p).
  unfold connect_unix_remote. rewrite bind_assoc, bind_get. cbn [env set_env set_layer set_tick unix_script].
  rewrite Hu. rewrite (proj2 (Z.ltb_ge _ 0)) by lia.
  set (path := String.substring 0 sun_path_max _).
  assert (path = String.substring 0 sun_path_max (String ":" p)) as ->.
  { unfold path. f_equal. change (Z.to_nat (Z.of_nat (String.length TCP_SOCKET))) with 4%nat.
    change (String.substring 0 (String.length (String.append "unix:" p)) (String ":" p) = String ":" p).
    apply substring_all. change (S (String.length p) <= 5 + String.length p)%nat. lia. }
  case_if; (rewrite bind_assoc, bind_modify, bind_mret; unfold connect_done; rewrite bind_modify;
    eexists _, _; split; [reflexivity|]); cbn; [by destruct (0 <? at_fd a)|done].
Qed.

(** ** Concrete runs *)

(** A fresh connection satisfies the invariant. *)
Lemma new_ok {H} host (l : @TransLayer H) : new_TransLayer host = Ok l -> ok l.
Proof.
  intros [= <-]. split; cbn; [|split; cbn; [done|done|done]|done|done].
  by split; [constructor|constructor|..].
Qed.

Definition log : Type := list (list byte).

(** An environment in which nothing is available but memory and time. *)
Definition quiet (s : list send_result) (r : list recv_result) (sel : list select_result) : Env :=
  mkEnv s r sel [] [] (fun n => 100 + Z.of_nat n) 0 (fun _ => Chunks.malloc0) 0 [] [] [] [].

(** An open connection whose type-1 messages are recorded. *)
Definition demo_layer (c : Chunks.Chunks) (state : Z) : @TransLayer log :=
  mkTransLayer "tcp:127.0.0.1:9999" c state (replicate 4096 Byte.x00) 0 None
    {[REQ_UPDATE_SPAN := record_body]} 0 7.

Definition demo_world (e : Env) : World := mkWorld (demo_layer Chunks.demo 6) e [].

Lemma demo_ok : ok (demo_layer Chunks.demo 6).
Proof.
  split; cbn; [apply Chunks.demo_wf|split; cbn; [done|done|done]|done|done].
Qed.

Lemma demo_safe e : handlers_safe (demo_world e).
Proof.
  intros type handler body h E. cbn in E.
  apply lookup_singleton_Some in E as [_ <-]. left. by exists 0.
Qed.

(** Two frames and the start of a third, in three pieces cut at the wrong places. *)
Definition frame_ab : list byte := header_bytes 1 2 ++ [Byte.x61; Byte.x62].
Definition frame_c : list byte := header_bytes 1 1 ++ [Byte.x63].
Definition demo_env : Env :=
  quiet [] [RecvData (take 5 frame_ab); RecvData (drop 5 frame_ab ++ take 8 frame_c);
            RecvData (drop 8 frame_c ++ take 3 frame_ab)]
    [mkSelect 1 true true false].

Lemma recvByteStream_delivers_witness :
  exists o w', recvByteStream (demo_world demo_env) = (o, w')
    /\ received (demo_world demo_env) o w' (Rest (take 3 frame_ab)) 0
         [[Byte.x61; Byte.x62]; [Byte.x63]].
Proof.
  apply (recvByteStream_delivers (demo_world demo_env) (Rest (take 3 frame_ab))
           [[Byte.x61; Byte.x62]; [Byte.x63]]).
  - apply demo_ok.
  - eapply deliver_next; [vm_compute; reflexivity|reflexivity|reflexivity|discriminate|].
    eapply deliver_next; [vm_compute; reflexivity|reflexivity|reflexivity|discriminate|].
    apply deliver_wait. reflexivity.
Defined.


Lemma SyncSendAll_keeps_stream_witness :
  wp (SyncSendAll 10)
    (fun _ w' => ok (layer w') /\ sent_from (demo_world demo_env) w'
       /\ (has_flag (_state (layer w')) S_WRITING = false -> queue w' = []))
    (fun _ w' => ok (layer w') /\ sent_from (demo_world demo_env) w') (demo_world demo_env).
Proof. apply (SyncSendAll_keeps_stream 10 (demo_world demo_env)); [apply demo_ok|apply demo_safe]. Defined.

Lemma copy_into_send_buffer_frames_witness :
  wp (copy_into_send_buffer [Byte.x61; Byte.x62]) (fun b w' =>
      b = accepts (demo_layer Chunks.demo 6) [Byte.x61; Byte.x62] /\
      if (b : bool) then
        ok (layer w') /\ wire (env w') = wire demo_env
        /\ has_flag (_state (layer w')) S_WRITING = true
        /\ queue w' = queue (demo_world demo_env) ++ frame_ab
      else w' = demo_world demo_env) (fun _ _ => False) (demo_world demo_env).
Proof.
  apply (copy_into_send_buffer_frames [Byte.x61; Byte.x62] (demo_world demo_env)).
  - apply demo_ok.
  - intros i. apply Chunks.malloc0_ok.
  - discriminate.
  - reflexivity.
Defined.

Lemma queued_spans_read_back_witness :
  wp (queue_all [[Byte.x61; Byte.x62]; [Byte.x63]]) (fun b w' => exists pre post,
      [[Byte.x61; Byte.x62]; [Byte.x63]] = pre ++ post
      /\ deliver {[REQ_UPDATE_SPAN := record_body]} (queue w') [] (Rest []) pre
      /\ match post with
         | [] => b = true
         | body :: _ => b = false /\ accepts (layer w') body = false
         end)
    (fun _ _ => False) (demo_world demo_env).
Proof.
  apply (queued_spans_read_back (demo_world demo_env) [[Byte.x61; Byte.x62]; [Byte.x63]]).
  - apply demo_ok.
  - intros i. apply Chunks.malloc0_ok.
  - discriminate.
  - reflexivity.
  - repeat constructor; vm_compute; discriminate.
Defined.

(** A torn frame.  [copy_into_send_buffer] ignores the [-1] of [copyDataIntoChunks]: when
    the allocation for the body fails it still answers [true], with the header queued and
    the body missing, so that the receiver takes the next frame for the body. *)
Definition failing_env : Env :=
  mkEnv [] [] [] [] [] (fun _ => 100) 0
    (fun i => match i with 0%nat => Chunks.malloc0 | _ => fun _ => None end) 0 [] [] [] [].

Example failed_malloc_tears_frame :
  let '(r, w) := copy_into_send_buffer (replicate 5000 Byte.x61) (demo_world failing_env) in
  r = Ok true /\ header_bytes REQ_UPDATE_SPAN 5000 `prefix_of` queue w
  /\ zlen (queue w) < 5008 /\ has_flag (_state (layer w)) S_WRITING = true.
Proof.
  vm_compute. split_and!; try done. by eexists.
Qed.

(** The event that [demo_env] scripts: both frames are handled, the partial one is
    kept, and nothing is written. *)
Example demo_event :
  let '(r, w) := PoolEventOnce 10 (demo_world demo_env) in
  (r, peer w, leftover (layer w), wire (env w))
  = (Ok 0, [[Byte.x61; Byte.x62]; [Byte.x63]], take 3 frame_ab, []).
Proof. vm_compute. reflexivity. Qed.

Lemma connect_remote_throttled_witness :
  let w := demo_world demo_env in
  let t := 100 in
  (t < 0 + RECONNECT_TIME_SEC ->
     fst (connect_remote "tcp:h:1" w) = Ok (-1)
     /\ layer (snd (connect_remote "tcp:h:1" w)) = layer w
     /\ dialled (env (snd (connect_remote "tcp:h:1" w))) = [])
  /\ (dialled (env (snd (connect_remote "tcp:h:1" w))) <> [] ->
     0 + RECONNECT_TIME_SEC <= t
     /\ lastConnectTime (layer (snd (connect_remote "tcp:h:1" w))) = 101).
Proof.
  apply (connect_remote_throttled "tcp:h:1" (demo_world demo_env)
           (snd (connect_remote "tcp:h:1" (demo_world demo_env)))
           (fst (connect_remote "tcp:h:1" (demo_world demo_env)))).
  vm_compute. reflexivity.
Defined.

Definition unix_env : Env :=
  mkEnv [] [] [] [] [mkAttempt 9 0 0] (fun _ => 100) 0 (fun _ => Chunks.malloc0) 0 [] [] [] [].

Lemma unix_address_keeps_colon_witness :
  exists r w', connect_remote "unix:/tmp/collector.sock" (demo_world unix_env) = (r, w')
    /\ dialled (env w') = [] ++ [(String.substring 0 sun_path_max ":/tmp/collector.sock", EmptyString)].
Proof.
  apply (unix_address_keeps_colon (demo_world unix_env) "/tmp/collector.sock" (mkAttempt 9 0 0) []).
  - vm_compute. discriminate.
  - reflexivity.
  - vm_compute. discriminate.
Defined.

End Transport.
