(* ===== verification/ConnPool.v ===== *)
(** * The pool of connections: [ConnectionPool::SpanConnectionPool]
      (common/src/ConnectionPool/SpanConnectionPool.h)

    A stack of idle connections; [get] creates a connection when the stack is empty.
    A [unique_ptr] that has been moved out is no longer in the pool, so the model
    moves the connection itself.  The mutex makes each operation one step. *)
From Stdlib Require Import ZArith Lia.
From S2P Require Import Prelude SendBuffer Sockets TransLayer Receive Transport.

Module ConnPool.
Import Net Layer Receive Transport.

Section pool.
Context {H : Type}.
Abbreviation MsgHandleFunc := (Z -> list byte -> M H Z).
Abbreviation TransLayer := (@TransLayer H).

Record SpanConnectionPool := mkPool {
  pool_host : string;
  con_counter : Z;
  _pool : list TransLayer;
  routeVec_ : list (Z * MsgHandleFunc)
}.

Definition set_pool (p : SpanConnectionPool) (n : Z) (cs : list TransLayer) : SpanConnectionPool :=
  mkPool (pool_host p) n cs (routeVec_ p).

(** [createConnection(routeVec_)] *)
Definition createConnection (p : SpanConnectionPool) : outcome (TransLayer * SpanConnectionPool) :=
  l ← new_TransLayer (pool_host p);
  mret (foldl (fun l v => RegPeerMsgCallback l (fst v) (snd v)) l (routeVec_ p),
        set_pool p (u32 (con_counter p + 1)) (_pool p)).

(** [SpanConnectionPool::SpanConnectionPool] *)
Definition new_SpanConnectionPool (host : string) (routes : list (Z * MsgHandleFunc))
  : outcome SpanConnectionPool :=
  '(l, p) ← createConnection (mkPool host 0 [] routes);
  mret (set_pool p (con_counter p) (l :: _pool p)).

Definition get (p : SpanConnectionPool) : outcome (TransLayer * SpanConnectionPool) :=
  match _pool p with
  | [] => createConnection p
  | l :: cs => mret (l, set_pool p (con_counter p) cs)
  end.

Definition free (l : TransLayer) (p : SpanConnectionPool) : SpanConnectionPool :=
  set_pool p (con_counter p) (l :: _pool p).

(** ** What a user of the pool may rely on *)

(** The handlers a connection of this pool has; a later entry of a type wins. *)
Definition routes_of (p : SpanConnectionPool) : gmap Z MsgHandleFunc :=
  foldl (fun m v => <[fst v := snd v]> m) ∅ (routeVec_ p).

Definition pooled (p : SpanConnectionPool) (l : TransLayer) : Prop :=
  ok l /\ msgRouteMap_ l = routes_of p /\ co_host l = pool_host p.

Definition pool_ok (p : SpanConnectionPool) : Prop := Forall (pooled p) (_pool p).

(** The pool's configuration never changes. *)
Definition same_pool (p p' : SpanConnectionPool) : Prop :=
  pool_host p' = pool_host p /\ routeVec_ p' = routeVec_ p.

Lemma pooled_same p p' l : same_pool p p' -> pooled p l -> pooled p' l.
Proof. intros [E1 E2]. unfold pooled, routes_of. by rewrite E1, E2. Qed.

Lemma pool_ok_same p p' : same_pool p p' -> _pool p' = _pool p -> pool_ok p -> pool_ok p'.
Proof.
  intros Hs E. unfold pool_ok. rewrite E. intros Hp.
  eapply Forall_impl; [exact Hp|]. intros l. by apply pooled_same.
Qed.

Lemma register_all routes : forall l : TransLayer, ok l ->
  let l' := foldl (fun l v => RegPeerMsgCallback l (fst v) (snd v)) l routes in
  ok l' /\ msgRouteMap_ l' = foldl (fun m v => <[fst v := snd v]> m) (msgRouteMap_ l) routes
  /\ co_host l' = co_host l.
Proof.
  induction routes as [|[t f] routes IH]; intros l Hok; [done|]. cbn [foldl].
  destruct (IH (RegPeerMsgCallback l t f)) as (H1 & H2 & H3); [|done].
  destruct Hok as [Hc Hi Hw Hf]. split; cbn; [done|by apply (in_wf_ext l)|done|done].
Qed.

Lemma createConnection_spec p :
  exists l p', createConnection p = Ok (l, p') /\ pooled p l /\ same_pool p p'
    /\ _pool p' = _pool p /\ con_counter p' = u32 (con_counter p + 1).
Proof.
  unfold createConnection. destruct (new_TransLayer (pool_host p)) as [l| | |] eqn:E; try done.
  apply new_ok in E as Hok. destruct (register_all (routeVec_ p) l Hok) as (H1 & H2 & H3).
  cbn. eexists _, _. split; [done|]. split_and!; try done.
  split_and!; [done|rewrite H2|rewrite H3]; by injection E as <-.
Qed.

(** Every connection the pool hands out is usable: [get] always succeeds, and the
    connection it returns satisfies the transport invariant, dials the pool's host and
    has exactly the pool's message handlers; the idle ones keep those properties. *)
Theorem get_usable p :
  pool_ok p ->
  exists l p', get p = Ok (l, p') /\ pooled p l /\ pool_ok p' /\ same_pool p p'.
Proof.
  intros Hp. unfold get. destruct (_pool p) as [|l cs] eqn:E.
  - destruct (createConnection_spec p) as (l & p' & -> & Hl & Hs & Ep & _).
    exists l, p'. split_and!; try done. by apply (pool_ok_same p).
  - unfold pool_ok in Hp. rewrite E in Hp. apply Forall_cons in Hp as [Hl Hcs].
    exists l. eexists. by split_and!.
Qed.

(** Connections are conserved and reused.  A connection that is freed is the next
    one handed out, and as long as one is idle none is created: [con_counter] grows
    only when [get] finds the pool empty. *)
Theorem get_after_free p l :
  get (free l p) = Ok (l, set_pool p (con_counter p) (_pool p))
  /\ (_pool p <> [] -> exists l' p', get p = Ok (l', p') /\ con_counter p' = con_counter p
        /\ _pool p = l' :: _pool p')
  /\ (_pool p = [] -> exists l' p', get p = Ok (l', p')
        /\ con_counter p' = u32 (con_counter p + 1) /\ _pool p' = []).
Proof.
  split_and!; [done| |].
  - unfold get. destruct (_pool p) as [|l' cs] eqn:E; [done|]. intros _. by eexists _, _.
  - intros E. unfold get. rewrite E.
    destruct (createConnection_spec p) as (l' & p' & -> & _ & _ & Ep & Ec).
    exists l', p'. by rewrite Ep, E.
Qed.

End pool.

Lemma get_usable_witness :
  let p : @SpanConnectionPool log := mkPool "tcp:h:1" 0 [] [(0, record_body)] in
  exists l p', get p = Ok (l, p') /\ pooled p l /\ pool_ok p' /\ same_pool p p'.
Proof.
  apply (get_usable (mkPool "tcp:h:1" 0 [] [(0, record_body)])). constructor.
Defined.

End ConnPool.
