(* ===== verification/State.v ===== *)
(** * The agent's process-wide state: [PP::ProcessState] (common/src/Cache/State.h, State.cpp)

    A counter of unique ids, the start time announced by the collector, and the
    per-second quota of new traces. *)
From Stdlib Require Import ZArith Lia.
From S2P Require Import Prelude.

Module ProcState.

Record ProcessState := mkState {
  tick_ : Z;
  timestamp_ : Z;
  starttime_ : Z;
  trace_limit_ : Z;
  uuid_ : Z;
  ready_ : bool
}.

(** [ProcessState::ProcessState]; [now_ms] is [get_unix_time_ms()]. *)
Definition new_ProcessState (now_ms trace_limit : Z) : ProcessState :=
  mkState 0 0 now_ms trace_limit 0 false.

(** [return uuid_++], on an atomic [int64_t] *)
Definition GetUniqueId (this : ProcessState) : Z * ProcessState :=
  (uuid_ this,
   mkState (tick_ this) (timestamp_ this) (starttime_ this) (trace_limit_ this)
     (i64 (uuid_ this + 1)) (ready_ this)).

Definition ResetUniqueID (this : ProcessState) : ProcessState :=
  mkState (tick_ this) (timestamp_ this) (starttime_ this) (trace_limit_ this) 0 (ready_ this).

Definition IsReady (this : ProcessState) : bool := ready_ this.
Definition GetStartTime (this : ProcessState) : Z := starttime_ this.

Definition SetStartTime (start_time : Z) (this : ProcessState) : ProcessState :=
  if ready_ this then this
  else mkState (tick_ this) (timestamp_ this) start_time (trace_limit_ this) (uuid_ this) true.

Definition set_tick (this : ProcessState) (timestamp tick : Z) : ProcessState :=
  mkState tick timestamp (starttime_ this) (trace_limit_ this) (uuid_ this) (ready_ this).

(** [CheckTraceLimit(timestamp)]; [time_now] is [std::time(NULL)].  [true] means that
    the trace is over the quota. *)
Definition CheckTraceLimit (timestamp time_now : Z) (this : ProcessState) : bool * ProcessState :=
  let now := if negb (timestamp =? -1) then timestamp else time_now in
  if trace_limit_ this =? -1 then (false, this)
  else if trace_limit_ this =? 0 then (true, this)
  else if negb (timestamp_ this =? now) then
    let this1 := set_tick this now 0 in
    (false, set_tick this1 now (i64 (tick_ this1 + 1)))
  else if trace_limit_ this <=? tick_ this then (true, this)
  else (false, set_tick this (timestamp_ this) (i64 (tick_ this + 1))).

(** ** Sequences of calls *)

(** The answers to [n] calls with the same time stamp. *)
Fixpoint check_many (n : nat) (timestamp time_now : Z) (this : ProcessState)
  : list bool * ProcessState :=
  match n with
  | O => ([], this)
  | S n' =>
      let '(b, this1) := CheckTraceLimit timestamp time_now this in
      let '(bs, this2) := check_many n' timestamp time_now this1 in
      (b :: bs, this2)
  end.

Fixpoint ids (n : nat) (this : ProcessState) : list Z * ProcessState :=
  match n with
  | O => ([], this)
  | S n' =>
      let '(i, this1) := GetUniqueId this in
      let '(l, this2) := ids n' this1 in
      (i :: l, this2)
  end.

(** ** Lemmas *)

(** Inside one second, with [k] traces let through so far. *)
Lemma check_many_same n t time_now : forall this k,
  trace_limit_ this <> -1 -> trace_limit_ this <> 0 -> t <> -1 ->
  timestamp_ this = t -> tick_ this = k -> 0 <= k -> in_i64 (trace_limit_ this) ->
  (check_many n t time_now this).1
  = replicate (Nat.min n (Z.to_nat (trace_limit_ this - k))) false
    ++ replicate (n - Z.to_nat (trace_limit_ this - k)) true.
Proof.
  induction n as [|n IH]; intros this k Hm1 H0 Ht Es Ek Hk Hl; [done|]. cbn [check_many].
  unfold CheckTraceLimit. rewrite (proj2 (Z.eqb_neq t (-1))) by done. cbn [negb].
  rewrite !(proj2 (Z.eqb_neq (trace_limit_ this) _)) by done. rewrite Es, Z.eqb_refl, Ek. cbn [negb].
  case_if.
  - specialize (IH this k). destruct (check_many n t time_now this) as [bs this2]. cbn in IH |- *.
    rewrite IH by done. replace (Z.to_nat (trace_limit_ this - k)) with O by lia.
    by rewrite Nat.min_0_r, Nat.sub_0_r.
  - set (this1 := set_tick this t _). specialize (IH this1 (k + 1)).
    destruct (check_many n t time_now this1) as [bs this2]. cbn in IH |- *.
    rewrite IH by (try done; try lia; unfold this1; cbn; apply i64_small; word).
    replace (Z.to_nat (trace_limit_ this - k)) with (S (Z.to_nat (trace_limit_ this - (k + 1)))) by lia.
    done.
Qed.

Lemma ids_spec n : forall this,
  in_i64 (uuid_ this) ->
  (ids n this).1 = (fun i => i64 (uuid_ this + Z.of_nat i)) <$> seq 0 n.
Proof.
  induction n as [|n IH]; intros this Hu; [done|]. cbn [ids GetUniqueId].
  set (this1 := mkState _ _ _ _ _ _). specialize (IH this1 (i64_range _)).
  destruct (ids n this1) as [l this2]. cbn [fst] in *. rewrite IH. cbn [seq].
  rewrite fmap_cons, Z.add_0_r, i64_small by done. f_equal.
  rewrite <- fmap_S_seq, <- list_fmap_compose. apply list_fmap_ext. intros i x _.
  unfold this1, compose. cbn [uuid_]. rewrite wrapS_add_l. f_equal. lia.
Qed.

(** Values less than [2^64] apart stay apart when they are stored in an [int64_t]. *)
Lemma i64_inj a b : i64 a = i64 b -> Z.abs (a - b) < 2 ^ 64 -> a = b.
Proof.
  intros E Hab. assert ((a + 2 ^ 63) mod 2 ^ 64 = (b + 2 ^ 63) mod 2 ^ 64) as Em.
  { unfold wrapS in E. change (64 - 1) with 63 in E. lia. }
  pose proof (Z.div_mod (a + 2 ^ 63) (2 ^ 64) ltac:(lia)) as Ha.
  pose proof (Z.div_mod (b + 2 ^ 63) (2 ^ 64) ltac:(lia)) as Hb.
  rewrite Em in Ha. remember ((a + 2 ^ 63) / 2 ^ 64) as qa. remember ((b + 2 ^ 63) / 2 ^ 64) as qb.
  assert (a - b = 2 ^ 64 * (qa - qb)) as Ed by lia. assert (qa = qb) by lia. lia.
Qed.

(** ** Theorems *)

(** the trace limit is a per-second quota.  For a limit other than -1 and 0, of
    [n] calls that carry a new second exactly the first [max 1 limit] are let through
    and all later ones are refused; -1 lets everything through and 0 nothing. *)
Theorem CheckTraceLimit_quota n t time_now this :
  in_i64 (trace_limit_ this) -> t <> -1 -> timestamp_ this <> t ->
  (check_many n t time_now this).1
  = if trace_limit_ this =? -1 then replicate n false
    else if trace_limit_ this =? 0 then replicate n true
    else let quota := Z.to_nat (Z.max 1 (trace_limit_ this)) in
         replicate (Nat.min n quota) false ++ replicate (n - quota) true.
Proof.
  intros Hl Ht Hs. repeat case_if.
  - induction n as [|n IH]; [done|]. cbn [check_many]. unfold CheckTraceLimit.
    rewrite (proj2 (Z.eqb_eq _ _)) by done. destruct (check_many n t time_now this); cbn in *. by f_equal.
  - induction n as [|n IH]; [done|]. cbn [check_many]. unfold CheckTraceLimit.
    rewrite (proj2 (Z.eqb_neq _ _)), (proj2 (Z.eqb_eq _ 0)) by done.
    destruct (check_many n t time_now this); cbn in *. by f_equal.
  - destruct n as [|n]; [done|]. cbn [check_many]. unfold CheckTraceLimit.
    rewrite (proj2 (Z.eqb_neq t (-1))), !(proj2 (Z.eqb_neq (trace_limit_ this) _)) by done. cbn [negb].
    rewrite (proj2 (Z.eqb_neq (timestamp_ this) t)) by done. cbn [negb].
    set (this1 := set_tick (set_tick _ _ _) _ _).
    pose proof (check_many_same n t time_now this1 1) as Hc.
    destruct (check_many n t time_now this1) as [bs this2]. cbn [fst] in *.
    rewrite Hc by done. unfold this1. cbn [trace_limit_ set_tick].
    replace (Z.to_nat (Z.max 1 (trace_limit_ this))) with (S (Z.to_nat (trace_limit_ this - 1))) by lia.
    done.
Qed.

(** Unique ids are unique.  Up to [2^64] consecutive calls of [GetUniqueId] from
    any state return pairwise different values, the wrap of the counter included. *)
Theorem GetUniqueId_unique n this :
  in_i64 (uuid_ this) -> Z.of_nat n <= 2 ^ 64 -> NoDup (ids n this).1.
Proof.
  intros Hu Hn. rewrite ids_spec by done. apply NoDup_fmap_2_strong; [|apply NoDup_seq].
  intros i j Hi Hj E. apply elem_of_seq in Hi, Hj. apply i64_inj in E; lia.
Qed.

(** The start time is settled once.  Whatever times the collector announces, the
    first one wins and the state is ready from then on. *)
Theorem SetStartTime_first_wins t ts this :
  IsReady this = false ->
  let this' := foldl (fun st t => SetStartTime t st) this (t :: ts) in
  GetStartTime this' = t /\ IsReady this' = true.
Proof.
  intros Hr. cbn [foldl]. remember (SetStartTime t this) as this1 eqn:E1.
  unfold SetStartTime, IsReady in *. rewrite Hr in E1.
  assert (forall ts, foldl (fun st t => SetStartTime t st) this1 ts = this1) as E; [|unfold SetStartTime in E; by rewrite E, E1].
  clear ts. intros ts. rewrite E1. by induction ts as [|x ts IH].
Qed.

(** ** Concrete runs *)

Lemma CheckTraceLimit_quota_witness :
  (check_many 5 1700000000 0 (new_ProcessState 0 2)).1
  = [false; false; true; true; true].
Proof.
  apply (CheckTraceLimit_quota 5 1700000000 0 (new_ProcessState 0 2)).
  - cbn. word.
  - discriminate.
  - discriminate.
Defined.

Lemma GetUniqueId_unique_witness :
  NoDup (ids 3 (mkState 0 0 0 0 (2 ^ 63 - 1) false)).1.
Proof.
  apply (GetUniqueId_unique 3 (mkState 0 0 0 0 (2 ^ 63 - 1) false)); [cbn; word|vm_compute; discriminate].
Defined.

Lemma SetStartTime_first_wins_witness :
  let this' := foldl (fun st t => SetStartTime t st) (new_ProcessState 5 10) [7; 9; 11] in
  GetStartTime this' = 7 /\ IsReady this' = true.
Proof. apply (SetStartTime_first_wins 7 [9; 11] (new_ProcessState 5 10)). reflexivity. Defined.

End ProcState.
