(* ===== verification/SharedState.v ===== *)
(** * The process state under threads (common/src/Cache/State.h, State.cpp)

    [State.v] has the methods of [ProcessState] as single steps.  Threads of a process call
    them without a lock: [tick_] and [uuid_] are atomics, [timestamp_], [starttime_] and
    [ready_] plain members.  Here a method is the sequence of its accesses to the members,
    and accesses of threads interleave in every order.  (For the plain members the language
    promises nothing under such races; the theorems hold where an access is a whole.) *)
From Stdlib Require Import ZArith Lia.
From S2P Require Import Prelude State.

Module SharedState.
Import ProcState.

(** ** Threads inside the methods *)

(** Where a thread is: outside; in [CheckTraceLimit] in front of the comparison with
    [timestamp_], of the two stores of a new second, of the comparison with [tick_], of the
    increment; in [SetStartTime] in front of its two stores. *)
Inductive pc :=
| Idle
| Entered (now : Z)
| Stale (now : Z)
| Stamped
| Fresh
| Counting
| Starting (start_time : Z)
| Started.

Record Shared := mkShared { state : ProcessState; pcs : list pc }.

(** What a thread begins when it is outside; inside it can only go on. *)
Inductive action :=
| CallCheck (timestamp time_now : Z)
| CallUniqueId
| CallSetStart (start_time : Z)
| Go.

(** The answers of [CheckTraceLimit] ([Limited] is true) and [GetUniqueId]; [Reset] marks
    the store of 0 to [tick_], [Announced] a call of [SetStartTime]. *)
Inductive event :=
| Passed (t : nat)
| Limited (t : nat)
| Reset (t : nat)
| Drew (t : nat) (id : Z)
| Announced (t : nat) (start_time : Z).

Definition set_start (s : ProcessState) (start : Z) (ready : bool) : ProcessState :=
  mkState (tick_ s) (timestamp_ s) start (trace_limit_ s) (uuid_ s) ready.

(** One access of thread [t] at [p]: the state, where it is then, what is seen. *)
Definition begin_call (t : nat) (a : action) (s : ProcessState) : option (ProcessState * pc * list event) :=
  match a with
  | CallCheck timestamp time_now =>
      let now := if negb (timestamp =? -1) then timestamp else time_now in
      if trace_limit_ s =? -1 then Some (s, Idle, [Passed t])
      else if trace_limit_ s =? 0 then Some (s, Idle, [Limited t])
      else Some (s, Entered now, [])
  | CallUniqueId => let '(id, s') := GetUniqueId s in Some (s', Idle, [Drew t id])
  | CallSetStart start => Some (s, if ready_ s then Idle else Starting start, [Announced t start])
  | Go => None
  end.

Definition go_on (t : nat) (p : pc) (s : ProcessState) : option (ProcessState * pc * list event) :=
  match p with
  | Idle => None
  | Entered now => Some (s, if negb (timestamp_ s =? now) then Stale now else Fresh, [])
  | Stale now => Some (set_tick s now (tick_ s), Stamped, [])
  | Stamped => Some (set_tick s (timestamp_ s) 0, Counting, [Reset t])
  | Fresh => if trace_limit_ s <=? tick_ s then Some (s, Idle, [Limited t]) else Some (s, Counting, [])
  | Counting => Some (set_tick s (timestamp_ s) (i64 (tick_ s + 1)), Idle, [Passed t])
  | Starting start => Some (set_start s start (ready_ s), Started, [])
  | Started => Some (set_start s (starttime_ s) true, Idle, [])
  end.

Definition access (t : nat) (a : action) (p : pc) (s : ProcessState) : option (ProcessState * pc * list event) :=
  match p with Idle => begin_call t a s | _ => match a with Go => go_on t p s | _ => None end end.

(** A step of a thread, and executions. *)
Inductive step : Shared -> list event -> Shared -> Prop :=
| step_access m t a p s' p' es :
    pcs m !! t = Some p -> access t a p (state m) = Some (s', p', es) ->
    step m es (mkShared s' (<[t := p']> (pcs m))).

Inductive run : Shared -> list event -> Shared -> Prop :=
| run_nil m : run m [] m
| run_snoc m es m1 es' m2 : run m es m1 -> step m1 es' m2 -> run m (es ++ es') m2.

(** The same by a schedule, to execute. *)
Fixpoint execute (sched : list (nat * action)) (m : Shared) : option (list event * Shared) :=
  match sched with
  | [] => Some ([], m)
  | (t, a) :: sched' =>
      p ← pcs m !! t;
      '(s', p', es) ← access t a p (state m);
      '(es', m') ← execute sched' (mkShared s' (<[t := p']> (pcs m)));
      mret (es ++ es', m')
  end.

Lemma accesses_trans m1 es m2 es' m3 : run m1 es m2 -> run m2 es' m3 -> run m1 (es ++ es') m3.
Proof.
  intros H1 H2. induction H2 as [|m es1 m2 es2 m3 _ IH Hs]; [by rewrite app_nil_r|].
  rewrite app_assoc. econstructor; eauto.
Qed.

Lemma execute_run sched : forall m es m', execute sched m = Some (es, m') -> run m es m'.
Proof.
  induction sched as [|[t a] sched IH]; intros m es m'; cbn [execute]; [intros [= <- <-]; constructor|].
  destruct (pcs m !! t) as [p|] eqn:Ep; [|done]. cbn. destruct (access t a p (state m)) as [[[s p'] e]|] eqn:Ea; [|done]. cbn.
  destruct (execute sched _) as [[e' m2]|] eqn:Er; [|done]. intros [= <- <-].
  eapply accesses_trans; [|by eapply IH]. apply (run_snoc m [] m); [constructor|by econstructor].
Qed.

(** ** A thread alone *)

(** The accesses of one call without others in between. *)
Fixpoint alone (fuel : nat) (t : nat) (p : pc) (s : ProcessState) : option (ProcessState * list event) :=
  match fuel with
  | O => None
  | S fuel' =>
      match p with
      | Idle => Some (s, [])
      | _ => '(s, p, es) ← go_on t p s; '(s, es') ← alone fuel' t p s; mret (s, es ++ es')
      end
  end.

Definition call_alone (t : nat) (a : action) (s : ProcessState) : option (ProcessState * list event) :=
  '(s, p, es) ← begin_call t a s; '(s, es') ← alone 5 t p s; mret (s, es ++ es').

Definition answers (es : list event) : list bool :=
  omap (fun e => match e with Passed _ => Some false | Limited _ => Some true | _ => None end) es.

(** A call that nobody interrupts is the method of State.v: the accesses add up to it. *)
Theorem alone_is_atomic t s :
  (forall timestamp time_now, exists es,
     call_alone t (CallCheck timestamp time_now) s = Some ((CheckTraceLimit timestamp time_now s).2, es)
     /\ answers es = [(CheckTraceLimit timestamp time_now s).1])
  /\ call_alone t CallUniqueId s = Some ((GetUniqueId s).2, [Drew t (GetUniqueId s).1])
  /\ (forall start, call_alone t (CallSetStart start) s = Some (SetStartTime start s, [Announced t start])).
Proof.
  split_and!; [|done|].
  - intros timestamp time_now. unfold call_alone, CheckTraceLimit. cbn [begin_call].
    set (now := if negb (timestamp =? -1) then timestamp else time_now).
    destruct (trace_limit_ s =? -1) eqn:E1; [by eexists|]. destruct (trace_limit_ s =? 0) eqn:E2; [by eexists|].
    cbn. destruct (timestamp_ s =? now) eqn:E3; cbn; [|by eexists].
    destruct (trace_limit_ s <=? tick_ s) eqn:E4; cbn; by eexists.
  - intros start. unfold call_alone, SetStartTime. cbn. destruct s as [? ? ? ? ? []]; reflexivity.
Qed.

(** ** Counting threads *)

Fixpoint weigh (f : pc -> bool) (l : list pc) : Z :=
  match l with [] => 0 | p :: l' => (if f p then 1 else 0) + weigh f l' end.

Lemma weigh_bound f l : 0 <= weigh f l <= zlen l.
Proof. induction l as [|p l IH]; cbn [weigh]; [done|]. rewrite zlen_cons. destruct (f p); lia. Qed.

Lemma weigh_insert f l t p p' : l !! t = Some p ->
  weigh f (<[t := p']> l) = weigh f l - (if f p then 1 else 0) + (if f p' then 1 else 0).
Proof.
  revert t. induction l as [|q l IH]; intros [|t]; simpl; try done.
  - intros [= ->]. lia.
  - intros E. rewrite (IH t E). lia.
Qed.

Lemma zlen_insert {A} (l : list A) t x : zlen (<[t := x]> l) = zlen l.
Proof. unfold zlen. by rewrite length_insert. Qed.

(** A thread that is not counted leaves room for others. *)
Lemma weigh_less f l t p : l !! t = Some p -> f p = false -> weigh f l + 1 <= zlen l.
Proof.
  revert t. induction l as [|q l IH]; intros [|t]; cbn; try done; rewrite zlen_cons.
  - intros [= ->] ->. pose proof (weigh_bound f l). lia.
  - intros E Hp. specialize (IH t E Hp). destruct (f q); lia.
Qed.

Definition counting (p : pc) : bool := match p with Counting => true | _ => false end.
Definition resetting (p : pc) : bool := match p with Stale _ | Stamped => true | _ => false end.
Definition stamped (p : pc) : bool := match p with Stamped => true | _ => false end.

Definition count (f : event -> bool) (es : list event) : Z := zlen (List.filter f es).
Definition is_passed (e : event) : bool := match e with Passed _ => true | _ => false end.
Definition is_reset (e : event) : bool := match e with Reset _ => true | _ => false end.

Lemma count_app f es es' : count f (es ++ es') = count f es + count f es'.
Proof. unfold count. by rewrite List.filter_app, zlen_app. Qed.

Lemma count_nonneg f es : 0 <= count f es.
Proof. apply zlen_nonneg. Qed.

(** ** The quota *)

(** Threads call with the time stamp of one second only. *)
Definition at_second (now : Z) (p : pc) : Prop :=
  match p with Entered n | Stale n => n = now | _ => True end.

(** Executions in which every call of [CheckTraceLimit] is made in the second [now]. *)
Inductive run_second (now : Z) : Shared -> list event -> Shared -> Prop :=
| second_nil m : run_second now m [] m
| second_snoc m es m1 es' m2 : run_second now m es m1 -> step m1 es' m2 -> Forall (at_second now) (pcs m2) ->
    run_second now m (es ++ es') m2.

Lemma second_trans now m1 es m2 es' m3 : run_second now m1 es m2 -> run_second now m2 es' m3 -> run_second now m1 (es ++ es') m3.
Proof.
  intros H1 H2. induction H2 as [|m es1 m2 es2 m3 _ IH Hs]; [by rewrite app_nil_r|].
  rewrite app_assoc. econstructor; eauto.
Qed.

(** A schedule whose calls are made in the second. *)
Definition calls_at (now : Z) (a : action) : Prop :=
  match a with CallCheck timestamp time_now => (if negb (timestamp =? -1) then timestamp else time_now) = now | _ => True end.

Lemma access_second now t a p s s' p' es : access t a p s = Some (s', p', es) -> calls_at now a -> at_second now p -> at_second now p'.
Proof.
  intros Ea Hc Hp. destruct p; cbn [access] in Ea; [destruct a; try done|destruct a; try done..]; cbn [begin_call go_on GetUniqueId] in Ea;
    repeat case_match; simplify_eq; cbn in *; try done; by destruct (negb _).
Qed.

Lemma execute_second now sched : forall m es m', execute sched m = Some (es, m') -> Forall (fun ta => calls_at now ta.2) sched ->
  Forall (at_second now) (pcs m) -> run_second now m es m'.
Proof.
  induction sched as [|[t a] sched IH]; intros m es m'; cbn [execute]; [intros [= <- <-]; constructor|].
  destruct (pcs m !! t) as [p|] eqn:Ep; [|done]. cbn. destruct (access t a p (state m)) as [[[s p'] e]|] eqn:Ea; [|done]. cbn.
  destruct (execute sched _) as [[e' m2]|] eqn:Er; [|done]. intros [= <- <-] [Hc Hcs]%Forall_cons Hm.
  assert (Forall (at_second now) (<[t := p']> (pcs m))) as Hm'.
  { apply Forall_insert; [done|]. eapply access_second; [exact Ea|exact Hc|]. by eapply Forall_lookup_1. }
  eapply second_trans; [|by eapply IH]. apply (second_snoc now m [] m); [constructor|by econstructor|done].
Qed.

Section quota.
Context (now limit n tick0 : Z).
Context (Hl1 : limit <> -1) (Hl0 : limit <> 0) (Hn : 0 <= n) (Ht0 : 0 <= tick0).

(** Most increments between two resets: the quota, and those of threads that compared before. *)
Abbreviation most := (Z.max (Z.max 1 limit) tick0 + n).
Context (Hmost : most < 2 ^ 63).

(** The invariant, with the number of resets and of calls let through so far. *)
Record quota_inv (m : Shared) (resets passed : Z) : Prop := {
  qi_limit : trace_limit_ (state m) = limit;
  qi_threads : zlen (pcs m) = n;
  qi_second : Forall (at_second now) (pcs m);
  qi_tick : 0 <= tick_ (state m);
  qi_most : tick_ (state m) + weigh counting (pcs m) <= most;
  qi_passed : 0 <= passed <= resets * most + tick_ (state m);
  qi_resets : 0 <= resets /\ resets + weigh resetting (pcs m) <= n;
  qi_old : timestamp_ (state m) <> now -> resets = 0 /\ weigh stamped (pcs m) = 0
}.

Lemma at_second_lookup l t p : Forall (at_second now) l -> l !! t = Some p -> at_second now p.
Proof. intros Hl E. by eapply Forall_lookup_1. Qed.

Lemma quota_step m resets passed es m' : quota_inv m resets passed -> step m es m' -> Forall (at_second now) (pcs m') ->
  quota_inv m' (resets + count is_reset es) (passed + count is_passed es).
Proof.
  intros [Hlim Hlen Hsec Htick Hmo Hpa [Hr0 Hr] Hold] Hstep Hsec'. destruct Hstep as [m t a p s' p' es Ep Ea]. destruct m as [s l]. cbn [state pcs] in *.
  pose proof (at_second_lookup _ _ _ Hsec Ep) as Hp.
  pose proof (weigh_bound counting (<[t := p']> l)) as Bc. rewrite zlen_insert, Hlen in Bc.
  pose proof (weigh_insert counting l t p p' Ep) as Wc. pose proof (weigh_insert resetting l t p p' Ep) as Wr.
  pose proof (weigh_insert stamped l t p p' Ep) as Ws. pose proof (weigh_bound stamped l) as Bs. pose proof (weigh_bound counting l) as Bc0.
  pose proof (weigh_less resetting l t p Ep) as Lr. rewrite Hlen in Lr.
  pose proof (weigh_bound stamped (<[t := p']> l)) as Bs'. rewrite zlen_insert, Hlen in Bs'.
  set (K := most) in *.
  destruct p; cbn [access] in Ea; [destruct a; try done|destruct a; try done..]; cbn [begin_call go_on GetUniqueId] in Ea;
    repeat case_match; simplify_eq; zbool; try done; cbn in Wc, Wr, Ws, Lr, Hp; unfold count; cbn [List.filter is_passed is_reset];
    rewrite ?zlen_nil, ?zlen_cons, ?zlen_nil;
    (split; cbn [state pcs tick_ timestamp_ trace_limit_ set_tick set_start];
      rewrite ?zlen_insert, ?Wc, ?Wr, ?Ws, ?Z.add_0_r); try done; try lia.
  all: rewrite i64_small by (split; lia); lia.
Qed.

Lemma quota_run m es m' : run_second now m es m' -> quota_inv m 0 0 ->
  quota_inv m' (count is_reset es) (count is_passed es).
Proof.
  intros H Hm. induction H as [|m es m1 es' m2 _ IH Hs Hsec]; [done|]. rewrite !count_app. by eapply quota_step; [apply IH|..].
Qed.

Lemma quota_start s l : trace_limit_ s = limit -> tick_ s = tick0 -> timestamp_ s <> now -> l = replicate (Z.to_nat n) Idle ->
  quota_inv (mkShared s l) 0 0.
Proof.
  intros El Et Es ->. assert (forall f, f Idle = false -> weigh f (replicate (Z.to_nat n) Idle) = 0) as W.
  { intros f Hf. induction (Z.to_nat n) as [|k IH]; [done|]. cbn [replicate weigh]. by rewrite Hf, IH. }
  split; cbn [state pcs]; rewrite ?W by done; try lia.
  - unfold zlen. rewrite length_replicate. lia.
  - by apply Forall_replicate.
Qed.
End quota.

(** C40: The quota under threads.  [n] threads that are all idle begin to make calls in a new
    second, and all calls carry this second as their time.  Under every interleaving of their
    steps at most [n] resets of the counter happen, and at most [(n + 1) * (K + n)] calls are
    let through, where [K] is the largest of [1], the limit and the value the counter has at
    the beginning, which the first calls may still compare with: between two resets at most
    [K] calls, and one more for each thread that compared before. *)
Theorem quota_under_threads now s n es m' :
  trace_limit_ s <> -1 -> trace_limit_ s <> 0 -> timestamp_ s <> now -> 0 <= tick_ s ->
  Z.max (Z.max 1 (trace_limit_ s)) (tick_ s) + Z.of_nat n < 2 ^ 63 ->
  run_second now (mkShared s (replicate n Idle)) es m' ->
  count is_reset es <= Z.of_nat n
  /\ count is_passed es <= (Z.of_nat n + 1) * (Z.max (Z.max 1 (trace_limit_ s)) (tick_ s) + Z.of_nat n).
Proof.
  intros H1 H0 Hs Ht Hm Hrun.
  assert (quota_inv now (trace_limit_ s) (Z.of_nat n) (tick_ s) m' (count is_reset es) (count is_passed es))
    as [_ _ _ Htick Hmo [Hp0 Hp] [Hr0 Hr] _].
  { eapply quota_run; try done; try lia. apply quota_start; try done; try lia. by rewrite Nat2Z.id. }
  pose proof (weigh_bound resetting (pcs m')). pose proof (weigh_bound counting (pcs m')).
  split; [lia|]. set (K := Z.max _ _ + _) in *. assert (count is_reset es * K <= Z.of_nat n * K) by (apply Z.mul_le_mono_nonneg_r; lia). lia.
Qed.

(** Two threads in a new second: the second resets the counter the first has used up, and
    both are let through although the quota is one; one thread after the other is refused. *)
Definition limit_one : ProcessState := new_ProcessState 5 1.

Definition race : list (nat * action) :=
  [(0%nat, CallCheck 7 7); (1%nat, CallCheck 7 7); (0%nat, Go); (1%nat, Go); (0%nat, Go); (0%nat, Go); (0%nat, Go);
   (1%nat, Go); (1%nat, Go); (1%nat, Go)].

Example quota_exceeded :
  fst <$> execute race (mkShared limit_one [Idle; Idle]) = Some [Reset 0; Passed 0; Reset 1; Passed 1]
  /\ (check_many 2 7 7 limit_one).1 = [false; true].
Proof. vm_compute. by split. Qed.

Lemma quota_under_threads_witness :
  exists m', run_second 7 (mkShared limit_one (replicate 2 Idle)) [Reset 0; Passed 0; Reset 1; Passed 1] m'
    /\ count is_passed [Reset 0; Passed 0; Reset 1; Passed 1] <= 3 * 3.
Proof.
  assert (exists m', run_second 7 (mkShared limit_one (replicate 2 Idle)) [Reset 0; Passed 0; Reset 1; Passed 1] m') as [m' H].
  { eexists. eapply (execute_second 7 race); [vm_compute; reflexivity|by repeat constructor|by repeat constructor]. }
  exists m'. split; [exact H|].
  exact (proj2 (quota_under_threads 7 limit_one 2 _ m' ltac:(done) ltac:(done) ltac:(done) ltac:(done) ltac:(done) H)).
Defined.

(** ** Ids *)

Definition drawn (es : list event) : list Z := omap (fun e => match e with Drew _ id => Some id | _ => None end) es.

Lemma step_draws m es m' : step m es m' ->
  (drawn es = [] /\ uuid_ (state m') = uuid_ (state m))
  \/ (drawn es = [uuid_ (state m)] /\ uuid_ (state m') = i64 (uuid_ (state m) + 1)).
Proof.
  intros H. destruct H as [m t a p s' p' es Ep Ea]. cbn [state].
  destruct p; cbn [access] in Ea; [destruct a; try done|destruct a; try done..]; cbn [begin_call go_on GetUniqueId] in Ea;
    repeat case_match; simplify_eq; auto.
Qed.

Lemma run_draws m es m' : run m es m' -> in_i64 (uuid_ (state m)) ->
  drawn es = (fun i => i64 (uuid_ (state m) + Z.of_nat i)) <$> seq 0 (length (drawn es))
  /\ uuid_ (state m') = i64 (uuid_ (state m) + zlen (drawn es)).
Proof.
  intros H Hu. induction H as [m|m es m1 es' m2 _ IH Hs]; [split; [done|]; change (zlen (drawn [])) with 0; by rewrite Z.add_0_r, i64_small|].
  destruct (IH Hu) as [E Eu]. unfold drawn. rewrite omap_app. fold (drawn es) (drawn es').
  destruct (step_draws _ _ _ Hs) as [[-> ->]|[-> ->]]; [by rewrite app_nil_r|].
  rewrite length_app, seq_app, fmap_app, <- E, zlen_app. cbn [length Nat.add seq]. split.
  - f_equal. cbn. by rewrite Eu.
  - rewrite Eu, wrapS_add_l. f_equal. rewrite zlen_cons, zlen_nil. lia.
Qed.

(** Ids are unique under threads: whatever the interleaving, no id is drawn twice, by one
    thread or by two, as long as fewer than [2^64] are drawn. *)
Theorem ids_unique_under_threads m es m' : run m es m' -> in_i64 (uuid_ (state m)) -> zlen (drawn es) < 2 ^ 64 ->
  NoDup (drawn es).
Proof.
  intros H Hu Hl. destruct (run_draws m es m' H Hu) as [-> _].
  apply NoDup_fmap_2_strong; [|apply NoDup_seq]. intros i j Hi Hj E. apply elem_of_seq in Hi, Hj.
  apply i64_inj in E; unfold zlen in *; lia.
Qed.

Lemma ids_unique_under_threads_witness :
  exists m', run (mkShared limit_one [Idle; Idle]) [Drew 0 0; Drew 1 1; Drew 0 2] m' /\ NoDup (drawn [Drew 0 0; Drew 1 1; Drew 0 2]).
Proof.
  assert (exists m', run (mkShared limit_one [Idle; Idle]) [Drew 0 0; Drew 1 1; Drew 0 2] m') as [m' H].
  { eexists. apply (execute_run [(0%nat, CallUniqueId); (1%nat, CallUniqueId); (0%nat, CallUniqueId)]). vm_compute. reflexivity. }
  exists m'. split; [exact H|]. apply (ids_unique_under_threads _ _ _ H); by vm_compute.
Defined.

(** ** The start time *)

Definition announced (es : list event) : list Z := omap (fun e => match e with Announced _ s => Some s | _ => None end) es.

(** What is stored or about to be stored has been announced. *)
Record start_inv (m : Shared) (es : list event) : Prop := {
  si_ready : ready_ (state m) = true -> starttime_ (state m) ∈ announced es;
  si_stored : Started ∈ pcs m -> starttime_ (state m) ∈ announced es;
  si_about st : Starting st ∈ pcs m -> st ∈ announced es
}.

Lemma announced_app x es es' : x ∈ announced (es ++ es') <-> x ∈ announced es \/ x ∈ announced es'.
Proof. unfold announced. by rewrite omap_app, elem_of_app. Qed.

Lemma announced_now t st : st ∈ announced [Announced t st].
Proof. by left. Qed.

Lemma insert_elem {A} (l : list A) t x q : q ∈ <[t := x]> l -> q = x \/ q ∈ l.
Proof.
  intros [i Hi]%list_elem_of_lookup. apply list_lookup_insert_Some in Hi as [(_ & -> & _)|[_ Hi]]; [by left|].
  right. by eapply list_elem_of_lookup_2.
Qed.

Lemma start_step m es es' m' : start_inv m es -> step m es' m' -> start_inv m' (es ++ es').
Proof.
  intros [Hr Hs Ha] H. destruct H as [m t a p s' p' es' Ep Ea]. destruct m as [s l]. cbn [state pcs] in *.
  assert (p ∈ l) as Hin by (by eapply list_elem_of_lookup_2).
  assert (forall q, q ∈ <[t := p']> l -> q = p' \/ q ∈ l) as Hq by (intros q; apply insert_elem).
  destruct p; cbn [access] in Ea; [destruct a; try done|destruct a; try done..]; cbn [begin_call go_on GetUniqueId] in Ea;
    repeat case_match; simplify_eq; (split; cbn [state pcs ready_ starttime_ set_tick set_start]; setoid_rewrite announced_app;
      [|intros Hi; apply Hq in Hi as [Hi|Hi]|intros st Hi; apply Hq in Hi as [Hi|Hi]]; simplify_eq; auto using announced_now; try congruence).
Qed.

(** Once the process is ready its start time is one that was announced, under every
    interleaving. *)
Theorem start_time_announced m es m' : run m es m' ->
  ready_ (state m) = false -> Forall (fun p => p = Idle) (pcs m) ->
  ready_ (state m') = true -> starttime_ (state m') ∈ announced es.
Proof.
  intros H Hr Hi. enough (start_inv m' es) as [K _ _] by exact K. induction H as [m|m es m1 es' m2 _ IH Hs]; [|by eapply start_step; eauto].
  rewrite Forall_forall in Hi. split; [by rewrite Hr|..]; [intros E|intros st E]; by apply Hi in E.
Qed.

Lemma start_time_announced_witness :
  exists m', run (mkShared limit_one [Idle]) [Announced 0 9] m' /\ starttime_ (state m') ∈ announced [Announced 0 9].
Proof.
  assert (exists m', run (mkShared limit_one [Idle]) [Announced 0 9] m' /\ ready_ (state m') = true) as (m' & H & Hr).
  { eexists. split; [apply (execute_run [(0%nat, CallSetStart 9); (0%nat, Go); (0%nat, Go)]); vm_compute; reflexivity|done]. }
  exists m'. split; [exact H|]. apply (start_time_announced _ _ _ H); [done|by repeat constructor|exact Hr].
Defined.

(** ... but it can still change: two greetings that both found the process not ready. *)
Example start_time_changes :
  let one := [(0%nat, CallSetStart 8); (1%nat, CallSetStart 9); (0%nat, Go); (0%nat, Go)] in
  (fun r => (ready_ (state r.2), starttime_ (state r.2))) <$> execute one (mkShared limit_one [Idle; Idle]) = Some (true, 8)
  /\ (fun r => starttime_ (state r.2)) <$> execute (one ++ [(1%nat, Go)]) (mkShared limit_one [Idle; Idle]) = Some 9.
Proof. vm_compute. by split. Qed.

End SharedState.
