(* ===== verification/Version.v ===== *)
(** * Comparing dotted versions: [next_version_part], [compare_version]
      (common/src/common.cpp)

    The comparison is shown to be the lexicographic comparison of the numeric parts,
    missing parts counting as 0, which makes it a total preorder. *)
From Stdlib Require Import ZArith Lia Ascii.
From S2P Require Import Prelude.

Module VersionOrder.

(** ** [strtoul] in base 10, as the C standard defines it for the C locale *)

Definition is_space (c : ascii) : bool :=
  let n := nat_of_ascii c in (n =? 32)%nat || ((9 <=? n) && (n <=? 13))%nat.

Definition digit_of (c : ascii) : option Z :=
  let n := Z.of_nat (nat_of_ascii c) in
  if (48 <=? n) && (n <=? 57) then Some (n - 48) else None.

Fixpoint skip_spaces (s : string) : string :=
  match s with
  | String c s' => if is_space c then skip_spaces s' else s
  | EmptyString => s
  end.

(** The value of the leading digits, whether there is one, and what follows them. *)
Fixpoint digits (s : string) (acc : Z) : Z * bool * string :=
  match s with
  | String c s' =>
      match digit_of c with
      | Some d => let '(v, _, e) := digits s' (10 * acc + d) in (v, true, e)
      | None => (acc, false, s)
      end
  | EmptyString => (acc, false, s)
  end.

Definition ULONG_MAX : Z := 2 ^ 64 - 1.

(** [strtoul(s, &end, 10)]: the value and [end].  A magnitude out of range gives
    [ULONG_MAX]; a minus sign negates in [unsigned long]; without digits the value is
    0 and [end] is [s]. *)
Definition strtoul (s : string) : Z * string :=
  let s1 := skip_spaces s in
  let '(neg, s2) :=
    match s1 with
    | String c s' =>
        if Ascii.eqb c "-" then (true, s') else if Ascii.eqb c "+" then (false, s') else (false, s1)
    | EmptyString => (false, s1)
    end in
  let '(v, any, e) := digits s2 0 in
  if (any : bool) then
    if ULONG_MAX <? v then (ULONG_MAX, e)
    else (if (neg : bool) then u64 (- v) else v, e)
  else (0, s).

(** ** The code *)

(** [strchr(s, '.')] followed by the step behind it: what follows the first dot. *)
Fixpoint after_dot (s : string) : option string :=
  match s with
  | String c s' => if Ascii.eqb c "." then Some s' else after_dot s'
  | EmptyString => None
  end.

Definition next_version_part (version : string) : Z * string :=
  let '(part, e) := strtoul version in
  (part, match after_dot e with Some s => s | None => EmptyString end).

Definition skip_v (s : string) : string :=
  match s with
  | String c s' => if Ascii.eqb c "v" || Ascii.eqb c "V" then s' else s
  | EmptyString => s
  end.

(** The [while] loop: a string that is not empty gets shorter in every iteration. *)
Fixpoint compare_loop (fuel : nat) (lhs rhs : string) : outcome Z :=
  match fuel with
  | O => OutOfFuel
  | S fuel' =>
      if negb (String.eqb lhs EmptyString) || negb (String.eqb rhs EmptyString) then
        let '(l, lhs') := next_version_part lhs in
        let '(r, rhs') := next_version_part rhs in
        if negb (l =? r) then mret (if l <? r then -1 else 1)
        else compare_loop fuel' lhs' rhs'
      else mret 0
  end.

Definition compare_version (lhs rhs : string) : outcome Z :=
  let lhs := skip_v lhs in
  let rhs := skip_v rhs in
  compare_loop (S (String.length lhs + String.length rhs)) lhs rhs.

(** ** Reference *)

(** The components between the dots. *)
Fixpoint split_dots (s : string) : list string :=
  match s with
  | EmptyString => [EmptyString]
  | String c s' =>
      if Ascii.eqb c "." then EmptyString :: split_dots s'
      else match split_dots s' with
           | x :: xs => String c x :: xs
           | [] => [String c EmptyString]
           end
  end.

(** The numeric parts of a version. *)
Definition parts (s : string) : list Z := (fun x => (strtoul x).1) <$> split_dots (skip_v s).

(** Lexicographic comparison; missing parts count as 0. *)
Fixpoint pad_compare_0 (r : list Z) : Z :=
  match r with
  | [] => 0
  | y :: r' => if 0 <? y then -1 else if y <? 0 then 1 else pad_compare_0 r'
  end.

Fixpoint pad_compare (l r : list Z) : Z :=
  match l with
  | [] => pad_compare_0 r
  | x :: l' =>
      let y := hd 0 r in
      if x <? y then -1 else if y <? x then 1 else pad_compare l' (tl r)
  end.

(** ** Lemmas *)

(** The first component and the text behind the first dot. *)
Definition first_component (s : string) : string :=
  match split_dots s with x :: _ => x | [] => EmptyString end.

Lemma split_dots_step s :
  split_dots s = first_component s :: match after_dot s with Some s' => split_dots s' | None => [] end.
Proof.
  unfold first_component. induction s as [|c s IH]; [done|]. cbn.
  destruct (Ascii.eqb c "."); [done|]. rewrite IH. done.
Qed.

Lemma first_component_cons c s : Ascii.eqb c "." = false ->
  first_component (String c s) = String c (first_component s).
Proof.
  intros E. unfold first_component. cbn. rewrite E. rewrite (split_dots_step s). done.
Qed.

Lemma first_component_dot s : first_component (String "." s) = EmptyString.
Proof. done. Qed.

(** Reading digits stops at a dot, so it sees only the first component. *)
Lemma digits_component s : forall acc,
  (digits (first_component s) acc).1 = (digits s acc).1
  /\ after_dot (digits s acc).2 = after_dot s.
Proof.
  induction s as [|c s IH]; intros acc; [done|]. destruct (Ascii.eqb c ".") eqn:Ec.
  { apply Ascii.eqb_eq in Ec as ->. done. }
  rewrite first_component_cons by done. cbn [digits after_dot].
  destruct (digit_of c) as [d|]; rewrite Ec; [|cbn; rewrite Ec; done].
  destruct (IH (10 * acc + d)) as [E1 E2].
  destruct (digits (first_component s) _) as [[]], (digits s _) as [[]]. cbn in *. by simplify_eq.
Qed.

Lemma skip_spaces_component s :
  skip_spaces (first_component s) = first_component (skip_spaces s)
  /\ after_dot (skip_spaces s) = after_dot s.
Proof.
  induction s as [|c s IH]; [done|]. destruct (Ascii.eqb c ".") eqn:Ec.
  { apply Ascii.eqb_eq in Ec as ->. done. }
  rewrite first_component_cons by done. cbn. rewrite Ec. destruct (is_space c); [done|].
  rewrite first_component_cons by done. cbn. by rewrite Ec.
Qed.

Lemma strtoul_component s :
  (strtoul (first_component s)).1 = (strtoul s).1 /\ after_dot (strtoul s).2 = after_dot s.
Proof.
  destruct (skip_spaces_component s) as [Es Ea]. unfold strtoul. rewrite Es.
  destruct (skip_spaces s) as [|c s1]; [cbn; by rewrite <- Ea|].
  destruct (Ascii.eqb c ".") eqn:Ec.
  { apply Ascii.eqb_eq in Ec as ->. cbn in Ea |- *. by rewrite <- Ea. }
  rewrite first_component_cons by done.
  assert (forall neg s2, after_dot s2 = after_dot s ->
    (let '(v, any, e) := digits (first_component s2) 0 in
     if (any : bool) then if ULONG_MAX <? v then (ULONG_MAX, e)
       else (if (neg : bool) then u64 (- v) else v, e) else (0, first_component s)).1
    = (let '(v, any, e) := digits s2 0 in
       if (any : bool) then if ULONG_MAX <? v then (ULONG_MAX, e)
         else (if (neg : bool) then u64 (- v) else v, e) else (0, s)).1
    /\ after_dot (let '(v, any, e) := digits s2 0 in
       if (any : bool) then if ULONG_MAX <? v then (ULONG_MAX, e)
         else (if (neg : bool) then u64 (- v) else v, e) else (0, s)).2 = after_dot s) as Hd.
  { intros neg s2 H2. destruct (digits_component s2 0) as [E1 E2].
    destruct (digits (first_component s2) 0) as [[v1 a1] e1], (digits s2 0) as [[v a] e].
    cbn in *. simplify_eq. rewrite H2 in E2. by destruct a; [destruct (ULONG_MAX <? v)|]. }
  cbn in Ea. rewrite Ec in Ea.
  destruct (Ascii.eqb c "-"); [by apply (Hd true)|]. destruct (Ascii.eqb c "+"); [by apply (Hd false)|].
  rewrite <- first_component_cons by done. apply (Hd false). cbn. by rewrite Ec.
Qed.

Lemma next_version_part_spec s :
  next_version_part s
  = ((strtoul (first_component s)).1, default EmptyString (after_dot s)).
Proof.
  unfold next_version_part. destruct (strtoul_component s) as [E1 E2].
  rewrite E1. destruct (strtoul s) as [v e]. cbn in *. rewrite E2. by destruct (after_dot s).
Qed.

Lemma after_dot_length s s' : after_dot s = Some s' -> (String.length s' < String.length s)%nat.
Proof.
  revert s'. induction s as [|c s IH]; intros s'; cbn; [done|].
  destruct (Ascii.eqb c "."); [intros [= ->]; lia|]. intros E. apply IH in E. lia.
Qed.

Abbreviation values s := ((fun x => (strtoul x).1) <$> split_dots s).

Lemma values_step s :
  values s = (next_version_part s).1
    :: match after_dot s with Some s' => values s' | None => [] end.
Proof. rewrite split_dots_step, next_version_part_spec. cbn. by destruct (after_dot s). Qed.

Lemma pad_compare_nil_r l : pad_compare l [0] = pad_compare l [].
Proof. by destruct l as [|x l]. Qed.

Lemma pad_compare_nil_l r : pad_compare [0] r = pad_compare [] r.
Proof. by destruct r as [|y r]. Qed.

(** An exhausted version counts as one part 0. *)
Lemma values_rest s l :
  pad_compare (values (default EmptyString (after_dot s))) l
  = pad_compare (match after_dot s with Some s' => values s' | None => [] end) l.
Proof. destruct (after_dot s); [done|]. cbn. apply pad_compare_nil_l. Qed.

Lemma values_rest_r s l :
  pad_compare l (values (default EmptyString (after_dot s)))
  = pad_compare l (match after_dot s with Some s' => values s' | None => [] end).
Proof. destruct (after_dot s); [done|]. cbn. apply pad_compare_nil_r. Qed.

Lemma rest_length s :
  (String.length (default EmptyString (after_dot s)) <= String.length s)%nat
  /\ (s <> EmptyString -> String.length (default EmptyString (after_dot s)) < String.length s)%nat.
Proof.
  destruct (after_dot s) as [s'|] eqn:E; cbn.
  - apply after_dot_length in E. lia.
  - split; [lia|]. destruct s; cbn; [done|lia].
Qed.

Lemma compare_loop_spec fuel : forall l r,
  (String.length l + String.length r < fuel)%nat ->
  compare_loop fuel l r = Ok (pad_compare (values l) (values r)).
Proof.
  induction fuel as [|fuel IH]; intros l r Hf; [lia|]. cbn [compare_loop].
  destruct (rest_length l) as [Ll Ll'], (rest_length r) as [Lr Lr']. case_if.
  2: { apply orb_false_iff in Heqb as [El Er]. apply negb_false_iff, String.eqb_eq in El as ->.
    apply negb_false_iff, String.eqb_eq in Er as ->. done. }
  assert (String.length (default EmptyString (after_dot l))
    + String.length (default EmptyString (after_dot r)) < fuel)%nat as Hlt.
  { apply orb_true_iff in Heqb as [E|E]; apply negb_true_iff, String.eqb_neq in E;
      [specialize (Ll' E)|specialize (Lr' E)]; lia. }
  rewrite (values_step l), (values_step r), !next_version_part_spec. cbn [fst pad_compare hd tl]. cbn zeta.
  destruct (Z.eqb_spec (strtoul (first_component l)).1 (strtoul (first_component r)).1) as [->|Hne]; cbn [negb].
  - rewrite Z.ltb_irrefl, IH by done. by rewrite values_rest, values_rest_r.
  - destruct (_ <? _) eqn:E1; [done|]. zbool. by rewrite (proj2 (Z.ltb_lt _ _)) by lia.
Qed.

(** The comparison is antisymmetric and transitive. *)
Lemma pad_compare_swap l : forall r, pad_compare r l = - pad_compare l r.
Proof.
  assert (forall k, pad_compare k [] = - pad_compare [] k) as Hnil.
  { induction k as [|x k IH]; [done|]. cbn [pad_compare hd tl pad_compare_0]. cbn zeta.
    repeat case_if; try lia. exact IH. }
  induction l as [|x l IH]; intros r; [apply Hnil|].
  destruct r as [|y r]; [rewrite Hnil; lia|].
  cbn [pad_compare hd tl]. cbn zeta. repeat case_if; try lia. apply IH.
Qed.

(** The [i]-th part, 0 when there is none. *)
Definition part (l : list Z) (i : nat) : Z := nth i l 0.

(** A comparison is decided by the first part that differs. *)
Lemma pad_compare_first l : forall r,
  (pad_compare l r = 0 /\ forall i, part l i = part r i)
  \/ exists i, (forall j, (j < i)%nat -> part l j = part r j)
      /\ (pad_compare l r = -1 /\ part l i < part r i \/ pad_compare l r = 1 /\ part r i < part l i).
Proof.
  unfold part. assert (forall x y (l' r' : list Z) d,
    ((d = 0 /\ forall i, nth i l' 0 = nth i r' 0)
     \/ exists i, (forall j, (j < i)%nat -> nth j l' 0 = nth j r' 0)
      /\ (d = -1 /\ nth i l' 0 < nth i r' 0 \/ d = 1 /\ nth i r' 0 < nth i l' 0)) ->
    let c := if x <? y then -1 else if y <? x then 1 else d in
    (c = 0 /\ forall i, nth i (x :: l') 0 = nth i (y :: r') 0)
     \/ exists i, (forall j, (j < i)%nat -> nth j (x :: l') 0 = nth j (y :: r') 0)
      /\ (c = -1 /\ nth i (x :: l') 0 < nth i (y :: r') 0
         \/ c = 1 /\ nth i (y :: r') 0 < nth i (x :: l') 0)) as Hcons.
  { intros x y l' r' d Hd. cbn zeta. case_if; [right; exists O; split; [lia|left; done]|].
    case_if; [right; exists O; split; [lia|right; done]|]. assert (x = y) as -> by lia.
    destruct Hd as [[-> He]|(i & Hj & Hi)]; [left; split; [done|]; by intros [|i]; cbn|].
    right. exists (S i). split; [intros [|j] Hlt; cbn; [done|apply Hj; lia]|done]. }
  assert (forall r, (forall j, nth j (hd 0 r :: tl r) 0 = nth j r 0)) as Hhd
    by (intros [|? ?] [|[|]]; done).
  induction l as [|x l IH]; intros r.
  - induction r as [|y r IHr]; [by left|].
    destruct (Hcons 0 y [] r _ IHr) as [[E He]|(i & Hj & Hi)]; [left|right].
    + split; [exact E|]. intros i. rewrite <- (He i). by destruct i as [|[|]].
    + exists i. assert (forall j, nth j [0] 0 = nth j (@nil Z) 0) as E0 by (by intros [|[|]]).
      split; [intros j Hlt; rewrite <- E0; by apply Hj|]. rewrite <- E0. exact Hi.
  - destruct (Hcons x (hd 0 r) l (tl r) _ (IH (tl r))) as [[E He]|(i & Hj & Hi)]; [left|right].
    + split; [exact E|]. intros i. by rewrite He.
    + exists i. split; [intros j Hlt; rewrite <- (Hhd r); by apply Hj|]. rewrite <- (Hhd r). exact Hi.
Qed.

Lemma pad_compare_le_trans a b c :
  pad_compare a b <= 0 -> pad_compare b c <= 0 -> pad_compare a c <= 0.
Proof.
  intros Hab Hbc.
  destruct (pad_compare_first a b) as [[_ Eab]|(i & Hi & Di)],
    (pad_compare_first b c) as [[_ Ebc]|(j & Hj & Dj)],
    (pad_compare_first a c) as [[Eac _]|(k & Hk & Dk)]; try lia.
  - destruct Dk as [?|[_ Dk]]; [lia|]. rewrite Eab, Ebc in Dk. lia.
  - destruct Dk as [?|[_ Dk]]; [lia|]. rewrite Eab in Dk.
    assert (forall m, (m < k)%nat -> part b m = part c m) as Hk' by (intros; rewrite <- Eab; auto).
    destruct (Nat.lt_trichotomy j k) as [Hl|[->|Hl]]; [rewrite (Hk' j Hl) in Dj; lia|lia|].
    rewrite (Hj k Hl) in Dk. lia.
  - destruct Dk as [?|[_ Dk]]; [lia|]. rewrite <- Ebc in Dk.
    assert (forall m, (m < k)%nat -> part a m = part b m) as Hk' by (intros; rewrite Ebc; auto).
    destruct (Nat.lt_trichotomy i k) as [Hl|[->|Hl]]; [rewrite (Hk' i Hl) in Di; lia|lia|].
    rewrite (Hi k Hl) in Dk. lia.
  - destruct Dk as [?|[_ Dk]]; [lia|].
    destruct (Nat.lt_ge_cases k i) as [Hki|Hki], (Nat.lt_ge_cases k j) as [Hkj|Hkj].
    + rewrite (Hi k Hki), (Hj k Hkj) in Dk. lia.
    + destruct (Nat.eq_dec k j) as [->|]; [rewrite (Hi j Hki) in Dk; lia|].
      assert (j < k)%nat as Hjk by lia. pose proof (Hk j Hjk). rewrite (Hi j ltac:(lia)) in H. lia.
    + destruct (Nat.eq_dec k i) as [->|]; [rewrite <- (Hj i Hkj) in Dk; lia|].
      assert (i < k)%nat as Hik by lia. pose proof (Hk i Hik). rewrite <- (Hj i ltac:(lia)) in H. lia.
    + destruct (Nat.lt_trichotomy i j) as [Hl|[->|Hl]].
      * destruct (Nat.eq_dec k i) as [->|]; [lia|]. pose proof (Hk i ltac:(lia)) as H.
        rewrite <- (Hj i Hl) in H. lia.
      * destruct (Nat.eq_dec k j) as [->|]; [lia|]. pose proof (Hk j ltac:(lia)). lia.
      * destruct (Nat.eq_dec k j) as [->|]; [lia|]. pose proof (Hk j ltac:(lia)) as H.
        rewrite (Hi j Hl) in H. lia.
Qed.

(** ** Theorems *)

Lemma compare_version_run lhs rhs :
  compare_version lhs rhs = Ok (pad_compare (parts lhs) (parts rhs)).
Proof. apply compare_loop_spec. lia. Qed.

(** [compare_version] returns for every pair of strings, and its value is the
    comparison of the numeric parts between the dots, part by part, with missing parts
    counting as 0 and an optional leading v or V skipped. *)
Theorem compare_version_correct lhs rhs :
  compare_version lhs rhs = Ok (pad_compare (parts lhs) (parts rhs)).
Proof. apply compare_version_run. Qed.

(** [compare_version] orders versions consistently: the comparison of a pair and
    of the swapped pair are opposite, every version equals itself, and "at most" is
    transitive. *)
Theorem compare_version_preorder a b c :
  (exists x, compare_version a b = Ok x /\ compare_version b a = Ok (- x))
  /\ compare_version a a = Ok 0
  /\ ((exists x, compare_version a b = Ok x /\ x <= 0) ->
      (exists y, compare_version b c = Ok y /\ y <= 0) ->
      exists z, compare_version a c = Ok z /\ z <= 0).
Proof.
  unfold compare_version. rewrite !compare_loop_spec by lia. split_and!.
  - eexists; split; [done|]. by rewrite pad_compare_swap.
  - f_equal. pose proof (pad_compare_swap (values (skip_v a)) (values (skip_v a))). lia.
  - intros (x & [= <-] & Hx) (y & [= <-] & Hy). eexists; split; [done|].
    by eapply pad_compare_le_trans.
Qed.

(** The examples of the comment above [compare_version] and of test_util.cc. *)
Example version_examples :
  (compare_version "v0.10.0" "v0.7.0", compare_version "v0.7" "0.7.0",
   compare_version "v0.6.9" "v0.7.0", compare_version "0.4.12.1" "v0.4.12",
   compare_version "" "v0.7.0", compare_version "abc" "v0.0")
  = (Ok 1, Ok 0, Ok (-1), Ok 1, Ok (-1), Ok 0).
Proof. vm_compute. reflexivity. Qed.

End VersionOrder.
