(* ===== verification/Double.v ===== *)
(** * Doubles: reading and printing

    The parser reads a number that is no 64-bit integer with [istringstream >> double]
    and [valueToString(double)] (common/jsoncpp/lib_json/json_writer.cpp) prints it with
    [%.17g], or with another precision or [%.*f] when the settings say so.  Both
    conversions are exact roundings between decimal and binary fractions, written here over
    the integers: a finite double is [(-1)^sign * mant * 2^expo]. *)
From Stdlib Require Import ZArith Lia.
From Stdlib Require Strings.Byte.
From S2P Require Import Prelude.

Module Double.

Record double := mkDouble { sign : bool; mant : Z; expo : Z }.

(** [n / d] to the nearest integer, ties to even; [0 <= n], [0 < d]. *)
Definition round_even (n d : Z) : Z :=
  let q := n / d in
  let r := n mod d in
  if 2 * r <? d then q
  else if d <? 2 * r then q + 1
  else if Z.even q then q else q + 1.

(** ** Reading *)

Definition is_digit (b : byte) : bool := (48 <=? byte_Z b) && (byte_Z b <=? 57).

Definition digit_val (b : byte) : Z := byte_Z b - 48.

Fixpoint digits_of (l : list byte) : list byte * list byte :=
  match l with
  | b :: l' => if is_digit b then let '(d, r) := digits_of l' in (b :: d, r) else ([], l)
  | [] => ([], [])
  end.

Definition number_of (d : list byte) : Z := foldl (fun a b => 10 * a + digit_val b) 0 d.

(** A decimal literal: its sign, its digits as one integer, its power of ten. *)
Record decimal := mkDecimal { dec_sign : bool; dec_digits : Z; dec_exp : Z }.

(** The literal [num_get] accumulates and [strtod] accepts: a sign, digits with at most
    one point and at least one digit, an exponent with at least one digit.  [None] when
    [strtod] does not consume all that was accumulated, which fails the stream. *)
Definition literal (l : list byte) : option decimal :=
  let '(neg, l) := match l with
                   | b :: l' => if bool_decide (b = Byte.x2d) then (true, l')
                                else if bool_decide (b = Byte.x2b) then (false, l') else (false, l)
                   | [] => (false, [])
                   end in
  let '(whole, l) := digits_of l in
  let '(frac, l) := match l with
                    | b :: l' => if bool_decide (b = Byte.x2e) then digits_of l' else ([], l)
                    | [] => ([], [])
                    end in
  if bool_decide (whole ++ frac = []) then None
  else
    let m := number_of (whole ++ frac) in
    match l with
    | b :: l' =>
        if bool_decide (b = Byte.x65) || bool_decide (b = Byte.x45) then
          let '(eneg, l') := match l' with
                             | c :: l'' => if bool_decide (c = Byte.x2d) then (true, l'')
                                           else if bool_decide (c = Byte.x2b) then (false, l'')
                                           else (false, l')
                             | [] => (false, [])
                             end in
          let '(e, _) := digits_of l' in
          if bool_decide (e = []) then None
          else Some (mkDecimal neg m ((if (eneg : bool) then - number_of e else number_of e)
                                        - zlen frac))
        else Some (mkDecimal neg m (- zlen frac))
    | [] => Some (mkDecimal neg m (- zlen frac))
    end.

(** The leading bit of [n / d]: [2^k <= n / d < 2^(k+1)]. *)
Definition leading_bit (n d : Z) : Z :=
  let k := Z.log2 n - Z.log2 d in
  let reached := if 0 <=? k then d * 2 ^ k <=? n else d <=? n * 2 ^ (- k) in
  if reached then k else k - 1.

(** The binary exponent of the double nearest to [n / d]: 53 bits of mantissa unless the
    number is subnormal. *)
Definition binary_exponent (n d : Z) : Z := Z.max (leading_bit n d - 52) (-1074).

(** ... and that double; rounding up to a power of two makes the mantissa one bit longer. *)
Definition nearest (n d : Z) : Z * Z :=
  let e := binary_exponent n d in
  let q := if 0 <=? e then round_even n (d * 2 ^ e) else round_even (n * 2 ^ (- e)) d in
  if q =? 2 ^ 53 then (2 ^ 52, e + 1) else (q, e).

(** Whether [m * 2^e] exceeds the largest double. *)
Definition overflows (m e : Z) : bool := if 0 <=? e then 2 ^ 1024 <=? m * 2 ^ e else false.

(** [strtod], and [num_get] failing the stream when the result is infinite.  Powers of
    ten beyond the range of a double are decided without computing them. *)
Definition read_double (l : list byte) : option double :=
  match literal l with
  | None => None
  | Some (mkDecimal neg m e) =>
      if m =? 0 then Some (mkDouble neg 0 0)
      else if 400 <? e then None
      else if Z.log2 m + 1 + 3 * e <? -1200 then Some (mkDouble neg 0 0)
      else
        let '(q, x) := if 0 <=? e then nearest (m * 10 ^ e) 1 else nearest m (10 ^ (- e)) in
        if overflows q x then None else Some (mkDouble neg q (if q =? 0 then 0 else x))
  end.

(** ** Printing with [%.*g] and [%.*f] *)

(** The decimal exponent of [n / d]: [10^x <= n / d < 10^(x+1)]. *)
Fixpoint exponent_up (fuel : nat) (n d x : Z) : Z :=
  match fuel with
  | O => x
  | S fuel' => if n <? d * 10 then x else exponent_up fuel' n (d * 10) (x + 1)
  end.

Fixpoint exponent_down (fuel : nat) (n d x : Z) : Z :=
  match fuel with
  | O => x
  | S fuel' => if d <=? n then x else exponent_down fuel' (n * 10) d (x - 1)
  end.

(** Doubles lie between [10^-324] and [10^309]. *)
Definition decimal_exponent (n d : Z) : Z :=
  if d <=? n then exponent_up 400 n d 0 else exponent_down 400 n d 0.

(** [p + 1] significant digits, as an integer, and the decimal exponent. *)
Definition significant (p n d : Z) : Z * Z :=
  let x := decimal_exponent n d in
  let q := if p <=? x then round_even n (d * 10 ^ (x - p)) else round_even (n * 10 ^ (p - x)) d in
  if q =? 10 ^ (p + 1) then (10 ^ p, x + 1) else (q, x).

(** [n] decimal digits of [v], most significant first. *)
Fixpoint decimal_digits (n : nat) (v : Z) : list byte :=
  match n with
  | O => []
  | S n' => decimal_digits n' (v / 10) ++ [Z_byte (v mod 10 + 48)]
  end.

Fixpoint strip_zeros_rev (l : list byte) : list byte :=
  match l with
  | b :: l' => if bool_decide (b = Byte.x30) then strip_zeros_rev l' else l
  | [] => []
  end.

Definition strip_zeros (l : list byte) : list byte := rev (strip_zeros_rev (rev l)).

(** A fraction without its trailing zeros, and without the point when nothing is left. *)
Definition fraction (l : list byte) : list byte :=
  match strip_zeros l with [] => [] | f => bs "." ++ f end.

(** The exponent of [%e]: a sign and at least two digits. *)
Definition exponent_text (x : Z) : list byte :=
  let a := Z.abs x in
  bs "e" ++ (if x <? 0 then bs "-" else bs "+") ++ decimal_digits (if a <? 100 then 2 else 3) a.

(** A double as a fraction. *)
Definition ratio (v : double) : Z * Z :=
  if 0 <=? expo v then (mant v * 2 ^ expo v, 1) else (mant v, 2 ^ (- expo v)).

(** What [%.*g] prints for a positive fraction; [p + 1] is the precision, at least 1. *)
Definition g_text (p n d : Z) : list byte :=
  let '(q, x) := significant p n d in
  let digits := decimal_digits (Z.to_nat (p + 1)) q in
  if (x <? -4) || (p + 1 <=? x)
  then take 1 digits ++ fraction (drop 1 digits) ++ exponent_text x
  else if 0 <=? x
  then take (Z.to_nat x + 1) digits ++ fraction (drop (Z.to_nat x + 1) digits)
  else bs "0" ++ fraction (replicate (Z.to_nat (- x - 1)) Byte.x30 ++ digits).

Definition printf_g (precision : Z) (v : double) : list byte :=
  let '(n, d) := ratio v in
  (if sign v then bs "-" else []) ++ (if n =? 0 then bs "0" else g_text (Z.max 1 precision - 1) n d).

(** The digits of a number, at least one of them; a number printed with [%f] has at most
    309 in front of its point. *)
Definition integer_digits (v : Z) : list byte :=
  match strip_zeros_rev (decimal_digits 400 v) with [] => bs "0" | l => l end.

Definition printf_f (precision : Z) (v : double) : list byte :=
  let '(n, d) := ratio v in
  let q := round_even (n * 10 ^ precision) d in
  (if sign v then bs "-" else []) ++ integer_digits (q / 10 ^ precision)
  ++ (if precision =? 0 then [] else bs "." ++ decimal_digits (Z.to_nat precision) (q mod 10 ^ precision)).

(** [fixNumericLocale] *)
Definition fixNumericLocale (l : list byte) : list byte :=
  map (fun b => if bool_decide (b = Byte.x2c) then Byte.x2e else b) l.

(** [fixZerosInTheEnd], on the reversed text *)
Fixpoint fix_zeros_rev (l : list byte) : list byte :=
  match l with
  | [] => []
  | b :: l' =>
      if negb (bool_decide (b = Byte.x30)) then l
      else match l' with
           | c :: _ => if bool_decide (c = Byte.x2e) then l else fix_zeros_rev l'
           | [] => fix_zeros_rev l'
           end
  end.

Definition fixZerosInTheEnd (l : list byte) : list byte := rev (fix_zeros_rev (rev l)).

(** [valueToString(double, useSpecialFloats, precision, precisionType)] of a finite number:
    the text keeps a mark of having been a double.  The buffer grows until the text fits. *)
Definition valueToString_with (precision : Z) (significantDigits : bool) (v : double) : list byte :=
  let buffer := fixNumericLocale (if significantDigits then printf_g precision v else printf_f precision v) in
  let buffer := if negb significantDigits then fixZerosInTheEnd buffer else buffer in
  if existsb (fun b => bool_decide (b = Byte.x2e) || bool_decide (b = Byte.x65)) buffer
  then buffer else buffer ++ bs ".0".

(** ... at its default precision *)
Definition valueToString_double (v : double) : list byte := valueToString_with 17 true v.

Definition reprint (t : string) : option (list byte) :=
  option_map valueToString_double (read_double (bs t)).

Example doubles :
  map reprint ["0.7"; "1e3"; "-2.50"; "1e400"; "5e-324"; "18446744073709551616"; "123456789.125"; "1e22"; "-0"; "1e"; ".5"; "1e-5"; "1.7976931348623157e308"]%string
  = map (option_map bs) [Some "0.69999999999999996"; Some "1000.0"; Some "-2.5"; None; Some "4.9406564584124654e-324";
     Some "1.8446744073709552e+19"; Some "123456789.125"; Some "1e+22"; Some "-0.0"; None; Some "0.5"; Some "1.0000000000000001e-05"; Some "1.7976931348623157e+308"]%string.
Proof. vm_compute. reflexivity. Qed.

(** With decimal places the zeros of a whole number are taken for zeros of a fraction. *)
Example decimal_places :
  let show p t := option_map (valueToString_with p false) (read_double (bs t)) in
  [show 3 "2.50"; show 3 "100"; show 2 "-0.005"; show 0 "100"; show 0 "0"]%string
  = map (fun t => Some (bs t)) ["2.5"; "100.0"; "-0.01"; "1.0"; ".0"]%string.
Proof. vm_compute. reflexivity. Qed.

End Double.
