(* ===== verification/Real.v ===== *)
(** * The doubles of a value

    A double of a [Value] is a finite number (Double.v), an infinity or NaN.  The file has
    the comparisons, conversions and limits that json_value.cpp uses on doubles and the text
    [valueToString] of json_writer.cpp prints for one under all settings. *)
From Stdlib Require Import ZArith Lia.
From Stdlib Require Strings.Byte.
From S2P Require Import Prelude Double.

Module Real.
Import Double.

Inductive real :=
| finite (d : double)
| infinite (neg : bool)
| nan.

Definition signed (d : double) : Z := if sign d then - mant d else mant d.

(** Two finite doubles over a common power of two. *)
Definition scaled (d : double) (e : Z) : Z := signed d * 2 ^ (expo d - e).

Definition finite_compare (a b : double) : comparison :=
  let e := Z.min (expo a) (expo b) in scaled a e ?= scaled b e.

(** [<], [==], [<=] on doubles *)
Definition real_lt (a b : real) : bool :=
  match a, b with
  | finite x, finite y => match finite_compare x y with Lt => true | _ => false end
  | finite _, infinite neg => negb neg
  | infinite neg, finite _ => neg
  | infinite m, infinite n => m && negb n
  | _, _ => false
  end.

Definition real_eq (a b : real) : bool :=
  match a, b with
  | finite x, finite y => match finite_compare x y with Eq => true | _ => false end
  | infinite m, infinite n => Bool.eqb m n
  | _, _ => false
  end.

Definition real_le (a b : real) : bool := real_lt a b || real_eq a b.

(** [static_cast<double>] of an integer: the nearest double. *)
Definition real_of_Z (z : Z) : real :=
  let '(q, e) := nearest (Z.abs z) 1 in finite (mkDouble (z <? 0) q e).

(** The integer part of a finite double, towards zero. *)
Definition integer_part (d : double) : Z :=
  let a := if 0 <=? expo d then mant d * 2 ^ expo d
           else mant d / 2 ^ (- expo d) in
  if sign d then - a else a.

(** [modf(d, &integral_part) == 0.0] *)
Definition IsIntegral (r : real) : bool :=
  match r with
  | finite d => (0 <=? expo d) || (mant d mod 2 ^ (- expo d) =? 0)
  | infinite _ => true
  | nan => false
  end.

(** A double cast to an integer type with range [lo .. hi]; out of range it is undefined. *)
Definition cast (r : real) (lo hi : Z) : outcome Z :=
  match r with
  | finite d => if (lo <=? integer_part d) && (integer_part d <=? hi) then Ok (integer_part d) else UB
  | _ => UB
  end.

(** [InRange(d, min, max)] *)
Definition InRange (r : real) (min max : Z) : bool := real_le (real_of_Z min) r && real_le r (real_of_Z max).

Definition minInt : Z := - 2 ^ 31.
Definition maxInt : Z := 2 ^ 31 - 1.
Definition maxUInt : Z := 2 ^ 32 - 1.
Definition minInt64 : Z := - 2 ^ 63.
Definition maxInt64 : Z := 2 ^ 63 - 1.
Definition maxUInt64 : Z := 2 ^ 64 - 1.
Definition maxUInt64AsDouble : real := real_of_Z 18446744073709551615.

(** [fpclassify(r) != FP_ZERO && fpclassify(r) != FP_NAN] *)
Definition real_truth (r : real) : bool :=
  match r with
  | finite d => negb (mant d =? 0)
  | infinite _ => true
  | nan => false
  end.

(** [valueToString(double, useSpecialFloats, precision, precisionType)] *)
Definition valueToString (useSpecialFloats : bool) (precision : Z) (significantDigits : bool) (r : real) : list byte :=
  match r with
  | finite d => valueToString_with precision significantDigits d
  | infinite true => if useSpecialFloats then bs "-Infinity" else bs "-1e+9999"
  | infinite false => if useSpecialFloats then bs "Infinity" else bs "1e+9999"
  | nan => if useSpecialFloats then bs "NaN" else bs "null"
  end.

(** [valueToString(double)] *)
Definition real_text (r : real) : list byte := valueToString false 17 true r.

End Real.
