(* ===== verification/Json.v ===== *)
(** * JSON values: the part of [AliasJson::Value] the agent uses
      (common/jsoncpp/lib_json/json_value.cpp)

    The payload of a trace node is a JSON object that annotations write to.  An object
    is the sequence of its members in the order of the [std::map] behind it, which
    compares keys by [memcmp] and then by length; an array is only ever extended at its
    end, so it is the list of its elements.  Doubles are those of Real.v. *)
From Stdlib Require Import ZArith Lia.
From Stdlib Require Strings.Byte Strings.String.
From S2P Require Import Prelude Double Real.

Module Json.

#[local] Set Warnings "-register-all".

(** [enum ValueType] with the payloads of the union. *)
Inductive Value :=
| nullValue
| intValue (n : Z)
| uintValue (n : Z)
| realValue (r : Real.real)
| stringValue (s : list byte)
| booleanValue (b : bool)
| arrayValue (elems : list Value)
| objectValue (members : list (list byte * Value)).

(** Induction with the hypothesis for the elements and the members. *)
Lemma Value_rect_nested (P : Value -> Prop) :
  P nullValue -> (forall n, P (intValue n)) -> (forall n, P (uintValue n)) ->
  (forall t, P (realValue t)) -> (forall s, P (stringValue s)) -> (forall b, P (booleanValue b)) ->
  (forall l, Forall P l -> P (arrayValue l)) ->
  (forall m, Forall (fun kv => P (snd kv)) m -> P (objectValue m)) ->
  forall v, P v.
Proof.
  intros Hn Hi Hu Hr Hs Hb Ha Ho. fix IH 1. intros [|n|n|t|s|b|l|m];
    [exact Hn|apply Hi|apply Hu|apply Hr|apply Hs|apply Hb|..].
  - apply Ha. induction l as [|v l IHl]; constructor; [apply IH|exact IHl].
  - apply Ho. induction m as [|[k v] m IHm]; constructor; [apply IH|exact IHm].
Qed.

(** ** Keys *)

Definition byte_ltb (a b : byte) : bool := byte_Z a <? byte_Z b.

(** [CZString::operator<]: [memcmp] on the common length, then the length. *)
Fixpoint key_ltb (a b : list byte) : bool :=
  match a, b with
  | _, [] => false
  | [], _ :: _ => true
  | x :: a', y :: b' => byte_ltb x y || (negb (byte_ltb y x) && key_ltb a' b')
  end.

Abbreviation members := (list (list byte * Value)).

(** [map_->find] *)
Fixpoint find (key : list byte) (m : members) : option Value :=
  match m with
  | [] => None
  | (k, v) :: m' => if bool_decide (key = k) then Some v else find key m'
  end.

(** The member a reference from [resolveReference] designates gets the value [x]:
    [lower_bound], then overwrite or insert before it. *)
Fixpoint put (key : list byte) (x : Value) (m : members) : members :=
  match m with
  | [] => [(key, x)]
  | (k, v) :: m' =>
      if key_ltb k key then (k, v) :: put key x m'
      else if bool_decide (key = k) then (k, x) :: m'
      else (key, x) :: m
  end.

(** ** Operations *)

(** [Value(ValueType)], [isNull], [isString], [isArray], [isObject], [size], [empty] *)
Definition isNull (v : Value) : bool := match v with nullValue => true | _ => false end.
Definition isString (v : Value) : bool := match v with stringValue _ => true | _ => false end.
Definition isArray (v : Value) : bool := match v with arrayValue _ => true | _ => false end.
Definition isObject (v : Value) : bool := match v with objectValue _ => true | _ => false end.

Definition size (v : Value) : Z :=
  match v with
  | arrayValue l => zlen l
  | objectValue m => zlen m
  | _ => 0
  end.

Definition empty (v : Value) : bool :=
  if isNull v || isArray v || isObject v then size v =? 0 else false.

(** [operator bool] *)
Definition to_bool (v : Value) : bool := negb (isNull v).

(** The members of a value used as an object; a null value becomes an object. *)
Definition as_object (v : Value) : outcome members :=
  match v with
  | nullValue => mret []
  | objectValue m => mret m
  | _ => Throw json_logic_error
  end.

(** [v[key]] in a position that is read: the value designated, and [v] afterwards
    (a missing member has been inserted as null). *)
Definition at_key (v : Value) (key : list byte) : outcome (Value * Value) :=
  m ← as_object v;
  match find key m with
  | Some x => mret (x, objectValue m)
  | None => mret (nullValue, objectValue (put key nullValue m))
  end.

(** [v[key] = x] *)
Definition assign (v : Value) (key : list byte) (x : Value) : outcome Value :=
  m ← as_object v; mret (objectValue (put key x m)).

(** [Value::append] *)
Definition append (v x : Value) : outcome Value :=
  match v with
  | nullValue => mret (arrayValue [x])
  | arrayValue l => mret (arrayValue (l ++ [x]))
  | _ => Throw json_logic_error
  end.

(** [v[key].append(x)] *)
Definition append_at (v : Value) (key : list byte) (x : Value) : outcome Value :=
  m ← as_object v;
  y ← append (default nullValue (find key m)) x;
  mret (objectValue (put key y m)).

(** [Value::clear] *)
Definition clear (v : Value) : outcome Value :=
  match v with
  | nullValue => mret nullValue
  | arrayValue _ => mret (arrayValue [])
  | objectValue _ => mret (objectValue [])
  | _ => Throw json_logic_error
  end.

(** ** Members in order *)

(** Strictly increasing keys, as in a [std::map]. *)
Inductive sorted : members -> Prop :=
| sorted_nil : sorted []
| sorted_one k v : sorted [(k, v)]
| sorted_cons k v k' v' m :
    key_ltb k k' = true -> sorted ((k', v') :: m) -> sorted ((k, v) :: (k', v') :: m).

Lemma byte_Z_inj a b : byte_Z a = byte_Z b -> a = b.
Proof.
  unfold byte_Z. intros E. apply N2Z.inj in E.
  pose proof (Byte.of_to_N a) as Ha. pose proof (Byte.of_to_N b) as Hb. rewrite E in Ha. congruence.
Qed.

Lemma key_ltb_irrefl a : key_ltb a a = false.
Proof.
  induction a as [|x a IH]; [done|]. cbn. unfold byte_ltb. rewrite Z.ltb_irrefl, IH. done.
Qed.

Lemma key_ltb_trans a : forall b c, key_ltb a b = true -> key_ltb b c = true -> key_ltb a c = true.
Proof.
  induction a as [|x a IH]; intros [|y b] [|z c]; cbn; try done. unfold byte_ltb.
  intros H1 H2. apply orb_true_iff in H1, H2. apply orb_true_iff.
  destruct H1 as [H1|H1]; [|apply andb_true_iff in H1 as [H1 H1']; apply negb_true_iff in H1];
    (destruct H2 as [H2|H2]; [|apply andb_true_iff in H2 as [H2 H2']; apply negb_true_iff in H2]); zbool;
    try (left; apply Z.ltb_lt; lia).
  right. apply andb_true_iff. split; [apply negb_true_iff, Z.ltb_ge; lia|by eapply IH].
Qed.

(** The order is total. *)
Lemma key_ltb_total a : forall b, key_ltb a b = false -> a <> b -> key_ltb b a = true.
Proof.
  induction a as [|x a IH]; intros [|y b]; cbn; try done. unfold byte_ltb.
  intros H1 Hne. apply orb_false_iff in H1 as [H1 H2]. zbool.
  destruct (Z.eq_dec (byte_Z x) (byte_Z y)) as [E|E].
  - apply byte_Z_inj in E as ->. rewrite Z.ltb_irrefl in *. cbn in *.
    apply IH; [done|]. intros ->. done.
  - apply orb_true_iff. left. apply Z.ltb_lt. lia.
Qed.

Lemma find_put key k x m :
  find key (put k x m) = if bool_decide (key = k) then Some x else find key m.
Proof.
  induction m as [|[k' v'] m IH]; cbn; [done|].
  destruct (key_ltb k' k) eqn:El; cbn.
  - rewrite IH. destruct (decide (key = k')) as [->|]; [|by rewrite !bool_decide_eq_false_2 by done].
    rewrite bool_decide_eq_true_2 by done.
    destruct (decide (k' = k)) as [->|]; [by rewrite key_ltb_irrefl in El|].
    by rewrite bool_decide_eq_false_2.
  - destruct (decide (k = k')) as [->|]; [rewrite bool_decide_eq_true_2 by done|
      rewrite bool_decide_eq_false_2 by done]; cbn; repeat case_bool_decide; done.
Qed.

Lemma sorted_tail kv m : sorted (kv :: m) -> sorted m.
Proof. inversion 1; subst; [constructor|done]. Qed.

(** Everything behind the head of a sorted sequence is greater. *)
Definition above (k : list byte) (m : members) : Prop :=
  match m with [] => True | (k', _) :: _ => key_ltb k k' = true end.

Lemma sorted_iff k v m : sorted ((k, v) :: m) <-> above k m /\ sorted m.
Proof.
  split.
  - inversion 1; subst; (split; [done|]); [constructor|done].
  - intros [Ha Hs]. destruct m as [|[k' v'] m]; by constructor.
Qed.

Lemma put_above k key x m : key_ltb k key = true -> above k m -> above k (put key x m).
Proof.
  intros Hk Ha. destruct m as [|[k' v'] m]; cbn; [done|].
  destruct (key_ltb k' key); [done|]. by case_bool_decide.
Qed.

Lemma put_sorted key x m : sorted m -> sorted (put key x m).
Proof.
  induction m as [|[k v] m IH]; intros Hs; cbn; [constructor|].
  apply sorted_iff in Hs as [Ha Hs]. destruct (key_ltb k key) eqn:El.
  - apply sorted_iff. split; [by apply put_above|by apply IH].
  - case_bool_decide as Ek; [by apply sorted_iff|].
    apply sorted_iff. split; [|by apply sorted_iff]. cbn. by apply key_ltb_total.
Qed.

(** Two sequences in order with the same members are equal. *)
Lemma above_find k m key v : above k m -> sorted m -> find key m = Some v -> key_ltb k key = true.
Proof.
  revert k. induction m as [|[k' v'] m IH]; intros k Ha Hs; cbn; [done|].
  apply sorted_iff in Hs as [Ha' Hs]. cbn in Ha. case_bool_decide as E; [by subst|].
  intros Hf. eapply key_ltb_trans; [exact Ha|]. by eapply IH.
Qed.

Lemma sorted_ext m m' : sorted m -> sorted m' -> (forall k, find k m = find k m') -> m = m'.
Proof.
  revert m'. induction m as [|[k v] m IH]; intros [|[k' v'] m'] Hs Hs' He; [done|..].
  { specialize (He k'). cbn in He. by rewrite bool_decide_eq_true_2 in He. }
  { specialize (He k). cbn in He. by rewrite bool_decide_eq_true_2 in He. }
  apply sorted_iff in Hs as [Ha Hs], Hs' as [Ha' Hs'].
  assert (k = k') as <-.
  { destruct (decide (k = k')) as [|Hne]; [done|]. exfalso.
    pose proof (He k) as H1. pose proof (He k') as H2. cbn in H1, H2.
    rewrite bool_decide_eq_true_2, bool_decide_eq_false_2 in H1 by done.
    rewrite (bool_decide_eq_true_2 (k' = k')), bool_decide_eq_false_2 in H2 by done.
    symmetry in H1. apply (above_find _ _ _ _ Ha' Hs') in H1. apply (above_find _ _ _ _ Ha Hs) in H2.
    pose proof (key_ltb_trans _ _ _ H1 H2) as E. by rewrite key_ltb_irrefl in E. }
  pose proof (He k) as Hk. cbn in Hk. rewrite !bool_decide_eq_true_2 in Hk by done. injection Hk as ->.
  f_equal. apply IH; [done..|]. intros key. specialize (He key). cbn in He.
  case_bool_decide as E; [subst key|done].
  destruct (find k m) eqn:E1; [apply (above_find _ _ _ _ Ha Hs) in E1; by rewrite key_ltb_irrefl in E1|].
  destruct (find k m') eqn:E2; [apply (above_find _ _ _ _ Ha' Hs') in E2; by rewrite key_ltb_irrefl in E2|].
  done.
Qed.

(** ** Theorems *)

(** An object is a finite map whose printing order does not depend on history.
    Assigning a member keeps the keys strictly increasing and changes that member only;
    assignments to different keys commute, so two annotations give the same object in
    either order. *)
Theorem assign_is_map_update v m k x :
  as_object v = Ok m -> sorted m ->
  exists m', assign v k x = Ok (objectValue m') /\ sorted m'
    /\ (forall key, find key m' = if bool_decide (key = k) then Some x else find key m)
    /\ forall k2 x2, k2 <> k ->
       (v1 ← assign v k x; assign v1 k2 x2) = (v1 ← assign v k2 x2; assign v1 k x).
Proof.
  intros Hm Hs. unfold assign. rewrite Hm. eexists. split; [done|]. cbn. split_and!.
  - by apply put_sorted.
  - intros key. apply find_put.
  - intros k2 x2 Hne. do 2 f_equal. apply sorted_ext; [by repeat apply put_sorted..|].
    intros key. rewrite !find_put. repeat case_bool_decide; by subst.
Qed.

(** [v[key].append(x)] collects values in order.  On an object whose member [key] is
    absent or null it starts an array, on an array it appends, and on anything else it
    throws [LogicError] and leaves the object as it was; other members never change. *)
Theorem append_at_collects v m k x :
  as_object v = Ok m -> sorted m ->
  match default nullValue (find k m) with
  | nullValue => append_at v k x = Ok (objectValue (put k (arrayValue [x]) m))
  | arrayValue l => append_at v k x = Ok (objectValue (put k (arrayValue (l ++ [x])) m))
  | _ => append_at v k x = Throw json_logic_error
  end
  /\ forall w, append_at v k x = Ok w -> exists m', w = objectValue m' /\ sorted m'
     /\ forall key, key <> k -> find key m' = find key m.
Proof.
  intros Hm Hs. unfold append_at. rewrite Hm. cbn. split.
  - by destruct (default nullValue (find k m)).
  - intros w. destruct (append _ _) as [y| | |]; try done. intros [= <-].
    eexists; split_and!; [done|by apply put_sorted|]. intros key Hne.
    rewrite find_put. by rewrite bool_decide_eq_false_2.
Qed.

Lemma assign_is_map_update_witness :
  exists m', assign (objectValue [(bs "b", intValue 1)]) (bs "a") nullValue = Ok (objectValue m')
    /\ sorted m'
    /\ (forall key, find key m' = if bool_decide (key = bs "a") then Some nullValue
                                  else find key [(bs "b", intValue 1)])
    /\ forall k2 x2, k2 <> bs "a" ->
       (v1 ← assign (objectValue [(bs "b", intValue 1)]) (bs "a") nullValue; assign v1 k2 x2)
       = (v1 ← assign (objectValue [(bs "b", intValue 1)]) k2 x2; assign v1 (bs "a") nullValue).
Proof.
  apply (assign_is_map_update (objectValue [(bs "b", intValue 1)]) [(bs "b", intValue 1)]).
  - reflexivity.
  - constructor.
Defined.

Lemma append_at_collects_witness :
  append_at (objectValue [(bs "anno", stringValue (bs "x"))]) (bs "anno") nullValue
    = Throw json_logic_error
  /\ forall w, append_at (objectValue [(bs "anno", stringValue (bs "x"))]) (bs "anno") nullValue = Ok w ->
     exists m', w = objectValue m' /\ sorted m'
       /\ forall key, key <> bs "anno" -> find key m' = find key [(bs "anno", stringValue (bs "x"))].
Proof.
  apply (append_at_collects (objectValue [(bs "anno", stringValue (bs "x"))])
           [(bs "anno", stringValue (bs "x"))] (bs "anno") nullValue).
  - reflexivity.
  - constructor.
Defined.

End Json.
