(* ===== verification/DoubleRound.v ===== *)
(** * Doubles are read back as they were printed

    Seventeen significant digits determine a double: the decimal number that [%.17g] prints
    is closer to it than half the distance to its neighbours, so that reading, which rounds
    to the nearest double, finds it again.  The distances are those of rational numbers. *)
From Stdlib Require Import ZArith Lia QArith Qpower Lqa Qabs.
From Stdlib Require Strings.Byte.
From S2P Require Import Prelude Json Double.

Module DoubleRound.
Import Json Double.
Open Scope Z_scope.

(** ** Fractions *)

Definition frac (n d : Z) : Q := (inject_Z n / inject_Z d)%Q.

Lemma inject_lt n m : n < m <-> (inject_Z n < inject_Z m)%Q.
Proof. by rewrite Zlt_Qlt. Qed.

Lemma inject_sub n m : (inject_Z (n - m) == inject_Z n - inject_Z m)%Q.
Proof. unfold Z.sub. by rewrite inject_Z_plus, inject_Z_opp. Qed.

Lemma inject_pos d : 0 < d -> (0 < inject_Z d)%Q.
Proof. intros H. by apply (inject_lt 0 d). Qed.

(** Two numbers of one denominator are compared as their numerators. *)
Lemma frac_mul n d : 0 < d -> (frac n d * inject_Z d == inject_Z n)%Q.
Proof. intros Hd. unfold frac. field. intros E. pose proof (inject_pos d Hd). rewrite E in *. by apply Qlt_irrefl in H. Qed.

Lemma frac_pos n d : 0 < n -> 0 < d -> (0 < frac n d)%Q.
Proof. intros Hn Hd. apply Qlt_shift_div_l; [by apply inject_pos|]. rewrite Qmult_0_l. by apply inject_pos. Qed.

Lemma frac_ge n d c : 0 < d -> c * d <= n <-> (inject_Z c <= frac n d)%Q.
Proof.
  intros Hd. pose proof (inject_pos d Hd) as Hq. rewrite Zle_Qle, inject_Z_mult. split; intros H.
  - by apply Qle_shift_div_l.
  - rewrite <- (frac_mul n d Hd). apply Qmult_le_compat_r; [done|lra].
Qed.

Lemma frac_lt n d c : 0 < d -> n < c * d <-> (frac n d < inject_Z c)%Q.
Proof. intros Hd. rewrite Z.lt_nge, frac_ge by done. split; [apply Qnot_le_lt|apply Qlt_not_le]. Qed.

(** *** Powers *)

Abbreviation pow b k := (Qpower (inject_Z b) k).

Lemma pow_pos b k : 0 < b -> (0 < pow b k)%Q.
Proof. intros Hb. by apply Qpower_0_lt, inject_pos. Qed.

Lemma pow_ne b k : 0 < b -> ~ (pow b k == 0)%Q.
Proof. intros Hb E. pose proof (pow_pos b k Hb). rewrite E in *. by apply Qlt_irrefl in H. Qed.

Lemma base_ne b : 0 < b -> ~ (inject_Z b == 0)%Q.
Proof. intros Hb E. pose proof (inject_pos b Hb). rewrite E in *. by apply Qlt_irrefl in H. Qed.

Lemma pow_add b j k : 0 < b -> (pow b (j + k) == pow b j * pow b k)%Q.
Proof. intros Hb. by apply Qpower_plus, base_ne. Qed.

Lemma pow_sub b j k : 0 < b -> (pow b (j - k) == pow b j / pow b k)%Q.
Proof. intros Hb. by apply Qpower_minus, base_ne. Qed.

Lemma pow_Z b k : 0 <= k -> (pow b k == inject_Z (b ^ k))%Q.
Proof. intros Hk. symmetry. by apply Zpower_Qpower. Qed.

Lemma pow_lt b j k : 1 < b -> j < k -> (pow b j < pow b k)%Q.
Proof. intros Hb Hjk. apply Qpower_lt_compat_l; [done|]. by apply (inject_lt 1 b). Qed.

Lemma pow_le b j k : 1 < b -> j <= k -> (pow b j <= pow b k)%Q.
Proof. intros Hb Hjk. apply Qpower_le_compat_l; [done|]. apply Qlt_le_weak. by apply (inject_lt 1 b). Qed.

Lemma pow_lt_inv b j k : 1 < b -> (pow b j < pow b k)%Q -> j < k.
Proof. intros Hb H. eapply Qpower_lt_compat_l_inv; [exact H|]. by apply (inject_lt 1 b). Qed.

(** The exponent of a number is unique. *)
Lemma exponent_unique b r j k : 1 < b -> (pow b j <= r)%Q -> (r < pow b (j + 1))%Q -> (pow b k <= r)%Q -> (r < pow b (k + 1))%Q -> j = k.
Proof.
  intros Hb H1 H2 H3 H4.
  assert (j < k + 1) by (apply (pow_lt_inv b); [done|]; lra).
  assert (k < j + 1) by (apply (pow_lt_inv b); [done|]; lra). lia.
Qed.

(** ** Rounding *)

Lemma round_even_close n d : 0 < d -> 2 * Z.abs (round_even n d * d - n) <= d.
Proof.
  intros Hd. unfold round_even. pose proof (Z.div_mod n d ltac:(lia)) as E. pose proof (Z.mod_pos_bound n d Hd) as Hr.
  cbv zeta. repeat case_if; nia.
Qed.

Lemma round_even_spec n d : 0 < d -> (frac n d - (1#2) <= inject_Z (round_even n d) <= frac n d + (1#2))%Q.
Proof.
  intros Hd. pose proof (round_even_close n d Hd) as H. set (q := round_even n d) in *.
  pose proof (frac_ge (2 * n + d) d (2 * q) Hd) as [H1 _]. pose proof (frac_ge (2 * n - d) d (2 * q) Hd) as H2.
  assert (frac (2 * n + d) d == 2 * frac n d + 1)%Q as E1.
  { unfold frac. rewrite inject_Z_plus, inject_Z_mult. field. by apply base_ne. }
  assert (frac (2 * q * d + d) d == 2 * inject_Z q + 1)%Q as E2.
  { unfold frac. rewrite inject_Z_plus, !inject_Z_mult. field. by apply base_ne. }
  assert (inject_Z (2 * q) <= frac (2 * n + d) d)%Q as G1 by (apply H1; lia).
  assert (frac (2 * n) d <= frac (2 * q * d + d) d)%Q as G2.
  { unfold frac, Qdiv. apply Qmult_le_compat_r; [rewrite <- Zle_Qle; lia|]. apply Qlt_le_weak, Qinv_lt_0_compat. by apply inject_pos. }
  assert (frac (2 * n) d == 2 * frac n d)%Q as E3 by (unfold frac; rewrite inject_Z_mult; field; by apply base_ne).
  rewrite inject_Z_mult in G1. rewrite E1 in G1. rewrite E2, E3 in G2. change (inject_Z 2) with 2%Q in *. lra.
Qed.

(** The nearest integer is unique when the distance is less than a half. *)
Lemma round_even_unique n d z : 0 < d -> (frac n d - (1#2) < inject_Z z < frac n d + (1#2))%Q -> round_even n d = z.
Proof.
  intros Hd Hz. pose proof (round_even_spec n d Hd) as Hq. set (q := round_even n d) in *.
  assert (inject_Z (q - z) < 1)%Q as H1 by (rewrite inject_sub; lra).
  assert (inject_Z (z - q) < 1)%Q as H2 by (rewrite inject_sub; lra).
  apply (inject_lt _ 1) in H1, H2. lia.
Qed.

(** Division by a power, with the power on the side where it is an integer. *)
Definition scale (b n d k : Z) : Z * Z := if 0 <=? k then (n, d * b ^ k) else (n * b ^ (- k), d).

Lemma scale_spec b n d k : 1 < b -> 0 < d -> let '(n', d') := scale b n d k in 0 < d' /\ (frac n' d' == frac n d / pow b k)%Q.
Proof.
  intros Hb Hd. unfold scale, frac. case_if.
  - pose proof (Z.pow_pos_nonneg b k ltac:(lia) ltac:(lia)) as Hp. split; [nia|]. rewrite inject_Z_mult, <- pow_Z by lia.
    field. split; first [by apply pow_ne; lia|by apply base_ne; lia].
  - split; [done|]. rewrite inject_Z_mult, <- pow_Z, Qpower_opp by lia. field. split; first [by apply pow_ne; lia|by apply base_ne; lia].
Qed.

(** ** Exponents *)

Lemma log2_frac n d : 0 < n -> 0 < d -> let k := Z.log2 n - Z.log2 d in (pow 2 (k - 1) < frac n d < pow 2 (k + 1))%Q.
Proof.
  intros Hn Hd k. pose proof (Z.log2_spec n Hn) as [N1 N2]. pose proof (Z.log2_spec d Hd) as [D1 D2].
  pose proof (Z.log2_nonneg n) as Ln. pose proof (Z.log2_nonneg d) as Ld.
  rewrite Zle_Qle, <- pow_Z in N1, D1 by lia. rewrite Zlt_Qlt, <- pow_Z in N2, D2 by lia.
  pose proof (inject_pos d Hd) as Pd. pose proof (pow_pos 2 (Z.log2 d) ltac:(lia)) as Pb.
  assert (pow 2 (k - 1) * pow 2 (Z.succ (Z.log2 d)) == pow 2 (Z.log2 n))%Q as E1.
  { rewrite <- pow_add by lia. f_equiv. unfold k. lia. }
  assert (pow 2 (k + 1) * pow 2 (Z.log2 d) == pow 2 (Z.succ (Z.log2 n)))%Q as E2.
  { rewrite <- pow_add by lia. f_equiv. unfold k. lia. }
  pose proof (pow_pos 2 (k - 1) ltac:(lia)). pose proof (pow_pos 2 (k + 1) ltac:(lia)). unfold frac. split.
  - apply Qlt_shift_div_l; [done|]. eapply Qlt_le_trans; [|exact N1]. rewrite <- E1. by apply Qmult_lt_l.
  - apply Qlt_shift_div_r; [done|]. eapply Qlt_le_trans; [exact N2|]. rewrite <- E2. by apply Qmult_le_l.
Qed.

Lemma leading_bit_spec n d : 0 < n -> 0 < d -> (pow 2 (leading_bit n d) <= frac n d < pow 2 (leading_bit n d + 1))%Q.
Proof.
  intros Hn Hd. unfold leading_bit. set (k := Z.log2 n - Z.log2 d).
  pose proof (log2_frac n d Hn Hd) as [H1 H2]. fold k in H1, H2. cbv zeta.
  set (reached := if 0 <=? k then _ else _).
  assert (reached = true <-> (pow 2 k <= frac n d)%Q) as Hr.
  { pose proof (scale_spec 2 n d k ltac:(lia) Hd) as Hs. unfold scale in Hs. subst reached.
    assert (forall n' d', 0 < d' -> (frac n' d' == frac n d / pow 2 k)%Q -> (d' <=? n') = true <-> (pow 2 k <= frac n d)%Q) as G.
    { intros n' d' Hd' E. pose proof (pow_pos 2 k ltac:(lia)) as Pk. rewrite Z.leb_le, <- (Z.mul_1_l d') at 1. rewrite frac_ge, E by done.
      split; intros H.
      - apply (Qmult_le_compat_r _ _ (pow 2 k)) in H; [|lra]. rewrite Qmult_1_l in H.
        assert (frac n d / pow 2 k * pow 2 k == frac n d)%Q as E' by (field; by apply pow_ne). by rewrite E' in H.
      - apply Qle_shift_div_l; [done|]. by rewrite Qmult_1_l. }
    case_if; destruct Hs as [Hd' E]; by apply G. }
  destruct reached.
  - split; [by apply Hr|done].
  - split; [lra|]. replace (k - 1 + 1) with k by lia. apply Qnot_le_lt. intros H. by apply Hr in H.
Qed.

Lemma binary_exponent_spec n d : 0 < n -> 0 < d ->
  exists k, (pow 2 k <= frac n d < pow 2 (k + 1))%Q /\ binary_exponent n d = Z.max (k - 52) (-1074).
Proof. intros Hn Hd. exists (leading_bit n d). split; [by apply leading_bit_spec|done]. Qed.

(** The loops of the decimal exponent find it when the fuel covers the range. *)
Lemma frac_10 n d : 0 < d -> (frac n (d * 10) * 10 == frac n d)%Q /\ (frac (n * 10) d == frac n d * 10)%Q.
Proof. intros Hd. unfold frac. rewrite !inject_Z_mult. change (inject_Z 10) with 10%Q. split; field; try by apply base_ne. Qed.

Lemma exponent_up_spec fuel : forall n d x, 0 < d -> (1 <= frac n d)%Q -> (frac n d < pow 10 (Z.of_nat fuel))%Q ->
  exists y, exponent_up fuel n d x = x + y /\ (pow 10 y <= frac n d < pow 10 (y + 1))%Q.
Proof.
  induction fuel as [|fuel IH]; intros n d x Hd H1 H2; cbn [exponent_up].
  { change (pow 10 (Z.of_nat 0)) with 1%Q in H2. lra. }
  destruct (frac_10 n d Hd) as [E10 _]. case_if.
  - exists 0. split; [lia|]. split; [exact H1|]. apply (frac_lt n d 10 Hd). lia.
  - destruct (IH n (d * 10) (x + 1)) as (y & -> & Hy); [lia|..].
    + assert (inject_Z 10 <= frac n d)%Q as H by (apply (frac_ge n d 10 Hd); lia). change (inject_Z 10) with 10%Q in H. lra.
    + rewrite Nat2Z.inj_succ in H2. unfold Z.succ in H2. rewrite pow_add in H2 by lia. change (pow 10 1) with 10%Q in H2. lra.
    + exists (y + 1). split; [lia|]. rewrite !pow_add in * by lia. change (pow 10 1) with 10%Q in *. lra.
Qed.

Lemma exponent_down_spec fuel : forall n d x, 0 < d -> (frac n d < 10)%Q -> (1 <= frac n d * pow 10 (Z.of_nat fuel))%Q ->
  exists y, exponent_down fuel n d x = x + y /\ (pow 10 y <= frac n d < pow 10 (y + 1))%Q.
Proof.
  induction fuel as [|fuel IH]; intros n d x Hd H1 H2; cbn [exponent_down].
  { exists 0. change (pow 10 (Z.of_nat 0)) with 1%Q in H2. split; [lia|]. change (pow 10 0) with 1%Q. change (pow 10 (0 + 1)) with 10%Q. lra. }
  destruct (frac_10 n d Hd) as [_ E10]. case_if.
  - exists 0. split; [lia|]. change (pow 10 0) with 1%Q. change (pow 10 (0 + 1)) with 10%Q. split; [|done].
    apply (frac_ge n d 1 Hd). lia.
  - assert (frac n d < 1)%Q as Hlt by (apply (frac_lt n d 1 Hd); lia).
    destruct (IH (n * 10) d (x - 1)) as (y & -> & Hy); [done|..].
    + rewrite E10. lra.
    + rewrite E10. rewrite Nat2Z.inj_succ in H2. unfold Z.succ in H2. rewrite pow_add in H2 by lia. change (pow 10 1) with 10%Q in H2. lra.
    + exists (y - 1). split; [lia|]. rewrite E10 in Hy. replace y with (y - 1 + 1) in Hy by lia.
      rewrite !(pow_add 10 (y - 1 + 1)) in Hy by lia. rewrite !(pow_add 10 (y - 1)) in Hy |- * by lia. change (pow 10 1) with 10%Q in *. lra.
Qed.

Lemma decimal_exponent_spec n d : 0 < d -> (pow 10 (-400) <= frac n d < pow 10 400)%Q ->
  (pow 10 (decimal_exponent n d) <= frac n d < pow 10 (decimal_exponent n d + 1))%Q.
Proof.
  intros Hd [H1 H2]. unfold decimal_exponent. case_if.
  - destruct (exponent_up_spec 400 n d 0 Hd) as (y & -> & Hy); [apply (frac_ge n d 1 Hd); lia|done|]. by rewrite Z.add_0_l.
  - assert (frac n d < 1)%Q as Hlt by (apply (frac_lt n d 1 Hd); lia).
    destruct (exponent_down_spec 400 n d 0 Hd) as (y & -> & Hy); [lra| |by rewrite Z.add_0_l].
    change (Z.of_nat 400) with 400. pose proof (pow_pos 10 400 ltac:(lia)).
    apply (Qmult_le_compat_r _ _ (pow 10 400)) in H1; [|lra]. rewrite <- pow_add in H1 by lia. exact H1.
Qed.

(** ** Printing *)

Lemma scale_mul b n d k : 1 < b -> 0 < d -> let '(n', d') := scale b n d k in 0 < d' /\ (frac n' d' * pow b k == frac n d)%Q.
Proof.
  intros Hb Hd. pose proof (scale_spec b n d k Hb Hd) as H. destruct (scale b n d k) as [n' d']. destruct H as [Hd' E].
  split; [done|]. rewrite E. field. apply pow_ne. lia.
Qed.

(** The digits and the exponent: the number they stand for is within half a unit of the last
    place, and the unit is small against the number. *)
Lemma significant_spec p n d : 0 <= p -> 0 < n -> 0 < d -> (pow 10 (-400) <= frac n d < pow 10 400)%Q ->
  let '(q, x) := significant p n d in
  10 ^ p <= q < 10 ^ (p + 1) /\ decimal_exponent n d <= x <= decimal_exponent n d + 1
  /\ exists u, (0 < u)%Q /\ (inject_Z (10 ^ p) * u <= frac n d)%Q
     /\ (frac n d - (1#2) * u <= inject_Z q * pow 10 (x - p) <= frac n d + (1#2) * u)%Q.
Proof.
  intros Hp Hn Hd Hr. unfold significant. set (x := decimal_exponent n d). pose proof (decimal_exponent_spec n d Hd Hr) as [X1 X2]. fold x in X1, X2.
  set (u := pow 10 (x - p)). assert (0 < u)%Q as Hu by (apply pow_pos; lia).
  assert (pow 10 x == inject_Z (10 ^ p) * u)%Q as Ex.
  { unfold u. rewrite <- pow_Z by lia. rewrite <- pow_add by lia. f_equiv. lia. }
  assert (pow 10 (x + 1) == inject_Z (10 ^ (p + 1)) * u)%Q as Ex1.
  { unfold u. rewrite <- pow_Z by lia. rewrite <- pow_add by lia. f_equiv. lia. }
  set (q := if p <=? x then _ else _).
  assert (frac n d - (1#2) * u <= inject_Z q * u <= frac n d + (1#2) * u)%Q as Hq.
  { pose proof (scale_mul 10 n d (x - p) ltac:(lia) Hd) as Hs. unfold scale in Hs. fold u in Hs. unfold q.
    assert (forall n' d', 0 < d' -> (frac n' d' * u == frac n d)%Q ->
      (frac n d - (1#2) * u <= inject_Z (round_even n' d') * u <= frac n d + (1#2) * u)%Q) as G.
    { intros n' d' Hd' <-. pose proof (round_even_spec n' d' Hd') as [R1 R2].
      apply (Qmult_le_compat_r _ _ u) in R1, R2; lra. }
    destruct (Z.leb_spec p x); destruct (Z.leb_spec 0 (x - p)); try lia; destruct Hs as [Hd' E]; [|replace (- (x - p)) with (p - x) in * by lia];
      by apply G. }
  assert (10 ^ p <= q <= 10 ^ (p + 1)) as [Q1 Q2].
  { assert (inject_Z (10 ^ p - q) * u < 1 * u)%Q as L1 by (rewrite inject_sub; lra).
    assert (inject_Z (q - 10 ^ (p + 1)) * u < 1 * u)%Q as L2 by (rewrite inject_sub; lra).
    apply (proj1 (Qmult_lt_r _ _ u Hu)) in L1, L2. apply (inject_lt _ 1) in L1, L2. lia. }
  assert (inject_Z (10 ^ p) * u <= frac n d)%Q as Hbig by lra.
  destruct (Z.eqb_spec q (10 ^ (p + 1))) as [E|E].
  - split; [split; [done|]; apply Z.pow_lt_mono_r; lia|]. split; [lia|]. exists u. split_and!; [done|done|..];
      assert (inject_Z (10 ^ p) * pow 10 (x + 1 - p) == inject_Z q * u)%Q as -> by
        (unfold u; rewrite E, <- !pow_Z by lia; rewrite <- !pow_add by lia; f_equiv; lia); apply Hq.
  - split; [lia|]. split; [lia|]. exists u. by split_and!; try apply Hq.
Qed.

(** ** Reading *)

(** The integer that [nearest] rounds to at an exponent [e]. *)
Definition at_exponent (n d e : Z) : Z := if 0 <=? e then round_even n (d * 2 ^ e) else round_even (n * 2 ^ (- e)) d.

Lemma at_exponent_spec n d e : 0 < d ->
  (frac n d - (1#2) * pow 2 e <= inject_Z (at_exponent n d e) * pow 2 e <= frac n d + (1#2) * pow 2 e)%Q.
Proof.
  intros Hd. unfold at_exponent. pose proof (scale_mul 2 n d e ltac:(lia) Hd) as Hs. unfold scale in Hs.
  pose proof (pow_pos 2 e ltac:(lia)) as Pe.
  assert (forall n' d', 0 < d' -> (frac n' d' * pow 2 e == frac n d)%Q ->
    (frac n d - (1#2) * pow 2 e <= inject_Z (round_even n' d') * pow 2 e <= frac n d + (1#2) * pow 2 e)%Q) as G.
  { intros n' d' Hd' <-. pose proof (round_even_spec n' d' Hd') as [R1 R2]. apply (Qmult_le_compat_r _ _ (pow 2 e)) in R1, R2; lra. }
  destruct (0 <=? e); destruct Hs as [Hd' E]; by apply G.
Qed.

(** The integer nearest to a number less than a half away is that one. *)
Lemma at_exponent_close n d e z : 0 < d ->
  (inject_Z z * pow 2 e - (1#2) * pow 2 e < frac n d < inject_Z z * pow 2 e + (1#2) * pow 2 e)%Q -> at_exponent n d e = z.
Proof.
  intros Hd [H1 H2]. pose proof (at_exponent_spec n d e Hd) as [H3 H4]. set (q := at_exponent n d e) in *.
  pose proof (pow_pos 2 e ltac:(lia)) as Pe.
  assert (inject_Z (q - z) * pow 2 e < 1 * pow 2 e)%Q as L1 by (rewrite inject_sub; lra).
  assert (inject_Z (z - q) * pow 2 e < 1 * pow 2 e)%Q as L2 by (rewrite inject_sub; lra).
  apply (proj1 (Qmult_lt_r _ _ _ Pe)) in L1, L2. apply (inject_lt _ 1) in L1, L2. lia.
Qed.

(** The mantissas and exponents of the positive doubles, each of which has one of them:
    normal numbers have 53 bits, subnormal ones the least exponent. *)
Definition normalised (m e : Z) : Prop := 0 < m < 2 ^ 53 /\ -1074 <= e /\ (e = -1074 \/ 2 ^ 52 <= m).

Lemma pow_shift e j : 0 <= j -> (pow 2 (e + j) == inject_Z (2 ^ j) * pow 2 e)%Q.
Proof. intros Hj. rewrite <- pow_Z by done. rewrite <- pow_add by lia. f_equiv. lia. Qed.

(** What [nearest] finds is a normalised number, unless it is zero. *)
Lemma nearest_normalised n d : 0 < n -> 0 < d -> let '(m, e) := nearest n d in m = 0 \/ normalised m e.
Proof.
  intros Hn Hd. unfold nearest. fold (at_exponent n d (binary_exponent n d)).
  destruct (binary_exponent_spec n d Hn Hd) as (k & [K1 K2] & Ek). set (e := binary_exponent n d) in *.
  pose proof (at_exponent_spec n d e Hd) as [A1 A2]. set (q := at_exponent n d e) in *. pose proof (pow_pos 2 e ltac:(lia)) as Pe.
  assert (frac n d < inject_Z (2 ^ 53) * pow 2 e)%Q as U.
  { rewrite <- pow_shift by lia. eapply Qlt_le_trans; [exact K2|]. apply pow_le; lia. }
  assert (-1 < q <= 2 ^ 53) as [Q1 Q2].
  { pose proof (frac_pos n d Hn Hd).
    assert (inject_Z (-1) * pow 2 e < inject_Z q * pow 2 e)%Q as L1 by (change (inject_Z (-1)) with (-1)%Q; lra).
    assert (inject_Z (q - 2 ^ 53) * pow 2 e < 1 * pow 2 e)%Q as L2 by (rewrite inject_sub; lra).
    apply (proj1 (Qmult_lt_r _ _ _ Pe)) in L1, L2. apply (inject_lt _ _) in L1. apply (inject_lt _ 1) in L2. lia. }
  destruct (Z.eqb_spec q (2 ^ 53)) as [E|E].
  { right. split_and!; try lia. }
  destruct (Z.eq_dec q 0) as [|Hq0]; [by left|]. right. split_and!; [lia..|].
  destruct (Z.eq_dec e (-1074)) as [|He]; [by left|right]. assert (e = k - 52) as Ee by lia.
  assert (inject_Z (2 ^ 52) * pow 2 e <= frac n d)%Q as L.
  { rewrite <- pow_shift by lia. by replace (e + 52) with k by lia. }
  assert (inject_Z (2 ^ 52 - q) * pow 2 e < 1 * pow 2 e)%Q as L1 by (rewrite inject_sub; lra).
  apply (proj1 (Qmult_lt_r _ _ _ Pe)) in L1. apply (inject_lt _ 1) in L1. lia.
Qed.

(** The double nearest to a fraction that is close to a double is that double; below a power
    of two the doubles are twice as dense. *)
Lemma nearest_close n d m e : 0 < n -> 0 < d -> normalised m e ->
  (inject_Z m * pow 2 e - (1#2) * pow 2 e < frac n d < inject_Z m * pow 2 e + (1#2) * pow 2 e)%Q ->
  (m = 2 ^ 52 -> (inject_Z m * pow 2 e - (1#4) * pow 2 e < frac n d)%Q) ->
  nearest n d = (m, e).
Proof.
  intros Hn Hd (Hm & He & Hc) [F1 F2] F3. destruct (binary_exponent_spec n d Hn Hd) as (k & [K1 K2] & Ek).
  pose proof (pow_pos 2 e ltac:(lia)) as Pe. unfold nearest. fold (at_exponent n d (binary_exponent n d)).
  assert (binary_exponent n d = e -> (if at_exponent n d (binary_exponent n d) =? 2 ^ 53 then (2 ^ 52, binary_exponent n d + 1)
    else (at_exponent n d (binary_exponent n d), binary_exponent n d)) = (m, e)) as Same.
  { intros ->. rewrite (at_exponent_close n d e m) by done. by destruct (Z.eqb_spec m (2 ^ 53)); [lia|]. }
  assert (inject_Z m + 1 <= inject_Z (2 ^ 53))%Q as Hm53.
  { change 1%Q with (inject_Z 1). rewrite <- inject_Z_plus, <- Zle_Qle. lia. }
  assert (k < e + 53) as Hk1.
  { apply (pow_lt_inv 2); [lia|]. rewrite pow_shift by lia. apply (Qmult_le_compat_r _ _ (pow 2 e)) in Hm53; lra. }
  destruct (Qlt_le_dec (frac n d) (pow 2 (e + 52))) as [Hlow|Hhigh].
  2: { assert (e + 52 < k + 1) as Hk2 by (apply (pow_lt_inv 2); [lia|]; lra). apply Same. lia. }
  assert (k < e + 52) as Hk2 by (apply (pow_lt_inv 2); [lia|]; lra).
  destruct (Z.eq_dec e (-1074)) as [Ee|Hne]; [apply Same; lia|]. destruct Hc as [|Hc]; [done|]. rewrite pow_shift in Hlow by lia.
  assert (m = 2 ^ 52) as Em.
  { assert ((inject_Z m - (1#2)) * pow 2 e < inject_Z (2 ^ 52) * pow 2 e)%Q as H by lra. apply (proj1 (Qmult_lt_r _ _ _ Pe)) in H.
    assert (inject_Z (m - 2 ^ 52) < 1)%Q as H' by (rewrite inject_sub; lra). apply (inject_lt _ 1) in H'. lia. }
  specialize (F3 Em). rewrite Em in *. change (inject_Z (2 ^ 52)) with (4503599627370496#1)%Q in *.
  assert (pow 2 e == 2 * pow 2 (e - 1))%Q as Eh by (replace e with (1 + (e - 1)) at 1 by lia; by rewrite pow_add by lia).
  assert (k = e + 51) as Ek51.
  { assert (e + 51 < k + 1); [|lia]. apply (pow_lt_inv 2); [lia|]. rewrite pow_shift by lia. change (inject_Z (2 ^ 51)) with (2251799813685248#1)%Q. lra. }
  assert (binary_exponent n d = e - 1) as -> by lia. rewrite (at_exponent_close n d (e - 1) (2 ^ 53)); [|done|].
  - rewrite Z.eqb_refl. f_equal. lia.
  - change (inject_Z (2 ^ 53)) with (9007199254740992#1)%Q. lra.
Qed.

(** ** The text of a number *)

Abbreviation digits := (Forall (fun b => is_digit b = true)).

(** A sign, digits, a fraction unless it is empty, an exponent if there is one. *)
Definition point (f : list byte) : list byte := match f with [] => [] | _ => bs "." ++ f end.
Definition ex (y : option Z) : list byte := match y with Some y => exponent_text y | None => [] end.
Definition text (neg : bool) (whole f : list byte) (y : option Z) : list byte :=
  (if neg then bs "-" else []) ++ whole ++ point f ++ ex y.

Lemma digit_byte_ok v : is_digit (Z_byte (v mod 10 + 48)) = true /\ digit_val (Z_byte (v mod 10 + 48)) = v mod 10.
Proof.
  pose proof (Z.mod_pos_bound v 10 ltac:(lia)). unfold is_digit, digit_val. rewrite byte_Z_Z_byte, (Z.mod_small (_ + 48)) by lia.
  split; [|lia]. apply andb_true_iff. rewrite !Z.leb_le. lia.
Qed.

Lemma number_of_app a b : number_of (a ++ b) = number_of a * 10 ^ zlen b + number_of b.
Proof.
  induction b as [|c b IH] using rev_ind; [rewrite app_nil_r; unfold number_of, zlen; cbn; lia|].
  unfold number_of in *. rewrite app_assoc, !(foldl_app _ _ [c]). cbn [foldl]. rewrite IH, zlen_app. change (zlen [c]) with 1.
  rewrite Z.pow_add_r by (try apply zlen_nonneg; lia). lia.
Qed.

Lemma decimal_digits_spec k : forall v, 0 <= v ->
  digits (decimal_digits k v) /\ length (decimal_digits k v) = k /\ number_of (decimal_digits k v) = v mod 10 ^ Z.of_nat k.
Proof.
  induction k as [|k IH]; intros v Hv; cbn [decimal_digits].
  { split_and!; [constructor|done|]. by rewrite Z.mod_1_r. }
  destruct (IH (v / 10)) as (Hd & Hl & Hn); [apply Z.div_pos; lia|]. destruct (digit_byte_ok v) as [D1 D2].
  split_and!; [apply Forall_app; split; [done|by constructor]|rewrite length_app, Hl; cbn; lia|].
  rewrite number_of_app, Hn. change (zlen [_]) with 1. unfold number_of. cbn [foldl]. rewrite D2.
  rewrite Nat2Z.inj_succ, Z.pow_succ_r by lia. rewrite (Z.rem_mul_r v 10) by (try apply Z.pow_nonzero; lia). lia.
Qed.

Lemma strip_zeros_rev_spec l : exists j, l = replicate j Byte.x30 ++ strip_zeros_rev l.
Proof. induction l as [|b l [j E]]; [by exists O|]. cbn. case_bool_decide as Eb; [exists (S j); cbn; by rewrite <- E, Eb|by exists O]. Qed.

Lemma rev_zeros j : rev (replicate j Byte.x30) = replicate j Byte.x30.
Proof. induction j as [|j IH]; [done|]. cbn [replicate rev]. rewrite IH. symmetry. apply replicate_S_end. Qed.

Lemma strip_zeros_spec l : exists j, l = strip_zeros l ++ replicate j Byte.x30.
Proof.
  unfold strip_zeros. destruct (strip_zeros_rev_spec (rev l)) as [j E]. exists j.
  rewrite <- (rev_involutive l) at 1. rewrite E at 1. by rewrite rev_app_distr, rev_zeros.
Qed.

Lemma number_of_zeros j : number_of (replicate j Byte.x30) = 0.
Proof. induction j as [|j IH]; [done|]. unfold number_of in *. exact IH. Qed.

(** Stripping zeros divides by a power of ten. *)
Lemma number_of_strip w r : digits r ->
  digits (strip_zeros r) /\ zlen (strip_zeros r) <= zlen r
  /\ number_of (w ++ r) = number_of (w ++ strip_zeros r) * 10 ^ (zlen r - zlen (strip_zeros r)).
Proof.
  intros Hr. destruct (strip_zeros_spec r) as [j E]. set (f := strip_zeros r) in *.
  assert (zlen r = zlen f + Z.of_nat j) as El by (rewrite E, zlen_app; unfold zlen at 2; by rewrite length_replicate).
  split_and!; [|lia|].
  - rewrite E in Hr. by apply Forall_app in Hr as [? _].
  - rewrite E at 1. rewrite app_assoc, (number_of_app (w ++ f)), number_of_zeros. rewrite El.
    assert (zlen (replicate j Byte.x30) = Z.of_nat j) as -> by (unfold zlen; by rewrite length_replicate).
    replace (zlen f + Z.of_nat j - zlen f) with (Z.of_nat j) by lia. lia.
Qed.

(** *** What [strtod] makes of it *)

Lemma digits_of_app d rest : digits d -> (match rest with c :: _ => is_digit c = false | [] => True end) -> digits_of (d ++ rest) = (d, rest).
Proof.
  intros Hd Hr. induction Hd as [|b d Hb _ IH]; cbn [app digits_of].
  - destruct rest as [|c rest]; [done|]. cbn. by rewrite Hr.
  - by rewrite Hb, IH.
Qed.

Lemma exponent_digits y : Z.abs y < 1000 -> exists e, digits e /\ e <> [] /\ number_of e = Z.abs y
  /\ exponent_text y = Byte.x65 :: (if y <? 0 then Byte.x2d else Byte.x2b) :: e.
Proof.
  intros Hy. unfold exponent_text. cbv zeta. eexists. split_and!; [| | |by case_if].
  - by apply decimal_digits_spec, Z.abs_nonneg.
  - intros E. apply (f_equal length) in E. rewrite (proj1 (proj2 (decimal_digits_spec _ _ (Z.abs_nonneg y)))) in E. by destruct (_ <? 100).
  - rewrite (proj2 (proj2 (decimal_digits_spec _ _ (Z.abs_nonneg y)))). apply Z.mod_small. split; [lia|]. case_if; cbn; lia.
Qed.

Lemma digit_not_sign b : is_digit b = true -> b <> Byte.x2d /\ b <> Byte.x2b.
Proof. intros H. split; by intros ->. Qed.

Lemma literal_text neg whole f y : digits whole -> whole <> [] -> digits f -> (match y with Some y => Z.abs y < 1000 | None => True end) ->
  literal (text neg whole f y) = Some (mkDecimal neg (number_of (whole ++ f)) (default 0 y - zlen f)).
Proof.
  intros Hw Hne Hf Hy. unfold text. set (tail := point f ++ ex y).
  assert (digits_of (whole ++ tail) = (whole, tail)) as Ew.
  { apply digits_of_app; [done|]. unfold tail, point, ex. destruct f; cbn; [|done]. by destruct y. }
  assert (match tail with
          | b :: l' => if bool_decide (b = Byte.x2e) then digits_of l' else ([], tail)
          | [] => ([], [])
          end = (f, ex y)) as Et.
  { unfold tail, point. destruct f as [|c f]; [by destruct y|]. cbn [app bs].
    change (digits_of ((c :: f) ++ ex y) = (c :: f, ex y)). apply digits_of_app; [done|]. by destruct y. }
  unfold literal. destruct whole as [|w whole]; [done|]. inversion Hw as [|? ? Hw1 _]; subst. destruct (digit_not_sign w Hw1) as [N1 N2].
  assert ((match (if neg then bs "-" else []) ++ (w :: whole) ++ tail with
           | b :: l' => if bool_decide (b = Byte.x2d) then (true, l')
                        else if bool_decide (b = Byte.x2b) then (false, l') else (false, (if neg then bs "-" else []) ++ (w :: whole) ++ tail)
           | [] => (false, [])
           end) = (neg, (w :: whole) ++ tail)) as ->.
  { destruct neg; cbn [app]; [done|]. by rewrite !bool_decide_eq_false_2. }
  rewrite Ew, Et. rewrite bool_decide_eq_false_2 by done. destruct y as [y|]; cbn [ex from_option]; [|done].
  destruct (exponent_digits y Hy) as (e & He & Hen & Ev & ->). cbn [bool_decide orb].
  assert (digits_of e = (e, [])) as Ee by (rewrite <- (app_nil_r e) at 1; by apply digits_of_app).
  change (bool_decide (Byte.x65 = Byte.x65)) with true. cbn [orb].
  destruct (Z.ltb_spec y 0); cbn [bool_decide];
    [change (bool_decide (Byte.x2d = Byte.x2d)) with true
    |change (bool_decide (Byte.x2b = Byte.x2d)) with false; change (bool_decide (Byte.x2b = Byte.x2b)) with true];
    cbv iota beta; rewrite Ee, bool_decide_eq_false_2 by done; unfold default; do 2 f_equal; cbn; lia.
Qed.

(** *** What [%.17g] prints *)

(** The number a text stands for. *)
Definition text_value (whole f : list byte) (y : option Z) : Q := (inject_Z (number_of (whole ++ f)) * pow 10 (default 0 y - zlen f)%Z)%Q.

Definition well_formed (whole f : list byte) (y : option Z) : Prop :=
  digits whole /\ whole <> [] /\ digits f /\ (match y with Some y => Z.abs y < 1000 | None => True end).

Lemma fraction_point l : fraction l = point (strip_zeros l).
Proof. unfold fraction, point. by destruct (strip_zeros l). Qed.

Lemma strip_value w r y : digits r -> (text_value w (strip_zeros r) y == text_value w r y)%Q.
Proof.
  intros Hr. destruct (number_of_strip w r Hr) as (_ & Hl & E). unfold text_value. rewrite E, inject_Z_mult, <- pow_Z by lia.
  rewrite <- Qmult_assoc, <- pow_add by lia. do 2 f_equiv. lia.
Qed.

Lemma g_text_shape p n d : 0 <= p -> let '(q, x) := significant p n d in
  0 <= q < 10 ^ (p + 1) -> Z.abs x < 1000 ->
  exists whole f y, g_text p n d = text false whole f y /\ well_formed whole f y
    /\ (text_value whole f y == inject_Z q * pow 10 (x - p))%Q.
Proof.
  intros Hp. unfold g_text. destruct (significant p n d) as [q x]. intros Hq Hx.
  destruct (decimal_digits_spec (Z.to_nat (p + 1)) q ltac:(lia)) as (Hd & Hl & Hn). set (ds := decimal_digits _ q) in *.
  rewrite Z2Nat.id, Z.mod_small in Hn by lia.
  assert (forall w r y, digits w -> w <> [] -> digits r -> (match y with Some y => Z.abs y < 1000 | None => True end) ->
    number_of (w ++ r) = q -> default 0 y - zlen r = x - p ->
    exists whole f y', w ++ fraction r ++ ex y = text false whole f y' /\ well_formed whole f y'
      /\ (text_value whole f y' == inject_Z q * pow 10 (x - p))%Q) as G.
  { intros w r y Hw Hne Hr Hy Eq Ey. exists w, (strip_zeros r), y. split; [by rewrite fraction_point|].
    split; [split_and!; try done; by apply (number_of_strip w r)|]. rewrite strip_value by done. unfold text_value. by rewrite Eq, Ey. }
  assert (forall k, (0 < k)%nat -> (k <= length ds)%nat -> digits (take k ds) /\ take k ds <> [] /\ digits (drop k ds)) as T.
  { intros k Hk Hk'. split_and!; [by apply Forall_take| |by apply Forall_drop].
    intros E. apply (f_equal length) in E. rewrite length_take in E. cbn in E. lia. }
  destruct ((x <? -4) || (p + 1 <=? x)) eqn:Es.
  - destruct (T 1%nat) as (T1 & T2 & T3); [lia..|]. apply (G _ _ (Some x)); try done; [by rewrite take_drop|].
    cbn. unfold zlen. rewrite length_drop. lia.
  - apply orb_false_iff in Es as [E1%Z.ltb_ge E2%Z.leb_gt]. destruct (Z.leb_spec 0 x).
    + destruct (T (Z.to_nat x + 1)%nat) as (T1 & T2 & T3); [lia..|]. rewrite <- (app_nil_r (fraction _)). apply (G _ _ None); try done; [by rewrite take_drop|].
      cbn. unfold zlen. rewrite length_drop. lia.
    + rewrite <- (app_nil_r (fraction _)). apply (G _ _ None); try done.
      * by constructor.
      * apply Forall_app. split; [by apply Forall_replicate|done].
      * rewrite !number_of_app, number_of_zeros. change (number_of (bs "0")) with 0. lia.
      * cbn. rewrite zlen_app. unfold zlen. rewrite length_replicate. lia.
Qed.

Lemma text_no_comma neg whole f y : well_formed whole f y -> fixNumericLocale (text neg whole f y) = text neg whole f y.
Proof.
  intros (Hw & _ & Hf & Hy). unfold fixNumericLocale.
  assert (forall l, digits l -> Forall (fun b => b <> Byte.x2c) l) as D by (intros l Hl; eapply Forall_impl; [exact Hl|]; by intros ? ? ->).
  assert (Forall (fun b => b <> Byte.x2c) (text neg whole f y)) as H.
  { unfold text. repeat (apply Forall_app; split).
    - destruct neg; repeat constructor. done.
    - by apply D.
    - unfold point. destruct f; [constructor|]. by constructor; [|apply D].
    - destruct y as [y|]; [|constructor]. cbn [ex]. destruct (exponent_digits y Hy) as (e & He & _ & _ & ->).
      constructor; [done|]. constructor; [by destruct (y <? 0)|by apply D]. }
  induction H as [|b l Hb _ IH]; cbn; [done|]. by rewrite IH, bool_decide_eq_false_2.
Qed.

(** A text that shows neither point nor exponent is given a fraction of zero. *)
Definition marked (f : list byte) (y : option Z) : Prop := f <> [] \/ is_Some y.

Lemma mark_text neg whole f y : well_formed whole f y ->
  exists f', (if existsb (fun b => bool_decide (b = Byte.x2e) || bool_decide (b = Byte.x65)) (text neg whole f y)
    then text neg whole f y else text neg whole f y ++ bs ".0") = text neg whole f' y
    /\ well_formed whole f' y /\ marked f' y /\ (text_value whole f' y == text_value whole f y)%Q.
Proof.
  intros (Hw & Hne & Hf & Hy). set (P := fun b => _ || _).
  assert (forall l, digits l -> existsb P l = false) as D.
  { intros l Hl. induction Hl as [|b l Hb _ IH]; [done|]. cbn. rewrite IH, orb_false_r. unfold P.
    rewrite !bool_decide_eq_false_2; [done|by intros ->..]. }
  assert (existsb P (if neg then bs "-" else []) = false) as N by by destruct neg.
  unfold text. rewrite !existsb_app, N, (D whole Hw). cbn [orb].
  destruct f as [|c f]; [destruct y as [y|]|].
  - exists []. cbn [point ex]. change (existsb P (exponent_text y)) with true. cbn [existsb orb].
    split_and!; [done|done|right; eauto|done].
  - exists (bs "0"). cbn [point ex existsb orb]. rewrite <- !app_assoc. split_and!; [done|split_and!; try done; by constructor|by left|].
    unfold text_value. rewrite number_of_app, app_nil_r. cbn [from_option default]. change (number_of (bs "0")) with 0. change (zlen (bs "0")) with 1.
    rewrite Z.add_0_r, inject_Z_mult. change (0 - 1) with (-1). change (zlen []) with 0. change (pow 10 (-1)) with (1#10)%Q. change (pow 10 (0 - 0)) with 1%Q. change (inject_Z (10 ^ 1)) with 10%Q. field.
  - exists (c :: f). cbn [point]. change (existsb P (bs "." ++ c :: f)) with true. cbn [orb]. split_and!; [done|done|by left|done].
Qed.

(** ** Doubles *)

(** Every finite double has exactly one such representation. *)
Definition canonical (v : double) : Prop := (mant v = 0 /\ expo v = 0) \/ (normalised (mant v) (expo v) /\ expo v <= 971).

(** *** Their size *)

(** The absolute value of a double, and half a unit around a number. *)
Definition magnitude (v : double) : Q := (inject_Z (mant v) * pow 2 (expo v))%Q.

Definition within (u a x : Q) : Prop := (a - (1#2) * u <= x <= a + (1#2) * u)%Q.

Lemma ratio_spec v : 0 <= mant v -> let '(n, d) := ratio v in
  0 < d /\ (mant v = 0 <-> n = 0) /\ 0 <= n /\ (frac n d == inject_Z (mant v) * pow 2 (expo v))%Q.
Proof.
  intros Hm. unfold ratio, frac. destruct (Z.leb_spec 0 (expo v)) as [He|He].
  - pose proof (Z.pow_pos_nonneg 2 (expo v) ltac:(lia) He). split_and!; [lia|nia|nia|]. rewrite inject_Z_mult, <- pow_Z by done. field.
  - pose proof (Z.pow_pos_nonneg 2 (- expo v) ltac:(lia) ltac:(lia)). split_and!; [done|done|done|].
    rewrite <- pow_Z, Qpower_opp by lia. field. by apply pow_ne.
Qed.

Lemma size_bounds m e : normalised m e -> e <= 971 -> (pow 2 (-1074) <= inject_Z m * pow 2 e < pow 2 1024)%Q.
Proof.
  intros (Hm & He & _) He'. pose proof (pow_pos 2 e ltac:(lia)) as Pe. split.
  - eapply Qle_trans; [apply (pow_le 2 _ e); lia|]. rewrite <- (Qmult_1_l (pow 2 e)) at 1. apply Qmult_le_compat_r; [|lra].
    change 1%Q with (inject_Z 1). rewrite <- Zle_Qle. lia.
  - eapply Qlt_le_trans; [|apply (pow_le 2 (e + 53)); lia]. rewrite pow_shift by lia. apply Qmult_lt_r; [done|]. apply (proj1 (inject_lt _ _)). lia.
Qed.

Lemma bounds_10_2 : (2 * pow 10 (-400) <= pow 2 (-1074))%Q /\ (2 * pow 2 1024 <= pow 10 400)%Q /\ (2 * pow 2 (-1200) <= pow 2 (-1074))%Q.
Proof. by vm_compute. Qed.

(** *** Reading finds the nearest double *)

(** The fraction a decimal literal stands for. *)
Definition literal_frac (m e : Z) : Z * Z := if 0 <=? e then (m * 10 ^ e, 1) else (m, 10 ^ (- e)).

Lemma literal_frac_spec m e : 0 < m -> let '(n, d) := literal_frac m e in 0 < n /\ 0 < d /\ (frac n d == inject_Z m * pow 10 e)%Q.
Proof.
  intros Hm. unfold literal_frac, frac. destruct (Z.leb_spec 0 e) as [He|He].
  - pose proof (Z.pow_pos_nonneg 10 e ltac:(lia) He). split_and!; [nia|done|]. rewrite inject_Z_mult, <- pow_Z by done. field.
  - pose proof (Z.pow_pos_nonneg 10 (- e) ltac:(lia) ltac:(lia)). split_and!; [done|done|].
    rewrite <- pow_Z, Qpower_opp by lia. field. by apply pow_ne.
Qed.

Definition in_range (m e : Z) : bool := (e <=? 400) && (-1200 <=? Z.log2 m + 1 + 3 * e).

Lemma read_double_literal l neg m e : literal l = Some (mkDecimal neg m e) -> m <> 0 -> in_range m e = true ->
  read_double l = let '(n, d) := literal_frac m e in let '(q, x) := nearest n d in
    if overflows q x then None else Some (mkDouble neg q (if q =? 0 then 0 else x)).
Proof.
  intros E Hm [H1%Z.leb_le H2%Z.leb_le]%andb_true_iff. unfold read_double, literal_frac. rewrite E.
  destruct (Z.eqb_spec m 0); [done|]. destruct (Z.ltb_spec 400 e); [lia|]. destruct (Z.ltb_spec (Z.log2 m + 1 + 3 * e) (-1200)); [lia|].
  by destruct (0 <=? e).
Qed.

(** A literal of the size of a double is in the range that is computed. *)
Lemma in_range_spec m e : 0 < m -> (pow 2 (-1200) <= inject_Z m * pow 10 e < pow 10 400)%Q -> in_range m e = true.
Proof.
  intros Hm [L U]. pose proof (pow_pos 10 e ltac:(lia)) as Pe. pose proof (Z.log2_spec m Hm) as [_ M]. pose proof (Z.log2_nonneg m).
  unfold in_range. apply andb_true_iff. rewrite !Z.leb_le. split.
  - assert (e < 400); [|lia]. apply (pow_lt_inv 10); [lia|]. eapply Qle_lt_trans; [|exact U].
    rewrite <- (Qmult_1_l (pow 10 e)) at 1. apply Qmult_le_compat_r; [|lra]. change 1%Q with (inject_Z 1). rewrite <- Zle_Qle. lia.
  - destruct (Z.le_gt_cases 0 e); [lia|]. assert (-1200 < Z.log2 m + 1 + 3 * e); [|lia]. apply (pow_lt_inv 2); [lia|]. eapply Qle_lt_trans; [exact L|].
    rewrite pow_add by lia. apply Qlt_le_trans with (pow 2 (Z.log2 m + 1) * pow 10 e)%Q.
    + apply Qmult_lt_r; [done|]. rewrite pow_Z by lia. by apply (proj1 (inject_lt _ _)).
    + apply Qmult_le_l; [apply pow_pos; lia|]. apply (Qle_trans _ (pow 8 e)).
      * replace e with (- (- e)) by lia. rewrite !(Qpower_opp _ (- e)). apply Qle_shift_inv_r; [apply pow_pos; lia|].
        rewrite Qmult_comm. apply Qle_shift_div_l; [apply pow_pos; lia|]. rewrite Qmult_1_l, !pow_Z, <- Zle_Qle by lia. apply Z.pow_le_mono_l. lia.
      * rewrite Qpower_mult. apply Qle_refl.
Qed.

(** *** Printing comes close *)

(** The text of a double: well formed, marked as a double, and off by at most half a unit of
    its last place. *)
Lemma print_text_with precision v : 1 <= precision -> normalised (mant v) (expo v) -> expo v <= 971 ->
  exists whole f y, valueToString_with precision true v = text (sign v) whole f y /\ well_formed whole f y /\ marked f y
    /\ exists u, (inject_Z (10 ^ (precision - 1)) * u <= inject_Z (mant v) * pow 2 (expo v))%Q /\ (0 < u)%Q
       /\ (inject_Z (mant v) * pow 2 (expo v) - (1#2) * u <= text_value whole f y <= inject_Z (mant v) * pow 2 (expo v) + (1#2) * u)%Q.
Proof.
  intros Hp Hv He. pose proof (size_bounds _ _ Hv He) as [B1 B2]. destruct bounds_10_2 as (T1 & T2 & _). destruct Hv as (Hm & _).
  pose proof (ratio_spec v ltac:(lia)) as R. unfold valueToString_with, printf_g. destruct (ratio v) as [n d].
  destruct R as (Hd & Hz & Hn & E). destruct (Z.eqb_spec n 0) as [->|Hn0]; [lia|]. replace (Z.max 1 precision - 1) with (precision - 1) by lia. cbn [negb].
  set (p := precision - 1) in *.
  assert (pow 10 (-400) <= frac n d < pow 10 400)%Q as Hr.
  { rewrite E. pose proof (pow_pos 10 (-400) ltac:(lia)). pose proof (pow_pos 2 1024 ltac:(lia)). lra. }
  pose proof (significant_spec p n d ltac:(lia) ltac:(lia) Hd Hr) as S. pose proof (g_text_shape p n d ltac:(lia)) as G.
  pose proof (decimal_exponent_spec n d Hd Hr) as [X1 X2]. destruct (significant p n d) as [q x].
  destruct S as (Hq & Hx & u & Hu & U1 & U2).
  assert (decimal_exponent n d < 400) by (apply (pow_lt_inv 10); [lia|]; lra).
  assert (-400 < decimal_exponent n d + 1) by (apply (pow_lt_inv 10); [lia|]; lra).
  pose proof (Z.pow_pos_nonneg 10 p ltac:(lia) ltac:(lia)).
  destruct G as (whole & f & y & -> & Hw & Ev); [lia|lia|].
  assert ((if sign v then bs "-" else []) ++ text false whole f y = text (sign v) whole f y) as -> by by destruct (sign v).
  rewrite text_no_comma by done. destruct (mark_text (sign v) whole f y Hw) as (f' & -> & Hw' & Hk & Ev').
  exists whole, f', y. split_and!; [done..|]. exists u. rewrite Ev', Ev, <- E. by split_and!; try apply U2.
Qed.

Lemma print_text v : normalised (mant v) (expo v) -> expo v <= 971 ->
  exists whole f y, valueToString_double v = text (sign v) whole f y /\ well_formed whole f y /\ marked f y
    /\ exists u, (inject_Z (10 ^ 16) * u <= inject_Z (mant v) * pow 2 (expo v))%Q /\ (0 < u)%Q
       /\ (inject_Z (mant v) * pow 2 (expo v) - (1#2) * u <= text_value whole f y <= inject_Z (mant v) * pow 2 (expo v) + (1#2) * u)%Q.
Proof. exact (print_text_with 17 v ltac:(lia)). Qed.

(** *** The round trip *)

Lemma zero_text_with precision v : mant v = 0 -> valueToString_with precision true v = text (sign v) (bs "0") (bs "0") None.
Proof.
  intros Hm. pose proof (ratio_spec v ltac:(lia)) as R. unfold valueToString_with, printf_g. destruct (ratio v) as [n d].
  destruct R as (_ & [Hz _] & _). rewrite Hz by done. by destruct (sign v).
Qed.

Lemma zero_text v : mant v = 0 -> valueToString_double v = text (sign v) (bs "0") (bs "0") None.
Proof. apply zero_text_with. Qed.

Lemma not_overflow m e : normalised m e -> e <= 971 -> overflows m e = false.
Proof.
  intros (Hm & _) He. unfold overflows. destruct (Z.leb_spec 0 e); [|done]. apply Z.leb_gt.
  assert (2 ^ e <= 2 ^ 971) by (apply Z.pow_le_mono_r; lia). pose proof (Z.pow_pos_nonneg 2 e ltac:(lia) ltac:(lia)).
  change (2 ^ 1024) with (2 ^ 53 * 2 ^ 971). nia.
Qed.

(** Every finite double prints as such a text. *)
Lemma double_text v : canonical v -> exists whole f y, valueToString_double v = text (sign v) whole f y /\ well_formed whole f y /\ marked f y.
Proof.
  intros [[Hm _]|[Hv He]].
  - exists (bs "0"), (bs "0"), None. split; [by apply zero_text|]. split; [split_and!; try done; by constructor|by left].
  - destruct (print_text v Hv He) as (whole & f & y & E & Hw & Hk & _). by exists whole, f, y.
Qed.

(** Every finite double is read back, bit for bit, from the text that is printed for it. *)
Theorem double_roundtrip v : canonical v -> read_double (valueToString_double v) = Some v.
Proof.
  destruct v as [neg m e]. intros [[Hm He]|[Hv He]]; cbn [mant expo] in *.
  { subst. rewrite zero_text by done. cbn [sign]. unfold read_double. rewrite literal_text by (done || by constructor). done. }
  destruct (print_text (mkDouble neg m e) Hv He) as (whole & f & y & -> & (Hw & Hne & Hf & Hy) & _ & u & U1 & U2 & U3 & U4). cbn [sign mant expo] in *.
  pose proof (literal_text neg whole f y Hw Hne Hf Hy) as L. unfold text_value in U3, U4.
  set (M := number_of (whole ++ f)) in *. set (X := default 0 y - zlen f) in *.
  pose proof (size_bounds _ _ Hv He) as [B1 B2]. destruct bounds_10_2 as (T1 & T2 & T3). change (inject_Z (10 ^ 16)) with (10000000000000000#1)%Q in U1.
  pose proof (pow_pos 2 (-1200) ltac:(lia)) as P1. pose proof (pow_pos 2 1024 ltac:(lia)) as P2. pose proof (pow_pos 10 X ltac:(lia)) as PX.
  assert (0 < M) as HM.
  { destruct (Z.lt_ge_cases 0 M) as [|Hle]; [done|]. rewrite Zle_Qle in Hle. apply (Qmult_le_compat_r _ _ (pow 10 X)) in Hle; [|lra].
    change (inject_Z 0) with 0%Q in Hle. lra. }
  rewrite (read_double_literal _ _ _ _ L); [|lia|apply in_range_spec; [done|lra]].
  pose proof (literal_frac_spec M X HM) as F. destruct (literal_frac M X) as [n d]. destruct F as (Hn & Hd & EF). rewrite <- EF in U3, U4.
  pose proof (pow_pos 2 e ltac:(lia)) as Pe. pose proof Hv as (Hm & _).
  assert (inject_Z m * pow 2 e <= (9007199254740992#1) * pow 2 e)%Q as Hbig.
  { apply Qmult_le_compat_r; [|lra]. change (9007199254740992#1)%Q with (inject_Z (2 ^ 53)). rewrite <- Zle_Qle. lia. }
  rewrite (nearest_close n d m e Hn Hd Hv).
  - rewrite not_overflow by done. by destruct (Z.eqb_spec m 0); [lia|].
  - lra.
  - intros E. rewrite E in *. change (inject_Z (2 ^ 52)) with (4503599627370496#1)%Q in *. lra.
Qed.

(** Different doubles have different texts. *)
Corollary double_text_injective v w : canonical v -> canonical w -> valueToString_double v = valueToString_double w -> v = w.
Proof. intros Hv Hw E. apply double_roundtrip in Hv, Hw. rewrite E in Hv. congruence. Qed.

(** *** What is read is canonical *)

Lemma digits_of_digits l : digits (fst (digits_of l)).
Proof.
  induction l as [|b l IH]; [constructor|]. cbn. destruct (is_digit b) eqn:E; [|constructor].
  destruct (digits_of l) as [d r]. by constructor.
Qed.

Lemma number_of_nonneg d : digits d -> 0 <= number_of d.
Proof.
  induction d as [|b d IH] using rev_ind; intros H; [done|]. apply Forall_app in H as [Hd Hb]. inversion Hb as [|? ? H _]; subst.
  rewrite number_of_app. change (zlen [b]) with 1. specialize (IH Hd). unfold number_of at 2. cbn [foldl]. unfold is_digit in H. unfold digit_val.
  apply andb_true_iff in H as [H%Z.leb_le _]. lia.
Qed.

Lemma literal_nonneg l neg m e : literal l = Some (mkDecimal neg m e) -> 0 <= m.
Proof.
  unfold literal. intros H. destruct (match l with [] => _ | _ => _ end) as [neg' l1]. pose proof (digits_of_digits l1) as Hw.
  destruct (digits_of l1) as [w l2]. set (frest := match l2 with [] => _ | _ => _ end) in H.
  assert (digits (fst frest)) as Hf.
  { subst frest. destruct l2 as [|b l2]; [constructor|]. destruct (bool_decide _); [apply digits_of_digits|constructor]. }
  destruct frest as [f l3]. cbn [fst] in *. assert (0 <= number_of (w ++ f)) by (apply number_of_nonneg, Forall_app; by split).
  repeat case_match; congruence.
Qed.

Lemma overflow_bound m e : normalised m e -> overflows m e = false -> e <= 971.
Proof.
  intros (Hm & _ & Hc) H. destruct (Z.le_gt_cases e 971); [done|]. exfalso. unfold overflows in H. destruct (Z.leb_spec 0 e); [|lia].
  apply Z.leb_gt in H. destruct Hc as [|Hc]; [lia|]. assert (2 ^ 972 <= 2 ^ e) by (apply Z.pow_le_mono_r; lia).
  change (2 ^ 1024) with (2 ^ 52 * 2 ^ 972) in H. nia.
Qed.

(** What the stream reads is the canonical form of a finite double. *)
Theorem read_double_canonical l v : read_double l = Some v -> canonical v.
Proof.
  unfold read_double. destruct (literal l) as [[neg m e]|] eqn:El; [|done]. pose proof (literal_nonneg _ _ _ _ El) as Hm.
  destruct (Z.eqb_spec m 0); [intros [= <-]; by left|]. destruct (400 <? e); [done|]. destruct (_ <? -1200); [intros [= <-]; by left|].
  pose proof (literal_frac_spec m e ltac:(lia)) as F. unfold literal_frac in F.
  assert (forall n d, 0 < n -> 0 < d -> (let '(q, x) := nearest n d in
    if overflows q x then None else Some (mkDouble neg q (if q =? 0 then 0 else x))) = Some v -> canonical v) as G.
  { intros n0 d Hn Hd. pose proof (nearest_normalised n0 d Hn Hd) as N. destruct (nearest n0 d) as [q x].
    destruct (overflows q x) eqn:Eo; [done|]. intros [= <-]. destruct (Z.eqb_spec q 0); [by left|].
    destruct N as [|N]; [done|]. right. split; [done|]. by eapply overflow_bound. }
  destruct (0 <=? e); destruct F as (Hn & Hd & _); by apply G.
Qed.

End DoubleRound.
