(* ===== verification/CLib.v ===== *)
(** * C and C++ library functions on byte strings

    What common.cpp and TraceNode.cpp use of the standard library: [std::stoll],
    [strchr] and [strncpy], on the bytes of a C string (without its NUL). *)
From Stdlib Require Import ZArith Lia.
From Stdlib Require Strings.Byte.
From S2P Require Import Prelude Json.

Module CLib.
Import Json.

#[export] Instance byte_countable : Countable byte := inj_countable Byte.to_N Byte.of_N Byte.of_to_N.

(** ** [std::stoll] *)

Definition is_space (b : byte) : bool :=
  let n := byte_Z b in (n =? 32) || ((9 <=? n) && (n <=? 13)).

Definition digit (b : byte) : option Z :=
  let n := byte_Z b in if (48 <=? n) && (n <=? 57) then Some (n - 48) else None.

Fixpoint skip_spaces (s : list byte) : list byte :=
  match s with
  | b :: s' => if is_space b then skip_spaces s' else s
  | [] => []
  end.

(** The value of the leading digits; [None] when there is none. *)
Fixpoint leading_digits (s : list byte) (acc : option Z) : option Z :=
  match s with
  | b :: s' =>
      match digit b with
      | Some d => leading_digits s' (Some (10 * default 0 acc + d))
      | None => acc
      end
  | [] => acc
  end.

Definition LLONG_MAX : Z := 2 ^ 63 - 1.
Definition LLONG_MIN : Z := - 2 ^ 63.

(** Leading white space and a sign are accepted, trailing text is ignored; no digit
    throws [std::invalid_argument], a value out of range [std::out_of_range]. *)
Definition stoll (s : list byte) : outcome Z :=
  let s1 := skip_spaces s in
  let '(sign, s2) :=
    match s1 with
    | b :: s' => if byte_Z b =? 0x2d then (-1, s') else if byte_Z b =? 0x2b then (1, s') else (1, s1)
    | [] => (1, s1)
    end in
  match leading_digits s2 None with
  | None => Throw invalid_argument
  | Some v =>
      if (LLONG_MIN <=? sign * v) && (sign * v <=? LLONG_MAX) then Ok (sign * v)
      else Throw out_of_range
  end.

(** ** [strchr] *)

(** The text before the first [c] and the text behind it. *)
Fixpoint split_at (c : byte) (s : list byte) : option (list byte * list byte) :=
  match s with
  | [] => None
  | b :: s' =>
      if bool_decide (b = c) then Some ([], s')
      else match split_at c s' with
           | Some (before, behind) => Some (b :: before, behind)
           | None => None
           end
  end.

(** The characters of a string up to the first NUL. *)
Definition c_str (s : list byte) : list byte :=
  match split_at Byte.x00 s with Some (before, _) => before | None => s end.

(** ** [strncpy] *)

(** [strncpy(dst, src, n)]: [src] up to its NUL, cut or padded with NULs to [n]
    characters. *)
Definition strncpy (dst src : list byte) (n : Z) : outcome (list byte) :=
  let k := Z.to_nat n in
  memcpy dst 0 (take k (src ++ replicate k Byte.x00)) n.

Lemma split_at_spec c s before behind :
  split_at c s = Some (before, behind) -> s = before ++ c :: behind /\ c ∉ before.
Proof.
  revert before. induction s as [|b s IH]; intros before; cbn; [done|].
  case_bool_decide as E; [intros [= <- <-]; subst; split; [done|apply not_elem_of_nil]|].
  destruct (split_at c s) as [[u v]|]; [|done]. intros [= <- <-].
  destruct (IH u eq_refl) as [-> Hn]. split; [done|]. rewrite not_elem_of_cons. done.
Qed.

Lemma split_at_first c s behind : c ∉ s -> split_at c (s ++ c :: behind) = Some (s, behind).
Proof.
  induction s as [|b s IH]; cbn; intros H; [by rewrite bool_decide_eq_true_2|]. rewrite not_elem_of_cons in H. destruct H as [Hb H].
  by rewrite bool_decide_eq_false_2, IH by congruence.
Qed.

Lemma c_str_nul s : Byte.x00 ∉ c_str s.
Proof.
  unfold c_str. destruct (split_at Byte.x00 s) as [[u v]|] eqn:E; [by apply split_at_spec in E as [_ ?]|].
  induction s as [|b s IH]; [apply not_elem_of_nil|]. cbn in E. case_bool_decide; [done|].
  destruct (split_at Byte.x00 s) as [[]|]; [done|]. rewrite not_elem_of_cons. split; [congruence|by apply IH].
Qed.

Lemma c_str_id s : Byte.x00 ∉ s -> c_str s = s.
Proof.
  intros H. unfold c_str. destruct (split_at Byte.x00 s) as [[u v]|] eqn:E; [|done].
  apply split_at_spec in E as [-> _]. destruct H. apply elem_of_app. right. by left.
Qed.

End CLib.
