(* ===== verification/JsonWriter.v ===== *)
(** * Printing JSON: [valueToQuotedStringN], [BuiltStyledStreamWriter], [NodeTreeWriter]
      (common/jsoncpp/lib_json/json_writer.cpp, json_tool.h;
      common/src/Cache/NodeTreeWriter.h)

    The span a trace produces is printed by a writer that keeps mutable layout state
    (pending child values, indentation, flags).  Its algorithm is that of two other classes
    of the library as well (Writers.v) and is defined over what they do differently;
    Layout.v shows what it prints. *)
From Stdlib Require Import ZArith Lia.
From Stdlib Require Strings.Byte.
From S2P Require Import Prelude Double Real Json.

Module Writer.
Import Json.

(** ** Numbers *)

(** The [do] loop of [uintToString], which fills a buffer of
    [3 * sizeof(LargestUInt) + 1 = 25] characters from its end; one is the NUL.
    [room] is what is left of the buffer. *)
Fixpoint uint_loop (room : nat) (value : Z) (current : list byte) : outcome (list byte) :=
  match room with
  | O => UB
  | S room' =>
      let current' := Z_byte (value mod 10 + 48) :: current in
      let value' := value / 10 in
      if value' =? 0 then Ok current' else uint_loop room' value' current'
  end.

Definition uintToString (value : Z) : outcome (list byte) := uint_loop 24 value [].

(** [valueToString(LargestUInt)] *)
Definition valueToString_uint (value : Z) : outcome (list byte) := uintToString value.

Definition minLargestInt : Z := - 2 ^ 63.
Definition maxLargestInt : Z := 2 ^ 63 - 1.

(** [valueToString(LargestInt)] *)
Definition valueToString_int (value : Z) : outcome (list byte) :=
  if value =? minLargestInt then
    d ← uintToString (u64 (u64 maxLargestInt + 1)); mret (Byte.x2d :: d)
  else if value <? 0 then
    d ← uintToString (u64 (- value)); mret (Byte.x2d :: d)
  else uintToString (u64 value).

Definition valueToString_bool (b : bool) : list byte := if b then bs "true" else bs "false".

(** ** Strings *)

Definition doesAnyCharRequireEscaping (s : list byte) : bool :=
  existsb (fun b => let c := byte_Z b in
                    (c =? 0x5c) || (c =? 0x22) || (c <? 0x20) || (0x7F <? c)) s.

Definition REPLACEMENT_CHARACTER : Z := 0xFFFD.

(** The low six bits of [s[i]]. *)
Definition low6 (s : list byte) (i : nat) : Z :=
  match s !! i with Some b => Z.land (byte_Z b) 0x3F | None => 0 end.

(** [utf8ToCodepoint]: the code point at the head of [s], and by how many bytes the
    pointer moves. *)
Definition utf8ToCodepoint (s : list byte) : Z * nat :=
  match s with
  | [] => (0, 0%nat)
  | b :: _ =>
      let firstByte := byte_Z b in
      let n := zlen s in
      if firstByte <? 0x80 then (firstByte, 0%nat)
      else if firstByte <? 0xE0 then
        if n <? 2 then (REPLACEMENT_CHARACTER, 0%nat)
        else
          let calculated := Z.lor (Z.shiftl (Z.land firstByte 0x1F) 6) (low6 s 1) in
          (if calculated <? 0x80 then REPLACEMENT_CHARACTER else calculated, 1%nat)
      else if firstByte <? 0xF0 then
        if n <? 3 then (REPLACEMENT_CHARACTER, 0%nat)
        else
          let calculated := Z.lor (Z.lor (Z.shiftl (Z.land firstByte 0x0F) 12)
                                     (Z.shiftl (low6 s 1) 6)) (low6 s 2) in
          if (0xD800 <=? calculated) && (calculated <=? 0xDFFF)
          then (REPLACEMENT_CHARACTER, 2%nat)
          else (if calculated <? 0x800 then REPLACEMENT_CHARACTER else calculated, 2%nat)
      else if firstByte <? 0xF8 then
        if n <? 4 then (REPLACEMENT_CHARACTER, 0%nat)
        else
          let calculated := Z.lor (Z.lor (Z.lor (Z.shiftl (Z.land firstByte 0x07) 18)
                                            (Z.shiftl (low6 s 1) 12))
                                     (Z.shiftl (low6 s 2) 6)) (low6 s 3) in
          (if calculated <? 0x10000 then REPLACEMENT_CHARACTER else calculated, 3%nat)
      else (REPLACEMENT_CHARACTER, 0%nat)
  end.

(** One character of the table [hex2]. *)
Definition hex_char (n : Z) : byte := if n <? 10 then Z_byte (n + 48) else Z_byte (n + 87).

Definition toHex16Bit (x : Z) : list byte :=
  let hi := Z.land (Z.shiftr x 8) 0xff in
  let lo := Z.land x 0xff in
  [hex_char (hi / 16); hex_char (hi mod 16); hex_char (lo / 16); hex_char (lo mod 16)].

Definition appendHex (ch : Z) : list byte := Byte.x5c :: Byte.x75 :: toHex16Bit ch.

(** What one iteration of the [switch] appends, and the extra bytes it consumes. *)
Definition escape_one (emitUTF8 : bool) (s : list byte) (b : byte) : list byte * nat :=
  let c := byte_Z b in
  if c =? 0x22 then (bs "\" ++ [Byte.x22], 0%nat)
  else if c =? 0x5c then (bs "\\", 0%nat)
  else if c =? 0x08 then (bs "\b", 0%nat)
  else if c =? 0x0c then (bs "\f", 0%nat)
  else if c =? 0x0a then (bs "\n", 0%nat)
  else if c =? 0x0d then (bs "\r", 0%nat)
  else if c =? 0x09 then (bs "\t", 0%nat)
  else if emitUTF8 then (if c <? 0x20 then appendHex c else [b], 0%nat)
  else
    let '(codepoint, extra) := utf8ToCodepoint s in
    if codepoint <? 0x20 then (appendHex codepoint, extra)
    else if codepoint <? 0x80 then ([Z_byte codepoint], extra)
    else if codepoint <? 0x10000 then (appendHex codepoint, extra)
    else
      let cp := codepoint - 0x10000 in
      (appendHex (0xd800 + Z.land (Z.shiftr cp 10) 0x3ff)
       ++ appendHex (0xdc00 + Z.land cp 0x3ff), extra).

(** The loop over the characters; every iteration consumes at least one byte. *)
Fixpoint escape_loop (fuel : nat) (emitUTF8 : bool) (s : list byte) : list byte :=
  match fuel, s with
  | S fuel', b :: s' =>
      let '(out, extra) := escape_one emitUTF8 s b in
      out ++ escape_loop fuel' emitUTF8 (drop extra s')
  | _, _ => []
  end.

Definition valueToQuotedStringN (s : list byte) (emitUTF8 : bool) : list byte :=
  if negb (doesAnyCharRequireEscaping s) then [Byte.x22] ++ s ++ [Byte.x22]
  else [Byte.x22] ++ escape_loop (length s) emitUTF8 s ++ [Byte.x22].

(** ** The stream writer *)

Record Config := mkConfig {
  rightMargin_ : Z;
  indentation_ : list byte;
  cs_All : bool;
  colonSymbol_ : list byte;
  nullSymbol_ : list byte;
  endingLineFeedSymbol_ : list byte;
  useSpecialFloats_ : bool;
  emitUTF8_ : bool;
  precision_ : Z;
  significantDigits_ : bool
}.

Record WState := mkWState {
  childValues_ : list (list byte);
  indentString_ : list byte;
  addChildValues_ : bool;
  indented_ : bool;
  sout : list byte
}.

Definition set_children (s : WState) (c : list (list byte)) (add : bool) : WState :=
  mkWState c (indentString_ s) add (indented_ s) (sout s).
Definition set_indent (s : WState) (i : list byte) : WState :=
  mkWState (childValues_ s) i (addChildValues_ s) (indented_ s) (sout s).
Definition set_indented (s : WState) (b : bool) : WState :=
  mkWState (childValues_ s) (indentString_ s) (addChildValues_ s) b (sout s).
Definition put_out (s : WState) (t : list byte) : WState :=
  mkWState (childValues_ s) (indentString_ s) (addChildValues_ s) (indented_ s) (sout s ++ t).

(** [*sout_ << t] *)
Definition emit (t : list byte) : M WState unit := modify (fun s => put_out s t).

Definition pushValue (value : list byte) : M WState unit :=
  modify (fun s => if addChildValues_ s
                   then set_children s (childValues_ s ++ [value]) true
                   else put_out s value).

(** [childValues_[index]] *)
Definition child_value (index : nat) : M WState (list byte) :=
  s ← get; match childValues_ s !! index with Some c => mret c | None => undefined end.

(** Three classes write values with one algorithm; a style is what they do differently. *)
Record Style := mkStyle {
  st_margin : Z;
  (** every array gets a line for each of its elements *)
  st_multiline : bool;
  st_null : list byte;
  st_real : Real.real -> list byte;
  st_quote : list byte -> list byte;
  st_quote_name : list byte -> list byte;
  st_colon : list byte;
  (** brackets and separator of an array on one line *)
  st_open : list byte;
  st_comma : list byte;
  st_close : list byte;
  (** [writeWithIndent]; [indent] and [unindent] on [indentString_] *)
  st_writeWithIndent : list byte -> M WState unit;
  st_indent : list byte -> list byte;
  st_unindent : list byte -> list byte;
  (** around an element on a line of its own *)
  st_before : M WState unit;
  st_after : M WState unit
}.

Section writer.
Context (st : Style).

Definition enter : M WState unit := modify (fun s => set_indent s (st_indent st (indentString_ s))).
Definition leave : M WState unit := modify (fun s => set_indent s (st_unindent st (indentString_ s))).

Section loops.
Context (writeValue : Value -> M WState unit).

(** The measuring loop of [isMultilineArray]. *)
Fixpoint measure_loop (elems : list Value) (index : nat) (lineLength : Z) : M WState Z :=
  match elems with
  | [] => mret lineLength
  | v :: elems' =>
      _ ← writeValue v;
      c ← child_value index;
      measure_loop elems' (S index) (u32 (lineLength + u32 (zlen c)))
  end.

Definition isMultilineArray (elems : list Value) : M WState bool :=
  let size := u32 (zlen elems) in
  _ ← modify (fun s => set_children s [] (addChildValues_ s));
  let isMultiLine :=
    (st_margin st <=? u32 (size * 3))
    || existsb (fun v => (isArray v || isObject v) && negb (empty v)) elems in
  if negb isMultiLine then
    _ ← modify (fun s => set_children s (childValues_ s) true);
    lineLength ← measure_loop elems 0 (u32 (4 + u32 (u32 (size - 1) * 2)));
    _ ← modify (fun s => set_children s (childValues_ s) false);
    mret (st_margin st <=? lineLength)
  else mret true.

(** The element loop of the multi-line branch. *)
Fixpoint multi_loop (elems : list Value) (index : nat) (hasChildValue : bool) : M WState unit :=
  match elems with
  | [] => mret tt
  | v :: elems' =>
      _ ← (if hasChildValue then c ← child_value index; st_writeWithIndent st c
           else _ ← st_before st; _ ← writeValue v; st_after st);
      match elems' with
      | [] => mret tt
      | _ => _ ← emit (bs ","); multi_loop elems' (S index) hasChildValue
      end
  end.

(** The element loop of the single-line branch. *)
Fixpoint single_loop (n : nat) (index : nat) : M WState unit :=
  match n with
  | O => mret tt
  | S n' =>
      _ ← (if (0 <? index)%nat then emit (st_comma st) else mret tt);
      c ← child_value index;
      _ ← emit c;
      single_loop n' (S index)
  end.

Definition writeArrayValue (elems : list Value) : M WState unit :=
  if u32 (zlen elems) =? 0 then pushValue (bs "[]")
  else
    isMultiLine ← (if st_multiline st then mret true else isMultilineArray elems);
    if (isMultiLine : bool) then
      _ ← st_writeWithIndent st (bs "[");
      _ ← enter;
      hasChildValue ← gets (fun s => negb (bool_decide (childValues_ s = [])));
      _ ← multi_loop elems 0 hasChildValue;
      _ ← leave;
      st_writeWithIndent st (bs "]")
    else
      _ ← emit (st_open st);
      _ ← single_loop (length elems) 0;
      emit (st_close st).

(** The member loop of the object branch of [writeValue]. *)
Fixpoint member_loop (m : members) : M WState unit :=
  match m with
  | [] => mret tt
  | (name, v) :: m' =>
      _ ← st_writeWithIndent st (st_quote_name st name);
      _ ← emit (st_colon st);
      _ ← writeValue v;
      match m' with
      | [] => mret tt
      | _ => _ ← emit (bs ","); member_loop m'
      end
  end.
End loops.

Fixpoint writeValue (value : Value) : M WState unit :=
  match value with
  | nullValue => pushValue (st_null st)
  | intValue n => t ← lift (valueToString_int n); pushValue t
  | uintValue n => t ← lift (valueToString_uint n); pushValue t
  | realValue r => pushValue (st_real st r)
  | stringValue s => pushValue (st_quote st s)
  | booleanValue b => pushValue (valueToString_bool b)
  | arrayValue elems => writeArrayValue writeValue elems
  | objectValue m =>
      match m with
      | [] => pushValue (bs "{}")
      | _ =>
          _ ← st_writeWithIndent st (bs "{");
          _ ← enter;
          _ ← member_loop writeValue m;
          _ ← leave;
          st_writeWithIndent st (bs "}")
      end
  end.

(** What is printed between clean slates; values carry no comments. *)
Definition document (root : Value) (ending : list byte) : outcome (list byte) :=
  let '(r, s) := (_ ← writeValue root; emit ending) (mkWState [] [] false true []) in
  _ ← r; mret (sout s).
End writer.

(** *** [BuiltStyledStreamWriter] *)

Section built.
Context (cfg : Config).

Definition writeIndent : M WState unit :=
  modify (fun s => if negb (bool_decide (indentation_ cfg = []))
                   then put_out s (Byte.x0a :: indentString_ s) else s).

Definition writeWithIndent (value : list byte) : M WState unit :=
  s ← get;
  _ ← (if negb (indented_ s) then writeIndent else mret tt);
  _ ← emit value;
  modify (fun s => set_indented s false).

(** [if (!indented_) writeIndent(); indented_ = true;] *)
Definition before_element : M WState unit :=
  s ← get;
  _ ← (if negb (indented_ s) then writeIndent else mret tt);
  modify (fun s => set_indented s true).

Definition indent (indentString : list byte) : list byte := indentString ++ indentation_ cfg.

Definition unindent (indentString : list byte) : list byte :=
  take (length indentString - length (indentation_ cfg)) indentString.

Definition built_style : Style :=
  let spaced := negb (bool_decide (indentation_ cfg = [])) in
  mkStyle (rightMargin_ cfg) (cs_All cfg) (nullSymbol_ cfg)
    (Real.valueToString (useSpecialFloats_ cfg) (precision_ cfg) (significantDigits_ cfg))
    (fun s => valueToQuotedStringN s (emitUTF8_ cfg)) (fun s => valueToQuotedStringN s (emitUTF8_ cfg))
    (colonSymbol_ cfg)
    (if spaced then bs "[ " else bs "[") (if spaced then bs ", " else bs ",") (if spaced then bs " ]" else bs "]")
    writeWithIndent indent unindent before_element (modify (fun s => set_indented s false)).

(** [BuiltStyledStreamWriter::write] *)
Definition write (root : Value) : outcome (list byte) := document built_style root (endingLineFeedSymbol_ cfg).
End built.

(** ** Settings *)

(** [v[key]] on a constant value *)
Definition const_at (v : Value) (key : list byte) : outcome Value :=
  m ← as_object v; mret (default nullValue (find key m)).

Definition asString (v : Value) : outcome (list byte) :=
  match v with
  | nullValue => mret []
  | stringValue s => mret s
  | booleanValue b => mret (valueToString_bool b)
  | intValue n => valueToString_int n
  | uintValue n => valueToString_uint n
  | realValue r => mret (Real.real_text r)
  | _ => Throw json_logic_error
  end.

Definition asBool (v : Value) : outcome bool :=
  match v with
  | booleanValue b => mret b
  | nullValue => mret false
  | intValue n => mret (negb (n =? 0))
  | uintValue n => mret (negb (n =? 0))
  | realValue r => mret (Real.real_truth r)
  | _ => Throw json_logic_error
  end.

(** Assign a list of members in turn. *)
Definition assign_all (v : Value) (l : list (list byte * Value)) : outcome Value :=
  foldl (fun r kv => v ← r; assign v (fst kv) (snd kv)) (Ok v) l.

(** [StreamWriterBuilder::setDefaults] *)
Definition setDefaults (settings : Value) : outcome Value :=
  assign_all settings
    [(bs "commentStyle", stringValue (bs "All"));
     (bs "indentation", stringValue [Byte.x09]);
     (bs "enableYAMLCompatibility", booleanValue false);
     (bs "dropNullPlaceholders", booleanValue false);
     (bs "useSpecialFloats", booleanValue false);
     (bs "emitUTF8", booleanValue false);
     (bs "precision", intValue 17);
     (bs "precisionType", stringValue (bs "significant"))].

(** [Value::asUInt] *)
Definition asUInt (v : Value) : outcome Z :=
  match v with
  | intValue n | uintValue n =>
      if (0 <=? n) && (n <? 2 ^ 32) then mret n else Throw json_logic_error
  | realValue r =>
      if Real.InRange r 0 Real.maxUInt then Real.cast r 0 Real.maxUInt else Throw json_logic_error
  | nullValue => mret 0
  | booleanValue b => mret (if b then 1 else 0)
  | _ => Throw json_logic_error
  end.

Definition newStreamWriter (settings : Value) : outcome Config :=
  indentation ← const_at settings (bs "indentation") ≫= asString;
  cs_str ← const_at settings (bs "commentStyle") ≫= asString;
  pt_str ← const_at settings (bs "precisionType") ≫= asString;
  eyc ← const_at settings (bs "enableYAMLCompatibility") ≫= asBool;
  dnp ← const_at settings (bs "dropNullPlaceholders") ≫= asBool;
  usf ← const_at settings (bs "useSpecialFloats") ≫= asBool;
  emitUTF8 ← const_at settings (bs "emitUTF8") ≫= asBool;
  pre ← const_at settings (bs "precision") ≫= asUInt;
  cs ← (if bool_decide (cs_str = bs "All") then Ok true
        else if bool_decide (cs_str = bs "None") then Ok false
        else Throw json_runtime_error);
  precisionType ← (if bool_decide (pt_str = bs "significant") then Ok true
                   else if bool_decide (pt_str = bs "decimal") then Ok false
                   else Throw json_runtime_error);
  let colonSymbol :=
    if (eyc : bool) then bs ": " else if bool_decide (indentation = []) then bs ":" else bs " : " in
  let nullSymbol := if (dnp : bool) then [] else bs "null" in
  let pre := if 17 <? pre then 17 else pre in
  mret (mkConfig 74 indentation cs colonSymbol nullSymbol [] usf emitUTF8 pre precisionType).

(** [NodeTreeWriter::NodeTreeWriter] and [NodeTreeWriter::write] *)
Definition node_tree_settings : outcome Value :=
  settings ← setDefaults nullValue;
  assign_all settings [(bs "commentStyle", stringValue (bs "None")); (bs "indentation", stringValue [])].

Definition node_tree_write (value : Value) : outcome (list byte) :=
  settings ← node_tree_settings;
  cfg ← newStreamWriter settings;
  write cfg value.

(** [Value::toStyledString] *)
Definition toStyledString (v : Value) : outcome (list byte) :=
  settings ← setDefaults nullValue;
  cfg ← newStreamWriter settings;
  out ← write cfg v;
  mret (out ++ [Byte.x0a]).

(** ** The compact form *)

Definition join (sep : list byte) (l : list (list byte)) : list byte :=
  match l with
  | [] => []
  | x :: l' => x ++ concat (map (app sep) l')
  end.

(** The digits of a number, without the buffer. *)
Definition text_of (r : outcome (list byte)) : list byte :=
  match r with Ok t => t | _ => [] end.

Fixpoint compact (v : Value) : list byte :=
  match v with
  | nullValue => bs "null"
  | intValue n => text_of (valueToString_int n)
  | uintValue n => text_of (valueToString_uint n)
  | realValue r => Real.real_text r
  | stringValue s => valueToQuotedStringN s false
  | booleanValue b => valueToString_bool b
  | arrayValue elems => bs "[" ++ join (bs ",") (map compact elems) ++ bs "]"
  | objectValue m =>
      bs "{" ++ join (bs ",") (map (fun kv => valueToQuotedStringN (fst kv) false ++ bs ":"
                                              ++ compact (snd kv)) m) ++ bs "}"
  end.

(** Numbers fit their types and arrays fit [ArrayIndex]. *)
Fixpoint fits (v : Value) : Prop :=
  match v with
  | intValue n => in_i64 n
  | uintValue n => in_u64 n
  | arrayValue elems => zlen elems < 2 ^ 32 /\ fold_right (fun x P => fits x /\ P) True elems
  | objectValue m => fold_right (fun kv P => fits (snd kv) /\ P) True m
  | _ => True
  end.

Example write_demo :
  node_tree_write (objectValue
    [(bs ":E", intValue (-3)); (bs "anno", arrayValue [stringValue (bs "k:v"); stringValue [Byte.x0a; Byte.xc3; Byte.xa9]]);
     (bs "event", arrayValue [objectValue [(bs ":seq", intValue 0)]; objectValue []])])
  = Ok (bs "{" ++ [Byte.x22] ++ bs ":E" ++ [Byte.x22] ++ bs ":-3," ++ [Byte.x22] ++ bs "anno" ++ [Byte.x22] ++ bs ":["
        ++ [Byte.x22] ++ bs "k:v" ++ [Byte.x22] ++ bs "," ++ [Byte.x22] ++ bs "\n\u00e9" ++ [Byte.x22] ++ bs "],"
        ++ [Byte.x22] ++ bs "event" ++ [Byte.x22] ++ bs ":[{" ++ [Byte.x22] ++ bs ":seq" ++ [Byte.x22] ++ bs ":0},{}]}").
Proof. vm_compute. reflexivity. Qed.

(** ** Numbers are printed in decimal *)

Definition of_dec (d : list byte) : Z := foldl (fun a b => 10 * a + (byte_Z b - 48)) 0 d.
Definition is_digit (b : byte) : Prop := 48 <= byte_Z b <= 57.

Lemma of_dec_snoc d b : of_dec (d ++ [b]) = 10 * of_dec d + (byte_Z b - 48).
Proof. unfold of_dec. by rewrite foldl_app. Qed.

Lemma digit_byte n : byte_Z (Z_byte (n mod 10 + 48)) = n mod 10 + 48.
Proof.
  rewrite byte_Z_Z_byte. pose proof (Z.mod_pos_bound n 10 ltac:(lia)). apply Z.mod_small. lia.
Qed.

Lemma uint_loop_ok room : forall value current,
  0 <= value < 10 ^ Z.of_nat room -> (0 < room)%nat ->
  exists d, uint_loop room value current = Ok (d ++ current) /\ of_dec d = value
    /\ Forall is_digit d /\ d <> [] /\ (hd_error d = Some Byte.x30 -> d = [Byte.x30]).
Proof.
  induction room as [|room IH]; intros value current Hv Hr; [lia|]. cbn [uint_loop].
  set (b := Z_byte (value mod 10 + 48)).
  assert (byte_Z b = value mod 10 + 48) as Hb by apply digit_byte.
  pose proof (Z.mod_pos_bound value 10 ltac:(lia)). pose proof (Z.div_mod value 10 ltac:(lia)).
  assert (is_digit b) as Hd by (unfold is_digit; lia).
  case_if.
  - exists [b]. split; [done|]. split_and!; try done.
    + unfold of_dec. cbn. lia.
    + by apply Forall_singleton.
    + by intros [= ->].
  - rewrite Nat2Z.inj_succ, Z.pow_succ_r in Hv by lia.
    assert (0 <= value / 10 < 10 ^ Z.of_nat room) as Hq.
    { split; [apply Z.div_pos; lia|apply Z.div_lt_upper_bound; lia]. }
    destruct room as [|room]; [cbn in Hq; lia|].
    destruct (IH (value / 10) (b :: current) Hq ltac:(lia)) as (d & -> & Ed & Hdig & Hne & Hz).
    exists (d ++ [b]). rewrite <- app_assoc. split; [done|]. split_and!.
    + rewrite of_dec_snoc, Ed. lia.
    + apply Forall_app; split; [done|]. by apply Forall_singleton.
    + by destruct d.
    + intros Hh. destruct d as [|x d]; [done|]. cbn in Hh. specialize (Hz Hh).
      injection Hz as -> ->. cbn in Ed. unfold of_dec in Ed. cbn in Ed. lia.
Qed.

Lemma uintToString_ok n : in_u64 n ->
  exists d, uintToString n = Ok d /\ of_dec d = n
    /\ Forall is_digit d /\ d <> [] /\ (hd_error d = Some Byte.x30 -> d = [Byte.x30]).
Proof.
  intros Hn. unfold uintToString. destruct (uint_loop_ok 24 n []) as (d & E & Hd); [|lia|].
  - change (10 ^ Z.of_nat 24) with 1000000000000000000000000. word.
  - exists d. by rewrite app_nil_r in E.
Qed.

Lemma valueToString_int_ok n : in_i64 n ->
  exists d, valueToString_int n = Ok (if n <? 0 then Byte.x2d :: d else d)
    /\ of_dec d = Z.abs n /\ Forall is_digit d /\ d <> [].
Proof.
  intros Hn. unfold valueToString_int, minLargestInt, maxLargestInt.
  destruct (Z.eqb_spec n (- 2 ^ 63)) as [->|Hne].
  - destruct (uintToString_ok (u64 (u64 (2 ^ 63 - 1) + 1))) as (d & -> & Ed & H1 & H2 & _);
      [by vm_compute|]. exists d. split_and!; try done.
  - case_if.
    + rewrite u64_small by word. destruct (uintToString_ok (- n)) as (d & -> & Ed & H1 & H2 & _); [word|].
      exists d. split_and!; try done. lia.
    + rewrite u64_small by word. destruct (uintToString_ok n) as (d & -> & Ed & H1 & H2 & _); [word|].
      exists d. split_and!; try done. lia.
Qed.

Lemma join_cons sep x y l : join sep (x :: y :: l) = x ++ sep ++ join sep (y :: l).
Proof. cbn. by rewrite <- !app_assoc. Qed.

(** ** Theorems *)

(** Integers are printed exactly, over the whole range of both 64-bit types and
    within the conversion buffer: an optional minus sign, then decimal digits without a
    leading zero whose value is the magnitude. *)
Theorem valueToString_exact n :
  (in_u64 n -> exists d, valueToString_uint n = Ok d /\ of_dec d = n
     /\ Forall is_digit d /\ d <> [] /\ (hd_error d = Some Byte.x30 -> d = [Byte.x30]))
  /\ (in_i64 n -> exists d, valueToString_int n = Ok (if n <? 0 then Byte.x2d :: d else d)
     /\ of_dec d = Z.abs n /\ Forall is_digit d /\ d <> []).
Proof. split; [apply uintToString_ok|apply valueToString_int_ok]. Qed.

(** *** Quoted strings *)

(** A JSON reader looking for the end of a string: the text behind the first quote
    that is not escaped. *)
Fixpoint scan (s : list byte) : option (list byte) :=
  match s with
  | [] => None
  | b :: s' =>
      if byte_Z b =? 0x22 then Some s'
      else if byte_Z b =? 0x5c then match s' with [] => None | _ :: s'' => scan s'' end
      else scan s'
  end.

Definition printable (b : byte) : Prop := 0x20 <= byte_Z b <= 0x7F.

(** Text that is printable and that a reader passes over. *)
Definition inert (t : list byte) : Prop :=
  Forall printable t /\ forall k, scan (t ++ k) = scan k.

Lemma inert_nil : inert [].
Proof. by split. Qed.

Lemma inert_app t u : inert t -> inert u -> inert (t ++ u).
Proof.
  intros [P1 S1] [P2 S2]. split; [by apply Forall_app|]. intros k. by rewrite <- app_assoc, S1, S2.
Qed.

Lemma inert_plain b : printable b -> byte_Z b <> 0x22 -> byte_Z b <> 0x5c -> inert [b].
Proof.
  intros Hp H1 H2. split; [by apply Forall_singleton|]. intros k. cbn.
  by rewrite !(proj2 (Z.eqb_neq _ _)).
Qed.

Lemma inert_escape b : printable b -> inert [Byte.x5c; b].
Proof. intros Hp. split; [|done]. repeat constructor; try done; apply Hp. Qed.

Lemma inert_plain_all s : doesAnyCharRequireEscaping s = false -> inert s.
Proof.
  induction s as [|b s IH]; intros E; [apply inert_nil|]. cbn in E. apply orb_false_iff in E as [E Es].
  apply (inert_app [b] s); [|by apply IH]. rewrite !orb_false_iff in E.
  destruct E as [[[E1 E2] E3] E4]. zbool. apply inert_plain; [unfold printable|..]; lia.
Qed.

Lemma inert_hex n : 0 <= n < 16 -> inert [hex_char n].
Proof.
  intros Hn. unfold hex_char. case_if.
  - apply inert_plain; unfold printable; rewrite byte_Z_Z_byte, Z.mod_small; lia.
  - apply inert_plain; unfold printable; rewrite byte_Z_Z_byte, Z.mod_small; lia.
Qed.

Lemma inert_appendHex x : inert (appendHex x).
Proof.
  unfold appendHex, toHex16Bit.
  assert (forall y, 0 <= Z.land y 0xff < 256) as Hb.
  { intros y. change 0xff with (Z.ones 8). rewrite Z.land_ones by lia. apply Z.mod_pos_bound. lia. }
  pose proof (Hb (Z.shiftr x 8)). pose proof (Hb x).
  assert (forall y, 0 <= y < 256 -> 0 <= y / 16 < 16 /\ 0 <= y mod 16 < 16) as Hn.
  { intros y Hy. split; [split; [apply Z.div_pos; lia|apply Z.div_lt_upper_bound; lia]|].
    apply Z.mod_pos_bound. lia. }
  apply (inert_app [Byte.x5c; Byte.x75]); [by apply inert_escape|].
  repeat (apply (inert_app [_]); [apply inert_hex; by apply Hn|]). apply inert_nil.
Qed.

Lemma utf8_small b s cp extra : utf8ToCodepoint (b :: s) = (cp, extra) -> cp < 0x80 -> cp = byte_Z b.
Proof.
  unfold utf8ToCodepoint, REPLACEMENT_CHARACTER. intros E Hcp. revert E.
  repeat case_if; intros [= <- <-]; try done; lia.
Qed.

Lemma inert_escape_one s b out extra :
  escape_one false (b :: s) b = (out, extra) -> inert out.
Proof.
  unfold escape_one.
  repeat (match goal with |- context [if byte_Z b =? ?c then _ else _] =>
    destruct (Z.eqb_spec (byte_Z b) c); [intros [= <- <-]; by apply inert_escape|] end).
  destruct (utf8ToCodepoint (b :: s)) as [cp ex] eqn:E.
  repeat case_if; intros Eo; apply (f_equal fst) in Eo; cbn [fst] in Eo; subst out.
  - apply inert_appendHex.
  - apply utf8_small in E; [|lia]. subst cp.
    assert (byte_Z (Z_byte (byte_Z b)) = byte_Z b) as Hb by (rewrite byte_Z_Z_byte, Z.mod_small; lia).
    apply inert_plain; unfold printable; rewrite Hb; lia.
  - apply inert_appendHex.
  - apply inert_app; apply inert_appendHex.
Qed.

Lemma inert_escape_loop fuel : forall s, inert (escape_loop fuel false s).
Proof.
  induction fuel as [|fuel IH]; intros s; [apply inert_nil|]. destruct s as [|b s]; [apply inert_nil|].
  cbn [escape_loop]. destruct (escape_one false (b :: s) b) as [out extra] eqn:E.
  apply inert_app; [by eapply inert_escape_one|apply IH].
Qed.

(** A quoted string is safe to embed.  Whatever bytes an annotation carries
    (control characters, quotes, backslashes, invalid UTF-8), its quoted form is
    printable ASCII between two quotes, and a reader that looks for the closing quote
    stops exactly at the last one, so no value can break out of its string. *)
Theorem quoted_string_delimited s k :
  exists body, valueToQuotedStringN s false = [Byte.x22] ++ body ++ [Byte.x22]
    /\ Forall printable body /\ scan (body ++ [Byte.x22] ++ k) = Some k.
Proof.
  unfold valueToQuotedStringN. destruct (doesAnyCharRequireEscaping s) eqn:E; cbn [negb].
  - exists (escape_loop (length s) false s). destruct (inert_escape_loop (length s) s) as [Hp Hs].
    split_and!; [done|done|]. by rewrite Hs.
  - exists s. destruct (inert_plain_all s E) as [Hp Hs]. split_and!; [done|done|]. by rewrite Hs.
Qed.

End Writer.
