(* ===== verification/Logging.v ===== *)
(** * Logging (common/src/Logging.cpp)

    The agent's messages go through one buffer of a thread to a callback or to standard
    error.  What the C library makes of a format and its arguments is an argument here; the
    process and thread ids are answers of the system. *)
From Stdlib Require Import ZArith Lia.
From Stdlib Require Strings.Byte.
From S2P Require Import Prelude Json CLib JsonWriter.

Module Logging.
Import Json CLib Writer.

Definition LOG_SIZE : Z := 40960.

(** Where a message arrives; a function pointer is a number. *)
Inductive sink := stderr | callback (f : Z).

(** The two static variables, the buffer of the thread, and what has been heard so far. *)
Record Log := mkLog {
  log_call_back_ : option Z;
  enable_trace_ : bool;
  buf : list byte;
  heard : list (sink * list byte)
}.

Definition init : Log := mkLog None false (replicate (Z.to_nat LOG_SIZE) Byte.x00) [].

Definition set_buf (s : Log) (b : list byte) : Log := mkLog (log_call_back_ s) (enable_trace_ s) b (heard s).
Definition tell (s : Log) (to : sink) (msg : list byte) : Log :=
  mkLog (log_call_back_ s) (enable_trace_ s) (buf s) (heard s ++ [(to, msg)]).

(** [snprintf(dst + ofs, size, ...)] where the format yields [text]: at most [size - 1]
    characters and a NUL are stored; the result counts the whole text. *)
Definition snprintf (dst : list byte) (ofs size : Z) (text : list byte) : outcome (list byte * Z) :=
  if size =? 0 then mret (dst, zlen text)
  else
    let stored := ztake (size - 1) text ++ [Byte.x00] in
    dst' ← memcpy dst ofs stored (zlen stored); mret (dst', zlen text).

(** What ["[pinpoint] [%d:%ld]"] yields. *)
Definition head_text (pid tid : Z) : outcome (list byte) :=
  p ← valueToString_int pid; t ← valueToString_int tid; mret (bs "[pinpoint] [" ++ p ++ bs ":" ++ t ++ bs "]").

Definition log_format_out (pid tid : Z) (text : list byte) : M Log unit :=
  head ← lift (head_text pid tid);
  b ← gets buf;
  '(b, n) ← lift (snprintf b 0 LOG_SIZE head);
  '(b, _) ← lift (snprintf b n (u64 (LOG_SIZE - n - 1)) text);
  _ ← modify (fun s => set_buf s b);
  cb ← gets log_call_back_;
  match cb with
  | Some f => modify (fun s => tell s (callback f) (c_str (buf s)))
  | None => modify (fun s => tell s stderr (c_str (buf s) ++ [Byte.x0a]))
  end.

Definition pp_trace (pid tid : Z) (text : list byte) : M Log unit :=
  enabled ← gets enable_trace_;
  if negb enabled then mret tt else log_format_out pid tid text.

Definition register_error_cb (error_cb : option Z) : M Log unit :=
  modify (fun s => mkLog error_cb (enable_trace_ s) (buf s) (heard s)).

Definition register_logging_cb (call_back : option Z) (enable_trace : Z) : M Log unit :=
  _ ← (match call_back with
       | Some f => modify (fun s => mkLog (Some f) (enable_trace_ s) (buf s) (heard s))
       | None => mret tt
       end);
  if negb (enable_trace =? 0) then modify (fun s => mkLog (log_call_back_ s) true (buf s) (heard s)) else mret tt.

(** What the bindings do: [enable_debug] of Python, and the last part of PHP's
    [PHP_MINIT_FUNCTION] with the ini entry [DebugReport]. *)
Definition py_pinpoint_enable_debug : M Log unit := register_logging_cb None 1.

Definition minit_logging (debug_report : bool) : M Log unit :=
  if debug_report then register_logging_cb None 1 else register_logging_cb None 0.

Example logging_demo :
  let run := (_ ← pp_trace 7 9 (bs "lost"); _ ← register_logging_cb None 1; _ ← pp_trace 7 9 (bs "one");
              _ ← register_logging_cb (Some 5) 0; pp_trace 7 (-9) (bs "two")) in
  heard (run init).2 = [(stderr, bs "[pinpoint] [7:9]one" ++ [Byte.x0a]); (callback 5, bs "[pinpoint] [7:-9]two")].
Proof. vm_compute. reflexivity. Qed.

(** ** The head of a message *)

Lemma uint_loop_length room : forall value current d, uint_loop room value current = Ok d -> zlen d <= Z.of_nat room + zlen current.
Proof.
  induction room as [|room IH]; intros value current d; cbn [uint_loop]; [done|]. case_if.
  - intros [= <-]. rewrite zlen_cons. lia.
  - intros E. apply IH in E. rewrite zlen_cons in E. lia.
Qed.

Lemma printed_int_length n d : valueToString_int n = Ok d -> zlen d <= 25.
Proof.
  assert (forall m r, (d ← uintToString m; mret (Byte.x2d :: d)) = Ok r -> zlen r <= 25) as Hneg.
  { intros m r E. apply outcome_bind_Ok in E as (d' & E & [= <-]). apply uint_loop_length in E. rewrite zlen_cons, zlen_nil in *. lia. }
  unfold valueToString_int. case_if; [apply Hneg|]. case_if; [apply Hneg|].
  intros E. apply uint_loop_length in E. rewrite zlen_nil in E. lia.
Qed.

Lemma digits_no_nul d : Forall is_digit d -> Byte.x00 ∉ d.
Proof. intros Hd Hin. rewrite Forall_forall in Hd. specialize (Hd _ Hin). unfold is_digit in Hd. change (byte_Z Byte.x00) with 0 in Hd. lia. Qed.

Lemma printed_int n : in_i64 n -> exists d, valueToString_int n = Ok d /\ zlen d <= 25 /\ Byte.x00 ∉ d.
Proof.
  intros Hn. destruct (valueToString_int_ok n Hn) as (d & E & _ & Hd & _). eexists. split; [exact E|].
  split; [by eapply printed_int_length|]. case_if; [rewrite not_elem_of_cons; split; [done|]|]; by apply digits_no_nul.
Qed.

Lemma head_ok pid tid : in_i64 pid -> in_i64 tid ->
  exists h, head_text pid tid = Ok h /\ zlen h <= 64 /\ Byte.x00 ∉ h.
Proof.
  intros Hp Ht. destruct (printed_int pid Hp) as (p & Ep & Lp & Np), (printed_int tid Ht) as (t & Et & Lt & Nt).
  exists (bs "[pinpoint] [" ++ p ++ bs ":" ++ t ++ bs "]"). split; [unfold head_text; rewrite Ep; cbn; by rewrite Et|]. split.
  - rewrite !zlen_app. change (zlen (bs "[pinpoint] [")) with 12. change (zlen (bs ":")) with 1. change (zlen (bs "]")) with 1. lia.
  - rewrite !not_elem_of_app. split_and!; try done; by apply (bool_decide_unpack _).
Qed.

(** ** The buffer *)

Lemma snprintf_ok dst ofs size text : 0 <= ofs -> 0 < size -> ofs + size <= zlen dst ->
  exists dst', snprintf dst ofs size text = Ok (dst', zlen text) /\ zlen dst' = zlen dst
    /\ ztake ofs dst' = ztake ofs dst
    /\ exists rest, zdrop ofs dst' = ztake (size - 1) text ++ Byte.x00 :: rest.
Proof.
  intros Ho Hs Hd. unfold snprintf. rewrite (proj2 (Z.eqb_neq _ _)) by lia. cbv zeta.
  set (stored := ztake (size - 1) text ++ [Byte.x00]).
  assert (zlen stored <= size) as Hst.
  { subst stored. rewrite zlen_app. unfold zlen, ztake. rewrite length_take. cbn [length]. lia. }
  pose proof (zlen_nonneg stored). rewrite memcpy_ok by lia. cbn.
  rewrite (ztake_all (zlen stored)) by lia. eexists. split; [done|].
  assert (zlen (ztake ofs dst) = ofs) as Ht by (apply zlen_ztake; lia). split_and!.
  - rewrite !zlen_app, Ht, zlen_zdrop by lia. lia.
  - by apply ztake_app_eq.
  - exists (zdrop (ofs + zlen stored) dst). rewrite zdrop_app_eq by done. subst stored. by rewrite <- app_assoc.
Qed.

Lemma c_str_app a b : Byte.x00 ∉ a -> c_str (a ++ b) = a ++ c_str b.
Proof.
  unfold c_str. induction a as [|x a IH]; intros Ha; cbn; [done|]. rewrite not_elem_of_cons in Ha. destruct Ha as [Hx Ha].
  rewrite bool_decide_eq_false_2 by congruence. specialize (IH Ha).
  destruct (split_at Byte.x00 (a ++ b)) as [[]|], (split_at Byte.x00 b) as [[]|]; by f_equal.
Qed.

Lemma c_str_stop a b : c_str (a ++ Byte.x00 :: b) = c_str a.
Proof.
  unfold c_str. induction a as [|x a IH]; cbn; [done|]. case_bool_decide; [done|].
  destruct (split_at Byte.x00 (a ++ Byte.x00 :: b)) as [[]|], (split_at Byte.x00 a) as [[]|]; by f_equal.
Qed.

Lemma c_str_length a : zlen (c_str a) <= zlen a.
Proof.
  unfold c_str. destruct (split_at Byte.x00 a) as [[u v]|] eqn:E; [|lia].
  apply split_at_spec in E as [-> _]. rewrite zlen_app. pose proof (zlen_nonneg (Byte.x00 :: v)). lia.
Qed.

(** ** Theorems *)

(** What of a text follows a head of [n] characters. *)
Definition cut (n : Z) (text : list byte) : list byte := c_str (ztake (LOG_SIZE - n - 2) text).

Definition delivered (cb : option Z) (msg : list byte) : sink * list byte :=
  match cb with Some f => (callback f, msg) | None => (stderr, msg ++ [Byte.x0a]) end.

(** A message of any length is formatted within the buffer: nothing is heard while tracing
    is off; when it is on, exactly one message arrives at the callback, or on a line of
    standard error when there is none, made of the ids and the text as far as it fits.  It is
    always terminated, as it never fills the buffer. *)
Theorem pp_trace_delivers pid tid text s : in_i64 pid -> in_i64 tid -> zlen (buf s) = LOG_SIZE ->
  exists s', pp_trace pid tid text s = (Ok tt, s')
    /\ zlen (buf s') = LOG_SIZE /\ log_call_back_ s' = log_call_back_ s /\ enable_trace_ s' = enable_trace_ s
    /\ if enable_trace_ s then
         exists h, head_text pid tid = Ok h /\ zlen (h ++ cut (zlen h) text) < LOG_SIZE
           /\ heard s' = heard s ++ [delivered (log_call_back_ s) (h ++ cut (zlen h) text)]
       else heard s' = heard s.
Proof.
  intros Hp Ht Hb. unfold pp_trace. rewrite bind_gets. destruct (enable_trace_ s) eqn:Een; cbn [negb]; [|by exists s; rewrite Een].
  destruct (head_ok pid tid Hp Ht) as (h & Eh & Lh & Nh). unfold log_format_out. rewrite Eh, bind_lift, bind_gets.
  pose proof (zlen_nonneg h). unfold LOG_SIZE in *.
  destruct (snprintf_ok (buf s) 0 40960 h) as (b1 & E1 & L1 & _ & r1 & D1); try lia. rewrite E1, bind_lift.
  rewrite zdrop_0, ztake_all in D1 by lia.
  rewrite u64_small by (split; lia).
  destruct (snprintf_ok b1 (zlen h) (40960 - zlen h - 1) text) as (b2 & E2 & L2 & T2 & r2 & D2); try lia. rewrite E2, bind_lift.
  assert (c_str b2 = h ++ cut (zlen h) text) as Em.
  { rewrite <- (ztake_zdrop (zlen h) b2), T2, D2, D1, ztake_app_eq, c_str_app, c_str_stop by done.
    unfold cut, LOG_SIZE. do 3 f_equal. lia. }
  assert (zlen (h ++ cut (zlen h) text) < 40960) as Hlen.
  { rewrite zlen_app. assert (zlen (cut (zlen h) text) <= 40960 - zlen h - 2); [|lia]. etransitivity; [apply c_str_length|].
    unfold zlen at 1, ztake, LOG_SIZE. rewrite length_take. lia. }
  rewrite bind_modify, bind_gets. cbn [log_call_back_ set_buf].
  destruct (log_call_back_ s) as [f|] eqn:Ecb; (eexists; split; [done|]; cbn [buf log_call_back_ enable_trace_ heard tell set_buf];
    split_and!; [lia|done|done|exists h; split_and!; [done|done|by rewrite Em]]).
Qed.

Lemma pp_trace_delivers_witness :
  exists s', pp_trace 1 2 (bs "x") (mkLog None true (replicate (Z.to_nat LOG_SIZE) Byte.x00) []) = (Ok tt, s')
    /\ zlen (buf s') = LOG_SIZE.
Proof.
  destruct (pp_trace_delivers 1 2 (bs "x") (mkLog None true (replicate (Z.to_nat LOG_SIZE) Byte.x00) []))
    as (s' & E & L & _); [by vm_compute|by vm_compute|by vm_compute|]. by exists s'.
Defined.

(** The bindings leave messages to standard error: all of them after [enable_debug], and after
    the start of the PHP module exactly when [DebugReport] is set. *)
Theorem bindings_log_to_stderr debug pid tid text s : in_i64 pid -> in_i64 tid -> zlen (buf s) = LOG_SIZE ->
  log_call_back_ s = None -> enable_trace_ s = false ->
  (exists s' msg, (_ ← py_pinpoint_enable_debug; pp_trace pid tid text) s = (Ok tt, s') /\ heard s' = heard s ++ [(stderr, msg)])
  /\ exists s', (_ ← minit_logging debug; pp_trace pid tid text) s = (Ok tt, s')
     /\ if debug : bool then exists msg, heard s' = heard s ++ [(stderr, msg)] else heard s' = heard s.
Proof.
  intros Hp Ht Hb Hc He. destruct s as [cb en b h]. cbn in *. subst cb en.
  destruct (pp_trace_delivers pid tid text (mkLog None true b h) Hp Ht Hb) as (s1 & E1 & _ & _ & _ & (m & _ & _ & H1)).
  cbn in H1. split; [exists s1; eexists; split; [exact E1|exact H1]|].
  destruct debug; [exists s1; split; [exact E1|by eexists]|]. by exists (mkLog None false b h).
Qed.

(** Calls of the three functions. *)
Inductive call :=
| c_trace (pid tid : Z) (text : list byte)
| c_register_error (cb : option Z)
| c_register (cb : option Z) (enable : Z).

Definition do_call (c : call) : M Log unit :=
  match c with
  | c_trace pid tid text => pp_trace pid tid text
  | c_register_error cb => register_error_cb cb
  | c_register cb e => register_logging_cb cb e
  end.

Fixpoint do_calls (l : list call) : M Log unit :=
  match l with [] => mret tt | c :: l' => _ ← do_call c; do_calls l' end.

Definition ids_fit (c : call) : Prop :=
  match c with c_trace pid tid _ => in_i64 pid /\ in_i64 tid | _ => True end.

Lemma do_call_keeps c s : ids_fit c -> zlen (buf s) = LOG_SIZE ->
  exists s', do_call c s = (Ok tt, s') /\ zlen (buf s') = LOG_SIZE
    /\ (enable_trace_ s = true -> enable_trace_ s' = true) /\ exists more, heard s' = heard s ++ more.
Proof.
  intros Hc Hb. destruct c as [pid tid text|cb|cb e]; cbn [do_call].
  - destruct Hc as [Hp Ht]. destruct (pp_trace_delivers pid tid text s Hp Ht Hb) as (s' & E & L & _ & Een & Hh).
    exists s'. split_and!; [done|done|by rewrite Een|]. destruct (enable_trace_ s); [destruct Hh as (h & _ & _ & Hh); by eexists|].
    exists []. by rewrite app_nil_r.
  - eexists. split_and!; [done|done|done|]. exists []. cbn. by rewrite app_nil_r.
  - unfold register_logging_cb. destruct cb, (negb (e =? 0)); (eexists; split_and!; [done|done|done|exists []; cbn; by rewrite app_nil_r]).
Qed.

(** Whatever is called, logging returns, what was heard stays heard, and once tracing is on
    nothing turns it off: [register_logging_cb] with 0 does not. *)
Theorem logging_total l : forall s, Forall ids_fit l -> zlen (buf s) = LOG_SIZE ->
  exists s', do_calls l s = (Ok tt, s') /\ zlen (buf s') = LOG_SIZE
    /\ (enable_trace_ s = true -> enable_trace_ s' = true) /\ exists more, heard s' = heard s ++ more.
Proof.
  induction l as [|c l IH]; intros s Hl Hb.
  { exists s. split_and!; try done. exists []. by rewrite app_nil_r. }
  apply Forall_cons in Hl as [Hc Hl]. cbn [do_calls].
  destruct (do_call_keeps c s Hc Hb) as (s1 & E1 & L1 & En1 & m1 & H1). rewrite (bind_run _ _ _ _ _ E1).
  destruct (IH s1 Hl L1) as (s2 & E2 & L2 & En2 & m2 & H2). exists s2. split_and!; auto.
  exists (m1 ++ m2). by rewrite H2, H1, app_assoc.
Qed.

End Logging.
