(* ===== verification/Layout.v ===== *)
(** * What the styled writers print

    A layout of a value is its compact form with blanks between the tokens.  The algorithm
    of [BuiltStyledStreamWriter], with its collected children, its right margin and its
    indentation, prints a layout whatever the style; with the settings [NodeTreeWriter]
    makes the only blank is the empty one, and the layout is the compact form itself. *)
From Stdlib Require Import ZArith Lia.
From Stdlib Require Strings.Byte.
From S2P Require Import Prelude Double Real Json JsonWriter.

Module Layout.
Import Json Writer.

(** ** Layouts *)

(** The text of a value that is one token. *)
Definition token_text (real_text : Real.real -> list byte) (quote : list byte -> list byte) (v : Value) : option (list byte) :=
  match v with
  | nullValue => Some (bs "null")
  | intValue n => Some (text_of (valueToString_int n))
  | uintValue n => Some (text_of (valueToString_uint n))
  | realValue r => Some (real_text r)
  | stringValue s => Some (quote s)
  | booleanValue b => Some (valueToString_bool b)
  | arrayValue _ | objectValue _ => None
  end.

Section layout.
Context (blank : list byte -> Prop) (real_text : Real.real -> list byte) (quote : list byte -> list byte).

(** A text between two blanks. *)
Definition padded (P : list byte -> Prop) (u : list byte) : Prop :=
  exists a t b, blank a /\ blank b /\ P t /\ u = a ++ t ++ b.

(** A member: its name, a colon and its value, with blanks around them. *)
Definition member_of (L : Value -> list byte -> Prop) (kv : list byte * Value) (u : list byte) : Prop :=
  exists k x, u = k ++ bs ":" ++ x /\ padded (eq (quote (fst kv))) k /\ padded (L (snd kv)) x.

Inductive layout : Value -> list byte -> Prop :=
| layout_token v t : token_text real_text quote v = Some t -> layout v t
| layout_array l us w : Forall2 (fun v => padded (layout v)) l us -> blank w ->
    layout (arrayValue l) (bs "[" ++ join (bs ",") us ++ w ++ bs "]")
| layout_object m us w :
    Forall2 (member_of layout) m us -> blank w ->
    layout (objectValue m) (bs "{" ++ join (bs ",") us ++ w ++ bs "}").

(** A layout behind a blank. *)
Definition lead (v : Value) (u : list byte) : Prop := exists w t, blank w /\ layout v t /\ u = w ++ t.

End layout.

(** A predicate on all keys of a value. *)
Fixpoint all_keys (P : list byte -> Prop) (v : Value) : Prop :=
  match v with
  | arrayValue l => fold_right (fun x Q => all_keys P x /\ Q) True l
  | objectValue m => fold_right (fun kv Q => (P (fst kv) /\ all_keys P (snd kv)) /\ Q) True m
  | _ => True
  end.

(** What the proof needs of a style: its texts are those of layouts, and its indentation
    writes blanks.  [G] holds of every [indentString_]. *)
Class Blanks (blank G : list byte -> Prop) (st : Style) : Prop := {
  blank_nil : blank [];
  blank_app a b : blank a -> blank b -> blank (a ++ b);
  G_nil : G [];
  null_text : st_null st = bs "null";
  colon_text : exists a b, blank a /\ blank b /\ st_colon st = a ++ bs ":" ++ b;
  open_text : exists a, blank a /\ st_open st = bs "[" ++ a;
  comma_text : exists a, blank a /\ st_comma st = bs "," ++ a;
  close_text : exists a, blank a /\ st_close st = a ++ bs "]";
  indent_G i : G i -> G (st_indent st i);
  unindent_G i : G i -> G (st_unindent st i);
  (** [writeWithIndent] prints a blank and its argument *)
  with_indent_run t s : G (indentString_ s) -> exists w i,
    blank w /\ st_writeWithIndent st t s = (Ok tt, set_indented (put_out s (w ++ t)) i);
  before_run s : G (indentString_ s) -> exists w i,
    blank w /\ st_before st s = (Ok tt, set_indented (put_out s w) i);
  after_run s : exists i, st_after st s = (Ok tt, set_indented s i)
}.

(** ** The algorithm prints a layout *)

(** Values the measuring loop may meet: no element with elements of its own. *)
Definition flat (v : Value) : bool := negb ((isArray v || isObject v) && negb (empty v)).

Lemma forallb_flat l :
  existsb (fun v => (isArray v || isObject v) && negb (empty v)) l = false -> forallb flat l = true.
Proof.
  induction l as [|v l IH]; cbn; [done|]. intros E. apply orb_false_iff in E as [E1 E2].
  apply andb_true_iff. split; [|by apply IH]. unfold flat. by rewrite E1.
Qed.

Section prints.
Context {blank G : list byte -> Prop} {st : Style} {HB : Blanks blank G st}.

Abbreviation never := (fun (_ : exn) (_ : WState) => False).
Abbreviation texts := (list (list byte)).
Abbreviation lay := (layout blank (st_real st) (st_quote st)).
Abbreviation lead' := (lead blank (st_real st) (st_quote st)).

(** Values are printed rather than collected, and the indentation is fine. *)
Definition ok (s : WState) : Prop := addChildValues_ s = false /\ G (indentString_ s).

(** From collected children in [K], [m] prints a text in [P] and leaves children in [K']. *)
Definition prints (K : texts -> Prop) (m : M WState unit) (P : list byte -> Prop) (K' : texts -> Prop) : Prop :=
  forall s, ok s -> K (childValues_ s) ->
  wp m (fun _ s' => ok s' /\ K' (childValues_ s') /\ exists t, P t /\ sout s' = sout s ++ t) never s.

(** A text of [P], then one of [Q]. *)
Definition then_ (P Q : list byte -> Prop) (t : list byte) : Prop := exists a b, P a /\ Q b /\ t = a ++ b.

Lemma prints_seq K m P K1 m' Q K2 : prints K m P K1 -> prints K1 m' Q K2 -> prints K (_ ← m; m') (then_ P Q) K2.
Proof.
  intros Hm Hm' s Hs HK. wps. eapply wp_mono; [by apply Hm| |done]. intros [] s1 (Hs1 & HK1 & t1 & Ht1 & E1).
  eapply wp_mono; [by apply Hm'| |done]. intros [] s2 (Hs2 & HK2 & t2 & Ht2 & E2).
  split_and!; [done..|]. exists (t1 ++ t2). split; [by exists t1, t2|]. by rewrite E2, E1, app_assoc.
Qed.

Lemma prints_weaken K m (P Q : list byte -> Prop) K' (K2 : texts -> Prop) : prints K m P K' ->
  (forall t, P t -> Q t) -> (forall c, K' c -> K2 c) -> prints K m Q K2.
Proof.
  intros Hm HPQ HK s Hs HKs. eapply wp_mono; [by apply Hm| |done]. intros [] s' (? & ? & t & Ht & E).
  split_and!; [done|by apply HK|]. exists t. split; [by apply HPQ|done].
Qed.

Lemma prints_emit K t : prints K (emit t) (eq t) K.
Proof. intros s Hs HK. unfold emit. wps. split_and!; [done..|]. by exists t. Qed.

Lemma prints_nothing K : prints K (mret tt) (eq []) K.
Proof. intros s Hs HK. wps. split_and!; [done..|]. exists []. by rewrite app_nil_r. Qed.

Lemma prints_push K t : prints K (pushValue t) (eq t) K.
Proof. intros s [Ha Hg] HK. unfold pushValue. wps. rewrite Ha. split_and!; [done..|]. by exists t. Qed.

(** A blank, then [t]. *)
Definition behind_blank (t u : list byte) : Prop := exists w, blank w /\ u = w ++ t.

Lemma prints_with_indent K t : prints K (st_writeWithIndent st t) (behind_blank t) K.
Proof.
  intros s [Ha Hg] HK. destruct (with_indent_run t s Hg) as (w & i & Hw & E). unfold wp. rewrite E.
  split_and!; [done..|]. exists (w ++ t). split; [by exists w|done].
Qed.

Lemma prints_before K : prints K (st_before st) blank K.
Proof.
  intros s [Ha Hg] HK. destruct (before_run s Hg) as (w & i & Hw & E). unfold wp. rewrite E.
  split_and!; [done..|]. by exists w.
Qed.

Lemma prints_after K : prints K (st_after st) (eq []) K.
Proof.
  intros s [Ha Hg] HK. destruct (after_run s) as (i & E). unfold wp. rewrite E.
  split_and!; [done..|]. exists []. by rewrite app_nil_r.
Qed.

Lemma prints_enter K : prints K (enter st) (eq []) K.
Proof.
  intros s [Ha Hg] HK. unfold enter. wps. split_and!; [split; [done|by apply indent_G]|done|].
  exists []. by rewrite app_nil_r.
Qed.

Lemma prints_leave K : prints K (leave st) (eq []) K.
Proof.
  intros s [Ha Hg] HK. unfold leave. wps. split_and!; [split; [done|by apply unindent_G]|done|].
  exists []. by rewrite app_nil_r.
Qed.

(** Where every array gets a line for each element, no child is ever collected. *)
Definition kept (cs : texts) : Prop := st_multiline st = true -> cs = [].

(** Elements and members between commas. *)
Definition elements (l : list Value) (t : list byte) : Prop :=
  exists us, Forall2 (fun v => padded blank (lay v)) l us /\ t = join (bs ",") us.

Definition member_texts (m : members) (t : list byte) : Prop :=
  exists us, Forall2 (member_of blank (st_quote st) lay) m us /\ t = join (bs ",") us.

Lemma padded_lead a v t : blank a -> lay v t -> padded blank (lay v) (a ++ t).
Proof. intros Ha Ht. exists a, t, []. rewrite app_nil_r. split_and!; try done. apply blank_nil. Qed.

Lemma elements_one v u : padded blank (lay v) u -> elements [v] u.
Proof. intros H. exists [u]. split; [by repeat constructor|]. cbn. by rewrite app_nil_r. Qed.

Lemma elements_cons v w l u t : padded blank (lay v) u -> elements (w :: l) t -> elements (v :: w :: l) (u ++ bs "," ++ t).
Proof.
  intros Hu (us & Hus & ->). exists (u :: us). split; [by constructor|].
  destruct us as [|u' us]; [by apply Forall2_cons_nil_inv in Hus|]. by rewrite join_cons.
Qed.

(** Collecting a flat value. *)
Lemma writeValue_flat v s : fits v -> flat v = true -> addChildValues_ s = true ->
  exists t, lay v t /\ writeValue st v s = (Ok tt, set_children s (childValues_ s ++ [t]) true).
Proof.
  intros Hf Hfl Ha.
  assert (forall t, pushValue t s = (Ok tt, set_children s (childValues_ s ++ [t]) true)) as Hpush
    by (intros t; unfold pushValue, modify; by rewrite Ha).
  destruct v as [|n|n|t|t|b|l|m]; cbn [writeValue];
    try (eexists; split; [by apply layout_token|rewrite ?null_text; by apply Hpush]).
  - destruct (valueToString_int_ok n Hf) as (d & E & _). eexists. split; [by apply layout_token|]. rewrite E, bind_lift. apply Hpush.
  - destruct (uintToString_ok n Hf) as (d & E & _). eexists. split; [by apply layout_token|]. unfold valueToString_uint. rewrite E, bind_lift. apply Hpush.
  - assert (l = []) as ->.
    { destruct l; [done|]. cbn in Hfl. unfold empty in Hfl. cbn in Hfl. unfold zlen in Hfl. done. }
    exists (bs "[]"). split; [exact (layout_array _ _ _ [] [] [] ltac:(constructor) blank_nil)|apply Hpush].
  - assert (m = []) as ->.
    { destruct m; [done|]. cbn in Hfl. unfold empty in Hfl. cbn in Hfl. unfold zlen in Hfl. done. }
    exists (bs "{}"). split; [exact (layout_object _ _ _ [] [] [] ltac:(constructor) blank_nil)|apply Hpush].
Qed.

Lemma measure_loop_spec l : forall index len s,
  Forall fits l -> forallb flat l = true -> addChildValues_ s = true -> index = length (childValues_ s) ->
  exists ts len', Forall2 lay l ts
    /\ measure_loop (writeValue st) l index len s = (Ok len', set_children s (childValues_ s ++ ts) true).
Proof.
  induction l as [|v l IH]; intros index len s Hf Hfl Ha Hi; cbn [measure_loop].
  { exists [], len. split; [constructor|]. rewrite app_nil_r. by destruct s; cbn in *; subst. }
  apply Forall_cons in Hf as [Hv Hf]. apply andb_true_iff in Hfl as [Hflv Hfl].
  destruct (writeValue_flat v s Hv Hflv Ha) as (t & Ht & E). rewrite (bind_run _ _ _ _ _ E).
  unfold child_value. rewrite bind_assoc, bind_get. cbn [childValues_ set_children].
  rewrite Hi, lookup_app_r, Nat.sub_diag by lia. cbn [lookup list_lookup]. rewrite bind_mret.
  destruct (IH (S (length (childValues_ s))) (u32 (len + u32 (zlen t))) (set_children s (childValues_ s ++ [t]) true))
    as (ts & len' & Hts & ->); try done; [cbn; rewrite length_app; cbn; lia|].
  exists (t :: ts), len'. split; [by constructor|]. cbn. by rewrite <- app_assoc.
Qed.

(** [isMultilineArray] prints nothing and has collected no child or all of them. *)
Lemma isMultilineArray_spec l s : Forall fits l -> ok s ->
  wp (isMultilineArray st (writeValue st) l)
    (fun b s' => ok s' /\ sout s' = sout s /\ (Forall2 lay l (childValues_ s') \/ childValues_ s' = [] /\ b = true))
    never s.
Proof.
  intros Hf [Ha Hg]. unfold isMultilineArray. wps. wps. case_if.
  - apply negb_true_iff, orb_false_iff in Heqb as [_ Hfl]. apply forallb_flat in Hfl.
    wps. wps. wps. cbn [childValues_ set_children]. set (s1 := set_children _ _ true).
    destruct (measure_loop_spec l 0 (u32 (4 + u32 (u32 (u32 (zlen l) - 1) * 2))) s1 Hf Hfl) as (ts & len' & Hts & E);
      [done|done|]. unfold wp at 1. rewrite E. wps. wps. wps. split_and!; [done|done|by left].
  - wps. split_and!; [done|done|by right].
Qed.

(** *** The loops *)

Lemma child_value_run index c s : childValues_ s !! index = Some c -> child_value index s = (Ok c, s).
Proof. intros E. unfold child_value. by rewrite bind_get, E. Qed.

Lemma prints_child cs index c (f : list byte -> M WState unit) P K' :
  cs !! index = Some c -> prints (eq cs) (f c) P K' -> prints (eq cs) (c ← child_value index; f c) P K'.
Proof.
  intros Ec Hf s Hs HK. wps. unfold wp at 1. rewrite (child_value_run index c) by (by rewrite <- HK). by apply Hf.
Qed.

Lemma drop_cons (cs : texts) index c cs' : drop index cs = c :: cs' -> cs !! index = Some c /\ drop (S index) cs = cs'.
Proof.
  intros Ed. assert (cs !! index = Some c) as Ec by (by rewrite <- (Nat.add_0_r index), <- lookup_drop, Ed).
  split; [done|]. rewrite (drop_S _ _ _ Ec) in Ed. by injection Ed.
Qed.

Lemma multi_loop_children cs l : forall index, l <> [] -> Forall2 lay l (drop index cs) ->
  prints (eq cs) (multi_loop st (writeValue st) l index true) (elements l) (eq cs).
Proof.
  induction l as [|v l IH]; intros index Hne Hl; [done|]. cbn [multi_loop].
  destruct (drop index cs) as [|c cs'] eqn:Ed; [by apply Forall2_cons_nil_inv in Hl|].
  apply Forall2_cons in Hl as [Hc Hl]. destruct (drop_cons _ _ _ _ Ed) as [Ec Ed'].
  destruct l as [|v' l].
  - eapply prints_weaken; [eapply prints_seq; [apply (prints_child cs index c _ _ _ Ec), prints_with_indent|apply prints_nothing]| |done].
    intros t (u & b & (w & Hw & ->) & <- & ->). rewrite app_nil_r. by apply elements_one, padded_lead.
  - eapply prints_weaken; [eapply prints_seq; [apply (prints_child cs index c _ _ _ Ec), prints_with_indent|
      eapply prints_seq; [apply prints_emit|apply (IH (S index)); [done|by rewrite Ed']]]| |done].
    intros t (u & ? & (w & Hw & ->) & (? & b & <- & Hb & ->) & ->). by apply elements_cons; [apply padded_lead|].
Qed.

Lemma single_loop_spec cs l : forall index, l <> [] -> (0 < index)%nat -> Forall2 lay l (drop index cs) ->
  prints (eq cs) (single_loop st (length l) index)
    (fun t => exists u, elements l u /\ t = bs "," ++ u) (eq cs).
Proof.
  induction l as [|v l IH]; intros index Hne Hi Hl; [done|]. cbn [single_loop length].
  rewrite (proj2 (Nat.ltb_lt 0 index)) by lia. destruct comma_text as (a & Hab & Ea).
  destruct (drop index cs) as [|c cs'] eqn:Ed; [by apply Forall2_cons_nil_inv in Hl|].
  apply Forall2_cons in Hl as [Hc Hl]. destruct (drop_cons _ _ _ _ Ed) as [Ec Ed'].
  destruct l as [|v' l].
  - eapply prints_weaken; [eapply prints_seq; [apply prints_emit|apply (prints_child cs index c _ _ _ Ec);
      eapply prints_seq; [apply prints_emit|apply prints_nothing]]| |done].
    intros t (? & ? & <- & (? & ? & <- & <- & ->) & ->). exists (a ++ c). rewrite Ea, app_nil_r, <- app_assoc.
    split; [by apply elements_one, padded_lead|done].
  - eapply prints_weaken; [eapply prints_seq; [apply prints_emit|apply (prints_child cs index c _ _ _ Ec);
      eapply prints_seq; [apply prints_emit|apply (IH (S index)); [done|lia|by rewrite Ed']]]| |done].
    intros t (? & ? & <- & (? & ? & <- & (u & Hu & ->) & ->) & ->). exists ((a ++ c) ++ bs "," ++ u).
    split; [by apply elements_cons; [apply padded_lead|]|]. by rewrite Ea, <- !app_assoc.
Qed.

Lemma single_loop_all cs l : l <> [] -> Forall2 lay l cs ->
  forall a, blank a -> prints (eq cs) (single_loop st (length l) 0) (fun t => elements l (a ++ t)) (eq cs).
Proof.
  intros Hne Hl a Ha. destruct l as [|v l]; [done|]. cbn [single_loop length].
  destruct cs as [|c cs]; [by apply Forall2_cons_nil_inv in Hl|]. apply Forall2_cons in Hl as [Hc Hl].
  destruct l as [|v' l].
  - eapply prints_weaken; [eapply prints_seq; [apply prints_nothing|apply (prints_child (c :: cs) 0 c _ _ _ eq_refl);
      eapply prints_seq; [apply prints_emit|apply prints_nothing]]| |done].
    intros t (? & ? & <- & (? & ? & <- & <- & ->) & ->). cbn. rewrite app_nil_r. by apply elements_one, padded_lead.
  - eapply prints_weaken; [eapply prints_seq; [apply prints_nothing|apply (prints_child (c :: cs) 0 c _ _ _ eq_refl);
      eapply prints_seq; [apply prints_emit|apply (single_loop_spec (c :: cs) (v' :: l) 1); [done|lia|done]]]| |done].
    intros t (? & ? & <- & (? & ? & <- & (u & Hu & ->) & ->) & ->). cbn [app]. rewrite app_assoc.
    by apply elements_cons; [apply padded_lead|].
Qed.

(** A value that is printed in place. *)
Definition prints_value (v : Value) : Prop := prints kept (writeValue st v) (lead' v) kept.

Lemma padded_app a b v u : blank a -> lead' v u -> blank b -> padded blank (lay v) (a ++ u ++ b).
Proof.
  intros Ha (w & t & Hw & Ht & ->) Hb. exists (a ++ w), t, b. rewrite <- !app_assoc. split_and!; try done. by apply blank_app.
Qed.

Lemma element_direct v : prints_value v ->
  prints kept (_ ← st_before st; _ ← writeValue st v; st_after st) (padded blank (lay v)) kept.
Proof.
  intros Hv. eapply prints_weaken; [eapply prints_seq; [apply prints_before|eapply prints_seq; [apply Hv|apply prints_after]]| |done].
  intros t (a & ? & Ha & (u & ? & Hu & <- & ->) & ->). apply padded_app; try done. apply blank_nil.
Qed.

Lemma multi_loop_direct l : forall index, l <> [] -> Forall prints_value l ->
  prints kept (multi_loop st (writeValue st) l index false) (elements l) kept.
Proof.
  induction l as [|v l IH]; intros index Hne Hl; [done|]. apply Forall_cons in Hl as [Hv Hl]. cbn [multi_loop].
  destruct l as [|v' l].
  - eapply prints_weaken; [eapply prints_seq; [by apply element_direct|apply prints_nothing]| |done].
    intros t (u & ? & Hu & <- & ->). rewrite app_nil_r. by apply elements_one.
  - eapply prints_weaken; [eapply prints_seq; [by apply element_direct|eapply prints_seq; [apply prints_emit|by apply IH]]| |done].
    intros t (u & ? & Hu & (? & ? & <- & Hb & ->) & ->). by apply elements_cons.
Qed.

Lemma member_loop_spec m : m <> [] -> Forall (fun kv => prints_value (snd kv)) m ->
  Forall (fun kv => st_quote_name st (fst kv) = st_quote st (fst kv)) m ->
  prints kept (member_loop st (writeValue st) m) (member_texts m) kept.
Proof.
  induction m as [|[k v] m IH]; intros Hne Hm Hk; [done|]. apply Forall_cons in Hm as [Hv Hm]. apply Forall_cons in Hk as [Ek Hk].
  cbn [member_loop fst snd] in *. rewrite Ek. destruct colon_text as (a & b & Ha & Hb & Ec). rewrite Ec.
  assert (forall w u, blank w -> lead' v u ->
    member_of blank (st_quote st) lay (k, v) (w ++ st_quote st k ++ (a ++ bs ":" ++ b) ++ u)) as Hmem.
  { intros w u Hw Hu. exists (w ++ st_quote st k ++ a), (b ++ u ++ []). rewrite app_nil_r, <- !app_assoc. split; [done|]. split.
    - by exists w, (st_quote st k), a.
    - rewrite <- (app_nil_r u). apply padded_app; try done. apply blank_nil. }
  destruct m as [|kv m].
  - eapply prints_weaken; [eapply prints_seq; [apply prints_with_indent|eapply prints_seq; [apply prints_emit|
      eapply prints_seq; [apply Hv|apply prints_nothing]]]| |done].
    intros t (? & ? & (w & Hw & ->) & (? & ? & <- & (u & ? & Hu & <- & ->) & ->) & ->). rewrite app_nil_r.
    eexists [_]. split; [repeat constructor; by apply (Hmem w u)|]. cbn. by rewrite app_nil_r, <- !app_assoc.
  - eapply prints_weaken; [eapply prints_seq; [apply prints_with_indent|eapply prints_seq; [apply prints_emit|
      eapply prints_seq; [apply Hv|eapply prints_seq; [apply prints_emit|by apply IH]]]]| |done].
    intros t (? & ? & (w & Hw & ->) & (? & ? & <- & (u & ? & Hu & (? & ? & <- & (us & Hus & ->) & ->) & ->) & ->) & ->).
    eexists (_ :: us). split; [constructor; [by apply (Hmem w u)|done]|].
    destruct us as [|u' us]; [by apply Forall2_cons_nil_inv in Hus|]. rewrite join_cons. by rewrite <- !app_assoc.
Qed.

(** An array is between brackets; the opening one comes behind a blank. *)
Lemma array_text l a u w : blank a -> elements l u -> blank w ->
  lead' (arrayValue l) (a ++ (bs "[" ++ u) ++ w ++ bs "]").
Proof.
  intros Ha (us & Hus & ->) Hw. exists a, (bs "[" ++ join (bs ",") us ++ w ++ bs "]"). rewrite <- !app_assoc.
  split_and!; [done|by constructor|done].
Qed.

Lemma multi_array l s : l <> [] -> Forall prints_value l -> ok s ->
  (Forall2 lay l (childValues_ s) \/ childValues_ s = []) -> (childValues_ s <> [] -> st_multiline st = false) ->
  wp (_ ← st_writeWithIndent st (bs "["); _ ← enter st;
      hasChildValue ← gets (fun s => negb (bool_decide (childValues_ s = [])));
      _ ← multi_loop st (writeValue st) l 0 hasChildValue; _ ← leave st; st_writeWithIndent st (bs "]"))
    (fun _ s' => ok s' /\ kept (childValues_ s') /\ exists t, lead' (arrayValue l) t /\ sout s' = sout s ++ t) never s.
Proof.
  intros Hne Hl Hs Hc Hm. set (cs := childValues_ s) in *.
  assert (prints (eq cs) (hasChildValue ← gets (fun s => negb (bool_decide (childValues_ s = [])));
    _ ← multi_loop st (writeValue st) l 0 hasChildValue; _ ← leave st; st_writeWithIndent st (bs "]"))
    (then_ (elements l) (then_ (eq []) (behind_blank (bs "]")))) kept) as Hin.
  { intros s1 Hs1 HK. wps. wps. rewrite <- HK. destruct (bool_decide_reflect (cs = [])) as [E|E]; cbn [negb].
    - eapply (prints_seq kept _ _ kept); [by apply multi_loop_direct|eapply prints_seq; [apply prints_leave|apply prints_with_indent]|done|].
      intros _. by rewrite <- HK.
    - destruct Hc as [Hc|]; [|done]. eapply (prints_seq (eq cs) _ _ (eq cs)); [by apply multi_loop_children| |done|done].
      eapply prints_seq; [apply prints_leave|]. eapply prints_weaken; [apply prints_with_indent|done|].
      intros c <- Hst. by rewrite Hm in Hst. }
  eapply wp_mono; [eapply (prints_seq (eq cs)); [apply prints_with_indent|eapply prints_seq; [apply prints_enter|exact Hin]|done|done]| |done].
  intros [] s' (Hs' & HK & t & (? & ? & (a & Ha & ->) & (? & ? & <- & (u & ? & Hu & (? & ? & <- & (w & Hw & ->) & ->) & ->) & ->) & ->) & E).
  split_and!; [done..|]. eexists. split; [by apply (array_text l a u w)|]. rewrite E. by rewrite <- !app_assoc.
Qed.

Lemma single_array l s : l <> [] -> ok s -> Forall2 lay l (childValues_ s) -> st_multiline st = false ->
  wp (_ ← emit (st_open st); _ ← single_loop st (length l) 0; emit (st_close st))
    (fun _ s' => ok s' /\ kept (childValues_ s') /\ exists t, lead' (arrayValue l) t /\ sout s' = sout s ++ t) never s.
Proof.
  intros Hne Hs Hc Hm. destruct open_text as (a & Ha & Ea), close_text as (b & Hb & Eb).
  eapply wp_mono; [eapply (prints_seq (eq (childValues_ s))); [apply prints_emit|eapply prints_seq;
    [by apply (single_loop_all _ _ Hne Hc a)|apply prints_emit]|done|done]| |done].
  intros [] s' (Hs' & HK & t & (? & ? & <- & (u & ? & Hu & <- & ->) & ->) & E).
  split_and!; [done|intros Hst; congruence|]. eexists. split; [by apply (array_text l [] (a ++ u) b blank_nil)|].
  rewrite E, Ea, Eb. cbn [app]. by rewrite <- !app_assoc.
Qed.

Lemma writeArrayValue_spec l : Forall fits l -> zlen l < 2 ^ 32 -> Forall prints_value l ->
  prints kept (writeArrayValue st (writeValue st) l) (lead' (arrayValue l)) kept.
Proof.
  intros Hf Hz Hl s Hs HK. unfold writeArrayValue. pose proof (zlen_nonneg l). rewrite u32_small by word.
  destruct (decide (l = [])) as [->|Hne].
  { eapply wp_mono; [by apply (prints_push kept)| |done]. intros [] s' (? & ? & t & <- & E). split_and!; [done..|].
    eexists. split; [|exact E]. exists [], (bs "[]"). split_and!; [apply blank_nil| |done].
    exact (layout_array _ _ _ [] [] [] ltac:(constructor) blank_nil). }
  rewrite (proj2 (Z.eqb_neq _ 0)) by (destruct l; [done|]; rewrite zlen_cons; pose proof (zlen_nonneg l); lia). wps.
  destruct (st_multiline st) eqn:Em.
  - wps. apply multi_array; try done; [right; by apply HK|]. by rewrite (HK Em).
  - eapply wp_mono; [by apply isMultilineArray_spec| |done]. intros b s1 (Hs1 & E1 & Hc). rewrite <- E1.
    destruct b.
    + apply multi_array; try done. destruct Hc as [|[]]; auto.
    + apply single_array; try done. destruct Hc as [|[]]; done.
Qed.

Lemma writeValue_spec v : fits v -> all_keys (fun k => st_quote_name st k = st_quote st k) v -> prints_value v.
Proof.
  induction v as [|n|n|t|t|b|l IH|m IH] using Value_rect_nested; intros Hf Hk; unfold prints_value; cbn [writeValue].
  all: assert (forall v t, token_text (st_real st) (st_quote st) v = Some t -> prints kept (pushValue t) (lead' v) kept) as Hpush
    by (intros v' t' Ht; eapply prints_weaken; [apply prints_push| |done]; intros ? <-; exists [], t';
        split_and!; [apply blank_nil|by constructor|done]).
  - apply Hpush. by rewrite null_text.
  - destruct (valueToString_int_ok n Hf) as (d & E & _). intros s Hs HK. unfold wp. rewrite E, bind_lift.
    apply (Hpush (intValue n)); [cbn; by rewrite E|done|done].
  - destruct (uintToString_ok n Hf) as (d & E & _). intros s Hs HK. unfold wp, valueToString_uint. rewrite E, bind_lift.
    apply (Hpush (uintValue n)); [change (Some (text_of (uintToString n)) = Some d); by rewrite E|done|done].
  - by apply Hpush.
  - by apply Hpush.
  - by apply Hpush.
  - cbn in Hf, Hk. rewrite !fold_Forall in *. destruct Hf as [Hz Hf]. apply writeArrayValue_spec; try done.
    rewrite Forall_forall in *. intros v Hv. by apply IH; auto.
  - cbn in Hf, Hk. rewrite (fold_Forall (fun kv : list byte * Value => fits (snd kv))) in Hf.
    rewrite (fold_Forall (fun kv : list byte * Value => st_quote_name st (fst kv) = st_quote st (fst kv)
      /\ all_keys (fun k => st_quote_name st k = st_quote st k) (snd kv))) in Hk.
    destruct (decide (m = [])) as [->|Hne].
    { eapply prints_weaken; [apply prints_push| |done]. intros ? <-. exists [], (bs "{}"). split_and!; [apply blank_nil| |done].
      exact (layout_object _ _ _ [] [] [] ltac:(constructor) blank_nil). }
    assert (prints kept (member_loop st (writeValue st) m) (member_texts m) kept) as Hm.
    { rewrite Forall_forall in *. apply member_loop_spec; [done|..]; apply Forall_forall; intros kv Hkv; [|by apply Hk].
      apply IH; [done|by apply Hf|by apply Hk]. }
    destruct m as [|kv m]; [done|]. eapply prints_weaken; [eapply prints_seq; [apply prints_with_indent|eapply prints_seq; [apply prints_enter|
      eapply prints_seq; [exact Hm|eapply prints_seq; [apply prints_leave|apply prints_with_indent]]]]| |done].
    intros t (? & ? & (a & Ha & ->) & (? & ? & <- & (? & ? & (us & Hus & ->) & (? & ? & <- & (w & Hw & ->) & ->) & ->) & ->) & ->).
    exists a, (bs "{" ++ join (bs ",") us ++ w ++ bs "}"). split_and!; [done|by constructor|]. by rewrite <- !app_assoc.
Qed.

Lemma document_layout v ending : fits v -> all_keys (fun k => st_quote_name st k = st_quote st k) v ->
  exists u, lead' v u /\ document st v ending = Ok (u ++ ending).
Proof.
  intros Hf Hk. unfold document. pose proof (writeValue_spec v Hf Hk (mkWState [] [] false true [])) as W.
  specialize (W ltac:(split; [done|apply G_nil]) ltac:(done)). unfold wp in W.
  destruct (writeValue st v _) as [[[]| | |] s] eqn:Ew; try done. rewrite (bind_run _ _ _ _ _ Ew).
  destruct W as (_ & _ & u & Hu & E). exists u. split; [done|]. cbn. by rewrite E.
Qed.

End prints.

(** ** Blanks *)

Definition is_white (c : byte) : bool :=
  match c with Byte.x20 | Byte.x09 | Byte.x0d | Byte.x0a => true | _ => false end.

Definition white (t : list byte) : Prop := Forall (fun c => is_white c = true) t.

(** Without blanks the layout is the compact form. *)
Lemma layout_tight real_text quote v : (forall r, real_text r = Real.real_text r) ->
  (forall s, quote s = valueToQuotedStringN s false) ->
  forall t, layout (eq []) real_text quote v t -> t = compact v.
Proof.
  intros Hreal Hq. assert (forall P u, padded (eq []) P u -> P u) as Hpad.
  { intros P u (a & t & b & <- & <- & Ht & ->). by rewrite app_nil_r. }
  induction v as [|n|n|x|x|b|l IH|m IH] using Value_rect_nested; intros t Ht; inversion Ht as [? ? Etok|? us w Hus Hw|? us w Hus Hw]; subst;
    try discriminate; try (injection Etok as <-; cbn; by rewrite ?Hreal, ?Hq).
  - cbn [compact app]. f_equal. f_equal. f_equal. clear Ht. induction Hus as [|v u l us Hu Hus IHus]; [done|].
    apply Forall_cons in IH as [Hv IH]. cbn [map]. f_equal; [by apply Hv, Hpad|by apply IHus].
  - cbn [compact app]. f_equal. f_equal. f_equal. clear Ht. induction Hus as [|kv u m us Hu Hus IHus]; [done|].
    apply Forall_cons in IH as [Hv IH]. cbn [map]. f_equal; [|by apply IHus].
    destruct Hu as (k & x & -> & Hk%Hpad & Hx%Hpad). subst k. rewrite Hq. by rewrite (Hv x Hx).
Qed.

(** *** [BuiltStyledStreamWriter] *)

(** Writing with the flag [indented_], over any [writeIndent]. *)
Lemma flag_run (blank G : list byte -> Prop) (wi : M WState unit) :
  blank [] -> (forall s, G (indentString_ s) -> exists w, blank w /\ wi s = (Ok tt, put_out s w)) ->
  (forall t s, G (indentString_ s) -> exists w i, blank w
     /\ (s ← get; _ ← (if negb (indented_ s) then wi else mret tt); _ ← emit t; modify (fun s => set_indented s false)) s
        = (Ok tt, set_indented (put_out s (w ++ t)) i))
  /\ (forall s, G (indentString_ s) -> exists w i, blank w
     /\ (s ← get; _ ← (if negb (indented_ s) then wi else mret tt); modify (fun s => set_indented s true)) s
        = (Ok tt, set_indented (put_out s w) i)).
Proof.
  intros Hnil Hwi. assert (forall (b : bool) s, G (indentString_ s) -> exists w, blank w
    /\ (if b then wi else mret tt) s = (Ok tt, put_out s w)) as Hb.
  { intros [] s Hs; [by apply Hwi|]. exists []. split; [done|]. destruct s. unfold put_out. cbn. by rewrite app_nil_r. }
  split.
  - intros t s Hs. destruct (Hb (negb (indented_ s)) s Hs) as (w & Hw & E). exists w, false. split; [done|].
    rewrite bind_get, (bind_run _ _ _ _ _ E). cbn. unfold put_out. cbn. by rewrite app_assoc.
  - intros s Hs. destruct (Hb (negb (indented_ s)) s Hs) as (w & Hw & E). exists w, true. split; [done|].
    by rewrite bind_get, (bind_run _ _ _ _ _ E).
Qed.

Lemma built_blanks (blank G : list byte -> Prop) cfg :
  blank [] -> (forall a b, blank a -> blank b -> blank (a ++ b)) -> G [] ->
  (indentation_ cfg = [] \/ blank (bs " ") /\ forall i, G i -> blank (Byte.x0a :: i)) ->
  (forall i, G i -> G (i ++ indentation_ cfg)) -> (forall i n, G i -> G (take n i)) ->
  nullSymbol_ cfg = bs "null" -> (exists a b, blank a /\ blank b /\ colonSymbol_ cfg = a ++ bs ":" ++ b) ->
  Blanks blank G (built_style cfg).
Proof.
  intros Hnil Happ HG Hin Hadd Htake Hnull Hcolon.
  assert (exists a, blank a /\ a = if negb (bool_decide (indentation_ cfg = [])) then bs " " else []) as (a & Ha & Ea).
  { case_bool_decide as E; cbn [negb]; [by exists []|]. destruct Hin as [|[Hsp _]]; [done|]. by exists (bs " "). }
  assert (forall s, G (indentString_ s) -> exists w, blank w /\ writeIndent cfg s = (Ok tt, put_out s w)) as Hwi.
  { intros s Hs. unfold writeIndent, modify. case_bool_decide as E; cbn [negb].
    - exists []. split; [done|]. destruct s. unfold put_out. cbn. by rewrite app_nil_r.
    - destruct Hin as [|[_ Hnl]]; [done|]. exists (Byte.x0a :: indentString_ s). split; [by apply Hnl|done]. }
  destruct (flag_run blank G _ Hnil Hwi) as [Hwith Hbefore].
  split; try done; cbn [st_open st_comma st_close st_indent st_unindent st_writeWithIndent st_before st_after built_style].
  1-3: exists a; split; [done|]; rewrite Ea; by case_match.
  - intros i Hi. by apply Htake.
  - intros s. by exists false.
Qed.

Lemma white_app a b : white a -> white b -> white (a ++ b).
Proof. intros. by apply Forall_app. Qed.

(** Settings that only ask for blanks. *)
Definition white_config (cfg : Config) : Prop :=
  white (indentation_ cfg) /\ nullSymbol_ cfg = bs "null"
  /\ exists a b, white a /\ white b /\ colonSymbol_ cfg = a ++ bs ":" ++ b.

Lemma built_white cfg : white_config cfg -> Blanks white white (built_style cfg).
Proof.
  intros (Hi & Hn & Hc). apply built_blanks; try done; [constructor|apply white_app|constructor|right; split| |].
  - by repeat constructor.
  - intros i H. by constructor.
  - intros i H. by apply white_app.
  - intros i n H. by apply Forall_take.
Qed.

Lemma built_tight usf utf8 pre sig : Blanks (eq []) (fun _ => True) (built_style (mkConfig 74 [] false (bs ":") (bs "null") [] usf utf8 pre sig)).
Proof. apply built_blanks; try done; [by intros ? ? <- <-|by left|by exists [], []]. Qed.

Lemma all_keys_true (P : list byte -> Prop) v : (forall k, P k) -> all_keys P v.
Proof.
  intros HP. induction v as [|n|n|t|t|b|l IH|m IH] using Value_rect_nested; try done; cbn.
  - by rewrite fold_Forall.
  - rewrite (fold_Forall (fun kv : list byte * Value => P (fst kv) /\ all_keys P (snd kv))).
    eapply Forall_impl; [exact IH|]. by split.
Qed.

(** The settings of [NodeTreeWriter] on any value. *)
Lemma node_tree_write_fits v : fits v -> node_tree_write v = Ok (compact v).
Proof.
  intros Hf. set (cfg := mkConfig 74 [] false (bs ":") (bs "null") [] false false 17 true).
  assert (node_tree_write v = write cfg v) as ->.
  { assert (node_tree_settings ≫= newStreamWriter = Ok cfg) as E by (vm_compute; reflexivity).
    apply outcome_bind_Ok in E as (st & E1 & E2). unfold node_tree_write. by rewrite E1; cbn; rewrite E2. }
  pose proof (built_tight false false 17 true) as HB.
  destruct (document_layout (HB := HB) v [] Hf) as (u & (w & t & <- & Ht & ->) & E); [by apply all_keys_true|].
  change (write cfg v) with (document (built_style cfg) v []). unfold cfg. rewrite E. cbn [app]. rewrite app_nil_r. f_equal.
  by apply (layout_tight _ _ v ltac:(done) ltac:(done) t Ht).
Qed.

(** ** Theorems *)

(** A span is printed as compact JSON.  With the settings [NodeTreeWriter] makes
    (no indentation, no comments) the layout state of the stream writer, its collected
    child values and its right margin leave no trace: for every value whose numbers fit
    their types the text is the compact form, on every path through the array code. *)
Theorem node_tree_write_compact v : fits v -> node_tree_write v = Ok (compact v).
Proof. apply node_tree_write_fits. Qed.

Lemma node_tree_write_compact_witness :
  node_tree_write (arrayValue [intValue (- 2 ^ 63); uintValue (2 ^ 64 - 1)])
  = Ok (compact (arrayValue [intValue (- 2 ^ 63); uintValue (2 ^ 64 - 1)])).
Proof.
  apply (node_tree_write_compact (arrayValue [intValue (- 2 ^ 63); uintValue (2 ^ 64 - 1)])).
  cbn. unfold zlen; cbn. word.
Defined.

End Layout.
