(* ===== verification/FastWriter.v ===== *)
(** * [FastWriter] (common/jsoncpp/lib_json/json_writer.cpp)

    The writer that prints a value on one line, with its three options. *)
From Stdlib Require Import ZArith Lia.
From Stdlib Require Strings.Byte.
From S2P Require Import Prelude Double Real Json JsonWriter Layout.

Module FastWriter.
Import Json Writer Layout.

Record FastWriter := mkFastWriter {
  yamlCompatibilityEnabled_ : bool;
  dropNullPlaceholders_ : bool;
  omitEndingLineFeed_ : bool
}.

Definition default_writer : FastWriter := mkFastWriter false false false.
Definition enableYAMLCompatibility (w : FastWriter) : FastWriter :=
  mkFastWriter true (dropNullPlaceholders_ w) (omitEndingLineFeed_ w).
Definition dropNullPlaceholders (w : FastWriter) : FastWriter :=
  mkFastWriter (yamlCompatibilityEnabled_ w) true (omitEndingLineFeed_ w).
Definition omitEndingLineFeed (w : FastWriter) : FastWriter :=
  mkFastWriter (yamlCompatibilityEnabled_ w) (dropNullPlaceholders_ w) true.

(** [document_ += t] *)
Definition add (t : list byte) : M (list byte) unit := modify (fun d => d ++ t).

Section writer.
Context (w : FastWriter).

Section loops.
Context (writeValue : Value -> M (list byte) unit).

Fixpoint array_loop (index : nat) (elems : list Value) : M (list byte) unit :=
  match elems with
  | [] => mret tt
  | v :: elems' =>
      _ ← (if (0 <? index)%nat then add (bs ",") else mret tt);
      _ ← writeValue v;
      array_loop (S index) elems'
  end.

Fixpoint member_loop (first : bool) (m : members) : M (list byte) unit :=
  match m with
  | [] => mret tt
  | (name, v) :: m' =>
      _ ← (if negb first then add (bs ",") else mret tt);
      _ ← add (valueToQuotedStringN name false);
      _ ← add (if yamlCompatibilityEnabled_ w then bs ": " else bs ":");
      _ ← writeValue v;
      member_loop false m'
  end.
End loops.

Fixpoint writeValue (value : Value) : M (list byte) unit :=
  match value with
  | nullValue => if negb (dropNullPlaceholders_ w) then add (bs "null") else mret tt
  | intValue n => t ← lift (valueToString_int n); add t
  | uintValue n => t ← lift (valueToString_uint n); add t
  | realValue r => add (Real.real_text r)
  | stringValue s => add (valueToQuotedStringN s false)
  | booleanValue b => add (valueToString_bool b)
  | arrayValue elems => _ ← add (bs "["); _ ← array_loop writeValue 0 elems; add (bs "]")
  | objectValue m => _ ← add (bs "{"); _ ← member_loop writeValue true m; add (bs "}")
  end.

(** [document_] is cleared first. *)
Definition write (root : Value) : outcome (list byte) :=
  let '(r, document) := (_ ← writeValue root; if negb (omitEndingLineFeed_ w) then add [Byte.x0a] else mret tt) [] in
  _ ← r; mret document.
End writer.

Example fast_demo :
  let v := objectValue [(bs "a", nullValue); (bs "b", arrayValue [intValue 1; nullValue])] in
  let q := [Byte.x22] in
  write default_writer v = Ok (bs "{" ++ q ++ bs "a" ++ q ++ bs ":null," ++ q ++ bs "b" ++ q ++ bs ":[1,null]}" ++ [Byte.x0a])
  /\ write (omitEndingLineFeed (dropNullPlaceholders (enableYAMLCompatibility default_writer))) v
     = Ok (bs "{" ++ q ++ bs "a" ++ q ++ bs ": ," ++ q ++ bs "b" ++ q ++ bs ": [1,]}").
Proof. split; vm_compute; reflexivity. Qed.

(** *** The text *)

Section layout.
Context (blank : list byte -> Prop) (w : FastWriter).
Hypothesis Hnil : blank [].
Hypothesis Hyaml : yamlCompatibilityEnabled_ w = true -> blank (bs " ").
Hypothesis Hnull : dropNullPlaceholders_ w = false.

Abbreviation quote := (fun s => valueToQuotedStringN s false).
Abbreviation lay := (layout blank Real.real_text quote).

(** [v] is appended to any document. *)
Definition appends (v : Value) : Prop := exists t, lay v t /\ forall d, writeValue w v d = (Ok tt, d ++ t).

Lemma padded_nil v t : lay v t -> padded blank (lay v) t.
Proof. intros H. exists [], t, []. by rewrite app_nil_r. Qed.

Lemma element_loop_run l : Forall appends l -> exists us, Forall2 (fun v => padded blank (lay v)) l us
  /\ forall index d, array_loop (writeValue w) index l d
     = (Ok tt, d ++ if (0 <? index)%nat then concat (map (app (bs ",")) us) else join (bs ",") us).
Proof.
  induction 1 as [|v l (t & Ht & Ev) Hl (us & Hus & IH)].
  { exists []. split; [constructor|]. intros index d. case_if; cbn; by rewrite app_nil_r. }
  exists (t :: us). split; [constructor; [by apply padded_nil|done]|]. intros index d. cbn [array_loop].
  destruct (0 <? index)%nat.
  - unfold add. rewrite bind_modify. rewrite (bind_run _ _ _ _ _ (Ev _)), IH. cbn. by rewrite <- !app_assoc.
  - rewrite bind_mret, (bind_run _ _ _ _ _ (Ev _)), IH. cbn. by rewrite <- !app_assoc.
Qed.

Lemma member_loop_run m : Forall (fun kv => appends (snd kv)) m -> exists us, Forall2 (member_of blank quote lay) m us
  /\ forall first d, member_loop w (writeValue w) first m d
     = (Ok tt, d ++ if (first : bool) then join (bs ",") us else concat (map (app (bs ",")) us)).
Proof.
  induction 1 as [|[k v] m (t & Ht & Ev) Hm (us & Hus & IH)].
  { exists []. split; [constructor|]. intros [] d; cbn; by rewrite app_nil_r. }
  set (colon := if yamlCompatibilityEnabled_ w then bs ": " else bs ":").
  assert (exists b, blank b /\ colon = bs ":" ++ b) as (b & Hb & Ecolon).
  { unfold colon. destruct (yamlCompatibilityEnabled_ w) eqn:E; [exists (bs " "); split; [by apply Hyaml|done]|by exists []]. }
  exists ((quote k ++ colon ++ t) :: us). split.
  - constructor; [|done]. exists (quote k), (b ++ t). rewrite Ecolon, <- app_assoc. split; [done|]. split.
    + exists [], (quote k), []. by rewrite app_nil_r.
    + exists b, t, []. by rewrite app_nil_r.
  - intros first d. cbn [member_loop]. fold colon. destruct first; cbn [negb].
    + rewrite bind_mret. unfold add. rewrite !bind_modify. rewrite (bind_run _ _ _ _ _ (Ev _)), IH. cbn. by rewrite <- !app_assoc.
    + unfold add. rewrite !bind_modify. rewrite (bind_run _ _ _ _ _ (Ev _)), IH. cbn. by rewrite <- !app_assoc.
Qed.

Lemma writeValue_run v : fits v -> appends v.
Proof.
  induction v as [|n|n|t|t|b|l IH|m IH] using Value_rect_nested; intros Hf; unfold appends; cbn [writeValue].
  - eexists. split; [by apply layout_token|]. by rewrite Hnull.
  - destruct (valueToString_int_ok n Hf) as (d & E & _). eexists. split; [by apply layout_token|]. intros x. by rewrite E, bind_lift.
  - destruct (uintToString_ok n Hf) as (d & E & _). eexists. split; [by apply layout_token|]. intros x.
    unfold valueToString_uint. by rewrite E, bind_lift.
  - eexists. split; [by apply layout_token|done].
  - eexists. split; [by apply layout_token|done].
  - eexists. split; [by apply layout_token|done].
  - cbn in Hf. rewrite fold_Forall in Hf. destruct Hf as [_ Hf]. rewrite Forall_forall in *.
    destruct (element_loop_run l) as (us & Hus & E); [apply Forall_forall; auto|].
    eexists. split; [by apply (layout_array _ _ _ l us [])|]. intros d. unfold add. rewrite bind_modify.
    rewrite (bind_run _ _ _ _ _ (E 0%nat _)). unfold modify. cbn [app]. by rewrite <- !app_assoc.
  - cbn in Hf. rewrite (fold_Forall (fun kv : list byte * Value => fits (snd kv))) in Hf. rewrite Forall_forall in *.
    destruct (member_loop_run m) as (us & Hus & E); [apply Forall_forall; auto|].
    eexists. split; [by apply (layout_object _ _ _ m us [])|]. intros d. unfold add. rewrite bind_modify.
    rewrite (bind_run _ _ _ _ _ (E true _)). unfold modify. cbn [app]. by rewrite <- !app_assoc.
Qed.

Lemma fast_layout v : fits v -> exists t, lay v t /\ write w v = Ok (t ++ if omitEndingLineFeed_ w then [] else [Byte.x0a]).
Proof.
  intros Hf. destruct (writeValue_run v Hf) as (t & Ht & E). exists t. split; [done|]. unfold write.
  rewrite (bind_run _ _ _ _ _ (E [])). destruct (omitEndingLineFeed_ w); cbn; [by rewrite app_nil_r|done].
Qed.
End layout.
End FastWriter.
