(* ===== verification/StyledWriter.v ===== *)
(** * [StyledWriter] (common/jsoncpp/lib_json/json_writer.cpp)

    The algorithm of JsonWriter.v on a string that the writer can look back at: it indents
    by three spaces, unless the last character shows that the line is indented already.  A
    name is printed up to its first NUL, as in [StyledStreamWriter]. *)
From Stdlib Require Import ZArith Lia.
From Stdlib Require Strings.Byte.
From S2P Require Import Prelude Double Real Json CLib JsonWriter Layout.

(** ** What the styled classes share *)

Module Styled.
Import Json Writer Layout.

(** [valueToQuotedString] on a C string: the text up to its first NUL *)
Definition valueToQuotedString (value : list byte) : list byte := valueToQuotedStringN (CLib.c_str value) false.

Lemma quoted_without_nul k : Byte.x00 ∉ k -> valueToQuotedString k = valueToQuotedStringN k false.
Proof. intros H. unfold valueToQuotedString. by rewrite CLib.c_str_id. Qed.

(** A text with a blank in front, behind, or on both sides. *)
Ltac white_text :=
  first [exists (bs " "), (bs " "); split_and!; by repeat constructor|exists (bs " "); split; by repeat constructor].

(** No key holds a NUL. *)
Definition plain_keys : Value -> Prop := all_keys (fun k => Byte.x00 ∉ k).

Lemma all_keys_impl (P Q : list byte -> Prop) v : (forall k, P k -> Q k) -> all_keys P v -> all_keys Q v.
Proof.
  intros HPQ. induction v as [|n|n|t|t|b|l IH|m IH] using Value_rect_nested; try done; cbn.
  - rewrite !fold_Forall, !Forall_forall. rewrite Forall_forall in IH. auto.
  - rewrite (fold_Forall (fun kv : list byte * Value => P (fst kv) /\ all_keys P (snd kv))).
    rewrite (fold_Forall (fun kv : list byte * Value => Q (fst kv) /\ all_keys Q (snd kv))).
    rewrite !Forall_forall in *. intros Hm kv Hkv. destruct (Hm kv Hkv). auto.
Qed.
End Styled.

(** ** [StyledWriter] *)

Module StyledWriter.
Import Json Writer Layout Styled.

Definition rightMargin_ : Z := 74.
Definition indentSize_ : nat := 3.

(** The last character of the document says whether the line is indented already. *)
Definition writeIndent : M WState unit :=
  modify (fun s => match last (sout s) with
                   | Some c =>
                       if bool_decide (c = Byte.x20) then s
                       else put_out s ((if bool_decide (c = Byte.x0a) then [] else [Byte.x0a]) ++ indentString_ s)
                   | None => put_out s (indentString_ s)
                   end).

Definition writeWithIndent (value : list byte) : M WState unit := _ ← writeIndent; emit value.

Definition indent (indentString : list byte) : list byte := indentString ++ replicate indentSize_ Byte.x20.
Definition unindent (indentString : list byte) : list byte := take (length indentString - indentSize_) indentString.

Definition style : Style :=
  mkStyle rightMargin_ false (bs "null") Real.real_text (fun s => valueToQuotedStringN s false) valueToQuotedString (bs " : ")
    (bs "[ ") (bs ", ") (bs " ]") writeWithIndent indent unindent writeIndent (mret tt).

Definition pushValue : list byte -> M WState unit := Writer.pushValue.
Definition writeValue : Value -> M WState unit := Writer.writeValue style.
Definition writeArrayValue : list Value -> M WState unit := Writer.writeArrayValue style writeValue.
Definition isMultilineArray : list Value -> M WState bool := Writer.isMultilineArray style writeValue.

Definition write (root : Value) : outcome (list byte) := document style root [Byte.x0a].

Example styled_demo :
  let q := [Byte.x22] in let nl := [Byte.x0a] in
  write (objectValue [(bs "a", arrayValue [intValue 1; arrayValue []]); (bs "b", objectValue [(bs "c", arrayValue [arrayValue [nullValue]])])])
  = Ok (bs "{" ++ nl ++ bs "   " ++ q ++ bs "a" ++ q ++ bs " : [ 1, [] ]," ++ nl ++ bs "   " ++ q ++ bs "b" ++ q ++ bs " : {" ++ nl
        ++ bs "      " ++ q ++ bs "c" ++ q ++ bs " : [" ++ nl ++ bs "         [ null ]" ++ nl ++ bs "      ]" ++ nl ++ bs "   }" ++ nl
        ++ bs "}" ++ nl).
Proof. vm_compute. reflexivity. Qed.

#[export] Instance style_blanks : Blanks white white style.
Proof.
  assert (forall s, white (indentString_ s) -> exists w, white w /\ writeIndent s = (Ok tt, put_out s w)) as Hwi.
  { intros s Hs. unfold writeIndent, modify. destruct (last (sout s)) as [c|]; [|by eexists]. case_bool_decide.
    - exists []. split; [constructor|]. destruct s. unfold put_out. cbn. by rewrite app_nil_r.
    - eexists. split; [|done]. apply white_app; [|done]. case_bool_decide; by repeat constructor. }
  split; cbn [st_open st_comma st_close st_indent st_unindent st_writeWithIndent st_before st_after st_null st_colon style];
    try done; try (by constructor); try white_text.
  - apply white_app.
  - intros i Hi. apply white_app; [done|]. by repeat constructor.
  - intros i Hi. by apply Forall_take.
  - intros t s Hs. destruct (Hwi s Hs) as (w & Hw & E). exists w, (indented_ s). split; [done|].
    unfold writeWithIndent. rewrite (bind_run _ _ _ _ _ E). destruct s. unfold emit, modify, put_out. cbn. by rewrite app_assoc.
  - intros s Hs. destruct (Hwi s Hs) as (w & Hw & E). exists w, (indented_ s). split; [done|]. by rewrite E.
  - intros s. exists (indented_ s). by destruct s.
Qed.

Lemma styled_layout v : fits v -> plain_keys v ->
  exists u, lead white Real.real_text (fun s => valueToQuotedStringN s false) v u /\ write v = Ok (u ++ [Byte.x0a]).
Proof.
  intros Hf Hk. apply (document_layout (st := style)); [done|].
  eapply all_keys_impl; [|exact Hk]. exact quoted_without_nul.
Qed.
End StyledWriter.
