(* ===== verification/StyledStreamWriter.v ===== *)
(** * [StyledStreamWriter] (common/jsoncpp/lib_json/json_writer.cpp)

    The algorithm of JsonWriter.v on a stream: a flag says whether the line is indented
    already, and an indentation may be chosen. *)
From Stdlib Require Import ZArith Lia.
From Stdlib Require Strings.Byte.
From S2P Require Import Prelude Double Real Json JsonWriter Layout StyledWriter.

Module StyledStreamWriter.
Import Json Writer Layout Styled.

Section writer.
Context (indentation_ : list byte).

(** The caller checks [indented_]. *)
Definition writeIndent : M WState unit := modify (fun s => put_out s (Byte.x0a :: indentString_ s)).

Definition writeWithIndent (value : list byte) : M WState unit :=
  s ← get;
  _ ← (if negb (indented_ s) then writeIndent else mret tt);
  _ ← emit value;
  modify (fun s => set_indented s false).

Definition before_element : M WState unit :=
  s ← get;
  _ ← (if negb (indented_ s) then writeIndent else mret tt);
  modify (fun s => set_indented s true).

Definition indent (indentString : list byte) : list byte := indentString ++ indentation_.
Definition unindent (indentString : list byte) : list byte :=
  take (length indentString - length indentation_) indentString.

Definition style : Style :=
  mkStyle 74 false (bs "null") Real.real_text (fun s => valueToQuotedStringN s false) valueToQuotedString (bs " : ")
    (bs "[ ") (bs ", ") (bs " ]") writeWithIndent indent unindent before_element
    (modify (fun s => set_indented s false)).

Definition pushValue : list byte -> M WState unit := Writer.pushValue.
Definition writeValue : Value -> M WState unit := Writer.writeValue style.
Definition writeArrayValue : list Value -> M WState unit := Writer.writeArrayValue style writeValue.
Definition isMultilineArray : list Value -> M WState bool := Writer.isMultilineArray style writeValue.

Definition write (root : Value) : outcome (list byte) := document style root [Byte.x0a].

Lemma stream_blanks : white indentation_ -> Blanks white white style.
Proof.
  intros Hw. destruct (flag_run white white writeIndent) as [Hwith Hbefore]; [constructor| |].
  { intros s Hs. eexists. split; [|done]. by constructor. }
  split; cbn [st_open st_comma st_close st_indent st_unindent st_writeWithIndent st_before st_after st_null st_colon style];
    try done; try (by constructor); try white_text.
  - apply white_app.
  - intros i Hi. by apply white_app.
  - intros i Hi. by apply Forall_take.
  - intros s. by exists false.
Qed.

Lemma stream_layout v : white indentation_ -> fits v -> plain_keys v ->
  exists u, lead white Real.real_text (fun s => valueToQuotedStringN s false) v u /\ write v = Ok (u ++ [Byte.x0a]).
Proof.
  intros Hw Hf Hk. pose proof (stream_blanks Hw) as HB. apply (document_layout (HB := HB)); [done|].
  eapply all_keys_impl; [|exact Hk]. exact quoted_without_nul.
Qed.
End writer.
End StyledStreamWriter.
