(* ===== verification/Writers.v ===== *)
(** * What the four writers print

    Whatever the class and its settings, the text is a layout of the value: the compact
    form with blanks between the tokens. *)
From Stdlib Require Import ZArith Lia.
From Stdlib Require Strings.Byte.
From S2P Require Import Prelude Double Real Json JsonWriter Layout FastWriter StyledWriter StyledStreamWriter.

Module Writers.
Import Json Writer Layout Styled.

(** The text of a double under the settings of a [BuiltStyledStreamWriter]. *)
Definition built_real (cfg : Config) : Real.real -> list byte :=
  Real.valueToString (useSpecialFloats_ cfg) (precision_ cfg) (significantDigits_ cfg).

Abbreviation ascii := (fun s => valueToQuotedStringN s false).

(** A document is a layout of [v] between blanks. *)
Definition prints_layout (real_text : Real.real -> list byte) (quote : list byte -> list byte) (v : Value) (r : outcome (list byte)) : Prop :=
  exists a t b, r = Ok (a ++ t ++ b) /\ white a /\ white b /\ layout white real_text quote v t.

Lemma lead_prints real_text quote v u b r : lead white real_text quote v u -> white b -> r = Ok (u ++ b) ->
  prints_layout real_text quote v r.
Proof. intros (a & t & Ha & Ht & ->) Hb ->. exists a, t, b. by rewrite <- app_assoc. Qed.

Lemma built_prints cfg v : fits v -> white_config cfg -> white (endingLineFeedSymbol_ cfg) ->
  prints_layout (built_real cfg) (fun s => valueToQuotedStringN s (emitUTF8_ cfg)) v (write cfg v).
Proof.
  intros Hf Hc He. pose proof (built_white cfg Hc) as HB.
  destruct (document_layout (HB := HB) v (endingLineFeedSymbol_ cfg) Hf) as (u & Hu & E); [by apply all_keys_true|].
  by eapply lead_prints.
Qed.

Lemma fast_prints w v : fits v -> FastWriter.dropNullPlaceholders_ w = false ->
  prints_layout Real.real_text ascii v (FastWriter.write w v).
Proof.
  intros Hf Hd. destruct (FastWriter.fast_layout white w) with (v := v) as (t & Ht & E); try done; [constructor|by repeat constructor|].
  eexists [], t, _. split; [exact E|]. split_and!; [constructor| |done]. case_match; by repeat constructor.
Qed.

Lemma styled_prints v : fits v -> plain_keys v -> prints_layout Real.real_text ascii v (StyledWriter.write v).
Proof.
  intros Hf Hk. destruct (StyledWriter.styled_layout v Hf Hk) as (u & Hu & E). eapply lead_prints; [exact Hu| |exact E].
  by repeat constructor.
Qed.

Lemma stream_prints i v : white i -> fits v -> plain_keys v -> prints_layout Real.real_text ascii v (StyledStreamWriter.write i v).
Proof.
  intros Hi Hf Hk. destruct (StyledStreamWriter.stream_layout i v Hi Hf Hk) as (u & Hu & E).
  eapply lead_prints; [exact Hu| |exact E]. by repeat constructor.
Qed.

(** [toStyledString] uses the settings of [setDefaults]. *)
Lemma toStyledString_prints v : fits v -> prints_layout Real.real_text ascii v (toStyledString v).
Proof.
  intros Hf. set (cfg := mkConfig 74 [Byte.x09] true (bs " : ") (bs "null") [] false false 17 true).
  assert (toStyledString v = (out ← write cfg v; mret (out ++ [Byte.x0a]))) as ->.
  { assert (setDefaults nullValue ≫= newStreamWriter = Ok cfg) as E by (vm_compute; reflexivity).
    apply outcome_bind_Ok in E as (st & E1 & E2). unfold toStyledString. by rewrite E1; cbn; rewrite E2. }
  destruct (built_prints cfg v Hf) as (a & t & b & E & Ha & Hb & Ht); [|constructor|].
  { split_and!; [by repeat constructor|done|]. exists (bs " "), (bs " "). split_and!; by repeat constructor. }
  exists a, t, (b ++ [Byte.x0a]). rewrite E. split_and!; [cbn; by rewrite <- !app_assoc|done| |done].
  apply white_app; [done|by repeat constructor].
Qed.

(** C38: the writers print layouts.  The text of a value is its compact form with blanks between
    the tokens, for
    - [BuiltStyledStreamWriter], if the indentation and the line feed at the end are blanks, the
      colon is a colon between blanks and the symbol of null is [null]; doubles are printed
      with the precision and the special numbers of its settings;
    - [toStyledString], with the default settings;
    - [FastWriter], if [dropNullPlaceholders] is off;
    - [StyledWriter] and [StyledStreamWriter], the latter with blanks as indentation, if no key
      holds a NUL.
    The value has integers of 64 bits and arrays with fewer than [2^32] elements. *)
Theorem writers_print_layouts v : fits v ->
  (forall cfg, white_config cfg -> white (endingLineFeedSymbol_ cfg) ->
     prints_layout (built_real cfg) (fun s => valueToQuotedStringN s (emitUTF8_ cfg)) v (write cfg v))
  /\ prints_layout Real.real_text ascii v (toStyledString v)
  /\ (forall w, FastWriter.dropNullPlaceholders_ w = false -> prints_layout Real.real_text ascii v (FastWriter.write w v))
  /\ (plain_keys v -> prints_layout Real.real_text ascii v (StyledWriter.write v)
       /\ forall i, white i -> prints_layout Real.real_text ascii v (StyledStreamWriter.write i v)).
Proof.
  intros Hf. split_and!.
  - intros cfg. by apply built_prints.
  - by apply toStyledString_prints.
  - intros w. by apply fast_prints.
  - intros Hk. split; [by apply styled_prints|]. intros i Hi. by apply stream_prints.
Qed.

(** [FastWriter] with its default settings prints the compact form and a line feed. *)
Theorem fast_writer_compact v : fits v -> FastWriter.write FastWriter.default_writer v = Ok (compact v ++ [Byte.x0a]).
Proof.
  intros Hf. destruct (FastWriter.fast_layout (eq []) FastWriter.default_writer) with (v := v) as (t & Ht & E); try done.
  rewrite E. by rewrite (layout_tight _ _ v ltac:(done) ltac:(done) t Ht).
Qed.

(** Names that differ behind a NUL only are printed alike by [StyledWriter] and
    [StyledStreamWriter], which stop at the NUL, and apart by [FastWriter]. *)
Theorem styled_names_collide :
  let v := objectValue [(bs "a", nullValue)] in
  let v' := objectValue [(bs "a" ++ [Byte.x00] ++ bs "b", nullValue)] in
  StyledWriter.write v = StyledWriter.write v'
  /\ StyledStreamWriter.write [Byte.x09] v = StyledStreamWriter.write [Byte.x09] v'
  /\ FastWriter.write FastWriter.default_writer v <> FastWriter.write FastWriter.default_writer v'.
Proof. vm_compute. split_and!; congruence. Qed.

Lemma writers_print_layouts_witness :
  let v := objectValue [(bs "a", arrayValue [intValue (-1); arrayValue []])] in
  prints_layout Real.real_text ascii v (StyledWriter.write v) /\ prints_layout Real.real_text ascii v (StyledStreamWriter.write [Byte.x09] v).
Proof.
  destruct (writers_print_layouts (objectValue [(bs "a", arrayValue [intValue (-1); arrayValue []])])) as (_ & _ & _ & H).
  - cbn. unfold zlen; cbn. word.
  - destruct H as [H1 H2].
    + cbn. split; [|done]. split; [|done]. apply (bool_decide_unpack _). vm_compute. exact I.
    + split; [exact H1|]. apply H2. by repeat constructor.
Defined.

End Writers.
