(* ===== verification/CommentedWriter.v ===== *)
(** * Printing values with comments (common/jsoncpp/lib_json/json_writer.cpp)

    The algorithm of JsonWriter.v with its calls of [writeCommentBeforeValue] and
    [writeCommentAfterValueOnSameLine], which the three classes define differently.  The
    comments of a value and of what is in it are a tree beside the value.  A value without
    comments is printed as JsonWriter.v says. *)
From Stdlib Require Import ZArith Lia.
From Stdlib Require Strings.Byte.
From S2P Require Import Prelude Json JsonWriter StyledWriter StyledStreamWriter.

Module CommentedWriter.
Import Json Writer.

(** ** Comments *)

(** The comments of a value at its three placements. *)
Record Notes := mkNotes {
  commentBefore : list byte;
  commentAfterOnSameLine : list byte;
  commentAfter : list byte
}.

Definition no_notes : Notes := mkNotes [] [] [].

Definition has (comment : list byte) : bool := negb (bool_decide (comment = [])).

Definition hasCommentForValue (n : Notes) : bool :=
  has (commentBefore n) || has (commentAfterOnSameLine n) || has (commentAfter n).

(** ... and of its elements or members in order. *)
Inductive Tree := node (n : Notes) (kids : list Tree).

Definition notes (t : Tree) : Notes := let '(node n _) := t in n.
Definition kid (t : Tree) (i : nat) : Tree := let '(node _ l) := t in nth i l (node no_notes []).

(** What a class does around a value, and behind the first comment of the root. *)
Record Hooks := mkHooks {
  hk_before : Notes -> M WState unit;
  hk_after : Notes -> M WState unit;
  hk_root : M WState unit
}.

(** The loop that prints a comment: [indent] behind a newline in front of a slash. *)
Fixpoint comment_loop (indent : M WState unit) (comment : list byte) : M WState unit :=
  match comment with
  | [] => mret tt
  | c :: comment' =>
      _ ← emit [c];
      _ ← (if bool_decide (c = Byte.x0a) && match comment' with d :: _ => bool_decide (d = Byte.x2f) | [] => false end
           then indent else mret tt);
      comment_loop indent comment'
  end.

(** [*sout_ << indentString_] *)
Definition emit_indentString : M WState unit := s ← get; emit (indentString_ s).

(** *** [BuiltStyledStreamWriter] *)

Definition built_before (cfg : Config) (n : Notes) : M WState unit :=
  if negb (cs_All cfg) then mret tt
  else if negb (has (commentBefore n)) then mret tt
  else
    s ← get;
    _ ← (if negb (indented_ s) then writeIndent cfg else mret tt);
    _ ← comment_loop emit_indentString (commentBefore n);
    modify (fun s => set_indented s false).

Definition built_after (cfg : Config) (n : Notes) : M WState unit :=
  if negb (cs_All cfg) then mret tt
  else
    _ ← (if has (commentAfterOnSameLine n) then emit (bs " " ++ commentAfterOnSameLine n) else mret tt);
    if has (commentAfter n) then _ ← writeIndent cfg; emit (commentAfter n) else mret tt.

Definition built_hooks (cfg : Config) : Hooks := mkHooks (built_before cfg) (built_after cfg) (before_element cfg).

(** *** [StyledWriter] *)

Definition styled_before (n : Notes) : M WState unit :=
  if negb (has (commentBefore n)) then mret tt
  else
    _ ← emit [Byte.x0a];
    _ ← StyledWriter.writeIndent;
    _ ← comment_loop StyledWriter.writeIndent (commentBefore n);
    emit [Byte.x0a].

Definition styled_after (n : Notes) : M WState unit :=
  _ ← (if has (commentAfterOnSameLine n) then emit (bs " " ++ commentAfterOnSameLine n) else mret tt);
  if has (commentAfter n) then emit ([Byte.x0a] ++ commentAfter n ++ [Byte.x0a]) else mret tt.

Definition styled_hooks : Hooks := mkHooks styled_before styled_after (mret tt).

(** *** [StyledStreamWriter] *)

Definition stream_before (n : Notes) : M WState unit :=
  if negb (has (commentBefore n)) then mret tt
  else
    s ← get;
    _ ← (if negb (indented_ s) then StyledStreamWriter.writeIndent else mret tt);
    _ ← comment_loop emit_indentString (commentBefore n);
    modify (fun s => set_indented s false).

Definition stream_after (n : Notes) : M WState unit :=
  _ ← (if has (commentAfterOnSameLine n) then emit (bs " " ++ commentAfterOnSameLine n) else mret tt);
  _ ← (if has (commentAfter n) then _ ← StyledStreamWriter.writeIndent; emit (commentAfter n) else mret tt);
  modify (fun s => set_indented s false).

Definition stream_hooks : Hooks := mkHooks stream_before stream_after StyledStreamWriter.before_element.

(** ** The algorithm *)

Section writer.
Context (st : Style) (hk : Hooks).

Section loops.
Context (writeValue : Value -> Tree -> M WState unit) (t : Tree).

(** The measuring loop of [isMultilineArray]: an element with a comment asks for lines. *)
Fixpoint measure_loop (elems : list Value) (index : nat) (isMultiLine : bool) (lineLength : Z) : M WState (bool * Z) :=
  match elems with
  | [] => mret (isMultiLine, lineLength)
  | v :: elems' =>
      _ ← writeValue v (kid t index);
      c ← child_value index;
      measure_loop elems' (S index) (hasCommentForValue (notes (kid t index)) || isMultiLine) (u32 (lineLength + u32 (zlen c)))
  end.

Definition isMultilineArray (elems : list Value) : M WState bool :=
  let size := u32 (zlen elems) in
  _ ← modify (fun s => set_children s [] (addChildValues_ s));
  let isMultiLine :=
    (st_margin st <=? u32 (size * 3))
    || existsb (fun v => (isArray v || isObject v) && negb (empty v)) elems in
  if negb isMultiLine then
    _ ← modify (fun s => set_children s (childValues_ s) true);
    '(commented, lineLength) ← measure_loop elems 0 false (u32 (4 + u32 (u32 (size - 1) * 2)));
    _ ← modify (fun s => set_children s (childValues_ s) false);
    mret (commented || (st_margin st <=? lineLength))
  else mret true.

(** The element loop of the multi-line branch. *)
Fixpoint multi_loop (elems : list Value) (index : nat) (hasChildValue : bool) : M WState unit :=
  match elems with
  | [] => mret tt
  | v :: elems' =>
      let n := notes (kid t index) in
      _ ← hk_before hk n;
      _ ← (if hasChildValue then c ← child_value index; st_writeWithIndent st c
           else _ ← st_before st; _ ← writeValue v (kid t index); st_after st);
      match elems' with
      | [] => hk_after hk n
      | _ => _ ← emit (bs ","); _ ← hk_after hk n; multi_loop elems' (S index) hasChildValue
      end
  end.

Definition writeArrayValue (elems : list Value) : M WState unit :=
  if u32 (zlen elems) =? 0 then pushValue (bs "[]")
  else
    isMultiLine ← (if st_multiline st then mret true else isMultilineArray elems);
    if (isMultiLine : bool) then
      _ ← st_writeWithIndent st (bs "[");
      _ ← enter st;
      hasChildValue ← gets (fun s => negb (bool_decide (childValues_ s = [])));
      _ ← multi_loop elems 0 hasChildValue;
      _ ← leave st;
      st_writeWithIndent st (bs "]")
    else
      _ ← emit (st_open st);
      _ ← single_loop st (length elems) 0;
      emit (st_close st).

(** The member loop of the object branch of [writeValue]. *)
Fixpoint member_loop (m : members) (index : nat) : M WState unit :=
  match m with
  | [] => mret tt
  | (name, v) :: m' =>
      let n := notes (kid t index) in
      _ ← hk_before hk n;
      _ ← st_writeWithIndent st (st_quote_name st name);
      _ ← emit (st_colon st);
      _ ← writeValue v (kid t index);
      match m' with
      | [] => hk_after hk n
      | _ => _ ← emit (bs ","); _ ← hk_after hk n; member_loop m' (S index)
      end
  end.
End loops.

Fixpoint writeValue (value : Value) (t : Tree) : M WState unit :=
  match value with
  | arrayValue elems => writeArrayValue writeValue t elems
  | objectValue m =>
      match m with
      | [] => pushValue (bs "{}")
      | _ =>
          _ ← st_writeWithIndent st (bs "{");
          _ ← enter st;
          _ ← member_loop writeValue t m 0;
          _ ← leave st;
          st_writeWithIndent st (bs "}")
      end
  | _ => Writer.writeValue st value
  end.

Definition document (root : Value) (t : Tree) (ending : list byte) : outcome (list byte) :=
  let '(r, s) := (_ ← hk_before hk (notes t); _ ← hk_root hk; _ ← writeValue root t; _ ← hk_after hk (notes t); emit ending)
                   (mkWState [] [] false true []) in
  _ ← r; mret (sout s).
End writer.

(** [write] of the three classes *)
Definition built_write (cfg : Config) (root : Value) (t : Tree) : outcome (list byte) :=
  document (built_style cfg) (built_hooks cfg) root t (endingLineFeedSymbol_ cfg).

Definition styled_write (root : Value) (t : Tree) : outcome (list byte) :=
  document StyledWriter.style styled_hooks root t [Byte.x0a].

Definition stream_write (indentation : list byte) (root : Value) (t : Tree) : outcome (list byte) :=
  document (StyledStreamWriter.style indentation) stream_hooks root t [Byte.x0a].

(** ** A value without comments *)

Fixpoint silent (t : Tree) : Prop :=
  let '(node n kids) := t in n = no_notes /\ fold_right (fun k P => silent k /\ P) True kids.

Lemma silent_notes t : silent t -> notes t = no_notes.
Proof. by destruct t as [n kids]; intros [Hn _]. Qed.

Lemma silent_kid t i : silent t -> silent (kid t i).
Proof.
  destruct t as [n kids]; intros [_ Hk]. cbn. revert i. induction kids as [|k kids IH]; intros [|i]; cbn; try done.
  - apply Hk.
  - apply IH, Hk.
Qed.

(** Two computations that take the same course from the states of [P], into those of [Q]. *)
Definition sync {A} (P Q : WState -> Prop) (m m' : M WState A) : Prop :=
  forall s, P s -> m s = m' s /\ forall a s', m' s = (Ok a, s') -> Q s'.

Lemma sync_bind {A B} (P R Q : WState -> Prop) (m m' : M WState A) (f f' : A -> M WState B) :
  sync P R m m' -> (forall a, sync R Q (f a) (f' a)) -> sync P Q (m ≫= f) (m' ≫= f').
Proof.
  intros Hm Hf s Hs. destruct (Hm s Hs) as [E Hr]. unfold mbind, M_bind. rewrite E.
  destruct (m' s) as [[a| | |] s'] eqn:E'; try by split. by apply Hf, (Hr a s').
Qed.

Lemma sync_bind_map {A A' B} (g : A' -> A) (P R Q : WState -> Prop) (m : M WState A) (m' : M WState A') (f : A -> M WState B) f' :
  sync P R m (x ← m'; mret (g x)) -> (forall x, sync R Q (f (g x)) (f' x)) -> sync P Q (m ≫= f) (m' ≫= f').
Proof.
  intros Hm Hf s Hs. destruct (Hm s Hs) as [E Hr]. unfold mbind, M_bind in *. rewrite E.
  destruct (m' s) as [[x| | |] s']; try by split. by apply Hf, (Hr (g x) s').
Qed.

(** A step that changes nothing can be left out, in front and at the end. *)
Lemma sync_skip {A} (P Q : WState -> Prop) (h : M WState unit) (m m' : M WState A) :
  (forall s, P s -> h s = (Ok tt, s)) -> sync P Q m m' -> sync P Q (_ ← h; m) m'.
Proof. intros Hh Hm s Hs. rewrite (bind_run _ _ _ _ _ (Hh s Hs)). by apply Hm. Qed.

Lemma sync_mret {A} (P : WState -> Prop) (a : A) : sync P P (mret a) (mret a).
Proof. intros s Hs. split; [done|]. by intros ? ? [= _ <-]. Qed.

Lemma sync_modify (P Q : WState -> Prop) f : (forall s, P s -> Q (f s)) -> sync P Q (modify f) (modify f).
Proof. intros Hf s Hs. split; [done|]. intros ? ? [= _ <-]. by apply Hf. Qed.

Lemma sync_gets {A} (P : WState -> Prop) (f : WState -> A) : sync P P (gets f) (gets f).
Proof. intros s Hs. split; [done|]. by intros ? ? [= _ <-]. Qed.

Lemma sync_lift {A} (P : WState -> Prop) (m : outcome A) : sync P P (lift m) (lift m).
Proof. intros s Hs. split; [done|]. by intros ? ? [= _ <-]. Qed.

Lemma sync_child (P : WState -> Prop) i : sync P P (child_value i) (child_value i).
Proof. intros s Hs. split; [done|]. unfold child_value, mbind, M_bind, get. case_match; by intros ? ? [= _ <-]. Qed.

(** What the hooks of a class do where there is no comment: nothing, once something was
    printed on the line ([quiet]). *)
Class Quiet (st : Style) (hk : Hooks) := {
  quiet : WState -> Prop;
  quiet_before s : hk_before hk no_notes s = (Ok tt, s);
  quiet_after s : quiet s -> hk_after hk no_notes s = (Ok tt, s);
  quiet_root s : indented_ s = true -> hk_root hk s = (Ok tt, s);
  quiet_end s : exists s', hk_after hk no_notes s = (Ok tt, s') /\ sout s' = sout s;
  quiet_children s c b : quiet s -> quiet (set_children s c b);
  quiet_indent s i : quiet s -> quiet (set_indent s i);
  quiet_out s t : quiet s -> quiet (put_out s t);
  quiet_printed t s a s' : st_writeWithIndent st t s = (Ok a, s') -> quiet s';
  quiet_element s a s' : st_after st s = (Ok a, s') -> quiet s'
}.

Section silent.
Context {st : Style} {hk : Hooks} {HQ : Quiet st hk}.

(** Predicates that printing keeps; the interesting ones are [quiet] and the trivial one. *)
Definition kept (P : WState -> Prop) : Prop :=
  (forall s c b, P s -> P (set_children s c b)) /\ (forall s i, P s -> P (set_indent s i))
  /\ (forall s t, P s -> P (put_out s t)) /\ (forall s, quiet s -> P s).

Lemma kept_quiet : kept quiet.
Proof. split_and!; auto using quiet_children, quiet_indent, quiet_out. Qed.

Lemma kept_any : kept (fun _ => True).
Proof. done. Qed.

Lemma sync_print P t : sync P quiet (st_writeWithIndent st t) (st_writeWithIndent st t).
Proof. intros s _. split; [done|]. intros a s'. apply quiet_printed. Qed.

Lemma sync_element P : sync P quiet (st_after st) (st_after st).
Proof. intros s _. split; [done|]. intros a s'. apply quiet_element. Qed.

Lemma sync_any {A} P (m : M WState A) : sync P (fun _ => True) m m.
Proof. by intros s _. Qed.

Lemma sync_weaken {A} (P P' Q Q' : WState -> Prop) (m m' : M WState A) :
  sync P Q m m' -> (forall s, P' s -> P s) -> (forall s, Q s -> Q' s) -> sync P' Q' m m'.
Proof. intros H HP HQ' s Hs. destruct (H s (HP s Hs)) as [E Hq]. split; [done|]. eauto. Qed.

Lemma sync_emit P t : kept P -> sync P P (emit t) (emit t).
Proof. intros (_ & _ & Hout & _). apply sync_modify. auto. Qed.

Lemma sync_push P t : kept P -> sync P P (pushValue t) (pushValue t).
Proof. intros (Hc & _ & Hout & _). apply sync_modify. intros s Hs. case_match; auto. Qed.

Lemma sync_children P b f : kept P ->
  sync P P (modify (fun s => set_children s (f s) (b s))) (modify (fun s => set_children s (f s) (b s))).
Proof. intros (Hc & _). apply sync_modify. auto. Qed.

Lemma sync_enter P : kept P -> sync P P (enter st) (enter st).
Proof. intros (_ & Hi & _). apply sync_modify. auto. Qed.

Lemma sync_leave P : kept P -> sync P P (leave st) (leave st).
Proof. intros (_ & Hi & _). apply sync_modify. auto. Qed.

Lemma sync_single P n : kept P -> forall i, sync P P (single_loop st n i) (single_loop st n i).
Proof.
  intros HP. induction n as [|n IH]; intros i; cbn [single_loop]; [apply sync_mret|].
  eapply sync_bind; [case_match; [by apply sync_emit|apply sync_mret]|intros _].
  eapply sync_bind; [apply sync_child|intros c]. eapply sync_bind; [by apply sync_emit|intros _]. apply IH.
Qed.

(** One level, for any printer of the elements that is in step. *)
Section level.
Context (W : Value -> Tree -> M WState unit) (w : Value -> M WState unit).

Definition in_step (v : Value) : Prop := forall P t, kept P -> silent t -> sync P P (W v t) (w v).

Lemma sync_measure P t elems : kept P -> silent t -> Forall in_step elems -> forall i len,
  sync P P (measure_loop W t elems i false len) (l ← Writer.measure_loop w elems i len; mret (false, l)).
Proof.
  intros HP Ht. induction 1 as [|v elems Hv _ IH]; intros i len; cbn [measure_loop Writer.measure_loop].
  { intros s Hs. split; [done|]. by intros ? ? [= _ <-]. }
  rewrite (silent_notes _ (silent_kid t i Ht)). change (hasCommentForValue no_notes || false) with false.
  intros s Hs. rewrite !bind_assoc. revert s Hs. apply sync_bind with (R := P); [apply Hv; auto using silent_kid|].
  intros _ s Hs. rewrite !bind_assoc. revert s Hs. apply sync_bind with (R := P); [apply sync_child|]. intros c. apply IH.
Qed.

Lemma sync_multiline P t elems : kept P -> silent t -> Forall in_step elems ->
  sync P P (isMultilineArray st W t elems) (Writer.isMultilineArray st w elems).
Proof.
  intros HP Ht He. unfold isMultilineArray, Writer.isMultilineArray.
  eapply sync_bind; [by apply (sync_children P addChildValues_ (fun _ => []))|intros _].
  case_match; [|apply sync_mret].
  eapply sync_bind; [by apply (sync_children P (fun _ => true) childValues_)|intros _].
  eapply (sync_bind_map (fun l : Z => (false, l))); [by apply sync_measure|intros l].
  eapply sync_bind; [by apply (sync_children P (fun _ => false) childValues_)|intros _]. apply sync_mret.
Qed.

(** The hook behind an element or a member, with or without a comma. *)
Lemma sync_behind {A} (l : list A) m m' : sync quiet quiet m m' ->
  sync quiet quiet
    (match l with [] => hk_after hk no_notes | _ => _ ← emit (bs ","); _ ← hk_after hk no_notes; m end)
    (match l with [] => mret tt | _ => _ ← emit (bs ","); m' end).
Proof.
  intros Hm. destruct l.
  - intros s Hs. rewrite quiet_after by done. split; [done|]. by intros ? ? [= _ <-].
  - eapply sync_bind; [apply sync_emit, kept_quiet|intros _]. apply sync_skip; [apply quiet_after|done].
Qed.

Lemma sync_elements t elems h : silent t -> Forall in_step elems -> forall i,
  sync quiet quiet (multi_loop st hk W t elems i h) (Writer.multi_loop st w elems i h).
Proof.
  intros Ht. induction 1 as [|v elems Hv _ IH]; intros i; cbn [multi_loop Writer.multi_loop]; [apply sync_mret|].
  rewrite (silent_notes _ (silent_kid t i Ht)). apply sync_skip; [intros s _; apply quiet_before|].
  eapply sync_bind; [|intros _; by apply sync_behind].
  case_match; [eapply sync_bind; [apply sync_child|intros c; apply sync_print]|].
  eapply sync_bind; [apply sync_any|intros _]. eapply sync_bind; [apply Hv; auto using kept_any, silent_kid|intros _].
  apply sync_element.
Qed.

Lemma sync_members t m : silent t -> Forall (fun kv => in_step (snd kv)) m -> forall i,
  sync quiet quiet (member_loop st hk W t m i) (Writer.member_loop st w m).
Proof.
  intros Ht. induction 1 as [|[name v] m Hv _ IH]; intros i; cbn [member_loop Writer.member_loop]; [apply sync_mret|].
  rewrite (silent_notes _ (silent_kid t i Ht)). apply sync_skip; [intros s _; apply quiet_before|].
  eapply sync_bind; [apply sync_print|intros _]. eapply sync_bind; [apply sync_emit, kept_quiet|intros _].
  eapply sync_bind; [apply Hv; auto using kept_quiet, silent_kid|intros _]. by apply sync_behind.
Qed.

(** Something between brackets, from the opening one and up to the closing one. *)
Lemma sync_open P a (m m' : M WState unit) : sync quiet P m m' ->
  sync P P (_ ← st_writeWithIndent st a; _ ← enter st; m) (_ ← st_writeWithIndent st a; _ ← enter st; m').
Proof.
  intros Hm. eapply sync_bind; [apply sync_print|intros _]. eapply sync_bind; [apply sync_enter, kept_quiet|by intros _].
Qed.

Lemma sync_shut P b (m m' : M WState unit) : kept P -> sync quiet quiet m m' ->
  sync quiet P (_ ← m; _ ← leave st; st_writeWithIndent st b) (_ ← m'; _ ← leave st; st_writeWithIndent st b).
Proof.
  intros (_ & _ & _ & HP) Hm. eapply sync_bind; [exact Hm|intros _].
  eapply sync_bind; [apply sync_leave, kept_quiet|intros _]. eapply sync_weaken; [apply sync_print|done|done].
Qed.

Lemma sync_array P t elems : kept P -> silent t -> Forall in_step elems ->
  sync P P (writeArrayValue st hk W t elems) (Writer.writeArrayValue st w elems).
Proof.
  intros HP Ht He. unfold writeArrayValue, Writer.writeArrayValue. case_if; [by apply sync_push|].
  eapply sync_bind; [case_match; [apply sync_mret|by apply sync_multiline]|intros []].
  - apply sync_open. eapply sync_bind; [apply sync_gets|intros h]. apply sync_shut; [done|]. by apply sync_elements.
  - eapply sync_bind; [by apply sync_emit|intros _]. eapply sync_bind; [by apply sync_single|intros _]. by apply sync_emit.
Qed.
End level.

Lemma sync_value v : in_step (writeValue st hk) (Writer.writeValue st) v.
Proof.
  induction v as [|n|n|x|x|b|l IH|m IH] using Value_rect_nested; intros P t HP Ht;
    try (cbn; by apply sync_push); try (eapply sync_bind; [apply sync_lift|intros ?; by apply sync_push]).
  - by apply sync_array.
  - cbn [writeValue Writer.writeValue]. destruct m as [|kv m]; [by apply sync_push|].
    apply sync_open, sync_shut; [done|]. by apply sync_members.
Qed.

Lemma document_silent v t ending : silent t ->
  document st hk v t ending = Writer.document st v ending.
Proof.
  intros Ht. unfold document, Writer.document. set (s0 := mkWState [] [] false true []).
  rewrite (silent_notes t Ht), (bind_run _ _ _ _ _ (quiet_before s0)), (bind_run _ _ _ _ _ (quiet_root s0 eq_refl)).
  destruct (sync_value v _ t kept_any Ht s0 I) as [E _]. cbv [mbind M_bind]. rewrite E.
  destruct (Writer.writeValue st v s0) as [[[]| | |] s]; try done.
  destruct (quiet_end s) as (s' & -> & Es). cbn. by rewrite Es.
Qed.
End silent.

(** Where the flag is set, the classes indent nothing. *)
Lemma root_indented (s : WState) wi : indented_ s = true ->
  (s ← get; _ ← (if negb (indented_ s) then wi else mret tt); modify (fun s => set_indented s true)) s = (Ok tt, s).
Proof. destruct s. cbn. by intros ->. Qed.

#[export] Instance built_quiet cfg : Quiet (built_style cfg) (built_hooks cfg).
Proof.
  refine {| quiet _ := True |}; try done.
  - intros s. cbn. unfold built_before. by case_if.
  - intros s _. cbn. unfold built_after. by case_if.
  - intros s. apply root_indented.
  - intros s. exists s. cbn. unfold built_after. by case_if.
Defined.

#[export] Instance styled_quiet : Quiet StyledWriter.style styled_hooks.
Proof. refine {| quiet _ := True |}; try done. intros s. by exists s. Defined.

(** Behind a value this class forgets that the line is indented. *)
Lemma stream_after_none s : stream_after no_notes s = (Ok tt, set_indented s false).
Proof. done. Qed.

#[export] Instance stream_quiet i : Quiet (StyledStreamWriter.style i) stream_hooks.
Proof.
  refine {| quiet s := indented_ s = false |}; try done.
  - intros [] E. cbn in E. by subst.
  - intros s. apply root_indented.
  - intros s. by eexists.
  - intros t s a s'. destruct s as [c x b []  o]; by intros [= _ <-].
  - intros s a s'. by intros [= _ <-].
Defined.

(** A value whose comments are empty everywhere is printed by the three classes as
    JsonWriter.v, StyledWriter.v and StyledStreamWriter.v say: the calls around the values
    change nothing, neither the text nor which arrays are put on one line. *)
Theorem comments_conservative v t : silent t ->
  (forall cfg, built_write cfg v t = Writer.write cfg v)
  /\ styled_write v t = StyledWriter.write v
  /\ (forall i, stream_write i v t = StyledStreamWriter.write i v).
Proof. intros Ht. split_and!; intros; by apply document_silent. Qed.

Lemma comments_conservative_witness :
  styled_write (arrayValue [nullValue]) (node no_notes [node no_notes []]) = StyledWriter.write (arrayValue [nullValue]).
Proof.
  assert (silent (node no_notes [node no_notes []])) as Ht by (cbn; tauto).
  exact (proj1 (proj2 (comments_conservative (arrayValue [nullValue]) _ Ht))).
Defined.

(** ** Comments that change more than themselves *)

(** A line comment printed without indentation has no newline behind it: what follows it is
    part of the comment for a reader. *)
Example comment_swallows :
  let cfg := mkConfig 74 [] true (bs ":") (bs "null") [] false false 17 true in
  built_write cfg (arrayValue [intValue 1; intValue 2])
    (node no_notes [node (mkNotes [] (bs "// one") []) []; node no_notes []])
  = Ok (bs "[1, // one2]").
Proof. vm_compute. reflexivity. Qed.

(** With [commentStyle] "None" no comment is printed, but an element that has one still puts
    the array on lines of its own. *)
Example hidden_comment_breaks_line :
  let cfg := mkConfig 74 (bs " ") false (bs ":") (bs "null") [] false false 17 true in
  built_write cfg (arrayValue [intValue 1]) (node no_notes [node (mkNotes [] (bs "// one") []) []])
  = Ok (bs "[" ++ [Byte.x0a] ++ bs " 1" ++ [Byte.x0a] ++ bs "]")
  /\ Writer.write cfg (arrayValue [intValue 1]) = Ok (bs "[ 1 ]").
Proof. vm_compute. by split. Qed.

End CommentedWriter.
