(* ===== verification/JsonReader.v ===== *)
(** * Reading JSON: [OurReader] and [CharReaderBuilder]
      (common/jsoncpp/lib_json/json_reader.cpp; codePointToUTF8 of json_tool.h)

    The message a collector greets with is parsed by this reader.  A [Location] is a
    pointer into the document; it is represented by the bytes from the pointer to
    [end_], so that advancing is taking the tail, [current_ == end_] is being empty and
    the distance of two pointers is a difference of lengths.

    The reader builds the value in place: [nodes_] is a stack of pointers to the values
    under construction.  Here [readValue] takes the value [nodes_.top()] points to and
    returns what it is afterwards; of the stack only its depth is left, which the reader
    limits.  A comment is attached to a value that nothing reads comments of: the texts
    are kept in the order they are attached.  Source offsets of values are left out. *)
From Stdlib Require Import ZArith Lia.
From Stdlib Require Strings.Byte.
From S2P Require Import Prelude Double Real Json JsonWriter.

Module Reader.
Import Json.

Abbreviation Location := (list byte).

Definition eqc (a b : byte) : bool := bool_decide (a = b).

(** [b - a] for pointers: the bytes from [a] to [b]. *)
Definition between (a b : Location) : list byte := take (length a - length b) a.

(** [OurFeatures] *)
Record OurFeatures := mkFeatures {
  allowComments_ : bool;
  allowTrailingCommas_ : bool;
  strictRoot_ : bool;
  allowDroppedNullPlaceholders_ : bool;
  allowNumericKeys_ : bool;
  allowSingleQuotes_ : bool;
  failIfExtra_ : bool;
  rejectDupKeys_ : bool;
  allowSpecialFloats_ : bool;
  skipBom_ : bool;
  stackLimit_ : Z
}.

Inductive TokenType :=
| tokenEndOfStream
| tokenObjectBegin
| tokenObjectEnd
| tokenArrayBegin
| tokenArrayEnd
| tokenString
| tokenNumber
| tokenTrue
| tokenFalse
| tokenNull
| tokenNaN
| tokenPosInf
| tokenNegInf
| tokenArraySeparator
| tokenMemberSeparator
| tokenComment
| tokenError.

#[export] Instance TokenType_eq_dec : EqDecision TokenType.
Proof. solve_decision. Defined.

Definition is_type (a b : TokenType) : bool := bool_decide (a = b).

Record Token := mkToken { type_ : TokenType; start_ : Location; end_ : Location }.

Record ErrorInfo := mkErrorInfo {
  token_ : Token;
  message_ : list byte;
  extra_ : option Location
}.

Inductive CommentPlacement := commentBefore | commentAfterOnSameLine | commentAfter.

(** The members of [OurReader] that change while it reads; [nodes_] is the size of the
    stack and [attached] the calls of [setComment]. *)
Record OurReader := mkReader {
  nodes_ : Z;
  errors_ : list ErrorInfo;
  begin_ : Location;
  current_ : Location;
  lastValueEnd_ : option Location;
  lastValueHasAComment_ : bool;
  commentsBefore_ : list byte;
  attached : list (CommentPlacement * list byte)
}.

Definition set_nodes (r : OurReader) (n : Z) : OurReader :=
  mkReader n (errors_ r) (begin_ r) (current_ r) (lastValueEnd_ r) (lastValueHasAComment_ r)
    (commentsBefore_ r) (attached r).
Definition set_errors (r : OurReader) (e : list ErrorInfo) : OurReader :=
  mkReader (nodes_ r) e (begin_ r) (current_ r) (lastValueEnd_ r) (lastValueHasAComment_ r)
    (commentsBefore_ r) (attached r).
Definition set_current (r : OurReader) (l : Location) : OurReader :=
  mkReader (nodes_ r) (errors_ r) (begin_ r) l (lastValueEnd_ r) (lastValueHasAComment_ r)
    (commentsBefore_ r) (attached r).
Definition set_begin (r : OurReader) (l : Location) : OurReader :=
  mkReader (nodes_ r) (errors_ r) l l (lastValueEnd_ r) (lastValueHasAComment_ r)
    (commentsBefore_ r) (attached r).
Definition set_last (r : OurReader) (l : option Location) (b : bool) : OurReader :=
  mkReader (nodes_ r) (errors_ r) (begin_ r) (current_ r) l b (commentsBefore_ r) (attached r).
Definition set_comments (r : OurReader) (c : list byte) (a : list (CommentPlacement * list byte)) : OurReader :=
  mkReader (nodes_ r) (errors_ r) (begin_ r) (current_ r) (lastValueEnd_ r) (lastValueHasAComment_ r) c a.

Abbreviation R := (M OurReader).

Definition move (l : Location) : R unit := modify (fun r => set_current r l).

(** ** Characters *)

Definition containsNewLine (a b : Location) : bool :=
  existsb (fun c => eqc c Byte.x0a || eqc c Byte.x0d) (between a b).

Definition getNextChar : R byte :=
  r ← get;
  match current_ r with
  | [] => mret Byte.x00
  | c :: l => _ ← move l; mret c
  end.

Fixpoint spaces_loop (l : Location) : Location :=
  match l with
  | c :: l' => if eqc c Byte.x20 || eqc c Byte.x09 || eqc c Byte.x0d || eqc c Byte.x0a
               then spaces_loop l' else l
  | [] => []
  end.

Definition skipSpaces : R unit := modify (fun r => set_current r (spaces_loop (current_ r))).

Definition skipBom (skip : bool) : R unit :=
  modify (fun r => if skip && (3 <=? zlen (begin_ r))
                      && bool_decide (take 3 (begin_ r) = [Byte.xef; Byte.xbb; Byte.xbf])
                   then set_begin r (drop 3 (begin_ r)) else r).

(** [match] *)
Definition match_ (pattern : list byte) : R bool :=
  r ← get;
  let l := current_ r in
  if zlen l <? zlen pattern then mret false
  else if bool_decide (take (length pattern) l = pattern)
  then _ ← move (drop (length pattern) l); mret true
  else mret false.

(** ** Comments *)

(** [Value::setComment] *)
Definition setComment (comment : list byte) (placement : CommentPlacement) : R unit :=
  let comment := match last comment with
                 | Some c => if eqc c Byte.x0a then take (length comment - 1) comment else comment
                 | None => comment
                 end in
  match comment with
  | [] => throw json_logic_error
  | c :: _ =>
      if eqc c Byte.x00 || eqc c Byte.x2f
      then modify (fun r => set_comments r (commentsBefore_ r) (attached r ++ [(placement, comment)]))
      else throw json_logic_error
  end.

Fixpoint normalizeEOL (l : list byte) : list byte :=
  match l with
  | [] => []
  | c :: l' =>
      if eqc c Byte.x0d then
        match l' with
        | d :: l'' => if eqc d Byte.x0a then Byte.x0a :: normalizeEOL l''
                      else Byte.x0a :: normalizeEOL l'
        | [] => [Byte.x0a]
        end
      else c :: normalizeEOL l'
  end.

Definition addComment (a b : Location) (placement : CommentPlacement) : R unit :=
  let normalized := normalizeEOL (between a b) in
  match placement with
  | commentAfterOnSameLine => setComment normalized placement
  | _ => modify (fun r => set_comments r (commentsBefore_ r ++ normalized) (attached r))
  end.

(** The loop of [readCStyleComment]: the flag and where it stops. *)
Fixpoint c_comment_loop (newline : bool) (l : Location) : bool * Location :=
  match l with
  | c :: l' =>
      match l' with
      | d :: _ =>
          if eqc c Byte.x2a && eqc d Byte.x2f then (newline, l')
          else c_comment_loop (newline || eqc c Byte.x0a) l'
      | [] => (newline, l)
      end
  | [] => (newline, l)
  end.

(** Whether the comment is closed, and whether it contains a newline. *)
Definition readCStyleComment : R (bool * bool) :=
  r ← get;
  let '(newline, l) := c_comment_loop false (current_ r) in
  _ ← move l;
  c ← getNextChar;
  mret (eqc c Byte.x2f, newline).

Fixpoint cpp_comment_loop (l : Location) : Location :=
  match l with
  | [] => []
  | c :: l' =>
      if eqc c Byte.x0a then l'
      else if eqc c Byte.x0d then
        match l' with
        | d :: l'' => if eqc d Byte.x0a then l'' else l'
        | [] => l'
        end
      else cpp_comment_loop l'
  end.

Definition readCppStyleComment : R bool :=
  _ ← modify (fun r => set_current r (cpp_comment_loop (current_ r)));
  mret true.

Section reader.
Context (features_ : OurFeatures) (collectComments_ : bool).

(** [readComment]; [commentBegin] is [current_ - 1], the slash just read. *)
Definition readComment (commentBegin : Location) : R bool :=
  c ← getNextChar;
  let isCStyleComment := eqc c Byte.x2a in
  let isCppStyleComment := eqc c Byte.x2f in
  '(successful, cStyleWithEmbeddedNewline) ←
    (if isCStyleComment then readCStyleComment
     else if isCppStyleComment then ok ← readCppStyleComment; mret (ok, false)
     else mret (false, false));
  if negb successful then mret false
  else
    _ ← (if collectComments_ then
           r ← get;
           let sameLine :=
             negb (lastValueHasAComment_ r)
             && match lastValueEnd_ r with
                | Some e => negb (containsNewLine e commentBegin)
                | None => false
                end
             && (isCppStyleComment || negb cStyleWithEmbeddedNewline) in
           _ ← (if sameLine then modify (fun r => set_last r (lastValueEnd_ r) true) else mret tt);
           addComment commentBegin (current_ r)
             (if sameLine then commentAfterOnSameLine else commentBefore)
         else mret tt);
    mret true.

(** ** Tokens *)

Fixpoint digits_loop (l : Location) : Location :=
  match l with
  | c :: l' => if Double.is_digit c then digits_loop l' else l
  | [] => []
  end.

(** The tail of [l] when its first character satisfies [p]. *)
Definition accept (p : byte -> bool) (l : Location) : option Location :=
  match l with
  | c :: l' => if p c then Some l' else None
  | [] => None
  end.

(** Where a number that starts in front of [l] ends: digits, a fraction, an exponent. *)
Definition number_end (l : Location) : Location :=
  let l := digits_loop l in
  let l := match accept (fun c => eqc c Byte.x2e) l with Some l' => digits_loop l' | None => l end in
  match accept (fun c => eqc c Byte.x65 || eqc c Byte.x45) l with
  | Some l' => digits_loop (default l' (accept (fun c => eqc c Byte.x2b || eqc c Byte.x2d) l'))
  | None => l
  end.

Definition readNumber (checkInf : bool) : R bool :=
  r ← get;
  match (if checkInf then accept (fun c => eqc c Byte.x49) (current_ r) else None) with
  | Some l => _ ← move l; mret false
  | None => _ ← move (number_end (current_ r)); mret true
  end.

(** The loop of [readString] and [readStringSingleQuote]: the last character it looked
    at and where it stops. *)
Fixpoint string_loop (quote c : byte) (l : Location) : byte * Location :=
  match l with
  | [] => (c, [])
  | b :: l' =>
      if eqc b Byte.x5c then
        match l' with
        | [] => (b, [])
        | _ :: l'' => string_loop quote b l''
        end
      else if eqc b quote then (b, l')
      else string_loop quote b l'
  end.

Definition readQuoted (quote : byte) : R bool :=
  r ← get;
  let '(c, l) := string_loop quote Byte.x00 (current_ r) in
  _ ← move l;
  mret (eqc c quote).

Definition readString : R bool := readQuoted Byte.x22.
Definition readStringSingleQuote : R bool := readQuoted Byte.x27.

(** The [switch] of [readToken] on the character [c] read at [start]: the type, and
    whether the token is good. *)
Definition token_of (c : byte) (start : Location) : R (TokenType * bool) :=
  if eqc c Byte.x7b then mret (tokenObjectBegin, true)
  else if eqc c Byte.x7d then mret (tokenObjectEnd, true)
  else if eqc c Byte.x5b then mret (tokenArrayBegin, true)
  else if eqc c Byte.x5d then mret (tokenArrayEnd, true)
  else if eqc c Byte.x22 then ok ← readString; mret (tokenString, ok)
  else if eqc c Byte.x27 then
    if allowSingleQuotes_ features_ then ok ← readStringSingleQuote; mret (tokenString, ok)
    else mret (tokenError, false)
  else if eqc c Byte.x2f then ok ← readComment start; mret (tokenComment, ok)
  else if Double.is_digit c then _ ← readNumber false; mret (tokenNumber, true)
  else if eqc c Byte.x2d then
    ok ← readNumber true;
    if (ok : bool) then mret (tokenNumber, true)
    else ok ← (if allowSpecialFloats_ features_ then match_ (bs "nfinity") else mret false);
         mret (tokenNegInf, ok)
  else if eqc c Byte.x2b then
    ok ← readNumber true;
    if (ok : bool) then mret (tokenNumber, true)
    else ok ← (if allowSpecialFloats_ features_ then match_ (bs "nfinity") else mret false);
         mret (tokenPosInf, ok)
  else if eqc c Byte.x74 then ok ← match_ (bs "rue"); mret (tokenTrue, ok)
  else if eqc c Byte.x66 then ok ← match_ (bs "alse"); mret (tokenFalse, ok)
  else if eqc c Byte.x6e then ok ← match_ (bs "ull"); mret (tokenNull, ok)
  else if eqc c Byte.x4e then
    if allowSpecialFloats_ features_ then ok ← match_ (bs "aN"); mret (tokenNaN, ok)
    else mret (tokenError, false)
  else if eqc c Byte.x49 then
    if allowSpecialFloats_ features_ then ok ← match_ (bs "nfinity"); mret (tokenPosInf, ok)
    else mret (tokenError, false)
  else if eqc c Byte.x2c then mret (tokenArraySeparator, true)
  else if eqc c Byte.x3a then mret (tokenMemberSeparator, true)
  else if eqc c Byte.x00 then mret (tokenEndOfStream, true)
  else mret (tokenError, false).

Definition readToken : R (bool * Token) :=
  _ ← skipSpaces;
  start ← gets current_;
  c ← getNextChar;
  '(type, ok) ← token_of c start;
  e ← gets current_;
  mret (ok, mkToken (if (ok : bool) then type else tokenError) start e).

(** [while (token.type_ == tokenComment && ok) ok = readToken(token);] *)
Fixpoint comments_loop (fuel : nat) (ok : bool) (token : Token) : R (bool * Token) :=
  match fuel with
  | O => lift OutOfFuel
  | S fuel' =>
      if is_type (type_ token) tokenComment && ok then
        '(ok, token) ← readToken; comments_loop fuel' ok token
      else mret (ok, token)
  end.

(** A comment takes characters, so the rest of the document bounds every loop over
    tokens. *)
Definition fuel_left : R nat := gets (fun r => S (S (length (current_ r)))).

Definition pass_comments (ok : bool) (token : Token) : R (bool * Token) :=
  fuel ← fuel_left; comments_loop fuel ok token.

Definition skipCommentTokens : R Token :=
  '(_, token) ← readToken;
  if allowComments_ features_ then '(_, token) ← pass_comments true token; mret token
  else mret token.

(** ** Errors *)

Definition addError (message : list byte) (token : Token) (extra : option Location) : R bool :=
  _ ← modify (fun r => set_errors r (errors_ r ++ [mkErrorInfo token message extra]));
  mret false.

Fixpoint recover_loop (fuel : nat) (errorCount : nat) (skipUntilToken : TokenType) : R unit :=
  match fuel with
  | O => lift OutOfFuel
  | S fuel' =>
      '(ok, skip) ← readToken;
      _ ← (if negb ok then modify (fun r => set_errors r (take errorCount (errors_ r))) else mret tt);
      if is_type (type_ skip) skipUntilToken || is_type (type_ skip) tokenEndOfStream then mret tt
      else recover_loop fuel' errorCount skipUntilToken
  end.

Definition recoverFromError (skipUntilToken : TokenType) : R bool :=
  errorCount ← gets (fun r => length (errors_ r));
  fuel ← fuel_left;
  _ ← recover_loop fuel errorCount skipUntilToken;
  _ ← modify (fun r => set_errors r (take errorCount (errors_ r)));
  mret false.

Definition addErrorAndRecover (message : list byte) (token : Token) (skipUntilToken : TokenType)
  : R bool :=
  _ ← addError message token None;
  recoverFromError skipUntilToken.

(** ** Numbers *)

Definition maxLargestUInt : Z := 2 ^ 64 - 1.
Definition positive_threshold : Z := maxLargestUInt / 10.
Definition positive_last_digit : Z := maxLargestUInt mod 10.
Definition negative_threshold : Z := - Z.quot Writer.minLargestInt 10.
Definition negative_last_digit : Z := - Z.rem Writer.minLargestInt 10.

(** The loop of [decodeNumber]: [None] where it gives the number to [decodeDouble]. *)
Fixpoint number_loop (threshold max_last_digit : Z) (value : Z) (l : list byte) : option Z :=
  match l with
  | [] => Some value
  | c :: l' =>
      if negb (Double.is_digit c) then None
      else
        let digit := Double.digit_val c in
        if (threshold <=? value)
           && ((threshold <? value) || negb (bool_decide (l' = [])) || (max_last_digit <? digit))
        then None
        else number_loop threshold max_last_digit (u64 (value * 10 + digit)) l'
  end.

Definition text_between (token : Token) : list byte := between (start_ token) (end_ token).

(** [decodeDouble(token, decoded)] *)
Definition decodeDouble (token : Token) : R (option Value) :=
  match Double.read_double (text_between token) with
  | Some d => mret (Some (realValue (Real.finite d)))
  | None =>
      _ ← addError (bs "'" ++ text_between token ++ bs "' is not a number.") token None;
      mret None
  end.

(** [decodeNumber(token, decoded)] *)
Definition decodeNumber (token : Token) : R (option Value) :=
  let text := text_between token in
  let isNegative := match text with c :: _ => eqc c Byte.x2d | [] => false end in
  let threshold := if isNegative then negative_threshold else positive_threshold in
  let max_last_digit := if isNegative then negative_last_digit else positive_last_digit in
  match number_loop threshold max_last_digit 0 (if isNegative then drop 1 text else text) with
  | None => decodeDouble token
  | Some value =>
      mret (Some
        (if isNegative then
           let last_digit := value mod 10 in
           intValue (i64 (- i64 (value / 10) * 10 - last_digit))
         else if value <=? Writer.maxLargestInt then intValue value
         else uintValue value))
  end.

(** ** Strings *)

(** [codePointToUTF8] *)
Definition codePointToUTF8 (cp : Z) : list byte :=
  if cp <=? 0x7f then [Z_byte cp]
  else if cp <=? 0x7FF then
    [Z_byte (Z.lor 0xC0 (Z.land 0x1f (Z.shiftr cp 6)));
     Z_byte (Z.lor 0x80 (Z.land 0x3f cp))]
  else if cp <=? 0xFFFF then
    [Z_byte (Z.lor 0xE0 (Z.land 0xf (Z.shiftr cp 12)));
     Z_byte (Z.lor 0x80 (Z.land 0x3f (Z.shiftr cp 6)));
     Z_byte (Z.lor 0x80 (Z.land 0x3f cp))]
  else if cp <=? 0x10FFFF then
    [Z_byte (Z.lor 0xF0 (Z.land 0x7 (Z.shiftr cp 18)));
     Z_byte (Z.lor 0x80 (Z.land 0x3f (Z.shiftr cp 12)));
     Z_byte (Z.lor 0x80 (Z.land 0x3f (Z.shiftr cp 6)));
     Z_byte (Z.lor 0x80 (Z.land 0x3f cp))]
  else [].

Definition hex_digit (c : byte) : option Z :=
  let n := byte_Z c in
  if (48 <=? n) && (n <=? 57) then Some (n - 48)
  else if (97 <=? n) && (n <=? 102) then Some (n - 97 + 10)
  else if (65 <=? n) && (n <=? 70) then Some (n - 65 + 10)
  else None.

(** The [for] loop over the four digits: the number or the failure, and where it stops. *)
Fixpoint hex_loop (n : nat) (unicode : Z) (current : list byte) : option Z * list byte :=
  match n, current with
  | S n', c :: current' =>
      match hex_digit c with
      | Some d => hex_loop n' (unicode * 16 + d) current'
      | None => (None, current')
      end
  | _, _ => (Some unicode, current)
  end.

(** In what follows a local pointer [current] runs up to [end], the closing quote: it is
    represented by the characters before [fin], the location of that quote, so that it
    is the location [current ++ fin] of the document.  The result is the code point,
    unless an error was added, and the pointer. *)
Definition decodeUnicodeEscapeSequence (token : Token) (fin : Location) (current : list byte)
  : R (option Z * list byte) :=
  if zlen current <? 4 then
    _ ← addError (bs "Bad unicode escape sequence in string: four digits expected.") token
          (Some (current ++ fin));
    mret (None, current)
  else
    let '(u, current) := hex_loop 4 0 current in
    match u with
    | Some unicode => mret (Some unicode, current)
    | None =>
        _ ← addError (bs "Bad unicode escape sequence in string: hexadecimal digit expected.")
              token (Some (current ++ fin));
        mret (None, current)
    end.

(** [*(current++) == '\\' && *(current++) == 'u'], and the pointer afterwards *)
Definition escape_follows (current : list byte) : bool * list byte :=
  match current with
  | a :: l =>
      if eqc a Byte.x5c then
        match l with
        | b :: l' => (eqc b Byte.x75, l')
        | [] => (false, [])
        end
      else (false, l)
  | [] => (false, [])
  end.

Definition decodeUnicodeCodePoint (token : Token) (fin : Location) (current : list byte)
  : R (option Z * list byte) :=
  '(u, current) ← decodeUnicodeEscapeSequence token fin current;
  match u with
  | None => mret (None, current)
  | Some unicode =>
      if (0xD800 <=? unicode) && (unicode <=? 0xDBFF) then
        if zlen current <? 6 then
          _ ← addError (bs "additional six characters expected to parse unicode surrogate pair.")
                token (Some (current ++ fin));
          mret (None, current)
        else
          let '(follows, current) := escape_follows current in
          if (follows : bool) then
            '(u, current) ← decodeUnicodeEscapeSequence token fin current;
            match u with
            | Some surrogatePair =>
                mret (Some (u32 (0x10000 + Z.shiftl (Z.land unicode 0x3FF) 10
                                 + Z.land surrogatePair 0x3FF)), current)
            | None => mret (None, current)
            end
          else
            _ ← addError (bs "expecting another \u token to begin the second half of a unicode surrogate pair")
                  token (Some (current ++ fin));
            mret (None, current)
      else mret (Some unicode, current)
  end.

(** The escapes of one character. *)
Definition simple_escape (escape : byte) : option byte :=
  if eqc escape Byte.x22 then Some Byte.x22
  else if eqc escape Byte.x2f then Some Byte.x2f
  else if eqc escape Byte.x5c then Some Byte.x5c
  else if eqc escape Byte.x62 then Some Byte.x08
  else if eqc escape Byte.x66 then Some Byte.x0c
  else if eqc escape Byte.x6e then Some Byte.x0a
  else if eqc escape Byte.x72 then Some Byte.x0d
  else if eqc escape Byte.x74 then Some Byte.x09
  else None.

(** The loop of [decodeString]: [None] after an error. *)
Fixpoint decode_loop (fuel : nat) (token : Token) (fin : Location) (decoded current : list byte)
  : R (option (list byte)) :=
  match fuel with
  | O => lift OutOfFuel
  | S fuel' =>
      match current with
      | [] => mret (Some decoded)
      | c :: current =>
          if eqc c Byte.x22 then mret (Some decoded)
          else if eqc c Byte.x5c then
            match current with
            | [] =>
                _ ← addError (bs "Empty escape sequence in string") token (Some (current ++ fin));
                mret None
            | escape :: current =>
                match simple_escape escape with
                | Some e => decode_loop fuel' token fin (decoded ++ [e]) current
                | None =>
                    if eqc escape Byte.x75 then
                      '(u, current) ← decodeUnicodeCodePoint token fin current;
                      match u with
                      | Some unicode =>
                          decode_loop fuel' token fin (decoded ++ codePointToUTF8 unicode) current
                      | None => mret None
                      end
                    else
                      _ ← addError (bs "Bad escape sequence in string") token (Some (current ++ fin));
                      mret None
                end
            end
          else decode_loop fuel' token fin (decoded ++ [c]) current
      end
  end.

(** [decodeString(token, decoded)]: the characters between the quotes *)
Definition decodeString (token : Token) : R (option (list byte)) :=
  let text := text_between token in
  let body := take (length text - 2) (drop 1 text) in
  let fin := drop (length text - 1) (start_ token) in
  decode_loop (S (length body)) token fin [] body.

(** ** Values *)

(** The result of a part of [readValue]: success, and the current value afterwards. *)
Definition pop : R unit := modify (fun r => set_nodes r (nodes_ r - 1)).
Definition push : R unit := modify (fun r => set_nodes r (nodes_ r + 1)).

Section nested.
Context (readValue : Value -> R (bool * Value)).

(** What the name of a member is read from: [None] where the loop breaks, [Some None]
    after an error. *)
Definition read_name (tokenName : Token) : R (option (option (list byte))) :=
  if is_type (type_ tokenName) tokenString then
    name ← decodeString tokenName; mret (Some name)
  else if is_type (type_ tokenName) tokenNumber && allowNumericKeys_ features_ then
    numberName ← decodeNumber tokenName;
    match numberName with
    | Some v => name ← lift (Writer.asString v); mret (Some (Some name))
    | None => mret (Some None)
    end
  else mret None.

(** The [while] loop of [readObject]: [m] are the members so far, [name] the last name. *)
Fixpoint object_loop (fuel : nat) (name : list byte) (m : members) : R (bool * Value) :=
  match fuel with
  | O => lift OutOfFuel
  | S fuel' =>
      let missing tokenName :=
        ok ← addErrorAndRecover (bs "Missing '}' or object member name") tokenName tokenObjectEnd;
        mret (ok, objectValue m) in
      '(ok, tokenName) ← readToken;
      if negb ok then missing tokenName
      else
        '(initialTokenOk, tokenName) ← pass_comments true tokenName;
        if negb initialTokenOk then missing tokenName
        else if is_type (type_ tokenName) tokenObjectEnd
                && (bool_decide (name = []) || allowTrailingCommas_ features_)
        then mret (true, objectValue m)
        else
          n ← read_name tokenName;
          match n with
          | None => missing tokenName
          | Some None => ok ← recoverFromError tokenObjectEnd; mret (ok, objectValue m)
          | Some (Some name) =>
              if 2 ^ 30 <=? zlen name then throw json_runtime_error
              else if rejectDupKeys_ features_ && bool_decide (is_Some (find name m)) then
                ok ← addErrorAndRecover (bs "Duplicate key: '" ++ name ++ bs "'") tokenName tokenObjectEnd;
                mret (ok, objectValue m)
              else
                '(colonOk, colon) ← readToken;
                if negb colonOk || negb (is_type (type_ colon) tokenMemberSeparator) then
                  ok ← addErrorAndRecover (bs "Missing ':' after object member name") colon tokenObjectEnd;
                  mret (ok, objectValue m)
                else
                  _ ← push;
                  '(ok, v) ← readValue (default nullValue (find name m));
                  _ ← pop;
                  let m := put name v m in
                  if negb ok then ok ← recoverFromError tokenObjectEnd; mret (ok, objectValue m)
                  else
                    '(commaOk, comma) ← readToken;
                    if negb commaOk
                       || negb (is_type (type_ comma) tokenObjectEnd)
                          && negb (is_type (type_ comma) tokenArraySeparator)
                          && negb (is_type (type_ comma) tokenComment)
                    then
                      ok ← addErrorAndRecover (bs "Missing ',' or '}' in object declaration") comma tokenObjectEnd;
                      mret (ok, objectValue m)
                    else
                      '(_, comma) ← pass_comments true comma;
                      if is_type (type_ comma) tokenObjectEnd then mret (true, objectValue m)
                      else object_loop fuel' name m
          end
  end.

Definition readObject : R (bool * Value) :=
  fuel ← fuel_left; object_loop fuel [] [].

(** The loop of [readArray]: [elems] are the elements so far; the [int] index must not
    overflow. *)
Fixpoint array_loop (fuel : nat) (elems : list Value) : R (bool * Value) :=
  match fuel with
  | O => lift OutOfFuel
  | S fuel' =>
      _ ← skipSpaces;
      r ← get;
      if match current_ r with c :: _ => eqc c Byte.x5d | [] => false end
         && (bool_decide (elems = [])
             || allowTrailingCommas_ features_ && negb (allowDroppedNullPlaceholders_ features_))
      then _ ← readToken; mret (true, arrayValue elems)
      else if 2 ^ 31 - 1 <=? zlen elems then undefined
      else
        _ ← push;
        '(ok, v) ← readValue nullValue;
        _ ← pop;
        let elems := elems ++ [v] in
        if negb ok then ok ← recoverFromError tokenArrayEnd; mret (ok, arrayValue elems)
        else
          '(ok, currentToken) ← readToken;
          '(ok, currentToken) ← pass_comments ok currentToken;
          let badTokenType := negb (is_type (type_ currentToken) tokenArraySeparator)
                              && negb (is_type (type_ currentToken) tokenArrayEnd) in
          if negb ok || badTokenType then
            ok ← addErrorAndRecover (bs "Missing ',' or ']' in array declaration") currentToken tokenArrayEnd;
            mret (ok, arrayValue elems)
          else if is_type (type_ currentToken) tokenArrayEnd then mret (true, arrayValue elems)
          else array_loop fuel' elems
  end.

Definition readArray : R (bool * Value) :=
  fuel ← fuel_left; array_loop fuel [].
End nested.

(** [Value(const String&)]: the length is an [unsigned], and [duplicateAndPrefixStringValue]
    refuses one that leaves no room for its prefix. *)
Definition string_value (s : list byte) : outcome Value :=
  let length := u32 (zlen s) in
  if Real.maxInt - 5 <? length then Throw json_logic_error else mret (stringValue (ztake length s)).

(** [decodeString(token)]: the string, made a value *)
Definition decodeString_value (token : Token) : R (option Value) :=
  s ← decodeString token;
  match s with
  | Some s => v ← lift (string_value s); mret (Some v)
  | None => mret None
  end.

(** A scalar replaces the current value unless it could not be decoded. *)
Definition decoded (old : Value) (v : option Value) : bool * Value :=
  match v with Some v => (true, v) | None => (false, old) end.

(** The [switch] of [readValue]: whether it reached the end of the function, the result
    and the current value. *)
Definition read_switch (readValue : Value -> R (bool * Value)) (old : Value) (token : Token)
  : R (bool * (bool * Value)) :=
  match type_ token with
  | tokenObjectBegin => x ← readObject readValue; mret (true, x)
  | tokenArrayBegin => x ← readArray readValue; mret (true, x)
  | tokenNumber => v ← decodeNumber token; mret (true, decoded old v)
  | tokenString => v ← decodeString_value token; mret (true, decoded old v)
  | tokenTrue => mret (true, (true, booleanValue true))
  | tokenFalse => mret (true, (true, booleanValue false))
  | tokenNull => mret (true, (true, nullValue))
  | tokenNaN => mret (true, (true, realValue Real.nan))
  | tokenPosInf => mret (true, (true, realValue (Real.infinite false)))
  | tokenNegInf => mret (true, (true, realValue (Real.infinite true)))
  | type =>
      if (is_type type tokenArraySeparator || is_type type tokenObjectEnd || is_type type tokenArrayEnd)
         && allowDroppedNullPlaceholders_ features_
      then _ ← move (start_ token); mret (true, (true, nullValue))
      else ok ← addError (bs "Syntax error: value, object or array expected.") token None;
           mret (false, (ok, old))
  end.

(** [readValue]; [depth] bounds the nesting, and the limit on [nodes_] is hit first. *)
Fixpoint readValue (depth : nat) (old : Value) : R (bool * Value) :=
  match depth with
  | O => lift OutOfFuel
  | S depth' =>
      r ← get;
      if stackLimit_ features_ <? nodes_ r then throw json_runtime_error
      else
        token ← skipCommentTokens;
        r ← get;
        _ ← (if collectComments_ && negb (bool_decide (commentsBefore_ r = [])) then
               _ ← setComment (commentsBefore_ r) commentBefore;
               modify (fun r => set_comments r [] (attached r))
             else mret tt);
        '(finished, x) ← read_switch (readValue depth') old token;
        _ ← (if finished && collectComments_
             then modify (fun r => set_last r (Some (current_ r)) false) else mret tt);
        mret x
  end.
End reader.

(** ** Documents *)

Definition new_reader (doc : list byte) : OurReader := mkReader 0 [] doc doc None false [] [].

(** [OurReader::parse] on a fresh reader: the answer and [root]. *)
Definition parse (features_ : OurFeatures) (collectComments : bool) (root : Value) : R (bool * Value) :=
  let collectComments_ := allowComments_ features_ && collectComments in
  doc ← gets current_;
  _ ← push;
  _ ← skipBom (skipBom_ features_);
  '(successful, root) ← readValue features_ collectComments_ (Z.to_nat (stackLimit_ features_) + 2) root;
  _ ← pop;
  token ← skipCommentTokens features_ collectComments_;
  if failIfExtra_ features_ && negb (is_type (type_ token) tokenEndOfStream) then
    ok ← addError (bs "Extra non-whitespace after JSON value.") token None; mret (ok, root)
  else
    r ← get;
    _ ← (if collectComments_ && negb (bool_decide (commentsBefore_ r = []))
         then setComment (commentsBefore_ r) commentAfter else mret tt);
    if strictRoot_ features_ && negb (isArray root) && negb (isObject root) then
      ok ← addError (bs "A valid JSON document must be either an array or an object value.")
             (mkToken tokenError doc []) None;
      mret (ok, root)
    else mret (successful, root).

(** [getLocationLineAndColumn]: the line and column of [location], counted from 1.
    [line_start] is [lastLineStart]; at the end of the document the character after a
    carriage return is the terminating NUL of the string. *)
Fixpoint line_loop (fuel : nat) (current line_start location : Location) (line : Z) : Z * Location :=
  match fuel, current with
  | S fuel', c :: current' =>
      if (length location <? length current)%nat then
        if eqc c Byte.x0d then
          let next := match current' with
                      | d :: l => if eqc d Byte.x0a then l else current'
                      | [] => current'
                      end in
          line_loop fuel' next next location (line + 1)
        else if eqc c Byte.x0a then line_loop fuel' current' current' location (line + 1)
        else line_loop fuel' current' line_start location line
      else (line, line_start)
  | _, _ => (line, line_start)
  end.

Definition getLocationLineAndColumn (doc location : Location) : Z * Z :=
  let '(line, line_start) := line_loop (length doc) doc doc location 0 in
  (line + 1, zlen line_start - zlen location + 1).

Definition location_text (doc location : Location) : list byte :=
  let '(line, column) := getLocationLineAndColumn doc location in
  bs "Line " ++ Writer.text_of (Writer.valueToString_int line)
  ++ bs ", Column " ++ Writer.text_of (Writer.valueToString_int column).

Definition getFormattedErrorMessages (r : OurReader) : list byte :=
  concat (map (fun error =>
    bs "* " ++ location_text (begin_ r) (start_ (token_ error)) ++ [Byte.x0a]
    ++ bs "  " ++ message_ error ++ [Byte.x0a]
    ++ match extra_ error with
       | Some e => bs "See " ++ location_text (begin_ r) e ++ bs " for detail." ++ [Byte.x0a]
       | None => []
       end) (errors_ r)).

(** ** Settings *)

(** [CharReaderBuilder::setDefaults] *)
Definition setDefaults (settings : Value) : outcome Value :=
  Writer.assign_all settings
    [(bs "collectComments", booleanValue true);
     (bs "allowComments", booleanValue true);
     (bs "allowTrailingCommas", booleanValue true);
     (bs "strictRoot", booleanValue false);
     (bs "allowDroppedNullPlaceholders", booleanValue false);
     (bs "allowNumericKeys", booleanValue false);
     (bs "allowSingleQuotes", booleanValue false);
     (bs "stackLimit", intValue 1000);
     (bs "failIfExtra", booleanValue false);
     (bs "rejectDupKeys", booleanValue false);
     (bs "allowSpecialFloats", booleanValue false);
     (bs "skipBom", booleanValue true)].

(** [CharReaderBuilder::strictMode] *)
Definition strictMode (settings : Value) : outcome Value :=
  Writer.assign_all settings
    [(bs "allowComments", booleanValue false);
     (bs "allowTrailingCommas", booleanValue false);
     (bs "strictRoot", booleanValue true);
     (bs "allowDroppedNullPlaceholders", booleanValue false);
     (bs "allowNumericKeys", booleanValue false);
     (bs "allowSingleQuotes", booleanValue false);
     (bs "stackLimit", intValue 1000);
     (bs "failIfExtra", booleanValue true);
     (bs "rejectDupKeys", booleanValue true);
     (bs "allowSpecialFloats", booleanValue false);
     (bs "skipBom", booleanValue true)].

(** [CharReaderBuilder::newCharReader]: [collectComments] and the features *)
Definition newCharReader (settings : Value) : outcome (bool * OurFeatures) :=
  let flag name := Writer.const_at settings (bs name) ≫= Writer.asBool in
  collectComments ← flag "collectComments";
  allowComments ← flag "allowComments";
  allowTrailingCommas ← flag "allowTrailingCommas";
  strictRoot ← flag "strictRoot";
  allowDroppedNullPlaceholders ← flag "allowDroppedNullPlaceholders";
  allowNumericKeys ← flag "allowNumericKeys";
  allowSingleQuotes ← flag "allowSingleQuotes";
  stackLimit ← Writer.const_at settings (bs "stackLimit") ≫= Writer.asUInt;
  failIfExtra ← flag "failIfExtra";
  rejectDupKeys ← flag "rejectDupKeys";
  allowSpecialFloats ← flag "allowSpecialFloats";
  skipBom ← flag "skipBom";
  mret (collectComments,
        mkFeatures allowComments allowTrailingCommas strictRoot allowDroppedNullPlaceholders
          allowNumericKeys allowSingleQuotes failIfExtra rejectDupKeys allowSpecialFloats skipBom
          stackLimit).

(** [OurCharReader::parse]: the answer, [root] and the formatted errors *)
Definition char_reader_parse (reader : bool * OurFeatures) (doc : list byte) (root : Value)
  : outcome (bool * Value * list byte) :=
  let '(res, r) := parse (snd reader) (fst reader) root (new_reader doc) in
  '(ok, root) ← res; mret (ok, root, getFormattedErrorMessages r).

(** [parseFromStream] with a builder of the given settings *)
Definition parseFromStream (settings : Value) (doc : list byte) (root : Value)
  : outcome (bool * Value * list byte) :=
  reader ← newCharReader settings;
  char_reader_parse reader doc root.

(** A default-constructed [CharReaderBuilder]. *)
Definition default_settings : outcome Value := setDefaults nullValue.

End Reader.
