(* ===== verification/Parsing.v ===== *)
(** * The reader returns, and what it returns

    Every document shorter than two gigabytes is read to an answer: the loops terminate, the
    exceptions are those for too deep nesting, too long keys and strings too long for a
    value, the answer is "no" exactly when an error was recorded, and the value is well
    formed. *)
From Stdlib Require Import ZArith Lia.
From Stdlib Require Strings.Byte.
From S2P Require Import Prelude Double Real Json JsonWriter JsonReader.

Module Parsing.
Import Json Reader.

(** ** Pointers *)

Lemma suffix_refl_ {A} (l : list A) : l `suffix_of` l.
Proof. done. Qed.

Lemma suffix_skip {A} (x : A) l k : l `suffix_of` k -> l `suffix_of` x :: k.
Proof. apply suffix_cons_r. Qed.

Lemma suffix_drop_ {A} n (l : list A) : drop n l `suffix_of` l.
Proof. exists (take n l). by rewrite take_drop. Qed.

Lemma suffix_le {A} (l k : list A) : l `suffix_of` k -> (length l <= length k)%nat.
Proof. apply suffix_length. Qed.

#[local] Hint Resolve suffix_refl_ suffix_skip suffix_drop_ : core.

Lemma spaces_suffix l : spaces_loop l `suffix_of` l.
Proof. induction l as [|c l IH]; cbn; [done|]. case_if; auto. Qed.

Lemma digits_suffix l : digits_loop l `suffix_of` l.
Proof. induction l as [|c l IH]; cbn; [done|]. case_if; auto. Qed.

Lemma accept_suffix p l l' : accept p l = Some l' -> l' `suffix_of` l.
Proof. destruct l as [|c l]; cbn; [done|]. case_if; [|done]. intros [= <-]. auto. Qed.

(** The parts of a number that may be missing. *)
Lemma optional_suffix p (f : Location -> Location) l :
  (forall k, f k `suffix_of` k) ->
  match accept p l with Some l' => f l' | None => l end `suffix_of` l.
Proof.
  intros Hf. destruct (accept p l) as [l'|] eqn:E; [|done]. etrans; [apply Hf|]. by eapply accept_suffix.
Qed.

Lemma number_end_suffix l : number_end l `suffix_of` l.
Proof.
  unfold number_end. etrans; [|apply digits_suffix].
  etrans; [|apply (optional_suffix (fun c => eqc c Byte.x2e) digits_loop), digits_suffix].
  refine (optional_suffix _ (fun l' => digits_loop (default l'
    (accept (fun c => eqc c Byte.x2b || eqc c Byte.x2d) l'))) _ _). intros k.
  etrans; [apply digits_suffix|]. unfold default. by apply (optional_suffix _ (fun x => x)).
Qed.

Lemma string_loop_suffix quote l : forall c, (string_loop quote c l).2 `suffix_of` l.
Proof.
  induction l as [l IH] using (induction_ltof1 _ length). unfold ltof in IH.
  intros c. destruct l as [|b l]; cbn; [done|]. case_if.
  - destruct l as [|d l]; cbn; [auto|]. do 2 apply suffix_skip. apply IH. cbn. lia.
  - case_if; cbn; [auto|]. apply suffix_skip, IH. cbn. lia.
Qed.

Lemma c_comment_suffix l : forall nl, (c_comment_loop nl l).2 `suffix_of` l.
Proof.
  induction l as [|c l IH]; intros nl; [done|]. cbn [c_comment_loop].
  destruct l as [|d l]; [done|]. case_if; cbn [snd]; auto.
Qed.

Lemma cpp_comment_suffix l : cpp_comment_loop l `suffix_of` l.
Proof.
  induction l as [|c l IH]; cbn; [done|]. case_if; [auto|]. case_if; [|auto].
  destruct l as [|d l]; [auto|]. case_if; auto.
Qed.

(** [wpr] takes the next step of a [wp] goal, through the small actions of the reader. *)
Ltac wpr :=
  lazymatch goal with
  | |- wp (move _) _ _ _ => apply wp_modify
  | |- wp push _ _ _ => apply wp_modify
  | |- wp pop _ _ _ => apply wp_modify
  | |- wp skipSpaces _ _ _ => apply wp_modify
  | |- wp (skipBom _) _ _ _ => apply wp_modify
  | |- wp fuel_left _ _ _ => apply wp_gets
  | _ => wps
  end.

(** ** What the steps of the reader keep *)

(** Collected comments start with a slash. *)
Definition slashed (l : list byte) : Prop := match l with [] => True | c :: _ => c = Byte.x2f end.

Record moved (r r' : OurReader) : Prop := mkMoved {
  mv_current : current_ r' `suffix_of` current_ r;
  mv_nodes : nodes_ r' = nodes_ r;
  mv_begin : begin_ r' = begin_ r;
  mv_comments : slashed (commentsBefore_ r) -> slashed (commentsBefore_ r')
}.

#[export] Instance moved_preorder : PreOrder moved.
Proof.
  split; [done|]. intros r1 r2 r3 [] []. split; [by etrans|congruence|congruence|auto].
Qed.

(** Steps that add no error. *)
Definition quiet (r r' : OurReader) : Prop := moved r r' /\ errors_ r' = errors_ r.

#[export] Instance quiet_preorder : PreOrder quiet.
Proof. split; [done|]. intros r1 r2 r3 [? E1] [? E2]. split; [by etrans|congruence]. Qed.

Lemma quiet_current r l : l `suffix_of` current_ r -> quiet r (set_current r l).
Proof. by repeat split. Qed.

Lemma quiet_last r l b : quiet r (set_last r l b).
Proof. by repeat split. Qed.

#[local] Hint Resolve quiet_current quiet_last : core.

Abbreviation never := (fun (_ : exn) (_ : OurReader) => False).

(** [getNextChar] moves past the character it returns, if there is one. *)
Lemma getNextChar_spec r : wp getNextChar (fun c r' => quiet r r'
  /\ match current_ r with [] => c = Byte.x00 /\ r' = r | b :: l => c = b /\ r' = set_current r l end) never r.
Proof.
  unfold getNextChar. wpr. wpr. destruct (current_ r) as [|b l] eqn:E; wpr; [done|].
  wpr. wpr. split; [|done]. apply quiet_current. rewrite E. auto.
Qed.

Lemma match_spec p r : wp (match_ p) (fun _ r' => quiet r r') never r.
Proof.
  unfold match_. wpr. wpr. case_if; [by wpr|]. case_if; [|by wpr]. wpr. wpr. wpr. auto.
Qed.

Lemma readQuoted_spec q r : wp (readQuoted q) (fun _ r' => quiet r r') never r.
Proof.
  unfold readQuoted. wpr. wpr. pose proof (string_loop_suffix q (current_ r) Byte.x00) as H.
  destruct (string_loop q Byte.x00 (current_ r)) as [c l]. cbn in H. wpr. wpr. wpr. auto.
Qed.

Lemma readNumber_spec b r : wp (readNumber b) (fun _ r' => quiet r r') never r.
Proof.
  unfold readNumber. wpr. wpr.
  destruct (if b then _ else _) as [l|] eqn:E; wpr; wpr; wpr; apply quiet_current; [|apply number_end_suffix].
  destruct b; [by eapply accept_suffix|done].
Qed.

Lemma readCStyleComment_spec r : wp readCStyleComment (fun _ r' => quiet r r') never r.
Proof.
  unfold readCStyleComment. wpr. wpr. pose proof (c_comment_suffix (current_ r) false) as H.
  destruct (c_comment_loop false (current_ r)) as [n l]. cbn in H. wpr. wpr. wpr.
  eapply wp_mono; [apply getNextChar_spec| |done]. intros c r' [Hq _]. wpr. etrans; [|exact Hq]. auto.
Qed.

(** A comment that was read starts with the slash of its first character. *)
Lemma normalize_slash l : normalizeEOL (Byte.x2f :: l) = Byte.x2f :: normalizeEOL l.
Proof. done. Qed.

(** A comment that starts with a slash is attached. *)
Lemma setComment_run l p r : exists c,
  setComment (Byte.x2f :: l) p r = (Ok tt, set_comments r (commentsBefore_ r) (attached r ++ [(p, c)])).
Proof.
  unfold setComment.
  assert (exists l', match last (Byte.x2f :: l) with
     | Some c => if eqc c Byte.x0a then take (length (Byte.x2f :: l) - 1) (Byte.x2f :: l) else Byte.x2f :: l
     | None => Byte.x2f :: l end = Byte.x2f :: l') as [l' ->].
  { destruct (last (Byte.x2f :: l)) as [c|] eqn:E; [|by eexists]. case_if; [|by eexists].
    destruct l as [|d l]; [injection E as <-; done|]. cbn [length Nat.sub take]. by eexists. }
  change (eqc Byte.x2f Byte.x00 || eqc Byte.x2f Byte.x2f) with true. by eexists.
Qed.

Lemma setComment_spec l p r : wp (setComment (Byte.x2f :: l) p) (fun _ r' => quiet r r') never r.
Proof. destruct (setComment_run l p r) as [c E]. unfold wp. by rewrite E. Qed.

(** Adding a comment changes the comments only. *)
Lemma addComment_run a b p r : (exists l, between a b = Byte.x2f :: l) -> exists c cs,
  addComment a b p r = (Ok tt, set_comments r c cs) /\ (slashed (commentsBefore_ r) -> slashed c).
Proof.
  intros [l E]. unfold addComment. rewrite E, normalize_slash. destruct p.
  - do 2 eexists. split; [done|]. by destruct (commentsBefore_ r).
  - destruct (setComment_run (normalizeEOL l) commentAfterOnSameLine r) as [c ->]. by do 2 eexists.
  - do 2 eexists. split; [done|]. by destruct (commentsBefore_ r).
Qed.

Lemma addComment_spec a b p r : (exists l, between a b = Byte.x2f :: l) -> wp (addComment a b p) (fun _ r' => quiet r r') never r.
Proof. intros H. destruct (addComment_run a b p r H) as (c & cs & E & Hc). unfold wp. by rewrite E. Qed.

Lemma between_slash (l l' : Location) : l' `suffix_of` l -> exists k, between (Byte.x2f :: l) l' = Byte.x2f :: k.
Proof.
  intros H. apply suffix_le in H. unfold between. cbn [length].
  rewrite Nat.sub_succ_l by done. cbn. by eexists.
Qed.

Lemma readComment_spec collect l r : current_ r = l ->
  wp (readComment collect (Byte.x2f :: l)) (fun _ r' => quiet r r') never r.
Proof.
  intros E. unfold readComment. wpr. eapply wp_mono; [apply getNextChar_spec| |done]. intros c r1 [H1 _].
  wpr. apply (wp_mono _ (fun _ r2 => quiet r1 r2) _ never).
  - case_if; [apply readCStyleComment_spec|]. case_if; [|by wpr].
    unfold readCppStyleComment. wpr. wpr. wpr. wpr. wpr. apply quiet_current, cpp_comment_suffix.
  - intros [ok nl] r2 H2. assert (quiet r r2) as H by (by etrans). clear H1 H2.
    destruct ok; cbn [negb]; [|by wpr]. wpr.
    apply (wp_mono _ (fun _ r3 => quiet r2 r3) _ never); [|intros _ r3 H3; wpr; by etrans|done].
    destruct collect; [|by wpr]. wpr. wpr. wpr.
    apply (wp_mono _ (fun _ r3 => quiet r2 r3) _ never); [case_if; wpr; by auto| |done].
    intros _ r3 H3. eapply wp_mono; [apply addComment_spec, between_slash| |done].
    + rewrite <- E. apply H.
    + intros ? r4 H4. cbn in H4. by etrans.
  - done.
Qed.

(** ** Tokens *)

(** The token between two states of the reader. *)
Record token_at (r : OurReader) (ok : bool) (t : Token) (r' : OurReader) : Prop := mkTokenAt {
  ta_quiet : quiet r r';
  ta_start : start_ t `suffix_of` current_ r;
  ta_end : end_ t = current_ r';
  ta_order : end_ t `suffix_of` start_ t;
  ta_error : ok = false -> type_ t = tokenError;
  ta_progress : type_ t <> tokenEndOfStream -> (length (current_ r') < length (current_ r))%nat
}.

Lemma token_of_spec f collect c l r : current_ r = l ->
  wp (token_of f collect c (c :: l)) (fun x r' => quiet r r' /\ (fst x = tokenEndOfStream -> c = Byte.x00)) never r.
Proof.
  intros E. unfold token_of.
  assert (forall r1 (m : R bool) (t : TokenType), t <> tokenEndOfStream ->
    quiet r r1 -> wp m (fun _ r' => quiet r1 r') never r1 ->
    wp (ok ← m; mret (t, ok)) (fun x r' => quiet r r' /\ (fst x = tokenEndOfStream -> c = Byte.x00)) never r1) as Hb.
  { intros r1 m t Ht H1 Hm. wpr. eapply wp_mono; [exact Hm| |done]. intros b r' H. wpr. cbn. split; [by etrans|done]. }
  assert (forall t : TokenType, t <> tokenEndOfStream ->
    wp (ok ← readNumber true;
        if (ok : bool) then mret (tokenNumber, true)
        else ok ← (if allowSpecialFloats_ f then match_ (bs "nfinity") else mret false); mret (t, ok))
      (fun x r' => quiet r r' /\ (fst x = tokenEndOfStream -> c = Byte.x00)) never r) as Hn.
  { intros t Ht. wpr. eapply wp_mono; [apply readNumber_spec| |done]. intros [] r1 H1; [by wpr|].
    apply Hb; [done..|]. case_if; [apply match_spec|by wpr]. }
  repeat (case_if; [first
    [ by wpr
    | apply Hb; [done..|]; first [apply readQuoted_spec|apply match_spec]
    | apply Hn; done
    | case_if; [|by wpr]; apply Hb; [done..|]; first [apply readQuoted_spec|apply match_spec]
    | idtac ]|]).
  - match goal with H : eqc c Byte.x2f = true |- _ => apply bool_decide_eq_true in H as -> end.
    apply Hb; [done..|]. by apply readComment_spec.
  - wpr. eapply wp_mono; [apply readNumber_spec| |done]. intros ? r1 H1. by wpr.
  - wpr. split; [done|]. intros _. match goal with H : eqc c Byte.x00 = true |- _ => by apply bool_decide_eq_true in H end.
  - by wpr.
Qed.

Lemma readToken_spec f collect r :
  wp (readToken f collect) (fun x r' => token_at r (fst x) (snd x) r') never r.
Proof.
  unfold readToken. wpr. wpr. wpr. wpr. set (r1 := set_current r (spaces_loop (current_ r))).
  assert (quiet r r1) as H1 by apply quiet_current, spaces_suffix.
  assert (current_ r1 `suffix_of` current_ r) as Hs by apply H1. clearbody r1.
  wpr. eapply wp_mono; [apply getNextChar_spec| |done]. intros c r2 [H2 Hc].
  destruct (current_ r1) as [|b l] eqn:E1; destruct Hc as [-> ->].
  - change (token_of f collect Byte.x00 []) with (mret (M := R) (tokenEndOfStream, true)).
    wpr. wpr. wpr. wpr. wpr. split; cbn; [done..|by rewrite E1|done|done].
  - wpr. eapply wp_mono; [by apply token_of_spec| |done]. intros [t ok] r3 [H3 Ht]. wpr. wpr. wpr.
    assert (quiet r1 r3) as H13 by (by etrans). pose proof (suffix_le _ _ (mv_current _ _ (proj1 H3))) as Hl.
    cbn in Hl. pose proof (suffix_le _ _ Hs) as Hs'. cbn in Hs'.
    split; cbn; [by etrans|done|done| |by intros ->|lia].
    rewrite <- E1. apply H13.
Qed.

(** A token read after a token. *)
Lemma token_at_trans r0 ok t r ok' t' r' :
  token_at r0 ok t r -> type_ t <> tokenEndOfStream -> token_at r ok' t' r' -> token_at r0 ok' t' r'.
Proof.
  intros [Hq Hs He Ho _ Hp] Ht [Hq' Hs' He' Ho' Hf' Hp']. specialize (Hp Ht).
  assert (length (current_ r') <= length (current_ r))%nat as Hle by apply suffix_le, Hq'.
  split; [by etrans| |done..|intros; lia]. etrans; [exact Hs'|]. apply Hq.
Qed.

Lemma comments_loop_spec f collect n : forall ok t r0 r,
  token_at r0 ok t r -> (S (length (current_ r)) < n)%nat ->
  wp (comments_loop f collect n ok t) (fun x r' => token_at r0 (fst x) (snd x) r') never r.
Proof.
  induction n as [|n IH]; intros ok t r0 r Ht Hn; [lia|]. cbn [comments_loop].
  destruct (is_type (type_ t) tokenComment && ok) eqn:Ec; [|wpr; exact Ht]. zbool.
  apply bool_decide_eq_true in H.
  wpr. eapply wp_mono; [apply readToken_spec| |done]. intros [ok' t'] r' Ht'. cbn in Ht'.
  pose proof (token_at_trans _ _ _ _ _ _ _ Ht ltac:(congruence) Ht') as H2.
  destruct (decide (type_ t' = tokenEndOfStream)) as [Et|Et].
  - destruct n as [|n]; [lia|]. cbn [comments_loop]. rewrite Et.
    change (is_type tokenEndOfStream tokenComment && ok') with false. cbv iota. wpr. exact H2.
  - apply IH; [done|]. pose proof (ta_progress _ _ _ _ Ht' Et). lia.
Qed.

Lemma pass_comments_spec f collect ok t r0 r : token_at r0 ok t r ->
  wp (pass_comments f collect ok t) (fun x r' => token_at r0 (fst x) (snd x) r') never r.
Proof.
  intros Ht. unfold pass_comments. wpr. wpr. apply comments_loop_spec; [done|lia].
Qed.

Lemma skipCommentTokens_spec f collect r :
  wp (skipCommentTokens f collect) (fun t r' => exists ok, token_at r ok t r') never r.
Proof.
  unfold skipCommentTokens. wpr. eapply wp_mono; [apply readToken_spec| |done]. intros [ok t] r1 H1. cbn in H1.
  case_if; [|wpr; by eexists]. wpr. eapply wp_mono; [apply pass_comments_spec| |done].
  - instantiate (1 := r). destruct ok; [done|]. destruct H1. by split.
  - intros [ok' t'] r2 H2. wpr. by eexists.
Qed.

(** ** Errors *)

(** Steps that add errors at the end. *)
Definition failed (r r' : OurReader) : Prop :=
  moved r r' /\ exists es, es <> [] /\ errors_ r' = errors_ r ++ es.

Lemma quiet_failed r1 r2 r3 : quiet r1 r2 -> failed r2 r3 -> failed r1 r3.
Proof. intros [? E] [? (es & ? & E')]. split; [by etrans|]. exists es. by rewrite E', E. Qed.

Lemma failed_quiet r1 r2 r3 : failed r1 r2 -> quiet r2 r3 -> failed r1 r3.
Proof. intros [? (es & ? & E)] [? E']. split; [by etrans|]. exists es. by rewrite E'. Qed.

Lemma addError_spec msg t extra r :
  wp (addError msg t extra) (fun ok r' => ok = false /\ failed r r') never r.
Proof. unfold addError. wpr. wpr. wpr. split; [done|]. split; [done|]. by eexists [_]. Qed.

Lemma recover_loop_spec f collect n k u : forall r,
  (length (current_ r) < n)%nat -> (length (errors_ r) <= k)%nat ->
  wp (recover_loop f collect n k u) (fun _ r' => quiet r r') never r.
Proof.
  induction n as [|n IH]; intros r Hn Hk; [lia|]. cbn [recover_loop].
  wpr. eapply wp_mono; [apply readToken_spec| |done]. intros [ok t] r1 [Hq Hs He Ho Hf Hp]. cbn in *.
  wpr. apply (wp_mono _ (fun _ r2 => quiet r r2 /\ current_ r2 = current_ r1) _ never); [| |done].
  - case_if; wpr; [|done]. destruct Hq as [[] Eq]. split; [|done]. split; [by split|].
    cbn. rewrite take_ge by (rewrite Eq; lia). done.
  - intros _ r2 [H2 E2]. destruct (is_type (type_ t) u || is_type (type_ t) tokenEndOfStream) eqn:Es; [by wpr|].
    apply orb_false_iff in Es as [_ Es]. apply bool_decide_eq_false in Es. specialize (Hp Es).
    eapply wp_mono; [apply IH|intros ? r3 H3; by etrans|done]; [rewrite E2; lia|].
    by rewrite (proj2 H2).
Qed.

Lemma recoverFromError_spec f collect u r :
  wp (recoverFromError f collect u) (fun ok r' => ok = false /\ quiet r r') never r.
Proof.
  unfold recoverFromError. wpr. wpr. wpr. wpr. wpr.
  eapply wp_mono; [apply recover_loop_spec; lia| |done]. intros ? r1 [[] E]. wpr. wpr. wpr. split; [done|].
  split; [by split|]. cbn. by rewrite E, take_ge.
Qed.

Lemma addErrorAndRecover_spec f collect msg t u r :
  wp (addErrorAndRecover f collect msg t u) (fun ok r' => ok = false /\ failed r r') never r.
Proof.
  unfold addErrorAndRecover. wpr. eapply wp_mono; [apply addError_spec| |done]. intros ? r1 [_ H1].
  eapply wp_mono; [apply recoverFromError_spec| |done]. intros ? r2 [-> H2]. split; [done|]. by eapply failed_quiet.
Qed.

(** ** Scalars *)

(** A decoded scalar adds no error; a failure adds one. *)
Definition scalar {A} (good : A -> Prop) (r : OurReader) (x : option A) (r' : OurReader) : Prop :=
  match x with
  | Some a => good a /\ r' = r
  | None => failed r r' /\ current_ r' = current_ r
  end.

Lemma addError_None {A} (good : A -> Prop) msg t extra r :
  wp (_ ← addError msg t extra; mret None) (scalar good r) never r.
Proof.
  unfold addError. wpr. wpr. wpr. wpr. wpr. split; [|done]. split; [done|]. by eexists [_].
Qed.

Lemma scalar_ok {A} (good : A -> Prop) a r : good a -> wp (mret (Some a)) (scalar good r) never r.
Proof. intros Ha. wpr. done. Qed.

Lemma decodeDouble_spec t r :
  wp (decodeDouble t) (scalar (fun v => exists x, v = realValue x) r) never r.
Proof. unfold decodeDouble. case_match; [apply scalar_ok; eauto|apply addError_None]. Qed.

(** *** Integers *)

Lemma digit_range c : Double.is_digit c = true -> 0 <= Double.digit_val c <= 9.
Proof. unfold Double.is_digit, Double.digit_val. intros H. zbool. lia. Qed.

(** The accumulated value stays below the limit the thresholds describe. *)
Lemma number_loop_range th d l : 0 <= th -> 0 <= d <= 9 -> th * 10 + d < 2 ^ 64 ->
  forall value n, 0 <= value <= th * 10 + d ->
  number_loop th d value l = Some n -> 0 <= n <= th * 10 + d.
Proof.
  intros Hth Hd Hb. induction l as [|c l IH]; intros value n Hv; cbn [number_loop]; [by intros [= <-]|].
  destruct (Double.is_digit c) eqn:Ec; [|done]. cbn [negb]. apply digit_range in Ec.
  destruct ((th <=? value) && _) eqn:Et; [done|]. apply andb_false_iff in Et.
  assert (value * 10 + Double.digit_val c <= th * 10 + d) as Hn.
  { destruct Et as [Et|Et]; [zbool; lia|]. repeat (apply orb_false_iff in Et as [Et ?]). zbool. lia. }
  rewrite (u64_small (_ + _)) by word. apply IH. lia.
Qed.

Definition number_fits (v : Value) : Prop :=
  match v with
  | intValue n => in_i64 n
  | uintValue n => 2 ^ 63 <= n < 2 ^ 64
  | realValue _ => True
  | _ => False
  end.

Lemma negative_range l n :
  number_loop negative_threshold negative_last_digit 0 l = Some n -> 0 <= n <= 2 ^ 63.
Proof. by apply (number_loop_range negative_threshold negative_last_digit). Qed.

Lemma positive_range l n :
  number_loop positive_threshold positive_last_digit 0 l = Some n -> 0 <= n <= 2 ^ 64 - 1.
Proof. by apply (number_loop_range positive_threshold positive_last_digit). Qed.

Lemma decodeNumber_spec t r : wp (decodeNumber t) (scalar number_fits r) never r.
Proof.
  unfold decodeNumber.
  assert (wp (decodeDouble t) (scalar number_fits r) never r) as Hd.
  { eapply wp_mono; [apply decodeDouble_spec| |done]. intros [v|] r'; cbn; [by intros [[x ->] ->]|done]. }
  destruct (match text_between t with c :: _ => eqc c Byte.x2d | [] => false end);
    (destruct (number_loop _ _ _ _) as [n|] eqn:En; [apply scalar_ok|exact Hd]).
  - apply i64_range.
  - apply positive_range in En. unfold Writer.maxLargestInt. case_if; cbn; word.
Qed.

(** *** Strings *)

Lemma hex_digit_range c d : hex_digit c = Some d -> 0 <= d < 16.
Proof. unfold hex_digit. repeat case_if; intros [= <-]; lia. Qed.

Lemma hex_loop_length n : forall u l, (length (hex_loop n u l).2 <= length l)%nat.
Proof.
  induction n as [|n IH]; intros u [|c l]; cbn; [done..|]. destruct (hex_digit c); cbn; [|lia].
  specialize (IH (u * 16 + z) l). lia.
Qed.

Lemma hex_loop_eats n : forall u l, (n <= length l)%nat -> is_Some (hex_loop n u l).1 ->
  (length (hex_loop n u l).2 + n = length l)%nat.
Proof.
  induction n as [|n IH]; intros u [|c l]; cbn [hex_loop length]; intros Hn Hs; cbn in *; try lia.
  destruct (hex_digit c); cbn in *; [|by destruct Hs]. specialize (IH (u * 16 + z) l ltac:(lia) Hs). lia.
Qed.

(** A decoded code point leaves the reader alone and has eaten at least four characters; a
    failure adds an error. *)
Definition point (n : nat) (r : OurReader) (x : option Z * list byte) (r' : OurReader) : Prop :=
  scalar (fun _ => True) r (fst x) r' /\ (length (snd x) <= n)%nat /\ (is_Some (fst x) -> (length (snd x) + 4 <= n)%nat).

Lemma point_None n msg t extra cur r : (length cur <= n)%nat ->
  wp (_ ← addError msg t extra; mret (None, cur)) (point n r) never r.
Proof.
  intros Hn. unfold addError. wpr. wpr. wpr. wpr. wpr. split; [|split; [done|by intros []]].
  split; [|done]. split; [done|]. by eexists [_].
Qed.

Lemma escape_sequence_spec t fin cur n r : (length cur <= n)%nat ->
  wp (decodeUnicodeEscapeSequence t fin cur) (point n r) never r.
Proof.
  intros Hn. unfold decodeUnicodeEscapeSequence. case_if; [by apply point_None|].
  pose proof (hex_loop_length 4 0 cur) as Hh. pose proof (hex_loop_eats 4 0 cur) as He.
  destruct (hex_loop 4 0 cur) as [[u|] cur']; cbn [fst snd] in *.
  - wpr. specialize (He ltac:(unfold zlen in *; lia) ltac:(by eexists)). split_and!; [done|..]; cbn; lia.
  - apply point_None. lia.
Qed.

Lemma escape_follows_length l : (length (escape_follows l).2 <= length l)%nat.
Proof. destruct l as [|a [|b l]]; cbn; [done|case_if; cbn; lia..]. Qed.

Lemma code_point_spec t fin cur n r : (length cur <= n)%nat ->
  wp (decodeUnicodeCodePoint t fin cur) (point n r) never r.
Proof.
  intros Hn. unfold decodeUnicodeCodePoint. wpr.
  eapply wp_mono; [by apply (escape_sequence_spec _ _ _ n)| |done]. intros [[u|] cur1] r1 (H1 & Hl & Hl4); cbn in H1, Hl, Hl4; [|by wpr].
  destruct H1 as [_ ->]. destruct ((0xD800 <=? u) && (u <=? 0xDBFF)); [|by wpr]. case_if; [by apply point_None|].
  pose proof (escape_follows_length cur1) as He. destruct (escape_follows cur1) as [[] cur2]; cbn in He.
  - wpr. eapply wp_mono; [apply (escape_sequence_spec _ _ _ n); lia| |done].
    intros [[v|] cur3] r2 (H2 & Hl2 & Hl3); wpr; [|done]. destruct H2 as [_ ->].
    split; [done|split; [done|]]. intros _. apply Hl3. by eexists.
  - apply point_None. lia.
Qed.

Lemma utf8_length u : (length (codePointToUTF8 u) <= 4)%nat.
Proof. unfold codePointToUTF8. repeat case_if; cbn; lia. Qed.

(** A decoded string is not longer than its text. *)
Lemma decode_loop_spec t fin n k : forall out cur r, (length cur < n)%nat -> (length out + length cur <= k)%nat ->
  wp (decode_loop n t fin out cur) (scalar (fun s => (length s <= k)%nat) r) never r.
Proof.
  induction n as [|n IH]; intros out cur r Hn Hk; [lia|]. cbn [decode_loop].
  destruct cur as [|c cur]; [apply scalar_ok; cbn in Hk; lia|]. cbn in Hn, Hk. case_if; [apply scalar_ok; lia|].
  case_if; [|apply IH; [lia|rewrite length_app; cbn; lia]]. destruct cur as [|e cur]; [apply addError_None|]. cbn in Hn, Hk.
  destruct (simple_escape e) as [b|]; [apply IH; [lia|rewrite length_app; cbn; lia]|]. case_if; [|apply addError_None].
  wpr. eapply wp_mono; [apply (code_point_spec _ _ _ (length cur)); lia| |done].
  intros [[u|] cur1] r1 (H1 & Hl & Hl4); cbn in H1, Hl, Hl4; [|by wpr]. destruct H1 as [_ ->].
  specialize (Hl4 ltac:(by eexists)). pose proof (utf8_length u). apply IH; [lia|rewrite length_app; lia].
Qed.

Lemma decodeString_spec t r :
  wp (decodeString t) (scalar (fun s => (length s <= length (text_between t) - 2)%nat) r) never r.
Proof.
  unfold decodeString. apply decode_loop_spec; [lia|]. cbn. rewrite length_take. lia.
Qed.

(** Only a string with no room for its prefix is refused. *)
Lemma string_value_spec s : zlen s < 2 ^ 32 ->
  string_value s = Ok (stringValue s) \/ string_value s = Throw json_logic_error /\ 2 ^ 31 - 5 <= zlen s.
Proof.
  intros Hs. pose proof (zlen_nonneg s). unfold string_value, Real.maxInt. rewrite u32_small by word. case_if; [right; split; [done|lia]|].
  left. by rewrite ztake_all by lia.
Qed.

Lemma string_value_ok s : zlen s < 2 ^ 31 - 5 -> string_value s = Ok (stringValue s).
Proof. intros Hs. destruct (string_value_spec s) as [|[_ ?]]; [lia|done|lia]. Qed.

Lemma decodeString_value_spec t r : zlen (start_ t) < 2 ^ 32 ->
  wp (decodeString_value t) (scalar (fun v => exists s, v = stringValue s) r)
    (fun e _ => e = json_logic_error /\ 2 ^ 31 - 3 <= zlen (start_ t)) r.
Proof.
  intros Hb. unfold decodeString_value. wpr. eapply wp_mono; [apply decodeString_spec| |done].
  assert (length (text_between t) <= length (start_ t))%nat as Ht by (unfold text_between, between; rewrite length_take; lia).
  intros [s|] r' H; [|by wpr]. destruct H as [Hs ->]. unfold zlen in *.
  destruct (string_value_spec s) as [E|[E Hl]]; [unfold zlen; lia|..]; wpr.
  - eapply wp_lift; [exact E|]. wpr. by split; [eexists|].
  - eapply wp_lift_throw; [exact E|]. split; [done|]. unfold zlen in Hl. lia.
Qed.

(** ** Values *)

(** Members are in order, at every level. *)
Fixpoint ordered (v : Value) : Prop :=
  match v with
  | arrayValue elems => fold_right (fun x P => ordered x /\ P) True elems
  | objectValue m => sorted m /\ fold_right (fun kv P => ordered (snd kv) /\ P) True m
  | _ => True
  end.

Definition good (v : Value) : Prop := Writer.fits v /\ ordered v.

Lemma good_array l : zlen l < 2 ^ 32 -> Forall good l -> good (arrayValue l).
Proof.
  intros Hl Hg. split; cbn; [split; [done|]|]; rewrite fold_Forall; (eapply Forall_impl; [exact Hg|]); by intros x [].
Qed.

Lemma good_object m : sorted m -> Forall (fun kv => good (snd kv)) m -> good (objectValue m).
Proof.
  intros Hs Hg. split; cbn; [|split; [done|]];
    rewrite (fold_Forall (fun kv : list byte * Value => _ (snd kv)));
    (eapply Forall_impl; [exact Hg|]); by intros x [].
Qed.

Lemma good_put k x m : good x -> Forall (fun kv => good (snd kv)) m -> Forall (fun kv => good (snd kv)) (put k x m).
Proof.
  intros Hx. induction 1 as [|[k' v'] m Hv Hm IH]; cbn; [by apply Forall_singleton|].
  case_if; [by constructor|]. case_if; constructor; try done. by constructor.
Qed.

Lemma good_find k m : Forall (fun kv => good (snd kv)) m -> good (default nullValue (find k m)).
Proof. induction 1 as [|[k' v'] m Hv Hm IH]; cbn; [done|]. by case_if. Qed.

(** What reading a value comes to: success without an error and past the value, or a
    recorded error. *)
Definition answered (r : OurReader) (x : bool * Value) (r' : OurReader) : Prop :=
  good (snd x) /\ if fst x then quiet r r' else failed r r'.

(** Why reading throws: the nesting is too deep or a key too long, or, in a document of at
    least [2^31 - 3] bytes, a string is too long for a value; [D] is the document's length. *)
Definition too_deep (D : Z) (e : exn) (r : OurReader) : Prop :=
  e = json_runtime_error \/ e = json_logic_error /\ 2 ^ 31 - 3 <= D.

Lemma answered_quiet r r1 x r2 : quiet r r1 -> answered r1 x r2 -> answered r x r2.
Proof.
  intros H [Hg Ha]. split; [done|]. destruct (fst x); [by etrans|by eapply quiet_failed].
Qed.

(** A reader that may be asked for a value. *)
Record ready (D lo limit : Z) (r : OurReader) : Prop := mkReady {
  rd_bound : D < 2 ^ 31 - 1;
  rd_short : zlen (current_ r) <= D;
  rd_slashed : slashed (commentsBefore_ r);
  rd_nodes : lo <= nodes_ r <= limit
}.

Lemma ready_moved D lo limit r r' : ready D lo limit r -> moved r r' -> ready D lo limit r'.
Proof.
  intros [] []. split; [done| |auto|lia]. pose proof (suffix_le _ _ mv_current0). unfold zlen in *. lia.
Qed.

Section nested.
Context (f : OurFeatures) (collect : bool) (D lo : Z) (readValue : Value -> R (bool * Value)).
Hypothesis readValue_spec : forall old r, good old -> ready D (lo + 1) (stackLimit_ f + 1) r ->
  wp (readValue old) (answered r) (too_deep D) r.

(** A value read one level down. *)
Lemma nested_spec {A} old (K : bool -> Value -> R A) Q r :
  good old -> ready D lo (stackLimit_ f) r ->
  (forall ok v r', answered r (ok, v) r' -> wp (K ok v) Q (too_deep D) r') ->
  wp (_ ← push; '(ok, v) ← readValue old; _ ← pop; K ok v) Q (too_deep D) r.
Proof.
  intros Ho Hr HK. wpr. wpr. wpr. eapply wp_mono; [apply readValue_spec; [done|]| |done].
  - destruct Hr. split; [done..|cbn; lia].
  - intros [ok v] r2 Ha. wpr. wpr. apply HK. destruct Ha as [Hg Ha]. split; [done|].
    cbn [fst] in *. destruct ok; [destruct Ha as [[] ?]|destruct Ha as [[] ?]]; (split; [split|]; cbn in *; try done; lia).
Qed.

(** The ends of the loops. *)
Lemma recover_answer u v r0 r : good v -> failed r0 r ->
  wp (ok ← recoverFromError f collect u; mret (ok, v)) (answered r0) (too_deep D) r.
Proof.
  intros Hv Hf. wpr. eapply wp_mono; [apply recoverFromError_spec| |done]. intros ok r' [-> Hq]. wpr.
  split; [done|]. by eapply failed_quiet.
Qed.

Lemma error_answer msg t u v r0 r : good v -> quiet r0 r ->
  wp (ok ← addErrorAndRecover f collect msg t u; mret (ok, v)) (answered r0) (too_deep D) r.
Proof.
  intros Hv Hq. wpr. eapply wp_mono; [apply addErrorAndRecover_spec| |done]. intros ok r' [-> Hf]. wpr.
  split; [done|]. by eapply quiet_failed.
Qed.

Lemma token_spec (Q : bool * Token -> OurReader -> Prop) r :
  (forall ok t r', token_at r ok t r' -> Q (ok, t) r') -> wp (readToken f collect) Q (too_deep D) r.
Proof.
  intros H. eapply wp_mono; [apply readToken_spec| |done]. intros [ok t] r' Ht. by apply H.
Qed.

Lemma comments_spec ok t r0 r (Q : bool * Token -> OurReader -> Prop) : token_at r0 ok t r ->
  (forall ok t r', token_at r0 ok t r' -> Q (ok, t) r') -> wp (pass_comments f collect ok t) Q (too_deep D) r.
Proof.
  intros Ht H. eapply wp_mono; [by apply pass_comments_spec| |done]. intros [ok' t'] r' Ht'. by apply H.
Qed.

Lemma read_name_spec t r :
  wp (read_name f t) (fun n r' => match n with Some None => failed r r' | _ => r' = r end
    /\ (n <> None -> type_ t <> tokenEndOfStream)) (too_deep D) r.
Proof.
  unfold read_name, is_type. case_bool_decide as Es.
  - wpr. eapply wp_mono; [apply decodeString_spec| |done]. intros [s|] r' H; wpr; (split; [by destruct H|congruence]).
  - case_bool_decide as En; cbn [andb]; [|by wpr]. case_if; [|by wpr].
    assert (forall n : option (option (list byte)), n <> None -> type_ t <> tokenEndOfStream) as Hne by congruence.
    wpr. eapply wp_mono; [apply decodeNumber_spec| |done].
    intros [v|] r' Hd; [|wpr; split; [by destruct Hd|eauto]]. destruct Hd as [Hv ->]. wpr.
    destruct v; try done; cbn in Hv.
    + destruct (Writer.valueToString_int_ok n Hv) as (d & E & _). eapply wp_lift; [exact E|]. wpr. split; [done|eauto].
    + destruct (Writer.uintToString_ok n ltac:(word)) as (d & E & _). eapply wp_lift; [exact E|]. wpr. split; [done|eauto].
    + eapply wp_lift; [done|]. wpr. split; [done|eauto].
Qed.

Lemma array_loop_spec n : forall elems r0 r,
  (length (current_ r) < n)%nat -> Forall good elems -> quiet r0 r -> ready D lo (stackLimit_ f) r ->
  zlen elems + zlen (current_ r) < 2 ^ 31 - 1 ->
  wp (array_loop f collect readValue n elems) (answered r0) (too_deep D) r.
Proof.
  induction n as [|n IH]; intros elems r0 r Hn Hg Hq Hr Hb; [lia|]. cbn [array_loop].
  wpr. wpr. wpr. wpr. set (r1 := set_current r (spaces_loop (current_ r))).
  assert (quiet r r1) as H1 by apply quiet_current, spaces_suffix. clearbody r1.
  assert (quiet r0 r1) as Hq1 by (by etrans). assert (ready D lo (stackLimit_ f) r1) as Hr1 by (eapply ready_moved; [exact Hr|apply H1]).
  pose proof (suffix_le _ _ (mv_current _ _ (proj1 H1))) as Hs. unfold zlen in Hb.
  match goal with |- wp (if ?b then _ else _) _ _ _ => destruct b end.
  { wpr. apply token_spec. intros ok t r2 Ht. wpr. split; [apply good_array; [unfold zlen; lia|done]|].
    cbn. etrans; [exact Hq1|]. apply Ht. }
  case_if; [unfold zlen in *; lia|].
  apply nested_spec; [done|done|]. intros ok v r2 [Hv Ha]. cbn [fst snd] in *.
  assert (Forall good (elems ++ [v])) as Hg' by (apply Forall_app; split; [done|by apply Forall_singleton]).
  assert (length (elems ++ [v]) = S (length elems)) as Hl by (rewrite length_app; cbn; lia).
  assert (zlen (elems ++ [v]) < 2 ^ 31) as Hz by (unfold zlen; rewrite Hl; unfold zlen in *; lia).
  assert (good (arrayValue (elems ++ [v]))) as Hga by (apply good_array; [lia|done]).
  destruct ok; cbn [negb].
  - assert (quiet r0 r2) as Hq2 by (by etrans).
    wpr. apply token_spec. intros ok t r3 Ht. wpr. eapply comments_spec; [exact Ht|]. clear ok t r3 Ht. intros ok t r3 Ht.
    assert (quiet r0 r3) as Hq3 by (etrans; [exact Hq2|apply Ht]).
    destruct (negb ok || _) eqn:Eb; [by apply error_answer|]. case_if; [wpr; by split|].
    assert (type_ t <> tokenEndOfStream) as Hne.
    { intros E. rewrite E in Eb. by destruct ok. }
    pose proof (ta_progress _ _ _ _ Ht Hne) as Hs3.
    pose proof (suffix_le _ _ (mv_current _ _ (proj1 Ha))) as Hs2.
    apply IH; [lia|done|done|eapply ready_moved; [exact Hr1|]|unfold zlen; rewrite Hl; lia].
    etrans; [apply Ha|apply Ht].
  - apply recover_answer; [done|]. by eapply quiet_failed.
Qed.

Lemma object_loop_spec n : forall name m r0 r,
  (length (current_ r) < n)%nat -> sorted m -> Forall (fun kv => good (snd kv)) m ->
  quiet r0 r -> ready D lo (stackLimit_ f) r ->
  wp (object_loop f collect readValue n name m) (answered r0) (too_deep D) r.
Proof.
  induction n as [|n IH]; intros name m r0 r Hn Hs Hg Hq Hr; [lia|]. cbn [object_loop].
  assert (good (objectValue m)) as Hm by (by apply good_object).
  wpr. apply token_spec. intros ok t r1 H1. assert (quiet r0 r1) as Hq1 by (etrans; [exact Hq|apply H1]).
  destruct ok; cbn [negb]; [|by apply error_answer].
  wpr. eapply comments_spec; [exact H1|]. clear t r1 H1 Hq1. intros ok t r1 H1.
  assert (quiet r0 r1) as Hq1 by (etrans; [exact Hq|apply H1]).
  destruct ok; cbn [negb]; [|by apply error_answer].
  match goal with |- wp (if ?b then _ else _) _ _ _ => destruct b end; [wpr; by split|].
  wpr. eapply wp_mono; [apply read_name_spec| |done]. intros [[k|]|] r2 [H2 Hne]; [subst r2| |subst r2; by apply error_answer].
  2: { apply recover_answer; [done|]. by eapply quiet_failed. }
  case_if; [wpr; by left|]. case_if; [by apply error_answer|]. clear Heqb Heqb0.
  wpr. apply token_spec. intros ok t2 r2 H2. assert (quiet r0 r2) as Hq2 by (etrans; [exact Hq1|apply H2]).
  case_if; [by apply error_answer|]. clear Heqb.
  assert (quiet r r2) as Hrr by (etrans; [apply H1|apply H2]).
  assert (ready D lo (stackLimit_ f) r2) as Hr2 by (eapply ready_moved; [exact Hr|apply Hrr]).
  apply nested_spec; [by apply good_find|done|]. intros ok' v r3 [Hv Ha]. cbn [fst snd] in *.
  assert (sorted (put k v m)) as Hs' by (by apply put_sorted).
  assert (Forall (fun kv => good (snd kv)) (put k v m)) as Hg' by (by apply good_put).
  assert (good (objectValue (put k v m))) as Hm' by (by apply good_object).
  destruct ok'; cbn [negb]; [|apply recover_answer; [done|by eapply quiet_failed]].
  assert (quiet r0 r3) as Hq3 by (by etrans).
  wpr. apply token_spec. intros ok3 t3 r4 H4. assert (quiet r0 r4) as Hq4 by (etrans; [exact Hq3|apply H4]).
  case_if; [by apply error_answer|]. clear Heqb.
  assert (token_at r3 true t3 r4) as H4' by (destruct ok3; [done|by destruct H4; split]).
  wpr. eapply comments_spec; [exact H4'|]. intros ok5 t5 r5 H5.
  assert (quiet r0 r5) as Hq5 by (etrans; [exact Hq3|apply H5]).
  case_if; [wpr; by split|].
  apply IH; [|done|done|done|eapply ready_moved; [exact Hr2|]; etrans; [apply Ha|apply H5]].
  pose proof (ta_progress _ _ _ _ H1 (Hne ltac:(done))).
  assert (quiet r1 r5) as H15 by (etrans; [apply H2|]; etrans; [exact Ha|apply H5]).
  pose proof (suffix_le _ _ (mv_current _ _ (proj1 H15))). lia.
Qed.

Lemma readArray_spec r : ready D lo (stackLimit_ f) r -> wp (readArray f collect readValue) (answered r) (too_deep D) r.
Proof.
  intros Hr. unfold readArray. wpr. wpr. apply array_loop_spec; [lia|done|done|done|].
  rewrite zlen_nil. destruct Hr; lia.
Qed.

Lemma readObject_spec r : ready D lo (stackLimit_ f) r -> wp (readObject f collect readValue) (answered r) (too_deep D) r.
Proof.
  intros Hr. unfold readObject. wpr. wpr. apply object_loop_spec; [lia|constructor|done|done|done].
Qed.

(** The token that starts the value was read between [r0] and [r]. *)
Lemma read_switch_spec old t r0 r : good old -> ready D lo (stackLimit_ f) r -> zlen (current_ r0) <= D ->
  quiet r0 r -> start_ t `suffix_of` current_ r0 ->
  wp (read_switch f collect readValue old t) (fun x r' => answered r0 (snd x) r') (too_deep D) r.
Proof.
  intros Ho Hr HD Hq Ht. unfold read_switch.
  assert (answered r0 (true, nullValue) (set_current r (start_ t))) as Hun.
  { split; [done|]. destruct Hq as [[] ?]. split; [split|]; try done. }
  assert (forall m, wp m (answered r) (too_deep D) r ->
    wp (x ← m; mret (true, x)) (fun x r' => answered r0 (snd x) r') (too_deep D) r) as Hne.
  { intros m Hm. wpr. eapply wp_mono; [exact Hm| |done]. intros x r' Hx. wpr. by eapply answered_quiet. }
  destruct (type_ t) eqn:Et;
    try (wpr; by split); try (case_if; [wpr; wpr; wpr; exact Hun|wpr; eapply wp_mono; [apply addError_spec| |done]; intros ok' r' [-> Hf]; wpr]);
    try (split; [done|by eapply quiet_failed]).
  - by apply Hne, readObject_spec.
  - by apply Hne, readArray_spec.
  - wpr. assert (zlen (start_ t) <= D) as Hst.
    { apply suffix_le in Ht. unfold zlen in *. lia. }
    eapply wp_mono; [apply decodeString_value_spec; destruct Hr; lia| |intros e r' [-> ?]; right; split; [done|lia]].
    intros [v|] r' H; wpr; destruct H as [H1 H2].
    + subst r'. split; [|done]. by destruct H1 as [s ->].
    + split; [done|]. by eapply quiet_failed.
  - wpr. eapply wp_mono; [apply decodeNumber_spec| |done]. intros [v|] r' H; wpr; destruct H as [H1 H2].
    + subst r'. split; [|done]. destruct v; try done; split; cbn in *; done || word.
    + split; [done|]. by eapply quiet_failed.
Qed.
End nested.

(** The comments collected before a value are attached to it. *)
Lemma attach_spec (collect : bool) r : slashed (commentsBefore_ r) ->
  wp (if collect && negb (bool_decide (commentsBefore_ r = [])) then
        _ ← setComment (commentsBefore_ r) commentBefore;
        modify (fun r => set_comments r [] (attached r))
      else mret tt) (fun _ r' => quiet r r') never r.
Proof.
  intros Hs. case_if; [|by wpr]. apply negb_true_iff, bool_decide_eq_false in H0.
  destruct (commentsBefore_ r) as [|c l] eqn:E; [done|]. cbn in Hs. subst c.
  wpr. eapply wp_mono; [apply setComment_spec| |done]. intros ? r' Hq. wpr.
  destruct Hq as [[] ?]. by repeat split.
Qed.

Lemma readValue_spec f collect D n : forall old r, good old ->
  ready D (stackLimit_ f + 2 - Z.of_nat n) (stackLimit_ f + 1) r ->
  wp (readValue f collect n old) (answered r) (too_deep D) r.
Proof.
  induction n as [|n IH]; intros old r Ho Hr; [destruct Hr; lia|]. cbn [readValue].
  wpr. wpr. case_if; [wpr; by left|]. wpr. eapply wp_mono; [apply skipCommentTokens_spec| |done]. intros t r1 [ok Ht].
  pose proof (ta_quiet _ _ _ _ Ht) as Hq. wpr. wpr. wpr.
  eapply wp_mono; [apply attach_spec; apply Hq, Hr| |done]. intros ? r2 H2. cbn in H2.
  assert (quiet r r2) as Hq2 by (by etrans).
  wpr. eapply wp_mono; [eapply (read_switch_spec f collect D (nodes_ r))| |done]; [|done| |by destruct Hr|done|apply Ht|].
  - intros old' r' Ho' Hr'. apply IH; [done|]. destruct Hr, Hr'. split; [done..|lia].
  - destruct Hr. apply (ready_moved _ _ _ r); [split; [done..|lia]|apply Hq2].
  - intros [fin x] r3 [Hg Ha]. wpr.
    apply (wp_mono _ (fun _ r' => quiet r3 r') _ never); [case_if; wpr; [apply quiet_last|done]| |done].
    intros _ r4 H4. wpr. split; [done|]. destruct (fst x) eqn:E; cbn [snd] in Ha; rewrite E in Ha;
      [by etrans|by eapply failed_quiet].
Qed.

(** ** Documents *)

(** The rest of [parse]: a last error makes the answer no. *)
Definition reported (x : bool * Value) (r : OurReader) : Prop :=
  good (snd x) /\ (fst x = true <-> errors_ r = []).

Lemma answered_reported r x r' : errors_ r = [] -> answered r x r' -> reported x r'.
Proof.
  intros E [Hg Ha]. split; [done|]. destruct (fst x).
  - destruct Ha as [_ ->]. by rewrite E.
  - destruct Ha as [_ (es & Hne & ->)]. rewrite E. split; [done|]. by intros ?.
Qed.

Lemma skipBom_spec b r : begin_ r = current_ r ->
  wp (skipBom b) (fun _ r' => current_ r' `suffix_of` current_ r /\ nodes_ r' = nodes_ r
    /\ errors_ r' = errors_ r /\ commentsBefore_ r' = commentsBefore_ r) never r.
Proof. intros E. wpr. case_if; cbn; [|done]. by rewrite E. Qed.

Lemma reported_error D msg t v r : good v ->
  wp (ok ← addError msg t None; mret (ok, v)) reported (too_deep D) r.
Proof.
  intros Hv. unfold addError. wpr. wpr. wpr. wpr. wpr. split; [done|]. cbn. split; [done|]. by destruct (errors_ r).
Qed.

Lemma reported_quiet x r r' : errors_ r' = errors_ r -> reported x r -> reported x r'.
Proof. unfold reported. by intros ->. Qed.

Lemma parse_spec f collect root doc : good root -> 0 <= stackLimit_ f -> zlen doc < 2 ^ 31 - 1 ->
  wp (parse f collect root) reported (too_deep (zlen doc)) (new_reader doc).
Proof.
  intros Hg Hl Hd. unfold parse. wpr. wpr. wpr. wpr. wpr.
  eapply wp_mono; [by apply skipBom_spec| |done]. cbn. intros _ r (Hs & Hn & He & Hc).
  wpr. eapply wp_mono; [apply readValue_spec; [done|]| |done].
  { apply suffix_le in Hs. split; [done|unfold zlen in *; lia|by rewrite Hc|rewrite Hn; lia]. }
  intros [ok v] r1 Ha. assert (slashed (commentsBefore_ r1)) as Hsl.
  { destruct Ha as [_ Ha]. destruct ok; apply Ha; by rewrite Hc. }
  apply (answered_reported _ _ _ He) in Ha. wpr. wpr. wpr.
  eapply wp_mono; [apply skipCommentTokens_spec| |done]. intros t r2 [ok2 Ht].
  pose proof (ta_quiet _ _ _ _ Ht) as Hq.
  apply (reported_quiet _ _ r2) in Ha; [|apply Hq].
  case_if; [apply reported_error, Ha|]. wpr. wpr. wpr.
  apply (wp_mono _ (fun _ r' => quiet r2 r') _ never); [| |done].
  - case_if; [|by wpr]. apply negb_true_iff, bool_decide_eq_false in H0.
    assert (slashed (commentsBefore_ r2)) as Hs2 by (by apply Hq).
    destruct (commentsBefore_ r2) as [|c l]; [done|]. cbn in Hs2. subst c. apply setComment_spec.
  - intros _ r3 H3. apply (reported_quiet _ _ r3) in Ha; [|apply H3].
    case_if; [apply reported_error, Ha|]. by wpr.
Qed.

(** The settings of a fresh builder. *)
Definition default_features : OurFeatures :=
  mkFeatures true true false false false false false false false true 1000.

Lemma default_reader settings : default_settings = Ok settings ->
  newCharReader settings = Ok (true, default_features).
Proof. intros E. injection E as <-. by vm_compute. Qed.

Lemma parseFromStream_spec settings doc : default_settings = Ok settings -> zlen doc < 2 ^ 31 - 1 ->
  (exists ok root errs, parseFromStream settings doc nullValue = Ok (ok, root, errs) /\ good root)
  \/ parseFromStream settings doc nullValue = Throw json_runtime_error
  \/ parseFromStream settings doc nullValue = Throw json_logic_error /\ 2 ^ 31 - 3 <= zlen doc.
Proof.
  intros Hs Hd. unfold parseFromStream. rewrite (default_reader _ Hs). cbn [mbind outcome_bind].
  unfold char_reader_parse. cbn [fst snd].
  destruct (parse _ _ _ _) as [res r] eqn:E.
  destruct (wp_run _ _ _ _ _ _ (parse_spec default_features true nullValue doc ltac:(done) ltac:(done) Hd) E)
    as [([ok v] & -> & Hg & _)|(e & -> & [-> |[-> ?]])]; [left|by right; left|by right; right].
  by do 3 eexists.
Qed.

(** C31: reading a document always comes to an answer.  For every document below [2^31 - 1]
    bytes and every setting with a nesting limit, [parse] returns, or throws [RuntimeError]
    (too deep nesting, or a key of a gigabyte), or, on a document of at least [2^31 - 3]
    bytes, [LogicError] (a string of [2^31 - 5] bytes or more has no room for its length
    prefix): it never loops on and never leaves the document.  When it returns, the answer is yes exactly when no error was
    recorded, and in either case the value is well formed: members strictly ordered by
    key, integers within their types, arrays within [ArrayIndex]. *)
Theorem parse_total f collect doc :
  0 <= stackLimit_ f -> zlen doc < 2 ^ 31 - 1 ->
  wp (parse f collect nullValue)
    (fun x r => (fst x = true <-> errors_ r = []) /\ Writer.fits (snd x) /\ ordered (snd x))
    (fun e _ => e = json_runtime_error \/ e = json_logic_error /\ 2 ^ 31 - 3 <= zlen doc) (new_reader doc).
Proof.
  intros Hl Hd. eapply wp_mono; [by apply parse_spec| |done]. by intros x r [[] ?].
Qed.

Lemma parse_total_witness :
  wp (parse default_features true nullValue)
    (fun x r => (fst x = true <-> errors_ r = []) /\ Writer.fits (snd x) /\ ordered (snd x))
    (fun e _ => e = json_runtime_error \/ e = json_logic_error /\ 2 ^ 31 - 3 <= zlen (bs "[1, {")) (new_reader (bs "[1, {")).
Proof.
  apply (parse_total default_features true (bs "[1, {")).
  - vm_compute. discriminate.
  - reflexivity.
Defined.

End Parsing.
