(* ===== verification/Tokens.v ===== *)
(** * The tokens of printed text

    What the reader makes of the strings and numbers the writers print.  Strings are UTF-8:
    the writer escapes every code point above ASCII and the reader encodes it again.
    Integers are decoded exactly over the range of both 64-bit types. *)
From Stdlib Require Import ZArith Lia.
From Stdlib Require Strings.Byte.
From S2P Require Import Prelude Double Real Json JsonWriter Layout Double JsonReader Parsing.

Module Tokens.
Import Json Layout Reader Parsing.

(** ** Bits *)

Lemma land_disjoint a b k : 0 <= k -> 0 <= b < 2 ^ k -> Z.land (a * 2 ^ k) b = 0.
Proof.
  intros Hk Hb. apply Z.bits_inj_0. intros i. rewrite Z.land_spec, Z.mul_pow2_bits by done.
  destruct (Z.ltb_spec i k); [by rewrite (Z.testbit_neg_r a) by lia|].
  destruct (Z.eq_dec b 0) as [->|]; [by rewrite Z.bits_0, andb_false_r|].
  rewrite (Z.bits_above_log2 b), andb_false_r; [done|lia|]. apply Z.log2_lt_pow2; [lia|].
  pose proof (Z.pow_le_mono_r 2 k i). lia.
Qed.

Lemma lor_add a b k : 0 <= k -> 0 <= b < 2 ^ k -> Z.lor (a * 2 ^ k) b = a * 2 ^ k + b.
Proof.
  intros Hk Hb. pose proof (land_disjoint a b k Hk Hb) as E. rewrite <- Z.lxor_lor, <- Z.add_nocarry_lxor by done.
  done.
Qed.

Lemma land_mod x k : 0 <= k -> Z.land x (Z.ones k) = x mod 2 ^ k.
Proof. apply Z.land_ones. Qed.

(** A byte that was stored is read back. *)
Lemma byte_small z : 0 <= z < 256 -> byte_Z (Z_byte z) = z.
Proof. intros Hz. rewrite byte_Z_Z_byte. by apply Z.mod_small. Qed.

(** The scalar values of Unicode. *)
Definition scalar_value (cp : Z) : Prop := 0 <= cp < 0xD800 \/ 0xE000 <= cp <= 0x10FFFF.

(** *** The encoder in terms of arithmetic *)

Lemma cont_byte x : Z.lor 0x80 (Z.land 0x3f x) = 128 + x mod 64.
Proof.
  rewrite Z.land_comm. change 0x3f with (Z.ones 6). rewrite land_mod by lia. change (2 ^ 6) with 64.
  apply (lor_add 2 _ 6); [lia|]. pose proof (Z.mod_pos_bound x 64). lia.
Qed.

Lemma lead_byte a k x : 0 <= k <= 8 -> 0 <= x < 2 ^ k -> Z.lor (a * 2 ^ k) (Z.land (Z.ones k) x) = a * 2 ^ k + x.
Proof.
  intros Hk Hx. rewrite Z.land_comm, land_mod, Z.mod_small by lia. apply lor_add; lia.
Qed.

Lemma shift_div x k : 0 <= k -> Z.shiftr x k = x / 2 ^ k.
Proof. apply Z.shiftr_div_pow2. Qed.

Ltac bounds :=
  repeat match goal with
  | |- context [?x / ?d] => lazymatch goal with
      | _ : d * (x / d) <= x < d * (x / d) + d |- _ => fail
      | _ => assert (d * (x / d) <= x < d * (x / d) + d) by
               (pose proof (Z.div_mod x d); pose proof (Z.mod_pos_bound x d); lia)
      end
  | |- context [?x mod ?d] => lazymatch goal with
      | _ : 0 <= x mod d < d |- _ => fail
      | _ => pose proof (Z.mod_pos_bound x d ltac:(lia)); pose proof (Z.div_mod x d ltac:(lia))
      end
  end.

Lemma codePointToUTF8_2 cp : 0x80 <= cp <= 0x7FF ->
  codePointToUTF8 cp = [Z_byte (192 + cp / 64); Z_byte (128 + cp mod 64)].
Proof.
  intros H. unfold codePointToUTF8. rewrite cont_byte, shift_div by lia.
  assert (0 <= cp / 64 < 2 ^ 5) as Hl by (split; [apply Z.div_pos|apply Z.div_lt_upper_bound]; lia).
  pose proof (lead_byte 6 5 _ ltac:(lia) Hl) as El. change (Z.lor 0xC0 (Z.land 0x1f (cp / 64)) = 192 + cp / 64) in El.
  repeat (case_if; try lia). change (2 ^ 6) with 64. change (2 ^ 12) with 4096. change (2 ^ 18) with 262144. by rewrite El.
Qed.

Lemma codePointToUTF8_3 cp : 0x800 <= cp <= 0xFFFF ->
  codePointToUTF8 cp = [Z_byte (224 + cp / 4096); Z_byte (128 + cp / 64 mod 64); Z_byte (128 + cp mod 64)].
Proof.
  intros H. unfold codePointToUTF8. rewrite !cont_byte, !shift_div by lia.
  assert (0 <= cp / 4096 < 2 ^ 4) as Hl by (split; [apply Z.div_pos|apply Z.div_lt_upper_bound]; lia).
  pose proof (lead_byte 14 4 _ ltac:(lia) Hl) as El. change (Z.lor 0xE0 (Z.land 0xf (cp / 4096)) = 224 + cp / 4096) in El.
  repeat (case_if; try lia). change (2 ^ 6) with 64. change (2 ^ 12) with 4096. change (2 ^ 18) with 262144. by rewrite El.
Qed.

Lemma codePointToUTF8_4 cp : 0x10000 <= cp <= 0x10FFFF ->
  codePointToUTF8 cp = [Z_byte (240 + cp / 262144); Z_byte (128 + cp / 4096 mod 64);
                        Z_byte (128 + cp / 64 mod 64); Z_byte (128 + cp mod 64)].
Proof.
  intros H. unfold codePointToUTF8. rewrite !cont_byte, !shift_div by lia.
  assert (0 <= cp / 262144 < 2 ^ 3) as Hl by (split; [apply Z.div_pos|apply Z.div_lt_upper_bound]; lia).
  pose proof (lead_byte 30 3 _ ltac:(lia) Hl) as El. change (Z.lor 0xF0 (Z.land 0x7 (cp / 262144)) = 240 + cp / 262144) in El.
  repeat (case_if; try lia). change (2 ^ 6) with 64. change (2 ^ 12) with 4096. change (2 ^ 18) with 262144. by rewrite El.
Qed.

(** *** The decoder of the writer undoes it *)

Lemma lead_bits a k x : 0 <= k -> 0 <= x < 2 ^ k -> Z.land (a * 2 ^ k + x) (Z.ones k) = x.
Proof.
  intros Hk Hx. rewrite land_mod by lia. rewrite Z.add_comm, Z.mod_add by lia. by apply Z.mod_small.
Qed.

Lemma low6_cont x : 0 <= x < 64 -> Z.land (byte_Z (Z_byte (128 + x))) 0x3F = x.
Proof. intros Hx. rewrite byte_small by lia. by apply (lead_bits 2 6). Qed.

Lemma shift_lor a b k : 0 <= k -> 0 <= b < 2 ^ k -> Z.lor (Z.shiftl a k) b = a * 2 ^ k + b.
Proof. intros. rewrite Z.shiftl_mul_pow2 by done. by apply lor_add. Qed.

Lemma mod64 x : 0 <= x mod 64 < 64.
Proof. apply Z.mod_pos_bound. lia. Qed.

Lemma split64 x : x = x / 64 * 64 + x mod 64.
Proof. pose proof (Z.div_mod x 64). lia. Qed.

Lemma utf8_2 cp k : 0x80 <= cp <= 0x7FF -> Writer.utf8ToCodepoint (codePointToUTF8 cp ++ k) = (cp, 1%nat).
Proof.
  intros H. rewrite codePointToUTF8_2 by done. cbn [app]. unfold Writer.utf8ToCodepoint, Writer.low6. cbn [lookup list_lookup].
  assert (0 <= cp / 64 < 2 ^ 5) as Hl by (split; [apply Z.div_pos|apply Z.div_lt_upper_bound]; lia).
  rewrite (byte_small (192 + _)) by lia. rewrite low6_cont by apply mod64.
  pose proof (lead_bits 6 5 _ ltac:(lia) Hl) as El. change (Z.land (192 + cp / 64) 0x1F = cp / 64) in El. rewrite El.
  rewrite shift_lor by (try apply mod64; lia). change (2 ^ 6) with 64. rewrite <- split64, !zlen_cons.
  pose proof (zlen_nonneg k). repeat (case_if; try lia). done.
Qed.

Lemma split4096 x : x = x / 4096 * 4096 + (x / 64 mod 64 * 64 + x mod 64).
Proof.
  rewrite (split64 x) at 1. rewrite (split64 (x / 64)) at 1. rewrite Z.div_div by lia. change (64 * 64) with 4096. lia.
Qed.

Lemma utf8_3 cp k : 0x800 <= cp <= 0xFFFF -> ~ (0xD800 <= cp <= 0xDFFF) ->
  Writer.utf8ToCodepoint (codePointToUTF8 cp ++ k) = (cp, 2%nat).
Proof.
  intros H Hs. rewrite codePointToUTF8_3 by done. cbn [app]. unfold Writer.utf8ToCodepoint, Writer.low6. cbn [lookup list_lookup].
  assert (0 <= cp / 4096 < 2 ^ 4) as Hl by (split; [apply Z.div_pos|apply Z.div_lt_upper_bound]; lia).
  rewrite (byte_small (224 + _)) by lia. rewrite !low6_cont by apply mod64.
  pose proof (lead_bits 14 4 _ ltac:(lia) Hl) as El. change (Z.land (224 + cp / 4096) 0x0F = cp / 4096) in El. rewrite El.
  assert (Z.lor (Z.lor (Z.shiftl (cp / 4096) 12) (Z.shiftl (cp / 64 mod 64) 6)) (cp mod 64) = cp) as ->.
  { pose proof (mod64 cp). pose proof (mod64 (cp / 64)). rewrite <- Z.lor_assoc, (shift_lor _ _ 6) by lia.
    rewrite shift_lor by lia. change (2 ^ 6) with 64. change (2 ^ 12) with 4096. by rewrite <- split4096. }
  rewrite !zlen_cons. pose proof (zlen_nonneg k). repeat (case_if; try lia). done.
Qed.

Lemma split262144 x : x = x / 262144 * 262144 + (x / 4096 mod 64 * 4096 + (x / 64 mod 64 * 64 + x mod 64)).
Proof.
  rewrite (split4096 x) at 1. rewrite (split64 (x / 4096)) at 1. rewrite Z.div_div by lia.
  change (4096 * 64) with 262144. lia.
Qed.

Lemma utf8_4 cp k : 0x10000 <= cp <= 0x10FFFF ->
  Writer.utf8ToCodepoint (codePointToUTF8 cp ++ k) = (cp, 3%nat).
Proof.
  intros H. rewrite codePointToUTF8_4 by done. cbn [app]. unfold Writer.utf8ToCodepoint, Writer.low6. cbn [lookup list_lookup].
  assert (0 <= cp / 262144 < 2 ^ 3) as Hl by (split; [apply Z.div_pos|apply Z.div_lt_upper_bound]; lia).
  rewrite (byte_small (240 + _)) by lia. rewrite !low6_cont by apply mod64.
  pose proof (lead_bits 30 3 _ ltac:(lia) Hl) as El. change (Z.land (240 + cp / 262144) 0x07 = cp / 262144) in El. rewrite El.
  assert (Z.lor (Z.lor (Z.lor (Z.shiftl (cp / 262144) 18) (Z.shiftl (cp / 4096 mod 64) 12))
    (Z.shiftl (cp / 64 mod 64) 6)) (cp mod 64) = cp) as ->.
  { pose proof (mod64 cp). pose proof (mod64 (cp / 64)). pose proof (mod64 (cp / 4096)).
    rewrite <- Z.lor_assoc, (shift_lor _ _ 6), <- Z.lor_assoc, (shift_lor _ _ 12), shift_lor by lia.
    change (2 ^ 6) with 64. change (2 ^ 12) with 4096. change (2 ^ 18) with 262144. by rewrite <- split262144. }
  rewrite !zlen_cons. pose proof (zlen_nonneg k). repeat (case_if; try lia). done.
Qed.

Lemma utf8_1 cp k : 0 <= cp < 0x80 -> Writer.utf8ToCodepoint (codePointToUTF8 cp ++ k) = (cp, 0%nat).
Proof.
  intros H. unfold codePointToUTF8. case_if; [|lia]. cbn [app]. unfold Writer.utf8ToCodepoint.
  rewrite byte_small by lia. case_if; [done|lia].
Qed.

(** *** Hexadecimal escapes *)

Lemma hex_digit_char n : 0 <= n < 16 -> hex_digit (Writer.hex_char n) = Some n.
Proof.
  intros Hn. unfold hex_digit, Writer.hex_char. destruct (Z.ltb_spec n 10); rewrite byte_small by lia.
  - rewrite !(proj2 (Z.leb_le _ _)) by lia. cbn [andb]. f_equal. lia.
  - rewrite (proj2 (Z.leb_gt _ 57)), andb_false_r by lia. rewrite !(proj2 (Z.leb_le _ _)) by lia. cbn [andb].
    f_equal. lia.
Qed.

Lemma hex_roundtrip x cur : 0 <= x < 65536 -> hex_loop 4 0 (Writer.toHex16Bit x ++ cur) = (Some x, cur).
Proof.
  intros Hx. unfold Writer.toHex16Bit. change 0xff with (Z.ones 8). rewrite !land_mod, shift_div by lia.
  change (2 ^ 8) with 256. assert (0 <= x / 256 < 256) as Hh by (split; [apply Z.div_pos|apply Z.div_lt_upper_bound]; lia).
  rewrite (Z.mod_small (x / 256)) by lia.
  assert (forall y, 0 <= y < 256 -> 0 <= y / 16 < 16 /\ 0 <= y mod 16 < 16) as Hn.
  { intros y Hy. split; [split; [apply Z.div_pos|apply Z.div_lt_upper_bound]; lia|apply Z.mod_pos_bound; lia]. }
  pose proof (Hn _ Hh). pose proof (Hn _ (Z.mod_pos_bound x 256 ltac:(lia))).
  cbn [app hex_loop]. rewrite !hex_digit_char by lia. do 2 f_equal.
  pose proof (Z.div_mod x 256). pose proof (Z.div_mod (x / 256) 16). pose proof (Z.div_mod (x mod 256) 16). lia.
Qed.

Lemma escape_sequence_run t fin x cur r : 0 <= x < 65536 ->
  decodeUnicodeEscapeSequence t fin (Writer.toHex16Bit x ++ cur) r = (Ok (Some x, cur), r).
Proof.
  intros Hx. unfold decodeUnicodeEscapeSequence. rewrite zlen_app. change (zlen (Writer.toHex16Bit x)) with 4.
  pose proof (zlen_nonneg cur). case_if; [lia|]. by rewrite hex_roundtrip.
Qed.

Lemma code_point_run t fin x cur r : 0 <= x < 65536 -> ~ (0xD800 <= x <= 0xDBFF) ->
  decodeUnicodeCodePoint t fin (Writer.toHex16Bit x ++ cur) r = (Ok (Some x, cur), r).
Proof.
  intros Hx Hs. unfold decodeUnicodeCodePoint. erewrite bind_run by (by apply escape_sequence_run).
  cbv beta iota. destruct (Z.leb_spec 0xD800 x), (Z.leb_spec x 0xDBFF); cbn [andb]; first [lia|reflexivity].
Qed.

(** The two halves of a code point above the basic plane. *)
Definition high_half (cp : Z) : Z := 0xd800 + Z.land (Z.shiftr (cp - 0x10000) 10) 0x3ff.
Definition low_half (cp : Z) : Z := 0xdc00 + Z.land (cp - 0x10000) 0x3ff.

Lemma halves cp : 0x10000 <= cp <= 0x10FFFF ->
  0xD800 <= high_half cp <= 0xDBFF /\ 0xDC00 <= low_half cp <= 0xDFFF
  /\ 0x10000 + Z.shiftl (Z.land (high_half cp) 0x3FF) 10 + Z.land (low_half cp) 0x3FF = cp.
Proof.
  intros H. unfold high_half, low_half. change 0x3ff with (Z.ones 10). rewrite shift_div, !land_mod by lia.
  rewrite Z.shiftl_mul_pow2 by lia. change (2 ^ 10) with 1024.
  assert (0 <= (cp - 0x10000) / 1024 < 1024) as Hd by (split; [apply Z.div_pos|apply Z.div_lt_upper_bound]; lia).
  rewrite (Z.mod_small ((cp - 0x10000) / 1024)) by lia. pose proof (Z.mod_pos_bound (cp - 0x10000) 1024 ltac:(lia)).
  split_and!; [lia..|].
  replace (0xd800 + (cp - 0x10000) / 1024) with ((cp - 0x10000) / 1024 + 54 * 1024) by lia.
  replace (0xdc00 + (cp - 0x10000) mod 1024) with ((cp - 0x10000) mod 1024 + 55 * 1024) by lia.
  rewrite !Z.mod_add, Z.mod_mod, Z.mod_small by lia. pose proof (Z.div_mod (cp - 0x10000) 1024). lia.
Qed.

Lemma surrogates_run t fin cp cur r : 0x10000 <= cp <= 0x10FFFF ->
  decodeUnicodeCodePoint t fin (Writer.toHex16Bit (high_half cp) ++ Writer.appendHex (low_half cp) ++ cur) r
  = (Ok (Some cp, cur), r).
Proof.
  intros H. destruct (halves cp H) as (Hh & Hl & E). unfold decodeUnicodeCodePoint.
  erewrite bind_run by (apply escape_sequence_run; lia). cbv beta iota.
  rewrite (proj2 (Z.leb_le _ _)), (proj2 (Z.leb_le _ _)) by lia. cbn [andb].
  unfold Writer.appendHex. rewrite !zlen_app, !zlen_cons. pose proof (zlen_nonneg cur).
  change (zlen (Writer.toHex16Bit (low_half cp))) with 4.
  destruct (Z.ltb_spec (1 + (1 + 4) + zlen cur) 6); [lia|].
  cbn [app]. change (escape_follows (Byte.x5c :: Byte.x75 :: ?l)) with (true, l).
  cbv iota beta. erewrite bind_run by (apply escape_sequence_run; lia). cbv beta iota.
  rewrite E, u32_small by word. done.
Qed.

(** ** Strings *)

(** The UTF-8 text of a sequence of code points. *)
Definition encode (cps : list Z) : list byte := concat (map codePointToUTF8 cps).

(** What the writer prints for one code point. *)
Definition escaped (cp : Z) : list byte :=
  match codePointToUTF8 cp with
  | [] => []
  | b :: l => (Writer.escape_one false (b :: l) b).1
  end.

Lemma utf8_any cp k : scalar_value cp -> exists b l,
  codePointToUTF8 cp = b :: l /\ Writer.utf8ToCodepoint (b :: l ++ k) = (cp, length l)
  /\ (cp < 0x80 -> b = Z_byte cp /\ l = []) /\ (0x80 <= cp -> 0x80 <= byte_Z b).
Proof.
  intros H. assert (0 <= cp <= 0x10FFFF) as Hr by (destruct H; lia).
  assert (cp < 0x80 \/ 0x80 <= cp <= 0x7FF \/ 0x800 <= cp <= 0xFFFF \/ 0x10000 <= cp <= 0x10FFFF) as [H1|[H1|[H1|H1]]] by lia.
  - pose proof (utf8_1 cp k ltac:(lia)) as E. unfold codePointToUTF8 in *. case_if; [|lia]. do 2 eexists. split_and!; [done..|lia].
  - pose proof (utf8_2 cp k H1) as E. rewrite codePointToUTF8_2 in * by done. do 2 eexists. split_and!; [done..|lia|].
    intros _. assert (0 <= cp / 64 < 32) by (split; [apply Z.div_pos|apply Z.div_lt_upper_bound]; lia).
    rewrite byte_small; lia.
  - pose proof (utf8_3 cp k H1 ltac:(destruct H; lia)) as E. rewrite codePointToUTF8_3 in * by done. do 2 eexists. split_and!; [done..|lia|].
    intros _. assert (0 <= cp / 4096 < 16) by (split; [apply Z.div_pos|apply Z.div_lt_upper_bound]; lia).
    rewrite byte_small; lia.
  - pose proof (utf8_4 cp k H1) as E. rewrite codePointToUTF8_4 in * by done. do 2 eexists. split_and!; [done..|lia|].
    intros _. assert (0 <= cp / 262144 < 8) by (split; [apply Z.div_pos|apply Z.div_lt_upper_bound]; lia).
    rewrite byte_small; lia.
Qed.

(** The switch of the writer on a code point that is no special character. *)
Lemma escape_one_plain cp k b l : codePointToUTF8 cp = b :: l ->
  Writer.utf8ToCodepoint (b :: l ++ k) = (cp, length l) ->
  (byte_Z b <> 0x22 /\ byte_Z b <> 0x5c /\ byte_Z b <> 8 /\ byte_Z b <> 12 /\ byte_Z b <> 10
   /\ byte_Z b <> 13 /\ byte_Z b <> 9) ->
  Writer.escape_one false (b :: l ++ k) b
  = (if cp <? 0x20 then Writer.appendHex cp
     else if cp <? 0x80 then [Z_byte cp]
     else if cp <? 0x10000 then Writer.appendHex cp
     else Writer.appendHex (high_half cp) ++ Writer.appendHex (low_half cp), length l).
Proof.
  intros E Eu (H1 & H2 & H3 & H4 & H5 & H6 & H7). unfold Writer.escape_one.
  rewrite !(proj2 (Z.eqb_neq _ _)) by done. rewrite Eu. repeat case_if; done.
Qed.

(** The special characters of the switch. *)
Definition special (cp : Z) : Prop :=
  cp = 0x22 \/ cp = 0x5c \/ cp = 8 \/ cp = 12 \/ cp = 10 \/ cp = 13 \/ cp = 9.

Lemma special_dec cp : special cp \/ ~ special cp.
Proof. unfold special. lia. Qed.

Lemma not_special cp b l : scalar_value cp -> codePointToUTF8 cp = b :: l -> ~ special cp ->
  byte_Z b <> 0x22 /\ byte_Z b <> 0x5c /\ byte_Z b <> 8 /\ byte_Z b <> 12 /\ byte_Z b <> 10
  /\ byte_Z b <> 13 /\ byte_Z b <> 9.
Proof.
  intros Hs E Hn. destruct (utf8_any cp [] Hs) as (b' & l' & E' & _ & Hlo & Hhi). rewrite E in E'. injection E' as <- <-.
  destruct (Z.lt_ge_cases cp 0x80) as [H|H].
  - destruct (Hlo H) as [-> _]. rewrite byte_small by (destruct Hs; lia). unfold special in Hn. lia.
  - specialize (Hhi H). lia.
Qed.

(** One code point is printed the same way whatever follows it. *)
Lemma escape_one_any cp k b l : scalar_value cp -> codePointToUTF8 cp = b :: l ->
  Writer.escape_one false (b :: l ++ k) b = (escaped cp, length l).
Proof.
  intros Hs E. unfold escaped. rewrite E. destruct (special_dec cp) as [Hp|Hp].
  - unfold special in Hp. repeat (destruct Hp as [->|Hp]; [injection E as <- <-; reflexivity|]).
    subst cp. injection E as <- <-. reflexivity.
  - destruct (utf8_any cp k Hs) as (b1 & l1 & E1 & Eu & _). rewrite E in E1. injection E1 as <- <-.
    destruct (utf8_any cp [] Hs) as (b2 & l2 & E2 & Eu2 & _). rewrite E in E2. injection E2 as <- <-.
    pose proof (not_special cp b l Hs E Hp) as Hb.
    rewrite (escape_one_plain cp k) by done.
    pose proof (escape_one_plain cp [] b l E Eu2 Hb) as E3. rewrite app_nil_r in E3. by rewrite E3.
Qed.

Lemma escape_loop_encode cps : Forall scalar_value cps -> forall fuel, (length (encode cps) <= fuel)%nat ->
  Writer.escape_loop fuel false (encode cps) = concat (map escaped cps).
Proof.
  induction 1 as [|cp cps Hc Hs IH]; intros fuel Hf; [by destruct fuel|].
  unfold encode in *. cbn [map concat] in *. destruct (utf8_any cp [] Hc) as (b & l & E & _). rewrite E in *.
  cbn in Hf. rewrite length_app in Hf. destruct fuel as [|fuel]; [lia|]. cbn [Writer.escape_loop app].
  rewrite (escape_one_any cp (concat (map codePointToUTF8 cps)) b l Hc E).
  rewrite drop_app_length. f_equal. apply IH. lia.
Qed.

(** The round of the reader for an escaped code point. *)
Lemma decode_u t fin fuel out cur cp cur' r :
  decodeUnicodeCodePoint t fin cur r = (Ok (Some cp, cur'), r) ->
  decode_loop (S fuel) t fin out (Byte.x5c :: Byte.x75 :: cur) r
  = decode_loop fuel t fin (out ++ codePointToUTF8 cp) cur' r.
Proof.
  intros E. transitivity ((x ← decodeUnicodeCodePoint t fin cur;
    let '(u, c) := x in match u with
    | Some unicode => decode_loop fuel t fin (out ++ codePointToUTF8 unicode) c
    | None => mret None
    end) r); [reflexivity|]. by erewrite bind_run by exact E.
Qed.

(** The reader takes one round for it and appends its encoding. *)
Lemma decode_escaped t fin cp fuel out cur r : scalar_value cp ->
  decode_loop (S fuel) t fin out (escaped cp ++ cur) r
  = decode_loop fuel t fin (out ++ codePointToUTF8 cp) cur r.
Proof.
  intros Hs. destruct (special_dec cp) as [Hp|Hp].
  { unfold special in Hp. repeat (destruct Hp as [->|Hp]; [reflexivity|]). subst cp. reflexivity. }
  destruct (utf8_any cp [] Hs) as (b & l & E & Eu & Hlo & _).
  pose proof (not_special cp b l Hs E Hp) as Hb.
  pose proof (escape_one_plain cp [] b l E Eu Hb) as Ep. rewrite app_nil_r in Ep.
  unfold escaped. rewrite E at 1. rewrite Ep. cbn [fst].
  assert (0 <= cp <= 0x10FFFF) as H0 by (destruct Hs; lia).
  destruct (Z.ltb_spec cp 0x20); [|destruct (Z.ltb_spec cp 0x80); [|destruct (Z.ltb_spec cp 0x10000)]].
  - apply decode_u. apply code_point_run; lia.
  - destruct (Hlo ltac:(lia)) as [-> ->]. rewrite E. cbn [app decode_loop]. unfold eqc.
    rewrite !bool_decide_eq_false_2; [done|..]; intros Eb; apply (f_equal byte_Z) in Eb;
      rewrite byte_small in Eb by lia; unfold special in Hp; change (byte_Z Byte.x22) with 0x22 in Eb;
      change (byte_Z Byte.x5c) with 0x5c in Eb; lia.
  - apply decode_u. apply code_point_run; [lia|]. destruct Hs; lia.
  - unfold Writer.appendHex at 1. cbn [app]. rewrite <- app_assoc. apply decode_u. apply surrogates_run. lia.
Qed.

Lemma decode_encoded t fin cps : Forall scalar_value cps -> forall fuel out r,
  (length cps < fuel)%nat ->
  decode_loop fuel t fin out (concat (map escaped cps)) r = (Ok (Some (out ++ encode cps)), r).
Proof.
  induction 1 as [|cp cps Hc Hs IH]; intros fuel out r Hf; (destruct fuel as [|fuel]; [lia|]).
  - cbn [map concat decode_loop]. unfold encode. cbn. by rewrite app_nil_r.
  - cbn [map concat length] in *. rewrite decode_escaped by done. rewrite IH by lia.
    unfold encode. cbn [map concat]. by rewrite app_assoc.
Qed.

Definition utf8 (s : list byte) : Prop := exists cps, Forall scalar_value cps /\ s = encode cps.

(** Text the writer leaves alone is plain ASCII, which escapes to itself. *)
Lemma plain_escaped cps : Forall scalar_value cps ->
  Writer.doesAnyCharRequireEscaping (encode cps) = false -> concat (map escaped cps) = encode cps.
Proof.
  unfold encode. induction 1 as [|cp cps Hc Hs IH]; [done|]. cbn [map concat]. intros E.
  unfold Writer.doesAnyCharRequireEscaping in *. rewrite existsb_app in E. apply orb_false_iff in E as [E1 E2].
  rewrite IH by done. f_equal.
  destruct (utf8_any cp [] Hc) as (b & l & Eb & Eu & Hlo & Hhi). rewrite Eb in *. cbn in E1.
  apply orb_false_iff in E1 as [E1 _]. rewrite !orb_false_iff in E1. destruct E1 as [[[H1 H2] H3] H4]. zbool.
  destruct (Z.lt_ge_cases cp 0x80) as [H|H]; [|specialize (Hhi H); lia].
  destruct (Hlo H) as [-> ->]. assert (0 <= cp) by (destruct Hc; lia). rewrite byte_small in * by lia.
  unfold escaped. rewrite Eb. pose proof (escape_one_plain cp [] _ [] Eb Eu) as Ep. cbn [app] in Ep. rewrite Ep.
  - cbn [fst]. repeat (case_if; try lia). done.
  - rewrite byte_small by lia. lia.
Qed.

Lemma quoted_encode cps : Forall scalar_value cps ->
  Writer.valueToQuotedStringN (encode cps) false = [Byte.x22] ++ concat (map escaped cps) ++ [Byte.x22].
Proof.
  intros Hs. unfold Writer.valueToQuotedStringN. destruct (Writer.doesAnyCharRequireEscaping _) eqn:E; cbn [negb].
  - by rewrite escape_loop_encode.
  - by rewrite plain_escaped.
Qed.

Lemma escaped_nonempty cp : scalar_value cp -> escaped cp <> [].
Proof.
  intros Hs. destruct (special_dec cp) as [Hp|Hp].
  { unfold special in Hp. repeat (destruct Hp as [->|Hp]; [done|]). by subst cp. }
  destruct (utf8_any cp [] Hs) as (b & l & E & Eu & _).
  pose proof (escape_one_plain cp [] b l E Eu (not_special cp b l Hs E Hp)) as Ep. rewrite app_nil_r in Ep.
  unfold escaped. rewrite E, Ep. cbn [fst]. by repeat case_if.
Qed.

Lemma escaped_length cps : Forall scalar_value cps -> (length cps <= length (concat (map escaped cps)))%nat.
Proof.
  induction 1 as [|cp cps Hc Hs IH]; [done|]. cbn. rewrite length_app.
  pose proof (escaped_nonempty cp Hc). destruct (escaped cp); [done|]. cbn. lia.
Qed.

(** *** Tokens *)

Lemma between_app (t rest : list byte) : between (t ++ rest) rest = t.
Proof. unfold between. rewrite length_app. apply take_app_length'. lia. Qed.

Lemma set_current_same r : set_current r (current_ r) = r.
Proof. by destruct r. Qed.

Definition is_space (c : byte) : bool :=
  eqc c Byte.x20 || eqc c Byte.x09 || eqc c Byte.x0d || eqc c Byte.x0a.

Lemma readToken_run f collect r c l ty l' : current_ r = c :: l -> is_space c = false ->
  token_of f collect c (c :: l) (set_current r l) = (Ok (ty, true), set_current r l') ->
  readToken f collect r = (Ok (true, mkToken ty (c :: l) l'), set_current r l').
Proof.
  intros E Hs Ht. unfold readToken.
  assert (skipSpaces r = (Ok tt, r)) as E1.
  { unfold skipSpaces, modify. rewrite E. cbn [spaces_loop]. unfold is_space in Hs. rewrite Hs, <- E. by rewrite set_current_same. }
  erewrite bind_run by exact E1. rewrite bind_gets, E.
  assert (getNextChar r = (Ok c, set_current r l)) as E2 by (unfold getNextChar; rewrite bind_get, E; reflexivity).
  erewrite bind_run by exact E2. erewrite bind_run by exact Ht. reflexivity.
Qed.

Lemma string_loop_scan l : forall c k, Writer.scan l = Some k -> string_loop Byte.x22 c l = (Byte.x22, k).
Proof.
  induction l as [l IH] using (induction_ltof1 _ length). unfold ltof in IH. intros c k.
  destruct l as [|b l]; [done|]. cbn [Writer.scan string_loop].
  assert (forall x, eqc b x = (byte_Z b =? byte_Z x)) as Hq.
  { intros x. unfold eqc. destruct (Z.eqb_spec (byte_Z b) (byte_Z x)) as [E|E].
    - apply byte_Z_inj in E as ->. by rewrite bool_decide_eq_true_2.
    - rewrite bool_decide_eq_false_2; [done|]. by intros ->. }
  rewrite !Hq. change (byte_Z Byte.x22) with 0x22. change (byte_Z Byte.x5c) with 0x5c.
  destruct (Z.eqb_spec (byte_Z b) 0x22) as [E|E].
  - rewrite E. cbn. intros [= <-]. f_equal. by apply byte_Z_inj.
  - destruct (byte_Z b =? 0x5c); [destruct l as [|d l]; [done|]|]; intros Hk; apply IH; try done; cbn; lia.
Qed.

Lemma quoted_token f collect cps r rest : Forall scalar_value cps ->
  let q := Writer.valueToQuotedStringN (encode cps) false in
  current_ r = q ++ rest ->
  readToken f collect r = (Ok (true, mkToken tokenString (q ++ rest) rest), set_current r rest).
Proof.
  intros Hs q E. unfold q in *. rewrite quoted_encode in * by done. set (body := concat (map escaped cps)) in *.
  assert (Writer.scan (body ++ Byte.x22 :: rest) = Some rest) as Hsc.
  { unfold body. rewrite <- (escape_loop_encode cps Hs (length (encode cps))) by done.
    rewrite (proj2 (Writer.inert_escape_loop _ _)). reflexivity. }
  cbn [app] in *. rewrite <- app_assoc in *. cbn [app] in *. apply readToken_run; [done|reflexivity|].
  change (token_of f collect Byte.x22 ?l) with (ok ← readString; mret (tokenString, ok)).
  unfold readString, readQuoted.
  rewrite bind_assoc, bind_get. cbn [current_ set_current]. by rewrite (string_loop_scan _ _ _ Hsc).
Qed.

Lemma decodeString_quoted cps rest ty r : Forall scalar_value cps ->
  let q := Writer.valueToQuotedStringN (encode cps) false in
  decodeString (mkToken ty (q ++ rest) rest) r = (Ok (Some (encode cps)), r).
Proof.
  intros Hs q. unfold decodeString, text_between. cbn [start_ end_]. rewrite between_app. unfold q.
  rewrite quoted_encode by done. set (body := concat (map escaped cps)).
  assert (take (length ([Byte.x22] ++ body ++ [Byte.x22]) - 2) (drop 1 ([Byte.x22] ++ body ++ [Byte.x22])) = body) as ->.
  { cbn [app drop length]. rewrite length_app. cbn [length]. apply take_app_length'. lia. }
  unfold body. rewrite decode_encoded; [done|done|]. pose proof (escaped_length cps Hs). lia.
Qed.

(** ** Numbers *)

(** What can follow a value in printed text. *)
Definition stops (rest : list byte) : Prop :=
  match rest with [] => True | c :: _ => c = Byte.x2c \/ c = Byte.x5d \/ c = Byte.x7d \/ is_white c = true end.

Lemma is_digit_bool b : Writer.is_digit b <-> Double.is_digit b = true.
Proof. unfold Writer.is_digit, Double.is_digit. rewrite andb_true_iff, !Z.leb_le. done. Qed.

(** The loop over the digits stops at any other character. *)
Lemma digits_loop_stop d rest : Forall (fun b => Double.is_digit b = true) d ->
  (match rest with c :: _ => Double.is_digit c = false | [] => True end) -> digits_loop (d ++ rest) = rest.
Proof.
  intros Hd Hr. induction Hd as [|b d Hb Hd IH]; cbn [app digits_loop]; [|by rewrite Hb].
  destruct rest as [|c rest]; [done|]. cbn. by rewrite Hr.
Qed.

Lemma stops_digit c rest : stops (c :: rest) -> Double.is_digit c = false.
Proof. intros [->|[->|[->|Hw]]]; [done..|]. by destruct c. Qed.

Lemma digits_bool d : Forall Writer.is_digit d <-> Forall (fun b => Double.is_digit b = true) d.
Proof. split; intros H; eapply Forall_impl; try exact H; intros b; apply is_digit_bool. Qed.

Lemma number_end_digits d rest : Forall Writer.is_digit d -> stops rest -> number_end (d ++ rest) = rest.
Proof.
  intros Hd%digits_bool Hr. unfold number_end. rewrite digits_loop_stop; [|done|destruct rest; [done|by eapply stops_digit]].
  destruct rest as [|c rest]; [done|]. destruct Hr as [->|[->|[->|Hw]]]; [done..|]. by destruct c.
Qed.

Lemma digit_cases c : Double.is_digit c = true ->
  c ∈ [Byte.x30; Byte.x31; Byte.x32; Byte.x33; Byte.x34; Byte.x35; Byte.x36; Byte.x37; Byte.x38; Byte.x39].
Proof. destruct c; intros H; try (vm_compute in H; discriminate); set_solver. Qed.

(** A digit starts a number. *)
Lemma token_of_digit f collect c l : Double.is_digit c = true ->
  is_space c = false
  /\ token_of f collect c l = (_ ← readNumber false; mret (tokenNumber, true)) /\ eqc c Byte.x49 = false
  /\ eqc c Byte.x2d = false.
Proof. intros H%digit_cases. repeat (apply elem_of_cons in H as [->|H]; [done|]). by apply elem_of_nil in H. Qed.

(** A number is one token, up to where its digits, its fraction and its exponent end. *)
Lemma number_token_to f collect r neg b d rest : Double.is_digit b = true -> number_end (d ++ rest) = rest ->
  let t := (if neg : bool then [Byte.x2d] else []) ++ b :: d in
  current_ r = t ++ rest ->
  readToken f collect r = (Ok (true, mkToken tokenNumber (t ++ rest) rest), set_current r rest).
Proof.
  intros Hb He t E. destruct (token_of_digit f collect b (b :: d ++ rest) Hb) as (Hsp & Ht & HI & _). unfold t in *. destruct neg; cbn [app] in *.
  - apply readToken_run; [done|done|].
    change (token_of f collect Byte.x2d ?l) with (ok ← readNumber true;
      if (ok : bool) then mret (tokenNumber, true)
      else ok ← (if allowSpecialFloats_ f then match_ (bs "nfinity") else mret false);
           mret (tokenNegInf, ok)).
    assert (readNumber true (set_current r (b :: d ++ rest)) = (Ok true, set_current r rest)) as En.
    { unfold readNumber. rewrite bind_get. cbn [current_ set_current accept]. rewrite HI.
      assert (number_end (b :: d ++ rest) = number_end (d ++ rest)) as -> by (unfold number_end; cbn [digits_loop]; by rewrite Hb). by rewrite He. }
    erewrite bind_run by exact En. reflexivity.
  - apply readToken_run; [done|done|]. rewrite Ht.
    assert (readNumber false (set_current r (d ++ rest)) = (Ok true, set_current r rest)) as En.
    { unfold readNumber. rewrite bind_get. cbn [current_ set_current]. by rewrite He. }
    erewrite bind_run by exact En. reflexivity.
Qed.

Lemma number_token f collect r neg d rest : Forall Writer.is_digit d -> d <> [] -> stops rest ->
  let t := if neg : bool then Byte.x2d :: d else d in
  current_ r = t ++ rest ->
  readToken f collect r = (Ok (true, mkToken tokenNumber (t ++ rest) rest), set_current r rest).
Proof.
  intros Hd Hne Hr t E. destruct d as [|b d]; [done|].
  assert (t = (if neg then [Byte.x2d] else []) ++ b :: d) as Et by (unfold t; by destruct neg). rewrite Et in *.
  apply (number_token_to f collect r neg b d rest); [by apply is_digit_bool, (Forall_inv Hd)| |done].
  apply number_end_digits; [by apply Forall_inv_tail in Hd|done].
Qed.

(** The digits read so far never exceed the number. *)
Lemma of_dec_from v d : foldl (fun a b => 10 * a + (byte_Z b - 48)) v d = v * 10 ^ zlen d + Writer.of_dec d.
Proof.
  revert v. induction d as [|b d IH] using rev_ind; intros v; [unfold Writer.of_dec, zlen; cbn; lia|].
  rewrite foldl_app. cbn [foldl]. rewrite IH, Writer.of_dec_snoc, zlen_app. change (zlen [b]) with 1.
  rewrite Z.pow_add_r by (try apply zlen_nonneg; lia). lia.
Qed.

Lemma of_dec_cons b d : Writer.of_dec (b :: d) = (byte_Z b - 48) * 10 ^ zlen d + Writer.of_dec d.
Proof. unfold Writer.of_dec at 1. cbn [foldl]. rewrite of_dec_from. f_equal. Qed.

Lemma of_dec_nonneg d : Forall Writer.is_digit d -> 0 <= Writer.of_dec d.
Proof.
  induction 1 as [|b d Hb Hd IH]; [done|]. rewrite of_dec_cons. unfold Writer.is_digit in Hb.
  pose proof (Z.pow_pos_nonneg 10 (zlen d) ltac:(lia) (zlen_nonneg d)). nia.
Qed.

Lemma number_loop_exact th m d : 1 <= th -> 0 <= m <= 9 -> th * 10 + m < 2 ^ 64 -> Forall Writer.is_digit d ->
  forall value, 0 <= value -> value * 10 ^ zlen d + Writer.of_dec d <= th * 10 + m ->
  number_loop th m value d = Some (value * 10 ^ zlen d + Writer.of_dec d).
Proof.
  intros Hth Hm Hb. induction 1 as [|b d Hb' Hd IH]; intros value Hv Hl.
  { cbn. f_equal. unfold zlen, Writer.of_dec. cbn. lia. }
  cbn [number_loop]. rewrite (proj1 (is_digit_bool b) Hb'). cbn [negb]. unfold Double.digit_val.
  rewrite of_dec_cons, zlen_cons, Z.pow_add_r in Hl |- * by (try apply zlen_nonneg; lia).
  change (10 ^ 1) with 10 in *. unfold Writer.is_digit in Hb'. pose proof (of_dec_nonneg d Hd) as H0.
  assert (1 <= 10 ^ zlen d /\ (d <> [] -> 10 <= 10 ^ zlen d)) as [H1 H10].
  { pose proof (zlen_nonneg d). split; [pose proof (Z.pow_pos_nonneg 10 (zlen d)); lia|]. intros Hd0.
    change 10 with (10 ^ 1) at 1. apply Z.pow_le_mono_r; [lia|]. destruct d; [done|]. rewrite zlen_cons.
    pose proof (zlen_nonneg d). lia. }
  assert (value * 10 + (byte_Z b - 48) <= th * 10 + m) as Hs by nia.
  destruct ((th <=? value) && _) eqn:Et.
  { exfalso. apply andb_true_iff in Et as [Et1 Et2]. zbool. rewrite !orb_true_iff in Et2.
    destruct Et2 as [[Et2|Et2]|Et2]; zbool; [lia| |nia]. apply negb_true_iff, bool_decide_eq_false in Et2.
    specialize (H10 Et2). nia. }
  rewrite u64_small by word. rewrite IH by nia. f_equal. lia.
Qed.

(** And the loop gives up exactly beyond the limit. *)
Lemma number_loop_value th m d n : 1 <= th -> 0 <= m <= 9 -> th * 10 + m < 2 ^ 64 -> Forall Writer.is_digit d ->
  forall value, 0 <= value <= th * 10 + m -> number_loop th m value d = Some n ->
  n = value * 10 ^ zlen d + Writer.of_dec d.
Proof.
  intros Hth Hm Hb. induction 1 as [|b d Hb' Hd IH]; intros value Hv; cbn [number_loop].
  { intros [= <-]. unfold zlen, Writer.of_dec. cbn. lia. }
  rewrite (proj1 (is_digit_bool b) Hb'). cbn [negb]. unfold Double.digit_val. unfold Writer.is_digit in Hb'.
  destruct ((th <=? value) && _) eqn:Et; [done|]. apply andb_false_iff in Et.
  assert (value * 10 + (byte_Z b - 48) <= th * 10 + m) as Hn.
  { destruct Et as [Et|Et]; [zbool; lia|]. repeat (apply orb_false_iff in Et as [Et ?]). zbool. lia. }
  rewrite (u64_small (_ + _)) by word. intros E. apply IH in E; [|lia].
  rewrite of_dec_cons, zlen_cons, Z.pow_add_r by (try apply zlen_nonneg; lia). change (10 ^ 1) with 10. lia.
Qed.

Lemma number_loop_spec th m d : 1 <= th -> 0 <= m <= 9 -> th * 10 + m < 2 ^ 64 -> Forall Writer.is_digit d ->
  number_loop th m 0 d = if Writer.of_dec d <=? th * 10 + m then Some (Writer.of_dec d) else None.
Proof.
  intros Hth Hm Hb Hd. destruct (Z.leb_spec (Writer.of_dec d) (th * 10 + m)) as [H|H].
  - rewrite number_loop_exact by (done || lia). done.
  - destruct (number_loop th m 0 d) as [n|] eqn:E; [|done].
    pose proof (number_loop_range th m d ltac:(lia) Hm Hb 0 n ltac:(lia) E).
    apply number_loop_value in E; [lia|done|lia|done..|lia].
Qed.

Definition normal_number (v : Value) : Value :=
  match v with
  | uintValue n => if n <=? Writer.maxLargestInt then intValue n else uintValue n
  | _ => v
  end.

Lemma decode_int n rest r : in_i64 n -> exists t, Writer.valueToString_int n = Ok t
  /\ decodeNumber (mkToken tokenNumber (t ++ rest) rest) r = (Ok (Some (intValue n)), r).
Proof.
  intros Hn. destruct (Writer.valueToString_int_ok n Hn) as (d & E & Ed & Hd & Hne). rewrite E.
  eexists; split; [done|]. unfold decodeNumber, text_between. cbn [start_ end_]. rewrite between_app.
  destruct (Z.ltb_spec n 0).
  - change (eqc Byte.x2d Byte.x2d) with true. cbv iota. cbn [drop].
    rewrite (number_loop_exact negative_threshold negative_last_digit d); [|done..|].
    + rewrite Z.mul_0_l, Z.add_0_l, Ed. rewrite Z.abs_neq by lia.
      pose proof (Z.div_mod (- n) 10 ltac:(lia)). pose proof (Z.mod_pos_bound (- n) 10 ltac:(lia)).
      rewrite (i64_small (- n / 10)) by word. rewrite i64_small by word.
      by replace (- (- n / 10) * 10 - - n mod 10) with n by lia.
    + rewrite Ed. change (negative_threshold * 10 + negative_last_digit) with (2 ^ 63). word.
  - destruct d as [|b d]; [done|]. pose proof (Forall_inv Hd) as Hb. apply is_digit_bool in Hb.
    destruct (token_of_digit default_features true b [] Hb) as (_ & _ & _ & Hm). rewrite Hm.
    rewrite (number_loop_exact positive_threshold positive_last_digit); [|done..|].
    + rewrite Z.mul_0_l, Z.add_0_l, Ed, Z.abs_eq by lia. rewrite (proj2 (Z.leb_le _ _)); [done|].
      unfold Writer.maxLargestInt. word.
    + rewrite Ed. change (positive_threshold * 10 + positive_last_digit) with (2 ^ 64 - 1). word.
Qed.

Lemma decode_uint n rest r : in_u64 n -> exists t, Writer.valueToString_uint n = Ok t
  /\ decodeNumber (mkToken tokenNumber (t ++ rest) rest) r = (Ok (Some (normal_number (uintValue n))), r).
Proof.
  intros Hn. destruct (Writer.uintToString_ok n Hn) as (d & E & Ed & Hd & Hne & _).
  exists d. split; [done|]. unfold decodeNumber, text_between. cbn [start_ end_]. rewrite between_app.
  destruct d as [|b d]; [done|]. pose proof (Forall_inv Hd) as Hb. apply is_digit_bool in Hb.
  destruct (token_of_digit default_features true b [] Hb) as (_ & _ & _ & Hm). rewrite Hm.
  rewrite (number_loop_exact positive_threshold positive_last_digit); [|done..|].
  - rewrite Z.mul_0_l, Z.add_0_l, Ed. cbn [normal_number]. by case_if.
  - rewrite Ed. change (positive_threshold * 10 + positive_last_digit) with (2 ^ 64 - 1). word.
Qed.

(** C32: integers are decoded exactly or not at all.  For a token that is a sequence of
    digits, with or without a minus, [decodeNumber] yields the number itself, signed up to
    [2^63 - 1] and unsigned up to [2^64 - 1], and it hands exactly the numbers outside
    [-2^63 .. 2^64 - 1] to the conversion to a double; the 64-bit accumulator never wraps. *)
Theorem decodeNumber_exact (neg : bool) d rest r :
  Forall Writer.is_digit d -> d <> [] ->
  let token := mkToken tokenNumber ((if neg then Byte.x2d :: d else d) ++ rest) rest in
  let n := if neg then - Writer.of_dec d else Writer.of_dec d in
  decodeNumber token r
  = if (- 2 ^ 63 <=? n) && (n <? 2 ^ 64)
    then (Ok (Some (if n <? 2 ^ 63 then intValue n else uintValue n)), r)
    else decodeDouble token r.
Proof.
  intros Hd Hne token n. pose proof (of_dec_nonneg d Hd) as H0.
  subst token n. unfold decodeNumber, text_between. cbn [start_ end_]. cbv zeta. rewrite between_app. destruct neg.
  - change (eqc Byte.x2d Byte.x2d) with true. cbv iota. cbn [drop]. rewrite drop_0.
    rewrite (number_loop_spec negative_threshold negative_last_digit d) by done.
    change (negative_threshold * 10 + negative_last_digit) with (2 ^ 63).
    rewrite (proj2 (Z.ltb_lt (- _) (2 ^ 64))), andb_true_r by lia. rewrite (proj2 (Z.ltb_lt (- _) (2 ^ 63))) by lia.
    destruct (Z.leb_spec (Writer.of_dec d) (2 ^ 63)); [rewrite (proj2 (Z.leb_le _ _)) by lia|by rewrite (proj2 (Z.leb_gt _ _)) by lia].
    pose proof (Z.div_mod (Writer.of_dec d) 10 ltac:(lia)). pose proof (Z.mod_pos_bound (Writer.of_dec d) 10 ltac:(lia)).
    rewrite (i64_small (_ / 10)) by word. rewrite i64_small by word.
    by replace (- (Writer.of_dec d / 10) * 10 - Writer.of_dec d mod 10) with (- Writer.of_dec d) by lia.
  - destruct d as [|b d]; [done|]. pose proof (Forall_inv Hd) as Hb. apply is_digit_bool in Hb.
    destruct (token_of_digit default_features true b [] Hb) as (_ & _ & _ & Hm). rewrite Hm.
    rewrite (number_loop_spec positive_threshold positive_last_digit) by done.
    change (positive_threshold * 10 + positive_last_digit) with (2 ^ 64 - 1).
    rewrite (proj2 (Z.leb_le (- 2 ^ 63) _)) by lia. cbn [andb]. unfold Writer.maxLargestInt.
    destruct (Z.leb_spec (Writer.of_dec (b :: d)) (2 ^ 64 - 1)), (Z.ltb_spec (Writer.of_dec (b :: d)) (2 ^ 64)); try lia; [|done].
    destruct (Z.leb_spec (Writer.of_dec (b :: d)) (2 ^ 63 - 1)), (Z.ltb_spec (Writer.of_dec (b :: d)) (2 ^ 63)); try lia; done.
Qed.

Lemma decodeNumber_exact_witness :
  let token := mkToken tokenNumber (bs "18446744073709551615" ++ bs "]") (bs "]") in
  decodeNumber token (new_reader []) = (Ok (Some (uintValue (2 ^ 64 - 1))), new_reader []).
Proof.
  apply (decodeNumber_exact false (bs "18446744073709551615") (bs "]") (new_reader [])).
  - repeat (constructor; [by vm_compute|]). constructor.
  - discriminate.
Defined.

End Tokens.
