(* ===== verification/LegacyReader.v ===== *)
(** * Reading JSON: the deprecated class [Reader]
      (common/jsoncpp/lib_json/json_reader.cpp, include/json/json_features.h)

    The library keeps its first reader beside [OurReader].  The functions in which the two
    classes do not differ are those of JsonReader.v; the others are written out here.  The
    members are those of [OurReader] but for one that this class does not have,
    [lastValueHasAComment_], which stays false. *)
From Stdlib Require Import ZArith Lia.
From Stdlib Require Strings.Byte.
From S2P Require Import Prelude Double Real Json JsonWriter JsonReader.

Module LegacyReader.
Import Json.
Import Reader (OurReader, R, Location, Token, TokenType, ErrorInfo, eqc, is_type, type_, start_, end_, mkToken,
  nodes_, errors_, begin_, current_, lastValueEnd_, commentsBefore_, attached,
  tokenEndOfStream, tokenObjectBegin, tokenObjectEnd, tokenArrayBegin, tokenArrayEnd, tokenString, tokenNumber,
  tokenTrue, tokenFalse, tokenNull, tokenArraySeparator, tokenMemberSeparator, tokenComment, tokenError,
  commentBefore, commentAfterOnSameLine, commentAfter).

(** ** Features *)

Record Features := mkFeatures {
  allowComments_ : bool;
  strictRoot_ : bool;
  allowDroppedNullPlaceholders_ : bool;
  allowNumericKeys_ : bool
}.

Definition all : Features := mkFeatures true false false false.
Definition strictMode : Features := mkFeatures false true false false.

Definition stackLimit_g : Z := 1000.

(** ** Functions both classes have *)

Definition containsNewLine : Location -> Location -> bool := Reader.containsNewLine.
Definition skipSpaces : R unit := Reader.skipSpaces.
Definition match_ : list byte -> R bool := Reader.match_.
Definition normalizeEOL : list byte -> list byte := Reader.normalizeEOL.
Definition addComment : Location -> Location -> Reader.CommentPlacement -> R unit := Reader.addComment.
Definition readCppStyleComment : R bool := Reader.readCppStyleComment.
Definition readString : R bool := Reader.readString.
Definition decodeDouble : Token -> R (option Value) := Reader.decodeDouble.
Definition decodeString : Token -> R (option (list byte)) := Reader.decodeString.
Definition decodeString_value : Token -> R (option Value) := Reader.decodeString_value.
Definition decodeUnicodeCodePoint : Token -> Location -> list byte -> R (option Z * list byte) :=
  Reader.decodeUnicodeCodePoint.
Definition decodeUnicodeEscapeSequence : Token -> Location -> list byte -> R (option Z * list byte) :=
  Reader.decodeUnicodeEscapeSequence.
Definition addError : list byte -> Token -> option Location -> R bool := Reader.addError.
Definition getNextChar : R byte := Reader.getNextChar.
Definition getLocationLineAndColumn : Location -> Location -> Z * Z := Reader.getLocationLineAndColumn.
Definition getFormattedErrorMessages : OurReader -> list byte := Reader.getFormattedErrorMessages.

(** The errors by their offsets in the document. *)
Definition getStructuredErrors (r : OurReader) : list (Z * Z * list byte) :=
  map (fun error => (zlen (begin_ r) - zlen (start_ (Reader.token_ error)),
                     zlen (begin_ r) - zlen (end_ (Reader.token_ error)), Reader.message_ error)) (errors_ r).

Definition good (r : OurReader) : bool := bool_decide (errors_ r = []).

(** ** Comments and tokens *)

Definition readCStyleComment : R bool :=
  r ← get;
  _ ← Reader.move (Reader.c_comment_loop false (current_ r)).2;
  c ← getNextChar;
  mret (eqc c Byte.x2f).

(** Here the number starts with any character that has been consumed. *)
Definition readNumber : R unit := r ← get; Reader.move (Reader.number_end (current_ r)).

Section reader.
Context (features_ : Features) (collectComments_ : bool).

(** [commentBegin] is [current_ - 1], the slash just read. *)
Definition readComment (commentBegin : Location) : R bool :=
  c ← getNextChar;
  successful ← (if eqc c Byte.x2a then readCStyleComment
                else if eqc c Byte.x2f then readCppStyleComment
                else mret false);
  if negb successful then mret false
  else
    _ ← (if collectComments_ then
           r ← get;
           addComment commentBegin (current_ r)
             (if match lastValueEnd_ r with
                 | Some e => negb (containsNewLine e commentBegin)
                 | None => false
                 end
                 && (negb (eqc c Byte.x2a) || negb (containsNewLine commentBegin (current_ r)))
              then commentAfterOnSameLine else commentBefore)
         else mret tt);
    mret true.

Definition token_of (c : byte) (start : Location) : R (TokenType * bool) :=
  if eqc c Byte.x7b then mret (tokenObjectBegin, true)
  else if eqc c Byte.x7d then mret (tokenObjectEnd, true)
  else if eqc c Byte.x5b then mret (tokenArrayBegin, true)
  else if eqc c Byte.x5d then mret (tokenArrayEnd, true)
  else if eqc c Byte.x22 then ok ← readString; mret (tokenString, ok)
  else if eqc c Byte.x2f then ok ← readComment start; mret (tokenComment, ok)
  else if Double.is_digit c || eqc c Byte.x2d then _ ← readNumber; mret (tokenNumber, true)
  else if eqc c Byte.x74 then ok ← match_ (bs "rue"); mret (tokenTrue, ok)
  else if eqc c Byte.x66 then ok ← match_ (bs "alse"); mret (tokenFalse, ok)
  else if eqc c Byte.x6e then ok ← match_ (bs "ull"); mret (tokenNull, ok)
  else if eqc c Byte.x2c then mret (tokenArraySeparator, true)
  else if eqc c Byte.x3a then mret (tokenMemberSeparator, true)
  else if eqc c Byte.x00 then mret (tokenEndOfStream, true)
  else mret (tokenError, false).

Definition readToken : R (bool * Token) :=
  _ ← skipSpaces;
  start ← gets current_;
  c ← getNextChar;
  '(type, ok) ← token_of c start;
  e ← gets current_;
  mret (ok, mkToken (if (ok : bool) then type else tokenError) start e).

(** [while (token.type_ == tokenComment && ok) ok = readToken(token);] *)
Fixpoint comments_loop (fuel : nat) (ok : bool) (token : Token) : R (bool * Token) :=
  match fuel with
  | O => lift OutOfFuel
  | S fuel' =>
      if is_type (type_ token) tokenComment && ok then
        '(ok, token) ← readToken; comments_loop fuel' ok token
      else mret (ok, token)
  end.

Definition pass_comments (ok : bool) (token : Token) : R (bool * Token) :=
  fuel ← Reader.fuel_left; comments_loop fuel ok token.

(** [do { readToken(token); } while (token.type_ == tokenComment);] behind its first round *)
Fixpoint skip_loop (fuel : nat) (token : Token) : R Token :=
  match fuel with
  | O => lift OutOfFuel
  | S fuel' =>
      if is_type (type_ token) tokenComment then '(_, token) ← readToken; skip_loop fuel' token
      else mret token
  end.

Definition skipCommentTokens : R Token :=
  '(_, token) ← readToken;
  if allowComments_ features_ then fuel ← Reader.fuel_left; skip_loop fuel token else mret token.

(** ** Errors *)

Fixpoint recover_loop (fuel : nat) (errorCount : nat) (skipUntilToken : TokenType) : R unit :=
  match fuel with
  | O => lift OutOfFuel
  | S fuel' =>
      '(ok, skip) ← readToken;
      _ ← (if negb ok then modify (fun r => Reader.set_errors r (take errorCount (errors_ r))) else mret tt);
      if is_type (type_ skip) skipUntilToken || is_type (type_ skip) tokenEndOfStream then mret tt
      else recover_loop fuel' errorCount skipUntilToken
  end.

Definition recoverFromError (skipUntilToken : TokenType) : R bool :=
  errorCount ← gets (fun r => length (errors_ r));
  fuel ← Reader.fuel_left;
  _ ← recover_loop fuel errorCount skipUntilToken;
  _ ← modify (fun r => Reader.set_errors r (take errorCount (errors_ r)));
  mret false.

Definition addErrorAndRecover (message : list byte) (token : Token) (skipUntilToken : TokenType) : R bool :=
  _ ← addError message token None;
  recoverFromError skipUntilToken.

(** ** Numbers *)

Definition maxInt : Z := 2 ^ 31 - 1.

(** [decodeNumber(token, decoded)]: a number beyond [maxInt] becomes unsigned. *)
Definition decodeNumber (token : Token) : R (option Value) :=
  let text := Reader.text_between token in
  let isNegative := match text with c :: _ => eqc c Byte.x2d | [] => false end in
  let maxIntegerValue := if isNegative then u64 (u64 Writer.maxLargestInt + 1) else Reader.maxLargestUInt in
  match Reader.number_loop (maxIntegerValue / 10) (maxIntegerValue mod 10) 0 (if isNegative then drop 1 text else text) with
  | None => decodeDouble token
  | Some value =>
      mret (Some
        (if isNegative && (value =? maxIntegerValue) then intValue Writer.minLargestInt
         else if isNegative then intValue (- i64 value)
         else if value <=? maxInt then intValue (i64 value)
         else uintValue value))
  end.

(** ** Values *)

Section nested.
Context (readValue : Value -> R (bool * Value)).

Definition read_name (tokenName : Token) : R (option (option (list byte))) :=
  if is_type (type_ tokenName) tokenString then
    name ← decodeString tokenName; mret (Some name)
  else if is_type (type_ tokenName) tokenNumber && allowNumericKeys_ features_ then
    numberName ← decodeNumber tokenName;
    match numberName with
    | Some v => name ← lift (Writer.asString v); mret (Some (Some name))
    | None => mret (Some None)
    end
  else mret None.

(** The key [currentValue()[name]] looks for: its length is a field of 30 bits. *)
Definition key_of (name : list byte) : list byte := ztake (Z.land (u32 (zlen name)) 0x3FFFFFFF) name.

(** The [while] loop of [readObject]. *)
Fixpoint object_loop (fuel : nat) (name : list byte) (m : members) : R (bool * Value) :=
  match fuel with
  | O => lift OutOfFuel
  | S fuel' =>
      let missing tokenName :=
        ok ← addErrorAndRecover (bs "Missing '}' or object member name") tokenName tokenObjectEnd;
        mret (ok, objectValue m) in
      '(ok, tokenName) ← readToken;
      if negb ok then missing tokenName
      else
        '(initialTokenOk, tokenName) ← pass_comments true tokenName;
        if negb initialTokenOk then missing tokenName
        else if is_type (type_ tokenName) tokenObjectEnd && bool_decide (name = [])
        then mret (true, objectValue m)
        else
          n ← read_name tokenName;
          match n with
          | None => missing tokenName
          | Some None => ok ← recoverFromError tokenObjectEnd; mret (ok, objectValue m)
          | Some (Some name) =>
              '(colonOk, colon) ← readToken;
              if negb colonOk || negb (is_type (type_ colon) tokenMemberSeparator) then
                ok ← addErrorAndRecover (bs "Missing ':' after object member name") colon tokenObjectEnd;
                mret (ok, objectValue m)
              else
                _ ← Reader.push;
                '(ok, v) ← readValue (default nullValue (find (key_of name) m));
                _ ← Reader.pop;
                let m := put (key_of name) v m in
                if negb ok then ok ← recoverFromError tokenObjectEnd; mret (ok, objectValue m)
                else
                  '(commaOk, comma) ← readToken;
                  if negb commaOk
                     || negb (is_type (type_ comma) tokenObjectEnd)
                        && negb (is_type (type_ comma) tokenArraySeparator)
                        && negb (is_type (type_ comma) tokenComment)
                  then
                    ok ← addErrorAndRecover (bs "Missing ',' or '}' in object declaration") comma tokenObjectEnd;
                    mret (ok, objectValue m)
                  else
                    '(_, comma) ← pass_comments true comma;
                    if is_type (type_ comma) tokenObjectEnd then mret (true, objectValue m)
                    else object_loop fuel' name m
          end
  end.

Definition readObject : R (bool * Value) := fuel ← Reader.fuel_left; object_loop fuel [] [].

(** The [for] loop of [readArray]; the [int] index must not overflow. *)
Fixpoint array_loop (fuel : nat) (elems : list Value) : R (bool * Value) :=
  match fuel with
  | O => lift OutOfFuel
  | S fuel' =>
      if 2 ^ 31 - 1 <=? zlen elems then undefined
      else
        _ ← Reader.push;
        '(ok, v) ← readValue nullValue;
        _ ← Reader.pop;
        let elems := elems ++ [v] in
        if negb ok then ok ← recoverFromError tokenArrayEnd; mret (ok, arrayValue elems)
        else
          '(ok, currentToken) ← readToken;
          '(ok, currentToken) ← pass_comments ok currentToken;
          let badTokenType := negb (is_type (type_ currentToken) tokenArraySeparator)
                              && negb (is_type (type_ currentToken) tokenArrayEnd) in
          if negb ok || badTokenType then
            ok ← addErrorAndRecover (bs "Missing ',' or ']' in array declaration") currentToken tokenArrayEnd;
            mret (ok, arrayValue elems)
          else if is_type (type_ currentToken) tokenArrayEnd then mret (true, arrayValue elems)
          else array_loop fuel' elems
  end.

Definition readArray : R (bool * Value) :=
  fuel ← Reader.fuel_left;
  _ ← skipSpaces;
  r ← get;
  if match current_ r with c :: _ => eqc c Byte.x5d | [] => false end
  then _ ← readToken; mret (true, arrayValue [])
  else array_loop fuel [].
End nested.

(** The [switch] of [readValue]: whether it reached the end of the function, the result
    and the current value. *)
Definition read_switch (readValue : Value -> R (bool * Value)) (old : Value) (token : Token)
  : R (bool * (bool * Value)) :=
  match type_ token with
  | tokenObjectBegin => x ← readObject readValue; mret (true, x)
  | tokenArrayBegin => x ← readArray readValue; mret (true, x)
  | tokenNumber => v ← decodeNumber token; mret (true, Reader.decoded old v)
  | tokenString => v ← decodeString_value token; mret (true, Reader.decoded old v)
  | tokenTrue => mret (true, (true, booleanValue true))
  | tokenFalse => mret (true, (true, booleanValue false))
  | tokenNull => mret (true, (true, nullValue))
  | type =>
      if (is_type type tokenArraySeparator || is_type type tokenObjectEnd || is_type type tokenArrayEnd)
         && allowDroppedNullPlaceholders_ features_
      then _ ← Reader.move (start_ token); mret (true, (true, nullValue))
      else ok ← addError (bs "Syntax error: value, object or array expected.") token None;
           mret (false, (ok, old))
  end.

Fixpoint readValue (depth : nat) (old : Value) : R (bool * Value) :=
  match depth with
  | O => lift OutOfFuel
  | S depth' =>
      r ← get;
      if stackLimit_g <? nodes_ r then throw json_runtime_error
      else
        token ← skipCommentTokens;
        r ← get;
        _ ← (if collectComments_ && negb (bool_decide (commentsBefore_ r = [])) then
               _ ← Reader.setComment (commentsBefore_ r) commentBefore;
               modify (fun r => Reader.set_comments r [] (attached r))
             else mret tt);
        '(finished, x) ← read_switch (readValue depth') old token;
        _ ← (if finished && collectComments_
             then modify (fun r => Reader.set_last r (Some (current_ r)) false) else mret tt);
        mret x
  end.
End reader.

(** [parse], which starts by resetting the reader, and leaves the root on its stack. *)
Definition parse (features_ : Features) (doc : list byte) (collectComments : bool) (root : Value) : R (bool * Value) :=
  let collectComments_ := allowComments_ features_ && collectComments in
  _ ← modify (fun _ => Reader.new_reader doc);
  _ ← Reader.push;
  '(successful, root) ← readValue features_ collectComments_ (Z.to_nat stackLimit_g + 2) root;
  token ← skipCommentTokens features_ collectComments_;
  r ← get;
  _ ← (if collectComments_ && negb (bool_decide (commentsBefore_ r = []))
       then Reader.setComment (commentsBefore_ r) commentAfter else mret tt);
  if strictRoot_ features_ && negb (isArray root) && negb (isObject root) then
    ok ← addError (bs "A valid JSON document must be either an array or an object value.")
           (mkToken tokenError doc []) None;
    mret (ok, root)
  else mret (successful, root).

Example parse_demo :
  let q := [Byte.x22] in
  (parse all (bs "/* c */ {" ++ q ++ bs "a" ++ q ++ bs ": [1, 3000000000, -5, null]} // d") true nullValue (Reader.new_reader [])).1
  = Ok (true, objectValue [(bs "a", arrayValue [intValue 1; uintValue 3000000000; intValue (-5); nullValue])]).
Proof. vm_compute. reflexivity. Qed.

End LegacyReader.
