(* ===== verification/Lexing.v ===== *)
(** * The tokens of a document

    A pure tokeniser, and that both readers read its tokens one after the other: what a
    token is depends on the rest of the document only, neither on the settings (as long as
    single quotes and special floats are off) nor on the comments collected.  The two
    classes differ where a token starts with a plus or is an infinity with a minus. *)
From Stdlib Require Import ZArith Lia.
From Stdlib Require Strings.Byte.
From S2P Require Import Prelude Double Real Json JsonWriter Double JsonReader Parsing LegacyReader.

Module Lexing.
Import Json Reader Parsing.

(** ** The tokeniser *)

(** Where a comment ends, behind its first slash, and whether it is one. *)
Definition lex_comment (t : Location) : bool * Location :=
  match t with
  | [] => (false, [])
  | c :: t =>
      if eqc c Byte.x2a then
        match (c_comment_loop false t).2 with
        | [] => (false, [])
        | d :: t' => (eqc d Byte.x2f, t')
        end
      else if eqc c Byte.x2f then (true, cpp_comment_loop t)
      else (false, t)
  end.

Definition lex_string (t : Location) : bool * Location :=
  let '(c, l) := string_loop Byte.x22 Byte.x00 t in (eqc c Byte.x22, l).

Definition lex_word (word : list byte) (t : Location) : bool * Location :=
  if zlen t <? zlen word then (false, t)
  else if bool_decide (take (length word) t = word) then (true, drop (length word) t)
  else (false, t).

(** The token that starts with [c]: its type, whether it is good, and where it ends. *)
Definition lex_at (c : byte) (t : Location) : TokenType * (bool * Location) :=
  if eqc c Byte.x7b then (tokenObjectBegin, (true, t))
  else if eqc c Byte.x7d then (tokenObjectEnd, (true, t))
  else if eqc c Byte.x5b then (tokenArrayBegin, (true, t))
  else if eqc c Byte.x5d then (tokenArrayEnd, (true, t))
  else if eqc c Byte.x22 then (tokenString, lex_string t)
  else if eqc c Byte.x2f then (tokenComment, lex_comment t)
  else if Double.is_digit c || eqc c Byte.x2d then (tokenNumber, (true, number_end t))
  else if eqc c Byte.x74 then (tokenTrue, lex_word (bs "rue") t)
  else if eqc c Byte.x66 then (tokenFalse, lex_word (bs "alse") t)
  else if eqc c Byte.x6e then (tokenNull, lex_word (bs "ull") t)
  else if eqc c Byte.x2c then (tokenArraySeparator, (true, t))
  else if eqc c Byte.x3a then (tokenMemberSeparator, (true, t))
  else if eqc c Byte.x00 then (tokenEndOfStream, (true, t))
  else (tokenError, (false, t)).

Definition lex (l : Location) : bool * Token :=
  match spaces_loop l with
  | [] => (true, mkToken tokenEndOfStream [] [])
  | c :: t => let '(ty, (ok, e)) := lex_at c t in (ok, mkToken (if (ok : bool) then ty else tokenError) (c :: t) e)
  end.

(** Where the next token starts looking. *)
Definition behind_token (l : Location) : Location := end_ (lex l).2.

(** No token from here on starts with a plus, or with a minus in front of an [I]. *)
Definition calm_at (l : Location) : bool :=
  match spaces_loop l with
  | [] => true
  | c :: t => negb (eqc c Byte.x2b) && negb (eqc c Byte.x2d && match t with d :: _ => eqc d Byte.x49 | [] => false end)
  end.

Fixpoint calm (fuel : nat) (l : Location) : bool :=
  match fuel with
  | O => true
  | S fuel' => calm_at l && calm fuel' (behind_token l)
  end.

(** Every token but the end takes characters, so that a document has no more tokens than
    characters. *)
Definition calm_document (doc : list byte) : bool := calm (S (length doc)) doc.

(** [calm] with any fuel. *)
Definition calm_from (l : Location) : Prop := forall n, calm n l = true.

Lemma calm_from_at l : calm_from l -> calm_at l = true.
Proof. intros H. specialize (H 1%nat). cbn in H. by rewrite andb_true_r in H. Qed.

Lemma calm_from_next l : calm_from l -> calm_from (behind_token l).
Proof. intros H n. specialize (H (S n)). cbn in H. by apply andb_true_iff in H as [_ H]. Qed.

Lemma lex_error l ok t : lex l = (ok, t) -> ok = false -> type_ t = tokenError.
Proof.
  unfold lex. intros E ->. destruct (spaces_loop l) as [|c t0]; [by injection E|].
  destruct (lex_at c t0) as [ty [ok e]]. by injection E as -> <-.
Qed.

(** *** A document has no more tokens than characters *)

Lemma lex_comment_suffix t : (lex_comment t).2 `suffix_of` t.
Proof.
  destruct t as [|c t]; [done|]. cbn [lex_comment]. apply suffix_cons_r. case_if.
  - pose proof (c_comment_suffix t false) as H. destruct (c_comment_loop false t).2 as [|d t']; [apply suffix_nil|].
    cbn. etrans; [|exact H]. by apply suffix_cons_r.
  - case_if; [apply cpp_comment_suffix|done].
Qed.

Lemma lex_word_suffix w t : (lex_word w t).2 `suffix_of` t.
Proof. unfold lex_word. case_if; [done|]. case_if; [apply suffix_drop_|done]. Qed.

Lemma lex_string_suffix t : (lex_string t).2 `suffix_of` t.
Proof.
  unfold lex_string. pose proof (string_loop_suffix Byte.x22 t Byte.x00) as H.
  by destruct (string_loop Byte.x22 Byte.x00 t).
Qed.

Lemma lex_at_suffix c t : (lex_at c t).2.2 `suffix_of` t.
Proof.
  unfold lex_at. repeat case_if; cbn [fst snd]; first
    [done|apply lex_string_suffix|apply lex_comment_suffix|apply number_end_suffix|apply lex_word_suffix].
Qed.

Lemma behind_token_suffix l : behind_token l `suffix_of` l.
Proof.
  unfold behind_token, lex. pose proof (spaces_suffix l) as H. destruct (spaces_loop l) as [|c t]; [apply suffix_nil|].
  pose proof (lex_at_suffix c t) as Ht. destruct (lex_at c t) as [ty [ok e]]. cbn in *. etrans; [|exact H]. by apply suffix_cons_r.
Qed.

Lemma behind_token_shorter l : spaces_loop l = [] \/ (length (behind_token l) < length l)%nat.
Proof.
  unfold behind_token, lex. pose proof (spaces_suffix l) as H. destruct (spaces_loop l) as [|c t]; [by left|right].
  pose proof (lex_at_suffix c t) as Ht. destruct (lex_at c t) as [ty [ok e]]. cbn in *.
  apply suffix_length in H, Ht. cbn in H. lia.
Qed.

Lemma calm_blank l n : spaces_loop l = [] -> calm n l = true.
Proof.
  revert l. induction n as [|n IH]; intros l E; [done|]. cbn [calm]. unfold calm_at. rewrite E. cbn [andb].
  assert (behind_token l = []) as -> by (unfold behind_token, lex; by rewrite E). by apply IH.
Qed.

Lemma calm_enough n : forall l, (length l < n)%nat -> calm n l = true -> calm_from l.
Proof.
  induction n as [|n IH]; intros l Hl Hc; [lia|]. intros [|k]; [done|]. cbn [calm] in *.
  apply andb_true_iff in Hc as [Ha Hc]. rewrite Ha. cbn [andb].
  destruct (behind_token_shorter l) as [E|Hs].
  - assert (behind_token l = []) as -> by (unfold behind_token, lex; by rewrite E). by apply calm_blank.
  - apply IH; [lia|done].
Qed.

Lemma calm_document_from doc : calm_document doc = true -> calm_from doc.
Proof. apply calm_enough. lia. Qed.

(** ** A state that is known but for its comments *)

Definition at_location (r : OurReader) (l : Location) (r' : OurReader) : Prop :=
  current_ r' = l /\ nodes_ r' = nodes_ r /\ errors_ r' = errors_ r /\ begin_ r' = begin_ r /\ slashed (commentsBefore_ r').

(** [m] answers [a] and moves to [l], and may collect comments. *)
Definition moves {A} (m : R A) (r : OurReader) (a : A) (l : Location) : Prop :=
  wp m (fun x r' => x = a /\ at_location r l r') never r.

Lemma moves_bind {A B} (m : R A) (k : A -> R B) r a l b l' :
  moves m r a l -> (forall r', at_location r l r' -> moves (k a) r' b l') -> moves (m ≫= k) r b l'.
Proof.
  intros Hm Hk. unfold moves. wpr. eapply wp_mono; [exact Hm| |done]. intros x r1 [-> H1].
  eapply wp_mono; [by apply Hk| |done]. intros y r2 [-> (? & ? & ? & ? & ?)]. destruct H1 as (? & ? & ? & ? & ?).
  split; [done|]. split_and!; congruence || done.
Qed.

Lemma moves_ret {A} (a : A) r : slashed (commentsBefore_ r) -> moves (mret a) r a (current_ r).
Proof. intros H. by unfold moves; wpr. Qed.

Lemma moves_move l r : slashed (commentsBefore_ r) -> moves (move l) r tt l.
Proof. intros H. by unfold moves; wpr. Qed.

Lemma moves_next r : slashed (commentsBefore_ r) ->
  moves getNextChar r (match current_ r with c :: _ => c | [] => Byte.x00 end)
    (match current_ r with _ :: l => l | [] => [] end).
Proof.
  intros H. unfold moves, getNextChar. wpr. wpr. destruct (current_ r) as [|c l] eqn:E; wpr; [by rewrite <- E|].
  wpr. by wpr.
Qed.

Lemma moves_match word r : slashed (commentsBefore_ r) ->
  moves (match_ word) r (lex_word word (current_ r)).1 (lex_word word (current_ r)).2.
Proof.
  intros H. unfold moves, match_, lex_word. wpr. wpr. case_if; [by wpr|]. case_if; [|by wpr]. wpr. wpr. by wpr.
Qed.

Lemma moves_string r : slashed (commentsBefore_ r) ->
  moves readString r (lex_string (current_ r)).1 (lex_string (current_ r)).2.
Proof.
  intros H. unfold moves, readString, readQuoted, lex_string. wpr. wpr.
  destruct (string_loop Byte.x22 Byte.x00 (current_ r)) as [c l]. wpr. wpr. by wpr.
Qed.

(** *** Comments *)

Lemma moves_addComment a p r : slashed (commentsBefore_ r) -> current_ r `suffix_of` a ->
  moves (addComment (Byte.x2f :: a) (current_ r) p) r tt (current_ r).
Proof.
  intros H Hs. destruct (addComment_run (Byte.x2f :: a) (current_ r) p r (between_slash _ _ Hs)) as (c & cs & E & Hc).
  unfold moves, wp. rewrite E. split_and!; try done. split_and!; try done. by apply Hc.
Qed.

(** The loop of a comment between slash and star. *)
Lemma moves_star {A} (f : bool -> A) (l : Location) r : slashed (commentsBefore_ r) ->
  moves (_ ← move l; c ← getNextChar; mret (f (eqc c Byte.x2f))) r
    (f (match l with [] => false | d :: _ => eqc d Byte.x2f end)) (match l with [] => [] | _ :: t => t end).
Proof.
  intros H. eapply moves_bind; [by apply moves_move|]. intros r1 (E1 & _ & _ & _ & H1).
  eapply moves_bind; [by apply moves_next|]. intros r2 (E2 & _ & _ & _ & H2).
  rewrite E1 in *. destruct l as [|d l]; rewrite <- E2; by apply moves_ret.
Qed.

Lemma moves_end {A} (m : R A) r a l l' : moves m r a l -> l = l' -> moves m r a l'.
Proof. by intros H <-. Qed.

Lemma our_comment collect t r : slashed (commentsBefore_ r) -> current_ r = t ->
  moves (readComment collect (Byte.x2f :: t)) r (lex_comment t).1 (lex_comment t).2.
Proof.
  intros H E. pose proof (lex_comment_suffix t) as Hs. unfold readComment.
  eapply moves_bind; [by apply moves_next|]. rewrite E. intros r1 (E1 & _ & _ & _ & H1).
  set (c := match t with c :: _ => c | [] => Byte.x00 end) in *.
  assert (exists nl, moves (if eqc c Byte.x2a then readCStyleComment
     else if eqc c Byte.x2f then ok ← readCppStyleComment; mret (ok, false) else mret (false, false)) r1
     ((lex_comment t).1, nl) (lex_comment t).2) as [nl Hm].
  { destruct t as [|c' t]; [exists false; exact (moves_end _ _ _ _ _ (moves_ret (false, false) r1 H1) E1)|]. change c with c'. cbn [lex_comment]. case_if.
    - unfold readCStyleComment. exists (c_comment_loop false t).1. unfold moves. wpr. wpr. rewrite E1.
      destruct (c_comment_loop false t) as [nl l]. cbn [fst snd].
      pose proof (moves_star (fun b => (b, nl)) l r1 H1) as W. by destruct l.
    - exists false. case_if; [|cbn; rewrite <- E1; by apply moves_ret].
      unfold readCppStyleComment. unfold moves. wpr. wpr. wpr. wpr. cbn [fst snd]. by rewrite E1. }
  eapply moves_bind; [exact Hm|]. intros r2 (E2 & _ & _ & _ & H2). cbv beta iota.
  destruct (lex_comment t).1; cbn [negb]; [|rewrite <- E2; by apply moves_ret].
  apply (moves_bind _ _ _ tt (lex_comment t).2); [|intros r3 (E3 & _ & _ & _ & H3); rewrite <- E3; by apply moves_ret].
  destruct collect; [|rewrite <- E2; by apply moves_ret]. unfold moves. wpr. wpr.
  eapply (moves_bind _ _ r2 tt (current_ r2)); [case_if; by unfold moves; wpr|].
  intros r3 (E3 & _ & _ & _ & H3). rewrite E2 in E3. eapply moves_end; [|exact E3].
  rewrite E2, <- E3. apply moves_addComment; [done|]. by rewrite E3.
Qed.

Lemma legacy_comment collect t r : slashed (commentsBefore_ r) -> current_ r = t ->
  moves (LegacyReader.readComment collect (Byte.x2f :: t)) r (lex_comment t).1 (lex_comment t).2.
Proof.
  intros H E. pose proof (lex_comment_suffix t) as Hs. unfold LegacyReader.readComment.
  eapply moves_bind; [by apply moves_next|]. rewrite E. intros r1 (E1 & _ & _ & _ & H1).
  set (c := match t with c :: _ => c | [] => Byte.x00 end) in *.
  eapply (moves_bind _ _ _ (lex_comment t).1 (lex_comment t).2).
  { destruct t as [|c' t]; [exact (moves_end _ _ _ _ _ (moves_ret false r1 H1) E1)|]. change c with c'. cbn [lex_comment]. case_if.
    - unfold LegacyReader.readCStyleComment, moves. wpr. wpr. rewrite E1.
      pose proof (moves_star (fun b => b) (c_comment_loop false t).2 r1 H1) as W. by destruct (c_comment_loop false t).2.
    - case_if; [|cbn; rewrite <- E1; by apply moves_ret].
      unfold LegacyReader.readCppStyleComment, readCppStyleComment, moves. wpr. wpr. wpr. by rewrite E1. }
  intros r2 (E2 & _ & _ & _ & H2).
  destruct (lex_comment t).1; cbn [negb]; [|rewrite <- E2; by apply moves_ret].
  apply (moves_bind _ _ _ tt (lex_comment t).2); [|intros r3 (E3 & _ & _ & _ & H3); rewrite <- E3; by apply moves_ret].
  destruct collect; [|rewrite <- E2; by apply moves_ret]. unfold moves. wpr. wpr.
  eapply moves_end; [|exact E2]. apply moves_addComment; [done|]. by rewrite E2.
Qed.

(** *** Tokens *)

Lemma moves_kind (m : R bool) r x l (ty : TokenType) : moves m r x l -> moves (ok ← m; mret (ty, ok)) r (ty, x) l.
Proof.
  intros Hm. eapply moves_bind; [exact Hm|]. intros r1 (E1 & _ & _ & _ & H1).
  exact (moves_end _ _ _ _ _ (moves_ret (ty, x) r1 H1) E1).
Qed.

(** The token [x] starts at the reader's position. *)
Definition token_moves (m : R (TokenType * bool)) (r : OurReader) (x : TokenType * (bool * Location)) : Prop :=
  moves m r (x.1, x.2.1) x.2.2.

Lemma token_ret ty (b : bool) r : slashed (commentsBefore_ r) -> token_moves (mret (ty, b)) r (ty, (b, current_ r)).
Proof. intros H. by apply moves_ret. Qed.

Lemma token_number (m : R (TokenType * bool)) r l : slashed (commentsBefore_ r) ->
  m r = (_ ← move l; mret (tokenNumber, true)) r -> token_moves m r (tokenNumber, (true, l)).
Proof. intros H E. unfold token_moves, moves, wp. rewrite E. by cbn. Qed.

Ltac token_step :=
  first [by apply token_ret|apply moves_kind; first [by apply moves_string|by apply moves_match]].

Lemma legacy_token_of collect c t r : slashed (commentsBefore_ r) -> current_ r = t ->
  token_moves (LegacyReader.token_of collect c (c :: t)) r (lex_at c t).
Proof.
  intros H <-. unfold LegacyReader.token_of, lex_at. repeat (case_if; [first [token_step|idtac]|]).
  - match goal with E : eqc c Byte.x2f = true |- _ => apply bool_decide_eq_true in E as -> end.
    apply moves_kind. by apply legacy_comment.
  - by apply token_number.
  - token_step.
Qed.

Lemma our_number (b : bool) (m : R (TokenType * bool)) r : slashed (commentsBefore_ r) ->
  match current_ r with d :: _ => eqc d Byte.x49 | [] => false end = false ->
  token_moves (ok ← readNumber b; if (ok : bool) then mret (tokenNumber, true) else m) r (tokenNumber, (true, number_end (current_ r))).
Proof.
  intros H Hi. apply token_number; [done|]. unfold readNumber. rewrite bind_assoc, bind_get.
  assert ((if b then accept (fun c => eqc c Byte.x49) (current_ r) else None) = None) as ->; [|done].
  destruct b; [|done]. destruct (current_ r) as [|d l]; [done|]. cbn. by rewrite Hi.
Qed.

Lemma our_token_of f collect c t r : allowSingleQuotes_ f = false -> allowSpecialFloats_ f = false ->
  slashed (commentsBefore_ r) -> current_ r = t -> eqc c Byte.x2b = false ->
  eqc c Byte.x2d && match t with d :: _ => eqc d Byte.x49 | [] => false end = false ->
  token_moves (token_of f collect c (c :: t)) r (lex_at c t).
Proof.
  intros Hq Hf H <- Hplus Hminus. unfold token_of. rewrite Hq, Hf, Hplus.
  assert (forall b, eqc c b = true -> c = b) as Heq by (intros b; apply bool_decide_eq_true).
  destruct (eqc c Byte.x27) eqn:E1; [apply Heq in E1 as ->; by apply (token_ret tokenError false)|].
  destruct (eqc c Byte.x4e) eqn:E2; [apply Heq in E2 as ->; by apply (token_ret tokenError false)|].
  destruct (eqc c Byte.x49) eqn:E3; [apply Heq in E3 as ->; by apply (token_ret tokenError false)|].
  unfold lex_at. destruct (Double.is_digit c) eqn:Ed; destruct (eqc c Byte.x2d) eqn:Em; cbn [orb andb] in *;
    repeat (case_if; [first [token_step|idtac]|]);
    try match goal with E : eqc c Byte.x2f = true |- _ => apply Heq in E as ->; apply moves_kind; by apply our_comment end;
    first [by apply our_number|by apply token_number|token_step].
Qed.

(** The reader answers with the next token of [lex] and stands behind it. *)
Definition reads_token (m : R (bool * Token)) (r : OurReader) : Prop := moves m r (lex (current_ r)) (behind_token (current_ r)).

(** [readToken] of both classes, around its [switch]. *)
Lemma token_loop (tok : byte -> Location -> R (TokenType * bool)) r :
  slashed (commentsBefore_ r) ->
  (forall c t r', spaces_loop (current_ r) = c :: t -> slashed (commentsBefore_ r') -> current_ r' = t ->
     token_moves (tok c (c :: t)) r' (lex_at c t)) ->
  (forall r', slashed (commentsBefore_ r') -> current_ r' = [] -> token_moves (tok Byte.x00 []) r' (tokenEndOfStream, (true, []))) ->
  reads_token (_ ← skipSpaces; start ← gets current_; c ← getNextChar; '(type, ok) ← tok c start;
               e ← gets current_; mret (ok, mkToken (if (ok : bool) then type else tokenError) start e)) r.
Proof.
  intros H Htok Hend. unfold reads_token, behind_token, lex.
  eapply (moves_bind _ _ _ tt (spaces_loop (current_ r))); [by unfold moves; wpr|]. intros r1 (E1 & _ & _ & _ & H1).
  unfold moves. wpr. wpr. eapply (moves_bind _ _ r1); [by apply moves_next|]. intros r2 (E2 & _ & _ & _ & H2). rewrite E1 in *.
  assert (forall ty ok start e m, token_moves m r2 (ty, (ok, e)) ->
    moves ('(type, ok) ← m; e ← gets current_; mret (ok, mkToken (if (ok : bool) then type else tokenError) start e)) r2
      (ok, mkToken (if (ok : bool) then ty else tokenError) start e) e) as Hm.
  { intros ty ok start e m W. eapply moves_bind; [exact W|]. intros r3 (E3 & _ & _ & _ & H3). cbn [fst snd] in *.
    unfold moves. wpr. wpr. wpr. by rewrite E3. }
  destruct (spaces_loop (current_ r)) as [|c t] eqn:Es.
  - apply (Hm tokenEndOfStream true [] []). by apply Hend.
  - pose proof (Htok c t r2 eq_refl H2 E2) as W. destruct (lex_at c t) as [ty [ok e]]. by apply (Hm ty ok (c :: t) e).
Qed.

Lemma legacy_readToken collect r : slashed (commentsBefore_ r) -> reads_token (LegacyReader.readToken collect) r.
Proof.
  intros H. apply (token_loop (LegacyReader.token_of collect)); [done|..].
  - intros c t r' _ H' E'. by apply legacy_token_of.
  - intros r' H' E'. rewrite <- E' at 2. exact (token_ret tokenEndOfStream true r' H').
Qed.

Lemma our_readToken f collect r : allowSingleQuotes_ f = false -> allowSpecialFloats_ f = false ->
  slashed (commentsBefore_ r) -> calm_at (current_ r) = true -> reads_token (readToken f collect) r.
Proof.
  intros Hq Hf H Hc. apply (token_loop (token_of f collect)); [done|..].
  - intros c t r' Es H' E'. unfold calm_at in Hc. rewrite Es in Hc. apply andb_true_iff in Hc as [H1 H2].
    apply our_token_of; try done; by apply negb_true_iff.
  - intros r' H' E'. rewrite <- E' at 2. exact (token_ret tokenEndOfStream true r' H').
Qed.

End Lexing.
