(* ===== verification/RoundTrip.v ===== *)
(** * Printing and reading back

    Every layout of a value is read back by the reader, whatever its settings, as the same
    value (an unsigned number that fits the signed type comes back signed); so is what each
    of the writers prints.  Doubles are included: the digits that are printed determine them. *)
From Stdlib Require Import ZArith Lia.
From Stdlib Require Strings.Byte.
From S2P Require Import Prelude Double Real Json JsonWriter Layout FastWriter StyledWriter StyledStreamWriter Writers Double DoubleRound JsonReader Parsing Tokens.

Module RoundTrip.
Import Json Layout Reader Parsing Tokens.

(** ** Values *)

(** The value that is read back: an unsigned number that fits is signed. *)
Fixpoint normal (v : Value) : Value :=
  match v with
  | uintValue n => normal_number (uintValue n)
  | arrayValue l => arrayValue (map normal l)
  | objectValue m => objectValue (map (fun kv => (fst kv, normal (snd kv))) m)
  | _ => v
  end.

Fixpoint depth (v : Value) : Z :=
  match v with
  | arrayValue l => 1 + fold_right (fun x d => Z.max (depth x) d) 0 l
  | objectValue m => 1 + fold_right (fun kv d => Z.max (depth (snd kv)) d) 0 m
  | _ => 1
  end.

(** Values whose doubles are finite, with UTF-8 strings (short enough for a value, keys for a
    key) and members in order. *)
Fixpoint readable (v : Value) : Prop :=
  match v with
  | intValue n => in_i64 n
  | uintValue n => in_u64 n
  | realValue r => exists d, DoubleRound.canonical d /\ r = Real.finite d
  | stringValue s => utf8 s /\ zlen s < 2 ^ 31 - 5
  | arrayValue l => zlen l < 2 ^ 31 - 1 /\ fold_right (fun x P => readable x /\ P) True l
  | objectValue m => sorted m
      /\ fold_right (fun kv P => (utf8 (fst kv) /\ zlen (fst kv) < 2 ^ 30 /\ readable (snd kv)) /\ P) True m
  | _ => True
  end.

(** Tokens of one character. *)
Definition punct (c : byte) : option TokenType :=
  match c with
  | Byte.x7b => Some tokenObjectBegin
  | Byte.x7d => Some tokenObjectEnd
  | Byte.x5b => Some tokenArrayBegin
  | Byte.x5d => Some tokenArrayEnd
  | Byte.x2c => Some tokenArraySeparator
  | Byte.x3a => Some tokenMemberSeparator
  | _ => None
  end.

(** *** Blanks *)

Abbreviation ascii := (fun s => Writer.valueToQuotedStringN s false).
Abbreviation lay := (layout white Real.real_text ascii).

Lemma is_white_space c : is_white c = is_space c.
Proof. by destruct c. Qed.

Lemma spaces_loop_white w l : white w -> spaces_loop (w ++ l) = spaces_loop l.
Proof.
  induction 1 as [|c w Hc Hw IH]; [done|]. cbn [app spaces_loop]. rewrite is_white_space in Hc.
  unfold is_space in Hc. by rewrite Hc.
Qed.

(** Blanks in front of a token do not matter. *)
Lemma readToken_blank f collect r w l : white w -> current_ r = w ++ l ->
  readToken f collect r = readToken f collect (set_current r l).
Proof.
  intros Hw E. unfold readToken, skipSpaces. rewrite !bind_modify. rewrite E, spaces_loop_white by done. done.
Qed.

Lemma stops_white w l : white w -> stops l -> stops (w ++ l).
Proof. intros [|c w' Hc Hw] Hl; [done|]. cbn. by do 3 right. Qed.

Lemma punct_token f collect r w c l ty : white w -> current_ r = w ++ c :: l -> punct c = Some ty ->
  readToken f collect r = (Ok (true, mkToken ty (c :: l) l), set_current r l).
Proof.
  intros Hw E H. rewrite (readToken_blank f collect r w (c :: l)) by done.
  destruct c; try discriminate; injection H as <-; by apply (readToken_run f collect (set_current r _)).
Qed.

Lemma pass_comments_run f collect ok t r : type_ t <> tokenComment ->
  pass_comments f collect ok t r = (Ok (ok, t), r).
Proof.
  intros H. unfold pass_comments, fuel_left. rewrite bind_gets. cbn [comments_loop].
  unfold is_type. by rewrite bool_decide_eq_false_2.
Qed.

Lemma skipCommentTokens_run f collect t r r' : readToken f collect r = (Ok (true, t), r') ->
  type_ t <> tokenComment -> skipCommentTokens f collect r = (Ok t, r').
Proof.
  intros E Ht. unfold skipCommentTokens. erewrite bind_run by exact E. cbv beta iota.
  destruct (allowComments_ f); [|done]. erewrite bind_run by (by apply pass_comments_run). done.
Qed.

Lemma readValue_run f collect n old r t r' x r'' :
  nodes_ r <= stackLimit_ f -> readToken f collect r = (Ok (true, t), r') -> type_ t <> tokenComment ->
  commentsBefore_ r' = [] -> read_switch f collect (readValue f collect n) old t r' = (Ok (true, x), r'') ->
  readValue f collect (S n) old r
  = (Ok x, if collect then set_last r'' (Some (current_ r'')) false else r'').
Proof.
  intros Hn Et Hc Hb Es. cbn [readValue]. rewrite bind_get, (proj2 (Z.ltb_ge _ _)) by done.
  erewrite bind_run by (by eapply skipCommentTokens_run). rewrite bind_get, Hb.
  rewrite bool_decide_eq_true_2, andb_false_r by done. rewrite bind_mret.
  erewrite bind_run by exact Es. by destruct collect.
Qed.

(** The reader [r] has moved to [rest]. *)
Definition reaches (r : OurReader) (rest : list byte) (r' : OurReader) : Prop :=
  exists l b, r' = set_last (set_current r rest) l b.

Lemma reaches_current r rest r' : reaches r rest r' -> current_ r' = rest.
Proof. by intros (l & b & ->). Qed.

Lemma reaches_trans r k r1 rest r2 : reaches r k r1 -> reaches r1 rest r2 -> reaches r rest r2.
Proof. intros (l & b & ->) (l' & b' & ->). by exists l', b'. Qed.

Lemma reaches_set r rest : reaches r rest (set_current r rest).
Proof. exists (lastValueEnd_ r), (lastValueHasAComment_ r). by destruct r. Qed.

(** [v] is read back wherever it is laid out. *)
Definition reads f collect (v : Value) : Prop := forall t, lay v t -> forall n w rest old r,
  white w -> readable v -> current_ r = w ++ t ++ rest -> stops rest -> commentsBefore_ r = [] ->
  nodes_ r + depth v - 1 <= stackLimit_ f -> depth v <= Z.of_nat n ->
  exists r', readValue f collect n old r = (Ok (true, normal v), r') /\ reaches r rest r'.

(** A value that one token makes up. *)
Lemma reads_token f collect v ty t :
  depth v = 1 -> token_text Real.real_text ascii v = Some t -> ty <> tokenComment ->
  (forall r rest, current_ r = t ++ rest -> stops rest -> readable v ->
     readToken f collect r = (Ok (true, mkToken ty (t ++ rest) rest), set_current r rest)
     /\ forall rv old, read_switch f collect rv old (mkToken ty (t ++ rest) rest) (set_current r rest)
          = (Ok (true, (true, normal v)), set_current r rest)) ->
  reads f collect v.
Proof.
  intros Hd Ht Hty H t' Ht' [|n] w rest old r Hw Hv E Hs Hb Hn Hf; [rewrite Hd in Hf; lia|].
  assert (t' = t) as ->.
  { destruct Ht' as [? ? Ht'| |]; [|discriminate..]. rewrite Ht in Ht'. by injection Ht'. }
  destruct (H (set_current r (t ++ rest)) rest eq_refl Hs Hv) as [Et Es]. eexists. split.
  - eapply readValue_run; [lia|by rewrite (readToken_blank f collect r w (t ++ rest))|done|done|apply Es].
  - destruct collect; [by do 2 eexists|exact (reaches_set r rest)].
Qed.

Lemma literal_token f collect r c l t ty rest : current_ r = c :: t ++ rest -> is_space c = false ->
  l = c :: t ++ rest -> token_of f collect c l = (ok ← match_ t; mret (ty, ok)) ->
  readToken f collect r = (Ok (true, mkToken ty l rest), set_current r rest).
Proof.
  intros E Hs -> Ht. apply readToken_run; [done|done|]. rewrite Ht.
  unfold match_. rewrite bind_assoc, bind_get. cbn [current_ set_current]. rewrite zlen_app.
  pose proof (zlen_nonneg rest). rewrite (proj2 (Z.ltb_ge _ _)) by lia.
  rewrite bool_decide_eq_true_2 by apply take_app_length. rewrite drop_app_length. reflexivity.
Qed.

Lemma reads_null f collect : reads f collect nullValue.
Proof.
  eapply (reads_token f collect nullValue tokenNull); [done..|]. intros r rest E Hs _.
  split; [|done]. by apply (literal_token f collect r Byte.x6e _ (bs "ull")).
Qed.

Lemma reads_bool f collect b : reads f collect (booleanValue b).
Proof.
  destruct b.
  - eapply (reads_token f collect _ tokenTrue); [done..|]. intros r rest E Hs _.
    split; [|done]. by apply (literal_token f collect r Byte.x74 _ (bs "rue")).
  - eapply (reads_token f collect _ tokenFalse); [done..|]. intros r rest E Hs _.
    split; [|done]. by apply (literal_token f collect r Byte.x66 _ (bs "alse")).
Qed.

Lemma reads_string f collect s : reads f collect (stringValue s).
Proof.
  eapply (reads_token f collect _ tokenString); [done..|]. intros r rest E Hs ((cps & Hc & ->) & Hl). split.
  - by apply quoted_token.
  - intros rv old. cbn [read_switch type_]. unfold read_switch. cbn [type_]. unfold decodeString_value.
    rewrite bind_assoc. erewrite bind_run by (by apply decodeString_quoted). cbv iota. by rewrite string_value_ok.
Qed.

Lemma reads_int f collect n : reads f collect (intValue n).
Proof.
  eapply (reads_token f collect _ tokenNumber); [done..|]. intros r rest E Hs Hn. cbn [readable] in Hn.
  destruct (Writer.valueToString_int_ok n Hn) as (d & Et & Ed & Hd & Hne). rewrite Et in *.
  cbn [Writer.text_of] in *. split; [by apply (number_token f collect r (n <? 0))|].
  intros rv old. unfold read_switch. cbn [type_].
  destruct (decode_int n rest (set_current r rest) Hn) as (t & Et' & Edec). rewrite Et in Et'. injection Et' as <-.
  erewrite bind_run by exact Edec. done.
Qed.

Lemma reads_uint f collect n : reads f collect (uintValue n).
Proof.
  eapply (reads_token f collect _ tokenNumber); [done..|]. intros r rest E Hs Hn. cbn [readable] in Hn.
  destruct (Writer.uintToString_ok n Hn) as (d & Et & Ed & Hd & Hne & _). unfold Writer.valueToString_uint in *. rewrite Et in *.
  cbn [Writer.text_of] in *. split; [by apply (number_token f collect r false)|].
  intros rv old. unfold read_switch. cbn [type_].
  destruct (decode_uint n rest (set_current r rest) Hn) as (t & Et' & Edec). unfold Writer.valueToString_uint in Et'.
  rewrite Et in Et'. injection Et' as <-. erewrite bind_run by exact Edec. done.
Qed.

(** *** Doubles *)

(** The text of a double is one token ... *)
Lemma number_end_text w f y rest : DoubleRound.digits w -> DoubleRound.digits f -> (match y with Some y => Z.abs y < 1000 | None => True end) -> stops rest ->
  number_end (w ++ DoubleRound.point f ++ DoubleRound.ex y ++ rest) = rest.
Proof.
  intros Hw Hf Hy Hs.
  assert (match rest with c :: _ => Double.is_digit c = false | [] => True end) as Hr by (destruct rest; [done|by eapply stops_digit]).
  assert (match DoubleRound.ex y ++ rest with c :: _ => Double.is_digit c = false | [] => True end) as He by by destruct y.
  unfold number_end. rewrite digits_loop_stop; [|done|by destruct f].
  assert (match accept (fun c => eqc c Byte.x2e) (DoubleRound.point f ++ DoubleRound.ex y ++ rest) with
          | Some l' => digits_loop l' | None => DoubleRound.point f ++ DoubleRound.ex y ++ rest end = DoubleRound.ex y ++ rest) as ->.
  { destruct f as [|c f]; [|by apply (digits_loop_stop (c :: f))]. cbn [DoubleRound.point app]. destruct y as [y|]; [done|].
    destruct rest as [|c rest]; [done|]. destruct Hs as [->|[->|[->|Hs]]]; [done..|]. by destruct c. }
  destruct y as [y|]; cbn [DoubleRound.ex app].
  - destruct (DoubleRound.exponent_digits y Hy) as (e & Hd & _ & _ & ->).
    destruct (y <? 0); cbn [app accept]; by apply (digits_loop_stop e).
  - destruct rest as [|c rest]; [done|]. destruct Hs as [->|[->|[->|Hs]]]; [done..|]. by destruct c.
Qed.

(** ... and no integer. *)
Lemma number_loop_mark th m c k : Double.is_digit c = false -> forall w v, Forall (fun b => Double.is_digit b = true) w ->
  number_loop th m v (w ++ c :: k) = None.
Proof.
  intros Hc w v Hw. revert v. induction Hw as [|b w Hb _ IH]; intros v; cbn [app number_loop]; [by rewrite Hc|].
  rewrite Hb. cbn [negb]. destruct (_ && _); [done|]. apply IH.
Qed.

Lemma marked_tail f y : DoubleRound.marked f y -> exists c k, DoubleRound.point f ++ DoubleRound.ex y = c :: k /\ Double.is_digit c = false.
Proof. intros Hk. destruct f as [|b f]; [destruct Hk as [|[z ->]]; [done|]|]; eexists _, _; by split. Qed.

Lemma decode_real d rest r : DoubleRound.canonical d ->
  decodeNumber (mkToken tokenNumber (Double.valueToString_double d ++ rest) rest) r = (Ok (Some (realValue (Real.finite d))), r).
Proof.
  intros Hd. unfold decodeNumber, decodeDouble, text_between. cbn [start_ end_]. rewrite between_app, DoubleRound.double_roundtrip by done.
  destruct (DoubleRound.double_text d Hd) as (w & f & y & Et & (Hw & Hne & _) & Hk). destruct (marked_tail f y Hk) as (c & k & Ec & Hc).
  assert (forall th m, number_loop th m 0 (w ++ c :: k) = None) as Hn by (intros; by apply number_loop_mark).
  rewrite Et. unfold DoubleRound.text. rewrite Ec. destruct (Double.sign d).
  - change (eqc Byte.x2d Byte.x2d) with true. cbn [app drop]. by rewrite Hn.
  - destruct w as [|b w]; [done|]. destruct (DoubleRound.digit_not_sign b (Forall_inv Hw)) as [Hm _].
    assert (eqc b Byte.x2d = false) as Hb by (unfold eqc; by apply bool_decide_eq_false). cbn [app] in *. rewrite Hb. by rewrite Hn.
Qed.

Lemma reads_real f collect t : reads f collect (realValue t).
Proof.
  eapply (reads_token f collect _ tokenNumber); [done..|]. intros r rest E Hs (d & Hd & ->).
  change (Real.real_text (Real.finite d)) with (Double.valueToString_double d) in *.
  destruct (DoubleRound.double_text d Hd) as (w & fr & y & Et & Hw & Hk). split.
  - rewrite Et in *. destruct Hw as (Hw & Hne & Hf & Hy). destruct w as [|b w]; [done|]. unfold DoubleRound.text in *.
    apply (number_token_to f collect r (Double.sign d) b (w ++ DoubleRound.point fr ++ DoubleRound.ex y) rest); [by apply (Forall_inv Hw)| |done].
    rewrite <- !app_assoc. apply number_end_text; try done. by apply Forall_inv_tail in Hw.
  - intros rv old. unfold read_switch. cbn [type_]. erewrite bind_run by (by apply decode_real). done.
Qed.

(** *** Arrays *)

(** A layout starts with a character that is neither a space nor a bracket's end. *)
Lemma layout_head v t : readable v -> lay v t ->
  exists c t', t = c :: t' /\ is_space c = false /\ eqc c Byte.x5d = false /\ c <> Byte.xef.
Proof.
  assert (forall d, Forall Writer.is_digit d -> d <> [] ->
    exists c t, d = c :: t /\ is_space c = false /\ eqc c Byte.x5d = false /\ c <> Byte.xef) as Hdig.
  { intros [|c d] Hd Hne; [done|]. pose proof (Forall_inv Hd) as Hc. apply is_digit_bool in Hc.
    exists c, d. split; [done|]. apply digit_cases in Hc.
    repeat (apply elem_of_cons in Hc as [->|Hc]; [done|]). by apply elem_of_nil in Hc. }
  intros Hv Hl. revert Hv. destruct Hl as [v' t' Ht|l us w Hus Hw|m us w Hus Hw]; intros Hv; [|by do 2 eexists..].
  destruct v' as [|n|n|x|x|b|l|m]; try discriminate; injection Ht as <-; cbn [readable] in Hv; try contradiction; try by do 2 eexists.
  - destruct (Writer.valueToString_int_ok n Hv) as (d & -> & _ & Hd & Hne). cbn [Writer.text_of].
    destruct (n <? 0); [by do 2 eexists|by apply Hdig].
  - destruct (Writer.uintToString_ok n Hv) as (d & E & _ & Hd & Hne & _). unfold Writer.valueToString_uint. rewrite E. by apply Hdig.
  - destruct Hv as (d & Hd & ->). change (Real.real_text (Real.finite d)) with (Double.valueToString_double d).
    destruct (DoubleRound.double_text d Hd) as (w & f & y & -> & (Hw & Hne & _) & _). unfold DoubleRound.text.
    destruct (Double.sign d); [by do 2 eexists|]. destruct (Hdig w) as (c & t & -> & Hc); [by apply digits_bool|done|]. by do 2 eexists.
  - destruct Hv as ((cps & Hc & ->) & _). cbv beta. rewrite quoted_encode by done. by do 2 eexists.
  - by destruct b; do 2 eexists.
Qed.

Section nested.
Context (f : OurFeatures) (collect : bool) (n : nat).

(** One level down. *)
Lemma nested_value v t w old r rest :
  reads f collect v -> lay v t -> white w -> readable v -> current_ r = w ++ t ++ rest -> stops rest -> commentsBefore_ r = [] ->
  nodes_ r + depth v <= stackLimit_ f -> depth v <= Z.of_nat n ->
  exists r1, reaches r rest r1 /\ nodes_ r1 = nodes_ r
    /\ readValue f collect n old (set_nodes r (nodes_ r + 1)) = (Ok (true, normal v), set_nodes r1 (nodes_ r1 + 1)).
Proof.
  intros Hv Ht Hw Hr E Hs Hb Hn Hd.
  destruct (Hv t Ht n w rest old (set_nodes r (nodes_ r + 1)) Hw Hr E Hs Hb ltac:(cbn; lia) Hd) as (r' & Er & (l & b & ->)).
  exists (set_last (set_current r rest) l b). split; [by do 2 eexists|]. by split.
Qed.

(** And up again. *)
Lemma pop_push {A} r (k : unit -> R A) : (pop ≫= k) (set_nodes r (nodes_ r + 1)) = k tt r.
Proof.
  unfold pop. rewrite bind_modify. f_equal. destruct r. unfold set_nodes. cbn. f_equal. lia.
Qed.

Lemma push_run {A} r (k : unit -> R A) : (push ≫= k) r = k tt (set_nodes r (nodes_ r + 1)).
Proof. done. Qed.

(** Behind the text [u] of an element: a comma and the others, or the end. *)
Definition behind (us : list (list byte)) (close : list byte) : list byte :=
  match us with [] => close | _ => Byte.x2c :: Writer.join (bs ",") us ++ close end.

Lemma join_behind u us close : Writer.join (bs ",") (u :: us) ++ close = u ++ behind us close.
Proof.
  destruct us as [|u' us]; [cbn; by rewrite app_nil_r|]. rewrite Writer.join_cons, <- !app_assoc. done.
Qed.

Lemma stops_behind us w c rest : white w -> stops (c :: rest) -> stops (behind us (w ++ c :: rest)).
Proof. intros Hw Hc. destruct us; [by apply stops_white|by left]. Qed.

Lemma array_loop_run w l us : white w -> l <> [] -> Forall2 (fun v => padded white (lay v)) l us ->
  Forall (reads f collect) l -> forall k elems r rest,
  Forall readable l -> current_ r = Writer.join (bs ",") us ++ w ++ Byte.x5d :: rest ->
  commentsBefore_ r = [] -> Forall (fun v => nodes_ r + depth v <= stackLimit_ f /\ depth v <= Z.of_nat n) l ->
  zlen elems + zlen l < 2 ^ 31 -> (length l <= k)%nat ->
  exists r', array_loop f collect (readValue f collect n) k elems r
    = (Ok (true, arrayValue (elems ++ map normal l)), r') /\ reaches r rest r'.
Proof.
  intros Hw Hne Hus. induction Hus as [|v u l us Hu Hus IH]; [done|]. intros Hl [|k] elems r rest Hr E Hb Hd Hz Hk; [cbn in Hk; lia|].
  apply Forall_cons in Hl as [Hv Hl]. apply Forall_cons in Hr as [Hrv Hr]. apply Forall_cons in Hd as [[Hd1 Hd2] Hd].
  rewrite zlen_cons in Hz. pose proof (zlen_nonneg l).
  destruct Hu as (a & t & b & Ha & Hb' & Ht & ->). rewrite join_behind, <- !app_assoc in E.
  set (rest1 := b ++ behind us (w ++ Byte.x5d :: rest)) in *.
  assert (stops rest1) as Hs1 by (apply stops_white; [done|]; apply stops_behind; cbn; auto).
  cbn [array_loop]. destruct (layout_head v t Hrv Ht) as (c & t' & Ec & Hsp & Hnb & _).
  assert (skipSpaces r = (Ok tt, set_current r (t ++ rest1))) as Esk.
  { unfold skipSpaces, modify. rewrite E, spaces_loop_white, Ec by done. cbn [app spaces_loop]. unfold is_space in Hsp. by rewrite Hsp. }
  erewrite bind_run by exact Esk. rewrite bind_get. cbv beta. cbn [current_ set_current]. rewrite Ec. cbn [app]. rewrite Hnb. cbn [andb].
  rewrite (proj2 (Z.leb_gt _ _)) by lia. change (c :: t' ++ rest1) with ((c :: t') ++ rest1). rewrite <- Ec.
  destruct (nested_value v t [] nullValue (set_current r (t ++ rest1)) rest1 Hv Ht ltac:(constructor) Hrv eq_refl Hs1 Hb Hd1 Hd2) as (r1 & Hr1 & Hn1 & En).
  rewrite push_run. erewrite bind_run by exact En. cbv beta iota. rewrite pop_push. cbn [negb].
  pose proof (reaches_current _ _ _ Hr1) as Ec1. apply (reaches_trans r _ _ _ _ (reaches_set r (t ++ rest1))) in Hr1.
  destruct us as [|u' us]; unfold rest1 in Ec1; cbn [behind] in Ec1.
  - apply Forall2_nil_inv_r in Hus as ->. rewrite app_assoc in Ec1.
    erewrite bind_run by (eapply punct_token; [by apply (white_app b w)|exact Ec1|reflexivity]).
    cbv beta iota. erewrite bind_run by (by apply pass_comments_run). cbn. eexists. split; [done|].
    eapply reaches_trans; [exact Hr1|apply reaches_set].
  - erewrite bind_run by (eapply punct_token; [exact Hb'|exact Ec1|reflexivity]).
    cbv beta iota. erewrite bind_run by (by apply pass_comments_run). cbv beta iota. cbn [type_].
    change (is_type tokenArraySeparator tokenArraySeparator) with true. change (is_type tokenArraySeparator tokenArrayEnd) with false.
    cbn [negb orb andb]. cbv iota. destruct Hr1 as (lv & lb & ->). destruct l as [|v' l]; [by apply Forall2_nil_cons_inv in Hus|].
    edestruct (IH ltac:(done) Hl k (elems ++ [normal v]) (set_current (set_last (set_current r rest1) lv lb)
      (Writer.join (bs ",") (u' :: us) ++ w ++ Byte.x5d :: rest)) rest) as (r2 & E2 & Hr2); [done|reflexivity|exact Hb|exact Hd| |cbn in *; lia|].
    { rewrite zlen_app. change (zlen [normal v]) with 1. lia. }
    exists r2. rewrite E2. split; [by rewrite <- app_assoc|].
    eapply reaches_trans; [|exact Hr2]. by do 2 eexists.
Qed.

(** A key beyond all keys so far goes to the end. *)
Lemma sorted_before k x m acc : forall k' v', sorted ((k', v') :: acc ++ (k, x) :: m) -> key_ltb k' k = true.
Proof.
  induction acc as [|[k2 v2] acc IH]; intros k' v' Hs; apply sorted_iff in Hs as [Ha Hs]; [done|].
  eapply key_ltb_trans; [exact Ha|]. by eapply IH.
Qed.

Lemma put_last k x y acc m : sorted (acc ++ (k, x) :: m) -> put k y acc = acc ++ [(k, y)] /\ find k acc = None.
Proof.
  induction acc as [|[k' v'] acc IH]; intros Hs; [done|]. cbn [app] in Hs.
  pose proof (sorted_before _ _ _ _ _ _ Hs) as Hk. destruct (IH (sorted_tail _ _ Hs)) as [Hp Hf].
  cbn. rewrite Hk, Hp. split; [done|]. rewrite bool_decide_eq_false_2; [done|]. intros ->. by rewrite key_ltb_irrefl in Hk.
Qed.

Definition normal_member (kv : list byte * Value) : list byte * Value := (fst kv, normal (snd kv)).

Definition readable_member (kv : list byte * Value) : Prop :=
  utf8 (fst kv) /\ zlen (fst kv) < 2 ^ 30 /\ readable (snd kv).

(** A name, its colon and the value behind it: one round of the loop up to the token
    that follows. *)
Lemma object_round k name acc r cps v a b c x rest1 :
  Forall scalar_value cps -> zlen (encode cps) < 2 ^ 30 -> find (encode cps) acc = None ->
  white a -> white b -> white c -> reads f collect v -> lay v x -> readable v -> stops rest1 ->
  current_ r = a ++ ascii (encode cps) ++ b ++ bs ":" ++ c ++ x ++ rest1 -> commentsBefore_ r = [] ->
  nodes_ r + depth v <= stackLimit_ f -> depth v <= Z.of_nat n ->
  exists r1, reaches r rest1 r1
    /\ object_loop f collect (readValue f collect n) (S k) name acc r
       = ('(commaOk, comma) ← readToken f collect;
          if negb commaOk
             || negb (is_type (type_ comma) tokenObjectEnd)
                && negb (is_type (type_ comma) tokenArraySeparator)
                && negb (is_type (type_ comma) tokenComment)
          then
            ok ← addErrorAndRecover f collect (bs "Missing ',' or '}' in object declaration") comma tokenObjectEnd;
            mret (ok, objectValue (put (encode cps) (normal v) acc))
          else
            '(_, comma) ← pass_comments f collect true comma;
            if is_type (type_ comma) tokenObjectEnd then mret (true, objectValue (put (encode cps) (normal v) acc))
            else object_loop f collect (readValue f collect n) k (encode cps) (put (encode cps) (normal v) acc)) r1.
Proof.
  intros Hc Hz Hfind Ha Hb Hwc Hv Hx Hrv Hs1 E Hcb Hd1 Hd2.
  pose proof (quoted_token f collect cps (set_current r (ascii (encode cps) ++ b ++ bs ":" ++ c ++ x ++ rest1)) _ Hc eq_refl) as Eq.
  cbv beta in Eq, E. rewrite <- (readToken_blank f collect r a _ Ha E) in Eq.
  cbn [object_loop]. erewrite bind_run by exact Eq. cbv beta iota. cbn [negb].
  erewrite bind_run by (by apply pass_comments_run). cbv beta iota. cbn [negb type_].
  change (is_type tokenString tokenObjectEnd) with false. cbn [andb]. cbv iota.
  set (r1 := set_current _ (b ++ bs ":" ++ c ++ x ++ rest1)).
  match goal with |- context [read_name f ?t] => assert (read_name f t r1 = (Ok (Some (Some (encode cps))), r1)) as Enm end.
  { unfold read_name. cbn [type_]. change (is_type tokenString tokenString) with true. cbv iota.
    erewrite bind_run by (by apply decodeString_quoted). done. }
  erewrite bind_run by exact Enm. cbv beta iota. rewrite (proj2 (Z.leb_gt _ _)) by done.
  rewrite Hfind, bool_decide_eq_false_2, andb_false_r by (by intros [? ?]). cbv iota.
  erewrite bind_run by (eapply (punct_token f collect r1 b); [done|reflexivity|reflexivity]). cbv beta iota. cbn [negb type_ orb].
  change (is_type tokenMemberSeparator tokenMemberSeparator) with true. cbn [negb]. cbv iota.
  set (r2 := set_current r1 (c ++ x ++ rest1)).
  destruct (nested_value v x c nullValue r2 rest1 Hv Hx Hwc Hrv eq_refl Hs1 Hcb Hd1 Hd2) as (r3 & Hr3 & Hn3 & En).
  rewrite push_run. cbn [default from_option]. erewrite bind_run by exact En. cbv beta iota. rewrite pop_push. cbn [negb].
  exists r3. split; [|done]. destruct Hr3 as (lv & lb & ->). by do 2 eexists.
Qed.

Lemma object_loop_run w m us : white w -> m <> [] -> Forall2 (member_of white ascii lay) m us ->
  Forall (fun kv => reads f collect (snd kv)) m -> forall k name acc r rest,
  Forall readable_member m -> sorted (acc ++ map normal_member m) ->
  current_ r = Writer.join (bs ",") us ++ w ++ Byte.x7d :: rest ->
  commentsBefore_ r = [] ->
  Forall (fun kv => nodes_ r + depth (snd kv) <= stackLimit_ f /\ depth (snd kv) <= Z.of_nat n) m ->
  (length m <= k)%nat ->
  exists r', object_loop f collect (readValue f collect n) k name acc r
    = (Ok (true, objectValue (acc ++ map normal_member m)), r') /\ reaches r rest r'.
Proof.
  intros Hw Hne Hus. induction Hus as [|[key v] u m us Hu Hus IH]; [done|].
  intros Hl [|k] name acc r rest Hr Hso E Hb Hd Hk; [cbn in Hk; lia|]. apply Forall_cons in Hl as [Hv Hl].
  apply Forall_cons in Hr as [((cps & Hc & Ekey) & Hz & Hrv) Hr]. apply Forall_cons in Hd as [[Hd1 Hd2] Hd]. cbn [fst snd] in *. subst key.
  destruct Hu as (? & ? & -> & (a & ? & b & Ha & Hb1 & <- & ->) & (c & x & d & Hc1 & Hd' & Hx & ->)). cbn [fst snd] in *.
  rewrite join_behind, <- !app_assoc in E. set (rest1 := d ++ behind us (w ++ Byte.x7d :: rest)) in *.
  assert (stops rest1) as Hs1 by (apply stops_white; [done|]; apply stops_behind; cbn; auto).
  destruct (put_last (encode cps) (normal v) (normal v) acc _ Hso) as [Hput Hfind].
  destruct (object_round k name acc r cps v a b c x rest1) as (r3 & Hr3 & ->); try done. rewrite Hput.
  pose proof (reaches_current _ _ _ Hr3) as Ec3. destruct us as [|u' us]; unfold rest1 in Ec3; cbn [behind] in Ec3.
  - apply Forall2_nil_inv_r in Hus as ->. rewrite app_assoc in Ec3.
    erewrite bind_run by (eapply punct_token; [by apply (white_app d w)|exact Ec3|reflexivity]). cbv beta iota. cbn [negb orb andb type_].
    change (is_type tokenObjectEnd tokenObjectEnd) with true. cbn [negb orb andb]. cbv iota.
    erewrite bind_run by (by apply pass_comments_run). cbv beta iota. cbn [type_].
    change (is_type tokenObjectEnd tokenObjectEnd) with true. cbv iota. eexists. split; [done|].
    eapply reaches_trans; [exact Hr3|apply reaches_set].
  - erewrite bind_run by (eapply punct_token; [exact Hd'|exact Ec3|reflexivity]). cbv beta iota. cbn [negb orb andb type_].
    change (is_type tokenArraySeparator tokenObjectEnd) with false.
    change (is_type tokenArraySeparator tokenArraySeparator) with true. cbn [negb orb andb]. cbv iota.
    erewrite bind_run by (by apply pass_comments_run). cbv beta iota. cbn [type_].
    change (is_type tokenArraySeparator tokenObjectEnd) with false. cbv iota. destruct Hr3 as (lv & lb & ->).
    destruct m as [|kv m]; [by apply Forall2_nil_cons_inv in Hus|].
    edestruct (IH ltac:(done) Hl k (encode cps) (acc ++ [(encode cps, normal v)]) (set_current (set_last (set_current r rest1) lv lb)
      (Writer.join (bs ",") (u' :: us) ++ w ++ Byte.x7d :: rest)) rest) as (r4 & E4 & Hr4);
      [done|by rewrite <- app_assoc|reflexivity|exact Hb|exact Hd|cbn in *; lia|].
    exists r4. rewrite E4. split; [by rewrite <- app_assoc|].
    eapply reaches_trans; [|exact Hr4]. by do 2 eexists.
Qed.
End nested.

Lemma depth_pos v : 1 <= depth v.
Proof.
  destruct v as [|n|n|t|s|b|l|m]; cbn; try lia.
  - induction l as [|v l IH]; cbn; lia.
  - induction m as [|kv m IH]; cbn; lia.
Qed.

Lemma depth_elems {A} (g : A -> Value) l :
  Forall (fun x => depth (g x) <= fold_right (fun x d => Z.max (depth (g x)) d) 0 l) l.
Proof.
  induction l as [|x l IH]; constructor; cbn; [lia|]. eapply Forall_impl; [exact IH|]. cbn. intros. lia.
Qed.

Lemma readable_elems l : readable (arrayValue l) -> zlen l < 2 ^ 31 - 1 /\ Forall readable l.
Proof. cbn. by rewrite fold_Forall. Qed.

Lemma readable_members m : readable (objectValue m) -> sorted m /\ Forall readable_member m.
Proof. cbn. by rewrite (fold_Forall readable_member). Qed.

Lemma sorted_map (g : Value -> Value) m : sorted m -> sorted (map (fun kv => (fst kv, g (snd kv))) m).
Proof.
  induction m as [|[k v] m IH]; intros Hs; cbn; [constructor|]. apply sorted_iff in Hs as [Ha Hs].
  apply sorted_iff. split; [|by apply IH]. by destruct m as [|[k' v'] m].
Qed.

(** [readArray] and [readObject] behind the opening bracket. *)
Lemma reads_nested f collect v c t ty (X : (Value -> R (bool * Value)) -> R (bool * Value)) :
  punct c = Some ty -> ty <> tokenComment ->
  (forall rv old tok, type_ tok = ty -> read_switch f collect rv old tok = (x ← X rv; mret (true, x))) ->
  (forall n r rest, readable v -> current_ r = t ++ rest -> stops rest -> commentsBefore_ r = [] ->
     nodes_ r + depth v - 1 <= stackLimit_ f -> depth v <= Z.of_nat n + 1 ->
     exists r', X (readValue f collect n) r = (Ok (true, normal v), r') /\ reaches r rest r') ->
  forall n w rest old r, white w -> readable v -> current_ r = w ++ (c :: t) ++ rest -> stops rest -> commentsBefore_ r = [] ->
  nodes_ r + depth v - 1 <= stackLimit_ f -> depth v <= Z.of_nat n ->
  exists r', readValue f collect n old r = (Ok (true, normal v), r') /\ reaches r rest r'.
Proof.
  intros Hp Hty Hsw H [|n] w rest old r Hw Hv E Hs Hb Hn Hf; [pose proof (depth_pos v); lia|].
  pose proof (punct_token f collect r w c (t ++ rest) ty Hw E Hp) as Et.
  destruct (H n (set_current r (t ++ rest)) rest Hv eq_refl Hs Hb Hn ltac:(lia)) as (r' & Er & Hr).
  eexists. split.
  - eapply (readValue_run f collect n old r _ _ _ r'); [pose proof (depth_pos v); lia|exact Et|done|done|].
    rewrite Hsw by done. by erewrite bind_run by exact Er.
  - apply (reaches_trans r (t ++ rest) (set_current r (t ++ rest))); [apply reaches_set|].
    destruct Hr as (l & b & ->). destruct collect; by do 2 eexists.
Qed.

(** Every element takes at least one character, so the fuel is enough. *)
Lemma join_length sep ts : Forall (fun t => t <> []) ts -> (length ts <= length (Writer.join sep ts))%nat.
Proof.
  induction 1 as [|t ts Ht Hts IH]; [done|]. assert (1 <= length t)%nat by (destruct t; [done|cbn; lia]).
  destruct ts as [|u ts]; [cbn; rewrite app_nil_r; lia|]. rewrite Writer.join_cons, !length_app. cbn [length] in *. lia.
Qed.

Lemma join_fuel {A} (P : A -> list byte -> Prop) l us (r : OurReader) rest :
  Forall2 P l us -> (forall x u, x ∈ l -> P x u -> u <> []) -> current_ r = Writer.join (bs ",") us ++ rest ->
  (length l <= S (S (length (current_ r))))%nat.
Proof.
  intros Hus Hne E. rewrite E, length_app, (Forall2_length _ _ _ Hus). pose proof (join_length (bs ",") us) as H.
  enough (Forall (fun t => t <> []) us) by (specialize (H ltac:(done)); lia). clear -Hus Hne.
  induction Hus as [|x u l us Hu Hus IH]; constructor.
  - apply (Hne x); [by left|done].
  - apply IH. intros y v Hy. apply Hne. by right.
Qed.

Lemma padded_ne P u : padded white P u -> (forall t, P t -> t <> []) -> u <> [].
Proof. intros (a & t & b & _ & _ & Ht & ->) H. specialize (H t Ht). by destruct a, t. Qed.

Lemma array_loop_end f collect rv k r w rest : white w -> current_ r = w ++ Byte.x5d :: rest ->
  array_loop f collect rv (S k) [] r = (Ok (true, arrayValue []), set_current r rest).
Proof.
  intros Hw E. cbn [array_loop]. erewrite bind_run by (unfold skipSpaces, modify; rewrite E, spaces_loop_white by done; reflexivity).
  rewrite bind_get. cbv beta. cbn [current_ set_current spaces_loop].
  change (eqc Byte.x5d Byte.x20 || eqc Byte.x5d Byte.x09 || eqc Byte.x5d Byte.x0d || eqc Byte.x5d Byte.x0a) with false.
  cbv iota. change (eqc Byte.x5d Byte.x5d) with true. rewrite bool_decide_eq_true_2 by done. cbn [andb orb]. cbv iota.
  by erewrite bind_run by (eapply (punct_token _ _ _ []); [constructor|reflexivity|reflexivity]).
Qed.

Lemma reads_array f collect l : Forall (reads f collect) l -> reads f collect (arrayValue l).
Proof.
  intros Hl t Ht. inversion Ht as [|? us w Hus Hw|]; [discriminate|]; subst. cbn [bs app].
  apply (reads_nested f collect (arrayValue l) Byte.x5b (Writer.join (bs ",") us ++ w ++ bs "]") tokenArrayBegin (readArray f collect));
    [done..|intros rv old tok E; unfold read_switch; by rewrite E|].
  intros n r rest Hv E Hs Hb Hn Hd. apply readable_elems in Hv as [Hz Hr]. unfold readArray, fuel_left. rewrite bind_gets.
  rewrite <- !app_assoc in E. destruct (decide (l = [])) as [->|Hne].
  - apply Forall2_nil_inv_l in Hus as ->. eexists. split; [exact (array_loop_end _ _ _ _ _ _ _ Hw E)|apply reaches_set].
  - pose proof (depth_elems (fun x => x) l) as He. cbn [depth] in Hn, Hd.
    destruct (array_loop_run f collect n w l us Hw Hne Hus Hl (S (S (length (current_ r)))) [] r rest) as (r' & Er & Hr');
      [done|exact E|done| |change (zlen []) with 0; lia| |by exists r'].
    + eapply Forall_impl; [exact He|]. cbn beta. intros x Hx. split; lia.
    + eapply join_fuel; [exact Hus| |exact E]. intros x u Hx Hu. eapply padded_ne; [exact Hu|]. intros t' Ht'.
      rewrite Forall_forall in Hr. by destruct (layout_head x t' (Hr x Hx) Ht') as (c & t'' & -> & _).
Qed.

Lemma object_loop_end f collect rv k r w rest : white w -> current_ r = w ++ Byte.x7d :: rest ->
  object_loop f collect rv (S k) [] [] r = (Ok (true, objectValue []), set_current r rest).
Proof.
  intros Hw E. cbn [object_loop]. erewrite bind_run by (by eapply punct_token). cbv beta iota. cbn [negb].
  erewrite bind_run by (by apply pass_comments_run). cbv beta iota. cbn [negb type_].
  change (is_type tokenObjectEnd tokenObjectEnd) with true. by rewrite bool_decide_eq_true_2.
Qed.

Lemma reads_object f collect m : Forall (fun kv => reads f collect (snd kv)) m -> reads f collect (objectValue m).
Proof.
  intros Hl t Ht. inversion Ht as [| |? us w Hus Hw]; [discriminate|]; subst. cbn [bs app].
  apply (reads_nested f collect (objectValue m) Byte.x7b (Writer.join (bs ",") us ++ w ++ bs "}") tokenObjectBegin (readObject f collect));
    [done..|intros rv old tok E; unfold read_switch; by rewrite E|].
  intros n r rest Hv E Hs Hb Hn Hd. apply readable_members in Hv as [Hso Hr]. unfold readObject, fuel_left. rewrite bind_gets.
  rewrite <- !app_assoc in E. destruct (decide (m = [])) as [->|Hne].
  - apply Forall2_nil_inv_l in Hus as ->. eexists. split; [exact (object_loop_end _ _ _ _ _ _ _ Hw E)|apply reaches_set].
  - pose proof (depth_elems snd m) as He. cbn [depth] in Hn, Hd.
    destruct (object_loop_run f collect n w m us Hw Hne Hus Hl (S (S (length (current_ r)))) [] [] r rest) as (r' & Er & Hr');
      [done|by apply (sorted_map normal)|exact E|done| | |by exists r'].
    + eapply Forall_impl; [exact He|]. cbn beta. intros x Hx. split; lia.
    + eapply join_fuel; [exact Hus| |exact E]. intros x u Hx (k & y & -> & _). by destruct k.
Qed.

Lemma reads_all f collect v : reads f collect v.
Proof.
  induction v using Value_rect_nested; auto using reads_null, reads_int, reads_uint, reads_real, reads_string, reads_bool, reads_array, reads_object.
Qed.

Lemma readable_fits v : readable v -> Writer.fits v.
Proof.
  induction v as [|n|n|t|s|b|l IH|m IH] using Value_rect_nested; try done.
  - intros [Hz Hr]%readable_elems. cbn. rewrite fold_Forall. split; [lia|].
    apply Forall_forall. intros x Hx. by apply (proj1 (Forall_forall _ _) IH), (proj1 (Forall_forall _ _) Hr).
  - intros [Hs Hr]%readable_members. cbn. rewrite (fold_Forall (fun kv : list byte * Value => Writer.fits (snd kv))).
    apply Forall_forall. intros x Hx. apply (proj1 (Forall_forall _ _) IH); [done|]. by apply (proj1 (Forall_forall _ _) Hr).
Qed.

(** ** Documents *)

Lemma end_token f collect r w : white w -> current_ r = w ->
  readToken f collect r = (Ok (true, mkToken tokenEndOfStream [] []), set_current r []).
Proof.
  intros Hw E. rewrite (readToken_blank f collect r w []) by (by rewrite ?app_nil_r). by destruct r.
Qed.

(** A layout between blanks is no byte order mark. *)
Lemma no_bom v a t b : readable v -> lay v t -> white a -> take 3 (a ++ t ++ b) <> [Byte.xef; Byte.xbb; Byte.xbf].
Proof.
  intros Hv Ht Ha. destruct Ha as [|c a Hc Ha].
  - destruct (layout_head v t Hv Ht) as (c & t' & -> & _ & _ & Hb). by intros [= ->].
  - by intros [= ->].
Qed.

Lemma parse_layout f collect v root a t b : lay v t -> white a -> white b -> readable v -> depth v <= stackLimit_ f ->
  (strictRoot_ f = true -> isArray v || isObject v = true) ->
  exists r, parse f collect root (new_reader (a ++ t ++ b)) = (Ok (true, normal v), r) /\ errors_ r = [].
Proof.
  intros Ht Ha Hb Hv Hd Hst. pose proof (depth_pos v) as Hp. unfold parse. rewrite bind_gets, push_run.
  set (r0 := set_nodes (new_reader (a ++ t ++ b)) 1).
  assert (skipBom (skipBom_ f) r0 = (Ok tt, r0)) as Eb.
  { unfold skipBom, modify. cbn [begin_ r0 set_nodes new_reader].
    by rewrite (bool_decide_eq_false_2 (take 3 (a ++ t ++ b) = _)), andb_false_r by (by eapply no_bom). }
  erewrite bind_run by exact Eb.
  destruct (reads_all f (allowComments_ f && collect) v t Ht (Z.to_nat (stackLimit_ f) + 2)%nat a b root r0) as (r1 & E1 & Hr1);
    [done|done|done|rewrite <- (app_nil_r b); by apply stops_white|done|cbn; lia|lia|].
  erewrite bind_run by exact E1. cbv beta iota. unfold pop. rewrite bind_modify. destruct Hr1 as (l & c & ->).
  erewrite bind_run by (eapply skipCommentTokens_run; [by eapply (end_token _ _ _ b)|done]). cbn [type_].
  change (is_type tokenEndOfStream tokenEndOfStream) with true. rewrite andb_false_r. rewrite bind_get. cbn [commentsBefore_ set_nodes set_last set_current r0 new_reader].
  rewrite (bool_decide_eq_true_2 ([] = [])), andb_false_r by done. rewrite bind_mret.
  assert (strictRoot_ f && negb (isArray (normal v)) && negb (isObject (normal v)) = false) as ->.
  { destruct (strictRoot_ f); [|done]. specialize (Hst eq_refl). by destruct v. }
  by eexists.
Qed.

(** The ways to print [v]: [NodeTreeWriter], [Value::toStyledString],
    [BuiltStyledStreamWriter] with blank settings that escapes and prints doubles with 17
    significant digits, [FastWriter] that prints nulls, and, without NULs in the keys, [StyledWriter] and [StyledStreamWriter]. *)
Inductive printed_by (v : Value) : outcome (list byte) -> Prop :=
| by_node_tree : printed_by v (Writer.node_tree_write v)
| by_styled_string : printed_by v (Writer.toStyledString v)
| by_built cfg : white_config cfg -> white (Writer.endingLineFeedSymbol_ cfg) -> Writer.emitUTF8_ cfg = false ->
    Writer.useSpecialFloats_ cfg = false -> Writer.precision_ cfg = 17 -> Writer.significantDigits_ cfg = true ->
    printed_by v (Writer.write cfg v)
| by_fast w : FastWriter.dropNullPlaceholders_ w = false -> printed_by v (FastWriter.write w v)
| by_styled : Styled.plain_keys v -> printed_by v (StyledWriter.write v)
| by_stream i : Styled.plain_keys v -> white i -> printed_by v (StyledStreamWriter.write i v).

Lemma compact_layout v : lay v (Writer.compact v).
Proof.
  assert (white []) as Hnil by constructor. assert (forall (P : list byte -> Prop) t, P t -> padded white P t) as Hpad.
  { intros P t Ht. exists [], t, []. by rewrite app_nil_r. }
  induction v as [|n|n|t|t|b|l IH|m IH] using Value_rect_nested; try by apply layout_token.
  - apply (layout_array _ _ _ l (map Writer.compact l) []); [|done]. apply Forall2_fmap_r, Forall_Forall2_diag.
    eapply Forall_impl; [exact IH|]. auto.
  - apply (layout_object _ _ _ m (map (fun kv => Writer.valueToQuotedStringN (fst kv) false ++ bs ":" ++ Writer.compact (snd kv)) m) []); [|done].
    apply Forall2_fmap_r, Forall_Forall2_diag. eapply Forall_impl; [exact IH|]. intros kv H. by do 2 eexists; split_and!; [done|apply Hpad..].
Qed.

Lemma printed_layout v r : readable v -> printed_by v r -> Writers.prints_layout Real.real_text ascii v r.
Proof.
  intros Hf%readable_fits [| |cfg Hc He Hu H1 H2 H3|w Hw|Hk|i Hk Hi].
  - exists [], (Writer.compact v), []. rewrite app_nil_r. split_and!; [by apply node_tree_write_fits|constructor|constructor|apply compact_layout].
  - by apply Writers.toStyledString_prints.
  - pose proof (Writers.built_prints cfg v Hf Hc He) as H. unfold Writers.built_real in H. by rewrite Hu, H1, H2, H3 in H.
  - by apply Writers.fast_prints.
  - by apply Writers.styled_prints.
  - by apply Writers.stream_prints.
Qed.

(** C30: what is printed can be read back.  Take a value whose doubles are finite, whose
    strings and keys are UTF-8 (below [2^31 - 5] and [2^30] bytes), and one of these writers:
    [NodeTreeWriter], [toStyledString], [FastWriter] with [dropNullPlaceholders] off,
    [BuiltStyledStreamWriter] with blank indentation, [null] for nulls, escaped strings and 17
    significant digits, or, if no key holds a NUL, [StyledWriter] or [StyledStreamWriter].
    Then the text exists, and the reader accepts it without an error, whatever its settings
    for comments, trailing commas, duplicate keys, dropped nulls, numeric keys and extra text,
    provided the nesting is within its stack limit and, with [strictRoot], the value is an
    array or an object.  It gives the same value, every double included, except that an
    unsigned number that fits the signed type comes back as a signed one. *)
Theorem print_parse_roundtrip f collect v printed :
  readable v -> depth v <= stackLimit_ f -> (strictRoot_ f = true -> isArray v || isObject v = true) ->
  printed_by v printed ->
  exists doc r, printed = Ok doc
    /\ parse f collect nullValue (new_reader doc) = (Ok (true, normal v), r) /\ errors_ r = [].
Proof.
  intros Hv Hd Hst Hp. destruct (printed_layout v printed Hv Hp) as (a & t & b & -> & Ha & Hb & Ht).
  destruct (parse_layout f collect v nullValue a t b Ht Ha Hb Hv Hd Hst) as (r & E & Hr).
  by exists (a ++ t ++ b), r.
Qed.

(** A document in strict mode: an object with an accented string, a number and a double. *)
Definition demo_double : Double.double := Double.mkDouble true 7205759403792794 (-56).
Definition demo_value : Value :=
  objectValue [(bs "a", arrayValue [stringValue [Byte.xc3; Byte.xa9]; uintValue 7; realValue (Real.finite demo_double)])].

Lemma demo_readable : readable demo_value.
Proof.
  assert (utf8 (bs "a")) as Ha by (exists [0x61]; by repeat constructor).
  assert (utf8 [Byte.xc3; Byte.xa9]) as Hb by (exists [0xe9]; by repeat constructor).
  assert (DoubleRound.canonical demo_double) as Hd by (right; split; [split_and!; cbn; lia|cbn; lia]).
  cbn. split; [constructor|]. repeat split; try done. by exists demo_double.
Qed.

Lemma print_parse_roundtrip_witness :
  let f := mkFeatures false false true false false false true true false true 1000 in
  exists doc r, StyledWriter.write demo_value = Ok doc
    /\ parse f false nullValue (new_reader doc) = (Ok (true, normal demo_value), r) /\ errors_ r = [].
Proof.
  apply (print_parse_roundtrip (mkFeatures false false true false false false true true false true 1000) false demo_value).
  - exact demo_readable.
  - vm_compute. discriminate.
  - reflexivity.
  - apply by_styled. cbn. split; [|done]. split; [|done]. apply (bool_decide_unpack _). vm_compute. exact I.
Defined.

End RoundTrip.
