(* ===== verification/Readers.v ===== *)
(** * The two readers agree

    On documents in which no token starts with a plus or with a minus in front of an [I],
    the deprecated [Reader] answers as [OurReader] does with the settings that say the same:
    the same verdict, the same list of errors, and the same value up to the type of numbers
    (what [OurReader] makes signed up to [2^63 - 1], [Reader] makes signed up to
    [2^31 - 1] only).  A small relational logic runs the two programs side by side. *)
From Stdlib Require Import ZArith Lia.
From Stdlib Require Strings.Byte.
From S2P Require Import Prelude Double Real Json JsonWriter Double JsonReader Parsing Tokens RoundTrip LegacyReader Lexing.

Module Readers.
Import Json Reader Parsing Tokens Lexing.
Import RoundTrip (normal).

(** The settings of [OurReader] that say what [f] says. *)
Definition our (f : LegacyReader.Features) : OurFeatures :=
  mkFeatures (LegacyReader.allowComments_ f) false (LegacyReader.strictRoot_ f)
    (LegacyReader.allowDroppedNullPlaceholders_ f) (LegacyReader.allowNumericKeys_ f)
    false false false false false LegacyReader.stackLimit_g.

(** ** What a token carries *)

Lemma spaces_twice l : spaces_loop (spaces_loop l) = spaces_loop l.
Proof. induction l as [|c l IH]; [done|]. cbn. case_if; [done|]. cbn. by case_if. Qed.

Lemma calm_spaces l : calm_from l -> calm_from (spaces_loop l).
Proof.
  intros H [|n]; [done|]. specialize (H (S n)). cbn in *. unfold calm_at, behind_token, lex in *. by rewrite spaces_twice.
Qed.

(** No special number, and nothing odd from its start on. *)
Definition lexed (t : Token) : Prop :=
  (type_ t <> tokenNaN /\ type_ t <> tokenPosInf /\ type_ t <> tokenNegInf) /\ calm_from (start_ t).

Lemma lexed_at c t : forall ty, (lex_at c t).1 = ty -> ty <> tokenNaN /\ ty <> tokenPosInf /\ ty <> tokenNegInf.
Proof. intros ty <-. unfold lex_at. by repeat case_if. Qed.

Lemma calm_lexed l : calm_from l -> lexed (lex l).2.
Proof.
  intros H%calm_spaces. unfold lexed, lex. destruct (spaces_loop l) as [|c t]; [done|].
  pose proof (lexed_at c t) as Ht. destruct (lex_at c t) as [ty [ok e]]. split; [|done]. destruct ok; [by apply Ht|done].
Qed.

(** ** Two programs side by side *)

Section readers.
(** [d] is by how much the stack of [Reader] is deeper. *)
Context (f : LegacyReader.Features) (collect : bool) (d : Z).

(** The states agree but for the comments, and no odd token is ahead. *)
Record twin (r r' : OurReader) : Prop := mkTwin {
  tw_current : current_ r = current_ r';
  tw_nodes : nodes_ r = nodes_ r' + d;
  tw_errors : errors_ r = errors_ r';
  tw_begin : begin_ r = begin_ r';
  tw_slashed : slashed (commentsBefore_ r);
  tw_slashed' : slashed (commentsBefore_ r');
  tw_calm : calm_from (current_ r)
}.

(** Whenever [m'] returns, [m] returns from a twin state a related result in a twin state. *)
Definition agree {A B} (rel : A -> B -> Prop) (m : R A) (m' : R B) : Prop := forall r r' b s',
  twin r r' -> m' r' = (Ok b, s') -> exists a s, m r = (Ok a, s) /\ rel a b /\ twin s s'.

Lemma agree_ret {A B} (rel : A -> B -> Prop) a b : rel a b -> agree rel (mret a) (mret b).
Proof. intros H r r' b0 s' Ht [= <- <-]. by exists a, r. Qed.

Lemma agree_bind {A B A' B'} (rel : A -> B -> Prop) (rel' : A' -> B' -> Prop) m m' (k : A -> R A') (k' : B -> R B') :
  agree rel m m' -> (forall a b, rel a b -> agree rel' (k a) (k' b)) -> agree rel' (m ≫= k) (m' ≫= k').
Proof.
  intros Hm Hk r r' b s' Ht (b1 & s1 & E1 & E2)%bind_returns.
  destruct (Hm r r' b1 s1 Ht E1) as (a1 & s & Ea & Hrel & Ht1).
  destruct (Hk a1 b1 Hrel s s1 b s' Ht1 E2) as (a & s2 & Ea2 & H). exists a, s2. split; [|done].
  by rewrite (bind_run _ _ _ _ _ Ea).
Qed.

Lemma agree_mono {A B} (rel rel' : A -> B -> Prop) m m' :
  agree rel m m' -> (forall a b, rel a b -> rel' a b) -> agree rel' m m'.
Proof.
  intros Hm Hr r r' b s' Ht E. destruct (Hm r r' b s' Ht E) as (a & s & ? & ? & ?). exists a, s. auto.
Qed.

(** A program that does not return agrees with everything. *)
Lemma agree_throw {A B} (rel : A -> B -> Prop) m e : agree rel m (throw e).
Proof. by intros r r' b s' Ht E. Qed.

Lemma agree_fuel {A B} (rel : A -> B -> Prop) m : agree rel m (lift OutOfFuel).
Proof. by intros r r' b s' Ht E. Qed.

Lemma agree_undefined {A B} (rel : A -> B -> Prop) m : agree rel m undefined.
Proof. by intros r r' b s' Ht E. Qed.

Lemma agree_gets {A} (g : OurReader -> A) : (forall r r', twin r r' -> g r = g r') -> agree eq (gets g) (gets g).
Proof. intros Hg r r' b s' Ht [= <- <-]. exists (g r), r. split_and!; [done|by apply Hg|done]. Qed.

Lemma agree_get : agree twin get get.
Proof. intros r r' b s' Ht [= <- <-]. by exists r, r. Qed.

(** The same program on both sides. *)
Abbreviation same m := (agree eq m m).

Lemma same_modify (g : OurReader -> OurReader) : (forall r r', twin r r' -> twin (g r) (g r')) -> same (modify g).
Proof. intros Hg r r' b s' Ht [= <- <-]. exists tt, (g r). split_and!; [done|done|by apply Hg]. Qed.

Lemma same_lift {A} (x : outcome A) : same (lift x).
Proof. intros r r' b s' Ht E. destruct x; try done. injection E as -> ->. by exists b, r. Qed.

Lemma twin_errors r r' es : twin r r' -> twin (set_errors r es) (set_errors r' es).
Proof. by intros []. Qed.

Lemma same_addError msg t extra : same (addError msg t extra).
Proof.
  eapply agree_bind; [apply same_modify|intros _ _ _; by apply agree_ret].
  intros r r' Ht. rewrite (tw_errors _ _ Ht). by apply twin_errors.
Qed.

Lemma same_failed {A} msg t extra (a : A) : same (_ ← addError msg t extra; mret a).
Proof. eapply agree_bind; [apply same_addError|]. intros. by apply agree_ret. Qed.

Lemma same_push : same push.
Proof. apply same_modify. intros r r' []. by split; cbn; [|lia|..]. Qed.

Lemma same_pop : same pop.
Proof. apply same_modify. intros r r' []. by split; cbn; [|lia|..]. Qed.

Lemma same_fuel_left : same fuel_left.
Proof. apply agree_gets. intros r r' Ht. by rewrite (tw_current _ _ Ht). Qed.

(** Comments may differ. *)
Lemma agree_comments {A B} (rel : A -> B -> Prop) (m : R A) (m' : R B) a b :
  (forall r, slashed (commentsBefore_ r) -> moves m r a (current_ r)) ->
  (forall r, slashed (commentsBefore_ r) -> moves m' r b (current_ r)) -> rel a b -> agree rel m m'.
Proof.
  intros Hm Hm' Hrel r r' b0 s' [] E. specialize (Hm r ltac:(done)). specialize (Hm' r' ltac:(done)).
  unfold moves, wp in *. rewrite E in Hm'. destruct Hm' as [-> (? & ? & ? & ? & ?)].
  destruct (m r) as [[a0| | |] s]; try done. destruct Hm as [-> (? & ? & ? & ? & ?)].
  exists a, s. split_and!; [done..|]. split; congruence.
Qed.

(** ** Tokens *)

Definition rel_token (x y : bool * Token) : Prop := x = y /\ (x.1 = false -> type_ x.2 = tokenError) /\ lexed x.2.

Lemma agree_readToken : agree rel_token (LegacyReader.readToken collect) (readToken (our f) collect).
Proof.
  intros r r' b s' [Ec En Ee Eb Hs Hs' Hc] E.
  pose proof (legacy_readToken collect r Hs) as W. pose proof (our_readToken (our f) collect r' eq_refl eq_refl Hs') as W'.
  rewrite <- Ec in W'. specialize (W' (calm_from_at _ Hc)). unfold reads_token, moves, wp in W, W'. rewrite <- ?Ec in W'. rewrite E in W'.
  destruct W' as [-> (? & ? & ? & ? & ?)]. destruct (LegacyReader.readToken collect r) as [[a| | |] s]; try done.
  destruct W as [-> (? & ? & ? & ? & ?)]. do 2 eexists. split; [done|]. split.
  - split; [done|]. split; [|by apply calm_lexed]. destruct (lex (current_ r)) as [ok t] eqn:El. by apply (lex_error _ _ _ El).
  - split; try congruence. replace (current_ s) with (behind_token (current_ r)) by congruence. by apply calm_from_next.
Qed.

Lemma agree_comments_loop n : forall ok t,
  (ok = false -> type_ t = tokenError) -> lexed t ->
  agree rel_token (LegacyReader.comments_loop collect n ok t) (comments_loop (our f) collect n ok t).
Proof.
  induction n as [|n IH]; intros ok t Ht Hl; [apply agree_fuel|]. cbn [LegacyReader.comments_loop comments_loop].
  case_if; [|by apply agree_ret]. eapply agree_bind; [apply agree_readToken|]. intros [ok1 t1] ? [<- [H1 L1]]. by apply IH.
Qed.

Lemma agree_pass_comments ok t : (ok = false -> type_ t = tokenError) -> lexed t ->
  agree rel_token (LegacyReader.pass_comments collect ok t) (pass_comments (our f) collect ok t).
Proof. intros Ht Hl. eapply agree_bind; [apply same_fuel_left|]. intros n ? <-. by apply agree_comments_loop. Qed.

Definition same_token (t t' : Token) : Prop := t = t' /\ lexed t.

(** A token that is not good is no comment. *)
Lemma agree_skip_loop n : forall ok t, (ok = false -> type_ t = tokenError) -> lexed t ->
  agree same_token (LegacyReader.skip_loop collect n t) ('(_, t) ← comments_loop (our f) collect n ok t; mret t).
Proof.
  induction n as [|n IH]; intros ok t Ht Hl; [by intros r r' b s' Hr E|]. cbn [LegacyReader.skip_loop comments_loop].
  assert (is_type (type_ t) tokenComment && ok = is_type (type_ t) tokenComment) as ->.
  { destruct ok; [apply andb_true_r|]. by rewrite (Ht eq_refl). }
  case_if; [|by apply agree_ret]. intros r r' b s' Hr E. rewrite bind_assoc in E.
  revert r r' b s' Hr E. eapply agree_bind; [apply agree_readToken|]. intros [ok1 t1] ? [<- [H1 L1]]. by apply IH.
Qed.

Lemma agree_skipCommentTokens : agree same_token (LegacyReader.skipCommentTokens f collect) (skipCommentTokens (our f) collect).
Proof.
  eapply agree_bind; [apply agree_readToken|]. intros [ok t] ? [<- [Ht Hl]]. cbn [fst snd] in *.
  change (allowComments_ (our f)) with (LegacyReader.allowComments_ f). case_if; [|by apply agree_ret].
  unfold pass_comments. intros r r' b s' Hr E. rewrite bind_assoc in E. revert r r' b s' Hr E.
  eapply agree_bind; [apply same_fuel_left|]. intros n ? <-. by apply agree_skip_loop.
Qed.

(** ** Errors *)

Lemma same_cut n : same (modify (fun r => set_errors r (take n (errors_ r)))).
Proof. apply same_modify. intros r r' Ht. rewrite (tw_errors _ _ Ht). by apply twin_errors. Qed.

Lemma agree_recover_loop n k u : agree eq (LegacyReader.recover_loop collect n k u) (recover_loop (our f) collect n k u).
Proof.
  induction n as [|n IH]; [apply agree_fuel|]. cbn [LegacyReader.recover_loop recover_loop].
  eapply agree_bind; [apply agree_readToken|]. intros [ok t] ? [<- _].
  eapply (agree_bind eq); [case_if; [apply same_cut|by apply agree_ret]|]. intros _ _ _. case_if; [by apply agree_ret|apply IH].
Qed.

Lemma agree_recover u : agree eq (LegacyReader.recoverFromError collect u) (recoverFromError (our f) collect u).
Proof.
  eapply agree_bind; [apply agree_gets; intros r r' Ht; by rewrite (tw_errors _ _ Ht)|]. intros k ? <-.
  eapply agree_bind; [apply same_fuel_left|]. intros n ? <-.
  eapply agree_bind; [apply agree_recover_loop|]. intros _ _ _.
  eapply agree_bind; [apply same_cut|]. intros _ _ _. by apply agree_ret.
Qed.

(** What is answered after an error: the value read so far. *)
Definition rel_value (x y : bool * Value) : Prop := x.1 = y.1 /\ y.2 = normal x.2.

Lemma agree_recovered u v v' : v' = normal v ->
  agree rel_value (ok ← LegacyReader.recoverFromError collect u; mret (ok, v)) (ok ← recoverFromError (our f) collect u; mret (ok, v')).
Proof. intros Hv. eapply agree_bind; [apply agree_recover|]. intros ok ? <-. by apply agree_ret. Qed.

Lemma agree_error msg t u v v' : v' = normal v ->
  agree rel_value (ok ← LegacyReader.addErrorAndRecover collect msg t u; mret (ok, v))
    (ok ← addErrorAndRecover (our f) collect msg t u; mret (ok, v')).
Proof.
  intros Hv. eapply (agree_bind eq); [|intros ok ? <-; by apply agree_ret].
  eapply agree_bind; [apply same_addError|]. intros _ _ _. apply agree_recover.
Qed.

(** ** Scalars *)

Lemma same_hex t fin cur : same (decodeUnicodeEscapeSequence t fin cur).
Proof.
  unfold decodeUnicodeEscapeSequence. case_if; [apply same_failed|].
  destruct (hex_loop 4 0 cur) as [[u|] l]; [by apply agree_ret|]. apply same_failed.
Qed.

Lemma same_code_point t fin cur : same (decodeUnicodeCodePoint t fin cur).
Proof.
  eapply agree_bind; [apply same_hex|]. intros [u l] ? <-. destruct u as [u|]; [|by apply agree_ret].
  case_if; [|by apply agree_ret]. case_if; [apply same_failed|].
  destruct (escape_follows l) as [b l']. case_if; [|apply same_failed].
  eapply agree_bind; [apply same_hex|]. intros [u' l''] ? <-. destruct u'; by apply agree_ret.
Qed.

Lemma same_decode_loop n t fin : forall out cur, same (decode_loop n t fin out cur).
Proof.
  induction n as [|n IH]; intros out cur; [apply agree_fuel|]. cbn [decode_loop].
  destruct cur as [|c cur]; [by apply agree_ret|]. case_if; [by apply agree_ret|]. case_if; [|apply IH].
  destruct cur as [|e cur]; [apply same_failed|].
  destruct (simple_escape e); [apply IH|]. case_if; [|apply same_failed].
  eapply agree_bind; [apply same_code_point|]. intros [u l] ? <-. destruct u; [apply IH|by apply agree_ret].
Qed.

Lemma same_decodeString t : same (decodeString t).
Proof. apply same_decode_loop. Qed.

(** A string is a value of its own. *)
Lemma agree_string_value t :
  agree (fun x y => y = x /\ forall v, x = Some v -> normal v = v) (LegacyReader.decodeString_value t) (decodeString_value t).
Proof.
  eapply agree_bind; [apply same_decodeString|]. intros [s|] ? <-; [|by apply agree_ret].
  unfold string_value. case_if; [by intros r r' b s' Ht E|].
  intros r r' b s' Ht [= <- <-]. eexists _, r. split_and!; [done|done|by intros v [= <-]|done].
Qed.

(** A number of either class; an unsigned one is not negative. *)
Definition rel_number (x y : option Value) : Prop :=
  y = option_map normal_number x
  /\ forall v, x = Some v -> normal v = normal_number v /\ forall n, v = uintValue n -> 0 <= n.

Lemma rel_real t : rel_number (Some (realValue t)) (Some (realValue t)).
Proof. split; [done|]. by intros v [= <-]. Qed.

Lemma rel_int n : rel_number (Some (intValue n)) (Some (intValue n)).
Proof. split; [done|]. by intros v [= <-]. Qed.

Lemma rel_uint n : 0 <= n -> rel_number (Some (uintValue n)) (Some (normal_number (uintValue n))).
Proof. intros Hn. split; [done|]. intros v [= <-]. split; [done|]. by intros k [= <-]. Qed.

Lemma rel_none : rel_number None None.
Proof. by split. Qed.

Lemma agree_decodeDouble t : agree rel_number (decodeDouble t) (decodeDouble t).
Proof.
  unfold decodeDouble. destruct (Double.read_double _); [apply agree_ret, rel_real|].
  eapply agree_bind; [apply same_addError|]. intros. apply agree_ret, rel_none.
Qed.

Lemma agree_decodeNumber t : agree rel_number (LegacyReader.decodeNumber t) (decodeNumber t).
Proof.
  unfold LegacyReader.decodeNumber, decodeNumber. destruct (match text_between t with c :: _ => eqc c Byte.x2d | [] => false end).
  - change (u64 (u64 Writer.maxLargestInt + 1)) with (2 ^ 63).
    change (2 ^ 63 / 10) with negative_threshold. change (2 ^ 63 mod 10) with negative_last_digit.
    destruct (number_loop negative_threshold _ _ _) as [v|] eqn:E; [|apply agree_decodeDouble].
    apply negative_range in E. apply agree_ret. pose proof (Z.div_mod v 10 ltac:(lia)). pose proof (Z.mod_pos_bound v 10 ltac:(lia)).
    rewrite (i64_small (v / 10)), (i64_small (- (v / 10) * 10 - _)) by word.
    replace (- (v / 10) * 10 - v mod 10) with (- v) by lia. cbn [andb].
    destruct (Z.eqb_spec v (2 ^ 63)) as [->|]; [apply rel_int|]. rewrite i64_small by word. apply rel_int.
  - change (maxLargestUInt / 10) with positive_threshold. change (maxLargestUInt mod 10) with positive_last_digit.
    destruct (number_loop positive_threshold _ _ _) as [v|] eqn:E; [|apply agree_decodeDouble].
    apply positive_range in E. apply agree_ret. cbn [andb]. unfold LegacyReader.maxInt.
    destruct (Z.leb_spec v (2 ^ 31 - 1)); [|apply rel_uint; lia].
    unfold Writer.maxLargestInt. rewrite i64_small by word. rewrite (proj2 (Z.leb_le _ _)) by lia. apply rel_int.
Qed.

(** ** Names *)

Lemma asString_normal v : (forall n, v = uintValue n -> 0 <= n) -> Writer.asString (normal_number v) = Writer.asString v.
Proof.
  intros Hv. destruct v as [|n|n|t|t|b|l|m]; try done. specialize (Hv n eq_refl). cbn [normal_number]. unfold Writer.maxLargestInt.
  destruct (Z.leb_spec n (2 ^ 63 - 1)); [|done]. cbn. unfold Writer.valueToString_int, Writer.minLargestInt.
  rewrite (proj2 (Z.eqb_neq _ _)), (proj2 (Z.ltb_ge _ _)) by lia. by rewrite u64_small by word.
Qed.

Lemma agree_read_name t : agree eq (LegacyReader.read_name f t) (read_name (our f) t).
Proof.
  unfold LegacyReader.read_name, read_name. change (allowNumericKeys_ (our f)) with (LegacyReader.allowNumericKeys_ f).
  case_if; [eapply agree_bind; [apply same_decodeString|]; intros ? ? <-; by apply agree_ret|].
  case_if; [|by apply agree_ret]. eapply agree_bind; [apply agree_decodeNumber|]. intros [v|] ? [-> Hv]; [|by apply agree_ret].
  cbn [option_map]. rewrite asString_normal by (by apply Hv).
  eapply agree_bind; [apply same_lift|]. intros ? ? <-. by apply agree_ret.
Qed.

Lemma key_of_short name : (2 ^ 30 <=? zlen name) = false -> LegacyReader.key_of name = name.
Proof.
  intros H. apply Z.leb_gt in H. pose proof (zlen_nonneg name). unfold LegacyReader.key_of. rewrite u32_small by word.
  change 0x3FFFFFFF with (Z.ones 30). rewrite Z.land_ones, Z.mod_small by lia. unfold ztake, zlen. by rewrite Nat2Z.id, firstn_all.
Qed.

(** ** Arrays and objects *)

Section nested.
Context (rv rv' : Value -> R (bool * Value)).
Hypothesis Hrv : forall old, agree rel_value (rv old) (rv' (normal old)).

Abbreviation members_of := (map (fun kv => (fst kv, normal (snd kv)))).

Lemma find_normal k m : default nullValue (find k (members_of m)) = normal (default nullValue (find k m)).
Proof. induction m as [|[k' v] m IH]; [done|]. cbn [map find fst snd]. by case_if. Qed.

Lemma put_normal k v m : put k (normal v) (members_of m) = members_of (put k v m).
Proof. induction m as [|[k' w] m IH]; [done|]. cbn [map put fst snd]. case_if; [cbn; by rewrite IH|]. by case_if. Qed.

(** One value, a level down; [k] is applied to related results. *)
Ltac agree_value x y Hxy :=
  eapply agree_bind; [apply same_push|]; intros _ _ _; eapply agree_bind; [apply Hrv|]; let ok := fresh "b" in let ok' := fresh "c" in let E := fresh "E" in intros [ok x] [ok' y] [E Hxy];
  cbn [fst snd] in E, Hxy; subst ok'; eapply agree_bind; [apply same_pop|]; intros _ _ _.

(** The next token, and the one behind the comments. *)
Ltac agree_token ok t H := eapply agree_bind; [apply agree_readToken|]; let L := fresh "L" in intros [ok t] ? [<- [H L]]; cbn [fst snd] in *.
Ltac agree_comments ok t H := eapply agree_bind; [by apply agree_pass_comments|]; let L := fresh "L" in intros [ok t] ? [<- [H L]]; cbn [fst snd] in *.

Lemma agree_object_loop n : forall name m,
  agree rel_value (LegacyReader.object_loop f collect rv n name m) (object_loop (our f) collect rv' n name (members_of m)).
Proof.
  induction n as [|n IH]; intros name m; [apply agree_fuel|]. cbn [LegacyReader.object_loop object_loop]. cbv zeta.
  change (allowTrailingCommas_ (our f)) with false. change (rejectDupKeys_ (our f)) with false. rewrite orb_false_r. cbn [andb].
  agree_token ok t H. case_if; [by apply agree_error|]. agree_comments ok1 t1 H1. case_if; [by apply agree_error|].
  case_if; [by apply agree_ret|]. eapply agree_bind; [apply agree_read_name|]. intros nm ? <-.
  destruct nm as [[name'|]|]; [|by apply agree_recovered|by apply agree_error].
  destruct (2 ^ 30 <=? zlen name') eqn:Ez; [apply agree_throw|]. rewrite key_of_short by done.
  agree_token ok2 t2 H2. case_if; [by apply agree_error|]. rewrite find_normal.
  agree_value v v' Hv. rewrite Hv, put_normal. case_if; [by apply agree_recovered|].
  agree_token ok3 t3 H3. case_if; [by apply agree_error|]. agree_comments ok4 t4 H4. case_if; [by apply agree_ret|apply IH].
Qed.

Lemma agree_readObject : agree rel_value (LegacyReader.readObject f collect rv) (readObject (our f) collect rv').
Proof. eapply agree_bind; [apply same_fuel_left|]. intros n ? <-. apply (agree_object_loop n [] []). Qed.

(** Blanks in front of a value make no difference to [Reader]. *)
Hypothesis Hskip : forall old r a s, rv old (set_current r (spaces_loop (current_ r))) = (Ok a, s) -> rv old r = (Ok a, s).

Lemma same_skipSpaces : same skipSpaces.
Proof. apply same_modify. intros r r' []. split; cbn; try done; [congruence|by apply calm_spaces]. Qed.

Lemma array_skip n elems r a s : (_ ← skipSpaces; LegacyReader.array_loop collect rv n elems) r = (Ok a, s) ->
  LegacyReader.array_loop collect rv n elems r = (Ok a, s).
Proof.
  unfold skipSpaces. rewrite bind_modify. destruct n as [|n]; [done|]. cbn [LegacyReader.array_loop]. case_if; [done|].
  unfold push. rewrite !bind_modify. intros (x & s1 & E1 & E2)%bind_returns.
  erewrite bind_run; [exact E2|]. by apply (Hskip nullValue (set_nodes r (nodes_ r + 1))).
Qed.

Lemma agree_array_round n elems :
  (forall v, agree rel_value (LegacyReader.array_loop collect rv n (elems ++ [v]))
               (array_loop (our f) collect rv' n (map normal (elems ++ [v])))) ->
  agree rel_value (LegacyReader.array_loop collect rv (S n) elems)
    (if 2 ^ 31 - 1 <=? zlen (map normal elems) then undefined
     else
       _ ← push; '(ok, v) ← rv' nullValue; _ ← pop;
       if negb ok then ok ← recoverFromError (our f) collect tokenArrayEnd; mret (ok, arrayValue (map normal elems ++ [v]))
       else
         '(ok, currentToken) ← readToken (our f) collect;
         '(ok, currentToken) ← pass_comments (our f) collect ok currentToken;
         if negb ok || negb (is_type (type_ currentToken) tokenArraySeparator) && negb (is_type (type_ currentToken) tokenArrayEnd) then
           ok ← addErrorAndRecover (our f) collect (bs "Missing ',' or ']' in array declaration") currentToken tokenArrayEnd;
           mret (ok, arrayValue (map normal elems ++ [v]))
         else if is_type (type_ currentToken) tokenArrayEnd then mret (true, arrayValue (map normal elems ++ [v]))
         else array_loop (our f) collect rv' n (map normal elems ++ [v])).
Proof.
  intros IH. cbn [LegacyReader.array_loop]. unfold zlen. rewrite length_map. case_if; [apply agree_undefined|].
  change nullValue with (normal nullValue) at 2. agree_value v v' Hv. subst v'. change [normal v] with (map normal [v]). rewrite <- map_app.
  case_if; [by apply agree_recovered|]. agree_token ok1 t1 H1. agree_comments ok2 t2 H2.
  case_if; [by apply agree_error|]. case_if; [by apply agree_ret|apply IH].
Qed.

Lemma agree_array_loop n : forall elems, elems <> [] ->
  agree rel_value (LegacyReader.array_loop collect rv n elems) (array_loop (our f) collect rv' n (map normal elems)).
Proof.
  induction n as [|n IH]; intros elems Hne; [apply agree_fuel|].
  assert (agree rel_value (_ ← skipSpaces; LegacyReader.array_loop collect rv (S n) elems)
    (array_loop (our f) collect rv' (S n) (map normal elems))) as Hs.
  { cbn [array_loop]. eapply agree_bind; [apply same_skipSpaces|]. intros _ _ _ r r' b s' Ht E. rewrite bind_get in E.
    rewrite bool_decide_eq_false_2 in E by (by destruct elems). change (allowTrailingCommas_ (our f)) with false in E.
    rewrite andb_false_r in E. cbv zeta in E.
    apply (agree_array_round n elems) with (r' := r'); [|done|done]. intros v. apply IH. by destruct elems. }
  intros r r' b s' Ht E. destruct (Hs r r' b s' Ht E) as (a & s & Ea & H). exists a, s. split; [by apply array_skip|done].
Qed.

Lemma agree_readArray : agree rel_value (LegacyReader.readArray collect rv) (readArray (our f) collect rv').
Proof.
  eapply agree_bind; [apply same_fuel_left|]. intros n ? <-. destruct n as [|n]; [apply agree_fuel|]. cbn [array_loop].
  eapply agree_bind; [apply same_skipSpaces|]. intros _ _ _. eapply agree_bind; [apply agree_get|]. intros r r' Hr.
  rewrite (tw_current _ _ Hr), (bool_decide_eq_true_2 ([] = [])) by done. cbn [orb]. rewrite andb_true_r.
  case_if; [eapply agree_bind; [apply agree_readToken|]; intros; by apply agree_ret|].
  apply (agree_array_round n []). intros v. by apply agree_array_loop.
Qed.

Definition rel_switch (x y : bool * (bool * Value)) : Prop := x.1 = y.1 /\ rel_value x.2 y.2.

Lemma agree_finished (m m' : R (bool * Value)) : agree rel_value m m' ->
  agree rel_switch (x ← m; mret (true, x)) (x ← m'; mret (true, x)).
Proof. intros H. eapply agree_bind; [exact H|]. intros x y Hxy. by apply agree_ret. Qed.

(** What the [switch] does with a token that starts no value. *)
Lemma agree_no_value (b : bool) old t : lexed t ->
  agree rel_switch
    (if b && LegacyReader.allowDroppedNullPlaceholders_ f
     then _ ← move (start_ t); mret (true, (true, nullValue))
     else ok ← addError (bs "Syntax error: value, object or array expected.") t None; mret (false, (ok, old)))
    (if b && allowDroppedNullPlaceholders_ (our f)
     then _ ← move (start_ t); mret (true, (true, nullValue))
     else ok ← addError (bs "Syntax error: value, object or array expected.") t None; mret (false, (ok, normal old))).
Proof.
  intros [_ Hc]. change (allowDroppedNullPlaceholders_ (our f)) with (LegacyReader.allowDroppedNullPlaceholders_ f). case_if.
  - eapply agree_bind; [apply (same_modify (fun r => set_current r (start_ t)))|intros _ _ _; by apply agree_ret].
    intros r r' []. by split.
  - eapply agree_bind; [apply same_addError|]. intros ok ? <-. by apply agree_ret.
Qed.

Lemma agree_read_switch old t : lexed t ->
  agree rel_switch (LegacyReader.read_switch f collect rv old t) (read_switch (our f) collect rv' (normal old) t).
Proof.
  intros Hl. pose proof Hl as [(? & ? & ?) _]. unfold LegacyReader.read_switch, read_switch.
  destruct (type_ t); try done; try by apply agree_no_value.
  1, 2: apply agree_finished; first [apply agree_readObject|apply agree_readArray].
  - eapply agree_bind; [apply agree_string_value|]. intros [x|] ? [-> Hx]; apply agree_ret; [|done].
    split; [done|]. split; [done|]. symmetry. by apply Hx.
  - eapply agree_bind; [apply agree_decodeNumber|]. intros [x|] ? [-> Hx]; apply agree_ret; [|done].
    split; [done|]. split; [done|]. symmetry. by apply Hx.
  - by apply agree_ret.
  - by apply agree_ret.
  - by apply agree_ret.
Qed.

End nested.
(** ** Values *)

(** Keeping the collected comments with a value. *)
Lemma moves_keep p r (m : R unit) : slashed (commentsBefore_ r) ->
  (forall c, setComment (commentsBefore_ r) p r = (Ok tt, set_comments r (commentsBefore_ r) c) -> moves m r tt (current_ r)) ->
  moves (if collect && negb (bool_decide (commentsBefore_ r = [])) then m else mret tt) r tt (current_ r).
Proof.
  intros H Hm. case_if; [|by apply moves_ret]. destruct (commentsBefore_ r) as [|c l] eqn:E; [done|].
  cbn in H. subst c. destruct (setComment_run l p r) as [c Ec]. rewrite E in Ec. by apply (Hm _ Ec).
Qed.

Lemma agree_keep p (m : list byte -> R unit) :
  (forall r c, slashed (commentsBefore_ r) -> setComment (commentsBefore_ r) p r = (Ok tt, set_comments r (commentsBefore_ r) c) ->
     moves (m (commentsBefore_ r)) r tt (current_ r)) ->
  same (r ← get; if collect && negb (bool_decide (commentsBefore_ r = [])) then m (commentsBefore_ r) else mret tt).
Proof.
  intros Hm. apply (agree_comments _ _ _ tt tt); [..|done]; intros r H; unfold moves; wpr; wpr;
    apply (moves_keep p); try done; intros c; by apply Hm.
Qed.

(** Blanks in front of a token are skipped anyway. *)
Lemma readToken_skip r : LegacyReader.readToken collect (set_current r (spaces_loop (current_ r))) = LegacyReader.readToken collect r.
Proof.
  unfold LegacyReader.readToken, LegacyReader.skipSpaces, skipSpaces. rewrite !bind_modify. cbn [current_ set_current].
  by rewrite spaces_twice.
Qed.

Lemma readValue_skip n old r a s :
  LegacyReader.readValue f collect n old (set_current r (spaces_loop (current_ r))) = (Ok a, s) ->
  LegacyReader.readValue f collect n old r = (Ok a, s).
Proof.
  destruct n as [|n]; [done|]. cbn [LegacyReader.readValue]. rewrite !bind_get. cbn [nodes_ set_current]. case_if; [done|].
  unfold LegacyReader.skipCommentTokens. rewrite !bind_assoc. unfold mbind at 1 4, M_bind at 1 4. by rewrite readToken_skip.
Qed.

End readers.

(** Both at the same depth. *)
Lemma agree_readValue f collect n : forall old,
  agree 0 rel_value (LegacyReader.readValue f collect n old) (readValue (our f) collect n (normal old)).
Proof.
  induction n as [|n IH]; intros old; [apply agree_fuel|]. cbn [LegacyReader.readValue readValue].
  eapply agree_bind; [apply agree_get|]. intros r r' Hr. rewrite (tw_nodes _ _ _ Hr), Z.add_0_r.
  change (stackLimit_ (our f)) with LegacyReader.stackLimit_g. case_if; [apply agree_throw|].
  eapply agree_bind; [apply agree_skipCommentTokens|]. intros t ? [<- Hl] q q' b s' Hq E.
  rewrite <- (bind_assoc get) in E. rewrite <- (bind_assoc get). revert q q' b s' Hq E.
  eapply agree_bind; [apply (agree_keep collect 0 commentBefore (fun cs => _ ← setComment cs commentBefore; _))|].
  { intros q c H Ec. unfold moves. wpr. unfold wp at 1. rewrite Ec. by wpr. }
  intros _ _ _. eapply agree_bind; [apply agree_read_switch; [exact IH|apply readValue_skip|done]|].
  intros [fin x] [fin' y] [Ef Hxy]. cbn [fst snd] in Ef, Hxy. subst fin'.
  eapply (agree_bind _ eq); [|intros _ _ _; by apply agree_ret].
  case_if; [|by apply agree_ret]. apply same_modify. intros q q' Hq. by destruct Hq.
Qed.

(** ** Documents *)

Lemma isArray_normal v : isArray (normal v) = isArray v.
Proof. destruct v as [|n|n|t|t|b|l|m]; try done. cbn. by case_if. Qed.

Lemma isObject_normal v : isObject (normal v) = isObject v.
Proof. destruct v as [|n|n|t|t|b|l|m]; try done. cbn. by case_if. Qed.

(** [OurReader] has taken its root off the stack. *)
Lemma twin_pop r r' : twin 0 r r' -> twin 1 r (set_nodes r' (nodes_ r' - 1)).
Proof. intros []. split; cbn; try done. lia. Qed.

(** The end of [parse]. *)
Definition check_root (strict : bool) (doc : Location) (ok : bool) (v : Value) : R (bool * Value) :=
  if strict && negb (isArray v) && negb (isObject v) then
    ok ← addError (bs "A valid JSON document must be either an array or an object value.") (mkToken tokenError doc []) None;
    mret (ok, v)
  else mret (ok, v).

Lemma agree_root strict v v' ok doc : v' = normal v -> agree 1 rel_value (check_root strict doc ok v) (check_root strict doc ok v').
Proof.
  intros ->. unfold check_root. rewrite isArray_normal, isObject_normal.
  case_if; [|by apply agree_ret]. eapply agree_bind; [apply same_addError|]. intros b ? <-. by apply agree_ret.
Qed.

Lemma agree_end f collect strict doc ok v v' : v' = normal v ->
  agree 1 rel_value
    (_ ← LegacyReader.skipCommentTokens f collect; r ← get;
     _ ← (if collect && negb (bool_decide (commentsBefore_ r = [])) then setComment (commentsBefore_ r) commentAfter else mret tt);
     check_root strict doc ok v)
    (_ ← skipCommentTokens (our f) collect; r ← get;
     _ ← (if collect && negb (bool_decide (commentsBefore_ r = [])) then setComment (commentsBefore_ r) commentAfter else mret tt);
     check_root strict doc ok v').
Proof.
  intros Hv. eapply agree_bind; [apply agree_skipCommentTokens|]. intros t t' _ q q' b s' Hq E.
  rewrite <- (bind_assoc get) in E. rewrite <- (bind_assoc get). revert q q' b s' Hq E.
  eapply agree_bind; [apply (agree_keep collect 1 commentAfter (fun cs => setComment cs commentAfter))|].
  { intros q c H Ec. unfold moves, wp. by rewrite Ec. }
  intros _ _ _. by apply agree_root.
Qed.

(** C37: On a document without a token that starts with a plus, or with a minus in front of
    an [I], the deprecated [Reader] answers what [OurReader] with the same settings answers:
    the same verdict, the same errors at the same places, and the same value but for the
    type of the numbers between [2^31] and [2^63 - 1]; whatever state it was in before. *)
Theorem readers_agree f collect doc root ok v r' any :
  calm_document doc = true ->
  parse (our f) collect (normal root) (new_reader doc) = (Ok (ok, v), r') ->
  exists w r, LegacyReader.parse f doc collect root any = (Ok (ok, w), r) /\ v = normal w /\ errors_ r = errors_ r'.
Proof.
  intros Hc E. unfold parse in E. cbv zeta in E. change (allowComments_ (our f)) with (LegacyReader.allowComments_ f) in E.
  rewrite bind_gets in E. unfold push in E. rewrite bind_modify in E. unfold skipBom in E. cbn [skipBom_ our] in E.
  unfold LegacyReader.parse. cbv zeta. rewrite bind_modify. unfold push. rewrite bind_modify.
  set (c := LegacyReader.allowComments_ f && collect) in *. set (r0 := set_nodes _ _) in *.
  rewrite bind_modify in E. cbn [andb] in E. apply bind_returns in E as ([ok1 v1] & s1 & E1 & E).
  assert (twin 0 r0 r0) as H0 by (split; cbn; try done; by apply calm_document_from).
  destruct (agree_readValue f c _ root r0 r0 _ _ H0 E1) as ([ok2 w] & s & Ew & [Eok Hw] & Hs).
  cbn [fst snd] in Eok, Hw. subst ok2. rewrite (bind_run _ _ _ _ _ Ew). cbv beta iota.
  unfold pop in E. rewrite bind_modify in E. cbn [failIfExtra_ our andb] in E. 
  destruct (agree_end f c (LegacyReader.strictRoot_ f) doc ok1 w v1 Hw _ _ _ _ (twin_pop _ _ Hs) E) as ([? w'] & r & Er & [? ?] & Ht).
  cbn [fst snd] in *. subst. exists w', r. split_and!; [exact Er|done|apply Ht].
Qed.

Lemma readers_agree_witness :
  let q := [Byte.x22] in
  let doc := bs "{" ++ q ++ bs "a" ++ q ++ bs ": [3000000000, // c" ++ [Byte.x0a] ++ bs " -1, ]} " in
  exists w r, LegacyReader.parse LegacyReader.all doc true nullValue (new_reader []) = (Ok (false, w), r)
    /\ objectValue [(bs "a", arrayValue [intValue 3000000000; intValue (-1); nullValue])] = normal w
    /\ errors_ r = errors_ (parse (our LegacyReader.all) true nullValue (new_reader doc)).2.
Proof.
  intros q doc. apply (readers_agree LegacyReader.all true doc nullValue false _ _ (new_reader [])).
  - vm_compute. reflexivity.
  - vm_compute. reflexivity.
Defined.

(** A number with a plus in front: [OurReader] reads a real, [Reader] has no such token. *)
Example plus_apart :
  (parse (our LegacyReader.all) true nullValue (new_reader (bs "+1"))).1 = Ok (true, realValue (Real.finite (Double.mkDouble false (2 ^ 52) (-52))))
  /\ (LegacyReader.parse LegacyReader.all (bs "+1") true nullValue (new_reader [])).1 = Ok (false, nullValue).
Proof. split; vm_compute; reflexivity. Qed.

End Readers.
