(* ===== verification/Streams.v ===== *)
(** * Settings and streams
      (common/jsoncpp/lib_json/json_reader.cpp, json_writer.cpp)

    The outside of the readers and writers: the check of a builder's settings, the operators
    on streams and the overloads of the deprecated [Reader] that take a string or a stream. *)
From Stdlib Require Import ZArith Lia.
From Stdlib Require Strings.Byte.
From S2P Require Import Prelude Double Real Json JsonWriter Layout Writers CLib JsonReader Parsing Tokens RoundTrip LegacyReader.

Module Streams.
Import Json.

(** ** Settings *)

(** What an iterator over a value sees: the name and the value of every entry. *)
Definition settings_entries (settings : Value) : list (list byte * Value) :=
  match settings with
  | objectValue m => m
  | arrayValue l => map (fun v => ([], v)) l
  | _ => []
  end.

(** The loop of [validate]; [invalid] is [None] for a null pointer.  The first result tells
    whether the loop was left early. *)
Fixpoint validate_loop (valid_keys : list (list byte)) (l : list (list byte * Value)) (invalid : option Value)
  : outcome (bool * option Value) :=
  match l with
  | [] => mret (false, invalid)
  | (key, v) :: l' =>
      if bool_decide (key ∈ valid_keys) then validate_loop valid_keys l' invalid
      else
        match invalid with
        | Some i => i ← assign i key v; validate_loop valid_keys l' (Some i)
        | None => mret (true, None)
        end
  end.

(** [Value::empty] *)
Definition empty (v : Value) : bool :=
  match v with
  | nullValue => true
  | arrayValue l => zlen l =? 0
  | objectValue m => zlen m =? 0
  | _ => false
  end.

Definition validate_with (valid_keys : list (list byte)) (settings : Value) (invalid : option Value) : outcome (bool * option Value) :=
  '(left_, invalid) ← validate_loop valid_keys (settings_entries settings) invalid;
  mret (if (left_ : bool) then false else match invalid with Some i => empty i | None => true end, invalid).

Definition reader_keys : list (list byte) :=
  [bs "collectComments"; bs "allowComments"; bs "allowTrailingCommas"; bs "strictRoot"; bs "allowDroppedNullPlaceholders";
   bs "allowNumericKeys"; bs "allowSingleQuotes"; bs "stackLimit"; bs "failIfExtra"; bs "rejectDupKeys";
   bs "allowSpecialFloats"; bs "skipBom"].

Definition writer_keys : list (list byte) :=
  [bs "indentation"; bs "commentStyle"; bs "enableYAMLCompatibility"; bs "dropNullPlaceholders"; bs "useSpecialFloats";
   bs "emitUTF8"; bs "precision"; bs "precisionType"].

(** [CharReaderBuilder::validate] and [StreamWriterBuilder::validate] *)
Definition validate_reader : Value -> option Value -> outcome (bool * option Value) := validate_with reader_keys.
Definition validate_writer : Value -> option Value -> outcome (bool * option Value) := validate_with writer_keys.

(** ** Streams *)

Definition writeString (settings root : Value) : outcome (list byte) :=
  cfg ← Writer.newStreamWriter settings; Writer.write cfg root.

(** [operator<<]: what is added to the stream *)
Definition operator_out (root : Value) : outcome (list byte) :=
  settings ← Writer.setDefaults nullValue; writeString settings root.

(** [operator>>] on the rest of a stream *)
Definition operator_in (doc : list byte) (root : Value) : outcome Value :=
  settings ← Reader.default_settings;
  '(ok, root, errs) ← Reader.parseFromStream settings doc root;
  if (ok : bool) then mret root else Throw json_runtime_error.

(** [std::getline(is, doc, static_cast<char> EOF)]: up to the byte 255, which is [EOF] as a
    character. *)
Definition getline (input : list byte) : list byte :=
  match CLib.split_at Byte.xff input with Some (doc, _) => doc | None => input end.

(** [Reader::parse] of a string and of a stream *)
Definition parse_string (f : LegacyReader.Features) (document : list byte) (collect : bool) (root : Value)
  : Reader.R (bool * Value) := LegacyReader.parse f document collect root.

Definition parse_stream (f : LegacyReader.Features) (input : list byte) (collect : bool) (root : Value)
  : Reader.R (bool * Value) := LegacyReader.parse f (getline input) collect root.

(** ** Errors of the user *)

(** A pointer into the document; outside of it the arithmetic is undefined. *)
Definition offset (r : Reader.OurReader) (ofs : Z) : outcome Reader.Location :=
  if (0 <=? ofs) && (ofs <=? zlen (Reader.begin_ r)) then Ok (zdrop ofs (Reader.begin_ r)) else UB.

(** [pushError]: an error at the offsets of a value, with those of another one for the details *)
Definition pushError (start limit : Z) (message : list byte) (extra : option (Z * Z)) : Reader.R bool :=
  r ← get;
  let length := zlen (Reader.begin_ r) in
  if (length <? start) || (length <? limit) || match extra with Some (_, l) => length <? l | None => false end
  then mret false
  else
    s ← lift (offset r start);
    e ← lift (offset r limit);
    x ← (match extra with Some (o, _) => p ← lift (offset r o); mret (Some p) | None => mret None end);
    _ ← modify (fun r => Reader.set_errors r
          (Reader.errors_ r ++ [Reader.mkErrorInfo (Reader.mkToken Reader.tokenError s e) message x]));
    mret true.

(** [OurReader::getStructuredErrors] *)
Definition getStructuredErrors (r : Reader.OurReader) : list (Z * Z * list byte) := LegacyReader.getStructuredErrors r.

(** ** What the check of settings tells *)

Lemma find_below k l : above k l -> sorted l -> find k l = None.
Proof. intros Ha Hl. destruct (find k l) eqn:E; [|done]. apply (above_find _ _ _ _ Ha Hl) in E. by rewrite key_ltb_irrefl in E. Qed.

Lemma validate_loop_spec (keys : list (list byte)) l : forall i, sorted l -> sorted i ->
  exists i', validate_loop keys l (Some (objectValue i)) = Ok (false, Some (objectValue i')) /\ sorted i'
    /\ forall k, find k i' = if bool_decide (k ∈ keys) then find k i else match find k l with Some v => Some v | None => find k i end.
Proof.
  induction l as [|[k v] l IH]; intros i Hl Hi; [exists i; split_and!; [done|done|]; intros k; by case_bool_decide|].
  apply sorted_iff in Hl as [Ha Hl]. cbn [validate_loop find]. case_bool_decide as Hk.
  - destruct (IH i Hl Hi) as (i' & -> & Hs & Hf). exists i'. split_and!; [done..|]. intros k'. rewrite Hf.
    repeat case_bool_decide; try done; by subst.
  - cbn. destruct (IH (put k v i) Hl (put_sorted _ _ _ Hi)) as (i' & -> & Hs & Hf). exists i'. split_and!; [done..|].
    intros k'. rewrite Hf, find_put. repeat case_bool_decide; subst; try done. rewrite find_below by done. done.
Qed.

Lemma validate_null (keys : list (list byte)) l : validate_loop keys l None = Ok (negb (forallb (fun kv => bool_decide (kv.1 ∈ keys)) l), None).
Proof. induction l as [|[k v] l IH]; [done|]. cbn [validate_loop forallb fst]. by case_bool_decide. Qed.

Lemma all_valid (keys : list (list byte)) m : sorted m -> (forallb (fun kv => bool_decide (kv.1 ∈ keys)) m = true <-> forall k, is_Some (find k m) -> k ∈ keys).
Proof.
  induction m as [|[k v] m IH]; intros Hs; [split; [by intros _ k []|done]|]. apply sorted_iff in Hs as [Ha Hs].
  cbn [forallb fst find]. rewrite andb_true_iff, bool_decide_eq_true, IH by done. split.
  - intros [Hk Hm] k' Hf. case_bool_decide; [by subst|by apply Hm].
  - intros H. split.
    + apply H. rewrite bool_decide_eq_true_2 by done. by eexists.
    + intros k' Hf. apply H. case_bool_decide; [by eexists|done].
Qed.

(** The settings a builder does not know: with a null pointer [validate] tells whether there
    are any, otherwise it puts exactly these into [invalid]. *)
Theorem validate_exact (keys : list (list byte)) m : sorted m ->
  (validate_with keys (objectValue m) None = Ok (true, None) <-> (forall k, is_Some (find k m) -> k ∈ keys))
  /\ exists b i, validate_with keys (objectValue m) (Some (objectValue [])) = Ok (b, Some (objectValue i))
     /\ (b = true <-> forall k, is_Some (find k m) -> k ∈ keys)
     /\ forall k, find k i = if bool_decide (k ∈ keys) then None else find k m.
Proof.
  intros Hs. unfold validate_with. cbn [settings_entries]. split.
  - rewrite validate_null, <- all_valid by done. cbn. destruct (forallb _ m); cbn; split; congruence || done.
  - destruct (validate_loop_spec keys m [] Hs) as (i & -> & Hi & Hf); [constructor|]. exists (empty (objectValue i)), i.
    assert (forall k, find k i = if bool_decide (k ∈ keys) then None else find k m) as Hf'.
    { intros k. rewrite Hf. case_bool_decide; [done|]. by destruct (find k m). }
    split_and!; [done| |done]. cbn [empty]. rewrite Z.eqb_eq. split.
    + intros Hl k [v Hv]. specialize (Hf' k). destruct i; [|unfold zlen in Hl; cbn in Hl; lia]. cbn in Hf'.
      case_bool_decide; [done|congruence].
    + intros Hk. destruct i as [|[k v] i]; [done|]. specialize (Hf' k). cbn in Hf'. rewrite bool_decide_eq_true_2 in Hf' by done.
      case_bool_decide as Hin; [done|]. destruct Hin. apply Hk. by rewrite <- Hf'.
Qed.

Lemma validate_exact_witness :
  let m := [(bs "indentation", stringValue []); (bs "typo", intValue 1)] in
  (validate_with writer_keys (objectValue m) None = Ok (true, None) <-> (forall k, is_Some (find k m) -> k ∈ writer_keys))
  /\ exists b i, validate_with writer_keys (objectValue m) (Some (objectValue [])) = Ok (b, Some (objectValue i))
     /\ (b = true <-> forall k, is_Some (find k m) -> k ∈ writer_keys)
     /\ forall k, find k i = if bool_decide (k ∈ writer_keys) then None else find k m.
Proof. intros m. apply (validate_exact writer_keys m). repeat constructor. Defined.

(** The settings it knows are those that count. *)
Theorem reader_settings_known m m' : (forall k, k ∈ reader_keys -> find k m = find k m') ->
  Reader.newCharReader (objectValue m) = Reader.newCharReader (objectValue m').
Proof.
  intros H. unfold Reader.newCharReader, Writer.const_at. cbn [as_object mbind outcome_bind mret outcome_ret].
  rewrite !H by (apply (bool_decide_unpack _); vm_compute; exact I). done.
Qed.

Theorem writer_settings_known m m' : (forall k, k ∈ writer_keys -> find k m = find k m') ->
  Writer.newStreamWriter (objectValue m) = Writer.newStreamWriter (objectValue m').
Proof.
  intros H. unfold Writer.newStreamWriter, Writer.const_at. cbn [as_object mbind outcome_bind mret outcome_ret].
  rewrite !H by (apply (bool_decide_unpack _); vm_compute; exact I). done.
Qed.

(** ** Round trips *)

Import RoundTrip (normal, readable).

Lemma operator_out_prints v : Writer.fits v -> Writers.prints_layout Real.real_text (fun s => Writer.valueToQuotedStringN s false) v (operator_out v).
Proof.
  intros Hf. set (cfg := Writer.mkConfig 74 [Byte.x09] true (bs " : ") (bs "null") [] false false 17 true).
  assert (Writer.setDefaults nullValue ≫= Writer.newStreamWriter = Ok cfg) as E by (vm_compute; reflexivity).
  apply outcome_bind_Ok in E as (st & E1 & E2). unfold operator_out, writeString. rewrite E1. cbn. rewrite E2. cbn.
  apply (Writers.built_prints cfg v Hf); [|constructor]. split_and!; [by repeat constructor|done|]. exists (bs " "), (bs " ").
  split_and!; by repeat constructor.
Qed.

Lemma operator_in_run doc : operator_in doc nullValue =
  match Reader.parse Parsing.default_features true nullValue (Reader.new_reader doc) with
  | (Ok (ok, v), _) => if (ok : bool) then Ok v else Throw json_runtime_error
  | (Throw e, _) => Throw e
  | (UB, _) => UB
  | (OutOfFuel, _) => OutOfFuel
  end.
Proof.
  unfold operator_in. destruct Reader.default_settings as [st| | |] eqn:E; try by vm_compute in E.
  cbn [mbind outcome_bind]. unfold Reader.parseFromStream. rewrite (Parsing.default_reader _ E). cbn [mbind outcome_bind].
  unfold Reader.char_reader_parse. cbn [fst snd]. by destruct (Reader.parse _ _ _ _) as [[[ok v]| | |] r].
Qed.

(** What [operator<<] writes [operator>>] reads: a value whose doubles are finite, whose
    strings are UTF-8 and whose nesting is within the limit comes back, up to unsigned numbers that fit the
    signed type. *)
Theorem stream_roundtrip v : readable v -> RoundTrip.depth v <= 1000 ->
  exists doc, operator_out v = Ok doc /\ operator_in doc nullValue = Ok (normal v).
Proof.
  intros Hv Hd. destruct (operator_out_prints v (RoundTrip.readable_fits v Hv)) as (a & t & b & -> & Ha & Hb & Ht).
  exists (a ++ t ++ b). split; [done|]. rewrite operator_in_run.
  destruct (RoundTrip.parse_layout Parsing.default_features true v nullValue a t b Ht Ha Hb Hv Hd ltac:(done)) as (r & -> & _). done.
Qed.

Lemma stream_roundtrip_witness :
  exists doc, operator_out RoundTrip.demo_value = Ok doc /\ operator_in doc nullValue = Ok (normal RoundTrip.demo_value).
Proof.
  apply (stream_roundtrip RoundTrip.demo_value).
  - exact RoundTrip.demo_readable.
  - vm_compute. discriminate.
Defined.

(** [operator>>] gives a value when no error was recorded and throws otherwise: [RuntimeError], or
    [LogicError] for a string that is too long for a value. *)
Theorem operator_in_total doc : zlen doc < 2 ^ 31 - 1 ->
  (exists v, operator_in doc nullValue = Ok v /\ Parsing.good v) \/ operator_in doc nullValue = Throw json_runtime_error
  \/ operator_in doc nullValue = Throw json_logic_error /\ 2 ^ 31 - 3 <= zlen doc.
Proof.
  intros Hd. rewrite operator_in_run. destruct (Reader.parse _ _ _ _) as [res r] eqn:E.
  destruct (wp_run _ _ _ _ _ _ (Parsing.parse_spec Parsing.default_features true nullValue doc ltac:(done) ltac:(done) Hd) E)
    as [([ok v] & -> & Hg & _)|(e & -> & [->|[-> ?]])]; [|by right; left|by right; right].
  destruct ok; [left; by exists v|by right; left].
Qed.

(** ** Streams with the byte 255 *)

Lemma getline_whole doc : Byte.xff ∉ doc -> getline doc = doc.
Proof.
  intros H. unfold getline. destruct (CLib.split_at Byte.xff doc) as [[u v]|] eqn:E; [|done].
  apply CLib.split_at_spec in E as [-> _]. destruct H. apply elem_of_app. right. by left.
Qed.

(** The deprecated [Reader] reads a stream only up to such a byte: the same characters are a
    string value when they come in a string, and an error when they come in a stream. *)
Example stream_cut_at_255 :
  let doc := [Byte.x22; Byte.x61; Byte.xff; Byte.x22] in
  (parse_string LegacyReader.all doc true nullValue (Reader.new_reader [])).1 = Ok (true, stringValue [Byte.x61; Byte.xff])
  /\ (parse_stream LegacyReader.all doc true nullValue (Reader.new_reader [])).1 = Ok (false, nullValue).
Proof. split; vm_compute; reflexivity. Qed.

(** ** Errors of the user *)

(** An error of the user is appended, within the document, and found again by its offsets. *)
Lemma pushError_structured start limit message r : 0 <= start <= zlen (Reader.begin_ r) -> 0 <= limit <= zlen (Reader.begin_ r) ->
  exists r', pushError start limit message None r = (Ok true, r')
    /\ getStructuredErrors r' = getStructuredErrors r ++ [(start, limit, message)].
Proof.
  intros Hs Hl. unfold pushError. rewrite bind_get. cbv zeta.
  rewrite (proj2 (Z.ltb_ge _ _)), (proj2 (Z.ltb_ge _ limit)) by lia. cbn [orb].
  unfold offset. rewrite !(proj2 (Z.leb_le _ _)) by lia. cbn [andb]. eexists. split; [done|].
  unfold getStructuredErrors, LegacyReader.getStructuredErrors. cbn [Reader.errors_ Reader.set_errors Reader.begin_]. rewrite map_app. cbn.
  rewrite !zlen_zdrop by lia. do 2 f_equal. repeat f_equal; lia.
Qed.

End Streams.
