(* ===== verification/Values.v ===== *)
(** * The representation of JSON values: [AliasJson::Value]
      (common/jsoncpp/lib_json/json_value.cpp, common/jsoncpp/include/json/value.h)

    An array and an object are the same [std::map], with numbers or strings as keys, so an
    array can have holes.  The file translates the operations of the class on this
    representation: conversions between types with their range checks, the order and the
    equality of values, arrays, objects and paths.  [Json] is the view the rest of the
    development has of it. *)
From Stdlib Require Import ZArith Lia.
From Stdlib Require Strings.Byte.
From S2P Require Import Prelude OrderedMap Double Real Json JsonWriter.

(** [CZString::operator<] on strings *)
#[export] Instance bytes_key : Key (list byte).
Proof.
  refine {| less := Json.key_ltb |}.
  - apply Json.key_ltb_irrefl.
  - intros a b c. apply Json.key_ltb_trans.
  - intros a b. apply Json.key_ltb_total.
Defined.

Module Values.
Export Real.

(** ** Values *)

(** [ValueHolder] with its tag.  [CZString] is a number in an array, a string in an object. *)
Inductive Value :=
| nullValue
| intValue (int_ : Z)
| uintValue (uint_ : Z)
| realValue (real_ : real)
| stringValue (string_ : list byte)
| booleanValue (bool_ : bool)
| arrayValue (map_ : list (Z * Value))
| objectValue (map_ : list (list byte * Value)).

Lemma Value_nested_ind (P : Value -> Prop) :
  P nullValue -> (forall n, P (intValue n)) -> (forall n, P (uintValue n)) ->
  (forall r, P (realValue r)) -> (forall s, P (stringValue s)) -> (forall b, P (booleanValue b)) ->
  (forall m, Forall (fun kv => P kv.2) m -> P (arrayValue m)) ->
  (forall m, Forall (fun kv => P kv.2) m -> P (objectValue m)) ->
  forall v, P v.
Proof.
  intros Hn Hi Hu Hr Hs Hb Ha Ho. fix IH 1. intros [|n|n|t|s|b|m|m];
    [exact Hn|apply Hi|apply Hu|apply Hr|apply Hs|apply Hb|..].
  - apply Ha. induction m as [|[k v] m IHm]; constructor; [apply IH|exact IHm].
  - apply Ho. induction m as [|[k v] m IHm]; constructor; [apply IH|exact IHm].
Qed.

(** [enum ValueType] *)
Inductive ValueType := null_t | int_t | uint_t | real_t | string_t | boolean_t | array_t | object_t.

#[export] Instance ValueType_eq_dec : EqDecision ValueType.
Proof. solve_decision. Defined.

Definition type (v : Value) : ValueType :=
  match v with
  | nullValue => null_t
  | intValue _ => int_t
  | uintValue _ => uint_t
  | realValue _ => real_t
  | stringValue _ => string_t
  | booleanValue _ => boolean_t
  | arrayValue _ => array_t
  | objectValue _ => object_t
  end.

(** The numbers of the enumeration. *)
Definition rank (t : ValueType) : Z :=
  match t with
  | null_t => 0 | int_t => 1 | uint_t => 2 | real_t => 3
  | string_t => 4 | boolean_t => 5 | array_t => 6 | object_t => 7
  end.

(** [Value(ValueType)] *)
Definition new_Value (t : ValueType) : Value :=
  match t with
  | null_t => nullValue
  | int_t => intValue 0
  | uint_t => uintValue 0
  | real_t => realValue (finite (Double.mkDouble false 0 0))
  | string_t => stringValue []
  | boolean_t => booleanValue false
  | array_t => arrayValue []
  | object_t => objectValue []
  end.

(** ** Order and equality *)

(** [operator<] of two values, both ways at once: [lexicographical_compare] on maps asks
    for either order of two entries.  [cmp a b] is [(a < b, b < a)]. *)
Section Lexicographic.
Context {K : Type} `{Key K}.
Variable cmp : Value -> Value -> bool * bool.

Fixpoint lex (m1 m2 : list (K * Value)) : bool * bool :=
  match m1, m2 with
  | [], [] => (false, false)
  | [], _ :: _ => (true, false)
  | _ :: _, [] => (false, true)
  | (k1, v1) :: m1', (k2, v2) :: m2' =>
      let '(vlt, vgt) := cmp v1 v2 in
      let lt := less k1 k2 || negb (less k2 k1) && vlt in
      let gt := less k2 k1 || negb (less k1 k2) && vgt in
      let '(rlt, rgt) := lex m1' m2' in
      (lt || negb gt && rlt, gt || negb lt && rgt)
  end.

Definition map_cmp (m1 m2 : list (K * Value)) : bool * bool :=
  if negb (zlen m1 =? zlen m2) then (zlen m1 <? zlen m2, zlen m2 <? zlen m1) else lex m1 m2.

Variable eqv : Value -> Value -> bool.

(** [std::equal] on the entries *)
Fixpoint all_eq (m1 m2 : list (K * Value)) : bool :=
  match m1, m2 with
  | [], [] => true
  | (k1, v1) :: m1', (k2, v2) :: m2' => bool_decide (k1 = k2) && eqv v1 v2 && all_eq m1' m2'
  | _, _ => false
  end.
End Lexicographic.

Fixpoint value_cmp (a b : Value) {struct a} : bool * bool :=
  let typeDelta := rank (type a) - rank (type b) in
  if negb (typeDelta =? 0) then (typeDelta <? 0, 0 <? typeDelta)
  else
    match a, b with
    | intValue x, intValue y | uintValue x, uintValue y => (x <? y, y <? x)
    | realValue x, realValue y => (real_lt x y, real_lt y x)
    | booleanValue x, booleanValue y => (negb x && y, negb y && x)
    | stringValue x, stringValue y => (less x y, less y x)
    | arrayValue m1, arrayValue m2 => map_cmp value_cmp m1 m2
    | objectValue m1, objectValue m2 => map_cmp value_cmp m1 m2
    | _, _ => (false, false)
    end.

Definition operator_lt (a b : Value) : bool := (value_cmp a b).1.
Definition operator_le (a b : Value) : bool := negb (operator_lt b a).
Definition operator_ge (a b : Value) : bool := negb (operator_lt a b).
Definition operator_gt (a b : Value) : bool := operator_lt b a.

Definition compare (a b : Value) : Z := if operator_lt a b then -1 else if operator_gt a b then 1 else 0.

Fixpoint operator_eq (a b : Value) {struct a} : bool :=
  if negb (bool_decide (type a = type b)) then false
  else
    match a, b with
    | nullValue, nullValue => true
    | intValue x, intValue y | uintValue x, uintValue y => x =? y
    | realValue x, realValue y => real_eq x y
    | booleanValue x, booleanValue y => Bool.eqb x y
    | stringValue x, stringValue y => bool_decide (x = y)
    | arrayValue m1, arrayValue m2 => (zlen m1 =? zlen m2) && all_eq operator_eq m1 m2
    | objectValue m1, objectValue m2 => (zlen m1 =? zlen m2) && all_eq operator_eq m1 m2
    | _, _ => false
    end.

Definition operator_ne (a b : Value) : bool := negb (operator_eq a b).

(** ** Types and conversions *)

Definition isNull (v : Value) : bool := bool_decide (type v = null_t).
Definition isBool (v : Value) : bool := bool_decide (type v = boolean_t).
Definition isString (v : Value) : bool := bool_decide (type v = string_t).
Definition isArray (v : Value) : bool := bool_decide (type v = array_t).
Definition isObject (v : Value) : bool := bool_decide (type v = object_t).

Definition isInt (v : Value) : bool :=
  match v with
  | intValue n => (minInt <=? n) && (n <=? maxInt)
  | uintValue n => n <=? maxInt
  | realValue r => real_le (real_of_Z minInt) r && real_le r (real_of_Z maxInt) && IsIntegral r
  | _ => false
  end.

Definition isUInt (v : Value) : bool :=
  match v with
  | intValue n => (0 <=? n) && (u64 n <=? maxUInt)
  | uintValue n => n <=? maxUInt
  | realValue r => real_le (real_of_Z 0) r && real_le r (real_of_Z maxUInt) && IsIntegral r
  | _ => false
  end.

Definition isInt64 (v : Value) : bool :=
  match v with
  | intValue _ => true
  | uintValue n => n <=? maxInt64
  | realValue r => real_le (real_of_Z minInt64) r && real_lt r (real_of_Z maxInt64) && IsIntegral r
  | _ => false
  end.

Definition isUInt64 (v : Value) : bool :=
  match v with
  | intValue n => 0 <=? n
  | uintValue _ => true
  | realValue r => real_le (real_of_Z 0) r && real_lt r maxUInt64AsDouble && IsIntegral r
  | _ => false
  end.

Definition isIntegral (v : Value) : bool :=
  match v with
  | intValue _ | uintValue _ => true
  | realValue r => real_le (real_of_Z minInt64) r && real_lt r maxUInt64AsDouble && IsIntegral r
  | _ => false
  end.

Definition isDouble (v : Value) : bool :=
  bool_decide (type v = int_t) || bool_decide (type v = uint_t) || bool_decide (type v = real_t).

Definition isNumeric (v : Value) : bool := isDouble v.

(** [JSON_ASSERT] *)
Definition json_assert (b : bool) : outcome unit := if b then mret tt else Throw json_logic_error.

(** [getString] and [asCString]: the bytes *)
Definition getString (v : Value) : option (list byte) :=
  match v with stringValue s => Some s | _ => None end.

Definition asCString (v : Value) : outcome (list byte) :=
  match v with stringValue s => mret s | _ => Throw json_logic_error end.

Definition asString (v : Value) : outcome (list byte) :=
  match v with
  | nullValue => mret []
  | stringValue s => mret s
  | booleanValue b => mret (if b then bs "true" else bs "false")
  | intValue n => Writer.valueToString_int n
  | uintValue n => Writer.valueToString_uint n
  | realValue r => mret (real_text r)
  | _ => Throw json_logic_error
  end.

Definition asInt (v : Value) : outcome Z :=
  match v with
  | intValue n => _ ← json_assert (isInt v); mret (i32 n)
  | uintValue n => _ ← json_assert (isInt v); mret (i32 n)
  | realValue r => _ ← json_assert (InRange r minInt maxInt); cast r minInt maxInt
  | nullValue => mret 0
  | booleanValue b => mret (if b then 1 else 0)
  | _ => Throw json_logic_error
  end.

Definition asUInt (v : Value) : outcome Z :=
  match v with
  | intValue n => _ ← json_assert (isUInt v); mret (u32 n)
  | uintValue n => _ ← json_assert (isUInt v); mret (u32 n)
  | realValue r => _ ← json_assert (InRange r 0 maxUInt); cast r 0 maxUInt
  | nullValue => mret 0
  | booleanValue b => mret (if b then 1 else 0)
  | _ => Throw json_logic_error
  end.

Definition asInt64 (v : Value) : outcome Z :=
  match v with
  | intValue n => mret n
  | uintValue n => _ ← json_assert (isInt64 v); mret (i64 n)
  | realValue r => _ ← json_assert (InRange r minInt64 maxInt64); cast r minInt64 maxInt64
  | nullValue => mret 0
  | booleanValue b => mret (if b then 1 else 0)
  | _ => Throw json_logic_error
  end.

Definition asUInt64 (v : Value) : outcome Z :=
  match v with
  | intValue n => _ ← json_assert (isUInt64 v); mret (u64 n)
  | uintValue n => mret n
  | realValue r => _ ← json_assert (InRange r 0 maxUInt64); cast r 0 maxUInt64
  | nullValue => mret 0
  | booleanValue b => mret (if b then 1 else 0)
  | _ => Throw json_logic_error
  end.

Definition asLargestInt (v : Value) : outcome Z := asInt64 v.
Definition asLargestUInt (v : Value) : outcome Z := asUInt64 v.

Definition asDouble (v : Value) : outcome real :=
  match v with
  | intValue n => mret (real_of_Z n)
  | uintValue n => mret (real_of_Z n)
  | realValue r => mret r
  | nullValue => mret (real_of_Z 0)
  | booleanValue b => mret (real_of_Z (if b then 1 else 0))
  | _ => Throw json_logic_error
  end.

(** [static_cast<float>]: 24 bits of mantissa unless the number is subnormal, infinite beyond
    the largest float. *)
Definition float_of_ratio (neg : bool) (n d : Z) : real :=
  if n =? 0 then finite (Double.mkDouble neg 0 0)
  else
    let e := Z.max (Double.leading_bit n d - 23) (-149) in
    let q := if 0 <=? e then Double.round_even n (d * 2 ^ e) else Double.round_even (n * 2 ^ (- e)) d in
    let '(q, e) := if q =? 2 ^ 24 then (2 ^ 23, e + 1) else (q, e) in
    if 104 <? e then infinite neg else finite (Double.mkDouble neg q e).

Definition float_of (r : real) : real :=
  match r with
  | finite d => let '(n, m) := Double.ratio d in float_of_ratio (Double.sign d) n m
  | infinite neg => infinite neg
  | nan => nan
  end.

Definition asFloat (v : Value) : outcome real :=
  match v with
  | intValue n => mret (float_of_ratio (n <? 0) (Z.abs n) 1)
  | uintValue n => mret (float_of_ratio false n 1)
  | realValue r => mret (float_of r)
  | nullValue => mret (float_of_ratio false 0 1)
  | booleanValue b => mret (float_of_ratio false (if b then 1 else 0) 1)
  | _ => Throw json_logic_error
  end.

Definition asBool (v : Value) : outcome bool :=
  match v with
  | booleanValue b => mret b
  | nullValue => mret false
  | intValue n => mret (negb (n =? 0))
  | uintValue n => mret (negb (n =? 0))
  | realValue r => mret (real_truth r)
  | _ => Throw json_logic_error
  end.

Definition isConvertibleTo (v : Value) (other : ValueType) : bool :=
  match other with
  | null_t =>
      (isNumeric v && match asDouble v with Ok r => real_eq r (real_of_Z 0) | _ => false end)
      || match v with
         | booleanValue b => negb b
         | stringValue s => bool_decide (s = [])
         | arrayValue m => bool_decide (m = [])
         | objectValue m => bool_decide (m = [])
         | nullValue => true
         | _ => false
         end
  | int_t => isInt v || match v with realValue r => InRange r minInt maxInt | _ => false end || isBool v || isNull v
  | uint_t => isUInt v || match v with realValue r => InRange r 0 maxUInt | _ => false end || isBool v || isNull v
  | real_t => isNumeric v || isBool v || isNull v
  | boolean_t => isNumeric v || isBool v || isNull v
  | string_t => isNumeric v || isBool v || isString v || isNull v
  | array_t => isArray v || isNull v
  | object_t => isObject v || isNull v
  end.

(** ** Arrays *)

(** The index behind the last entry. *)
Definition map_end (m : list (Z * Value)) : Z :=
  match last m with Some (i, _) => u32 (i + 1) | None => 0 end.

Definition size (v : Value) : Z :=
  match v with
  | arrayValue m => map_end m
  | objectValue m => u32 (zlen m)
  | _ => 0
  end.

Definition empty (v : Value) : bool := if isNull v || isArray v || isObject v then size v =? 0 else false.

Definition operator_bool (v : Value) : bool := negb (isNull v).

Definition clear (v : Value) : outcome Value :=
  match v with
  | nullValue => mret nullValue
  | arrayValue _ => mret (arrayValue [])
  | objectValue _ => mret (objectValue [])
  | _ => Throw json_logic_error
  end.

(** The entries of a value used as an array; a null value becomes an array. *)
Definition as_array (v : Value) : outcome (list (Z * Value)) :=
  match v with
  | nullValue => mret []
  | arrayValue m => mret m
  | _ => Throw json_logic_error
  end.

(** The value [operator[](ArrayIndex)] designates, made null when there is none, and the
    array afterwards. *)
Definition demand_index (m : list (Z * Value)) (index : Z) : Value * list (Z * Value) :=
  match OMap.find index m with
  | Some x => (x, m)
  | None => (nullValue, OMap.put index nullValue m)
  end.

Definition at_index (v : Value) (index : Z) : outcome (Value * Value) :=
  m ← as_array v; let '(x, m') := demand_index m index in mret (x, arrayValue m').

(** [operator[](int)] *)
Definition at_int (v : Value) (index : Z) : outcome (Value * Value) :=
  _ ← json_assert (0 <=? index); at_index v (u32 index).

(** [v[index] = x] *)
Definition assign_index (v : Value) (index : Z) (x : Value) : outcome Value :=
  m ← as_array v; mret (arrayValue (OMap.put index x m)).

(** [operator[](ArrayIndex) const]; [None] is the null singleton. *)
Definition find_index (v : Value) (index : Z) : outcome (option Value) :=
  m ← as_array v; mret (OMap.find index m).

Definition const_index (v : Value) (index : Z) : outcome Value := x ← find_index v index; mret (default nullValue x).

(** [operator[](int) const] *)
Definition const_int (v : Value) (index : Z) : outcome Value :=
  _ ← json_assert (0 <=? index); const_index v (u32 index).

(** [get(ArrayIndex, defaultValue)] *)
Definition get_index (v : Value) (index : Z) (defaultValue : Value) : outcome Value :=
  x ← find_index v index; mret (default defaultValue x).

Definition isValidIndex (v : Value) (index : Z) : bool := index <? size v.

(** The loop of [resize] that erases the entries from [index] on. *)
Fixpoint erase_from (n : nat) (index : Z) (m : list (Z * Value)) : list (Z * Value) :=
  match n with
  | O => m
  | S n' => erase_from n' (index + 1) (OMap.erase index m)
  end.

Definition resize (v : Value) (newSize : Z) : outcome Value :=
  m ← as_array v;
  let oldSize := size (arrayValue m) in
  if newSize =? 0 then clear (arrayValue m)
  else if oldSize <? newSize then '(_, v') ← at_index (arrayValue m) (newSize - 1); mret v'
  else
    let m' := erase_from (Z.to_nat (oldSize - newSize)) newSize m in
    _ ← json_assert (size (arrayValue m') =? newSize); mret (arrayValue m').

Definition append (v x : Value) : outcome Value :=
  m ← as_array v;
  let index := size (arrayValue m) in
  (* [emplace] does not overwrite *)
  mret (arrayValue (match OMap.find index m with Some _ => m | None => OMap.put index x m end)).

(** One step of [insert]: [self[i] = std::move(self[i - 1])], which swaps. *)
Definition shift_right (m : list (Z * Value)) (i : Z) : list (Z * Value) :=
  let '(x, m1) := demand_index m i in
  let '(y, m2) := demand_index m1 (i - 1) in
  OMap.put i y (OMap.put (i - 1) x m2).

(** The loop of [insert] from [i] down, [n] steps. *)
Fixpoint shift_loop (n : nat) (i : Z) (m : list (Z * Value)) : list (Z * Value) :=
  match n with
  | O => m
  | S n' => shift_loop n' (i - 1) (shift_right m i)
  end.

(** [insert]: the answer and the value afterwards *)
Definition insert (v : Value) (index : Z) (newValue : Value) : outcome (bool * Value) :=
  m ← as_array v;
  let length := size v in
  if length <? index then mret (false, v)
  else
    let m' := shift_loop (Z.to_nat (length - index)) length m in
    mret (true, arrayValue (OMap.put index newValue m')).

(** The loop of [removeIndex]: [self[i] = self[i + 1]], [n] times. *)
Fixpoint close_gap (n : nat) (i : Z) (m : list (Z * Value)) : list (Z * Value) :=
  match n with
  | O => m
  | S n' => let '(x, m') := demand_index m (i + 1) in close_gap n' (i + 1) (OMap.put i x m')
  end.

(** [removeIndex]: the element removed, if any, and the value afterwards *)
Definition removeIndex (v : Value) (index : Z) : option Value * Value :=
  match v with
  | arrayValue m =>
      match OMap.find index m with
      | None => (None, v)
      | Some removed =>
          let oldSize := size v in
          let m' := close_gap (Z.to_nat (oldSize - 1 - index)) index m in
          (Some removed, arrayValue (OMap.erase (oldSize - 1) m'))
      end
  | _ => (None, v)
  end.

(** ** Objects *)

(** [CZString(str, length, policy)] keeps 30 bits of the length. *)
Definition CZString (key : list byte) : list byte := take (Z.to_nat (Z.land (u32 (zlen key)) 1073741823)) key.

Definition as_object (v : Value) : outcome (list (list byte * Value)) :=
  match v with
  | nullValue => mret []
  | objectValue m => mret m
  | _ => Throw json_logic_error
  end.

(** [find(begin, end)] *)
Definition find (v : Value) (key : list byte) : outcome (option Value) :=
  m ← as_object v; mret (OMap.find (CZString key) m).

(** [resolveReference], [demand], [operator[]] on a key: the value designated, made null
    when there is none, and the object afterwards *)
Definition resolveReference (v : Value) (key : list byte) : outcome (Value * Value) :=
  m ← as_object v;
  match OMap.find (CZString key) m with
  | Some x => mret (x, objectValue m)
  | None => mret (nullValue, objectValue (OMap.put (CZString key) nullValue m))
  end.

(** [v[key] = x] *)
Definition assign (v : Value) (key : list byte) (x : Value) : outcome Value :=
  m ← as_object v; mret (objectValue (OMap.put (CZString key) x m)).

(** [operator[](key) const] *)
Definition const_key (v : Value) (key : list byte) : outcome Value := x ← find v key; mret (default nullValue x).

(** [get(key, defaultValue)] *)
Definition get (v : Value) (key : list byte) (defaultValue : Value) : outcome Value :=
  x ← find v key; mret (default defaultValue x).

Definition isMember (v : Value) (key : list byte) : outcome bool :=
  x ← find v key; mret (match x with Some _ => true | None => false end).

(** [removeMember(begin, end, removed)]: the member removed, if any, and the value afterwards *)
Definition removeMember (v : Value) (key : list byte) : option Value * Value :=
  match v with
  | objectValue m =>
      match OMap.find (CZString key) m with
      | None => (None, v)
      | Some removed => (Some removed, objectValue (OMap.erase (CZString key) m))
      end
  | _ => (None, v)
  end.

(** [removeMember(key)] *)
Definition drop_member (v : Value) (key : list byte) : outcome Value :=
  match v with
  | nullValue => mret v
  | objectValue m => mret (objectValue (OMap.erase (CZString key) m))
  | _ => Throw json_logic_error
  end.

Definition getMemberNames (v : Value) : outcome (list (list byte)) := m ← as_object v; mret m.*1.

(** ** Paths *)

Inductive PathArgument :=
| kindNone
| kindIndex (index_ : Z)
| kindKey (key_ : list byte).

Definition same_kind (a b : PathArgument) : bool :=
  match a, b with
  | kindNone, kindNone | kindIndex _, kindIndex _ | kindKey _, kindKey _ => true
  | _, _ => false
  end.

(** [addPathInArg]: the arguments added and those left *)
Definition addPathInArg (kind : PathArgument) (ins : list PathArgument) : list PathArgument * list PathArgument :=
  match ins with
  | a :: ins' => if same_kind a kind then ([a], ins') else ([], ins)
  | [] => ([], [])
  end.

(** The digits of an index, in the width of [ArrayIndex]. *)
Fixpoint path_digits (index : Z) (l : list byte) : Z * list byte :=
  match l with
  | b :: l' =>
      if (48 <=? byte_Z b) && (byte_Z b <=? 57) then path_digits (u32 (index * 10 + (byte_Z b - 48))) l'
      else (index, l)
  | [] => (index, [])
  end.

(** A name: up to the next bracket or dot; [strchr] also finds the terminating zero. *)
Fixpoint path_name (l : list byte) : list byte * list byte :=
  match l with
  | b :: l' =>
      if bool_decide (b = Byte.x5b) || bool_decide (b = Byte.x2e) || bool_decide (b = Byte.x00) then ([], l)
      else let '(n, r) := path_name l' in (b :: n, r)
  | [] => ([], [])
  end.

(** [makePath].  A name can be empty, at a zero byte, where the loop stays: the fuel tells
    it from a path that ends. *)
Fixpoint makePath (fuel : nat) (l : list byte) (ins args : list PathArgument) : outcome (list PathArgument) :=
  match fuel with
  | O => OutOfFuel
  | S fuel' =>
      match l with
      | [] => mret args
      | b :: l' =>
          if bool_decide (b = Byte.x5b) then
            let '(added, ins', rest) :=
              match l' with
              | c :: _ => if bool_decide (c = Byte.x25)
                          then let '(a, i) := addPathInArg (kindIndex 0) ins in (a, i, l')
                          else let '(index, r) := path_digits 0 l' in ([kindIndex index], ins, r)
              | [] => ([kindIndex 0], ins, [])
              end in
            (* [current == end || *++current != ']'] *)
            makePath fuel' (drop 1 rest) ins' (args ++ added)
          else if bool_decide (b = Byte.x25) then
            let '(added, ins') := addPathInArg (kindKey []) ins in
            makePath fuel' l' ins' (args ++ added)
          else if bool_decide (b = Byte.x2e) || bool_decide (b = Byte.x5d) then makePath fuel' l' ins args
          else let '(n, r) := path_name l in makePath fuel' r ins (args ++ [kindKey n])
      end
  end.

(** [Path(path, a1, ..., a5)] *)
Definition Path (path : list byte) (ins : list PathArgument) : outcome (list PathArgument) :=
  makePath (S (length path)) path ins [].

(** [Path::resolve(root)] and [resolve(root, defaultValue)]: [None] where they give up *)
Fixpoint resolve_path (args : list PathArgument) (node : Value) : outcome (option Value) :=
  match args with
  | [] => mret (Some node)
  | kindNone :: args' => resolve_path args' node
  | kindIndex i :: args' =>
      if negb (isArray node) || negb (isValidIndex node i) then mret None
      else x ← const_index node i; resolve_path args' x
  | kindKey k :: args' =>
      if negb (isObject node) then mret None
      else x ← find node k; match x with None => mret None | Some x => resolve_path args' x end
  end.

Definition resolve (args : list PathArgument) (root : Value) : outcome Value :=
  x ← resolve_path args root; mret (default nullValue x).

Definition resolve_default (args : list PathArgument) (root defaultValue : Value) : outcome Value :=
  x ← resolve_path args root; mret (default defaultValue x).

(** [Path::make(root) = x]: the root afterwards *)
Fixpoint make (args : list PathArgument) (root x : Value) : outcome Value :=
  match args with
  | [] => mret x
  | kindNone :: args' => make args' root x
  | kindIndex i :: args' =>
      '(node, root') ← at_index root i; node' ← make args' node x; assign_index root' i node'
  | kindKey k :: args' =>
      '(node, root') ← resolveReference root k; node' ← make args' node x; assign root' k node'
  end.

End Values.
