(* ===== verification/Storage.v ===== *)
(** * The memory of JSON values
      (common/jsoncpp/lib_json/json_value.cpp, common/jsoncpp/include/json/value.h)

    [Value] and [CZString] keep their strings in blocks of [malloc], with flags that say
    which of them they own: a string value in a block with its length in front, a key in a
    block of its own unless its policy is not to duplicate it.  The file translates
    constructors, copying, moving, assignment and destruction and the operations that make
    and remove entries, on a heap whose [malloc] may fail.  Values.v is what they mean.
    The memory of [std::map] and [std::string] is the library's; making it does not fail
    here. *)
From Stdlib Require Import ZArith Lia.
From Stdlib Require Strings.Byte.
From S2P Require Import Prelude Double Real CLib JsonReader Values.

Module Storage.
Import Values (ValueType, null_t, int_t, uint_t, real_t, string_t, boolean_t, array_t, object_t).
Import Real (real).

#[local] Existing Instance Values.ValueType_eq_dec.

(** ** The heap *)

(** The blocks in use, and what [malloc] will answer: [None] is a null pointer, otherwise
    the block is full of some byte; after the answers it succeeds. *)
Record Heap := mkHeap {
  blocks : gmap positive (list byte);
  answers : list (option byte)
}.

Abbreviation H := (M Heap).

(** A pointer to characters outside the heap, or into a block. *)
Inductive ptr :=
| static (bytes : list byte)
| block (a : positive) (ofs : Z).

Definition set_blocks (h : Heap) (b : gmap positive (list byte)) : Heap := mkHeap b (answers h).

Definition malloc (n : Z) : H (option positive) := fun h =>
  let '(answer, rest) := match answers h with x :: rest => (x, rest) | [] => (Some Byte.x00, []) end in
  match answer with
  | None => (Ok None, mkHeap (blocks h) rest)
  | Some b =>
      let a := fresh (dom (blocks h)) in
      (Ok (Some a), mkHeap (<[a := replicate (Z.to_nat n) b]> (blocks h)) rest)
  end.

(** [free]: of anything but the start of a block in use it is undefined. *)
Definition free (p : ptr) : H unit :=
  match p with
  | block a 0 =>
      h ← get;
      match blocks h !! a with
      | Some _ => modify (fun h => set_blocks h (delete a (blocks h)))
      | None => undefined
      end
  | _ => undefined
  end.

(** [memcpy] into a block *)
Definition store (a : positive) (ofs : Z) (bytes : list byte) : H unit :=
  h ← get;
  match blocks h !! a with
  | Some b => b' ← lift (memcpy b ofs bytes (zlen bytes)); modify (fun h => set_blocks h (<[a := b']> (blocks h)))
  | None => undefined
  end.

Definition plus (p : ptr) (n : Z) : ptr :=
  match p with
  | static m => static (zdrop n m)
  | block a ofs => block a (ofs + n)
  end.

(** The [n] bytes at [p]. *)
Definition load (p : ptr) (n : Z) : H (list byte) :=
  match p with
  | static m => lift (memread m 0 n)
  | block a ofs =>
      h ← get;
      match blocks h !! a with
      | Some b => lift (memread b ofs n)
      | None => undefined
      end
  end.

Definition strlen_of (m : list byte) : outcome Z :=
  match CLib.split_at Byte.x00 m with Some (before, _) => Ok (zlen before) | None => UB end.

Definition strlen (p : ptr) : H Z :=
  match p with
  | static m => lift (strlen_of m)
  | block a ofs =>
      h ← get;
      match blocks h !! a with
      | Some b => lift (strlen_of (zdrop ofs b))
      | None => undefined
      end
  end.

(** An [unsigned] in memory, low byte first. *)
Definition le32 (z : Z) : list byte := rev (be32 z).
Definition of_le32 (l : list byte) : Z := of_be32 (rev l).

(** What is destroyed while an exception passes. *)
Definition unwinding {A} (m : H A) (cleanup : H unit) : H A := try m (fun e => _ ← cleanup; throw e).

(** ** Strings *)

Definition duplicateStringValue (value : ptr) (length : Z) : H ptr :=
  let length := if Real.maxInt <=? length then Real.maxInt - 1 else length in
  newString ← malloc (length + 1);
  match newString with
  | None => throw json_runtime_error
  | Some a =>
      bytes ← load value length;
      _ ← store a 0 bytes;
      _ ← store a length [Byte.x00];
      mret (block a 0)
  end.

(** [JSON_ASSERT_MESSAGE] throws a [LogicError]. *)
Definition duplicateAndPrefixStringValue (value : ptr) (length : Z) : H ptr :=
  if negb (length <=? Real.maxInt - 4 - 1) then throw json_logic_error
  else
    let actualLength := 4 + length + 1 in
    newString ← malloc actualLength;
    match newString with
    | None => throw json_runtime_error
    | Some a =>
        _ ← store a 0 (le32 length);
        bytes ← load value length;
        _ ← store a 4 bytes;
        _ ← store a (actualLength - 1) [Byte.x00];
        mret (block a 0)
    end.

(** The length and the characters. *)
Definition decodePrefixedString (isPrefixed : bool) (prefixed : ptr) : H (Z * ptr) :=
  if negb isPrefixed then length ← strlen prefixed; mret (u32 length, prefixed)
  else bytes ← load prefixed 4; mret (of_le32 bytes, plus prefixed 4).

Definition releasePrefixedStringValue (value : ptr) : H unit := free value.
Definition releaseStringValue (value : ptr) : H unit := free value.

(** ** Keys *)

(** [enum DuplicationPolicy] *)
Definition noDuplication : Z := 0.
Definition duplicate : Z := 1.
Definition duplicateOnCopy : Z := 2.

(** [index_] and [storage_] are the same 32 bits. *)
Record CZString := mkCZ {
  cstr_ : option ptr;
  index_ : Z
}.

Definition storage (policy length : Z) : Z := Z.lor policy (Z.shiftl length 2).
Definition policy_ (k : CZString) : Z := Z.land (index_ k) 3.
Definition length_ (k : CZString) : Z := Z.shiftr (index_ k) 2.

Definition index_key (index : Z) : CZString := mkCZ None index.

Definition string_key (str : ptr) (length allocate : Z) : CZString :=
  mkCZ (Some str) (storage (Z.land allocate 3) (Z.land length 1073741823)).

Definition copy_CZString (other : CZString) : H CZString :=
  cstr ← (match cstr_ other with
          | Some p =>
              if negb (policy_ other =? noDuplication)
              then q ← duplicateStringValue p (length_ other); mret (Some q)
              else mret (Some p)
          | None => mret None
          end);
  let policy := match cstr_ other with
                | Some _ => if policy_ other =? noDuplication then noDuplication else duplicate
                | None => policy_ other
                end in
  mret (mkCZ cstr (storage (Z.land policy 3) (length_ other))).

(** The new key and what is left of the old one. *)
Definition move_CZString (other : CZString) : CZString * CZString := (other, mkCZ None (index_ other)).

Definition destroy_CZString (k : CZString) : H unit :=
  match cstr_ k with
  | Some p => if policy_ k =? duplicate then releaseStringValue p else mret tt
  | None => mret tt
  end.

(** [operator=(const CZString&)], which shares the characters *)
Definition assign_CZString (self other : CZString) : CZString := mkCZ (cstr_ other) (index_ other).

(** [operator=(CZString&& )]: the key and what is left of the other *)
Definition move_assign_CZString (self other : CZString) : CZString * CZString := (other, mkCZ None (index_ other)).

Definition swap_CZString (a b : CZString) : CZString * CZString := (b, a).

Definition isStaticString (k : CZString) : bool := policy_ k =? noDuplication.

Fixpoint memcmp (x y : list byte) : comparison :=
  match x, y with
  | a :: x', b :: y' => match byte_Z a ?= byte_Z b with Eq => memcmp x' y' | c => c end
  | _, _ => Eq
  end.

(** [operator<] *)
Definition less_CZString (a b : CZString) : H bool :=
  match cstr_ a with
  | None => mret (index_ a <? index_ b)
  | Some p =>
      let min_len := Z.min (length_ a) (length_ b) in
      match cstr_ b with
      | None => throw json_logic_error
      | Some q =>
          x ← load p min_len;
          y ← load q min_len;
          mret (match memcmp x y with Lt => true | Gt => false | Eq => length_ a <? length_ b end)
      end
  end.

(** [operator==] *)
Definition equal_CZString (a b : CZString) : H bool :=
  match cstr_ a with
  | None => mret (index_ a =? index_ b)
  | Some p =>
      if negb (length_ a =? length_ b) then mret false
      else
        match cstr_ b with
        | None => throw json_logic_error
        | Some q =>
            x ← load p (length_ a);
            y ← load q (length_ a);
            mret (match memcmp x y with Eq => true | _ => false end)
        end
  end.

(** ** Values *)

(** [Comments]: the strings of the three placements, once there is one; and the offsets *)
Record Meta := mkMeta {
  comments_ : option (list (list byte));
  start_ : Z;
  limit_ : Z
}.

Definition no_meta : Meta := mkMeta None 0 0.

(** [ValueHolder]; [unset] is the holder of a null value. *)
Inductive ValueHolder (V : Type) :=
| unset
| int_ (n : Z)
| uint_ (n : Z)
| real_ (r : real)
| bool_ (b : bool)
| string_ (p : ptr)
| map_ (entries : list (CZString * V)).
#[global] Arguments unset {V}.
#[global] Arguments int_ {V} n.
#[global] Arguments uint_ {V} n.
#[global] Arguments real_ {V} r.
#[global] Arguments bool_ {V} b.
#[global] Arguments string_ {V} p.
#[global] Arguments map_ {V} entries.

Inductive Rep := mkRep (value_type_ : ValueType) (allocated_ : bool) (value_ : ValueHolder Rep) (meta : Meta).

Definition value_type_ (r : Rep) : ValueType := let '(mkRep t _ _ _) := r in t.
Definition allocated_ (r : Rep) : bool := let '(mkRep _ b _ _) := r in b.
Definition value_ (r : Rep) : ValueHolder Rep := let '(mkRep _ _ h _) := r in h.
Definition meta (r : Rep) : Meta := let '(mkRep _ _ _ m) := r in m.

(** [initBasic] *)
Definition initBasic (type : ValueType) (allocated : bool) (h : ValueHolder Rep) : Rep := mkRep type allocated h no_meta.

(** *** Constructors *)

Definition new_Value (type : ValueType) : Rep :=
  initBasic type false
    match type with
    | null_t => unset
    | int_t => int_ 0
    | uint_t => uint_ 0
    | real_t => real_ (Real.finite (Double.mkDouble false 0 0))
    | string_t => string_ (static [Byte.x00])
    | boolean_t => bool_ false
    | array_t | object_t => map_ []
    end.

Definition Value_int (value : Z) : Rep := initBasic int_t false (int_ value).
Definition Value_uint (value : Z) : Rep := initBasic uint_t false (uint_ value).
Definition Value_real (value : real) : Rep := initBasic real_t false (real_ value).
Definition Value_bool (value : bool) : Rep := initBasic boolean_t false (bool_ value).

(** [Value(const char* ): p], which is not null *)
Definition Value_cstring (value : ptr) : H Rep :=
  n ← strlen value;
  p ← duplicateAndPrefixStringValue value (u32 n);
  mret (initBasic string_t true (string_ p)).

(** [Value(const String&)] and [Value(begin, end)], with the length cut to 32 bits *)
Definition Value_string (value : list byte) : H Rep :=
  p ← duplicateAndPrefixStringValue (static value) (u32 (zlen value));
  mret (initBasic string_t true (string_ p)).

Definition Value_static (value : ptr) : Rep := initBasic string_t false (string_ value).

(** *** Destruction *)

Section entries.
Context (destroy : Rep -> H unit) (copy : Rep -> H Rep).

(** A [std::pair] is destroyed from its last member on. *)
Definition destroy_pair (kv : CZString * Rep) : H unit := _ ← destroy kv.2; destroy_CZString kv.1.

Fixpoint destroy_entries (l : list (CZString * Rep)) : H unit :=
  match l with
  | [] => mret tt
  | kv :: l' => _ ← destroy_pair kv; destroy_entries l'
  end.

Definition copy_pair (kv : CZString * Rep) : H (CZString * Rep) :=
  k ← copy_CZString kv.1;
  v ← unwinding (copy kv.2) (destroy_CZString k);
  mret (k, v).

(** The copy of a [std::map], which destroys what it has copied when an exception comes *)
Fixpoint copy_entries (l : list (CZString * Rep)) : H (list (CZString * Rep)) :=
  match l with
  | [] => mret []
  | kv :: l' =>
      kv' ← copy_pair kv;
      l'' ← unwinding (copy_entries l') (destroy_pair kv');
      mret (kv' :: l'')
  end.
End entries.

Fixpoint releasePayload (r : Rep) : H unit :=
  match r with
  | mkRep type allocated value _ =>
      match type with
      | null_t | int_t | uint_t | real_t | boolean_t => mret tt
      | string_t =>
          if allocated then match value with string_ p => releasePrefixedStringValue p | _ => undefined end
          else mret tt
      | array_t | object_t => match value with map_ l => destroy_entries releasePayload l | _ => undefined end
      end
  end.

(** [~Value] *)
Definition destroy (r : Rep) : H unit := releasePayload r.

(** *** Copying and moving *)

(** [dupPayload]: the new type, [allocated_] and holder.  A copy of a map copies its values,
    their comments and offsets too. *)
Fixpoint dupPayload (other : Rep) : H (bool * ValueHolder Rep) :=
  match other with
  | mkRep type allocated value _ =>
      match type with
      | null_t | int_t | uint_t | real_t | boolean_t => mret (false, value)
      | string_t =>
          match value with
          | string_ p =>
              if allocated then
                '(len, str) ← decodePrefixedString allocated p;
                q ← duplicateAndPrefixStringValue str len;
                mret (true, string_ q)
              else mret (false, string_ p)
          | _ => undefined
          end
      | array_t | object_t =>
          match value with
          | map_ l =>
              l' ← copy_entries destroy
                     (fun v => '(allocated, value) ← dupPayload v; mret (mkRep (value_type_ v) allocated value (meta v))) l;
              mret (false, map_ l')
          | _ => undefined
          end
      end
  end.

(** [Value(const Value&)] *)
Definition copy (other : Rep) : H Rep :=
  '(allocated, value) ← dupPayload other; mret (mkRep (value_type_ other) allocated value (meta other)).

Definition swapPayload (a b : Rep) : Rep * Rep :=
  (mkRep (value_type_ b) (allocated_ b) (value_ b) (meta a), mkRep (value_type_ a) (allocated_ a) (value_ a) (meta b)).

Definition swap (a b : Rep) : Rep * Rep :=
  let '(a', b') := swapPayload a b in
  (mkRep (value_type_ a') (allocated_ a') (value_ a') (meta b), mkRep (value_type_ b') (allocated_ b') (value_ b') (meta a)).

(** [Value(Value&&)]: the new value and what is left of the other *)
Definition move (other : Rep) : Rep * Rep := swap (initBasic null_t false unset) other.

(** [operator=(const Value&)] *)
Definition operator_assign (self other : Rep) : H Rep :=
  tmp ← copy other;
  let '(tmp, self) := swap tmp self in
  _ ← destroy tmp;
  mret self.

(** [operator=(Value&&)] *)
Definition move_assign (self other : Rep) : Rep * Rep := let '(other, self) := swap other self in (self, other).

(** [copyPayload]: the payload is released first; when the copy fails the value is left with
    the type of the other and its own old holder. *)
Definition copyPayload (self other : Rep) : H (Rep * option exn) :=
  _ ← releasePayload self;
  try ('(allocated, value) ← dupPayload other; mret (mkRep (value_type_ other) allocated value (meta self), None))
    (fun e => mret (mkRep (value_type_ other) false (value_ self) (meta self), Some e)).

(** [copy(other)]: comments and offsets follow when the payload was copied. *)
Definition copy_into (self other : Rep) : H (Rep * option exn) :=
  '(r, failed) ← copyPayload self other;
  mret (match failed with
        | None => mkRep (value_type_ r) (allocated_ r) (value_ r) (meta other)
        | Some _ => r
        end, failed).

(** *** Entries *)

(** [lower_bound]: the position of the first entry that is not below the key *)
Fixpoint lower_bound (l : list (CZString * Rep)) (key : CZString) : H nat :=
  match l with
  | [] => mret 0%nat
  | (k, _) :: l' => b ← less_CZString k key; if (b : bool) then n ← lower_bound l' key; mret (S n) else mret 0%nat
  end.

Definition nullSingleton : Rep := new_Value null_t.

(** [operator[](ArrayIndex)] and [resolveReference], for a container of the given type: the
    value afterwards and the position of the entry, made with a null value when there is
    none; its pair is made first and then copied into the map.  A null value has become an
    empty container before the entry is made and stays one when an exception comes, which is
    returned with it. *)
Definition demand_key (container : ValueType) (self : Rep) (key : CZString) : H (Rep * (exn + nat)) :=
  if negb (bool_decide (value_type_ self = null_t) || bool_decide (value_type_ self = container))
  then throw json_logic_error
  else
    self ← (if bool_decide (value_type_ self = null_t) then
              let '(self, tmp) := move_assign self (new_Value container) in _ ← destroy tmp; mret self
            else mret self);
    try
      match value_ self with
      | map_ l =>
          it ← lower_bound l key;
          found ← (match l !! it with Some (k, _) => equal_CZString k key | None => mret false end);
          if (found : bool) then mret (self, inr it)
          else
            defaultValue ← copy_pair copy (key, nullSingleton);
            entry ← unwinding (copy_pair copy defaultValue) (destroy_pair destroy defaultValue);
            _ ← destroy_pair destroy defaultValue;
            mret (mkRep (value_type_ self) (allocated_ self) (map_ (take it l ++ entry :: drop it l)) (meta self), inr it)
      | _ => undefined
      end
      (fun e => mret (self, inl e)).

Definition resolveReference (self : Rep) (key : ptr) (length : Z) : H (Rep * (exn + nat)) :=
  demand_key object_t self (string_key key (u32 length) duplicateOnCopy).

(** [resolveReference(const char* )] for a [StaticString]: the key is not copied. *)
Definition resolveReference_static (self : Rep) (key : ptr) : H (Rep * (exn + nat)) :=
  n ← strlen key; demand_key object_t self (string_key key (u32 n) noDuplication).

Definition at_index (self : Rep) (index : Z) : H (Rep * (exn + nat)) := demand_key array_t self (index_key index).

(** The value of an entry. *)
Definition entry (self : Rep) (it : nat) : option Rep :=
  match value_ self with map_ l => snd <$> l !! it | _ => None end.

Definition set_entry (self : Rep) (it : nat) (v : Rep) : Rep :=
  match value_ self with
  | map_ l =>
      mkRep (value_type_ self) (allocated_ self) (map_ (alter (fun kv => (kv.1, v)) it l)) (meta self)
  | _ => self
  end.

(** [removeMember(begin, end, removed)]; with [removed] the old value of it is destroyed with
    the entry *)
Definition removeMember (self : Rep) (key : ptr) (length : Z) (removed : option Rep) : H (bool * Rep * option Rep) :=
  match value_type_ self, value_ self with
  | object_t, map_ l =>
      let actualKey := string_key key (u32 length) noDuplication in
      it ← lower_bound l actualKey;
      match l !! it with
      | None => mret (false, self, removed)
      | Some (k, v) =>
          above ← less_CZString actualKey k;
          if (above : bool) then mret (false, self, removed)
          else
            let '(removed, v) := match removed with
                                 | Some old => let '(a, b) := move_assign old v in (Some a, b)
                                 | None => (None, v)
                                 end in
            _ ← destroy_pair destroy (k, v);
            mret (true, mkRep (value_type_ self) (allocated_ self) (map_ (delete it l)) (meta self), removed)
      end
  | object_t, _ => undefined
  | _, _ => mret (false, self, removed)
  end.

Definition clear (self : Rep) : H Rep :=
  match value_type_ self with
  | null_t => mret (mkRep null_t (allocated_ self) (value_ self) (mkMeta (comments_ (meta self)) 0 0))
  | array_t | object_t =>
      match value_ self with
      | map_ l =>
          _ ← destroy_entries destroy l;
          mret (mkRep (value_type_ self) (allocated_ self) (map_ []) (mkMeta (comments_ (meta self)) 0 0))
      | _ => undefined
      end
  | _ => throw json_logic_error
  end.

(** [size] of an array *)
Definition array_size (l : list (CZString * Rep)) : Z :=
  match last l with Some (k, _) => u32 (index_ k + 1) | None => 0 end.

(** [append(Value&& )]: the array afterwards; [value] is moved from.  [emplace] makes the
    entry and destroys it again when the index is taken. *)
Definition append_moved (self value : Rep) : H Rep :=
  if negb (bool_decide (value_type_ self = null_t) || bool_decide (value_type_ self = array_t))
  then throw json_logic_error
  else
    self ← (if bool_decide (value_type_ self = null_t) then
              let '(self, tmp) := move_assign self (new_Value array_t) in _ ← destroy tmp; mret self
            else mret self);
    match value_ self with
    | map_ l =>
        let key := index_key (array_size l) in
        let '(v, value) := move value in
        it ← lower_bound l key;
        taken ← (match l !! it with Some (k, _) => equal_CZString k key | None => mret false end);
        if (taken : bool) then _ ← destroy_pair destroy (key, v); mret self
        else mret (mkRep (value_type_ self) (allocated_ self) (map_ (take it l ++ (key, v) :: drop it l)) (meta self))
    | _ => undefined
    end.

(** [append(const Value& )]: the copy it makes is destroyed at the end, which matters when the
    value is no array *)
Definition append (self value : Rep) : H Rep :=
  tmp ← copy value; unwinding (append_moved self tmp) (destroy tmp).

(** *** Reading *)

Definition getString (r : Rep) : H (option (list byte)) :=
  match value_type_ r, value_ r with
  | string_t, string_ p =>
      '(length, str) ← decodePrefixedString (allocated_ r) p;
      bytes ← load str length;
      mret (Some bytes)
  | string_t, _ => undefined
  | _, _ => mret None
  end.

(** ** Comments and offsets *)

Import Reader (CommentPlacement, commentBefore, commentAfterOnSameLine, commentAfter).

Definition slot (p : CommentPlacement) : nat :=
  match p with commentBefore => 0 | commentAfterOnSameLine => 1 | commentAfter => 2 end.

(** [Comments::has], [get] and [set] *)
Definition Comments_has (c : option (list (list byte))) (p : CommentPlacement) : bool :=
  match c with Some a => negb (bool_decide (default [] (a !! slot p) = [])) | None => false end.

Definition Comments_get (c : option (list (list byte))) (p : CommentPlacement) : list byte :=
  match c with Some a => default [] (a !! slot p) | None => [] end.

Definition Comments_set (c : option (list (list byte))) (p : CommentPlacement) (comment : list byte)
  : option (list (list byte)) :=
  Some (<[slot p := comment]> (default [[]; []; []] c)).

Definition with_meta (r : Rep) (me : Meta) : Rep := mkRep (value_type_ r) (allocated_ r) (value_ r) me.

(** A trailing newline is dropped. *)
Definition trimmed (comment : list byte) : list byte :=
  match last comment with
  | Some c => if bool_decide (c = Byte.x0a) then take (length comment - 1) comment else comment
  | None => comment
  end.

Definition setComment (r : Rep) (comment : list byte) (p : CommentPlacement) : outcome Rep :=
  let comment := trimmed comment in
  _ ← Values.json_assert (negb (bool_decide (comment = [])));
  _ ← Values.json_assert (match comment with
                          | c :: _ => bool_decide (c = Byte.x00) || bool_decide (c = Byte.x2f)
                          | [] => false
                          end);
  let me := meta r in
  mret (with_meta r (mkMeta (Comments_set (comments_ me) p comment) (start_ me) (limit_ me))).

Definition hasComment (r : Rep) (p : CommentPlacement) : bool := Comments_has (comments_ (meta r)) p.
Definition getComment (r : Rep) (p : CommentPlacement) : list byte := Comments_get (comments_ (meta r)) p.

Definition setOffsetStart (r : Rep) (start : Z) : Rep := with_meta r (mkMeta (comments_ (meta r)) start (limit_ (meta r))).
Definition setOffsetLimit (r : Rep) (limit : Z) : Rep := with_meta r (mkMeta (comments_ (meta r)) (start_ (meta r)) limit).
Definition getOffsetStart (r : Rep) : Z := start_ (meta r).
Definition getOffsetLimit (r : Rep) : Z := limit_ (meta r).

(** A comment is read back without its newline, the others stay, and the value is not touched. *)
Lemma comment_read_back r text p r' : (forall a, comments_ (meta r) = Some a -> length a = 3%nat) ->
  setComment r text p = Ok r' ->
  getComment r' p = trimmed text /\ hasComment r' p = true
  /\ (forall q, q <> p -> getComment r' q = getComment r q)
  /\ value_type_ r' = value_type_ r /\ value_ r' = value_ r.
Proof.
  intros Hl E. apply outcome_bind_Ok in E as ([] & Ha & E). apply outcome_bind_Ok in E as ([] & _ & E). injection E as <-.
  set (a := default [[]; []; []] (comments_ (meta r))).
  assert (length a = 3%nat) as Hn by (unfold a; destruct (comments_ (meta r)) as [b|] eqn:E; [by apply (Hl b)|done]).
  assert ((<[slot p := trimmed text]> a) !! slot p = Some (trimmed text)) as Hp by (apply list_lookup_insert_eq; rewrite Hn; destruct p; cbn; lia).
  unfold getComment, hasComment, Comments_set. cbn [meta with_meta comments_ Comments_get Comments_has value_type_ value_]. fold a. rewrite Hp.
  split_and!; [done| | |done|done].
  - cbn [default]. unfold Values.json_assert in Ha. by destruct (negb _).
  - intros q Hq. rewrite list_lookup_insert_ne by (by destruct p, q). unfold a. destruct (comments_ (meta r)) as [b|]; [done|by destruct q].
Qed.

End Storage.
