(* ===== verification/Memory.v ===== *)
(** * What the blocks of a value hold, and who owns them

    The proofs about Storage.v: a representation relation between a value with its blocks
    and the value it stands for, the blocks a value owns, and that copying makes exactly
    the blocks of the copy, destruction frees exactly those of its value, and an allocation
    that fails leaves the heap as it was.  Keys of arrays and of objects meet the same
    interface, [Stored], so that the proofs about entries are done once. *)
From Stdlib Require Import ZArith Lia Bool.
From Stdlib Require Strings.Byte.
From S2P Require Import Prelude OrderedMap Json Double Real CLib Values Storage.

Module Memory.
Import Storage.
Import Values (null_t, int_t, uint_t, real_t, string_t, boolean_t, array_t, object_t).
#[local] Existing Instance Values.ValueType_eq_dec.

Abbreviation mem := (gmap positive (list byte)).

(** ** Heaps that grow and shrink *)

(** [m'] is [m] with the new blocks [l]. *)
Record grown (m m' : mem) (l : list positive) : Prop := mkGrown {
  gr_nodup : NoDup l;
  gr_new : forall a, a ∈ l -> m !! a = None /\ is_Some (m' !! a);
  gr_old : forall a, a ∉ l -> m' !! a = m !! a
}.

(** [m'] is [m] without the blocks [l]. *)
Record shrunk (m m' : mem) (l : list positive) : Prop := mkShrunk {
  sh_gone : forall a, a ∈ l -> m' !! a = None;
  sh_rest : forall a, a ∉ l -> m' !! a = m !! a
}.

Lemma grown_nil m : grown m m [].
Proof. split; [constructor|set_solver|done]. Qed.

Lemma shrunk_nil m : shrunk m m [].
Proof. split; [set_solver|done]. Qed.

Lemma grown_fresh m m' l a : grown m m' l -> is_Some (m !! a) -> a ∉ l.
Proof. intros Hg [x Hx] Ha. apply (gr_new _ _ _ Hg) in Ha as [? _]. congruence. Qed.

Lemma grown_app m m1 m2 l1 l2 : grown m m1 l1 -> grown m1 m2 l2 -> grown m m2 (l1 ++ l2).
Proof.
  intros H1 H2.
  assert (forall a, a ∈ l1 -> a ∉ l2) as Hd.
  { intros a Ha. apply (grown_fresh _ _ _ _ H2). by apply (gr_new _ _ _ H1). }
  split.
  - apply NoDup_app. split_and!; [apply H1|done|apply H2].
  - intros a [Ha|Ha]%elem_of_app.
    + destruct (gr_new _ _ _ H1 a Ha) as [? ?]. split; [done|]. by rewrite (gr_old _ _ _ H2) by auto.
    + destruct (gr_new _ _ _ H2 a Ha) as [? ?]. split; [|done].
      destruct (decide (a ∈ l1)) as [Ha1|]; [by destruct (Hd a Ha1)|]. by rewrite <- (gr_old _ _ _ H1).
  - intros a [??]%not_elem_of_app. by rewrite (gr_old _ _ _ H2), (gr_old _ _ _ H1).
Qed.

Lemma shrunk_app m m1 m2 l1 l2 : shrunk m m1 l1 -> shrunk m1 m2 l2 -> shrunk m m2 (l1 ++ l2).
Proof.
  intros H1 H2. split.
  - intros a Ha. destruct (decide (a ∈ l2)); [by apply H2|]. rewrite (sh_rest _ _ _ H2) by done.
    apply H1. apply elem_of_app in Ha. by destruct Ha.
  - intros a [??]%not_elem_of_app. by rewrite (sh_rest _ _ _ H2), (sh_rest _ _ _ H1).
Qed.

Lemma shrunk_perm m m' l l' : shrunk m m' l -> (forall a, a ∈ l <-> a ∈ l') -> shrunk m m' l'.
Proof. intros [Hg Hr] Hl. split; intros a Ha; [apply Hg|apply Hr]; by rewrite Hl. Qed.

(** What was made and is freed again is gone. *)
Lemma grown_shrunk m m1 m2 l : grown m m1 l -> shrunk m1 m2 l -> m2 = m.
Proof.
  intros Hg Hs. apply map_eq. intros a. destruct (decide (a ∈ l)) as [Ha|Ha].
  - rewrite (sh_gone _ _ _ Hs) by done. symmetry. by apply (gr_new _ _ _ Hg).
  - by rewrite (sh_rest _ _ _ Hs), (gr_old _ _ _ Hg).
Qed.

(** What is made, copied and destroyed again: the copy is left. *)
Lemma grown_copy m m1 m2 m3 l1 l2 : grown m m1 l1 -> grown m1 m2 l2 -> shrunk m2 m3 l1 -> grown m m3 l2.
Proof.
  intros H1 H2 H3. pose proof (grown_app _ _ _ _ _ H1 H2) as H12. pose proof (gr_nodup _ _ _ H12) as Hn.
  apply NoDup_app in Hn as (_ & Hd & _). split; [apply H2|..]; intros a Ha.
  - destruct (gr_new _ _ _ H12 a) as [? ?]; [apply elem_of_app; auto|]. split; [done|].
    rewrite (sh_rest _ _ _ H3); [done|]. intros ?. by apply (Hd a).
  - destruct (decide (a ∈ l1)) as [H1a|H1a].
    + rewrite (sh_gone _ _ _ H3) by done. symmetry. by apply (gr_new _ _ _ H1).
    + rewrite (sh_rest _ _ _ H3), (gr_old _ _ _ H2), (gr_old _ _ _ H1) by done. done.
Qed.

(** ** The primitives *)

(** The characters [s] are at [p]. *)
Definition readable (m : mem) (p : ptr) (s : list byte) : Prop :=
  match p with
  | static b => exists b', b = s ++ b'
  | block a ofs => exists pre post, m !! a = Some (pre ++ s ++ post) /\ zlen pre = ofs
  end.

Lemma memread_app pre s post : memread (pre ++ s ++ post) (zlen pre) (zlen s) = Ok s.
Proof.
  pose proof (zlen_nonneg pre). pose proof (zlen_nonneg s). pose proof (zlen_nonneg post).
  rewrite memread_ok by (rewrite ?zlen_app; lia). by rewrite zdrop_app_eq, ztake_app_eq.
Qed.

Lemma load_run p s h : readable (blocks h) p s -> load p (zlen s) h = (Ok s, h).
Proof.
  destruct p as [b|a ofs].
  - intros [b' ->]. unfold load. pose proof (memread_app [] s b') as E. cbn in E. change (zlen []) with 0 in E. unfold lift. by rewrite E.
  - intros (pre & post & Ha & <-). unfold load. rewrite bind_get, Ha. unfold lift. by rewrite memread_app.
Qed.

Lemma malloc_spec n h : wp (malloc n)
  (fun x h' => match x with
               | None => blocks h' = blocks h
               | Some a => blocks h !! a = None /\ exists b, blocks h' = <[a := replicate (Z.to_nat n) b]> (blocks h)
               end) (fun _ _ => False) h.
Proof.
  unfold wp, malloc. destruct (match answers h with x :: rest => (x, rest) | [] => _ end) as [[b|] rest]; [|done]. cbn.
  split; [|by eexists]. apply not_elem_of_dom, is_fresh.
Qed.

Lemma store_run a ofs bytes pre mid post h :
  blocks h !! a = Some (pre ++ mid ++ post) -> zlen pre = ofs -> zlen mid = zlen bytes ->
  store a ofs bytes h = (Ok tt, set_blocks h (<[a := pre ++ bytes ++ post]> (blocks h))).
Proof.
  intros Ha <- Hm. unfold store. rewrite bind_get, Ha.
  pose proof (zlen_nonneg pre). pose proof (zlen_nonneg mid). pose proof (zlen_nonneg post).
  rewrite memcpy_ok by (rewrite ?zlen_app; lia). rewrite bind_lift. unfold modify. do 3 f_equal.
  rewrite (ztake_app_eq (zlen pre)) by done. rewrite (ztake_all (zlen bytes)) by lia.
  by rewrite (app_assoc pre mid), zdrop_app_eq by (rewrite zlen_app; lia).
Qed.

Lemma free_run a h b : blocks h !! a = Some b -> free (block a 0) h = (Ok tt, set_blocks h (delete a (blocks h))).
Proof. intros Ha. unfold free. by rewrite bind_get, Ha. Qed.

Lemma shrunk_delete m a : shrunk m (delete a m) [a].
Proof.
  split; intros k Hk.
  - apply list_elem_of_singleton in Hk as ->. apply lookup_delete_eq.
  - apply lookup_delete_ne. set_solver.
Qed.

Lemma grown_insert m a b : m !! a = None -> grown m (<[a := b]> m) [a].
Proof.
  intros Ha. split; [apply NoDup_singleton|..]; intros k Hk.
  - apply list_elem_of_singleton in Hk as ->. by rewrite lookup_insert_eq.
  - apply lookup_insert_ne. set_solver.
Qed.

(** An allocation failed and nothing has changed. *)
Definition no_memory (h : Heap) (e : exn) (h' : Heap) : Prop := e = json_runtime_error /\ blocks h' = blocks h.

Lemma readable_frame m m' p s : readable m p s -> (forall a, is_Some (m !! a) -> m' !! a = m !! a) -> readable m' p s.
Proof.
  destruct p as [b|a ofs]; [done|]. intros (pre & post & Ha & Ho) Hm. exists pre, post. by rewrite Hm.
Qed.

Lemma zlen_replicate {A} n (x : A) : 0 <= n -> zlen (replicate (Z.to_nat n) x) = n.
Proof. intros. unfold zlen. rewrite length_replicate. lia. Qed.

Lemma replicate_split {A} n k (x : A) : 0 <= n -> 0 <= k ->
  replicate (Z.to_nat (n + k)) x = replicate (Z.to_nat n) x ++ replicate (Z.to_nat k) x.
Proof. intros. by rewrite <- replicate_add, <- Z2Nat.inj_add. Qed.

Lemma duplicateString_spec p s h : readable (blocks h) p s -> zlen s < Real.maxInt ->
  wp (duplicateStringValue p (zlen s))
    (fun q h' => exists a, q = block a 0 /\ blocks h !! a = None /\ blocks h' = <[a := s ++ [Byte.x00]]> (blocks h)) (no_memory h) h.
Proof.
  intros Hp Hs. pose proof (zlen_nonneg s). unfold duplicateStringValue. rewrite (proj2 (Z.leb_gt _ _)) by lia.
  wps. eapply wp_mono; [apply malloc_spec| |done]. intros [a|] h1; [|intros Hn; by wps].
  intros (Ha & b & E). rewrite replicate_split in E by lia. wps. unfold wp at 1. rewrite load_run.
  2: { eapply readable_frame; [exact Hp|]. rewrite E. intros k [x Hk]. apply lookup_insert_ne. congruence. }
  wps. unfold wp at 1.
  rewrite (store_run a 0 s [] (replicate (Z.to_nat (zlen s)) b) (replicate (Z.to_nat 1) b))
    by (rewrite ?E, ?lookup_insert_eq, ?zlen_replicate by lia; done).
  wps. unfold wp at 1. rewrite (store_run a (zlen s) [Byte.x00] s (replicate (Z.to_nat 1) b) []).
  2: { cbn [blocks set_blocks]. by rewrite lookup_insert_eq. }
  2, 3: done.
  wps. exists a. split_and!; [done|done|]. cbn [blocks set_blocks]. by rewrite E, !insert_insert_eq.
Qed.

Lemma duplicatePrefix_spec p s h : readable (blocks h) p s -> zlen s <= Real.maxInt - 5 ->
  wp (duplicateAndPrefixStringValue p (zlen s))
    (fun q h' => exists a, q = block a 0 /\ blocks h !! a = None
       /\ blocks h' = <[a := le32 (zlen s) ++ s ++ [Byte.x00]]> (blocks h)) (no_memory h) h.
Proof.
  intros Hp Hs. pose proof (zlen_nonneg s). unfold duplicateAndPrefixStringValue.
  rewrite (proj2 (Z.leb_le _ _)) by lia. cbn [negb]. cbv zeta.
  wps. eapply wp_mono; [apply malloc_spec| |done]. intros [a|] h1; [|intros Hn; by wps].
  intros (Ha & b & E). rewrite !replicate_split in E by lia. rewrite <- app_assoc in E.
  set (s1 := replicate (Z.to_nat 4) b) in *. set (s2 := replicate (Z.to_nat (zlen s)) b) in *. set (s3 := replicate (Z.to_nat 1) b) in *.
  assert (zlen s2 = zlen s) as E2 by (apply zlen_replicate; lia).
  wps. unfold wp at 1. rewrite (store_run a 0 (le32 (zlen s)) [] s1 (s2 ++ s3)) by (rewrite ?E, ?lookup_insert_eq; done).
  cbn [app]. wps. unfold wp at 1. rewrite load_run.
  2: { eapply readable_frame; [exact Hp|]. cbn [blocks set_blocks]. rewrite E, insert_insert_eq.
       intros k [x Hk]. apply lookup_insert_ne. congruence. }
  wps. unfold wp at 1. rewrite (store_run a 4 s (le32 (zlen s)) s2 s3) by (cbn [blocks set_blocks]; rewrite ?lookup_insert_eq; done).
  wps. unfold wp at 1. rewrite (store_run a (4 + zlen s + 1 - 1) [Byte.x00] (le32 (zlen s) ++ s) s3 []).
  2: { cbn [blocks set_blocks]. rewrite lookup_insert_eq. by rewrite <- app_assoc. }
  2: { rewrite zlen_app. change (zlen (le32 (zlen s))) with 4. lia. }
  2: done.
  wps. exists a. split_and!; [done|done|]. cbn [blocks set_blocks]. rewrite E, !insert_insert_eq. by rewrite <- app_assoc.
Qed.

(** ** Keys *)

Lemma storage_policy p l : 0 <= p < 4 -> Z.land (storage p l) 3 = p.
Proof.
  intros Hp. unfold storage. change 3 with (Z.ones 2). rewrite Z.land_lor_distr_l, !Z.land_ones, Z.shiftl_mul_pow2 by lia.
  rewrite Z.mod_mul by lia. by rewrite Z.mod_small, Z.lor_0_r by lia.
Qed.

Lemma storage_length p l : 0 <= p < 4 -> Z.shiftr (storage p l) 2 = l.
Proof.
  intros Hp. unfold storage. rewrite Z.shiftr_lor, Z.shiftr_shiftl_l, Z.shiftr_div_pow2 by lia.
  rewrite Z.div_small by lia. by rewrite Z.shiftl_0_r.
Qed.

(** An index survives the copy through the two bit fields. *)
Lemma storage_index i : storage (Z.land (Z.land i 3) 3) (Z.shiftr i 2) = i.
Proof.
  unfold storage. rewrite <- Z.land_assoc, Z.land_diag. change 3 with (Z.ones 2). rewrite <- Z.ldiff_ones_r by lia.
  rewrite Z.lor_comm. apply Z.lor_ldiff_and.
Qed.

Definition owned_key (k : CZString) : list positive :=
  match cstr_ k with
  | Some (block a _) => if policy_ k =? duplicate then [a] else []
  | _ => []
  end.

Lemma owned_key_nodup k : NoDup (owned_key k).
Proof. unfold owned_key. destruct (cstr_ k) as [[|a ofs]|]; [constructor| |constructor]. case_if; [apply NoDup_singleton|constructor]. Qed.

(** What the entries of a map need of their keys. *)
Class Stored (K : Type) `{Key K} := {
  stored : mem -> CZString -> K -> Prop;
  stored_owned m k x a : stored m k x -> a ∈ owned_key k -> is_Some (m !! a);
  stored_frame m m' k x : stored m k x -> (forall a, a ∈ owned_key k -> m' !! a = m !! a) -> stored m' k x;
  stored_copy h k x : stored (blocks h) k x ->
    wp (copy_CZString k) (fun k' h' => grown (blocks h) (blocks h') (owned_key k') /\ stored (blocks h') k' x) (no_memory h) h;
  stored_destroy h k x : stored (blocks h) k x ->
    wp (destroy_CZString k) (fun _ h' => shrunk (blocks h) (blocks h') (owned_key k)) (fun _ _ => False) h;
  stored_less h k k' x x' : stored (blocks h) k x -> stored (blocks h) k' x' -> less_CZString k k' h = (Ok (less x x'), h);
  stored_equal h k k' x x' : stored (blocks h) k x -> stored (blocks h) k' x' ->
    equal_CZString k k' h = (Ok (bool_decide (x = x')), h)
}.

(** *** Indices *)

#[export] Instance index_stored : Stored Z.
Proof.
  refine {| stored := fun _ k i => k = index_key i |}.
  - intros m k x a -> Ha. by apply elem_of_nil in Ha.
  - done.
  - intros h k x ->. unfold copy_CZString, policy_, length_. cbn [cstr_ index_ index_key]. wps. wps. wps.
    rewrite storage_index. split; [apply grown_nil|done].
  - intros h k x ->. apply wp_mret, shrunk_nil.
  - by intros h k k' x x' -> ->.
  - intros h k k' x x' -> ->. unfold equal_CZString. cbn. unfold mret, M_ret. do 2 f_equal. apply eq_true_iff_eq. by rewrite Z.eqb_eq, bool_decide_eq_true.
Defined.

(** *** Names *)

(** The characters of a key: in its own block, or somewhere outside the heap. *)
Definition stored_name (m : mem) (k : CZString) (key : list byte) : Prop :=
  zlen key < 2 ^ 30 /\ length_ k = zlen key /\
  ((policy_ k = duplicate /\ exists a, cstr_ k = Some (block a 0) /\ m !! a = Some (key ++ [Byte.x00]))
   \/ (policy_ k <> duplicate /\ exists b, cstr_ k = Some (static (key ++ b)))).

Lemma name_readable m k key : stored_name m k key -> exists p, cstr_ k = Some p /\ readable m p key.
Proof.
  intros (_ & _ & [(_ & a & Hc & Ha)|(_ & b & Hc)]); eexists; (split; [exact Hc|]); cbn; [|by eexists].
  by exists [], [Byte.x00].
Qed.

Lemma name_owned m k key : stored_name m k key -> 
  (exists a, cstr_ k = Some (block a 0) /\ policy_ k = duplicate /\ owned_key k = [a] /\ m !! a = Some (key ++ [Byte.x00]))
  \/ (policy_ k <> duplicate /\ owned_key k = [] /\ exists b, cstr_ k = Some (static (key ++ b))).
Proof.
  intros (_ & _ & [(Hp & a & Hc & Ha)|(Hp & b & Hc)]); [left|right].
  - exists a. unfold owned_key. by rewrite Hc, Hp.
  - unfold owned_key. rewrite Hc. split_and!; [done|done|by eexists].
Qed.

(** [memcmp] on the common length and then the lengths: the order of keys. *)
Lemma memcmp_less x : forall y,
  match memcmp (take (Nat.min (length x) (length y)) x) (take (Nat.min (length x) (length y)) y) with
  | Lt => true
  | Gt => false
  | Eq => zlen x <? zlen y
  end = Json.key_ltb x y.
Proof.
  induction x as [|a x IH]; intros [|b y]; [done..|]. cbn [length Nat.min take memcmp Json.key_ltb]. unfold Json.byte_ltb.
  destruct (Z.compare_spec (byte_Z a) (byte_Z b)) as [E|E|E].
  - rewrite E, Z.ltb_irrefl. cbn [negb orb andb]. rewrite <- IH, !zlen_cons.
    destruct (memcmp _ _); [|done..]. apply eq_true_iff_eq. rewrite !Z.ltb_lt. lia.
  - by rewrite (proj2 (Z.ltb_lt _ _)).
  - rewrite (proj2 (Z.ltb_ge _ _)) by lia. by rewrite (proj2 (Z.ltb_lt (byte_Z b) _)).
Qed.

Lemma memcmp_equal x : forall y, length x = length y -> memcmp x y = Eq <-> x = y.
Proof.
  induction x as [|a x IH]; intros [|b y] Hl; try done. cbn [memcmp]. injection Hl as Hl.
  destruct (Z.compare_spec (byte_Z a) (byte_Z b)) as [E|E|E].
  - apply Json.byte_Z_inj in E as ->. rewrite IH by done. split; [by intros ->|by intros [= ->]].
  - split; [done|]. intros [= -> ->]. lia.
  - split; [done|]. intros [= -> ->]. lia.
Qed.

Lemma readable_take m p s n : readable m p s -> readable m p (take n s).
Proof.
  intros H. rewrite <- (take_drop n s) in H. destruct p as [b|a ofs]; cbn in *.
  - destruct H as [b' ->]. rewrite <- app_assoc. by eexists.
  - destruct H as (pre & post & Ha & Ho). exists pre, (drop n s ++ post). by rewrite Ha, <- app_assoc.
Qed.

Lemma name_load h k key n : stored_name (blocks h) k key -> 0 <= n <= zlen key ->
  exists p, cstr_ k = Some p /\ load p n h = (Ok (take (Z.to_nat n) key), h).
Proof.
  intros Hk Hn. destruct (name_readable _ _ _ Hk) as (p & Hc & Hp). exists p. split; [done|].
  replace n with (zlen (take (Z.to_nat n) key)) at 1; [by apply load_run, readable_take|].
  unfold zlen in *. rewrite length_take. lia.
Qed.

Lemma name_less h k k' x x' : stored_name (blocks h) k x -> stored_name (blocks h) k' x' ->
  less_CZString k k' h = (Ok (Json.key_ltb x x'), h).
Proof.
  intros H H'. pose proof (zlen_nonneg x). pose proof (zlen_nonneg x'). pose proof H as (_ & El & _). pose proof H' as (_ & El' & _).
  unfold less_CZString. rewrite El, El'.
  destruct (name_load h k x (Z.min (zlen x) (zlen x')) H ltac:(lia)) as (p & -> & Ep).
  destruct (name_load h k' x' (Z.min (zlen x) (zlen x')) H' ltac:(lia)) as (q & -> & Eq).
  rewrite (bind_run _ _ _ _ _ Ep), (bind_run _ _ _ _ _ Eq). unfold mret, M_ret. do 2 f_equal. rewrite <- memcmp_less.
  by replace (Z.to_nat (Z.min (zlen x) (zlen x'))) with (Nat.min (length x) (length x')) by (unfold zlen; lia).
Qed.

Lemma name_equal h k k' x x' : stored_name (blocks h) k x -> stored_name (blocks h) k' x' ->
  equal_CZString k k' h = (Ok (bool_decide (x = x')), h).
Proof.
  intros H H'. pose proof (zlen_nonneg x). pose proof H as (_ & El & _). pose proof H' as (_ & El' & _).
  unfold equal_CZString. rewrite El, El'. destruct (name_load h k x (zlen x) H ltac:(lia)) as (p & -> & Ep).
  destruct (Z.eqb_spec (zlen x) (zlen x')) as [E|E]; cbn [negb].
  - destruct (name_load h k' x' (zlen x) H' ltac:(lia)) as (q & -> & Eq).
    rewrite (bind_run _ _ _ _ _ Ep), (bind_run _ _ _ _ _ Eq). unfold mret, M_ret. do 2 f_equal.
    unfold zlen in *. rewrite Nat2Z.id, firstn_all, take_ge by lia.
    pose proof (memcmp_equal x x' ltac:(lia)) as Hm. case_bool_decide as Hx.
    + by rewrite (proj2 Hm Hx).
    + destruct (memcmp x x'); [by destruct Hx; apply Hm|done..].
  - unfold mret, M_ret. do 2 f_equal. symmetry. apply bool_decide_eq_false. by intros ->.
Qed.

Lemma name_copy h k x : stored_name (blocks h) k x ->
  wp (copy_CZString k) (fun k' h' => grown (blocks h) (blocks h') (owned_key k') /\ stored_name (blocks h') k' x) (no_memory h) h.
Proof.
  intros H. pose proof H as (Hx & El & Hk). destruct (name_readable _ _ _ H) as (p & Hc & Hp).
  unfold copy_CZString. rewrite Hc, El. wps. destruct (Z.eqb_spec (policy_ k) noDuplication) as [E|E]; cbn [negb].
  - wps. wps. destruct Hk as [(Ed & _)|(_ & b & Hb)]; [rewrite E in Ed; done|].
    rewrite Hc in Hb. injection Hb as ->. unfold owned_key. cbn [cstr_]. split; [apply grown_nil|].
    split_and!; [done|..]; unfold length_, policy_; cbn [index_ cstr_]; [by apply storage_length|right].
    rewrite storage_policy by done. split; [done|by eexists].
  - wps. eapply wp_mono; [apply duplicateString_spec; [done|]| |done]; [unfold Real.maxInt; lia|].
    intros q h' (a & -> & Ha & Eh). wps. wps. unfold owned_key, policy_. cbn [cstr_ index_].
    rewrite storage_policy by done. cbn [duplicate Z.eqb Pos.eqb Z.land Pos.land Z.of_N Pos.Ndouble Pos.Nsucc_double].
    split; [rewrite Eh; by apply grown_insert|].
    split_and!; [done|..]; unfold length_, policy_; cbn [index_ cstr_]; [by apply storage_length|left].
    rewrite storage_policy by done. split; [done|]. exists a. split; [done|]. by rewrite Eh, lookup_insert_eq.
Qed.

Lemma name_destroy h k x : stored_name (blocks h) k x ->
  wp (destroy_CZString k) (fun _ h' => shrunk (blocks h) (blocks h') (owned_key k)) (fun _ _ => False) h.
Proof.
  intros H. unfold destroy_CZString. destruct (name_owned _ _ _ H) as [(a & -> & -> & -> & Ha)|(Hp & -> & b & ->)].
  - rewrite Z.eqb_refl. unfold wp, releaseStringValue. rewrite (free_run _ _ _ Ha). apply shrunk_delete.
  - rewrite (proj2 (Z.eqb_neq _ _)) by done. apply wp_mret, shrunk_nil.
Qed.

#[export] Instance name_stored : Stored (list byte).
Proof.
  refine {| stored := stored_name; stored_copy := name_copy; stored_destroy := name_destroy;
            stored_less := name_less; stored_equal := name_equal |}.
  - intros m k x a Hk Ha. destruct (name_owned _ _ _ Hk) as [(b & _ & _ & E & Hb)|(_ & E & _)]; rewrite E in Ha; [|by apply elem_of_nil in Ha].
    apply list_elem_of_singleton in Ha as ->. by eexists.
  - intros m m' k x (Hx & El & Hk) Hm. split_and!; [done..|]. destruct Hk as [(Hp & a & Hc & Ha)|Hk]; [left|by right].
    split; [done|]. exists a. split; [done|]. rewrite Hm; [done|]. unfold owned_key. rewrite Hc, Hp. set_solver.
Defined.

(** ** Values *)

(** The characters of a string value that owns its block, and of one that does not. *)
Definition prefixed (m : mem) (p : ptr) (s : list byte) : Prop :=
  zlen s <= Real.maxInt - 5 /\ exists a, p = block a 0 /\ m !! a = Some (le32 (zlen s) ++ s ++ [Byte.x00]).

Definition literal (p : ptr) (s : list byte) : Prop :=
  zlen s < 2 ^ 32 /\ (Byte.x00 ∉ s) /\ exists b, p = static (s ++ Byte.x00 :: b).

Section entries.
Context {K : Type} (kr : CZString -> K -> Prop) (vr : Rep -> Values.Value -> Prop).

Fixpoint entries_repr (l : list (CZString * Rep)) (m : list (K * Values.Value)) : Prop :=
  match l, m with
  | [], [] => True
  | (k, r) :: l', (x, v) :: m' => kr k x /\ vr r v /\ entries_repr l' m'
  | _, _ => False
  end.
End entries.

(** [r] stands for the value [v]. *)
Fixpoint repr (m : mem) (r : Rep) (v : Values.Value) : Prop :=
  match r with
  | mkRep t allocated h _ =>
      match t, h, v with
      | null_t, _, Values.nullValue => True
      | int_t, int_ n, Values.intValue z => n = z
      | uint_t, uint_ n, Values.uintValue z => n = z
      | real_t, real_ x, Values.realValue y => x = y
      | boolean_t, bool_ b, Values.booleanValue c => b = c
      | string_t, string_ p, Values.stringValue s => if allocated then prefixed m p s else literal p s
      | array_t, map_ l, Values.arrayValue e => entries_repr (stored (K := Z) m) (repr m) l e
      | object_t, map_ l, Values.objectValue e => entries_repr (stored (K := list byte) m) (repr m) l e
      | _, _, _ => False
      end
  end.

(** The blocks of a value. *)
Fixpoint owned (r : Rep) : list positive :=
  match r with
  | mkRep t allocated h _ =>
      match t, h with
      | string_t, string_ (block a _) => if allocated then [a] else []
      | array_t, map_ l | object_t, map_ l => flat_map (fun kv => owned_key kv.1 ++ owned kv.2) l
      | _, _ => []
      end
  end.

Abbreviation owned_entries := (flat_map (fun kv => owned_key kv.1 ++ owned kv.2)).

Lemma Rep_nested_ind (P : Rep -> Prop) :
  (forall t allocated h me, (forall l, h = map_ l -> Forall (fun kv => P kv.2) l) -> P (mkRep t allocated h me)) -> forall r, P r.
Proof.
  intros HP. fix IH 1. intros [t allocated h me]. apply HP. intros l. destruct h as [|n|n|x|b|p|l']; try done. intros [= <-].
  induction l' as [|[k r] l' IHl]; constructor; [apply IH|exact IHl].
Qed.

(** *** Only the blocks owned matter *)

Section frame.
Context {K : Type} {EK : EqDecision K} {KK : Key K} {SK : Stored K}.

Lemma entries_owned (vr : Rep -> Values.Value -> Prop) m l : Forall (fun kv => forall v a, vr kv.2 v -> a ∈ owned kv.2 -> is_Some (m !! a)) l ->
  forall (e : list (K * Values.Value)) a, entries_repr (stored m) vr l e -> a ∈ owned_entries l -> is_Some (m !! a).
Proof.
  induction 1 as [|[k r] l Hr Hl IH]; intros [|[x v] e] a He Ha; try done; [by apply elem_of_nil in Ha|].
  destruct He as (Hk & Hv & He). cbn in Ha. rewrite !elem_of_app in Ha. destruct Ha as [[Ha|Ha]|Ha].
  - by apply (stored_owned _ _ _ _ Hk).
  - by apply (Hr v).
  - by apply (IH e).
Qed.

Lemma entries_frame (vr vr' : Rep -> Values.Value -> Prop) m m' l :
  Forall (fun kv => forall v, vr kv.2 v -> (forall a, a ∈ owned kv.2 -> m' !! a = m !! a) -> vr' kv.2 v) l ->
  (forall a, a ∈ owned_entries l -> m' !! a = m !! a) ->
  forall (e : list (K * Values.Value)), entries_repr (stored m) vr l e -> entries_repr (stored m') vr' l e.
Proof.
  induction 1 as [|[k r] l Hr Hl IH]; intros Hm [|[x v] e] He; try done. destruct He as (Hk & Hv & He). cbn in Hm.
  split_and!.
  - apply (stored_frame m); [done|]. intros a Ha. apply Hm. rewrite !elem_of_app. auto.
  - apply Hr; [done|]. intros a Ha. apply Hm. rewrite !elem_of_app. auto.
  - apply IH; [|done]. intros a Ha. apply Hm. rewrite !elem_of_app. auto.
Qed.
End frame.

Lemma repr_owned m r : forall v a, repr m r v -> a ∈ owned r -> is_Some (m !! a).
Proof.
  induction r as [t allocated h me IH] using Rep_nested_ind. intros v a Hv Ha.
  destruct t, h as [| | | | |p|l]; try by apply elem_of_nil in Ha.
  - destruct v; try done. cbn in Hv, Ha. destruct p as [|b ofs], allocated; try by apply elem_of_nil in Ha.
    destruct Hv as (_ & b' & [= -> ->] & Hb). apply list_elem_of_singleton in Ha as ->. by eexists.
  - destruct v; try done. exact (entries_owned _ m l (IH l eq_refl) _ a Hv Ha).
  - destruct v; try done. exact (entries_owned _ m l (IH l eq_refl) _ a Hv Ha).
Qed.

Lemma repr_frame m m' r : forall v, repr m r v -> (forall a, a ∈ owned r -> m' !! a = m !! a) -> repr m' r v.
Proof.
  induction r as [t allocated h me IH] using Rep_nested_ind. intros v Hv Hm.
  destruct t, h as [| | | | |p|l], v; try done.
  - cbn in Hv, Hm |- *. destruct allocated; [|done]. destruct Hv as (Hs & a & -> & Ha). split; [done|]. exists a.
    split; [done|]. rewrite Hm; [done|by apply list_elem_of_singleton].
  - exact (entries_frame _ _ m m' l (IH l eq_refl) Hm _ Hv).
  - exact (entries_frame _ _ m m' l (IH l eq_refl) Hm _ Hv).
Qed.

Lemma repr_grown m m' l r v : repr m r v -> grown m m' l -> repr m' r v.
Proof.
  intros Hv Hg. eapply repr_frame; [exact Hv|]. intros a Ha. apply (gr_old _ _ _ Hg).
  apply (grown_fresh _ _ _ _ Hg). by apply (repr_owned m r v).
Qed.

Lemma repr_shrunk m m' l r v : repr m r v -> shrunk m m' l -> (forall a, a ∈ owned r -> a ∉ l) -> repr m' r v.
Proof. intros Hv Hs Hd. eapply repr_frame; [exact Hv|]. intros a Ha. apply (sh_rest _ _ _ Hs). auto. Qed.

(** *** Destruction *)

(** The value is destroyed and with it exactly its blocks. *)
Definition destroys (d : Rep -> H unit) (r : Rep) : Prop := forall v h, repr (blocks h) r v -> NoDup (owned r) ->
  wp (d r) (fun _ h' => shrunk (blocks h) (blocks h') (owned r)) (fun _ _ => False) h.

Section destroy.
Context {K : Type} {EK : EqDecision K} {KK : Key K} {SK : Stored K}.

Lemma destroy_pair_spec d k r (x : K) v h : destroys d r ->
  stored (blocks h) k x -> repr (blocks h) r v -> NoDup (owned_key k ++ owned r) ->
  wp (destroy_pair d (k, r)) (fun _ h' => shrunk (blocks h) (blocks h') (owned_key k ++ owned r)) (fun _ _ => False) h.
Proof.
  intros Hd Hk Hv Hn. apply NoDup_app in Hn as (Hnk & Hdis & Hnr). unfold destroy_pair. wps.
  eapply wp_mono; [by apply (Hd v)| |done]. intros [] h1 H1.
  assert (stored (blocks h1) k x) as Hk1.
  { apply (stored_frame (blocks h)); [done|]. intros a Ha. apply (sh_rest _ _ _ H1). auto. }
  eapply wp_mono; [by apply (stored_destroy h1 k x)| |done]. intros [] h2 H2.
  eapply shrunk_perm; [by eapply shrunk_app|]. intros a. rewrite !elem_of_app. tauto.
Qed.

Lemma destroy_entries_spec d l : Forall (fun kv => destroys d kv.2) l ->
  forall (e : list (K * Values.Value)) h, entries_repr (stored (blocks h)) (repr (blocks h)) l e -> NoDup (owned_entries l) ->
  wp (destroy_entries d l) (fun _ h' => shrunk (blocks h) (blocks h') (owned_entries l)) (fun _ _ => False) h.
Proof.
  induction 1 as [|[k r] l Hd Hl IH]; intros [|[x v] e] h He Hn; try done; [apply wp_mret, shrunk_nil|].
  destruct He as (Hk & Hv & He). cbn [destroy_entries]. cbn [flat_map fst snd] in Hn. apply NoDup_app in Hn as (Hn & Hdis & Hnl). wps.
  eapply wp_mono; [by apply (destroy_pair_spec d k r x v)| |done]. intros [] h1 H1.
  eapply wp_mono; [apply (IH e h1)| |done]; [|done|].
  - eapply entries_frame; [|intros a Ha; apply (sh_rest _ _ _ H1); intros ?; by apply (Hdis a)|exact He].
    apply Forall_forall. intros kv _ w Hw. by apply repr_frame.
  - intros [] h2 H2. by eapply shrunk_app.
Qed.
End destroy.

Lemma release_spec r : destroys releasePayload r.
Proof.
  induction r as [t allocated hold me IH] using Rep_nested_ind. intros v h Hv Hn.
  destruct t, hold as [| | | | |p|l], v; try done; try apply wp_mret, shrunk_nil.
  - cbn in Hv |- *. destruct allocated; [|destruct p; apply wp_mret, shrunk_nil]. destruct Hv as (_ & a & -> & Ha).
    unfold wp, releasePrefixedStringValue. rewrite (free_run _ _ _ Ha). apply shrunk_delete.
  - exact (destroy_entries_spec _ l (IH l eq_refl) _ h Hv Hn).
  - exact (destroy_entries_spec _ l (IH l eq_refl) _ h Hv Hn).
Qed.

(** *** Copying *)

(** A copy stands for the same value and its blocks are new. *)
Definition copies (c : Rep -> H Rep) (r : Rep) : Prop := forall v h, repr (blocks h) r v ->
  wp (c r) (fun r' h' => grown (blocks h) (blocks h') (owned r') /\ repr (blocks h') r' v) (no_memory h) h.

(** What was made is destroyed on the way out of an exception. *)
Lemma wp_unwinding {A} (m : H A) cleanup Q h0 h l : grown (blocks h0) (blocks h) l ->
  (forall h1, blocks h1 = blocks h -> wp cleanup (fun _ h2 => shrunk (blocks h1) (blocks h2) l) (fun _ _ => False) h1) ->
  wp m Q (no_memory h) h -> wp (unwinding m cleanup) Q (no_memory h0) h.
Proof.
  intros Hg Hc Hm. unfold unwinding. wps. eapply wp_mono; [exact Hm|done|]. intros e h1 [-> E]. wps.
  eapply wp_mono; [by apply Hc| |done]. intros [] h2 Hs. wps. split; [done|]. rewrite E in Hs. by eapply grown_shrunk.
Qed.

Section copy.
Context {K : Type} {EK : EqDecision K} {KK : Key K} {SK : Stored K}.

Lemma copy_pair_spec c k r (x : K) v h : copies c r -> stored (blocks h) k x -> repr (blocks h) r v ->
  wp (copy_pair c (k, r)) (fun kv h' => grown (blocks h) (blocks h') (owned_key kv.1 ++ owned kv.2)
    /\ stored (blocks h') kv.1 x /\ repr (blocks h') kv.2 v) (no_memory h) h.
Proof.
  intros Hc Hk Hv. unfold copy_pair. wps. eapply wp_mono; [by apply stored_copy| |done]. intros k' h1 [H1 Hk'].
  wps. eapply (wp_unwinding _ _ _ _ _ _ H1).
  - intros h2 E. apply (stored_destroy h2 k' x). by rewrite E.
  - eapply wp_mono; [apply (Hc v); by eapply repr_grown| |done]. intros r' h2 [H2 Hr']. wps. cbn [fst snd].
    split_and!; [by eapply grown_app| |done]. apply (stored_frame (blocks h1)); [done|]. intros a Ha.
    apply (gr_old _ _ _ H2), (grown_fresh _ _ _ _ H2). by apply (stored_owned _ _ _ _ Hk').
Qed.

Lemma entries_grown m m' l (e : list (K * Values.Value)) n :
  entries_repr (stored m) (repr m) l e -> grown m m' n -> entries_repr (stored m') (repr m') l e.
Proof.
  intros He Hg. eapply entries_frame; [|intros a Ha; apply (gr_old _ _ _ Hg), (grown_fresh _ _ _ _ Hg)|exact He].
  - apply Forall_forall. intros kv _ w Hw. by apply repr_frame.
  - eapply entries_owned; [|exact He|exact Ha]. apply Forall_forall. intros kv _. apply repr_owned.
Qed.

Lemma copy_entries_spec c l : Forall (fun kv => copies c kv.2) l ->
  forall (e : list (K * Values.Value)) h, entries_repr (stored (blocks h)) (repr (blocks h)) l e ->
  wp (copy_entries destroy c l) (fun l' h' => grown (blocks h) (blocks h') (owned_entries l')
    /\ entries_repr (stored (blocks h')) (repr (blocks h')) l' e) (no_memory h) h.
Proof.
  induction 1 as [|[k r] l Hc Hl IH]; intros [|[x v] e] h He; try done; [apply wp_mret; split; [apply grown_nil|done]|].
  destruct He as (Hk & Hv & He). cbn [copy_entries]. wps.
  eapply wp_mono; [by apply (copy_pair_spec c k r x v)| |done]. intros [k' r'] h1 (H1 & Hk' & Hr'). cbn [fst snd] in *.
  wps. eapply (wp_unwinding _ _ _ _ _ _ H1).
  - intros h2 E. apply (destroy_pair_spec destroy k' r' x v); rewrite ?E; [apply release_spec|done|done|apply H1].
  - eapply wp_mono; [apply (IH e); by eapply entries_grown| |done]. intros l' h2 [H2 Hl']. wps. cbn [flat_map fst snd].
    split; [by eapply grown_app|]. split_and!; [|by eapply repr_grown|done].
    apply (stored_frame (blocks h1)); [done|]. intros a Ha.
    apply (gr_old _ _ _ H2), (grown_fresh _ _ _ _ H2). by apply (stored_owned _ _ _ _ Hk').
Qed.
End copy.

Lemma decode_prefixed m p s h : blocks h = m -> prefixed m p s ->
  exists q, decodePrefixedString true p h = (Ok (zlen s, q), h) /\ readable m q s.
Proof.
  intros <- (Hs & a & -> & Ha). exists (block a 4). pose proof (zlen_nonneg s). unfold decodePrefixedString. cbn [negb].
  assert (load (block a 0) 4 h = (Ok (le32 (zlen s)), h)) as E.
  { apply (load_run _ (le32 (zlen s))). by exists [], (s ++ [Byte.x00]). }
  rewrite (bind_run _ _ _ _ _ E). unfold of_le32, le32. rewrite rev_involutive, of_be32_be32 by (unfold Real.maxInt in Hs; word).
  split; [done|]. by exists (le32 (zlen s)), [Byte.x00].
Qed.

Lemma copy_spec r : copies copy r.
Proof.
  induction r as [t allocated hold me IH] using Rep_nested_ind. intros v h Hv.
  destruct t, hold as [| | | | |p|l], v; try done; unfold copy; cbn [dupPayload value_type_ meta];
    try (wps; wps; wps; split; [apply grown_nil|done]).
  - cbn in Hv. destruct allocated; [|wps; wps; wps; cbn; destruct p; split; [apply grown_nil|done|apply grown_nil|done]].
    destruct (decode_prefixed _ _ _ h eq_refl Hv) as (q & E & Hq). wps. wps. unfold wp at 1. rewrite E. wps.
    eapply wp_mono; [apply duplicatePrefix_spec; [done|apply Hv]| |done]. intros q' h' (a & -> & Ha & Eh). wps. wps. cbn.
    rewrite Eh. split; [by apply grown_insert|]. split; [apply Hv|]. exists a. by rewrite lookup_insert_eq.
  - wps. wps. eapply wp_mono; [exact (copy_entries_spec copy l (IH l eq_refl) _ h Hv)| |done]. intros l' h' Hl. by do 2 wps.
  - wps. wps. eapply wp_mono; [exact (copy_entries_spec copy l (IH l eq_refl) _ h Hv)| |done]. intros l' h' Hl. by do 2 wps.
Qed.

(** *** Assignment *)

Lemma swap_swaps a b : swap a b = (b, a).
Proof. by destruct a, b. Qed.

(** Assignment frees the blocks of the old value and makes those of the new one; a failure
    leaves everything as it was. *)
Lemma assign_spec self other v w h : repr (blocks h) self v -> NoDup (owned self) -> repr (blocks h) other w ->
  wp (operator_assign self other) (fun r h' => exists m, grown (blocks h) m (owned r) /\ shrunk m (blocks h') (owned self)
    /\ repr (blocks h') r w) (no_memory h) h.
Proof.
  intros Hs Hn Ho. unfold operator_assign. wps. eapply wp_mono; [by apply (copy_spec other w)| |done]. intros r h1 [H1 Hr].
  rewrite swap_swaps. wps. eapply wp_mono; [apply (release_spec self v); [by eapply repr_grown|done]| |done].
  intros [] h2 H2. wps. exists (blocks h1). split_and!; [done..|]. eapply repr_shrunk; [done..|].
  intros a Ha Hb. eapply grown_fresh; [exact H1| |exact Ha]. by apply (repr_owned _ self v).
Qed.

End Memory.
