(* ===== verification/Supply.v ===== *)
(** * Values and a memory that does not run out

    The other half of what Memory.v says of failures: as long as [malloc] succeeds, no
    operation of Storage.v reports that it has not. *)
From Stdlib Require Import ZArith Lia.
From Stdlib Require Strings.Byte.
From S2P Require Import Prelude CLib Values Storage Memory.

Module Supply.
Import Storage.

(** [malloc] will not fail. *)
Definition plenty (h : Heap) : Prop := None ∉ answers h.

(** With enough memory the code does not say that there is none; [heap_of] is the heap in its
    state. *)
Definition sated {S A} (heap_of : S -> Heap) (m : M S A) : Prop := forall s, plenty (heap_of s) ->
  plenty (heap_of (m s).2) /\ (m s).1 <> Throw json_runtime_error.

Section sated.
Context {S : Type} (heap_of : S -> Heap).

Lemma sated_ret {A} (a : A) : sated heap_of (mret a).
Proof. by split. Qed.

Lemma sated_bind {A B} (m : M S A) (f : A -> M S B) : sated heap_of m -> (forall a, sated heap_of (f a)) -> sated heap_of (m ≫= f).
Proof.
  intros Hm Hf s Hs. destruct (Hm s Hs) as [H1 H2]. unfold mbind, M_bind. destruct (m s) as [[a|e| |] s1]; cbn in *; try done.
  - by apply Hf.
  - split; [done|]. congruence.
Qed.

(** What the code returns then. *)
Definition yields {A} (m : M S A) (P : A -> Prop) : Prop := forall s, plenty (heap_of s) -> forall a, (m s).1 = Ok a -> P a.

Lemma sated_bind_yields {A B} (P : A -> Prop) (m : M S A) (f : A -> M S B) :
  sated heap_of m -> yields m P -> (forall a, P a -> sated heap_of (f a)) -> sated heap_of (m ≫= f).
Proof.
  intros Hm Hp Hf s Hs. destruct (Hm s Hs) as [H1 H2]. pose proof (Hp s Hs) as H3. unfold mbind, M_bind.
  destruct (m s) as [[a|e| |] s1]; cbn in *; try done.
  - apply Hf; [by apply H3|done].
  - split; [done|]. congruence.
Qed.

Lemma yields_bind {A B} (P : B -> Prop) (m : M S A) (f : A -> M S B) :
  sated heap_of m -> (forall a, yields (f a) P) -> yields (m ≫= f) P.
Proof.
  intros Hm Hf s Hs b. destruct (Hm s Hs) as [H1 _]. unfold mbind, M_bind. destruct (m s) as [[a|e| |] s1]; cbn in *; try done.
  by apply Hf.
Qed.

Lemma yields_ret {A} (P : A -> Prop) (a : A) : P a -> yields (mret a) P.
Proof. by intros Ha s _ b [= <-]. Qed.

Lemma sated_try {A} (m : M S A) f : sated heap_of m -> (forall e, e <> json_runtime_error -> sated heap_of (f e)) -> sated heap_of (try m f).
Proof.
  intros Hm Hf s Hs. destruct (Hm s Hs) as [H1 H2]. unfold try. destruct (m s) as [[a|e| |] s1]; cbn in *; try done.
  apply Hf; [congruence|done].
Qed.

Lemma yields_try {A} (P : A -> Prop) (m : M S A) f :
  sated heap_of m -> yields m P -> (forall e, e <> json_runtime_error -> yields (f e) P) -> yields (try m f) P.
Proof.
  intros Hm Hp Hf s Hs a. destruct (Hm s Hs) as [H1 H2]. pose proof (Hp s Hs) as H3. unfold try.
  destruct (m s) as [[b|e| |] s1]; cbn in *; try done; [by apply H3|]. apply Hf; [congruence|done].
Qed.

Lemma sated_lift {A} (x : outcome A) : x <> Throw json_runtime_error -> sated heap_of (lift x).
Proof. by intros Hx h Hh. Qed.

Lemma sated_logic {A} : sated heap_of (throw (A := A) json_logic_error).
Proof. by split. Qed.

Lemma sated_undefined {A} : sated heap_of (undefined (A := A)).
Proof. by split. Qed.

Lemma sated_get : sated heap_of get.
Proof. by split. Qed.

Lemma sated_modify f : (forall s, heap_of (f s) = heap_of s) -> sated heap_of (modify f).
Proof. intros Hf s Hs. split; [|done]. cbn. by rewrite Hf. Qed.
End sated.

Abbreviation fed := (sated (fun h : Heap => h)).

Lemma fed_blocks f : fed (modify (fun h => set_blocks h (f h))).
Proof. by split. Qed.

Lemma fed_malloc {B} n (f : option positive -> H B) : (forall a, fed (f (Some a))) -> fed (malloc n ≫= f).
Proof.
  intros Hf h Hh. unfold mbind, M_bind, malloc, plenty in *. destruct (answers h) as [|[b|] rest] eqn:E; cbn.
  - apply Hf. cbn. apply not_elem_of_nil.
  - apply Hf. cbn. rewrite not_elem_of_cons in Hh. apply Hh.
  - destruct Hh. by left.
Qed.

Lemma fed_unwinding {A} (m : H A) cleanup : fed m -> fed cleanup -> fed (unwinding m cleanup).
Proof.
  intros Hm Hc h Hh. destruct (Hm h Hh) as [H1 H2]. unfold unwinding, try. destruct (m h) as [[a|e| |] h1]; cbn in *; try done.
  destruct (Hc h1 H1) as [H3 H4]. unfold mbind, M_bind, throw. destruct (cleanup h1) as [[[]|e'| |] h2]; cbn in *; try done.
  split; [done|]. by intros [= ->].
Qed.

(** [fed] follows the shape of the code. *)
Create HintDb fed discriminated.
#[export] Hint Resolve sated_ret sated_logic sated_undefined sated_get fed_blocks : fed.

Ltac feed := repeat first
  [ progress auto with fed | apply fed_malloc; intros ? | apply sated_bind; [|intros ?] | apply fed_unwinding
  | apply sated_lift; unfold memcpy, memread, strlen_of; by repeat case_match | progress case_match ].

Lemma fed_load p n : fed (load p n).
Proof. unfold load. feed. Qed.

Lemma fed_store a ofs bytes : fed (store a ofs bytes).
Proof. unfold store. feed. Qed.

Lemma fed_free p : fed (free p).
Proof. unfold free. feed. Qed.

Lemma fed_strlen p : fed (strlen p).
Proof. unfold strlen. feed. Qed.

#[export] Hint Resolve fed_load fed_store fed_free fed_strlen : fed.

Lemma fed_duplicate p n : fed (duplicateStringValue p n).
Proof. unfold duplicateStringValue. feed. Qed.

Lemma fed_prefix p n : fed (duplicateAndPrefixStringValue p n).
Proof. unfold duplicateAndPrefixStringValue. feed. Qed.

Lemma fed_decode b p : fed (decodePrefixedString b p).
Proof. unfold decodePrefixedString. feed. Qed.

#[export] Hint Resolve fed_duplicate fed_prefix fed_decode : fed.

Lemma fed_copy_key k : fed (copy_CZString k).
Proof. unfold copy_CZString. feed. Qed.

Lemma fed_destroy_key k : fed (destroy_CZString k).
Proof. unfold destroy_CZString, releaseStringValue. feed. Qed.

Lemma fed_less a b : fed (less_CZString a b).
Proof. unfold less_CZString. feed. Qed.

Lemma fed_equal a b : fed (equal_CZString a b).
Proof. unfold equal_CZString. feed. Qed.

#[export] Hint Resolve fed_copy_key fed_destroy_key fed_less fed_equal : fed.

(** *** Values *)

Section entries.
Context (d : Rep -> H unit) (c : Rep -> H Rep).

Lemma fed_destroy_pair kv : fed (d kv.2) -> fed (destroy_pair d kv).
Proof. intros Hd. unfold destroy_pair. feed. Qed.

Lemma fed_destroy_entries l : Forall (fun kv => fed (d kv.2)) l -> fed (destroy_entries d l).
Proof. induction 1 as [|kv l Hd Hl IH]; cbn [destroy_entries]; feed. Qed.

Lemma fed_copy_pair kv : fed (c kv.2) -> fed (copy_pair c kv).
Proof. intros Hc. unfold copy_pair. feed. Qed.

Lemma fed_copy_entries l : (forall r, fed (d r)) -> Forall (fun kv => fed (c kv.2)) l -> fed (copy_entries d c l).
Proof.
  intros Hd. induction 1 as [|kv l Hc Hl IH]; cbn [copy_entries]; feed.
Qed.
End entries.

Lemma fed_release r : fed (releasePayload r).
Proof.
  induction r as [t al hold me IH] using Memory.Rep_nested_ind. destruct t, hold as [| | | | |p|l]; cbn [releasePayload]; unfold releasePrefixedStringValue; feed.
  all: by apply fed_destroy_entries, IH.
Qed.

Lemma fed_destroy r : fed (destroy r).
Proof. apply fed_release. Qed.

#[export] Hint Resolve fed_destroy fed_release : fed.

Lemma fed_copy r : fed (copy r).
Proof.
  induction r as [t al hold me IH] using Memory.Rep_nested_ind. unfold copy. destruct t, hold as [| | | | |p|l]; cbn [dupPayload value_type_ meta]; feed.
  all: apply (fed_copy_entries _ copy); [apply fed_destroy|by apply IH].
Qed.

#[export] Hint Resolve fed_copy : fed.

Lemma fed_assign self other : fed (operator_assign self other).
Proof. unfold operator_assign. feed. Qed.

Lemma fed_lower_bound l key : fed (lower_bound l key).
Proof. induction l as [|[k r] l IH]; cbn [lower_bound]; feed. Qed.

#[export] Hint Resolve fed_assign fed_lower_bound : fed.

Lemma fed_demand t self key : fed (demand_key t self key).
Proof. unfold demand_key. feed. all: apply sated_try; [feed|intros; apply sated_ret]. Qed.

(** The exception that comes back with the value is not want of memory either. *)
Lemma demand_yields t self key : yields (fun h : Heap => h) (demand_key t self key) (fun y => y.2 <> inl json_runtime_error).
Proof.
  unfold demand_key. case_match; [by intros h _ a|]. apply yields_bind; [feed|]. intros r. apply yields_try.
  - feed.
  - destruct (value_ r) as [| | | | | |l]; try (by intros h _ a). apply yields_bind; [feed|]. intros it. apply yields_bind; [feed|].
    intros [|]; [by apply yields_ret|]. do 3 (apply yields_bind; [feed|intros ?]). by apply yields_ret.
  - intros e He. apply yields_ret. cbn. congruence.
Qed.

Lemma fed_remove self key n removed : fed (removeMember self key n removed).
Proof. unfold removeMember. feed. Qed.

Lemma fed_clear self : fed (clear self).
Proof.
  unfold clear. feed. all: apply fed_destroy_entries, Forall_forall; intros; apply fed_destroy.
Qed.

Lemma fed_append self value : fed (append self value).
Proof. unfold append, append_moved. feed. Qed.

Lemma fed_string s : fed (Value_string s).
Proof. unfold Value_string. feed. Qed.

#[export] Hint Resolve fed_demand fed_remove fed_clear fed_append fed_string : fed.

End Supply.
