(* ===== verification/Entries.v ===== *)
(** * Making, changing and removing the entries of a value

    On top of Memory.v: every operation that changes a value changes its blocks with it, as
    [update] says, and does to the value it stands for what Values.v says. *)
From Stdlib Require Import ZArith Lia Bool.
From Stdlib Require Strings.Byte.
From S2P Require Import Prelude OrderedMap Json Double Real CLib Values Storage Memory.

Module Entries.
Import Storage Memory.
Import Values (null_t, int_t, uint_t, real_t, string_t, boolean_t, array_t, object_t).
#[local] Existing Instance Values.ValueType_eq_dec.

(** ** A heap whose blocks [o] have become [o'] *)

Record update (m m' : mem) (o o' : list positive) : Prop := mkUpdate {
  up_nodup : NoDup o';
  up_held : forall a, a ∈ o' -> is_Some (m' !! a);
  up_new : forall a, a ∈ o' -> a ∉ o -> m !! a = None;
  up_gone : forall a, a ∈ o -> a ∉ o' -> m' !! a = None;
  up_rest : forall a, a ∉ o -> a ∉ o' -> m' !! a = m !! a
}.

Lemma update_grown m m' l : grown m m' l -> update m m' [] l.
Proof.
  intros Hg. split; [apply Hg|intros a Ha; by apply Hg|intros a Ha _; by apply Hg|by intros a ?%elem_of_nil|].
  intros a _. apply Hg.
Qed.

Lemma update_shrunk m m' l : shrunk m m' l -> update m m' l [].
Proof. intros []. split; [constructor|..]; set_solver. Qed.

Lemma update_trans m m1 m2 o o1 o2 : update m m1 o o1 -> update m1 m2 o1 o2 -> update m m2 o o2.
Proof.
  intros H1 H2. split; [apply H2|apply H2|..]; intros a.
  - intros H2a Ha. destruct (decide (a ∈ o1)); [by apply H1|]. rewrite <- (up_rest _ _ _ _ H1) by done. by apply H2.
  - intros Ha H2a. destruct (decide (a ∈ o1)); [by apply H2|]. rewrite (up_rest _ _ _ _ H2) by done. by apply H1.
  - intros Ha H2a. destruct (decide (a ∈ o1)).
    + rewrite (up_gone _ _ _ _ H2) by done. symmetry. by apply H1.
    + by rewrite (up_rest _ _ _ _ H2), (up_rest _ _ _ _ H1).
Qed.

Lemma update_perm m m' o o' p p' : update m m' o o' -> o ≡ₚ p -> o' ≡ₚ p' -> update m m' p p'.
Proof.
  intros [] Hp Hp'. split; [by rewrite <- Hp'|..]; intros a; rewrite <- ?Hp, <- ?Hp'; auto.
Qed.

(** Blocks that are in use and not touched. *)
Lemma update_app m m' o o' p : update m m' o o' -> NoDup (o ++ p) -> (forall a, a ∈ p -> is_Some (m !! a)) ->
  update m m' (o ++ p) (o' ++ p).
Proof.
  intros H Hn Hp. apply NoDup_app in Hn as (_ & Hd & Hnp).
  assert (forall a, a ∈ o' -> a ∉ p) as Hd'.
  { intros a Ha Hap. destruct (Hp a Hap) as [x Hx]. rewrite (up_new _ _ _ _ H a Ha) in Hx; [done|]. intros Ho. by apply (Hd a). }
  split.
  - apply NoDup_app. split_and!; [apply H|done|done].
  - intros a [Ha|Ha]%elem_of_app; [by apply H|]. rewrite (up_rest _ _ _ _ H); [by apply Hp|intros ?; by apply (Hd a)|intros ?; by apply (Hd' a)].
  - intros a [Ha|Ha]%elem_of_app [? ?]%not_elem_of_app; [by apply H|done].
  - intros a [Ha|Ha]%elem_of_app [? ?]%not_elem_of_app; [by apply H|done].
  - intros a [? ?]%not_elem_of_app [? ?]%not_elem_of_app. by apply H.
Qed.

(** ... in front and behind. *)
Lemma update_middle m m' o o' p q : update m m' o o' -> NoDup (p ++ o ++ q) -> (forall a, a ∈ p ++ q -> is_Some (m !! a)) ->
  update m m' (p ++ o ++ q) (p ++ o' ++ q).
Proof.
  intros H Hn Hp. assert (forall o, o ++ p ++ q ≡ₚ p ++ o ++ q) as E by (intros x; rewrite !(assoc_L (++)); by rewrite (comm (++) x p)).
  eapply update_perm; [apply (update_app _ _ o o' (p ++ q)); [done|by rewrite E|done]|apply E|apply E].
Qed.

Lemma repr_update m m' o o' r v : repr m r v -> update m m' o o' -> (forall a, a ∈ owned r -> a ∉ o) -> repr m' r v.
Proof.
  intros Hr Hu Hd. eapply repr_frame; [exact Hr|]. intros a Ha. apply (up_rest _ _ _ _ Hu); [by apply Hd|].
  intros Ho. destruct (repr_owned m r v a Hr Ha) as [x Hx]. rewrite (up_new _ _ _ _ Hu a Ho) in Hx; [done|by apply Hd].
Qed.

(** Assignment, in these terms. *)
Lemma assign_update self other v w h : repr (blocks h) self v -> NoDup (owned self) -> repr (blocks h) other w ->
  wp (operator_assign self other) (fun r h' => update (blocks h) (blocks h') (owned self) (owned r) /\ repr (blocks h') r w)
    (no_memory h) h.
Proof.
  intros Hs Hn Ho. eapply wp_mono; [by apply (assign_spec self other v w)| |done]. intros r h' (m & Hg & Hsh & Hr). split; [|done].
  eapply update_trans; [|apply (update_app _ _ _ [] (owned r) (update_shrunk _ _ _ Hsh))].
  - eapply update_perm; [apply (update_app _ _ [] _ (owned self) (update_grown _ _ _ Hg))|done|apply comm, _]; [done|].
    intros a. by apply (repr_owned _ _ v).
  - apply NoDup_app. split_and!; [done| |apply Hg]. intros a Ha. eapply grown_fresh; [exact Hg|]. by apply (repr_owned _ self v).
  - intros a Ha. by apply (gr_new _ _ _ Hg).
Qed.

Lemma alter_middle {A} (f : A -> A) l1 l2 x n : n = length l1 -> alter f n (l1 ++ x :: l2) = l1 ++ f x :: l2.
Proof. intros ->. rewrite <- (Nat.add_0_r (length l1)), alter_app_r. done. Qed.

(** ** Positions *)

Section position.
Context {K : Type} {EK : EqDecision K} {KK : Key K} {SK : Stored K} {V : Type}.
Implicit Types (e : list (K * V)) (x : K).

(** How many entries are below [x]. *)
Fixpoint position x e : nat :=
  match e with
  | [] => 0
  | (y, _) :: e' => if less y x then S (position x e') else 0
  end.

Lemma find_position x e : OMap.sorted e ->
  OMap.find x e = match e !! position x e with Some (y, v) => if decide (x = y) then Some v else None | None => None end.
Proof.
  induction e as [|[y v] e IH]; [done|]. intros [Ha Hs]. cbn [OMap.find position]. destruct (less y x) eqn:El.
  - rewrite decide_False by (intros ->; by rewrite less_irrefl in El). by apply IH.
  - cbn. case_decide as E; [done|]. apply OMap.above_none. eapply OMap.above_trans; [|exact Ha]. apply less_total; [done|congruence].
Qed.

Lemma put_position x v e : OMap.find x e = None -> OMap.put x v e = take (position x e) e ++ (x, v) :: drop (position x e) e.
Proof.
  induction e as [|[y w] e IH]; [done|]. cbn [OMap.find OMap.put position]. case_decide; [done|]. intros Hf.
  destruct (less y x); [|done]. cbn. by rewrite IH.
Qed.

Lemma position_put x v e : position x (OMap.put x v e) = position x e.
Proof.
  induction e as [|[y w] e IH]; cbn; [by rewrite less_irrefl|]. destruct (less y x) eqn:El; cbn; [by rewrite El, IH|].
  case_decide; cbn; [by rewrite El|by rewrite less_irrefl].
Qed.

Lemma position_not_less x e y v : e !! position x e = Some (y, v) -> less y x = false.
Proof.
  induction e as [|[z w] e IH]; cbn; [done|]. destruct (less z x) eqn:El; cbn; [done|]. by intros [= <- <-].
Qed.

Lemma put_found x v e w : OMap.sorted e -> OMap.find x e = Some w ->
  OMap.put x v e = alter (fun kv => (kv.1, v)) (position x e) e.
Proof.
  induction e as [|[y u] e IH]; [done|]. intros [Ha Hs]. cbn [OMap.find OMap.put position]. case_decide as E; [subst y|].
  - by rewrite less_irrefl.
  - intros Hf. rewrite (OMap.above_of_find _ _ _ _ Ha Hf). cbn. f_equal. by apply IH.
Qed.

Lemma erase_position x e w : OMap.sorted e -> OMap.find x e = Some w -> OMap.erase x e = delete (position x e) e.
Proof.
  induction e as [|[y u] e IH]; [done|]. intros [Ha Hs]. cbn [OMap.find OMap.erase position]. case_decide as E; [subst y|].
  - by rewrite less_irrefl.
  - intros Hf. rewrite (OMap.above_of_find _ _ _ _ Ha Hf). cbn. f_equal. by apply IH.
Qed.
End position.

(** ** The entries of a map *)

Section entries.
Context {K : Type} {EK : EqDecision K} {KK : Key K} {SK : Stored K}.
Implicit Types (l : list (CZString * Rep)) (e : list (K * Values.Value)) (x : K).

Definition entry_repr (m : mem) (kr : CZString * Rep) (kv : K * Values.Value) : Prop :=
  stored m kr.1 kv.1 /\ repr m kr.2 kv.2.

Lemma entries_Forall2 m l : forall e, entries_repr (stored m) (repr m) l e <-> Forall2 (entry_repr m) l e.
Proof.
  induction l as [|[k r] l IH]; intros [|[y v] e]; cbn [entries_repr]; try by split; [|inversion 1].
  rewrite IH. split; [intros (? & ? & ?); by constructor|]. intros [[? ?] ?]%Forall2_cons. done.
Qed.

Lemma lower_bound_run l : forall e key x h, entries_repr (stored (blocks h)) (repr (blocks h)) l e -> stored (blocks h) key x ->
  lower_bound l key h = (Ok (position x e), h).
Proof.
  induction l as [|[k r] l IH]; intros [|[y v] e] key x h He Hx; try done. destruct He as (Hk & _ & He). cbn [lower_bound position].
  rewrite (bind_run _ _ _ _ _ (stored_less _ _ _ _ _ Hk Hx)). destruct (less y x); [|done].
  by rewrite (bind_run _ _ _ _ _ (IH e key x h He Hx)).
Qed.

(** Whether the entry found has the key. *)
Lemma found_run l e key x h : entries_repr (stored (blocks h)) (repr (blocks h)) l e -> stored (blocks h) key x -> OMap.sorted e ->
  match l !! position x e with Some (k, _) => equal_CZString k key | None => mret false end h
  = (Ok (match OMap.find x e with Some _ => true | None => false end), h).
Proof.
  intros He%entries_Forall2 Hx Hs. rewrite find_position by done.
  destruct (e !! position x e) as [[y v]|] eqn:E.
  - destruct (Forall2_lookup_r _ _ _ _ _ He E) as ([k r] & -> & [Hk _]). cbn in Hk.
    rewrite (stored_equal _ _ _ _ _ Hk Hx). do 2 f_equal. case_bool_decide; case_decide; congruence.
  - apply lookup_ge_None in E. rewrite <- (Forall2_length _ _ _ He) in E. by rewrite (proj2 (lookup_ge_None _ _) E).
Qed.

Lemma held_entries m l e a : entries_repr (stored m) (repr m) l e -> a ∈ owned_entries l -> is_Some (m !! a).
Proof. intros He. eapply entries_owned; [|exact He]. apply Forall_forall. intros kv _. apply repr_owned. Qed.

(** A new entry at its position. *)
Lemma insert_entry m l e x v k r n :
  entries_repr (stored m) (repr m) l e -> stored m k x -> repr m r v -> OMap.find x e = None -> n = position x e ->
  entries_repr (stored m) (repr m) (take n l ++ (k, r) :: drop n l) (OMap.put x v e).
Proof.
  intros He Hk Hr Hf ->. rewrite put_position by done. apply entries_Forall2. apply entries_Forall2 in He.
  apply Forall2_app; [by apply Forall2_take|]. constructor; [done|by apply Forall2_drop].
Qed.

Lemma owned_insert l n k r : owned_entries (take n l ++ (k, r) :: drop n l) ≡ₚ (owned_key k ++ owned r) ++ owned_entries l.
Proof.
  rewrite List.flat_map_app. cbn [flat_map fst snd]. rewrite <- (take_drop n l) at 3. rewrite List.flat_map_app.
  generalize (owned_entries (take n l)), (owned_entries (drop n l)). intros. solve_Permutation.
Qed.
End entries.

(** ** Arrays and objects *)

(** The type of a map with keys [K], and the values it makes. *)
Class Container (K : Type) `{Stored K} := {
  container : Values.ValueType;
  inject : list (K * Values.Value) -> Values.Value;
  container_repr m t allocated hold me e :
    repr m (mkRep t allocated hold me) (inject e) <->
    t = container /\ exists l, hold = map_ l /\ entries_repr (stored m) (repr m) l e;
  container_owned allocated l me : owned (mkRep container allocated (map_ l) me) = owned_entries l;
  container_new : new_Value container = mkRep container false (map_ []) no_meta;
  container_null : container <> null_t;
  container_clears : container = array_t \/ container = object_t
}.

#[export] Instance array_container : Container Z.
Proof.
  refine {| container := array_t; inject := Values.arrayValue |}; [|done|done|done|by left].
  intros m t allocated hold me e. split.
  - intros He. destruct t, hold; try done. split; [done|by eexists].
  - by intros (-> & l & -> & He).
Defined.

#[export] Instance object_container : Container (list byte).
Proof.
  refine {| container := object_t; inject := Values.objectValue |}; [|done|done|done|by right].
  intros m t allocated hold me e. split.
  - intros He. destruct t, hold; try done. split; [done|by eexists].
  - by intros (-> & l & -> & He).
Defined.

Section container.
Context {K : Type} {EK : EqDecision K} {KK : Key K} {SK : Stored K} {CK : Container K}.
Implicit Types (l : list (CZString * Rep)) (e : list (K * Values.Value)) (x : K).

(** The entries of a value used as a container: a null value has none. *)
Definition has_entries (v : Values.Value) e : Prop := v = inject e \/ (v = Values.nullValue /\ e = []).

(** A null value becomes a container, and nothing else happens. *)
Definition opened (self : Rep) : H Rep :=
  if bool_decide (value_type_ self = null_t) then
    let '(self, tmp) := move_assign self (new_Value container) in _ ← destroy tmp; mret self
  else mret self.

Lemma repr_null m r : repr m r Values.nullValue -> value_type_ r = null_t /\ owned r = [].
Proof. destruct r as [t al hold me]. destruct t, hold; done. Qed.

Lemma opened_run self v e h : repr (blocks h) self v -> has_entries v e ->
  exists al me l, opened self h = (Ok (mkRep container al (map_ l) me), h)
    /\ entries_repr (stored (blocks h)) (repr (blocks h)) l e /\ owned self = owned_entries l.
Proof.
  intros Hr [->|[-> ->]].
  - destruct self as [t al hold me]. apply container_repr in Hr as (-> & l & -> & He). exists al, me, l.
    unfold opened. rewrite bool_decide_eq_false_2 by apply container_null. by rewrite container_owned.
  - apply repr_null in Hr as [Ht Ho]. exists false, no_meta, []. unfold opened. rewrite bool_decide_eq_true_2 by done.
    unfold move_assign. rewrite swap_swaps, container_new. split_and!; [|done|done].
    assert (destroy self h = (Ok tt, h)) as E by (by destruct self as [[] ? ? ?]). by rewrite (bind_run _ _ _ _ _ E).
Qed.

Lemma has_entries_type self v e h : repr (blocks h) self v -> has_entries v e ->
  bool_decide (value_type_ self = null_t) || bool_decide (value_type_ self = container) = true.
Proof.
  intros Hr [->|[-> ->]].
  - destruct self as [t al hold me]. apply container_repr in Hr as (-> & _). apply orb_true_iff. right. by apply bool_decide_eq_true.
  - apply repr_null in Hr as [-> _]. done.
Qed.

(** The new entry with a null value: its pair, a copy of it in the map, and the pair is gone. *)
Lemma new_entry_spec {A} (f : CZString * Rep -> A) key x h : stored (blocks h) key x ->
  wp (defaultValue ← copy_pair copy (key, nullSingleton);
      entry ← unwinding (copy_pair copy defaultValue) (destroy_pair destroy defaultValue);
      _ ← destroy_pair destroy defaultValue;
      mret (f entry))
    (fun y h' => exists k r, y = f (k, r) /\ grown (blocks h) (blocks h') (owned_key k ++ owned r)
       /\ stored (blocks h') k x /\ repr (blocks h') r Values.nullValue)
    (no_memory h) h.
Proof.
  intros Hx. wps. eapply wp_mono; [by apply (copy_pair_spec copy key nullSingleton x Values.nullValue); [apply copy_spec|..]| |done].
  intros [k1 r1] h1 (H1 & Hk1 & Hr1). cbn [fst snd] in *. wps. eapply (wp_unwinding _ _ _ _ _ _ H1).
  { intros h2 E. apply (destroy_pair_spec destroy k1 r1 x Values.nullValue); rewrite ?E; [apply release_spec|done|done|apply H1]. }
  eapply wp_mono; [by apply (copy_pair_spec copy k1 r1 x Values.nullValue); [apply copy_spec|..]| |done].
  intros [k2 r2] h2 (H2 & Hk2 & Hr2). cbn [fst snd] in *. wps.
  pose proof (gr_nodup _ _ _ (grown_app _ _ _ _ _ H1 H2)) as Hn. apply NoDup_app in Hn as (Hn1 & Hd & _).
  eapply wp_mono; [apply (destroy_pair_spec destroy k1 r1 x Values.nullValue); [apply release_spec|..|done]| |done].
  - apply (stored_frame (blocks h1)); [done|]. intros a Ha. apply (gr_old _ _ _ H2), (grown_fresh _ _ _ _ H2). by apply (stored_owned _ _ _ _ Hk1).
  - by eapply repr_grown.
  - intros [] h3 H3. wps. exists k2, r2. split_and!; [done|by eapply grown_copy|..].
    + apply (stored_frame (blocks h2)); [done|]. intros a Ha. apply (sh_rest _ _ _ H3). intros Hb.
      apply (Hd a Hb), elem_of_app. by left.
    + eapply repr_shrunk; [done..|]. intros a Ha Hb. apply (Hd a Hb), elem_of_app. by right.
Qed.

(** Blocks that nothing has changed. *)
Lemma update_same m o : NoDup o -> (forall a, a ∈ o -> is_Some (m !! a)) -> update m m o o.
Proof. by split. Qed.

(** The entry of a key: it is there afterwards, or memory was missing and the value is what it
    was, but for a null value that has become an empty container. *)
Lemma demand_key_spec self v e key x h : repr (blocks h) self v -> has_entries v e -> NoDup (owned self) -> OMap.sorted e ->
  stored (blocks h) key x ->
  wp (demand_key container self key)
    (fun y h' => update (blocks h) (blocks h') (owned self) (owned y.1)
       /\ match y.2 with
          | inr it => it = position x e
              /\ repr (blocks h') y.1 (inject (match OMap.find x e with Some _ => e | None => OMap.put x Values.nullValue e end))
          | inl ex => no_memory h ex h' /\ repr (blocks h') y.1 (inject e)
          end)
    (fun _ _ => False) h.
Proof.
  intros Hr Hv Hn Hs Hx. unfold demand_key. rewrite (has_entries_type self v e h Hr Hv). cbn [negb].
  destruct (opened_run self v e h Hr Hv) as (al & me & l & Eo & He & Hown). fold (opened self).
  wps. unfold wp at 1. rewrite Eo. cbn [value_]. wps.
  assert (repr (blocks h) (mkRep container al (map_ l) me) (inject e)) as Hr1 by (apply container_repr; split; [done|by eexists]).
  assert (update (blocks h) (blocks h) (owned_entries l) (owned_entries l)) as Hu0.
  { rewrite Hown in Hn. apply update_same; [done|]. intros a Ha. by eapply held_entries. }
  wps. unfold wp at 1. rewrite (lower_bound_run l e key x h He Hx). wps. unfold wp at 1. rewrite (found_run l e key x h He Hx Hs).
  rewrite Hown in *. destruct (OMap.find x e) as [w|] eqn:Ef.
  - wps. cbn [fst snd]. by rewrite container_owned.
  - eapply wp_mono; [by apply new_entry_spec|..].
    2: { intros ex h' [-> Eb]. wps. cbn [fst snd]. rewrite container_owned, Eb. by split_and!. }
    intros y h' (k & r & -> & Hg & Hk & Hnull). cbn [fst snd].
    cbn [value_type_ allocated_ meta]. rewrite container_owned. split; [|split; [done|]].
    + pose proof (update_app _ _ _ _ (owned_entries l) (update_grown _ _ _ Hg) Hn) as Hu.
      eapply update_perm; [apply Hu; intros a Ha; by eapply held_entries|done|by rewrite owned_insert].
    + apply container_repr. split; [done|]. eexists. split; [done|].
      apply insert_entry; [by eapply entries_grown|done..].
Qed.
(** *** One entry among the others *)

Lemma entries_update m m' o o' l e : entries_repr (stored m) (repr m) l e -> update m m' o o' ->
  (forall a, a ∈ owned_entries l -> a ∉ o) -> entries_repr (stored m') (repr m') l e.
Proof.
  intros He Hu Hd. eapply entries_frame; [apply Forall_forall; intros kv _ w Hw; by apply repr_frame| |exact He].
  intros a Ha. apply (up_rest _ _ _ _ Hu); [by apply Hd|]. intros Ho. destruct (held_entries _ _ _ _ He Ha) as [y Hy].
  rewrite (up_new _ _ _ _ Hu a Ho) in Hy; [done|by apply Hd].
Qed.

Lemma stored_update m m' o o' k x : stored m k x -> update m m' o o' -> (forall a, a ∈ owned_key k -> a ∉ o) -> stored m' k x.
Proof.
  intros Hk Hu Hd. apply (stored_frame m); [done|]. intros a Ha. apply (up_rest _ _ _ _ Hu); [by apply Hd|].
  intros Ho. destruct (stored_owned _ _ _ _ Hk Ha) as [y Hy]. rewrite (up_new _ _ _ _ Hu a Ho) in Hy; [done|by apply Hd].
Qed.

(** The map around its [n]-th entry. *)
Lemma split_entry m l e n x v : entries_repr (stored m) (repr m) l e -> e !! n = Some (x, v) ->
  exists l1 k r l2 e1 e2, l = l1 ++ (k, r) :: l2 /\ e = e1 ++ (x, v) :: e2 /\ n = length l1 /\ n = length e1
    /\ entries_repr (stored m) (repr m) l1 e1 /\ stored m k x /\ repr m r v /\ entries_repr (stored m) (repr m) l2 e2.
Proof.
  intros He Hn. apply list_elem_of_split_length in Hn as (e1 & e2 & -> & ->).
  apply entries_Forall2, Forall2_app_inv_r in He as (l1 & l2 & H1 & H2 & ->).
  destruct l2 as [|[k r] l2]; [by inversion H2|]. apply Forall2_cons in H2 as [[Hk Hr] H2].
  exists l1, k, r, l2, e1, e2. rewrite !entries_Forall2. by rewrite (Forall2_length _ _ _ H1).
Qed.

Lemma owned_around l1 l2 k r :
  owned_entries (l1 ++ (k, r) :: l2) = (owned_entries l1 ++ owned_key k) ++ owned r ++ owned_entries l2.
Proof. rewrite List.flat_map_app. cbn [flat_map fst snd]. by rewrite !(assoc_L (++)). Qed.

(** Writing to an entry: [self[key] = other]. *)
Lemma assign_entry_spec self e n x v other w h : repr (blocks h) self (inject e) -> NoDup (owned self) ->
  e !! n = Some (x, v) -> repr (blocks h) other w ->
  exists old, entry self n = Some old /\
  wp (operator_assign old other)
    (fun r h' => update (blocks h) (blocks h') (owned self) (owned (set_entry self n r))
       /\ repr (blocks h') (set_entry self n r) (inject (alter (fun kv => (kv.1, w)) n e)))
    (no_memory h) h.
Proof.
  intros Hr Hn He Ho. destruct self as [t al hold me]. apply container_repr in Hr as (-> & l & -> & Hl).
  rewrite container_owned in Hn |- *.
  destruct (split_entry _ _ _ _ _ _ Hl He) as (l1 & k & old & l2 & e1 & e2 & -> & -> & -> & En & H1 & Hk & Hold & H2).
  exists old. unfold entry, set_entry. cbn [value_ value_type_ allocated_ meta]. split; [by rewrite list_lookup_middle|].
  rewrite (alter_middle _ e1) by done. rewrite owned_around in Hn |- *. pose proof Hn as Hd.
  apply NoDup_app in Hd as (_ & Hd1 & Hd2). apply NoDup_app in Hd2 as (Hno & Hd2 & _).
  eapply wp_mono; [by apply (assign_update old other v w)| |done]. intros r h' [Hu Hr].
  rewrite (alter_middle _ l1), container_owned, owned_around by done. cbn [fst snd]. split.
  - apply update_middle; [done|done|]. intros a [[Ha|Ha]%elem_of_app|Ha]%elem_of_app.
    + by apply (held_entries _ _ _ _ H1).
    + by apply (stored_owned _ _ _ _ Hk).
    + by apply (held_entries _ _ _ _ H2).
  - apply container_repr. split; [done|]. eexists. split; [done|]. apply entries_Forall2. apply Forall2_app; [|constructor; [split|]].
    + apply entries_Forall2. eapply entries_update; [done..|]. intros a Ha Hb. apply (Hd1 a); apply elem_of_app; by left.
    + eapply stored_update; [done..|]. intros a Ha Hb. apply (Hd1 a); apply elem_of_app; [by right|by left].
    + done.
    + apply entries_Forall2. eapply entries_update; [done..|]. intros a Ha Hb. by apply (Hd2 a).
Qed.
(** Removing an entry with the blocks of its key and of what is in it by now. *)
Lemma remove_entry l e n x v al me h : repr (blocks h) (mkRep container al (map_ l) me) (inject e) -> NoDup (owned_entries l) ->
  e !! n = Some (x, v) ->
  exists k r, l !! n = Some (k, r) /\ stored (blocks h) k x /\ repr (blocks h) r v
    /\ wp (destroy_pair destroy (k, r))
         (fun _ h' => update (blocks h) (blocks h') (owned_entries l) (owned_entries (delete n l))
            /\ repr (blocks h') (mkRep container al (map_ (delete n l)) me) (inject (delete n e)))
         (fun _ _ => False) h.
Proof.
  intros Hr Hn He. apply container_repr in Hr as (_ & ? & [= <-] & Hl).
  destruct (split_entry _ _ _ _ _ _ Hl He) as (l1 & k & r & l2 & e1 & e2 & -> & -> & -> & En & H1 & Hk & Hr & H2).
  exists k, r. split_and!; [by rewrite list_lookup_middle|done..|].
  rewrite delete_middle. rewrite En, delete_middle. rewrite owned_around, <- (assoc_L (++)), (assoc_L (++) (owned_key k)) in Hn |- *.
  pose proof Hn as Hd. apply NoDup_app in Hd as (_ & Hd1 & Hd2). apply NoDup_app in Hd2 as (Hno & Hd2 & _).
  eapply wp_mono; [apply (destroy_pair_spec destroy k r x v); [apply release_spec|done..]| |done]. intros [] h' Hs.
  assert (update (blocks h) (blocks h') (owned_key k ++ owned r) []) as Hu by (by apply update_shrunk).
  rewrite List.flat_map_app. split.
  - apply (update_middle _ _ _ []); [done|done|]. intros a [Ha|Ha]%elem_of_app.
    + by apply (held_entries _ _ _ _ H1).
    + by apply (held_entries _ _ _ _ H2).
  - apply container_repr. split; [done|]. eexists. split; [done|]. apply entries_Forall2, Forall2_app.
    + apply entries_Forall2. eapply entries_update; [done..|]. intros a Ha Hb. apply (Hd1 a); [done|]. apply elem_of_app. by left.
    + apply entries_Forall2. eapply entries_update; [done..|]. intros a Ha Hb. by apply (Hd2 a).
Qed.

(** All entries go. *)
Lemma clear_spec self e h : repr (blocks h) self (inject e) -> NoDup (owned self) ->
  wp (clear self) (fun r h' => update (blocks h) (blocks h') (owned self) (owned r) /\ repr (blocks h') r (inject [])) (fun _ _ => False) h.
Proof.
  intros Hr Hn. destruct self as [t al hold me]. apply container_repr in Hr as (-> & l & -> & Hl). rewrite container_owned in *.
  assert (clear (mkRep container al (map_ l) me) = (_ ← destroy_entries destroy l;
    mret (mkRep container al (map_ []) (mkMeta (comments_ me) 0 0)))) as -> by (by destruct container_clears as [-> | ->]).
  wps. eapply wp_mono; [eapply (destroy_entries_spec destroy l); [apply Forall_forall; intros; apply release_spec|exact Hl|done]| |done].
  intros [] h' Hs. wps. rewrite container_owned. split; [by apply update_shrunk|]. apply container_repr. split; [done|]. by eexists.
Qed.
End container.

(** ** The operations *)

(** A key given by its characters, outside the heap. *)
Lemma string_key_stored m key b policy : zlen key < 2 ^ 30 -> policy = noDuplication \/ policy = duplicateOnCopy ->
  stored m (string_key (static (key ++ b)) (u32 (zlen key)) policy) key.
Proof.
  intros Hk Hp. pose proof (zlen_nonneg key). rewrite u32_small by word. unfold string_key. change 1073741823 with (Z.ones 30).
  rewrite Z.land_ones, Z.mod_small by lia.
  split_and!; [done|..]; unfold length_, policy_; cbn [index_ cstr_].
  - destruct Hp as [-> | ->]; by apply storage_length.
  - right. split; [|by eexists]. destruct Hp as [-> | ->]; by rewrite storage_policy.
Qed.

Lemma owned_string_key p n policy : policy = noDuplication \/ policy = duplicateOnCopy -> owned_key (string_key p n policy) = [].
Proof. intros Hp. unfold owned_key, string_key, policy_. cbn [cstr_ index_]. destruct p; [done|]. by destruct Hp as [-> | ->]; rewrite storage_policy. Qed.

Lemma CZString_id key : zlen key < 2 ^ 30 -> Values.CZString key = key.
Proof.
  intros Hk. pose proof (zlen_nonneg key). unfold Values.CZString. rewrite u32_small by word. change 1073741823 with (Z.ones 30).
  rewrite Z.land_ones, Z.mod_small by lia. unfold zlen. by rewrite Nat2Z.id, firstn_all.
Qed.

(** What an operation on one value promises: the value is updated with its blocks. *)
Definition updates (h : Heap) (self : Rep) (v' : Values.Value) (r : Rep) (h' : Heap) : Prop :=
  update (blocks h) (blocks h') (owned self) (owned r) /\ repr (blocks h') r v'.

(** A null value that is used as an object. *)
Definition made_object (v : Values.Value) : Values.Value :=
  match v with Values.nullValue => Values.objectValue [] | _ => v end.

Lemma resolveReference_spec self v key b x v' h : repr (blocks h) self v -> NoDup (owned self) -> zlen key < 2 ^ 30 ->
  match v with Values.objectValue e => OMap.sorted e | _ => True end ->
  Values.resolveReference v key = Ok (x, v') ->
  wp (resolveReference self (static (key ++ b)) (zlen key)) (fun y h' =>
    match y.2 with
    | inr it => updates h self v' y.1 h'
        /\ exists e, v' = Values.objectValue e /\ OMap.sorted e /\ OMap.find key e = Some x /\ it = position key e
             /\ e !! it = Some (key, x)
    | inl ex => no_memory h ex h' /\ updates h self (made_object v) y.1 h'
    end) (fun _ _ => False) h.
Proof.
  intros Hr Hn Hk Hs E. unfold Values.resolveReference in E. rewrite CZString_id in E by done.
  assert (exists e, has_entries v e /\ OMap.sorted e /\ Values.as_object v = Ok e) as (e & He & Hse & Ea).
  { destruct v as [| | | | | | |e]; try done; [exists []|exists e]; (split_and!; [|done|done]); [by right|by left]. }
  rewrite Ea in E. cbn in E. unfold resolveReference.
  eapply wp_mono; [by apply (demand_key_spec (K := list byte) self v e _ key h Hr He Hn Hse), string_key_stored; [|right]| |done].
  intros [r [ex|it]] h' [Hu Hr']; cbn [fst snd] in *.
  { destruct Hr' as [Hex Hr']. split; [done|]. split; [done|]. assert (made_object v = Values.objectValue e) as -> by (by destruct He as [-> | [-> ->]]). done. }
  destruct Hr' as [-> Hr'].
  assert (exists e', v' = Values.objectValue e' /\ OMap.sorted e' /\ OMap.find key e' = Some x /\ position key e' = position key e
    /\ match OMap.find key e with Some _ => e | None => OMap.put key Values.nullValue e end = e') as (e' & -> & Hse' & Hf & Hp & Ee).
  { destruct (OMap.find key e) as [w|] eqn:Ef; injection E as <- <-; eexists; (split_and!; [done|..|done]); try done.
    - by apply OMap.put_keeps_sorted.
    - rewrite OMap.find_of_put. by rewrite decide_True.
    - by apply position_put. }
  rewrite Ee in Hr'. split; [done|]. exists e'. split_and!; [done..|].
  rewrite find_position, Hp in Hf by done. destruct (e' !! position key e) as [[y w]|]; [|done]. by case_decide; simplify_eq.
Qed.

(** ... and on what is neither null nor an object. *)
Lemma resolveReference_refused self v key p n ex h : repr (blocks h) self v -> Values.resolveReference v key = Throw ex ->
  resolveReference self p n h = (Throw ex, h).
Proof.
  intros Hr E. unfold Values.resolveReference in E. destruct v, self as [t al hold me], t, hold; try done; cbn in E; try (by injection E as <-).
  all: by destruct (OMap.find _ _).
Qed.

(** [find] of [std::map]: the entry at the lower bound, unless the key is below it. *)
Lemma below_run l (e : list (list byte * Values.Value)) key x k r h :
  entries_repr (stored (blocks h)) (repr (blocks h)) l e -> stored (blocks h) key x -> OMap.sorted e ->
  l !! position x e = Some (k, r) ->
  less_CZString key k h = (Ok (match OMap.find x e with Some _ => false | None => true end), h).
Proof.
  intros He%entries_Forall2 Hx Hs Hl. destruct (Forall2_lookup_l _ _ _ _ _ He Hl) as ([y v] & Hy & [Hk _]).
  cbn [fst] in Hk. rewrite (stored_less _ _ _ _ _ Hx Hk). do 2 f_equal. rewrite find_position, Hy by done.
  case_decide as E; [subst; apply less_irrefl|]. apply less_total; [|congruence]. by apply (position_not_less x e y v).
Qed.

Lemma removeMember_spec self v key b h : repr (blocks h) self v -> NoDup (owned self) -> zlen key < 2 ^ 30 ->
  match v with Values.objectValue e => OMap.sorted e | _ => True end ->
  wp (removeMember self (static (key ++ b)) (zlen key) None)
    (fun y h' => updates h self (Values.removeMember v key).2 y.1.2 h'
       /\ y.1.1 = match (Values.removeMember v key).1 with Some _ => true | None => false end) (fun _ _ => False) h.
Proof.
  intros Hr Hn Hk Hs. unfold Values.removeMember. rewrite CZString_id by done.
  assert (forall w, w = v -> updates h self w self h) as Hsame.
  { intros w ->. split; [|done]. split; [done|intros a; by apply (repr_owned _ _ v)|done..]. }
  destruct v as [| | | | | | |e].
  8: { destruct self as [t al hold me]. destruct (proj1 (@container_repr _ _ _ _ object_container (blocks h) t al hold me e) Hr) as (-> & l & -> & Hl).
    assert (stored (blocks h) (string_key (static (key ++ b)) (u32 (zlen key)) noDuplication) key) as Hx
      by (apply string_key_stored; [done|by left]).
    unfold removeMember. cbn [value_type_ value_ allocated_ meta container object_container].
    wps. unfold wp at 1. rewrite (lower_bound_run l e _ key h Hl Hx).
    pose proof (find_position key e Hs) as Hf. destruct (l !! position key e) as [[k r]|] eqn:El.
    - wps. unfold wp at 1. rewrite (below_run l e _ key k r h Hl Hx Hs El). destruct (OMap.find key e) as [w|] eqn:Ef.
      + destruct (e !! position key e) as [[y w']|] eqn:Ee; [|done]. case_decide; [|done]. injection Hf as <-. subst y.
        destruct (remove_entry l e _ key w al me h Hr Hn Ee) as (k' & r' & El' & _ & _ & Hrm). rewrite El in El'. injection El' as <- <-.
        wps. eapply wp_mono; [exact Hrm| |done]. intros [] h' [Hu Hr']. wps. cbn [fst snd]. split; [|done].
        rewrite (erase_position key e w) by done. split; [exact Hu|exact Hr'].
      + wps. split; [by apply Hsame|done].
    - assert (e !! position key e = None) as Ee.
      { apply lookup_ge_None in El. apply lookup_ge_None. apply entries_Forall2 in Hl. by rewrite <- (Forall2_length _ _ _ Hl). }
      rewrite Ee in Hf. rewrite Hf. wps. split; [by apply Hsame|done]. }
  all: destruct self as [t al hold me]; destruct t, hold; try done; unfold removeMember; cbn [value_type_ value_]; wps; (split; [by apply Hsame|done]).
Qed.

(** *** Appending *)

Lemma array_size_run m l e : entries_repr (stored (K := Z) m) (repr m) l e -> array_size l = Values.map_end e.
Proof.
  intros He%entries_Forall2. unfold array_size, Values.map_end. destruct (last e) as [[i v]|] eqn:El.
  - apply last_Some in El as [e' ->]. apply Forall2_app_inv_r in He as (l1 & l2 & _ & H2 & ->).
    apply Forall2_cons_inv_r in H2 as ([k r] & l3 & [Hk _] & H3 & ->). apply Forall2_nil_inv_r in H3 as ->.
    rewrite last_snoc. cbn in Hk. by rewrite Hk.
  - apply last_None in El as ->. by apply Forall2_nil_inv_r in He as ->.
Qed.

Lemma append_moved_spec self v (e : list (Z * Values.Value)) value w h : repr (blocks h) self v -> has_entries v e -> OMap.sorted e ->
  repr (blocks h) value w -> NoDup (owned value ++ owned self) ->
  wp (append_moved self value)
    (fun r h' => exists v', Values.append v w = Ok v' /\ repr (blocks h') r v'
       /\ update (blocks h) (blocks h') (owned value ++ owned self) (owned r)) (fun _ _ => False) h.
Proof.
  intros Hr Hv Hs Hw Hn. pose proof (has_entries_type (K := Z) self v e h Hr Hv) as Ht.
  unfold append_moved. change array_t with (container (K := Z)). rewrite Ht. cbn [negb].
  destruct (opened_run (K := Z) self v e h Hr Hv) as (al & me & l & Eo & He & Hown). fold (opened (K := Z) self).
  wps. unfold wp at 1. rewrite Eo. cbn [value_ value_type_ allocated_ meta]. rewrite (array_size_run _ _ _ He).
  unfold move. rewrite swap_swaps.
  wps. unfold wp at 1. rewrite (lower_bound_run l e _ (Values.map_end e) h He) by done.
  wps. unfold wp at 1. rewrite (found_run l e _ (Values.map_end e) h He) by done.
  rewrite Hown in Hn |- *. apply NoDup_app in Hn as (Hnv & Hd & Hnl).
  assert (Values.append v w = Ok (Values.arrayValue (match OMap.find (Values.map_end e) e with Some _ => e | None => OMap.put (Values.map_end e) w e end))) as ->
    by (by destruct Hv as [-> | [-> ->]]).
  destruct (OMap.find (Values.map_end e) e) as [u|] eqn:Ef.
  - wps. eapply wp_mono; [apply (destroy_pair_spec (K := Z) destroy _ value (Values.map_end e) w); [apply release_spec|done..]| |done].
    intros [] h' Hsh. wps. eexists. split; [done|]. cbn [app] in Hsh.
    assert (update (blocks h) (blocks h') (owned value) []) as Hu by (by apply update_shrunk). split.
    + refine (entries_update (K := Z) _ _ _ _ l e He Hu _). intros a Ha Hb. by apply (Hd a).
    + apply (update_app _ _ _ [] _ Hu); [by apply NoDup_app|]. intros a. by apply (held_entries _ _ _ _ He).
  - wps. eexists. split; [done|]. split.
    + by refine (insert_entry (K := Z) _ l e _ w _ value _ He _ Hw Ef _).
    + eapply update_perm; [|done|symmetry; apply owned_insert]. cbn [owned_key cstr_ index_key app].
      split; [by apply NoDup_app|intros a [Ha|Ha]%elem_of_app|done..]; [by apply (repr_owned _ value w)|by apply (held_entries _ _ _ _ He)].
Qed.

(** The failures an operation can end with: an allocation, or what [spec] throws. *)
Definition refused {A} (spec : outcome A) (h : Heap) (e : exn) (h' : Heap) : Prop :=
  blocks h' = blocks h /\ (e = json_runtime_error \/ spec = Throw e).

Lemma append_spec self v value w h : repr (blocks h) self v -> NoDup (owned self) -> repr (blocks h) value w ->
  match v with Values.arrayValue e => OMap.sorted e | _ => True end ->
  wp (append self value) (fun r h' => exists v', Values.append v w = Ok v' /\ updates h self v' r h')
    (refused (Values.append v w) h) h.
Proof.
  intros Hr Hn Hw Hs. unfold append. wps.
  eapply wp_mono; [by apply (copy_spec value w)| |by intros e h' [-> E]; split; [|left]]. intros tmp h1 [Hg Ht].
  assert (NoDup (owned tmp ++ owned self)) as Hnd.
  { apply NoDup_app. split_and!; [apply Hg| |done]. intros a Ha Hb. apply (grown_fresh _ _ _ a Hg); [by apply (repr_owned _ self v)|done]. }
  assert (repr (blocks h1) self v) as Hr1 by (by eapply repr_grown). unfold unwinding. wps.
  assert ((exists e, has_entries (K := Z) v e /\ OMap.sorted e) \/ Values.append v w = Throw json_logic_error) as [(e & He & Hse)|Et].
  { destruct v as [| | | | | |e|]; try by right. - left. exists []. split; [by right|done]. - left. exists e. by split; [left|]. }
  - eapply wp_mono; [by apply (append_moved_spec self v e tmp w)| |done]. intros r h2 (v' & E & Hr2 & Hu). exists v'. split; [done|].
    split; [|done]. eapply update_trans; [|exact Hu].
    apply (update_app _ _ [] _ (owned self) (update_grown _ _ _ Hg)); [done|]. intros a. by apply (repr_owned _ self v).
  - unfold append_moved. rewrite (proj2 (negb_true_iff _)).
    2: { destruct v, self as [t al hold me], t, hold; done. }
    wps. wps. eapply wp_mono; [apply (release_spec tmp w); [done|apply Hg]| |done]. intros [] h2 Hsh. wps.
    split; [by eapply grown_shrunk|]. by right.
Qed.

(** *** Strings *)

Lemma Value_string_spec s h : zlen s < 2 ^ 32 ->
  wp (Value_string s) (fun r h' => zlen s <= Real.maxInt - 5 /\ grown (blocks h) (blocks h') (owned r)
       /\ repr (blocks h') r (Values.stringValue s))
    (fun e h' => blocks h' = blocks h /\ (e = json_runtime_error \/ (e = json_logic_error /\ Real.maxInt - 5 < zlen s))) h.
Proof.
  intros Hs. pose proof (zlen_nonneg s). unfold Value_string. rewrite u32_small by word.
  destruct (Z.leb_spec (zlen s) (Real.maxInt - 5)) as [Hl|Hl].
  - wps. eapply wp_mono; [apply duplicatePrefix_spec; [by exists []; rewrite app_nil_r|done]| |by intros e h' [-> E]; split; [|left]].
    intros q h' (a & -> & Ha & E). wps. cbn. rewrite E. split; [done|]. split; [by apply grown_insert|]. split; [done|]. exists a. by rewrite lookup_insert_eq.
  - wps. unfold duplicateAndPrefixStringValue. rewrite (proj2 (Z.leb_gt _ _)) by lia. cbn [negb]. wps. split; [done|]. right. split; [done|lia].
Qed.

(** The characters are read back. *)
Lemma getString_run r v h : repr (blocks h) r v -> getString r h = (Ok (Values.getString v), h).
Proof.
  intros Hr. destruct r as [t al hold me]. destruct t, hold as [| | | | |p|l], v as [| | | |s| | |]; try done. cbn in Hr. unfold getString. cbn [value_type_ value_ allocated_].
  destruct al.
  - destruct (decode_prefixed _ _ _ h eq_refl Hr) as (q & E & Hq). rewrite (bind_run _ _ _ _ _ E). cbn.
    by rewrite (bind_run _ _ _ _ _ (load_run _ _ _ Hq)).
  - destruct Hr as (Hs & Hz & b & ->). pose proof (zlen_nonneg s). unfold decodePrefixedString. cbn [negb].
    assert (strlen (static (s ++ Byte.x00 :: b)) h = (Ok (zlen s), h)) as E.
    { unfold strlen, lift, strlen_of. by rewrite CLib.split_at_first. }
    rewrite bind_assoc, (bind_run _ _ _ _ _ E), bind_mret, u32_small by word. cbn.
    assert (readable (blocks h) (static (s ++ Byte.x00 :: b)) s) as Hp by (by eexists). by rewrite (bind_run _ _ _ _ _ (load_run _ _ _ Hp)).
Qed.

End Entries.
