(* ===== verification/Variables.v ===== *)
(** * Programs with JSON values

    Variables that hold values, and a program that makes, copies, assigns, moves, changes and
    destroys them, while any allocation may fail.  Whatever it does, the blocks in use are
    exactly those its variables own, each once, and the variables stand for the values the
    operations of Values.v give. *)
From Stdlib Require Import ZArith Lia Bool.
From Stdlib Require Strings.Byte.
From S2P Require Import Prelude OrderedMap Json Double Real CLib Values Storage Memory Supply Entries.

Module Variables.
Import Storage Memory Supply Entries.
Import Values (ValueType).

(** ** The machine *)

Inductive construct :=
| of_type (t : ValueType)
| of_int (n : Z)
| of_uint (n : Z)
| of_real (r : Real.real)
| of_bool (b : bool)
| of_string (s : list byte)
| of_static (s : list byte).

(** Variables by their position; [Destroy] ends one, the later ones move up. *)
Inductive op :=
| New (c : construct)
| Copy (i : nat)
| Assign (i j : nat)
| MoveAssign (i j : nat)
| Append (i j : nat)
| SetMember (i : nat) (key : list byte) (j : nat)
| RemoveMember (i : nat) (key : list byte)
| Clear (i : nat)
| Destroy (i : nat).

Record Store := mkStore { heap : Heap; vars : list Rep }.

Definition on_heap {A} (m : H A) : M Store A := fun s =>
  let '(x, h) := m (heap s) in (x, mkStore h (vars s)).

Definition set_vars (l : list Rep) : M Store unit := modify (fun s => mkStore (heap s) l).

(** Run [f] on a variable, if there is one. *)
Definition with_var (i : nat) (f : Rep -> M Store unit) : M Store unit :=
  s ← get; match vars s !! i with Some r => f r | None => mret tt end.

Definition set_var (i : nat) (r : Rep) : M Store unit := s ← get; set_vars (<[i := r]> (vars s)).
Definition push_var (r : Rep) : M Store unit := s ← get; set_vars (vars s ++ [r]).

(** A static string ends with a NUL. *)
Definition build (c : construct) : H Rep :=
  match c with
  | of_type t => mret (new_Value t)
  | of_int n => mret (Value_int n)
  | of_uint n => mret (Value_uint n)
  | of_real r => mret (Value_real r)
  | of_bool b => mret (Value_bool b)
  | of_string s => Value_string s
  | of_static s => mret (Value_static (static (s ++ [Byte.x00])))
  end.

Definition exec (o : op) : M Store unit :=
  match o with
  | New c => r ← on_heap (build c); push_var r
  | Copy i => with_var i (fun x => r ← on_heap (copy x); push_var r)
  | Assign i j => with_var i (fun self => with_var j (fun other => r ← on_heap (operator_assign self other); set_var i r))
  | MoveAssign i j =>
      with_var i (fun self => with_var j (fun other =>
        let '(self, other) := move_assign self other in _ ← set_var j other; set_var i self))
  | Append i j => with_var i (fun self => with_var j (fun value => r ← on_heap (append self value); set_var i r))
  | SetMember i key j =>
      with_var i (fun self =>
        '(self, found) ← on_heap (resolveReference self (static key) (zlen key));
        _ ← set_var i self;
        match found with
        | inl e => throw e
        | inr it =>
            with_var j (fun other =>
              match entry self it with
              | Some old => r ← on_heap (operator_assign old other); set_var i (set_entry self it r)
              | None => undefined
              end)
        end)
  | RemoveMember i key =>
      with_var i (fun self => '(_, self, _) ← on_heap (removeMember self (static key) (zlen key) None); set_var i self)
  | Clear i => with_var i (fun self => r ← on_heap (clear self); set_var i r)
  | Destroy i => with_var i (fun self => _ ← on_heap (destroy self); s ← get; set_vars (delete i (vars s)))
  end.

(** A program goes on behind an exception; the log has one entry for every operation. *)
Fixpoint run (ops : list op) : M Store (list (option exn)) :=
  match ops with
  | [] => mret []
  | o :: ops' =>
      x ← try (_ ← exec o; mret None) (fun e => mret (Some e));
      log ← run ops';
      mret (x :: log)
  end.

(** ** What the operations mean *)

Abbreviation values := (list Values.Value).

Definition made (c : construct) : outcome Values.Value :=
  match c with
  | of_type t => mret (Values.new_Value t)
  | of_int n => mret (Values.intValue n)
  | of_uint n => mret (Values.uintValue n)
  | of_real r => mret (Values.realValue r)
  | of_bool b => mret (Values.booleanValue b)
  | of_string s => if zlen s <=? Real.maxInt - 5 then mret (Values.stringValue s) else Throw json_logic_error
  | of_static s => mret (Values.stringValue s)
  end.

(** [f] on a variable, if there is one. *)
Definition at_var (vals : values) (i : nat) (f : Values.Value -> outcome values) : outcome values :=
  match vals !! i with Some v => f v | None => mret vals end.

Definition effect (o : op) (vals : values) : outcome values :=
  match o with
  | New c => v ← made c; mret (vals ++ [v])
  | Copy i => at_var vals i (fun v => mret (vals ++ [v]))
  | Assign i j => at_var vals i (fun _ => at_var vals j (fun w => mret (<[i := w]> vals)))
  | MoveAssign i j => at_var vals i (fun v => at_var vals j (fun w => mret (<[i := w]> (<[j := v]> vals))))
  | Append i j => at_var vals i (fun v => at_var vals j (fun w => v' ← Values.append v w; mret (<[i := v']> vals)))
  | SetMember i key j =>
      at_var vals i (fun v =>
        '(_, v1) ← Values.resolveReference v key;
        at_var (<[i := v1]> vals) j (fun w => v' ← Values.assign v1 key w; mret (<[i := v']> vals)))
  | RemoveMember i key => at_var vals i (fun v => mret (<[i := (Values.removeMember v key).2]> vals))
  | Clear i => at_var vals i (fun v => v' ← Values.clear v; mret (<[i := v']> vals))
  | Destroy i => at_var vals i (fun _ => mret (delete i vals))
  end.

(** What an operation leaves that failed for want of memory: the values as they were, but
    [v[key] = w] has made an object of a null [v] before it allocates, ... *)
Definition touched (o : op) (vals : values) : values :=
  match o with
  | SetMember i _ _ => match vals !! i with Some v => <[i := made_object v]> vals | None => vals end
  | _ => vals
  end.

(** ... and behind its first half the member has a null value. *)
Definition begun (o : op) (vals : values) : values :=
  match o with
  | SetMember i key _ =>
      match vals !! i with
      | Some v => match Values.resolveReference v key with Ok (_, v1) => <[i := v1]> vals | _ => vals end
      | None => vals
      end
  | _ => vals
  end.

(** An operation has its effect, or throws: what its effect throws, or for want of memory. *)
Definition did (o : op) (x : option exn) (vals vals' : values) : Prop :=
  match x with
  | None => effect o vals = Ok vals'
  | Some e => (e = json_runtime_error /\ (vals' = touched o vals \/ vals' = begun o vals)) \/ (effect o vals = Throw e /\ vals' = vals)
  end.

Fixpoint did_all (ops : list op) (log : list (option exn)) (vals vals' : values) : Prop :=
  match ops, log with
  | [], [] => vals' = vals
  | o :: ops', x :: log' => exists vals1, did o x vals vals1 /\ did_all ops' log' vals1 vals'
  | _, _ => False
  end.

(** Keys below a gigabyte, strings below four, static ones without a NUL. *)
Definition sane (o : op) : bool :=
  match o with
  | New (of_string s) => zlen s <? 2 ^ 32
  | New (of_static s) => (zlen s <? 2 ^ 32) && negb (bool_decide (Byte.x00 ∈ s))
  | SetMember _ key _ | RemoveMember _ key => zlen key <? 2 ^ 30
  | _ => true
  end.

(** ** Every block has its owner *)

Abbreviation owned_by := (flat_map owned).

Definition sorted_top (v : Values.Value) : Prop :=
  match v with
  | Values.arrayValue e => OMap.sorted e
  | Values.objectValue e => OMap.sorted e
  | _ => True
  end.

(** The variables stand for [vals], and own all blocks, each once. *)
Record accounted (s : Store) (vals : values) : Prop := mkAccounted {
  ac_repr : Forall2 (repr (blocks (heap s))) (vars s) vals;
  ac_nodup : NoDup (owned_by (vars s));
  ac_exact : forall a, is_Some (blocks (heap s) !! a) <-> a ∈ owned_by (vars s);
  ac_sorted : Forall sorted_top vals
}.

Lemma vars_owned m l vals a : Forall2 (repr m) l vals -> a ∈ owned_by l -> is_Some (m !! a).
Proof.
  induction 1 as [|r v l vals Hr Hl IH]; [by intros ?%elem_of_nil|]. cbn [flat_map].
  intros [Ha|Ha]%elem_of_app; [by apply (repr_owned _ r v)|auto].
Qed.

Lemma vars_update m m' o o' l vals : Forall2 (repr m) l vals -> update m m' o o' -> (forall a, a ∈ owned_by l -> a ∉ o) ->
  Forall2 (repr m') l vals.
Proof.
  intros Hl Hu Hd. induction Hl as [|r v l vals Hr Hl IH]; constructor.
  - eapply repr_update; [done..|]. intros a Ha. apply Hd. cbn. apply elem_of_app. by left.
  - apply IH. intros a Ha. apply Hd. cbn. apply elem_of_app. by right.
Qed.

(** The books are kept when the blocks follow the variables. *)
Lemma accounted_update s vals h' l' vals' : accounted s vals ->
  update (blocks (heap s)) (blocks h') (owned_by (vars s)) (owned_by l') ->
  Forall2 (repr (blocks h')) l' vals' -> Forall sorted_top vals' -> accounted (mkStore h' l') vals'.
Proof.
  intros Ha Hu Hr Hs. split; cbn [heap vars]; [done|apply Hu| |done]. intros a. split; [|apply Hu].
  intros [x Hx]. destruct (decide (a ∈ owned_by l')) as [|Hn]; [done|]. destruct (decide (a ∈ owned_by (vars s))) as [Ho|Ho].
  - by rewrite (up_gone _ _ _ _ Hu) in Hx.
  - rewrite (up_rest _ _ _ _ Hu) in Hx by done. destruct Ho. apply (ac_exact _ _ Ha). by eexists.
Qed.

(** The variables around one of them. *)
Lemma split_var s vals i v : accounted s vals -> vals !! i = Some v ->
  exists l1 r l2 v1 v2, vars s = l1 ++ r :: l2 /\ vals = v1 ++ v :: v2 /\ i = length l1 /\ i = length v1
    /\ Forall2 (repr (blocks (heap s))) l1 v1 /\ repr (blocks (heap s)) r v /\ Forall2 (repr (blocks (heap s))) l2 v2
    /\ NoDup (owned r) /\ sorted_top v
    /\ (forall a, a ∈ owned r -> (a ∉ owned_by l1) /\ (a ∉ owned_by l2)).
Proof.
  intros [Hr Hn _ Hs] Hv. apply list_elem_of_split_length in Hv as (v1 & v2 & -> & ->).
  apply Forall2_app_inv_r in Hr as (l1 & l2 & H1 & H2 & E). apply Forall2_cons_inv_r in H2 as (r & l3 & Hr & H3 & ->).
  rewrite E in Hn. rewrite List.flat_map_app in Hn. cbn [flat_map] in Hn. apply NoDup_app in Hn as (_ & Hd1 & Hn).
  apply NoDup_app in Hn as (Hno & Hd2 & _). apply Forall_app in Hs as [_ Hs]. apply Forall_cons in Hs as [Hs _].
  exists l1, r, l3, v1, v2. rewrite (Forall2_length _ _ _ H1). split_and!; try done.
  intros a Ha. split; [|by apply Hd2]. intros H. apply (Hd1 a H), elem_of_app. by left.
Qed.

Lemma insert_middle {A} (l1 l2 : list A) x y i : i = length l1 -> <[i := y]> (l1 ++ x :: l2) = l1 ++ y :: l2.
Proof. intros ->. rewrite <- (Nat.add_0_r (length l1)). by rewrite insert_app_r. Qed.

(** One variable is changed. *)
Lemma accounted_var s vals i v r h' r' v' : accounted s vals -> vals !! i = Some v -> vars s !! i = Some r ->
  update (blocks (heap s)) (blocks h') (owned r) (owned r') -> repr (blocks h') r' v' -> sorted_top v' ->
  accounted (mkStore h' (<[i := r']> (vars s))) (<[i := v']> vals).
Proof.
  intros Ha Hv Hr Hu Hr' Hs'.
  destruct (split_var _ _ _ _ Ha Hv) as (l1 & r0 & l2 & v1 & v2 & El & Ev & Ei & Ej & H1 & H0 & H2 & Hn & Hs & Hd).
  assert (r0 = r) as -> by (rewrite El, list_lookup_middle in Hr by done; congruence).
  eapply accounted_update; [exact Ha|..].
  - rewrite El, (insert_middle l1), !List.flat_map_app by done. cbn [flat_map].
    apply update_middle; [done| |]. { pose proof (ac_nodup _ _ Ha) as Hna. by rewrite El, List.flat_map_app in Hna. }
    intros a [Hx|Hx]%elem_of_app; [by apply (vars_owned _ _ _ _ H1)|by apply (vars_owned _ _ _ _ H2)].
  - rewrite El, Ev, (insert_middle l1), (insert_middle v1) by done. apply Forall2_app; [|constructor; [done|]].
    + eapply vars_update; [done..|]. intros a Hx Hy. by destruct (Hd a Hy).
    + eapply vars_update; [done..|]. intros a Hx Hy. by destruct (Hd a Hy).
  - apply Forall_insert; [apply Ha|done].
Qed.

(** A variable is added. *)
Lemma accounted_push s vals h' r v : accounted s vals -> grown (blocks (heap s)) (blocks h') (owned r) -> repr (blocks h') r v ->
  sorted_top v -> accounted (mkStore h' (vars s ++ [r])) (vals ++ [v]).
Proof.
  intros Ha Hg Hr Hs. assert (forall a, a ∈ owned_by (vars s) -> is_Some (blocks (heap s) !! a)) as Hx by (intros a; apply Ha).
  eapply accounted_update; [exact Ha|..].
  - rewrite List.flat_map_app. cbn [flat_map]. rewrite app_nil_r.
    eapply update_perm; [apply (update_app _ _ [] _ (owned_by (vars s)) (update_grown _ _ _ Hg)); [apply Ha|done]|done|apply comm, _].
  - apply Forall2_app; [|by constructor]. eapply vars_update; [apply Ha|by apply update_grown|]. intros a _. apply not_elem_of_nil.
  - apply Forall_app. split; [apply Ha|by repeat constructor].
Qed.

(** A variable is gone with its blocks. *)
Lemma accounted_delete s vals i r h' : accounted s vals -> vars s !! i = Some r -> shrunk (blocks (heap s)) (blocks h') (owned r) ->
  accounted (mkStore h' (delete i (vars s))) (delete i vals).
Proof.
  intros Ha Hr Hsh. destruct (Forall2_lookup_l _ _ _ _ _ (ac_repr _ _ Ha) Hr) as (v & Hv & _).
  destruct (split_var _ _ _ _ Ha Hv) as (l1 & r0 & l2 & v1 & v2 & El & Ev & Ei & Ej & H1 & H0 & H2 & Hn & Hs & Hd).
  assert (r0 = r) as -> by (rewrite El, list_lookup_middle in Hr by done; congruence).
  assert (update (blocks (heap s)) (blocks h') (owned r) []) as Hu by (by apply update_shrunk).
  eapply accounted_update; [exact Ha|..].
  - rewrite El, Ei, delete_middle, !List.flat_map_app. cbn [flat_map].
    apply (update_middle _ _ _ []); [done| |]. { pose proof (ac_nodup _ _ Ha) as Hna. by rewrite El, List.flat_map_app in Hna. }
    intros a [Hx|Hx]%elem_of_app; [by apply (vars_owned _ _ _ _ H1)|by apply (vars_owned _ _ _ _ H2)].
  - rewrite El, Ev. rewrite Ei at 1. rewrite Ej. rewrite !delete_middle. apply Forall2_app.
    + eapply vars_update; [done..|]. intros a Hx Hy. by destruct (Hd a Hy).
    + eapply vars_update; [done..|]. intros a Hx Hy. by destruct (Hd a Hy).
  - apply Forall_delete, Ha.
Qed.

(** ** One operation *)

Lemma wp_on_heap {A} (m : H A) (Q : A -> Store -> Prop) E s :
  wp m (fun x h => Q x (mkStore h (vars s))) (fun e h => E e (mkStore h (vars s))) (heap s) -> wp (on_heap m) Q E s.
Proof. unfold wp, on_heap. by destruct (m (heap s)) as [[] h]. Qed.

Lemma wp_set_var i r (Q : unit -> Store -> Prop) E s : Q tt (mkStore (heap s) (<[i := r]> (vars s))) -> wp (set_var i r) Q E s.
Proof. done. Qed.

Lemma wp_push_var r (Q : unit -> Store -> Prop) E s : Q tt (mkStore (heap s) (vars s ++ [r])) -> wp (push_var r) Q E s.
Proof. done. Qed.

(** A failed allocation changes nothing. *)
Lemma accounted_same s vals h' : accounted s vals -> blocks h' = blocks (heap s) -> accounted (mkStore h' (vars s)) vals.
Proof. intros [] E. split; cbn; by rewrite ?E. Qed.

(** A variable that there is, and its value. *)
Lemma wp_with_var s vals i f (Q : unit -> Store -> Prop) E : accounted s vals ->
  (forall r v, vars s !! i = Some r -> vals !! i = Some v -> repr (blocks (heap s)) r v -> NoDup (owned r) -> sorted_top v ->
     wp (f r) Q E s) ->
  (vals !! i = None -> Q tt s) -> wp (with_var i f) Q E s.
Proof.
  intros Ha Hf Hq. unfold with_var. wps. wps. destruct (vars s !! i) as [r|] eqn:Hr.
  - destruct (Forall2_lookup_l _ _ _ _ _ (ac_repr _ _ Ha) Hr) as (v & Hv & Hrv).
    destruct (split_var _ _ _ _ Ha Hv) as (l1 & r0 & l2 & v1 & v2 & El & _ & Ei & _ & _ & _ & _ & Hn & Hs & _).
    assert (r0 = r) as -> by (rewrite El, list_lookup_middle in Hr by done; congruence). by apply (Hf r v).
  - wps. apply Hq. apply lookup_ge_None. apply lookup_ge_None in Hr. by rewrite <- (Forall2_length _ _ _ (ac_repr _ _ Ha)).
Qed.

(** What every operation keeps. *)
Definition done_ok (o : op) (vals : values) (s' : Store) : Prop := exists vals', effect o vals = Ok vals' /\ accounted s' vals'.
Definition done_throw (o : op) (vals : values) (e : exn) (s' : Store) : Prop :=
  exists vals', did o (Some e) vals vals' /\ accounted s' vals'.

Lemma no_memory_throw o s vals e h' : touched o vals = vals -> accounted s vals -> no_memory (heap s) e h' -> done_throw o vals e (mkStore h' (vars s)).
Proof. intros Ht Ha [-> E]. exists vals. split; [left; by split; [|left]|by apply accounted_same]. Qed.

Lemma refused_throw {A} (spec : outcome A) o s vals e h' : touched o vals = vals -> accounted s vals -> refused spec (heap s) e h' ->
  (spec = Throw e -> effect o vals = Throw e) -> done_throw o vals e (mkStore h' (vars s)).
Proof.
  intros Ht Ha [E [-> |Es]] Ho; exists vals; (split; [|by apply accounted_same]); [left; by split; [|left]|right]. split; [by apply Ho|done].
Qed.

Lemma new_spec c s vals : sane (New c) = true -> accounted s vals ->
  wp (exec (New c)) (fun _ => done_ok (New c) vals) (done_throw (New c) vals) s.
Proof.
  intros Hc Ha.
  assert (wp (build c) (fun r h' => exists v, made c = Ok v /\ grown (blocks (heap s)) (blocks h') (owned r) /\ repr (blocks h') r v /\ sorted_top v)
    (refused (made c) (heap s)) (heap s)) as Hb.
  { destruct c as [t|n|n|x|b|str|str]; cbn [build made]; try (wps; eexists; split; [done|]; by split; [apply grown_nil|]).
    - wps. eexists. split; [done|]. split; [by destruct t; apply grown_nil|]. destruct t; try done. split; [|done]. cbn.
      split; [done|]. split; [apply not_elem_of_nil|by exists []].
    - cbn in Hc. zbool. eapply wp_mono; [by apply Value_string_spec|..].
      + intros r h' (Hl & Hg & Hr). exists (Values.stringValue str). by rewrite (proj2 (Z.leb_le _ _)).
      + intros e h' [E [-> |[-> Hl]]]; (split; [done|]); [by left|right]. by rewrite (proj2 (Z.leb_gt _ _)).
    - cbn in Hc. zbool. wps. eexists. split; [done|]. split; [apply grown_nil|]. split; [|done]. cbn.
      split; [done|]. split; [|by eexists]. apply negb_true_iff, bool_decide_eq_false in H0. done. }
  cbn [exec]. wps. apply wp_on_heap. eapply wp_mono; [exact Hb|..].
  - intros r h' (v & E & Hg & Hr & Hs). apply wp_push_var. cbn [heap vars]. exists (vals ++ [v]). cbn [effect]. rewrite E.
    split; [done|by apply accounted_push].
  - intros e h' He. eapply refused_throw; [done|done|exact He|]. cbn [effect]. by intros ->.
Qed.

(** No variable, no effect. *)
Lemma no_var_ok o s vals : accounted s vals -> effect o vals = Ok vals -> done_ok o vals s.
Proof. intros Ha E. by exists vals. Qed.

Ltac no_var := let N := fresh "N" in intros N; apply no_var_ok; [done|]; cbn [effect]; unfold at_var;
  repeat match goal with E : ?l !! ?i = _ |- context [?l !! ?i] => rewrite E end; done.

Lemma copy_op_spec i s vals : accounted s vals -> wp (exec (Copy i)) (fun _ => done_ok (Copy i) vals) (done_throw (Copy i) vals) s.
Proof.
  intros Ha. apply (wp_with_var s vals); [done| |no_var]. intros r v _ Hv Hr _ Hs. wps. apply wp_on_heap.
  eapply wp_mono; [by apply (copy_spec r v)| |intros e h'; by apply no_memory_throw]. intros r' h' [Hg Hr'].
  apply wp_push_var. cbn [heap vars]. exists (vals ++ [v]). cbn [effect]. unfold at_var. rewrite Hv. split; [done|by apply accounted_push].
Qed.

Lemma assign_op_spec i j s vals : accounted s vals ->
  wp (exec (Assign i j)) (fun _ => done_ok (Assign i j) vals) (done_throw (Assign i j) vals) s.
Proof.
  intros Ha. apply (wp_with_var s vals); [done| |no_var]. intros r v Hi Hv Hr Hn _.
  apply (wp_with_var s vals); [done| |no_var]. intros other w _ Hw Ho _ Hs. wps. apply wp_on_heap.
  eapply wp_mono; [by apply (assign_update r other v w)| |intros e h'; by apply no_memory_throw]. intros r' h' [Hu Hr'].
  apply wp_set_var. cbn [heap vars]. exists (<[i := w]> vals). cbn [effect]. unfold at_var. rewrite Hv, Hw. split; [done|by eapply accounted_var].
Qed.

Lemma append_op_spec i j s vals : accounted s vals ->
  wp (exec (Append i j)) (fun _ => done_ok (Append i j) vals) (done_throw (Append i j) vals) s.
Proof.
  intros Ha. apply (wp_with_var s vals); [done| |no_var]. intros r v Hi Hv Hr Hn Hs.
  apply (wp_with_var s vals); [done| |no_var]. intros other w _ Hw Ho _ _. wps. apply wp_on_heap.
  eapply wp_mono; [apply (append_spec r v other w); [done..|by destruct v]| |].
  - intros r' h' (v' & E & Hu & Hr'). apply wp_set_var. cbn [heap vars]. exists (<[i := v']> vals). cbn [effect]. unfold at_var. rewrite Hv, Hw, E.
    split; [done|]. eapply accounted_var; [done..|]. unfold Values.append in E. destruct v as [| | | | | |e|]; try done; injection E as <-; [by repeat constructor|]. cbn.
    case_match; [done|by apply OMap.put_keeps_sorted].
  - intros e h' He. eapply refused_throw; [done|done|exact He|]. intros E. cbn [effect]. unfold at_var. by rewrite Hv, Hw, E.
Qed.

Lemma remove_op_spec i key s vals : sane (RemoveMember i key) = true -> accounted s vals ->
  wp (exec (RemoveMember i key)) (fun _ => done_ok (RemoveMember i key) vals) (done_throw (RemoveMember i key) vals) s.
Proof.
  intros Hk Ha. cbn in Hk. zbool. apply (wp_with_var s vals); [done| |no_var]. intros r v Hi Hv Hr Hn Hs. wps. apply wp_on_heap.
  rewrite <- (app_nil_r key) at 1.
  eapply wp_mono; [apply (removeMember_spec r v key []); [done..|by destruct v]| |done]. intros [[b r'] removed] h' [[Hu Hr'] _]. cbn [fst snd] in *.
  apply wp_set_var. cbn [heap vars]. eexists. cbn [effect]. unfold at_var. rewrite Hv. split; [done|]. eapply accounted_var; [done..|].
  unfold Values.removeMember. destruct v as [| | | | | | |e]; try done. destruct (OMap.find _ e); [|done]. by apply OMap.erase_sorted.
Qed.

Lemma clear_op_spec i s vals : accounted s vals -> wp (exec (Clear i)) (fun _ => done_ok (Clear i) vals) (done_throw (Clear i) vals) s.
Proof.
  intros Ha. apply (wp_with_var s vals); [done| |no_var]. intros r v Hi Hv Hr Hn Hs. wps. apply wp_on_heap.
  assert (wp (clear r) (fun r' h' => exists v', Values.clear v = Ok v' /\ updates (heap s) r v' r' h' /\ sorted_top v')
    (refused (Values.clear v) (heap s)) (heap s)) as Hc.
  { destruct v as [| | | | | |e|e].
    7: { eapply wp_mono; [by apply (clear_spec (K := Z) r e)| |done]. intros r' h' Hu. by eexists. }
    7: { eapply wp_mono; [by apply (clear_spec (K := list byte) r e)| |done]. intros r' h' Hu. by eexists. }
    all: destruct r as [t al hold me]; destruct t, hold; try done; unfold clear; cbn [value_type_ value_ meta allocated_];
      wps; try by (split; [|right]).
    all: exists Values.nullValue; split; [done|]; split; [|done]; split; [|done]; exact (update_grown _ _ _ (grown_nil _)). }
  eapply wp_mono; [exact Hc| |].
  - intros r' h' (v' & E & [Hu Hr'] & Hs'). apply wp_set_var. cbn [heap vars]. eexists. cbn [effect]. unfold at_var. rewrite Hv, E.
    split; [done|by eapply accounted_var].
  - intros e h' He. eapply refused_throw; [done|done|exact He|]. intros E. cbn [effect]. unfold at_var. by rewrite Hv, E.
Qed.

Lemma destroy_op_spec i s vals : accounted s vals -> wp (exec (Destroy i)) (fun _ => done_ok (Destroy i) vals) (done_throw (Destroy i) vals) s.
Proof.
  intros Ha. apply (wp_with_var s vals); [done| |no_var]. intros r v Hi Hv Hr Hn _. wps. apply wp_on_heap.
  eapply wp_mono; [by apply (release_spec r v)| |done]. intros [] h' Hsh. wps. wps. unfold set_vars. wps. cbn [heap vars].
  eexists. cbn [effect]. unfold at_var. rewrite Hv. split; [done|by eapply accounted_delete].
Qed.

(** *** Moving *)

Lemma insert_perm {A} (l : list A) i x y : l !! i = Some x -> x :: <[i := y]> l ≡ₚ y :: l.
Proof.
  intros (l1 & l2 & -> & ->)%list_elem_of_split_length. rewrite (insert_middle l1) by done. solve_Permutation.
Qed.

Lemma exchange_perm {A} (l : list A) i j x y : l !! i = Some x -> l !! j = Some y -> <[i := y]> (<[j := x]> l) ≡ₚ l.
Proof.
  intros Hi Hj. destruct (decide (i = j)) as [<-|Hne].
  { assert (x = y) as -> by congruence. rewrite !(list_insert_id l) by done. done. }
  apply (inj (cons x)). transitivity (y :: <[j := x]> l).
  - apply insert_perm. by rewrite list_lookup_insert_ne.
  - by apply insert_perm.
Qed.

Lemma move_op_spec i j s vals : accounted s vals ->
  wp (exec (MoveAssign i j)) (fun _ => done_ok (MoveAssign i j) vals) (done_throw (MoveAssign i j) vals) s.
Proof.
  intros Ha. apply (wp_with_var s vals); [done| |no_var]. intros r v Hi Hv Hr _ Hs.
  apply (wp_with_var s vals); [done| |no_var]. intros other w Hj Hw Ho _ Hs'. unfold move_assign. rewrite swap_swaps.
  wps. apply wp_set_var, wp_set_var. cbn [heap vars]. eexists. cbn [effect]. unfold at_var. rewrite Hv, Hw. split; [done|].
  eapply accounted_update; [exact Ha|..].
  - eapply (update_perm _ _ (owned_by (vars s)) (owned_by (vars s))); [|done|].
    + split; [apply Ha|intros a; apply Ha|done..].
    + apply Permutation_flat_map. symmetry. by apply exchange_perm.
  - by apply Forall2_insert; [apply Forall2_insert; [apply Ha|]|].
  - by apply Forall_insert; [apply Forall_insert; [apply Ha|]|].
Qed.

(** *** Members *)

Lemma set_member_op_spec i key j s vals : sane (SetMember i key j) = true -> accounted s vals ->
  wp (exec (SetMember i key j)) (fun _ => done_ok (SetMember i key j) vals) (done_throw (SetMember i key j) vals) s.
Proof.
  intros Hk Ha. cbn in Hk. zbool. apply (wp_with_var s vals); [done| |no_var]. intros r v Hi Hv Hr Hn Hs.
  wps. apply wp_on_heap. destruct (Values.resolveReference v key) as [[x v1]|ex| |] eqn:E.
  3, 4: unfold Values.resolveReference in E; destruct v; try done; cbn in E; by destruct (OMap.find _ _).
  2: { unfold wp. rewrite (resolveReference_refused r v key _ _ ex (heap s) Hr E). exists vals. split; [|by apply accounted_same].
       right. cbn [effect]. unfold at_var. by rewrite Hv, E. }
  rewrite <- (app_nil_r key) at 1.
  eapply wp_mono; [apply (resolveReference_spec r v key [] x v1); [done..|by destruct v|done]| |done].
  intros [self [ex|it]] h1; cbn [fst snd].
  { intros ([-> Eb] & Hu & Hr1). wps. apply wp_set_var. wps. exists (touched (SetMember i key j) vals). split; [by left; split; [|left]|].
    cbn [touched]. rewrite Hv. apply (accounted_var s vals i v r h1 self (made_object v)); [done..|]. by destruct v. }
  intros ([Hu Hr1] & e & -> & Hse & Hf & Hit & He). wps. apply wp_set_var. cbn [heap vars].
  set (s1 := mkStore h1 (<[i := self]> (vars s))). set (vals1 := <[i := Values.objectValue e]> vals).
  assert (accounted s1 vals1) as Ha1 by (by eapply accounted_var).
  assert (vals1 !! i = Some (Values.objectValue e)) as Hv1 by (apply list_lookup_insert_eq; by eapply lookup_lt_Some).
  assert (vars s1 !! i = Some self) as Hi1 by (apply list_lookup_insert_eq; by eapply lookup_lt_Some).
  apply (wp_with_var s1 vals1); [done|..].
  - intros other w _ Hw Ho _ _.
    destruct (assign_entry_spec (K := list byte) self e it key x other w h1) as (old & Eo & Hwp); [done|apply Hu|done|done|].
    rewrite Eo. wps. apply wp_on_heap. eapply wp_mono; [exact Hwp|..].
    + intros r' h' [Hu' Hr']. apply wp_set_var. cbn [heap vars]. exists (<[i := Values.objectValue (OMap.put key w e)]> vals1). split.
      * cbn [effect]. unfold at_var at 1. rewrite Hv, E. cbn [mbind outcome_bind]. fold vals1. unfold at_var. rewrite Hw. cbn [Values.assign].
        unfold Values.assign. cbn. rewrite CZString_id by done. unfold vals1. by rewrite list_insert_insert_eq.
      * eapply accounted_var; [exact Ha1|done|done|exact Hu'| |by apply OMap.put_keeps_sorted].
        rewrite (put_found key w e x) by done. by rewrite <- Hit.
    + intros ex h' [-> Eb]. exists vals1. split; [left; split; [done|right]|by apply (accounted_same s1)].
      cbn [begun]. by rewrite Hv, E.
  - intros Hw. exists vals1. split; [|done]. cbn [effect]. unfold at_var at 1. rewrite Hv, E. cbn [mbind outcome_bind]. fold vals1.
    unfold at_var. by rewrite Hw.
Qed.

(** ** Programs *)

Lemma exec_spec o s vals : sane o = true -> accounted s vals -> wp (exec o) (fun _ => done_ok o vals) (done_throw o vals) s.
Proof.
  destruct o; intros Hs Ha.
  - by apply new_spec.
  - by apply copy_op_spec.
  - by apply assign_op_spec.
  - by apply move_op_spec.
  - by apply append_op_spec.
  - by apply set_member_op_spec.
  - by apply remove_op_spec.
  - by apply clear_op_spec.
  - by apply destroy_op_spec.
Qed.

Lemma run_spec ops : forall s vals, forallb sane ops = true -> accounted s vals ->
  wp (run ops) (fun log s' => exists vals', did_all ops log vals vals' /\ accounted s' vals') (fun _ _ => False) s.
Proof.
  induction ops as [|o ops IH]; intros s vals Hs Ha; [apply wp_mret; by exists vals|]. cbn in Hs. zbool. cbn [run]. wps. wps.
  assert (forall x s1 vals1, did o x vals vals1 -> accounted s1 vals1 ->
    wp (log ← run ops; mret (x :: log)) (fun log s' => exists vals', did_all (o :: ops) log vals vals' /\ accounted s' vals')
      (fun _ _ => False) s1) as Hgo.
  { intros x s1 vals1 Hd H1. wps. eapply wp_mono; [by apply (IH s1 vals1)| |done]. intros log s2 (vals2 & Hl & H2). wps.
    exists vals2. split; [by exists vals1|done]. }
  wps. eapply wp_mono; [by apply (exec_spec o s vals)|..].
  - intros [] s1 (vals1 & E & H1). wps. by apply (Hgo None s1 vals1).
  - intros e s1 (vals1 & E & H1). wps. by apply (Hgo (Some e) s1 vals1).
Qed.

(** *** Enough memory *)

Abbreviation stocked := (sated heap).

Lemma stocked_on_heap {A} (m : H A) : fed m -> stocked (on_heap m).
Proof. intros Hm s Hs. destruct (Hm (heap s) Hs) as [H1 H2]. unfold on_heap. by destruct (m (heap s)) as [x h]. Qed.

Lemma yields_on_heap {A} (m : H A) P : yields (fun h : Heap => h) m P -> yields heap (on_heap m) P.
Proof. intros Hm s Hs a. unfold on_heap. pose proof (Hm (heap s) Hs a) as H1. by destruct (m (heap s)) as [x h]. Qed.

Lemma stocked_vars l : stocked (set_vars l).
Proof. by apply sated_modify. Qed.

Lemma stocked_exec o : stocked (exec o).
Proof.
  assert (forall i r, stocked (set_var i r)) as Hset by (intros; apply sated_bind; [apply sated_get|intros; apply stocked_vars]).
  assert (forall r, stocked (push_var r)) as Hpush by (intros; apply sated_bind; [apply sated_get|intros; apply stocked_vars]).
  assert (forall i f, (forall r, stocked (f r)) -> stocked (with_var i f)) as Hwith.
  { intros i f Hf. apply sated_bind; [apply sated_get|]. intros s. destruct (vars s !! i); [apply Hf|apply sated_ret]. }
  destruct o as [c|i|i j|i j|i j|i key j|i key|i|i]; cbn [exec].
  - apply sated_bind; [|done]. apply stocked_on_heap. destruct c; feed.
  - apply Hwith. intros r. apply sated_bind; [apply stocked_on_heap; feed|done].
  - do 2 (apply Hwith; intros ?). apply sated_bind; [apply stocked_on_heap; feed|done].
  - do 2 (apply Hwith; intros ?). by apply sated_bind.
  - do 2 (apply Hwith; intros ?). apply sated_bind; [apply stocked_on_heap; feed|done].
  - apply Hwith. intros r. 
    apply (sated_bind_yields heap (fun y => y.2 <> inl json_runtime_error)); [apply stocked_on_heap; unfold resolveReference; feed| |].
    { apply yields_on_heap, demand_yields. }
    intros [self found] Hy. apply sated_bind; [done|]. intros _. destruct found as [e|it]; [split; [done|cbn in *; congruence]|]. apply Hwith. intros other. destruct (entry self it); [|apply sated_undefined].
    apply sated_bind; [apply stocked_on_heap; feed|done].
  - apply Hwith. intros r. apply sated_bind; [apply stocked_on_heap; feed|]. by intros [[? ?] ?].
  - apply Hwith. intros r. apply sated_bind; [apply stocked_on_heap; feed|done].
  - apply Hwith. intros r. apply sated_bind; [apply stocked_on_heap; feed|]. intros _. apply sated_bind; [apply sated_get|intros; apply stocked_vars].
Qed.

Lemma run_cons o ops s : run (o :: ops) s =
  match exec o s with
  | (Ok _, s1) => (log ← run ops; mret (None :: log)) s1
  | (Throw e, s1) => (log ← run ops; mret (Some e :: log)) s1
  | (UB, s1) => (UB, s1)
  | (OutOfFuel, s1) => (OutOfFuel, s1)
  end.
Proof. cbn [run]. unfold try, mbind, M_bind. by destruct (exec o s) as [[[]|e| |] s1]. Qed.

Lemma stocked_run ops : forall s, plenty (heap s) ->
  plenty (heap (run ops s).2) /\ forall log, (run ops s).1 = Ok log -> Some json_runtime_error ∉ log.
Proof.
  induction ops as [|o ops IH]; intros s Hs; [split; [done|]; intros log [= <-]; apply not_elem_of_nil|].
  destruct (stocked_exec o s Hs) as [H1 H2]. rewrite run_cons.
  assert (forall x s1, x <> Some json_runtime_error -> plenty (heap s1) ->
    plenty (heap ((log ← run ops; mret (x :: log)) s1).2)
    /\ forall log, ((log ← run ops; mret (x :: log)) s1).1 = Ok log -> Some json_runtime_error ∉ log) as Hgo.
  { intros x s1 Hx Hs1. destruct (IH s1 Hs1) as [H3 H4]. unfold mbind, M_bind. destruct (run ops s1) as [[l| | |] s2]; cbn in *; (split; [done|]); try done.
    intros log [= <-]. rewrite not_elem_of_cons. split; [congruence|by apply H4]. }
  destruct (exec o s) as [[[]|e| |] s1]; cbn [fst snd] in *.
  - by apply (Hgo None).
  - apply (Hgo (Some e)); [congruence|done].
  - by split.
  - by split.
Qed.

Lemma accounted_empty a : accounted (mkStore (mkHeap ∅ a) []) [].
Proof. split; cbn; [constructor|constructor| |constructor]. intros k. rewrite lookup_empty. split; [by intros []|by intros ?%elem_of_nil]. Qed.

(** C36: A program that makes, copies, assigns, moves, changes and destroys JSON values, on a heap
    whose [malloc] answers as it likes, comes to its end without undefined behaviour: nothing is
    freed twice or read after it was freed.  Every operation has had its effect on the values or
    has thrown: for a reason of its own, and then left the values as they were, or because an
    allocation failed, and then left them as they were too, except that assigning to a member
    may have made an object of a null value and may have made the member, with a null value.  At
    the end the variables stand for these
    values, the blocks in use are exactly those the variables own, and no two share one: nothing
    leaks, with exceptions or without.  When no allocation fails none is reported. *)
Theorem programs_keep_account ops answers :
  forallb sane ops = true ->
  exists log h l vals,
    run ops (mkStore (mkHeap ∅ answers) []) = (Ok log, mkStore h l)
    /\ did_all ops log [] vals
    /\ Forall2 (repr (blocks h)) l vals
    /\ NoDup (owned_by l)
    /\ (forall a, is_Some (blocks h !! a) <-> a ∈ owned_by l)
    /\ (None ∉ answers -> Some json_runtime_error ∉ log).
Proof.
  intros Hs. pose proof (run_spec ops _ [] Hs (accounted_empty answers)) as Hr.
  pose proof (stocked_run ops (mkStore (mkHeap ∅ answers) [])) as Hp. unfold wp in Hr.
  destruct (run ops (mkStore (mkHeap ∅ answers) [])) as [[log| | |] [h l]]; try done.
  destruct Hr as (vals & Hd & []). exists log, h, l, vals. split_and!; try done. intros Ha. by apply Hp.
Qed.

(** An object with a string in it, with a copy of itself as a member, after a failed allocation. *)
Lemma programs_keep_account_witness :
  let ops := [New (of_type Values.null_t); New (of_string (bs "text")); SetMember 0 (bs "a") 1;
              SetMember 0 (bs "b") 0; Destroy 1; Append 0 0; Copy 0; RemoveMember 0 (bs "a")] in
  let answers := [Some Byte.x00; Some Byte.x00; None; Some Byte.x00; Some Byte.x2a; None] in
  exists log h l vals,
    run ops (mkStore (mkHeap ∅ answers) []) = (Ok log, mkStore h l)
    /\ did_all ops log [] vals
    /\ Forall2 (repr (blocks h)) l vals
    /\ NoDup (owned_by l)
    /\ (forall a, is_Some (blocks h !! a) <-> a ∈ owned_by l)
    /\ (None ∉ answers -> Some json_runtime_error ∉ log).
Proof. intros ops answers. apply (programs_keep_account ops answers). vm_compute. reflexivity. Defined.

(** What the program of the witness does when no allocation fails: the log. *)
Example run_demo :
  (run [New (of_type Values.null_t); New (of_string (bs "text")); SetMember 0 (bs "a") 1;
        SetMember 0 (bs "b") 0; Destroy 1; Append 0 0; Copy 0; Destroy 0; Destroy 0] (mkStore (mkHeap ∅ []) []))
  = (Ok [None; None; None; None; None; Some json_logic_error; None; None; None], mkStore (mkHeap ∅ []) []).
Proof. vm_compute. reflexivity. Qed.

(** A null value stays an object when the memory for the key is missing. *)
Example failed_member_leaves_object :
  (run [New (of_type Values.null_t); SetMember 0 (bs "a") 0] (mkStore (mkHeap ∅ [None]) []))
  = (Ok [None; Some json_runtime_error], mkStore (mkHeap ∅ []) [new_Value Values.object_t]).
Proof. vm_compute. reflexivity. Qed.

(** ** Two operations that nothing calls *)

(** [copyPayload] releases the value before it copies: when the copy fails the value has the type
    of the other one and its own freed holder, and destroying it frees a block twice. *)
Example copyPayload_unsafe :
  let prog :=
    a ← Value_string (bs "x");
    '(o, _) ← resolveReference (new_Value Values.null_t) (static (bs "k")) 1;
    '(p, _) ← resolveReference (new_Value Values.null_t) (static (bs "k")) 1;
    '(o, failed) ← copyPayload o p;
    match failed with Some _ => destroy o | None => mret tt end in
  (prog (mkHeap ∅ [Some Byte.x00; Some Byte.x00; Some Byte.x00; Some Byte.x00; Some Byte.x00; None])).1 = UB
  /\ (prog (mkHeap ∅ [])).1 = Ok tt.
Proof. split; vm_compute; reflexivity. Qed.

(** The copy assignment of keys shares the block, which both destructors free. *)
Example assigned_key_freed_twice :
  let prog :=
    k ← copy_CZString (string_key (static (bs "k")) 1 duplicateOnCopy);
    let k' := assign_CZString (index_key 0) k in
    _ ← destroy_CZString k; destroy_CZString k' in
  (prog (mkHeap ∅ [])).1 = UB.
Proof. vm_compute. reflexivity. Qed.

End Variables.
