(* ===== verification/Ordering.v ===== *)
(** * The order of JSON values

    [operator<] on values compares two maps entry by entry and asks for both orders of
    each pair; [compare], [<=] and [==] are built on it or beside it.  The reference is one
    three-way comparison; the class of comparisons that order a type is closed under
    lexicographic composition, which carries the proofs. *)
From Stdlib Require Import ZArith Lia.
From S2P Require Import Prelude OrderedMap Json Double JsonWriter Values.

Module Ordering.
Import Values.

(** ** Comparisons that compose *)

(** The comparison of the ends of a chain, from those of its links. *)
Definition chain (o1 o2 o3 : comparison) : Prop :=
  (o1 = Eq -> o3 = o2) /\ (o2 = Eq -> o3 = o1) /\ (o1 = o2 -> o3 = o1).

Definition thenc (o1 o2 : comparison) : comparison := match o1 with Eq => o2 | _ => o1 end.

Lemma chain_thenc a1 a2 a3 b1 b2 b3 :
  chain a1 a2 a3 -> (a1 = Eq -> a2 = Eq -> chain b1 b2 b3) ->
  chain (thenc a1 b1) (thenc a2 b2) (thenc a3 b3).
Proof.
  unfold chain. intros (H1 & H2 & H3) Hb.
  destruct a1, a2; cbn in *; try (rewrite (H1 eq_refl)); try (rewrite (H2 eq_refl)); try (rewrite (H3 eq_refl));
    cbn; split_and!; try done; try (by apply Hb).
Qed.

Lemma thenc_opp a b : CompOpp (thenc a b) = thenc (CompOpp a) (CompOpp b).
Proof. by destruct a. Qed.

Lemma chain_Z a b c : chain (a ?= b) (b ?= c) (a ?= c).
Proof.
  unfold chain. split_and!.
  - by intros ->%Z.compare_eq.
  - by intros ->%Z.compare_eq.
  - destruct (Z.compare_spec a b); intros E; symmetry in E.
    + subst. done.
    + rewrite Z.compare_lt_iff in *. lia.
    + rewrite Z.compare_gt_iff in *. lia.
Qed.

(** The three-way comparison of an ordered key. *)
Definition kcmp {K} `{Key K} (a b : K) : comparison :=
  if less a b then Lt else if less b a then Gt else Eq.

Section Keys.
Context {K : Type} `{Key K}.

Lemma kcmp_eq (a b : K) : kcmp a b = Eq <-> a = b.
Proof.
  unfold kcmp. split.
  - destruct (less a b) eqn:E1; [done|]. destruct (less b a) eqn:E2; [done|]. intros _.
    destruct (decide (a = b)) as [|Hne]; [done|]. apply (less_total _ _ E1) in Hne. congruence.
  - intros ->. by rewrite less_irrefl.
Qed.

Lemma kcmp_opp (a b : K) : kcmp b a = CompOpp (kcmp a b).
Proof.
  unfold kcmp. destruct (less a b) eqn:E1.
  - by rewrite (OMap.less_asym _ _ E1).
  - by destruct (less b a).
Qed.

Lemma kcmp_lt (a b : K) : kcmp a b = Lt <-> less a b = true.
Proof. unfold kcmp. destruct (less a b), (less b a); done. Qed.

Lemma chain_kcmp (a b c : K) : chain (kcmp a b) (kcmp b c) (kcmp a c).
Proof.
  split_and!.
  - by intros ->%kcmp_eq.
  - by intros ->%kcmp_eq.
  - intros E. destruct (kcmp a b) eqn:E1; symmetry in E.
    + apply kcmp_eq in E1, E. subst. by apply kcmp_eq.
    + apply kcmp_lt in E1, E. apply kcmp_lt. by eapply less_trans.
    + rewrite kcmp_opp in E1, E. rewrite kcmp_opp.
      destruct (kcmp b a) eqn:H1; try done. destruct (kcmp c b) eqn:H2; try done.
      apply kcmp_lt in H1, H2. assert (kcmp c a = Lt) as -> by (apply kcmp_lt; by eapply less_trans). done.
Qed.
End Keys.

(** ** Doubles *)

Lemma scaled_shift d e k : 0 <= k -> e <= Double.expo d -> scaled d (e - k) = scaled d e * 2 ^ k.
Proof.
  intros Hk He. unfold scaled. rewrite <- Z.mul_assoc, <- Z.pow_add_r by lia. do 2 f_equal. lia.
Qed.

(** Any common power of two will do. *)
Lemma finite_compare_at a b e : e <= Double.expo a -> e <= Double.expo b ->
  finite_compare a b = (scaled a e ?= scaled b e).
Proof.
  intros Ha Hb. unfold finite_compare. set (m := Z.min _ _).
  replace e with (m - (m - e)) by lia. rewrite !scaled_shift by lia.
  apply Zmult_compare_compat_r. apply Z.lt_gt, Z.pow_pos_nonneg; lia.
Qed.

Lemma finite_compare_opp a b : finite_compare b a = CompOpp (finite_compare a b).
Proof. unfold finite_compare. rewrite Z.min_comm. apply Z.compare_antisym. Qed.

Lemma finite_compare_refl a : finite_compare a a = Eq.
Proof. apply Z.compare_refl. Qed.

Lemma chain_finite a b c : chain (finite_compare a b) (finite_compare b c) (finite_compare a c).
Proof.
  set (e := Z.min (Double.expo a) (Z.min (Double.expo b) (Double.expo c))).
  rewrite !(finite_compare_at _ _ e) by lia. apply chain_Z.
Qed.

(** Infinities on either side of the finite doubles. *)
Definition real_class (r : real) : Z := match r with infinite true => 0 | infinite false => 2 | _ => 1 end.

Definition rcmp (a b : real) : comparison :=
  thenc (real_class a ?= real_class b)
    match a, b with finite x, finite y => finite_compare x y | _, _ => Eq end.

Definition number (r : real) : bool := match r with nan => false | _ => true end.

Lemma rcmp_ok a b : number a = true -> number b = true ->
  real_lt a b = bool_decide (rcmp a b = Lt) /\ real_eq a b = bool_decide (rcmp a b = Eq).
Proof.
  destruct a as [x|[]|], b as [y|[]|]; try done. intros _ _. unfold rcmp. cbn. by destruct (finite_compare x y).
Qed.

Lemma rcmp_opp a b : rcmp b a = CompOpp (rcmp a b).
Proof.
  unfold rcmp. rewrite thenc_opp, Z.compare_antisym. f_equal. destruct a, b; try done. apply finite_compare_opp.
Qed.

Lemma rcmp_refl a : rcmp a a = Eq.
Proof. destruct a as [x|[]|]; try done. apply finite_compare_refl. Qed.

Lemma chain_rcmp a b c : number a = true -> number b = true -> number c = true ->
  chain (rcmp a b) (rcmp b c) (rcmp a c).
Proof.
  intros Ha Hb Hc. apply chain_thenc; [apply chain_Z|].
  destruct a as [x|[]|], b as [y|[]|], c as [z|[]|]; try done. intros _ _. apply chain_finite.
Qed.

(** ** Values *)

(** A value without NaN. *)
Fixpoint nan_free (v : Value) : bool :=
  match v with
  | realValue r => number r
  | arrayValue m => forallb (fun kv => nan_free kv.2) m
  | objectValue m => forallb (fun kv => nan_free kv.2) m
  | _ => true
  end.

(** The reference: types in the order of the enumeration, then the payloads, maps by their
    size and then by their entries. *)
Section Entries.
Context {K : Type} `{Key K}.
Variable ord : Value -> Value -> comparison.

Fixpoint entries_ord (m1 m2 : list (K * Value)) : comparison :=
  match m1, m2 with
  | (k1, v1) :: m1', (k2, v2) :: m2' => thenc (thenc (kcmp k1 k2) (ord v1 v2)) (entries_ord m1' m2')
  | [], [] => Eq
  | [], _ => Lt
  | _, [] => Gt
  end.

Definition map_ord (m1 m2 : list (K * Value)) : comparison := thenc (zlen m1 ?= zlen m2) (entries_ord m1 m2).
End Entries.

Fixpoint value_ord (a b : Value) {struct a} : comparison :=
  thenc (rank (type a) ?= rank (type b))
    match a, b with
    | intValue x, intValue y | uintValue x, uintValue y => x ?= y
    | realValue x, realValue y => rcmp x y
    | booleanValue x, booleanValue y => Z.b2z x ?= Z.b2z y
    | stringValue x, stringValue y => kcmp x y
    | arrayValue m1, arrayValue m2 => map_ord value_ord m1 m2
    | objectValue m1, objectValue m2 => map_ord value_ord m1 m2
    | _, _ => Eq
    end.

(** The answers of [<], both ways, and of [==] that belong to a comparison. *)
Definition answers (o : comparison) : bool * bool := (bool_decide (o = Lt), bool_decide (o = Gt)).

Lemma answers_Z a b : (a <? b, b <? a) = answers (a ?= b).
Proof.
  unfold answers. destruct (Z.compare_spec a b) as [->|Hl|Hl]; cbn; f_equal;
    rewrite ?Z.ltb_irrefl; try done; try (by apply Z.ltb_lt); apply Z.ltb_ge; lia.
Qed.

Lemma eqb_Z a b : (a =? b) = bool_decide ((a ?= b) = Eq).
Proof. destruct (Z.compare_spec a b); cbn; [by apply Z.eqb_eq|apply Z.eqb_neq; lia..]. Qed.

Section EntryLemmas.
Context {K : Type} `{Key K}.
Implicit Types m : list (K * Value).

Lemma lex_ord (cmp : Value -> Value -> bool * bool) ord m1 : forall m2,
  Forall (fun kv => forall b, nan_free kv.2 = true -> nan_free b = true -> cmp kv.2 b = answers (ord kv.2 b)) m1 ->
  forallb (fun kv => nan_free kv.2) m1 = true -> forallb (fun kv => nan_free kv.2) m2 = true ->
  lex cmp m1 m2 = answers (entries_ord ord m1 m2).
Proof.
  induction m1 as [|[k1 v1] m1 IH]; intros [|[k2 v2] m2] Hf H1 H2; try done.
  apply Forall_cons in Hf as [Hv Hf]. cbn in H1, H2. apply andb_true_iff in H1 as [H1 H1'], H2 as [H2 H2'].
  cbn [snd] in Hv. cbn [lex entries_ord]. rewrite (Hv v2) by done. rewrite (IH m2) by done. unfold kcmp, answers.
  destruct (less k1 k2) eqn:E1; [rewrite (OMap.less_asym _ _ E1); done|].
  destruct (less k2 k1); cbn; [done|]. cbn [snd]. by destruct (ord v1 v2), (entries_ord ord m1 m2).
Qed.

Lemma map_cmp_ord (cmp : Value -> Value -> bool * bool) ord m1 m2 :
  Forall (fun kv => forall b, nan_free kv.2 = true -> nan_free b = true -> cmp kv.2 b = answers (ord kv.2 b)) m1 ->
  forallb (fun kv => nan_free kv.2) m1 = true -> forallb (fun kv => nan_free kv.2) m2 = true ->
  map_cmp cmp m1 m2 = answers (map_ord ord m1 m2).
Proof.
  intros Hf H1 H2. unfold map_cmp, map_ord. rewrite eqb_Z, answers_Z.
  destruct (zlen m1 ?= zlen m2); cbn; [by apply lex_ord|done|done].
Qed.

Lemma all_eq_ord (eqv : Value -> Value -> bool) ord m1 : forall m2,
  Forall (fun kv => forall b, nan_free kv.2 = true -> nan_free b = true ->
    eqv kv.2 b = bool_decide (ord kv.2 b = Eq)) m1 ->
  forallb (fun kv => nan_free kv.2) m1 = true -> forallb (fun kv => nan_free kv.2) m2 = true ->
  all_eq eqv m1 m2 = bool_decide (entries_ord ord m1 m2 = Eq).
Proof.
  induction m1 as [|[k1 v1] m1 IH]; intros [|[k2 v2] m2] Hf H1 H2; try done.
  apply Forall_cons in Hf as [Hv Hf]. cbn in H1, H2. apply andb_true_iff in H1 as [H1 H1'], H2 as [H2 H2'].
  cbn [snd] in Hv. cbn [all_eq entries_ord]. rewrite (Hv v2) by done. rewrite (IH m2) by done. cbn [snd].
  rewrite (bool_decide_ext (k1 = k2) (kcmp k1 k2 = Eq)) by (symmetry; apply kcmp_eq).
  by destruct (kcmp k1 k2), (ord v1 v2), (entries_ord ord m1 m2).
Qed.

Lemma entries_opp ord m1 : forall m2,
  Forall (fun kv => forall b, ord b kv.2 = CompOpp (ord kv.2 b)) m1 ->
  entries_ord ord m2 m1 = CompOpp (entries_ord ord m1 m2).
Proof.
  induction m1 as [|[k1 v1] m1 IH]; intros [|[k2 v2] m2] Hf; try done.
  apply Forall_cons in Hf as [Hv Hf]. cbn [entries_ord]. rewrite !thenc_opp, <- IH, <- kcmp_opp by done.
  cbn in Hv. by rewrite Hv.
Qed.

Lemma chain_entries ord m1 : forall m2 m3,
  Forall (fun kv => forall b c, nan_free kv.2 = true -> nan_free b = true -> nan_free c = true ->
    chain (ord kv.2 b) (ord b c) (ord kv.2 c)) m1 ->
  forallb (fun kv => nan_free kv.2) m1 = true -> forallb (fun kv => nan_free kv.2) m2 = true ->
  forallb (fun kv => nan_free kv.2) m3 = true ->
  length m1 = length m2 -> length m2 = length m3 ->
  chain (entries_ord ord m1 m2) (entries_ord ord m2 m3) (entries_ord ord m1 m3).
Proof.
  induction m1 as [|[k1 v1] m1 IH]; intros [|[k2 v2] m2] [|[k3 v3] m3] Hf H1 H2 H3 L1 L2; try done.
  apply Forall_cons in Hf as [Hv Hf]. cbn in H1, H2, H3, L1, L2.
  apply andb_true_iff in H1 as [H1 H1'], H2 as [H2 H2'], H3 as [H3 H3'].
  cbn [entries_ord]. apply chain_thenc; [|intros _ _; apply IH; (done || lia)].
  apply chain_thenc; [apply chain_kcmp|]. intros _ _. by apply Hv.
Qed.

Lemma chain_map ord m1 m2 m3 :
  Forall (fun kv => forall b c, nan_free kv.2 = true -> nan_free b = true -> nan_free c = true ->
    chain (ord kv.2 b) (ord b c) (ord kv.2 c)) m1 ->
  forallb (fun kv => nan_free kv.2) m1 = true -> forallb (fun kv => nan_free kv.2) m2 = true ->
  forallb (fun kv => nan_free kv.2) m3 = true ->
  chain (map_ord ord m1 m2) (map_ord ord m2 m3) (map_ord ord m1 m3).
Proof.
  intros Hf H1 H2 H3. unfold map_ord. apply chain_thenc; [apply chain_Z|].
  intros E1%Z.compare_eq E2%Z.compare_eq. unfold zlen in *. apply chain_entries; (done || lia).
Qed.
End EntryLemmas.

(** The two definitions agree with the reference. *)
Lemma rank_inj t1 t2 : rank t1 = rank t2 -> t1 = t2.
Proof. by destruct t1, t2. Qed.

Lemma value_cmp_ord a : forall b, nan_free a = true -> nan_free b = true ->
  value_cmp a b = answers (value_ord a b).
Proof.
  induction a as [|n|n|r|s|x|m IH|m IH] using Value_nested_ind; intros b Ha Hb; destruct b; try done;
    cbn [value_cmp value_ord type rank negb thenc Z.sub Z.add Z.eqb Z.compare Pos.compare Pos.compare_cont].
  - apply answers_Z.
  - apply answers_Z.
  - destruct (rcmp_ok r real_ Ha Hb) as [E1 _], (rcmp_ok real_ r Hb Ha) as [E2 _].
    cbn. rewrite E1, E2, (rcmp_opp r real_). unfold answers. by destruct (rcmp r real_).
  - change ((less s string_, less string_ s) = answers (kcmp s string_)).
    unfold kcmp, answers. destruct (less s string_) eqn:E1; [by rewrite (OMap.less_asym _ _ E1)|].
    by destruct (less string_ s).
  - by destruct x, bool_.
  - by apply map_cmp_ord.
  - by apply map_cmp_ord.
Qed.

Lemma operator_eq_ord a : forall b, nan_free a = true -> nan_free b = true ->
  operator_eq a b = bool_decide (value_ord a b = Eq).
Proof.
  induction a as [|n|n|r|s|x|m IH|m IH] using Value_nested_ind; intros b Ha Hb; destruct b; try done.
  - cbn. by rewrite eqb_Z.
  - cbn. by rewrite eqb_Z.
  - cbn. by destruct (rcmp_ok r real_ Ha Hb) as [_ ->].
  - cbn. apply bool_decide_ext. symmetry. apply kcmp_eq.
  - by destruct x, bool_.
  - cbn. unfold map_ord. rewrite eqb_Z. destruct (zlen m ?= zlen map_); cbn; [by apply all_eq_ord|done|done].
  - cbn. unfold map_ord. rewrite eqb_Z. destruct (zlen m ?= zlen map_); cbn; [by apply all_eq_ord|done|done].
Qed.

Lemma value_ord_opp a : forall b, value_ord b a = CompOpp (value_ord a b).
Proof.
  induction a as [|n|n|r|s|x|m IH|m IH] using Value_nested_ind; intros b; destruct b; try done; cbn.
  - apply Z.compare_antisym.
  - apply Z.compare_antisym.
  - apply rcmp_opp.
  - apply kcmp_opp.
  - apply Z.compare_antisym.
  - unfold map_ord. rewrite thenc_opp, Z.compare_antisym. f_equal. by apply entries_opp.
  - unfold map_ord. rewrite thenc_opp, Z.compare_antisym. f_equal. by apply entries_opp.
Qed.

(** The comparison of two payloads of the same type. *)
Definition payload_ord (a b : Value) : comparison :=
  match a, b with
  | intValue x, intValue y | uintValue x, uintValue y => x ?= y
  | realValue x, realValue y => rcmp x y
  | booleanValue x, booleanValue y => Z.b2z x ?= Z.b2z y
  | stringValue x, stringValue y => kcmp x y
  | arrayValue m1, arrayValue m2 => map_ord value_ord m1 m2
  | objectValue m1, objectValue m2 => map_ord value_ord m1 m2
  | _, _ => Eq
  end.

Lemma value_ord_eq a b : value_ord a b = thenc (rank (type a) ?= rank (type b)) (payload_ord a b).
Proof. by destruct a. Qed.

Lemma chain_value a : forall b c, nan_free a = true -> nan_free b = true -> nan_free c = true ->
  chain (value_ord a b) (value_ord b c) (value_ord a c).
Proof.
  induction a as [|n|n|r|s|x|m IH|m IH] using Value_nested_ind; intros b c Ha Hb Hc; rewrite !value_ord_eq;
    (apply chain_thenc; [apply chain_Z|]; intros E1%Z.compare_eq%rank_inj E2%Z.compare_eq%rank_inj);
    destruct b; try done; destruct c; try done; cbn [payload_ord].
  - apply chain_Z.
  - apply chain_Z.
  - by apply chain_rcmp.
  - apply chain_kcmp.
  - apply chain_Z.
  - by apply chain_map.
  - by apply chain_map.
Qed.

Lemma compare_ord a b : nan_free a = true -> nan_free b = true ->
  compare a b = match value_ord a b with Lt => -1 | Eq => 0 | Gt => 1 end.
Proof.
  intros Ha Hb. unfold compare, operator_gt, operator_lt. rewrite !value_cmp_ord by done.
  rewrite (value_ord_opp a b). by destruct (value_ord a b).
Qed.

Lemma value_ord_refl a : value_ord a a = Eq.
Proof. pose proof (value_ord_opp a a) as E. by destruct (value_ord a a). Qed.

(** ** [operator<] as the code has it *)

Definition flip (p : bool * bool) : bool * bool := (p.2, p.1).

Lemma lex_flip {K} `{Key K} cmp (m1 : list (K * Value)) : forall m2,
  Forall (fun kv => forall b, cmp b kv.2 = flip (cmp kv.2 b)) m1 -> lex cmp m2 m1 = flip (lex cmp m1 m2).
Proof.
  induction m1 as [|[k1 v1] m1 IH]; intros [|[k2 v2] m2] Hf; try done.
  apply Forall_cons in Hf as [Hv Hf]. cbn [snd] in Hv. cbn [lex]. rewrite Hv, IH by done.
  by destruct (cmp v1 v2), (lex cmp m1 m2).
Qed.

Lemma map_cmp_flip {K} `{Key K} cmp (m1 m2 : list (K * Value)) :
  Forall (fun kv => forall b, cmp b kv.2 = flip (cmp kv.2 b)) m1 -> map_cmp cmp m2 m1 = flip (map_cmp cmp m1 m2).
Proof.
  intros Hf. unfold map_cmp. rewrite (Z.eqb_sym (zlen m2)). case_match; [done|by apply lex_flip].
Qed.

Lemma value_cmp_flip a : forall b, value_cmp b a = flip (value_cmp a b).
Proof.
  induction a as [|n|n|r|s|x|m IH|m IH] using Value_nested_ind; intros b; destruct b; try done.
  - by apply map_cmp_flip.
  - by apply map_cmp_flip.
Qed.

Lemma both_ways x y : value_cmp x y = (operator_lt x y, operator_lt y x).
Proof. unfold operator_lt. rewrite (value_cmp_flip x y). by destruct (value_cmp x y). Qed.

Lemma lex_ext {K} `{Key K} f g (m1 m2 : list (K * Value)) : (forall x y, f x y = g x y) -> lex f m1 m2 = lex g m1 m2.
Proof.
  intros E. revert m2. induction m1 as [|[k1 v1] m1 IH]; intros [|[k2 v2] m2]; try done. cbn. by rewrite E, IH.
Qed.

(** [operator<] is the recursive function of the code: the types first, then the payloads,
    maps by size and then entry by entry, where an entry is compared by its key and then by
    [operator<] on the values in either order. *)
Lemma operator_lt_unfolds a b :
  operator_lt a b
  = if negb (rank (type a) - rank (type b) =? 0) then rank (type a) - rank (type b) <? 0
    else match a, b with
         | intValue x, intValue y | uintValue x, uintValue y => x <? y
         | realValue x, realValue y => real_lt x y
         | booleanValue x, booleanValue y => negb x && y
         | stringValue x, stringValue y => less x y
         | arrayValue m1, arrayValue m2 =>
             if negb (zlen m1 =? zlen m2) then zlen m1 <? zlen m2
             else (lex (fun x y => (operator_lt x y, operator_lt y x)) m1 m2).1
         | objectValue m1, objectValue m2 =>
             if negb (zlen m1 =? zlen m2) then zlen m1 <? zlen m2
             else (lex (fun x y => (operator_lt x y, operator_lt y x)) m1 m2).1
         | _, _ => false
         end.
Proof.
  assert (forall K (k : EqDecision K) (H : Key K) (m1 m2 : list (K * Value)),
    (map_cmp value_cmp m1 m2).1
    = if negb (zlen m1 =? zlen m2) then zlen m1 <? zlen m2
      else (lex (fun x y => (operator_lt x y, operator_lt y x)) m1 m2).1) as Hm.
  { intros K k H m1 m2. unfold map_cmp. case_match; [done|]. f_equal. apply lex_ext. apply both_ways. }
  unfold operator_lt at 1. destruct a, b; try done; cbn [value_cmp type rank negb Z.sub Z.add Z.eqb]; apply Hm.
Qed.

(** ** The properties *)

(** [compare] is a total order whose zero is [==].  On values without NaN it is
    antisymmetric and transitive, it is zero exactly on values that [==] identifies, and all
    the comparison operators agree with it. *)
Theorem compare_total_order a b c :
  nan_free a = true -> nan_free b = true -> nan_free c = true ->
  compare b a = - compare a b
  /\ (compare a b <= 0 -> compare b c <= 0 -> compare a c <= 0)
  /\ (compare a b = 0 <-> operator_eq a b = true)
  /\ operator_eq a a = true
  /\ operator_lt a b = (compare a b <? 0) /\ operator_le a b = (compare a b <=? 0)
  /\ operator_gt a b = (0 <? compare a b) /\ operator_ge a b = (0 <=? compare a b).
Proof.
  intros Ha Hb Hc. unfold operator_le, operator_ge, operator_gt, operator_lt.
  rewrite !compare_ord, !operator_eq_ord, !value_cmp_ord by done.
  rewrite (value_ord_opp a b), value_ord_refl.
  destruct (chain_value a b c Ha Hb Hc) as (H1 & H2 & H3).
  split_and!; try (by destruct (value_ord a b)).
  intros L1 L2. destruct (value_ord a b), (value_ord b c); try lia;
    first [rewrite (H1 eq_refl)|rewrite (H2 eq_refl)|rewrite (H3 eq_refl)]; lia.
Qed.

(** The order needs the absence of NaN: [compare] says 0 for it and any other double. *)
Example nan_unordered :
  (compare (realValue nan) (realValue (real_of_Z 1)), operator_eq (realValue nan) (realValue (real_of_Z 1)))
  = (0, false).
Proof. vm_compute. reflexivity. Qed.

(** ** Witnesses *)

Lemma compare_total_order_witness :
  let a := arrayValue [(0, intValue 1)] in
  let b := arrayValue [(0, realValue (real_of_Z 1))] in
  let c := objectValue [] in
  compare b a = - compare a b
  /\ (compare a b <= 0 -> compare b c <= 0 -> compare a c <= 0)
  /\ (compare a b = 0 <-> operator_eq a b = true)
  /\ operator_eq a a = true
  /\ operator_lt a b = (compare a b <? 0) /\ operator_le a b = (compare a b <=? 0)
  /\ operator_gt a b = (0 <? compare a b) /\ operator_ge a b = (0 <=? compare a b).
Proof.
  apply (compare_total_order (arrayValue [(0, intValue 1)]) (arrayValue [(0, realValue (real_of_Z 1))]) (objectValue []));
    reflexivity.
Defined.

End Ordering.
