(* ===== verification/Conversions.v ===== *)
(** * Conversions of JSON values to numbers

    The checks before a cast compare doubles.  The file shows when they are enough: the cast
    is then defined and gives the number truncated towards zero. *)
From Stdlib Require Import ZArith Lia.
From S2P Require Import Prelude OrderedMap Json Double JsonWriter Values Ordering.

Module Conversions.
Import Values Ordering.

(** Integers at their width and magnitudes that are not negative. *)
Definition well_typed (v : Value) : Prop :=
  match v with
  | intValue n => in_i64 n
  | uintValue n => in_u64 n
  | realValue (finite d) => 0 <= Double.mant d
  | _ => True
  end.

(** The integer a value stands for, towards zero. *)
Definition denoted (v : Value) : option Z :=
  match v with
  | intValue n | uintValue n => Some n
  | realValue (finite d) => Some (integer_part d)
  | nullValue => Some 0
  | booleanValue b => Some (if b then 1 else 0)
  | _ => None
  end.

(** ** Doubles and integers *)

(** The double [c] is the integer [z]. *)
Definition exact (c : Double.double) (z : Z) : Prop :=
  exists e, e <= Double.expo c /\ e <= 0 /\ scaled c e = z * 2 ^ (- e).

Lemma exact_at c z e : exact c z -> e <= Double.expo c -> e <= 0 -> scaled c e = z * 2 ^ (- e).
Proof.
  intros (e0 & H1 & H2 & E) He He0. destruct (Z.le_gt_cases e e0) as [Hle|Hgt].
  - replace e with (e0 - (e0 - e)) at 1 by lia. rewrite scaled_shift, E by lia.
    rewrite <- Z.mul_assoc, <- Z.pow_add_r by lia. do 2 f_equal. lia.
  - replace e0 with (e - (e - e0)) in E at 1 by lia. rewrite scaled_shift in E by lia.
    replace (- e0) with (- e + (e - e0)) in E by lia. rewrite Z.pow_add_r, Z.mul_assoc in E by lia.
    apply Z.mul_reg_r in E; [done|]. apply Z.pow_nonzero; lia.
Qed.

(** Comparing with an integer is comparing numerators. *)
Lemma exact_compare c z d : exact c z ->
  finite_compare c d = (z * 2 ^ Z.max 0 (- Double.expo d) ?= signed d * 2 ^ Z.max 0 (Double.expo d)).
Proof.
  intros Hc. set (e := Z.min (Double.expo c) (Z.min (Double.expo d) 0)).
  rewrite (finite_compare_at c d e) by lia. rewrite (exact_at c z e) by (done || lia). unfold scaled.
  set (k := Z.min (Double.expo d) 0 - e).
  replace (- e) with (Z.max 0 (- Double.expo d) + k) by lia.
  replace (Double.expo d - e) with (Z.max 0 (Double.expo d) + k) by lia.
  rewrite !Z.pow_add_r, !Z.mul_assoc by lia. symmetry. apply Zmult_compare_compat_r.
  apply Z.lt_gt, Z.pow_pos_nonneg; lia.
Qed.

Lemma integer_part_le z d : 0 <= Double.mant d ->
  z * 2 ^ Z.max 0 (- Double.expo d) <= signed d * 2 ^ Z.max 0 (Double.expo d) -> z <= integer_part d.
Proof.
  intros Hm. unfold integer_part, signed. destruct (Z.leb_spec 0 (Double.expo d)) as [He|He].
  - rewrite (Z.max_l 0 (- _)), (Z.max_r 0 (Double.expo d)) by lia. rewrite Z.mul_1_r. destruct (Double.sign d); lia.
  - rewrite (Z.max_r 0 (- _)), (Z.max_l 0 (Double.expo d)) by lia. rewrite Z.mul_1_r.
    assert (0 < 2 ^ (- Double.expo d)) as Hp by (apply Z.pow_pos_nonneg; lia). destruct (Double.sign d); intros H.
    + apply Z.opp_le_mono. rewrite Z.opp_involutive. apply Z.div_le_upper_bound; lia.
    + apply Z.div_le_lower_bound; lia.
Qed.

Lemma integer_part_ge z d : 0 <= Double.mant d ->
  signed d * 2 ^ Z.max 0 (Double.expo d) <= z * 2 ^ Z.max 0 (- Double.expo d) -> integer_part d <= z.
Proof.
  intros Hm. unfold integer_part, signed. destruct (Z.leb_spec 0 (Double.expo d)) as [He|He].
  - rewrite (Z.max_l 0 (- _)), (Z.max_r 0 (Double.expo d)) by lia. rewrite Z.mul_1_r. destruct (Double.sign d); lia.
  - rewrite (Z.max_r 0 (- _)), (Z.max_l 0 (Double.expo d)) by lia. rewrite Z.mul_1_r.
    assert (0 < 2 ^ (- Double.expo d)) as Hp by (apply Z.pow_pos_nonneg; lia). destruct (Double.sign d); intros H.
    + apply Z.opp_le_mono. rewrite Z.opp_involutive. apply Z.div_le_lower_bound; lia.
    + apply Z.div_le_upper_bound; lia.
Qed.

Lemma integer_part_lt z d : 0 <= Double.mant d -> 0 < z ->
  signed d * 2 ^ Z.max 0 (Double.expo d) < z * 2 ^ Z.max 0 (- Double.expo d) -> integer_part d < z.
Proof.
  intros Hm Hz. unfold integer_part, signed. destruct (Z.leb_spec 0 (Double.expo d)) as [He|He].
  - rewrite (Z.max_l 0 (- _)), (Z.max_r 0 (Double.expo d)) by lia. rewrite Z.mul_1_r. destruct (Double.sign d); lia.
  - rewrite (Z.max_r 0 (- _)), (Z.max_l 0 (Double.expo d)) by lia. rewrite Z.mul_1_r.
    assert (0 < 2 ^ (- Double.expo d)) as Hp by (apply Z.pow_pos_nonneg; lia). destruct (Double.sign d); intros H.
    + assert (0 <= Double.mant d / 2 ^ (- Double.expo d)) by (apply Z.div_pos; lia). lia.
    + apply Z.div_lt_upper_bound; lia.
Qed.

(** The bounds the code compares with; those of 64 bits are rounded up. *)
Definition is_integer (r : real) (z : Z) : Prop := exists c, r = finite c /\ exact c z.

Ltac bound e := eexists; split; [vm_compute; reflexivity|]; exists e; by vm_compute.

Lemma bound_minInt : is_integer (real_of_Z minInt) (- 2 ^ 31).
Proof. bound (-21). Qed.
Lemma bound_maxInt : is_integer (real_of_Z maxInt) (2 ^ 31 - 1).
Proof. bound (-22). Qed.
Lemma bound_zero : is_integer (real_of_Z 0) 0.
Proof. bound (-53). Qed.
Lemma bound_maxUInt : is_integer (real_of_Z maxUInt) (2 ^ 32 - 1).
Proof. bound (-21). Qed.
Lemma bound_minInt64 : is_integer (real_of_Z minInt64) (- 2 ^ 63).
Proof. bound 0. Qed.
Lemma bound_maxInt64 : is_integer (real_of_Z maxInt64) (2 ^ 63).
Proof. bound 0. Qed.
Lemma bound_maxUInt64 : is_integer (real_of_Z maxUInt64) (2 ^ 64).
Proof. bound 0. Qed.

(** The double 2^63 passes the check of [asInt64], 2^64 that of [asUInt64]. *)
Lemma unguarded_casts : asInt64 (realValue (real_of_Z (2 ^ 63))) = UB /\ asUInt64 (realValue (real_of_Z (2 ^ 64))) = UB.
Proof. split; vm_compute; reflexivity. Qed.

#[local] Opaque Double.nearest.

Create HintDb bounds discriminated.
#[export] Hint Resolve bound_minInt bound_maxInt bound_zero bound_maxUInt bound_minInt64 bound_maxInt64
  bound_maxUInt64 : bounds.

Lemma above_bound b z d : is_integer b z -> 0 <= Double.mant d ->
  real_le b (finite d) = true -> z <= integer_part d.
Proof.
  intros (c & -> & Hc) Hm H. apply integer_part_le; [done|]. unfold real_le in H. cbn in H.
  rewrite (exact_compare c z d Hc) in H.
  destruct (Z.compare_spec (z * 2 ^ Z.max 0 (- Double.expo d)) (signed d * 2 ^ Z.max 0 (Double.expo d))); (done || lia).
Qed.

Lemma below_bound b z d : is_integer b z -> 0 <= Double.mant d ->
  real_le (finite d) b = true -> integer_part d <= z.
Proof.
  intros (c & -> & Hc) Hm H. apply integer_part_ge; [done|]. unfold real_le in H. cbn in H.
  rewrite (finite_compare_opp c d), (exact_compare c z d Hc) in H.
  destruct (Z.compare_spec (z * 2 ^ Z.max 0 (- Double.expo d)) (signed d * 2 ^ Z.max 0 (Double.expo d))); (done || lia).
Qed.

Lemma strictly_below_bound b z d : is_integer b z -> 0 < z -> 0 <= Double.mant d ->
  real_lt (finite d) b = true -> integer_part d < z.
Proof.
  intros (c & -> & Hc) Hz Hm H. apply integer_part_lt; [done..|]. cbn in H.
  rewrite (finite_compare_opp c d), (exact_compare c z d Hc) in H.
  destruct (Z.compare_spec (z * 2 ^ Z.max 0 (- Double.expo d)) (signed d * 2 ^ Z.max 0 (Double.expo d))); (done || lia).
Qed.

(** Only finite doubles are in a range. *)
Lemma in_range_finite r b1 b2 z1 z2 : is_integer b1 z1 -> is_integer b2 z2 ->
  real_le b1 r = true -> real_le r b2 = true \/ real_lt r b2 = true -> exists d, r = finite d.
Proof.
  intros (c1 & -> & _) (c2 & -> & _). destruct r as [d|[]|]; [by exists d|done| |done]. by intros _ [|].
Qed.

Lemma cast_in_range r min max lo hi :
  is_integer (real_of_Z min) lo -> is_integer (real_of_Z max) hi -> well_typed (realValue r) ->
  InRange r min max = true -> exists d, r = finite d /\ lo <= integer_part d <= hi.
Proof.
  intros Hl Hh Hw H. unfold InRange in H. apply andb_true_iff in H as [H1 H2].
  destruct (in_range_finite r _ _ _ _ Hl Hh H1 (or_introl H2)) as [d ->]. exists d. split; [done|].
  split; [by eapply above_bound|by eapply below_bound].
Qed.

Lemma cast_ok d lo hi : lo <= integer_part d <= hi -> cast (finite d) lo hi = Ok (integer_part d).
Proof. intros H. unfold cast. by rewrite !(proj2 (Z.leb_le _ _)) by lia. Qed.

(** The checks of [isInt] and the like on doubles imply those of the casts. *)
Lemma integral_in_range r min max : real_le (real_of_Z min) r && real_le r (real_of_Z max) && IsIntegral r = true ->
  InRange r min max = true.
Proof. unfold InRange. intros H. by apply andb_true_iff in H as [H _]. Qed.

Lemma assert_true b {A} (m : outcome A) : b = true -> (_ ← json_assert b; m) = m.
Proof. by intros ->. Qed.

Lemma assert_false b {A} (m : outcome A) : b = false -> (_ ← json_assert b; m) = Throw json_logic_error.
Proof. by intros ->. Qed.

(** ** The properties *)

(** What a conversion to an integer type with the range [P] should do. *)
Definition converts (f : Value -> outcome Z) (P : Z -> Prop) (v : Value) : Prop :=
  exists n, f v = Ok n /\ P n /\ denoted v = Some n.

(** One conversion, by the kind of number; [check] is the test on integers. *)
Lemma convert_int_ok v n n' (check : bool) (P : Z -> Prop) f : f v = (_ ← json_assert check; mret n') ->
  denoted v = Some n -> (check = true -> n' = n /\ P n) ->
  if check then converts f P v else f v = Throw json_logic_error.
Proof.
  intros E Hd HP. destruct check; [|by rewrite E]. destruct (HP eq_refl) as [-> Hn]. exists n. by rewrite E.
Qed.

Lemma convert_real_ok r min max lo hi (P : Z -> Prop) f :
  f (realValue r) = (_ ← json_assert (InRange r min max); cast r lo hi) ->
  is_integer (real_of_Z min) lo -> is_integer (real_of_Z max) hi -> well_typed (realValue r) ->
  (forall z, lo <= z <= hi -> P z) ->
  if InRange r min max then converts f P (realValue r) else f (realValue r) = Throw json_logic_error.
Proof.
  intros E Hl Hh Hw HP. destruct (InRange r min max) eqn:Hr; [|by rewrite E].
  destruct (cast_in_range r min max lo hi Hl Hh Hw Hr) as (d & -> & Hd).
  exists (integer_part d). split_and!; [|by apply HP|done]. rewrite E. by apply cast_ok.
Qed.

Lemma convertible_int n : isConvertibleTo (intValue n) int_t = isInt (intValue n)
  /\ isConvertibleTo (intValue n) uint_t = isUInt (intValue n).
Proof. unfold isConvertibleTo. cbn. by rewrite !orb_false_r. Qed.

Lemma convertible_uint n : isConvertibleTo (uintValue n) int_t = isInt (uintValue n)
  /\ isConvertibleTo (uintValue n) uint_t = isUInt (uintValue n).
Proof. unfold isConvertibleTo. cbn. by rewrite !orb_false_r. Qed.

Lemma convertible_real r : isConvertibleTo (realValue r) int_t = InRange r minInt maxInt
  /\ isConvertibleTo (realValue r) uint_t = InRange r 0 maxUInt.
Proof.
  unfold isConvertibleTo. change (isBool (realValue r)) with false. change (isNull (realValue r)) with false.
  cbn [isInt isUInt]. rewrite !orb_false_r. split.
  - destruct (InRange r minInt maxInt) eqn:E; [apply orb_true_r|]. rewrite orb_false_r.
    apply not_true_is_false. intros H%integral_in_range. congruence.
  - destruct (InRange r 0 maxUInt) eqn:E; [apply orb_true_r|]. rewrite orb_false_r.
    apply not_true_is_false. intros H%integral_in_range. congruence.
Qed.

(** The conversions to [Int] and [UInt] are exact.  They succeed exactly where
    [isConvertibleTo] says so, with the number truncated towards zero and within the type, and
    throw [LogicError] otherwise; no cast is undefined. *)
Theorem int_conversions_exact v : well_typed v ->
  (if isConvertibleTo v int_t then converts asInt in_i32 v else asInt v = Throw json_logic_error)
  /\ (if isConvertibleTo v uint_t then converts asUInt in_u32 v else asUInt v = Throw json_logic_error).
Proof.
  intros Hw. destruct v as [|n|n|r|s|b|m|m]; try done.
  - by split; exists 0.
  - destruct (convertible_int n) as [-> ->]. cbn in Hw. unfold in_i64 in Hw. split.
    + eapply convert_int_ok; [done|done|]. cbn. unfold minInt, maxInt. intros H%andb_true_iff. zbool. rewrite i32_small by word. word.
    + eapply convert_int_ok; [done|done|]. cbn. unfold maxUInt. intros H%andb_true_iff. zbool.
      rewrite u64_small in * by word. rewrite u32_small by word. word.
  - destruct (convertible_uint n) as [-> ->]. cbn in Hw. unfold in_u64 in Hw. split.
    + eapply convert_int_ok; [done|done|]. cbn. unfold maxInt. intros H. zbool. rewrite i32_small by word. word.
    + eapply convert_int_ok; [done|done|]. cbn. unfold maxUInt. intros H. zbool. rewrite u32_small by word. word.
  - destruct (convertible_real r) as [-> ->]. split.
    + eapply convert_real_ok; [done|auto with bounds..|done|]. intros z. unfold minInt, maxInt, maxUInt. word.
    + eapply convert_real_ok; [done|auto with bounds..|done|]. intros z. unfold minInt, maxInt, maxUInt. word.
  - by split; exists (if b then 1 else 0); destruct b.
Qed.

(** What is known of a conversion to 64 bits whose range ends below [top]. *)
Definition wide_outcome (o : outcome Z) (P : Z -> Prop) (top : Z) (v : Value) : Prop :=
  match o with
  | Ok n => P n /\ denoted v = Some n
  | Throw e => e = json_logic_error
  | UB => denoted v = Some top
  | OutOfFuel => False
  end.

Lemma wide_real r min max lo top (P : Z -> Prop) :
  is_integer (real_of_Z min) lo -> is_integer (real_of_Z max) top -> well_typed (realValue r) ->
  (forall z, lo <= z <= top - 1 -> P z) ->
  wide_outcome (_ ← json_assert (InRange r min max); cast r lo (top - 1)) P top (realValue r).
Proof.
  intros Hl Hh Hw HP. destruct (InRange r min max) eqn:Hr; [|done].
  destruct (cast_in_range r min max lo top Hl Hh Hw Hr) as (d & -> & Hd). cbn.
  destruct (Z.leb_spec lo (integer_part d)); [|lia]. destruct (Z.leb_spec (integer_part d) (top - 1)); cbn.
  - split; [apply HP; lia|done].
  - f_equal. lia.
Qed.

Lemma guarded_real r min hi lo top b (P : Z -> Prop) f :
  f (realValue r) = (_ ← json_assert (InRange r min hi); cast r lo (top - 1)) ->
  is_integer (real_of_Z min) lo -> is_integer (real_of_Z hi) top -> is_integer b top -> 0 < top ->
  well_typed (realValue r) -> (forall z, lo <= z <= top - 1 -> P z) ->
  real_le (real_of_Z min) r && real_lt r b && IsIntegral r = true -> converts f P (realValue r).
Proof.
  intros E Hl Hh Hb Ht Hw HP H. apply andb_true_iff in H as [H _]. apply andb_true_iff in H as [H1 H2].
  destruct (in_range_finite r _ _ _ _ Hl Hb H1 (or_intror H2)) as [d ->].
  pose proof (above_bound _ _ _ Hl Hw H1) as B1. pose proof (strictly_below_bound _ _ _ Hb Ht Hw H2) as B2.
  exists (integer_part d). split_and!; [|apply HP; lia|done]. rewrite E, assert_true; [apply cast_ok; lia|].
  unfold InRange. rewrite H1, andb_true_l. destruct Hh as (c & -> & Hc), Hb as (c' & -> & Hc').
  unfold real_le. cbn in H2 |- *. rewrite (finite_compare_opp c' d), (exact_compare c' top d Hc') in H2.
  rewrite (finite_compare_opp c d), (exact_compare c top d Hc). by destruct (_ ?= _).
Qed.

(** the conversions to 64 bits.  Behind their tests [isInt64] and [isUInt64] they are
    exact; without them they give the truncated number, throw [LogicError] or, for a
    double that is 2^63 (2^64) exactly, cast out of range: the bound they check is rounded up. *)
Theorem int64_conversions v : well_typed v ->
  (isInt64 v = true -> converts asInt64 in_i64 v) /\ (isUInt64 v = true -> converts asUInt64 in_u64 v)
  /\ wide_outcome (asInt64 v) in_i64 (2 ^ 63) v /\ wide_outcome (asUInt64 v) in_u64 (2 ^ 64) v
  /\ asInt64 (realValue (real_of_Z (2 ^ 63))) = UB /\ asUInt64 (realValue (real_of_Z (2 ^ 64))) = UB.
Proof.
  intros Hw. split_and!; [..|apply unguarded_casts|apply unguarded_casts];
    destruct v as [|n|n|r|s|b|m|m]; try done; cbn in Hw.
  - intros _. by exists n.
  - cbn. unfold maxInt64. intros H. zbool. exists n. cbn. unfold maxInt64.
    rewrite (proj2 (Z.leb_le n _)) by lia. cbn. rewrite i64_small by word. split_and!; [done|word|done].
  - apply (guarded_real r minInt64 maxInt64 (- 2 ^ 63) (2 ^ 63) (real_of_Z maxInt64)); auto with bounds; [done|].
    intros z. word.
  - cbn. intros H. zbool. exists n. cbn. rewrite (proj2 (Z.leb_le 0 n)) by lia. cbn.
    rewrite u64_small by word. split_and!; [done|word|done].
  - intros _. by exists n.
  - apply (guarded_real r 0 maxUInt64 0 (2 ^ 64) maxUInt64AsDouble); auto with bounds; [done|]. intros z. word.
  - cbn. destruct (Z.leb_spec n maxInt64) as [H|H]; [|done]. cbn. unfold maxInt64 in H.
    rewrite i64_small by word. split; [word|done].
  - apply (wide_real r minInt64 maxInt64 (- 2 ^ 63) (2 ^ 63)); auto with bounds. intros z. word.
  - by destruct b.
  - cbn. destruct (Z.leb_spec 0 n) as [H|H]; [|done]. cbn. rewrite u64_small by word. split; [word|done].
  - apply (wide_real r 0 maxUInt64 0 (2 ^ 64)); auto with bounds. intros z. word.
  - by destruct b.
Qed.

#[local] Transparent Double.nearest.

(** ** Witnesses *)

Definition sample : Value := realValue (finite (Double.mkDouble true 5 (-1))).

Lemma int_conversions_exact_witness :
  (if isConvertibleTo sample int_t then converts asInt in_i32 sample else asInt sample = Throw json_logic_error)
  /\ (if isConvertibleTo sample uint_t then converts asUInt in_u32 sample else asUInt sample = Throw json_logic_error).
Proof. apply (int_conversions_exact sample). vm_compute. discriminate. Defined.

(** -2.5 becomes -2. *)
Example sample_int : asInt sample = Ok (-2) /\ asUInt sample = Throw json_logic_error.
Proof. split; vm_compute; reflexivity. Qed.

Lemma int64_conversions_witness :
  (isInt64 sample = true -> converts asInt64 in_i64 sample) /\ (isUInt64 sample = true -> converts asUInt64 in_u64 sample)
  /\ wide_outcome (asInt64 sample) in_i64 (2 ^ 63) sample /\ wide_outcome (asUInt64 sample) in_u64 (2 ^ 64) sample
  /\ asInt64 (realValue (real_of_Z (2 ^ 63))) = UB /\ asUInt64 (realValue (real_of_Z (2 ^ 64))) = UB.
Proof. apply (int64_conversions sample). vm_compute. discriminate. Defined.

End Conversions.
