(* ===== verification/Floats.v ===== *)
(** * Conversions to floating point

    [asDouble] and [asFloat] (json_value.cpp) round to the nearest double or float: the result
    is within half a unit of its last place, and a number the format has is kept. *)
From Stdlib Require Import ZArith Lia QArith Qpower Lqa.
From S2P Require Import Prelude OrderedMap Json Double DoubleRound Values.

Module Floats.
Import Double DoubleRound Values.
Open Scope Z_scope.

(** The mantissas and exponents of the positive floats. *)
Definition float_format (m e : Z) : Prop := 0 < m < 2 ^ 24 /\ -149 <= e <= 104 /\ (e = -149 \/ 2 ^ 23 <= m).

(** ** Rounding *)

Definition float_exponent (n d : Z) : Z := Z.max (leading_bit n d - 23) (-149).

Lemma float_of_ratio_eq neg n d : 0 < n -> float_of_ratio neg n d =
  let q := at_exponent n d (float_exponent n d) in
  let '(q, e) := if q =? 2 ^ 24 then (2 ^ 23, float_exponent n d + 1) else (q, float_exponent n d) in
  if 104 <? e then infinite neg else finite (mkDouble neg q e).
Proof. intros Hn. unfold float_of_ratio. by rewrite (proj2 (Z.eqb_neq n 0)) by lia. Qed.

(** The size of the rounded mantissa. *)
Lemma float_mantissa n d : 0 < n -> 0 < d -> let e := float_exponent n d in let q := at_exponent n d e in
  0 <= q <= 2 ^ 24 /\ (e = -149 \/ 2 ^ 23 <= q).
Proof.
  intros Hn Hd e q. pose proof (leading_bit_spec n d Hn Hd) as [K1 K2]. set (k := leading_bit n d) in *.
  assert (e = Z.max (k - 23) (-149)) as Ee by done. clearbody e.
  pose proof (at_exponent_spec n d e Hd) as [A1 A2]. fold q in A1, A2. pose proof (pow_pos 2 e ltac:(lia)) as Pe.
  pose proof (frac_pos n d Hn Hd) as Pf.
  assert (frac n d < inject_Z (2 ^ 24) * pow 2 e)%Q as U.
  { rewrite <- pow_shift by lia. eapply Qlt_le_trans; [exact K2|]. apply pow_le; lia. }
  assert (inject_Z (-1) * pow 2 e < inject_Z q * pow 2 e)%Q as L1 by (change (inject_Z (-1)) with (-1)%Q; lra).
  assert (inject_Z (q - 2 ^ 24) * pow 2 e < 1 * pow 2 e)%Q as L2 by (rewrite inject_sub; lra).
  apply (proj1 (Qmult_lt_r _ _ _ Pe)) in L1, L2. apply (inject_lt _ _) in L1. apply (inject_lt _ 1) in L2. split; [lia|].
  destruct (Z.eq_dec e (-149)) as [|He]; [by left|right].
  assert (inject_Z (2 ^ 23) * pow 2 e <= frac n d)%Q as L by (rewrite <- pow_shift by lia; apply (Qle_trans _ (pow 2 k)); [apply pow_le; lia|done]).
  assert (inject_Z (2 ^ 23 - q) * pow 2 e < 1 * pow 2 e)%Q as L3 by (rewrite inject_sub; lra).
  apply (proj1 (Qmult_lt_r _ _ _ Pe)) in L3. apply (inject_lt _ 1) in L3. lia.
Qed.

(** A positive number is rounded to the nearest float, and to infinity only from half a unit
    below the power of two behind the largest float. *)
Lemma float_of_ratio_close neg n d : 0 < n -> 0 < d ->
  match float_of_ratio neg n d with
  | finite f => sign f = neg /\ (mant f = 0 \/ float_format (mant f) (expo f)) /\ within (pow 2 (float_exponent n d)) (frac n d) (magnitude f)
  | infinite s => s = neg /\ (pow 2 128 - pow 2 103 <= frac n d)%Q
  | nan => False
  end.
Proof.
  intros Hn Hd. rewrite float_of_ratio_eq by done. cbv zeta. pose proof (float_mantissa n d Hn Hd) as M. cbv zeta in M.
  pose proof (leading_bit_spec n d Hn Hd) as [K1 K2]. pose proof (at_exponent_spec n d (float_exponent n d) Hd) as A.
  assert (float_exponent n d = Z.max (leading_bit n d - 23) (-149)) as Ee by done. set (e := float_exponent n d) in *. clearbody e.
  set (q := at_exponent n d e) in *. clearbody q. destruct M as [Mq Me]. pose proof (pow_pos 2 103 ltac:(lia)) as P103.
  destruct (Z.eqb_spec q (2 ^ 24)) as [Eq|Hq].
  - assert (inject_Z (2 ^ 23) * pow 2 (e + 1) == inject_Z q * pow 2 e)%Q as Ev.
    { rewrite Eq, pow_add by lia. change (pow 2 1) with 2%Q. change (inject_Z (2 ^ 24)) with (inject_Z (2 ^ 23) * 2)%Q. ring. }
    destruct (Z.ltb_spec 104 (e + 1)) as [He|He].
    + split; [done|]. destruct (Z.eq_dec e 104) as [->|].
      * rewrite Eq in A. assert (pow 2 128 == inject_Z (2 ^ 24) * pow 2 104)%Q as E1 by by vm_compute.
        assert (pow 2 104 == 2 * pow 2 103)%Q as E2 by by vm_compute. lra.
      * assert (pow 2 128 <= frac n d)%Q; [|lra]. eapply Qle_trans; [|exact K1]. apply pow_le; lia.
    + split; [done|]. split; [right; cbn; split_and!; lia|]. unfold within, magnitude. cbn [mant expo]. by rewrite Ev.
  - destruct (Z.ltb_spec 104 e) as [He|He].
    + split; [done|]. assert (pow 2 128 <= frac n d)%Q; [|lra]. eapply Qle_trans; [|exact K1]. apply pow_le; lia.
    + split; [done|]. split; [|exact A]. cbn. destruct (Z.eq_dec q 0); [by left|right]. split_and!; lia.
Qed.

(** A number that is a float is kept. *)
Lemma float_of_ratio_exact neg n d m e : 0 < n -> 0 < d -> float_format m e -> (frac n d == inject_Z m * pow 2 e)%Q ->
  float_of_ratio neg n d = finite (mkDouble neg m e).
Proof.
  intros Hn Hd (Hm & He & Hc) E. rewrite float_of_ratio_eq by done. cbv zeta. pose proof (leading_bit_spec n d Hn Hd) as [K1 K2].
  pose proof (pow_pos 2 e ltac:(lia)) as Pe. rewrite E in K1, K2.
  assert (leading_bit n d < e + 24) as Hk1.
  { apply (pow_lt_inv 2); [lia|]. rewrite pow_shift by lia. eapply Qle_lt_trans; [exact K1|]. apply Qmult_lt_r; [done|]. apply (proj1 (inject_lt _ _)). lia. }
  assert (2 ^ 23 <= m -> e + 23 < leading_bit n d + 1) as Hk2.
  { intros H. apply (pow_lt_inv 2); [lia|]. eapply Qle_lt_trans; [|exact K2]. rewrite pow_shift by lia. apply Qmult_le_compat_r; [by rewrite <- Zle_Qle|lra]. }
  assert (float_exponent n d = e) as -> by (unfold float_exponent; destruct Hc; lia).
  rewrite (at_exponent_close n d e m) by (try done; rewrite E; lra).
  destruct (Z.eqb_spec m (2 ^ 24)); [lia|]. by destruct (Z.ltb_spec 104 e); [lia|].
Qed.

(** ** Integers *)

(** An integer of few bits, shifted until it has the bits of a mantissa. *)
Lemma shifted b a : 1 <= b -> 0 < a <= 2 ^ b -> exists m e, 2 ^ (b - 1) <= m < 2 ^ b /\ - b < e <= 1 /\ (inject_Z a == inject_Z m * pow 2 e)%Q.
Proof.
  intros Hb Ha. destruct (Z.eq_dec a (2 ^ b)) as [->|Hne].
  - exists (2 ^ (b - 1)), 1. split_and!; [lia|apply Z.pow_lt_mono_r; lia|lia|lia|]. rewrite <- !pow_Z, <- pow_add by lia. f_equiv. lia.
  - pose proof (Z.log2_spec a ltac:(lia)) as [L1 L2]. pose proof (Z.log2_nonneg a).
    assert (Z.log2 a < b) by (apply Z.log2_lt_pow2; lia). set (k := b - 1 - Z.log2 a).
    pose proof (Z.pow_pos_nonneg 2 k ltac:(lia) ltac:(lia)). exists (a * 2 ^ k), (- k). split_and!; [..|lia|lia|].
    + replace (b - 1) with (Z.log2 a + k) by lia. rewrite Z.pow_add_r by lia. nia.
    + replace b with (Z.succ (Z.log2 a) + k) by lia. rewrite Z.pow_add_r by lia. nia.
    + rewrite inject_Z_mult, <- pow_Z, <- Qmult_assoc, <- pow_add by lia. rewrite Z.add_opp_diag_r. change (pow 2 0) with 1%Q. ring.
Qed.

Lemma frac_1 n : (frac n 1 == inject_Z n)%Q.
Proof. unfold frac. field. Qed.

(** The number a finite value stands for, without its sign. *)
Definition denotes (r : real) (neg : bool) (a : Z) : Prop :=
  exists d, r = finite d /\ sign d = neg /\ (magnitude d == inject_Z a)%Q.

Lemma float_of_integer neg a : 0 <= a <= 2 ^ 24 -> denotes (float_of_ratio neg a 1) neg a.
Proof.
  intros Ha. destruct (Z.eq_dec a 0) as [->|Hne]; [by eexists; split_and!|].
  destruct (shifted 24 a ltac:(lia) ltac:(lia)) as (m & e & Hm & He & E). exists (mkDouble neg m e).
  split_and!; [|done|by unfold magnitude; cbn [mant expo]; rewrite E]. apply float_of_ratio_exact; [lia|done| |by rewrite frac_1].
  change (24 - 1) with 23 in Hm. split_and!; lia.
Qed.

Lemma double_of_integer z : Z.abs z <= 2 ^ 53 -> denotes (real_of_Z z) (z <? 0) (Z.abs z).
Proof.
  intros Ha. destruct (Z.eq_dec z 0) as [->|Hz]; [by eexists; vm_compute|]. destruct (shifted 53 (Z.abs z) ltac:(lia) ltac:(lia)) as (m & e & Hm & He & E). change (53 - 1) with 52 in Hm.
  unfold real_of_Z. rewrite (nearest_close (Z.abs z) 1 m e); [..|].
  - eexists. split_and!; [done|done|]. unfold magnitude. cbn [mant expo]. by rewrite E.
  - lia.
  - done.
  - split_and!; lia.
  - pose proof (pow_pos 2 e ltac:(lia)). rewrite frac_1, E. lra.
  - pose proof (pow_pos 2 e ltac:(lia)). rewrite frac_1, E. lra.
Qed.

(** Integers are converted exactly up to 2^24 in size, to doubles up to 2^53. *)
Theorem integers_exact n :
  (Z.abs n <= 2 ^ 24 -> exists r, asFloat (intValue n) = Ok r /\ denotes r (n <? 0) (Z.abs n))
  /\ (0 <= n <= 2 ^ 24 -> exists r, asFloat (uintValue n) = Ok r /\ denotes r false n)
  /\ (Z.abs n <= 2 ^ 53 -> exists r, asDouble (intValue n) = Ok r /\ denotes r (n <? 0) (Z.abs n))
  /\ (0 <= n <= 2 ^ 53 -> exists r, asDouble (uintValue n) = Ok r /\ denotes r false n).
Proof.
  split_and!; intros H; eexists; (split; [reflexivity|]).
  - apply float_of_integer. lia.
  - by apply float_of_integer.
  - by apply double_of_integer.
  - pose proof (double_of_integer n ltac:(lia)) as D. rewrite Z.abs_eq in D by lia. by destruct (Z.ltb_spec n 0); [lia|].
Qed.

(** ** Doubles *)

Lemma ratio_pos d : 0 < mant d -> let '(n, m) := ratio d in 0 < n /\ 0 < m /\ (frac n m == magnitude d)%Q.
Proof.
  intros Hd. pose proof (ratio_spec d ltac:(lia)) as R. destruct (ratio d) as [n m]. destruct R as (Hm & Hz & Hn & E).
  split_and!; [|done|exact E]. destruct (Z.eq_dec n 0) as [->|]; lia.
Qed.

(** A finite double is converted to a float of the same sign within half a unit of the float's
    last place, or to infinity when it is too large for a float; a double that is a float is kept. *)
Theorem asFloat_nearest d : 0 < mant d ->
  match asFloat (realValue (finite d)) with
  | Ok (finite f) => sign f = sign d /\ (mant f = 0 \/ float_format (mant f) (expo f))
      /\ exists e, within (pow 2 e) (magnitude d) (magnitude f) /\ (e = -149 \/ (pow 2 (e + 23) <= magnitude d)%Q)
  | Ok (infinite s) => s = sign d /\ (pow 2 128 - pow 2 103 <= magnitude d)%Q
  | _ => False
  end
  /\ (float_format (mant d) (expo d) -> asFloat (realValue (finite d)) = Ok (finite d)).
Proof.
  intros Hd. cbn [asFloat float_of]. pose proof (ratio_pos d Hd) as R. destruct (ratio d) as [n m]. destruct R as (Hn & Hm & E). split.
  - pose proof (float_of_ratio_close (sign d) n m Hn Hm) as C. pose proof (leading_bit_spec n m Hn Hm) as [K1 _].
    destruct (float_of_ratio (sign d) n m) as [f|s|]; cbn; [|by rewrite <- E|done].
    destruct C as (Hs & Hf & Hw). split; [done|]. split; [done|]. exists (float_exponent n m). split; [unfold within in *; by rewrite <- E|].
    unfold float_exponent. destruct (Z.max_spec (leading_bit n m - 23) (-149)) as [[_ ->]|[_ ->]]; [by left|right].
    rewrite <- E. by replace (leading_bit n m - 23 + 23) with (leading_bit n m) by lia.
  - intros Hf. cbn. rewrite (float_of_ratio_exact (sign d) n m (mant d) (expo d)) by done. by destruct d.
Qed.

(** ** Examples *)

(** 0.1 is not a float, 2^24 + 1 neither; 10^39 is beyond the largest. *)
Example floats :
  [asFloat (realValue (finite (mkDouble false 7205759403792794 (-56)))); asFloat (intValue (-16777217));
   asFloat (realValue (finite (mkDouble true 6617444900424221 77))); asFloat (stringValue [])]
  = [Ok (finite (mkDouble false 13421773 (-27))); Ok (finite (mkDouble true 8388608 1)); Ok (infinite true); Throw json_logic_error].
Proof. vm_compute. reflexivity. Qed.

End Floats.
