(* ===== verification/Containers.v ===== *)
(** * Arrays, objects and paths

    An array is a map from indices to values.  As long as it has no hole it is a list, and
    the operations are those of lists; growing it leaves a hole, with consequences.  An
    object is a finite map.  Paths write and read nested members. *)
From Stdlib Require Import ZArith Lia.
From Stdlib Require Strings.Byte.
From S2P Require Import Prelude OrderedMap Json Double JsonWriter CLib Values.

Module Containers.
Import Values.

#[local] Existing Instance CLib.byte_countable.

(** ** Arrays without holes *)

Fixpoint entries_from (i : Z) (l : list Value) : list (Z * Value) :=
  match l with
  | [] => []
  | x :: l' => (i, x) :: entries_from (i + 1) l'
  end.

Definition dense (l : list Value) : list (Z * Value) := entries_from 0 l.

Lemma entries_above i k l : i < k -> OMap.above i (entries_from k l).
Proof.
  revert k. induction l as [|x l IH]; intros k Hk; constructor; [by apply Z.ltb_lt|apply IH; lia].
Qed.

Lemma entries_sorted i l : OMap.sorted (entries_from i l).
Proof.
  revert i. induction l as [|x l IH]; intros i; cbn; [done|]. split; [apply entries_above; lia|apply IH].
Qed.

Lemma dense_sorted l : OMap.sorted (dense l).
Proof. apply entries_sorted. Qed.

Lemma entries_find i l j :
  OMap.find j (entries_from i l) = if decide (i <= j) then l !! Z.to_nat (j - i) else None.
Proof.
  revert i. induction l as [|x l IH]; intros i; cbn; [by case_decide|]. rewrite IH.
  destruct (decide (j = i)) as [->|Hne].
  - rewrite decide_True by lia. by rewrite Z.sub_diag.
  - destruct (decide (i <= j)); [rewrite decide_True by lia|by rewrite decide_False by lia].
    replace (Z.to_nat (j - i)) with (S (Z.to_nat (j - (i + 1)))) by lia. done.
Qed.

Lemma dense_find l j : OMap.find j (dense l) = if decide (0 <= j) then l !! Z.to_nat j else None.
Proof. unfold dense. rewrite entries_find. case_decide; [by rewrite Z.sub_0_r|done]. Qed.

(** A map that has the elements of a list is the list. *)
Lemma dense_unique m l : OMap.sorted m ->
  (forall j, OMap.find j m = if decide (0 <= j) then l !! Z.to_nat j else None) -> m = dense l.
Proof. intros Hs Hf. apply OMap.sorted_unique; [done|apply dense_sorted|]. intros j. by rewrite Hf, dense_find. Qed.

Lemma entries_length i l : length (entries_from i l) = length l.
Proof. revert i. induction l as [|x l IH]; intros i; cbn; [done|by rewrite IH]. Qed.

Lemma entries_last i l x : last (entries_from i (l ++ [x])) = Some (i + zlen l, x).
Proof.
  revert i. induction l as [|y l IH]; intros i; [unfold zlen; cbn; do 2 f_equal; lia|].
  cbn [app entries_from]. rewrite last_cons, IH. unfold zlen. cbn [length]. do 2 f_equal. lia.
Qed.

Lemma dense_size l : zlen l < 2 ^ 32 -> size (arrayValue (dense l)) = zlen l.
Proof.
  intros Hl. cbn. unfold map_end, dense. destruct l as [|x l' _] using rev_ind; [done|].
  rewrite entries_last. unfold zlen in *. rewrite length_app in *. cbn in *. rewrite u32_small; [lia|word].
Qed.

Lemma dense_put_at l j x : 0 <= j < zlen l -> OMap.put j x (dense l) = dense (<[Z.to_nat j := x]> l).
Proof.
  intros Hj. unfold zlen in Hj. apply dense_unique; [apply OMap.put_keeps_sorted, dense_sorted|]. intros k.
  rewrite OMap.find_of_put, dense_find. destruct (decide (k = j)) as [->|Hne].
  - rewrite decide_True by lia. by rewrite list_lookup_insert_eq by lia.
  - case_decide; [|done]. by rewrite list_lookup_insert_ne by lia.
Qed.

Lemma dense_put_end l x : OMap.put (zlen l) x (dense l) = dense (l ++ [x]).
Proof.
  apply dense_unique; [apply OMap.put_keeps_sorted, dense_sorted|]. intros k. unfold zlen.
  rewrite OMap.find_of_put, dense_find. destruct (decide (k = Z.of_nat (length l))) as [->|Hne].
  - rewrite decide_True by lia. by rewrite Nat2Z.id, lookup_app_r, Nat.sub_diag by lia.
  - case_decide; [|done]. destruct (decide (k < Z.of_nat (length l))).
    + by rewrite lookup_app_l by lia.
    + rewrite lookup_ge_None_2 by lia. symmetry. apply lookup_ge_None_2. rewrite length_app. cbn. lia.
Qed.

Lemma dense_end_absent l : OMap.find (zlen l) (dense l) = None.
Proof. rewrite dense_find. unfold zlen. rewrite decide_True by lia. apply lookup_ge_None_2. lia. Qed.

(** ** The loops *)

Lemma erase_from_find n : forall i m, OMap.sorted m ->
  OMap.sorted (erase_from n i m)
  /\ forall j, OMap.find j (erase_from n i m) = if decide (i <= j < i + Z.of_nat n) then None else OMap.find j m.
Proof.
  induction n as [|n IH]; intros i m Hs; cbn [erase_from].
  { split; [done|]. intros j. by rewrite decide_False by lia. }
  destruct (IH (i + 1) (OMap.erase i m)) as [Hs' Hf]; [by apply OMap.erase_sorted|]. split; [done|]. intros j.
  rewrite Hf, OMap.find_erase by done. destruct (decide (j = i)) as [->|Hne].
  - rewrite (decide_True (P := i <= i < _)) by lia. by case_decide.
  - destruct (decide (i + 1 <= j < i + 1 + Z.of_nat n)).
    + by rewrite decide_True by lia.
    + by rewrite decide_False by lia.
Qed.

Lemma close_gap_find n : forall i m, OMap.sorted m ->
  (forall j, i < j <= i + Z.of_nat n -> is_Some (OMap.find j m)) ->
  OMap.sorted (close_gap n i m)
  /\ forall j, OMap.find j (close_gap n i m)
       = if decide (i <= j < i + Z.of_nat n) then OMap.find (j + 1) m else OMap.find j m.
Proof.
  induction n as [|n IH]; intros i m Hs Hp; cbn [close_gap].
  { split; [done|]. intros j. by rewrite decide_False by lia. }
  destruct (Hp (i + 1)) as [x Hx]; [lia|]. unfold demand_index. rewrite Hx.
  destruct (IH (i + 1) (OMap.put i x m)) as [Hs' Hf]; [by apply OMap.put_keeps_sorted|..].
  { intros j Hj. rewrite OMap.find_of_put, decide_False by lia. apply Hp. lia. }
  split; [done|]. intros j. rewrite Hf, !OMap.find_of_put.
  destruct (decide (i + 1 <= j < i + 1 + Z.of_nat n)).
  - rewrite (decide_False (P := j + 1 = i)), decide_True by lia. done.
  - destruct (decide (j = i)) as [->|Hne]; [rewrite decide_True by lia; congruence|].
    by rewrite decide_False by lia.
Qed.

Lemma shift_loop_find n : forall i m, OMap.sorted m ->
  (forall j, i - Z.of_nat n <= j < i -> is_Some (OMap.find j m)) ->
  OMap.sorted (shift_loop n i m)
  /\ forall j, j <> i - Z.of_nat n -> OMap.find j (shift_loop n i m)
       = if decide (i - Z.of_nat n < j <= i) then OMap.find (j - 1) m else OMap.find j m.
Proof.
  induction n as [|n IH]; intros i m Hs Hp; cbn [shift_loop].
  { split; [done|]. intros j Hj. by rewrite decide_False by lia. }
  destruct (Hp (i - 1)) as [y Hy]; [lia|].
  assert (exists x, shift_right m i = OMap.put i y (OMap.put (i - 1) x m)) as [x ->].
  { unfold shift_right, demand_index. destruct (OMap.find i m) as [x|] eqn:Ex.
    - rewrite Hy. by exists x.
    - rewrite OMap.find_of_put, decide_False, Hy by lia. exists nullValue.
      rewrite (OMap.put_commutes (i - 1) i), OMap.put_twice by (try apply OMap.put_keeps_sorted; done || lia). done. }
  set (m1 := OMap.put i y _). assert (forall j, OMap.find j m1
    = if decide (j = i) then Some y else if decide (j = i - 1) then Some x else OMap.find j m) as Hm1.
  { intros j. unfold m1. by rewrite !OMap.find_of_put. }
  destruct (IH (i - 1) m1) as [Hs' Hf]; [by repeat apply OMap.put_keeps_sorted|..].
  { intros j Hj. rewrite Hm1, !decide_False by lia. apply Hp. lia. }
  split; [done|]. intros j Hj. rewrite Hf by lia. rewrite !Hm1.
  destruct (decide (i - 1 - Z.of_nat n < j <= i - 1)).
  - rewrite (decide_False (P := j - 1 = i)), (decide_False (P := j - 1 = i - 1)), decide_True by lia. done.
  - destruct (decide (j = i)) as [->|Hne]; [by rewrite decide_True by lia|].
    by rewrite !decide_False by lia.
Qed.

(** ** Array operations as list operations *)

Lemma ret_bind {A B} (a : A) (f : A -> outcome B) : mret a ≫= f = f a.
Proof. done. Qed.

Lemma insert_dense l idx x : 0 <= idx <= zlen l ->
  OMap.put idx x (shift_loop (Z.to_nat (zlen l - idx)) (zlen l) (dense l))
  = dense (take (Z.to_nat idx) l ++ x :: drop (Z.to_nat idx) l).
Proof.
  intros Hi. unfold zlen in *. set (n := Z.of_nat (length l)).
  destruct (shift_loop_find (Z.to_nat (n - idx)) n (dense l)) as [Hs Hf]; [apply dense_sorted|..].
  { intros j Hj. rewrite dense_find, decide_True by lia. apply lookup_lt_is_Some_2. lia. }
  apply dense_unique; [by apply OMap.put_keeps_sorted|]. intros j. rewrite OMap.find_of_put.
  destruct (decide (j = idx)) as [->|Hne].
  { rewrite decide_True, lookup_app_r by (rewrite ?length_take; lia). rewrite length_take_le, Nat.sub_diag by lia. done. }
  rewrite Hf by lia. rewrite !dense_find. destruct (decide (0 <= j)); [|by rewrite decide_False by lia].
  destruct (decide (j < idx)).
  { rewrite decide_False by lia. rewrite lookup_app_l by (rewrite length_take; lia). by rewrite lookup_take_lt by lia. }
  rewrite lookup_app_r, length_take_le by (rewrite ?length_take; lia).
  replace (Z.to_nat j - Z.to_nat idx)%nat with (S (Z.to_nat j - Z.to_nat idx - 1)) by lia.
  rewrite lookup_cons, lookup_drop.
  replace (Z.to_nat idx + (Z.to_nat j - Z.to_nat idx - 1))%nat with (Z.to_nat (j - 1)) by lia.
  destruct (decide (n - Z.of_nat (Z.to_nat (n - idx)) < j <= n)); [by rewrite decide_True by lia|].
  rewrite !lookup_ge_None_2 by lia. done.
Qed.

Lemma delete_beyond {A} i (l : list A) : (length l <= i)%nat -> delete i l = l.
Proof.
  intros Hi. apply list_eq. intros j. rewrite list_lookup_delete. case_decide; [done|]. by rewrite !lookup_ge_None_2 by lia.
Qed.

Lemma remove_dense l idx : 0 <= idx < zlen l ->
  OMap.erase (zlen l - 1) (close_gap (Z.to_nat (zlen l - 1 - idx)) idx (dense l)) = dense (delete (Z.to_nat idx) l).
Proof.
  intros Hi. unfold zlen in *. set (n := Z.of_nat (length l)).
  destruct (close_gap_find (Z.to_nat (n - 1 - idx)) idx (dense l)) as [Hs Hf]; [apply dense_sorted|..].
  { intros j Hj. rewrite dense_find, decide_True by lia. apply lookup_lt_is_Some_2. lia. }
  apply dense_unique; [by apply OMap.erase_sorted|]. intros j. rewrite OMap.find_erase, Hf, !dense_find by done.
  destruct (decide (0 <= j)) as [Hj|Hj].
  - destruct (decide (j < idx)) as [Hlt|Hge].
    { rewrite (decide_False (P := j = n - 1)), (decide_False (P := idx <= j < _)) by lia.
      by rewrite list_lookup_delete_lt by lia. }
    rewrite list_lookup_delete_ge by lia. destruct (decide (j = n - 1)) as [->|Hne].
    + rewrite lookup_ge_None_2 by lia. done.
    + destruct (decide (idx <= j < idx + Z.of_nat (Z.to_nat (n - 1 - idx)))).
      * rewrite decide_True by lia. f_equal. lia.
      * rewrite !lookup_ge_None_2 by lia. done.
  - rewrite decide_False, decide_False by lia. done.
Qed.

Lemma shrink_dense l k : 0 <= k <= zlen l ->
  erase_from (Z.to_nat (zlen l - k)) k (dense l) = dense (take (Z.to_nat k) l).
Proof.
  intros Hk. unfold zlen in *. set (n := Z.of_nat (length l)).
  destruct (erase_from_find (Z.to_nat (n - k)) k (dense l)) as [Hs Hf]; [apply dense_sorted|].
  apply dense_unique; [done|]. intros j. rewrite Hf, dense_find.
  destruct (decide (0 <= j)) as [Hj|Hj]; [|by rewrite decide_False by lia].
  destruct (decide (j < k)) as [Hlt|Hge].
  - rewrite decide_False by lia. by rewrite lookup_take_lt by lia.
  - rewrite lookup_take_ge by lia. destruct (decide (k <= j < _)); [done|]. apply lookup_ge_None_2. lia.
Qed.

(** ** Objects *)

(** The members as a finite map. *)
Definition contents (m : list (list byte * Value)) : gmap (list byte) Value := list_to_map m.

Lemma contents_lookup m k : contents m !! k = OMap.find k m.
Proof.
  induction m as [|[k' v] m IH]; cbn; [done|]. destruct (decide (k = k')) as [->|Hne].
  - apply lookup_insert_eq.
  - rewrite lookup_insert_ne by done. exact IH.
Qed.

Lemma contents_put m k x : contents (OMap.put k x m) = <[k := x]> (contents m).
Proof.
  apply map_eq. intros key. rewrite contents_lookup, OMap.find_of_put, lookup_insert, contents_lookup.
  repeat case_decide; by subst.
Qed.

Lemma contents_erase m k : OMap.sorted m -> contents (OMap.erase k m) = delete k (contents m).
Proof.
  intros Hs. apply map_eq. intros key.
  rewrite contents_lookup, OMap.find_erase, lookup_delete, contents_lookup by done. repeat case_decide; by subst.
Qed.

Lemma names_contents m k : k ∈ m.*1 <-> k ∈ dom (contents m).
Proof. unfold contents. rewrite dom_list_to_map, elem_of_list_to_set. done. Qed.

(** Keys below a gigabyte are kept whole. *)
Lemma CZString_short key : zlen key < 2 ^ 30 -> CZString key = key.
Proof.
  intros Hk. unfold CZString. rewrite u32_small by (unfold zlen in *; word).
  change 1073741823 with (Z.ones 30). rewrite Z.land_ones, Z.mod_small by (unfold zlen in *; lia).
  apply firstn_all2. unfold zlen. lia.
Qed.

(** ** Paths *)

(** Maps in order at every level, and indices that leave room for the size. *)
Fixpoint ordered (v : Value) : Prop :=
  match v with
  | arrayValue m => OMap.sorted m /\ Forall (fun kv => 0 <= kv.1 < 2 ^ 32 - 1) m
                    /\ foldr (fun kv P => ordered kv.2 /\ P) True m
  | objectValue m => OMap.sorted m /\ foldr (fun kv P => ordered kv.2 /\ P) True m
  | _ => True
  end.

Definition short_index (a : PathArgument) : Prop :=
  match a with kindIndex i => 0 <= i < 2 ^ 32 - 1 | _ => True end.

Lemma ordered_find {K} `{Key K} (m : list (K * Value)) k x :
  foldr (fun kv P => ordered kv.2 /\ P) True m -> OMap.find k m = Some x -> ordered x.
Proof.
  induction m as [|[k' v] m IH]; cbn; [done|]. intros [Hv Hm]. case_decide; [by intros [= <-]|by apply IH].
Qed.

Lemma last_find (m : list (Z * Value)) i x : OMap.sorted m -> OMap.find i m = Some x ->
  exists j y, last m = Some (j, y) /\ i <= j.
Proof.
  induction m as [|[k v] m IH]; cbn [OMap.find]; [done|]. intros [Ha Hs] Hf. rewrite last_cons.
  case_decide as E.
  - destruct (last m) as [[j y]|] eqn:El; [|exists k, v; by split; [|lia]].
    exists j, y. split; [done|]. apply last_Some in El as [l' ->]. apply Forall_app in Ha as [_ Ha].
    apply Forall_cons in Ha as [Ha _]. apply Z.ltb_lt in Ha. cbn in Ha. lia.
  - destruct (IH Hs Hf) as (j & y & -> & Hj). by exists j, y.
Qed.

Lemma valid_index (m : list (Z * Value)) i x : OMap.sorted m -> Forall (fun kv => 0 <= kv.1 < 2 ^ 32 - 1) m ->
  OMap.find i m = Some x -> isValidIndex (arrayValue m) i = true.
Proof.
  intros Hs Hb Hf. destruct (last_find m i x Hs Hf) as (j & y & El & Hj).
  assert ((j, y) ∈ m) as Hin by (apply last_Some in El as [l ->]; apply elem_of_app; right; by left).
  rewrite Forall_forall in Hb. apply Hb in Hin. cbn in Hin.
  unfold isValidIndex. cbn. unfold map_end. rewrite El, u32_small by word. apply Z.ltb_lt. lia.
Qed.

Lemma put_bounds (m : list (Z * Value)) i x : 0 <= i < 2 ^ 32 - 1 ->
  Forall (fun kv => 0 <= kv.1 < 2 ^ 32 - 1) m -> Forall (fun kv => 0 <= kv.1 < 2 ^ 32 - 1) (OMap.put i x m).
Proof.
  intros Hi. induction m as [|[k v] m IH]; cbn; intros Hm; [by apply Forall_singleton|].
  apply Forall_cons in Hm as [Hk Hm]. case_match; [apply Forall_cons; split; [done|by apply IH]|].
  case_decide; rewrite !Forall_cons; done.
Qed.

Lemma demand_spec (m : list (Z * Value)) i x m' : OMap.sorted m -> Forall (fun kv => 0 <= kv.1 < 2 ^ 32 - 1) m ->
  0 <= i < 2 ^ 32 - 1 -> foldr (fun kv P => ordered kv.2 /\ P) True m -> demand_index m i = (x, m') ->
  ordered x /\ OMap.sorted m' /\ Forall (fun kv => 0 <= kv.1 < 2 ^ 32 - 1) m'.
Proof.
  intros Hs Hb Hi Ho. unfold demand_index. destruct (OMap.find i m) as [y|] eqn:E; intros [= <- <-].
  - split_and!; [exact (ordered_find m i y Ho E)|done..].
  - split_and!; [done|by apply OMap.put_keeps_sorted|by apply put_bounds].
Qed.

Lemma make_resolve args : forall root x root', ordered root -> Forall short_index args ->
  make args root x = Ok root' -> resolve_path args root' = Ok (Some x).
Proof.
  induction args as [|[|i|k] args IH]; intros root x root' Ho Ha E; [by injection E as <-|..];
    apply Forall_cons in Ha as [Hi Ha]; cbn [make] in E.
  - cbn. by eapply IH.
  - apply outcome_bind_Ok in E as ([node v'] & E1 & E). apply outcome_bind_Ok in E as (node' & E2 & E3).
    unfold at_index in E1. apply outcome_bind_Ok in E1 as (m & Em & E1).
    destruct (demand_index m i) as [y m'] eqn:Ed. injection E1 as <- <-. injection E3 as <-.
    assert (OMap.sorted m /\ Forall (fun kv => 0 <= kv.1 < 2 ^ 32 - 1) m
      /\ foldr (fun kv P => ordered kv.2 /\ P) True m) as (Hs & Hb & Hf).
    { destruct root; try done; injection Em as <-; [split_and!; [done|constructor|done]|exact Ho]. }
    destruct (demand_spec m i y m' Hs Hb Hi Hf Ed) as (Hy & Hs' & Hb').
    assert (OMap.find i (OMap.put i node' m') = Some node') as Hn by (rewrite OMap.find_of_put; by rewrite decide_True).
    cbn [resolve_path]. change (isArray (arrayValue (OMap.put i node' m'))) with true.
    rewrite (valid_index _ i node') by (done || by apply OMap.put_keeps_sorted || by apply put_bounds).
    cbn [negb orb]. unfold const_index, find_index. cbn [as_array]. cbn. rewrite Hn. cbn. by eapply IH.
  - apply outcome_bind_Ok in E as ([node v'] & E1 & E). apply outcome_bind_Ok in E as (node' & E2 & E3).
    unfold resolveReference in E1. apply outcome_bind_Ok in E1 as (m & Em & E1).
    assert (foldr (fun kv P => ordered kv.2 /\ P) True m) as Hf.
    { destruct root; try done; injection Em as <-; [done|by apply Ho]. }
    assert (ordered node /\ exists m', v' = objectValue m') as (Hn & m' & ->).
    { destruct (OMap.find (CZString k) m) as [y|] eqn:Ey; injection E1 as <- <-; (split; [|by eexists]).
      - exact (ordered_find m _ y Hf Ey).
      - done. }
    injection E3 as <-. cbn. rewrite OMap.find_of_put, decide_True by done. by eapply IH.
Qed.

(** Every round of [makePath] but one at a zero byte moves on. *)
Lemma path_digits_shorter i l : (length (path_digits i l).2 <= length l)%nat.
Proof. revert i. induction l as [|b l IH]; intros i; cbn; [lia|]. case_match; cbn; [|lia]. specialize (IH (u32 (i * 10 + (byte_Z b - 48)))). lia. Qed.

Lemma path_name_shorter l : (length (path_name l).2 <= length l)%nat.
Proof. induction l as [|b l IH]; cbn; [lia|]. case_match; cbn; [lia|]. destruct (path_name l). cbn in *. lia. Qed.

Lemma path_digits_suffix i l b : b ∈ (path_digits i l).2 -> b ∈ l.
Proof. revert i. induction l as [|c l IH]; intros i; cbn; [done|]. case_match; cbn; [|done]. intros Hin%IH. by right. Qed.

Lemma path_name_suffix l b : b ∈ (path_name l).2 -> b ∈ l.
Proof.
  induction l as [|c l IH]; cbn; [done|]. case_match; cbn; [done|]. destruct (path_name l). cbn in *. intros Hin%IH. by right.
Qed.

Lemma in_drop {A} n (l : list A) x : x ∈ drop n l -> x ∈ l.
Proof. intros H. rewrite <- (take_drop n l). apply elem_of_app. by right. Qed.

Lemma makePath_total fuel : forall l ins args, (length l < fuel)%nat -> Byte.x00 ∉ l ->
  exists args', makePath fuel l ins args = Ok args'.
Proof.
  induction fuel as [|fuel IH]; intros l ins args Hl Hz; [lia|]. destruct l as [|b l]; cbn [makePath]; [by eexists|].
  cbn in Hl. apply not_elem_of_cons in Hz as [Hb Hz].
  assert (forall r ins' args', (length r <= length l)%nat -> (forall c, c ∈ r -> c ∈ l) ->
    exists args'', makePath fuel r ins' args' = Ok args'') as Hgo.
  { intros r ins' args' Hr Hin. apply IH; [lia|]. intros Hc%Hin. done. }
  case_bool_decide as E1.
  { destruct l as [|c l]; [by apply Hgo; [cbn; lia|by intros]|]. case_bool_decide.
    - destruct (addPathInArg (kindIndex 0) ins). apply Hgo; [rewrite length_drop; lia|]. intros d. apply in_drop.
    - destruct (path_digits 0 (c :: l)) as [i r] eqn:Er. pose proof (path_digits_shorter 0 (c :: l)) as Hr.
      pose proof (path_digits_suffix 0 (c :: l)) as Hs. rewrite Er in Hr, Hs. cbn [snd] in Hr, Hs.
      apply Hgo; [rewrite length_drop; lia|]. intros d Hd. by eapply Hs, in_drop. }
  case_bool_decide as E2.
  { destruct (addPathInArg (kindKey []) ins). apply Hgo; [lia|done]. }
  destruct (bool_decide (b = Byte.x2e) || bool_decide (b = Byte.x5d)) eqn:E3; [apply Hgo; [lia|done]|].
  apply orb_false_iff in E3 as [E3 _]. cbn [path_name]. rewrite E3. rewrite !bool_decide_eq_false_2 by congruence. cbn [orb].
  destruct (path_name l) as [n r] eqn:Er. pose proof (path_name_shorter l) as Hr. pose proof (path_name_suffix l) as Hs.
  rewrite Er in Hr, Hs. cbn [snd] in Hr, Hs. apply Hgo; [lia|done].
Qed.

(** ** The properties *)

(** Without holes an array is a list.  On it [size], indexing, [get], [append], [insert],
    [removeIndex] and [resize] to a smaller size are the list operations, for every index,
    with their answers for indices out of range. *)
Theorem array_ops_are_list_ops l x idx :
  zlen l < 2 ^ 32 - 1 -> 0 <= idx ->
  let v := arrayValue (dense l) in
  size v = zlen l
  /\ const_index v idx = Ok (default nullValue (l !! Z.to_nat idx))
  /\ get_index v idx x = Ok (default x (l !! Z.to_nat idx))
  /\ append v x = Ok (arrayValue (dense (l ++ [x])))
  /\ insert v idx x = Ok (if idx <=? zlen l
       then (true, arrayValue (dense (take (Z.to_nat idx) l ++ x :: drop (Z.to_nat idx) l))) else (false, v))
  /\ removeIndex v idx = (l !! Z.to_nat idx, arrayValue (dense (delete (Z.to_nat idx) l)))
  /\ (idx <= zlen l -> resize v idx = Ok (arrayValue (dense (take (Z.to_nat idx) l)))).
Proof.
  intros Hl Hi v. assert (size v = zlen l) as Hsz by (apply dense_size; lia).
  assert (OMap.find idx (dense l) = l !! Z.to_nat idx) as Hfind by (by rewrite dense_find, decide_True).
  split_and!; [done|..].
  - unfold const_index, find_index. cbn. by rewrite Hfind.
  - unfold get_index, find_index. cbn. by rewrite Hfind.
  - unfold append. cbn [v as_array]. cbn. change (map_end (dense l)) with (size v). rewrite Hsz, dense_end_absent.
    by rewrite dense_put_end.
  - unfold insert. cbn [v as_array]. rewrite ret_bind, Hsz.
    destruct (Z.ltb_spec (zlen l) idx); [by rewrite (proj2 (Z.leb_gt _ _)) by lia|].
    rewrite (proj2 (Z.leb_le _ _)) by lia. by rewrite insert_dense by lia.
  - cbn [removeIndex v]. rewrite Hfind. destruct (l !! Z.to_nat idx) as [y|] eqn:Ey.
    + rewrite Hsz. apply lookup_lt_Some in Ey. rewrite remove_dense by (unfold zlen; lia). done.
    + apply lookup_ge_None in Ey. by rewrite delete_beyond.
  - intros Hle. unfold resize. cbn [v as_array]. rewrite ret_bind. fold v. rewrite Hsz.
    destruct (Z.eqb_spec idx 0) as [->|Hne]; [done|]. destruct (Z.ltb_spec (zlen l) idx); [lia|].
    rewrite shrink_dense by lia. rewrite dense_size by (unfold zlen in *; rewrite length_take; lia).
    unfold zlen in *. rewrite length_take_le by lia. rewrite Z2Nat.id by lia. by rewrite Z.eqb_refl.
Qed.

(** Growing an array leaves a hole.  [resize] on an empty array to [n] makes only the last
    element, so shrinking the result to anything between throws [LogicError] although the
    size was larger, and the indices below are not found. *)
Theorem grown_array_has_holes n k :
  0 < k -> k < n -> n < 2 ^ 32 ->
  exists v, resize (arrayValue []) n = Ok v /\ size v = n /\ resize v k = Throw json_logic_error
    /\ removeIndex v (k - 1) = (None, v) /\ isValidIndex v (k - 1) = true.
Proof.
  intros H1 H2 H3. assert (size (arrayValue [(n - 1, nullValue)]) = n) as Hsz.
  { cbn. unfold map_end. cbn. rewrite u32_small by word. lia. }
  exists (arrayValue [(n - 1, nullValue)]). split_and!; [|done|..].
  - unfold resize. cbn [as_array]. rewrite ret_bind. destruct (Z.eqb_spec n 0); [lia|].
    destruct (Z.ltb_spec (size (arrayValue [])) n) as [_|Hn]; [done|cbn in Hn; lia].
  - unfold resize. cbn [as_array]. rewrite ret_bind, Hsz. destruct (Z.eqb_spec k 0); [lia|].
    destruct (Z.ltb_spec n k); [lia|].
    destruct (erase_from_find (Z.to_nat (n - k)) k [(n - 1, nullValue)]) as [Hs Hf]; [by split; [constructor|]|].
    assert (erase_from (Z.to_nat (n - k)) k [(n - 1, nullValue)] = []) as ->.
    { apply OMap.sorted_unique; [done|done|]. intros j. rewrite Hf. cbn. case_decide; [done|].
      rewrite decide_False by lia. done. }
    destruct (Z.eqb_spec (size (arrayValue [])) k) as [E|_]; [cbn in E; lia|done].
  - cbn [removeIndex OMap.find]. by rewrite decide_False by lia.
  - unfold isValidIndex. rewrite Hsz. apply Z.ltb_lt. lia.
Qed.

(** An object is a finite map.  Looking up, assigning and removing members are the map
    operations on its contents, [getMemberNames] lists the keys once each in increasing
    order, and every operation keeps the order. *)
Theorem object_ops_are_map_ops m k x :
  OMap.sorted m -> zlen k < 2 ^ 30 ->
  let v := objectValue m in
  find v k = Ok (contents m !! k)
  /\ isMember v k = Ok (bool_decide (is_Some (contents m !! k)))
  /\ (exists m', assign v k x = Ok (objectValue m') /\ contents m' = <[k := x]> (contents m) /\ OMap.sorted m')
  /\ (exists m', removeMember v k = (contents m !! k, objectValue m')
        /\ contents m' = delete k (contents m) /\ OMap.sorted m')
  /\ (exists names, getMemberNames v = Ok names /\ (forall key, key ∈ names <-> key ∈ dom (contents m))
        /\ names = m.*1 /\ NoDup names).
Proof.
  intros Hs Hk v. split_and!.
  - unfold find. cbn. by rewrite CZString_short, contents_lookup.
  - unfold isMember, find. cbn. rewrite CZString_short, contents_lookup by done. by destruct (OMap.find k m).
  - eexists. split; [done|]. rewrite CZString_short, contents_put by done. split; [done|by apply OMap.put_keeps_sorted].
  - cbn [removeMember v]. rewrite CZString_short, contents_lookup by done. destruct (OMap.find k m) eqn:E.
    + eexists. split; [done|]. rewrite contents_erase by done. split; [done|by apply OMap.erase_sorted].
    + exists m. split_and!; [done| |done]. rewrite delete_id; [done|]. by rewrite contents_lookup.
  - eexists. split_and!; [done|apply names_contents|done|by apply OMap.sorted_keys].
Qed.

(** What a path makes it resolves.  Writing through [Path::make], which creates the arrays
    and objects on the way, and resolving the same path gives the value written, whatever
    the root held; [make] throws rather than write through a value of another type. *)
Theorem path_make_resolve args root x root' :
  ordered root -> Forall short_index args -> make args root x = Ok root' ->
  resolve args root' = Ok x /\ (forall d, resolve_default args root' d = Ok x).
Proof.
  intros Ho Ha E. unfold resolve, resolve_default. by rewrite (make_resolve args root x root' Ho Ha E).
Qed.

(** Reading a path terminates unless it contains a zero byte, where it does not. *)
Theorem path_terminates path ins :
  (Byte.x00 ∉ path -> exists args, Path path ins = Ok args)
  /\ (forall fuel args, makePath fuel (Byte.x00 :: path) ins args = OutOfFuel).
Proof.
  split; [intros Hz; apply makePath_total; [lia|done]|].
  induction fuel as [|fuel IH]; intros args; [done|]. cbn. apply IH.
Qed.

(** ** Witnesses *)

Definition three : list Value := [intValue 1; intValue 2; intValue 3].

Lemma array_ops_are_list_ops_witness :
  let v := arrayValue (dense three) in
  size v = zlen three
  /\ const_index v 1 = Ok (default nullValue (three !! Z.to_nat 1))
  /\ get_index v 1 nullValue = Ok (default nullValue (three !! Z.to_nat 1))
  /\ append v nullValue = Ok (arrayValue (dense (three ++ [nullValue])))
  /\ insert v 1 nullValue = Ok (if 1 <=? zlen three
       then (true, arrayValue (dense (take (Z.to_nat 1) three ++ nullValue :: drop (Z.to_nat 1) three))) else (false, v))
  /\ removeIndex v 1 = (three !! Z.to_nat 1, arrayValue (dense (delete (Z.to_nat 1) three)))
  /\ (1 <= zlen three -> resize v 1 = Ok (arrayValue (dense (take (Z.to_nat 1) three)))).
Proof. apply (array_ops_are_list_ops three nullValue 1); [reflexivity|lia]. Defined.

Lemma grown_array_has_holes_witness :
  exists v, resize (arrayValue []) 5 = Ok v /\ size v = 5 /\ resize v 3 = Throw json_logic_error
    /\ removeIndex v (3 - 1) = (None, v) /\ isValidIndex v (3 - 1) = true.
Proof. apply (grown_array_has_holes 5 3); lia. Defined.

Lemma object_ops_are_map_ops_witness :
  let m := [(bs "a", nullValue)] in
  let v := objectValue m in
  find v (bs "b") = Ok (contents m !! bs "b")
  /\ isMember v (bs "b") = Ok (bool_decide (is_Some (contents m !! bs "b")))
  /\ (exists m', assign v (bs "b") nullValue = Ok (objectValue m')
        /\ contents m' = <[bs "b" := nullValue]> (contents m) /\ OMap.sorted m')
  /\ (exists m', removeMember v (bs "b") = (contents m !! bs "b", objectValue m')
        /\ contents m' = delete (bs "b") (contents m) /\ OMap.sorted m')
  /\ (exists names, getMemberNames v = Ok names /\ (forall key, key ∈ names <-> key ∈ dom (contents m))
        /\ names = m.*1 /\ NoDup names).
Proof.
  apply (object_ops_are_map_ops [(bs "a", nullValue)] (bs "b") nullValue);
    [split; [constructor|exact I]|reflexivity].
Defined.

Definition path_sample : list PathArgument := [kindKey (bs "a"); kindIndex 2].

Lemma path_make_resolve_witness :
  exists root', make path_sample nullValue (intValue 7) = Ok root'
    /\ resolve path_sample root' = Ok (intValue 7)
    /\ (forall d, resolve_default path_sample root' d = Ok (intValue 7)).
Proof.
  eexists. split; [reflexivity|]. apply (path_make_resolve path_sample nullValue).
  - exact I.
  - apply Forall_cons. split; [exact I|]. apply Forall_singleton. cbn. lia.
  - reflexivity.
Defined.

(** ".a[2].%" with a name as its argument *)
Example path_read :
  Path (bs ".a[2].%") [kindKey (bs "b")] = Ok [kindKey (bs "a"); kindIndex 2; kindKey (bs "b")].
Proof. vm_compute. reflexivity. Qed.

Lemma path_terminates_witness :
  (Byte.x00 ∉ bs "a" -> exists args, Path (bs "a") [] = Ok args)
  /\ (forall fuel args, makePath fuel (Byte.x00 :: bs "a") [] args = OutOfFuel).
Proof. exact (path_terminates (bs "a") []). Defined.

End Containers.
