(* ===== verification/Iterators.v ===== *)
(** * Iterators (common/jsoncpp/lib_json/json_valueiterator.inl, include/json/value.h)

    An iterator of [std::map] is a position among the entries, in the order of the keys; the
    default one belongs to no map.  Leaving the map and mixing the two kinds is undefined.
    The iterators of a value wrap one with a flag for values that have no map. *)
From Stdlib Require Import ZArith Lia.
From Stdlib Require Strings.Byte.
From S2P Require Import Prelude OrderedMap Json CLib Double JsonWriter Values Containers.

Module Iterators.
Import Values.

#[local] Existing Instance CLib.byte_countable.

(** ** Entries *)

(** [CZString]: an index, or characters that may be those of a static string. *)
Inductive CZ :=
| at_index (index : Z)
| at_name (name : list byte) (isStaticString : bool).

Abbreviation Entries := (list (CZ * Value)).

(** The map of a value. *)
Definition entries (v : Value) : option Entries :=
  match v with
  | arrayValue m => Some (map (fun kv => (at_index kv.1, kv.2)) m)
  | objectValue m => Some (map (fun kv => (at_name kv.1 false, kv.2)) m)
  | _ => None
  end.

(** ** [ValueIteratorBase] *)

Record Iterator := mkIterator { current_ : option nat; isNull_ : bool }.

(** The two constructors *)
Definition no_iterator : Iterator := mkIterator None true.
Definition iterator_at (i : nat) : Iterator := mkIterator (Some i) false.

(** [Value::begin] and [Value::end] *)
Definition begin_ (v : Value) : Iterator :=
  match entries v with Some _ => iterator_at 0 | None => no_iterator end.
Definition end_ (v : Value) : Iterator :=
  match entries v with Some m => iterator_at (length m) | None => no_iterator end.

Section on_map.
Context (m : Entries).

(** [*current_] *)
Definition entry (it : Iterator) : outcome (CZ * Value) :=
  match current_ it ≫= (fun i => m !! i) with Some e => mret e | None => UB end.

Definition deref (it : Iterator) : outcome Value := e ← entry it; mret e.2.

(** [++current_] and [--current_] *)
Definition next (i : option nat) : outcome (option nat) :=
  match i with
  | Some i => if (i <? length m)%nat then mret (Some (S i)) else UB
  | None => UB
  end.
Definition prev (i : option nat) : outcome (option nat) :=
  match i with
  | Some (S i) => mret (Some i)
  | _ => UB
  end.

Definition increment (it : Iterator) : outcome Iterator := i ← next (current_ it); mret (mkIterator i (isNull_ it)).
Definition decrement (it : Iterator) : outcome Iterator := i ← prev (current_ it); mret (mkIterator i (isNull_ it)).

(** [==] of [std::map] *)
Definition same (i j : option nat) : outcome bool :=
  match i, j with
  | Some i, Some j => mret (bool_decide (i = j))
  | None, None => mret true
  | _, _ => UB
  end.

(** The loop of [computeDistance]; the distance is an [int]. *)
Fixpoint distance_loop (fuel : nat) (it other : option nat) (myDistance : Z) : outcome Z :=
  match fuel with
  | O => OutOfFuel
  | S fuel' =>
      eq ← same it other;
      if (eq : bool) then mret myDistance
      else
        _ ← (if myDistance <? maxInt then mret tt else UB);
        it ← next it;
        distance_loop fuel' it other (myDistance + 1)
  end.

Definition computeDistance (self other : Iterator) : outcome Z :=
  if isNull_ self && isNull_ other then mret 0
  else distance_loop (2 + length m) (current_ self) (current_ other) 0.

Definition isEqual (self other : Iterator) : outcome bool :=
  if isNull_ self then mret (isNull_ other) else same (current_ self) (current_ other).

(** [operator==], [operator!=], [operator-] *)
Definition operator_eq (self other : Iterator) : outcome bool := isEqual self other.
Definition operator_ne (self other : Iterator) : outcome bool := b ← isEqual self other; mret (negb b).
Definition operator_minus (self other : Iterator) : outcome Z := computeDistance other self.

(** A static string is read up to its NUL. *)
Definition key (it : Iterator) : outcome Value :=
  '(k, _) ← entry it;
  mret match k with
       | at_name name true => stringValue (CLib.c_str name)
       | at_name name false => stringValue name
       | at_index i => uintValue i
       end.

Definition index (it : Iterator) : outcome Z :=
  '(k, _) ← entry it; mret match k with at_index i => i | at_name _ _ => u32 (-1) end.

(** [memberName(end)]: [None] is the null pointer *)
Definition memberName_end (it : Iterator) : outcome (option (list byte)) :=
  '(k, _) ← entry it; mret match k with at_name name _ => Some name | at_index _ => None end.

Definition name (it : Iterator) : outcome (list byte) := n ← memberName_end it; mret (default [] n).

(** [memberName()]: a C string *)
Definition memberName (it : Iterator) : outcome (list byte) := n ← memberName_end it; mret (CLib.c_str (default [] n)).

(** [it++] and [it--]: the copy and the iterator afterwards *)
Definition post_increment (it : Iterator) : outcome (Iterator * Iterator) :=
  let temp := it in it ← increment it; mret (temp, it).
Definition post_decrement (it : Iterator) : outcome (Iterator * Iterator) :=
  let temp := it in it ← decrement it; mret (temp, it).

(** [for (auto it = begin; it != end; ++it)] with what it sees in each round *)
Fixpoint visit {A} (see : Iterator -> outcome A) (fuel : nat) (it stop : Iterator) : outcome (list A) :=
  match fuel with
  | O => OutOfFuel
  | S fuel' =>
      go ← operator_ne it stop;
      if (go : bool) then
        a ← see it;
        it ← increment it;
        rest ← visit see fuel' it stop;
        mret (a :: rest)
      else mret []
  end.
End on_map.

(** [copy], used by both assignments and by the conversion to a const iterator *)
Definition copy (other : Iterator) : Iterator := mkIterator (current_ other) (isNull_ other).

(** [ValueIterator(const ValueConstIterator&)] *)
Definition from_const (other : Iterator) : outcome Iterator :=
  let '_ := copy other in Throw json_runtime_error.

(** A loop over a value. *)
Definition for_each {A} (see : Entries -> Iterator -> outcome A) (v : Value) : outcome (list A) :=
  let m := default [] (entries v) in visit m (see m) (S (length m)) (begin_ v) (end_ v).

Example for_each_demo :
  for_each (fun m it => k ← key m it; x ← deref m it; mret (k, x)) (objectValue [(bs "a", intValue 1); (bs "b", nullValue)])
  = Ok [(stringValue (bs "a"), intValue 1); (stringValue (bs "b"), nullValue)].
Proof. vm_compute. reflexivity. Qed.

(** ** Positions *)

Lemma entry_at m i e : m !! i = Some e -> entry m (iterator_at i) = Ok e.
Proof. intros E. unfold entry. cbn. by rewrite E. Qed.

Lemma increment_at m i : (i < length m)%nat -> increment m (iterator_at i) = Ok (iterator_at (S i)).
Proof. intros Hi. unfold increment, next. cbn [current_ iterator_at]. destruct (Nat.ltb_spec i (length m)); [done|lia]. Qed.

Lemma visit_from m {A} (see : Iterator -> outcome A) (f : CZ * Value -> A) :
  (forall i e, m !! i = Some e -> see (iterator_at i) = Ok (f e)) ->
  forall k fuel, (k <= length m)%nat -> (k < fuel)%nat ->
  visit m see fuel (iterator_at (length m - k)) (iterator_at (length m)) = Ok (map f (drop (length m - k) m)).
Proof.
  intros Hsee. induction k as [|k IH]; intros [|fuel] Hk Hf; try lia; cbn [visit]; unfold operator_ne, isEqual;
    cbn [current_ isNull_ iterator_at same].
  - rewrite Nat.sub_0_r, bool_decide_eq_true_2 by done. by rewrite drop_all.
  - rewrite bool_decide_eq_false_2 by lia. cbn [mret outcome_ret mbind outcome_bind negb].
    destruct (lookup_lt_is_Some_2 m (length m - S k)) as [e E]; [lia|].
    rewrite (Hsee _ _ E). cbn [mbind outcome_bind]. rewrite increment_at by lia. cbn [mbind outcome_bind].
    replace (S (length m - S k)) with (length m - k)%nat by lia. rewrite IH by lia. cbn.
    rewrite (drop_S m e (length m - S k)) by done. cbn. by replace (S (length m - S k)) with (length m - k)%nat by lia.
Qed.

(** A loop over a value, whatever it looks at, sees every entry once, in the order of the
    keys, and ends; over a value that is neither array nor object it does nothing. *)
Theorem for_each_exact {A} (see : Entries -> Iterator -> outcome A) (f : CZ * Value -> A) v :
  (forall m i e, m !! i = Some e -> see m (iterator_at i) = Ok (f e)) ->
  for_each see v = Ok (map f (default [] (entries v))).
Proof.
  intros Hsee. unfold for_each, begin_, end_. destruct (entries v) as [m|]; [|done]. change (default [] (Some m)) with m. cbv zeta.
  replace (iterator_at 0) with (iterator_at (length m - length m)) by (by rewrite Nat.sub_diag). rewrite (visit_from m (see m) f (Hsee m) (length m)) by lia. by rewrite Nat.sub_diag.
Qed.

Lemma for_each_exact_witness :
  for_each deref (objectValue [(bs "a", intValue 1)]) = Ok [intValue 1].
Proof.
  rewrite (for_each_exact deref snd); [done|]. intros m i e E. unfold deref. by rewrite (entry_at m i e E).
Defined.

Lemma for_each_names m :
  for_each name (objectValue m) = getMemberNames (objectValue m).
Proof.
  rewrite (for_each_exact name (fun e => match e.1 with at_name n _ => n | at_index _ => [] end)).
  - cbn. f_equal. rewrite map_map. by apply map_ext.
  - intros l i [[j|n st] x] E; unfold name, memberName_end; by rewrite (entry_at l i _ E).
Qed.

(** ** Distances *)

Lemma distance_from m j : (j <= length m)%nat -> forall k fuel d, (k <= j)%nat -> (k < fuel)%nat ->
  0 <= d -> d + Z.of_nat k <= maxInt ->
  distance_loop m fuel (Some (j - k)%nat) (Some j) d = Ok (d + Z.of_nat k).
Proof.
  intros Hj. induction k as [|k IH]; intros [|fuel] d Hk Hf Hd Hm; try lia; cbn [distance_loop same].
  - rewrite Nat.sub_0_r, bool_decide_eq_true_2 by done. cbn. f_equal. lia.
  - rewrite bool_decide_eq_false_2 by lia. cbn [mret outcome_ret mbind outcome_bind].
    rewrite (proj2 (Z.ltb_lt _ _)) by lia. cbn [mret outcome_ret mbind outcome_bind next].
    destruct (Nat.ltb_spec (j - S k) (length m)); [|lia]. cbn [mret outcome_ret mbind outcome_bind].
    replace (S (j - S k)) with (j - k)%nat by lia. rewrite IH by lia. f_equal. lia.
Qed.

(** From behind the other iterator the loop runs off the map. *)
Lemma distance_lost m j fuel : forall i d, (j < i <= length m)%nat -> (length m - i < fuel)%nat ->
  distance_loop m fuel (Some i) (Some j) d = UB.
Proof.
  induction fuel as [|fuel IH]; intros i d Hi Hf; [lia|]. cbn [distance_loop same].
  rewrite bool_decide_eq_false_2 by lia. cbn [mret outcome_ret mbind outcome_bind].
  destruct (d <? maxInt); [|done]. cbn [mret outcome_ret mbind outcome_bind next].
  destruct (Nat.ltb_spec i (length m)); [|done]. cbn [mret outcome_ret mbind outcome_bind]. apply IH; lia.
Qed.

(** The distance of two iterators of a map is that of their positions if the second is not
    in front of the first; otherwise the code has no answer.  Equality is that of the
    positions. *)
Theorem computeDistance_exact m i j : (i <= length m)%nat -> (j <= length m)%nat -> zlen m <= maxInt ->
  computeDistance m (iterator_at i) (iterator_at j) = (if decide (i <= j)%nat then Ok (Z.of_nat j - Z.of_nat i) else UB)
  /\ isEqual (iterator_at i) (iterator_at j) = Ok (bool_decide (i = j)).
Proof.
  unfold zlen. intros Hi Hj Hm. split; [|done]. unfold computeDistance. cbn [isNull_ current_ iterator_at andb]. case_decide as Hij.
  - replace i with (j - (j - i))%nat at 1 by lia. rewrite distance_from by lia. f_equal. lia.
  - apply distance_lost; lia.
Qed.

(** An object has as many members between [begin] and [end] as its size says; an array with
    holes has fewer elements. *)
Lemma object_distance m : zlen m <= maxInt ->
  operator_minus (default [] (entries (objectValue m))) (end_ (objectValue m)) (begin_ (objectValue m)) = Ok (size (objectValue m)).
Proof.
  intros Hm. set (es := map (fun kv : list byte * Value => (at_name kv.1 false, kv.2)) m).
  assert (length es = length m) as El by apply length_map. unfold zlen in Hm.
  destruct (computeDistance_exact es 0 (length es)) as [E _]; [lia|lia|unfold zlen; lia|].
  transitivity (computeDistance es (iterator_at 0) (iterator_at (length es))); [done|]. rewrite E, decide_True by lia.
  cbn [size]. rewrite u32_small; [f_equal; unfold zlen; lia|]. unfold in_u32, maxInt, zlen in *. lia.
Qed.

Example array_distance :
  (v ← resize (arrayValue []) 3; mret (size v, operator_minus (default [] (entries v)) (end_ v) (begin_ v))) = Ok (3, Ok 1).
Proof. vm_compute. reflexivity. Qed.

(** ** Keys *)

Lemma map_lookup {A B} (f : A -> B) l i : map f l !! i = f <$> l !! i.
Proof. apply list_lookup_fmap. Qed.

(** What [key] says of an entry leads back to it: asked for that name or that index, the
    value answers with what the iterator refers to. *)
Theorem key_designates v i it_v : (match v with
                                   | objectValue m => OMap.sorted m /\ Forall (fun kv => zlen kv.1 < 2 ^ 30) m
                                   | arrayValue m => OMap.sorted m
                                   | _ => True
                                   end) ->
  deref (default [] (entries v)) (iterator_at i) = Ok it_v ->
  (exists n, key (default [] (entries v)) (iterator_at i) = Ok (stringValue n)
     /\ name (default [] (entries v)) (iterator_at i) = Ok n /\ const_key v n = Ok it_v)
  \/ (exists n, key (default [] (entries v)) (iterator_at i) = Ok (uintValue n)
     /\ index (default [] (entries v)) (iterator_at i) = Ok n /\ const_index v n = Ok it_v).
Proof.
  intros Hv Hd. unfold deref, key, name, index, memberName_end, entry in *. cbn [current_ iterator_at mbind option_bind] in *.
  destruct v as [| | | | | |m|m]; try done; cbn [entries default from_option id] in *; rewrite map_lookup in *.
  - right. destruct (m !! i) as [[n x]|] eqn:E; [|done]. injection Hd as <-. exists n. split_and!; [done|done|].
    apply list_elem_of_lookup_2, OMap.find_in in E; [|done]. unfold const_index, find_index. cbn. by rewrite E.
  - left. destruct Hv as [Hs Hl]. destruct (m !! i) as [[n x]|] eqn:E; [|done]. injection Hd as <-. exists n. split_and!; [done|done|].
    apply list_elem_of_lookup_2 in E. rewrite Forall_forall in Hl. specialize (Hl _ E). apply OMap.find_in in E; [|done].
    unfold const_key, find. cbn. rewrite Containers.CZString_short by done. by rewrite E.
Qed.

Lemma key_designates_witness :
  exists n, key (default [] (entries (objectValue [(bs "a", nullValue)]))) (iterator_at 0) = Ok (stringValue n)
    /\ const_key (objectValue [(bs "a", nullValue)]) n = Ok nullValue.
Proof.
  destruct (key_designates (objectValue [(bs "a", nullValue)]) 0 nullValue) as [(n & E & _ & F)|(n & E & _)];
    [split; [by repeat constructor|by repeat constructor]|done|by exists n|done].
Defined.

(** Increment and decrement undo each other inside the map. *)
Lemma decrement_increment m i : (i < length m)%nat ->
  (it ← increment m (iterator_at i); decrement it) = Ok (iterator_at i).
Proof. intros Hi. by rewrite increment_at. Qed.

End Iterators.
