(* ===== verification/JsonView.v ===== *)
(** * The view of JSON values

    The development reads a value as [Json.Value]: arrays are lists, objects are sequences of
    members in order.  The operations the agent uses on the
    representation of [Values] commute with this view, so that view is a refinement. *)
From Stdlib Require Import ZArith Lia.
From S2P Require Import Prelude OrderedMap Json Double Real JsonWriter Values Containers.

Module JsonView.
Import Values Containers.

Fixpoint view (v : Value) : Json.Value :=
  match v with
  | nullValue => Json.nullValue
  | intValue n => Json.intValue n
  | uintValue n => Json.uintValue n
  | realValue r => Json.realValue r
  | stringValue s => Json.stringValue s
  | booleanValue b => Json.booleanValue b
  | arrayValue m => Json.arrayValue (map (fun kv => view kv.2) m)
  | objectValue m => Json.objectValue (map (fun kv => (kv.1, view kv.2)) m)
  end.

Definition view_members (m : list (list byte * Value)) : Json.members := map (fun kv => (kv.1, view kv.2)) m.

Definition view_result (o : outcome Value) : outcome Json.Value := v ← o; mret (view v).

(** [v[key].append(x)]: the element goes into the value that [v[key]] refers to. *)
Definition append_at (v : Value) (key : list byte) (x : Value) : outcome Value :=
  '(y, v') ← resolveReference v key; y' ← append y x; assign v' key y'.

(** Arrays without holes, members in order, below a gigabyte. *)
Definition plain_map {K} (P : Value -> Prop) (m : list (K * Value)) : Prop := foldr (fun kv Q => P kv.2 /\ Q) True m.

Fixpoint plain (v : Value) : Prop :=
  match v with
  | arrayValue m => m = dense m.*2 /\ zlen m < 2 ^ 30 /\ plain_map plain m
  | objectValue m => OMap.sorted m /\ zlen m < 2 ^ 30 /\ Forall (fun kv => zlen kv.1 < 2 ^ 30) m /\ plain_map plain m
  | _ => True
  end.

(** ** Members *)

Lemma view_find k m : Json.find k (view_members m) = view <$> OMap.find k m.
Proof.
  induction m as [|[k' v] m IH]; [done|]. change (view_members ((k', v) :: m)) with ((k', view v) :: view_members m).
  cbn [Json.find OMap.find]. rewrite IH. case_bool_decide; case_decide; done.
Qed.

Lemma view_put k x m : Json.put k (view x) (view_members m) = view_members (OMap.put k x m).
Proof.
  induction m as [|[k' v] m IH]; [done|]. change (view_members ((k', v) :: m)) with ((k', view v) :: view_members m).
  cbn [Json.put OMap.put]. change (less k' k) with (Json.key_ltb k' k).
  destruct (Json.key_ltb k' k); [by rewrite IH|]. case_bool_decide; case_decide; done.
Qed.

Lemma plain_put {K} `{Key K} P k x (m : list (K * Value)) : P x -> plain_map P m -> plain_map P (OMap.put k x m).
Proof.
  intros Hx. induction m as [|[k' v] m IH]; cbn; [done|]. intros [Hv Hm]. case_match; cbn; [by split; [|apply IH]|].
  case_decide; by cbn.
Qed.

Lemma length_put {K} `{Key K} k x (m : list (K * Value)) : zlen (OMap.put k x m) <= zlen m + 1.
Proof.
  unfold zlen. induction m as [|[k' v] m IH]; cbn; [lia|]. case_match; cbn; [lia|]. case_decide; cbn; lia.
Qed.

Lemma keys_put k x (m : list (list byte * Value)) : zlen k < 2 ^ 30 ->
  Forall (fun kv => zlen kv.1 < 2 ^ 30) m -> Forall (fun kv => zlen kv.1 < 2 ^ 30) (OMap.put k x m).
Proof.
  intros Hk. induction m as [|[k' v] m IH]; cbn; intros Hm; [by apply Forall_singleton|].
  apply Forall_cons in Hm as [H1 Hm]. case_match; [apply Forall_cons; split; [done|by apply IH]|].
  case_decide; rewrite !Forall_cons; done.
Qed.

Lemma plain_find {K} `{Key K} P k x (m : list (K * Value)) : plain_map P m -> OMap.find k m = Some x -> P x.
Proof.
  induction m as [|[k' v] m IH]; cbn; [done|]. intros [Hv Hm]. case_decide; [by intros [= <-]|by apply IH].
Qed.

(** ** Arrays *)

Lemma view_dense i l : map (fun kv => view kv.2) (entries_from i l) = map view l.
Proof. revert i. induction l as [|x l IH]; intros i; cbn; [done|by rewrite IH]. Qed.

Lemma dense_values i l : (entries_from i l).*2 = l.
Proof. revert i. induction l as [|x l IH]; intros i; cbn; [done|by rewrite IH]. Qed.

Lemma plain_entries P i l : plain_map P (entries_from i l) <-> Forall P l.
Proof.
  revert i. induction l as [|x l IH]; intros i; cbn; [by split|]. unfold plain_map in *. rewrite IH, Forall_cons. done.
Qed.

Lemma plain_array l : zlen l < 2 ^ 30 -> Forall plain l -> plain (arrayValue (dense l)).
Proof.
  intros Hl Hf. cbn. unfold dense at 2 3 4. rewrite dense_values. split_and!; [done| |by apply plain_entries].
  unfold zlen. by rewrite entries_length.
Qed.

Lemma plain_array_inv m : plain (arrayValue m) -> exists l, m = dense l /\ zlen l < 2 ^ 30 /\ Forall plain l.
Proof.
  intros (E & Hl & Hp). exists m.*2. split; [done|]. rewrite E in Hl, Hp. unfold zlen, dense in *.
  rewrite entries_length in Hl. split; [done|]. by apply plain_entries in Hp.
Qed.

(** A value used as an array or as an object. *)
Lemma as_array_view v : plain v ->
  match as_array v with
  | Ok m => exists l, m = dense l /\ zlen l < 2 ^ 30 /\ Forall plain l
      /\ (view v = Json.arrayValue (map view l) \/ v = nullValue /\ l = [])
  | o => o = Throw json_logic_error
         /\ (forall l, view v <> Json.arrayValue l) /\ view v <> Json.nullValue
  end.
Proof.
  intros Hp. destruct v as [|n|n|r|s|b|m|m]; try (by split_and!); cbn.
  - exists []. split_and!; [done..|]. by right.
  - apply plain_array_inv in Hp as (l & -> & Hl & Hf). exists l. split_and!; [done..|]. left. cbn. unfold dense. by rewrite view_dense.
Qed.

Lemma as_object_view v : plain v ->
  match as_object v with
  | Ok m => Json.as_object (view v) = Ok (view_members m) /\ OMap.sorted m /\ zlen m < 2 ^ 30
      /\ Forall (fun kv => zlen kv.1 < 2 ^ 30) m /\ plain_map plain m
  | o => o = Throw json_logic_error /\ Json.as_object (view v) = Throw json_logic_error
  end.
Proof.
  intros Hp. destruct v as [|n|n|r|s|b|m|m]; done.
Qed.

(** ** The operations *)

Lemma assign_view v k x : plain v -> zlen k < 2 ^ 30 ->
  view_result (assign v k x) = Json.assign (view v) k (view x).
Proof.
  intros Hp Hk. pose proof (as_object_view v Hp) as W. unfold assign, Json.assign.
  destruct (as_object v) as [m| | |]; [|by destruct W as [[= ->] ->]..].
  destruct W as (-> & _). cbn. rewrite CZString_short by done. unfold view_result. cbn.
  do 2 f_equal. symmetry. apply view_put.
Qed.

Lemma at_key_view v k : plain v -> zlen k < 2 ^ 30 ->
  ('(x, v') ← resolveReference v k; mret (view x, view v')) = Json.at_key (view v) k.
Proof.
  intros Hp Hk. pose proof (as_object_view v Hp) as W. unfold resolveReference, Json.at_key.
  destruct (as_object v) as [m| | |]; [|by destruct W as [[= ->] ->]..].
  destruct W as (-> & _). cbn. rewrite CZString_short, view_find by done.
  destruct (OMap.find k m) as [y|]; cbn; [done|]. do 3 f_equal. symmetry. apply (view_put k nullValue).
Qed.

Lemma append_view v x : plain v -> view_result (append v x) = Json.append (view v) (view x).
Proof.
  intros Hp. pose proof (as_array_view v Hp) as W. unfold append.
  destruct (as_array v) as [m| | |].
  - destruct W as (l & -> & Hl & _ & Hv). cbn. change (map_end (dense l)) with (size (arrayValue (dense l))).
    rewrite dense_size, dense_end_absent, dense_put_end by (unfold zlen in *; lia). unfold view_result. cbn.
    unfold dense. rewrite view_dense, map_app. by destruct Hv as [-> | [-> ->]].
  - destruct W as ([= ->] & Ha & Hn). cbn. destruct (view v); try done. by destruct (Ha elems).
  - by destruct W.
  - by destruct W.
Qed.

Lemma put_put k x y (m : list (list byte * Value)) : OMap.put k y (OMap.put k x m) = OMap.put k y m.
Proof.
  assert (forall y (m : list (list byte * Value)), OMap.put k y ((k, x) :: m) = (k, y) :: m) as Hk.
  { intros z n. cbn [OMap.put]. rewrite less_irrefl. by case_decide. }
  induction m as [|[k' v] m IH]; [apply Hk|]. cbn [OMap.put].
  destruct (less k' k) eqn:E; [cbn [OMap.put]; by rewrite E, IH|]. case_decide; subst; apply Hk.
Qed.

Lemma append_at_view v k x : plain v -> zlen k < 2 ^ 30 ->
  view_result (append_at v k x) = Json.append_at (view v) k (view x).
Proof.
  intros Hp Hk. pose proof (as_object_view v Hp) as W. unfold append_at, resolveReference, Json.append_at.
  destruct (as_object v) as [m| | |]; [|by destruct W as [[= ->] ->]..].
  destruct W as (-> & _ & _ & _ & Hm). cbn. rewrite CZString_short, view_find by done.
  assert (plain (default nullValue (OMap.find k m))) as Hy.
  { destruct (OMap.find k m) as [y|] eqn:E; [exact (plain_find _ _ _ _ Hm E)|done]. }
  pose proof (append_view _ x Hy) as A. destruct (OMap.find k m) as [y|]; cbn in A |- *.
  - rewrite <- A. destruct (append y x) as [y'| | |]; try done. unfold assign, view_result. cbn. rewrite CZString_short by done.
    do 2 f_equal. symmetry. apply view_put.
  - unfold assign, view_result. cbn. rewrite CZString_short by done. rewrite put_put. do 2 f_equal. symmetry. apply (view_put k (arrayValue [(0, x)])).
Qed.

Lemma clear_view v : view_result (clear v) = Json.clear (view v).
Proof. by destruct v. Qed.

Lemma size_view v : plain v -> size v = Json.size (view v).
Proof.
  intros Hp. destruct v as [|n|n|r|s|b|m|m]; try done.
  - apply plain_array_inv in Hp as (l & -> & Hl & _). rewrite dense_size by lia. cbn. unfold dense, zlen.
    by rewrite view_dense, length_map.
  - destruct Hp as (_ & Hl & _). cbn. rewrite u32_small by (unfold zlen in *; word). unfold zlen. by rewrite length_map.
Qed.

Lemma const_key_view v k : plain v -> zlen k < 2 ^ 30 ->
  view_result (const_key v k) = Writer.const_at (view v) k.
Proof.
  intros Hp Hk. pose proof (as_object_view v Hp) as W. unfold const_key, find, Writer.const_at.
  destruct (as_object v) as [m| | |]; [|by destruct W as [[= ->] ->]..].
  destruct W as (-> & _). cbn. rewrite CZString_short, view_find by done. by destruct (OMap.find k m).
Qed.

Lemma assign_plain v k x v' : plain v -> plain x -> zlen k < 2 ^ 30 -> assign v k x = Ok v' ->
  (size v' < 2 ^ 30 -> plain v').
Proof.
  intros Hp Hx Hk E Hsz. pose proof (as_object_view v Hp) as W. unfold assign in E.
  destruct (as_object v) as [m| | |]; try done. injection E as <-. destruct W as (_ & Hs & Hl & Hf & Hm).
  rewrite CZString_short in * by done. pose proof (length_put k x m) as Hlen.
  cbn in Hsz. rewrite u32_small in Hsz by (unfold zlen in *; word). cbn.
  split_and!; [by apply OMap.put_keeps_sorted|done|by apply keys_put|by apply plain_put].
Qed.

Lemma append_plain v x v' : plain v -> plain x -> append v x = Ok v' -> (size v' < 2 ^ 30 -> plain v').
Proof.
  intros Hp Hx E Hsz. pose proof (as_array_view v Hp) as W. unfold append in E.
  destruct (as_array v) as [m| | |]; try done. destruct W as (l & -> & Hl & Hf & _). cbn in E.
  change (map_end (dense l)) with (size (arrayValue (dense l))) in E.
  rewrite dense_size, dense_end_absent, dense_put_end in E by lia. injection E as <-.
  rewrite dense_size in Hsz by (unfold zlen in *; rewrite length_app; cbn; lia).
  apply plain_array; [done|]. apply Forall_app. by split; [|apply Forall_singleton].
Qed.

Lemma append_at_plain v k x v' y : plain v -> plain x -> zlen k < 2 ^ 30 -> append_at v k x = Ok v' -> const_key v' k = Ok y ->
  (size v' < 2 ^ 30 -> size y < 2 ^ 30 -> plain v').
Proof.
  intros Hp Hx Hk E Ey Hs1 Hs2. unfold append_at in E.
  destruct (resolveReference v k) as [[z w]| | |] eqn:Er; try done. cbn in E.
  assert (plain z /\ (exists m, w = objectValue m /\ (as_object v = Ok m \/ exists m0, as_object v = Ok m0 /\ m = OMap.put k nullValue m0))) as [Hz (m & -> & Hw)].
  { pose proof (as_object_view v Hp) as W. unfold resolveReference in Er. destruct (as_object v) as [m| | |]; try done.
    destruct W as (_ & _ & _ & _ & Hm). cbn in Er. rewrite CZString_short in Er by done.
    destruct (OMap.find k m) as [u|] eqn:Ef; injection Er as <- <-; (split; [|by eauto 6]); [exact (plain_find _ _ _ _ Hm Ef)|done]. }
  destruct (append z x) as [z'| | |] eqn:Ea; try done. cbn in E.
  assert (assign v k z' = Ok v') as Eq.
  { unfold assign in *. cbn in E. rewrite CZString_short in * by done. destruct Hw as [-> | (m0 & -> & ->)]; [done|]. by rewrite put_put in E. }
  apply (assign_plain v k z' v' Hp); [|done..]. apply (append_plain z x z' Hz Hx Ea).
  unfold assign in Eq. destruct (as_object v) as [mv| | |] eqn:Eo; try done. injection Eq as <-.
  unfold const_key, find in Ey. cbn in Ey. rewrite CZString_short in Ey by done. rewrite OMap.find_of_put, decide_True in Ey by done.
  by injection Ey as ->.
Qed.

(** ** The properties *)

(** C34: the view of values is a refinement.  On values whose arrays have no holes, whose
    objects have their members in order, and with fewer than [2^30] entries each and keys
    shorter than [2^30] bytes, the operations of [Json]: assigning and reading members,
    appending to a value and to a member, clearing, the size, the tests of types, the conversion
    to bool and the text of a value, do on the representation what the view says, errors
    included.  The values that assigning and appending leave are of this kind again, as long as
    they have fewer than [2^30] entries. *)
Theorem json_view_refines v k x :
  plain v -> plain x -> zlen k < 2 ^ 30 ->
  view_result (assign v k x) = Json.assign (view v) k (view x)
  /\ ('(y, v') ← resolveReference v k; mret (view y, view v')) = Json.at_key (view v) k
  /\ view_result (const_key v k) = Writer.const_at (view v) k
  /\ view_result (append v x) = Json.append (view v) (view x)
  /\ view_result (append_at v k x) = Json.append_at (view v) k (view x)
  /\ view_result (clear v) = Json.clear (view v)
  /\ size v = Json.size (view v) /\ empty v = Json.empty (view v)
  /\ operator_bool v = Json.to_bool (view v)
  /\ isNull v = Json.isNull (view v) /\ isString v = Json.isString (view v)
  /\ isArray v = Json.isArray (view v) /\ isObject v = Json.isObject (view v)
  /\ asString v = Writer.asString (view v)
  /\ (forall v', assign v k x = Ok v' \/ append v x = Ok v' -> size v' < 2 ^ 30 -> plain v')
  /\ (forall v' y, append_at v k x = Ok v' -> const_key v' k = Ok y -> size v' < 2 ^ 30 -> size y < 2 ^ 30 -> plain v').
Proof.
  intros Hp Hx Hk. split_and!.
  - by apply assign_view.
  - by apply at_key_view.
  - by apply const_key_view.
  - by apply append_view.
  - by apply append_at_view.
  - apply clear_view.
  - by apply size_view.
  - unfold empty, Json.empty. rewrite (size_view v Hp). by destruct v.
  - by destruct v.
  - by destruct v.
  - by destruct v.
  - by destruct v.
  - by destruct v.
  - by destruct v.
  - intros v' [E|E]; [exact (assign_plain v k x v' Hp Hx Hk E)|exact (append_plain v x v' Hp Hx E)].
  - intros v' y E Ey. exact (append_at_plain v k x v' y Hp Hx Hk E Ey).
Qed.

(** ** Witnesses *)

Definition sample_root : Value := objectValue [(bs "event", arrayValue [(0, intValue 1)])].

Lemma json_view_refines_witness :
  let k := bs "sp" in
  let x := stringValue (bs "x") in
  let v := sample_root in
  view_result (assign v k x) = Json.assign (view v) k (view x)
  /\ ('(y, v') ← resolveReference v k; mret (view y, view v')) = Json.at_key (view v) k
  /\ view_result (const_key v k) = Writer.const_at (view v) k
  /\ view_result (append v x) = Json.append (view v) (view x)
  /\ view_result (append_at v k x) = Json.append_at (view v) k (view x)
  /\ view_result (clear v) = Json.clear (view v)
  /\ size v = Json.size (view v) /\ empty v = Json.empty (view v)
  /\ operator_bool v = Json.to_bool (view v)
  /\ isNull v = Json.isNull (view v) /\ isString v = Json.isString (view v)
  /\ isArray v = Json.isArray (view v) /\ isObject v = Json.isObject (view v)
  /\ asString v = Writer.asString (view v)
  /\ (forall v', assign v k x = Ok v' \/ append v x = Ok v' -> size v' < 2 ^ 30 -> plain v')
  /\ (forall v' y, append_at v k x = Ok v' -> const_key v' k = Ok y -> size v' < 2 ^ 30 -> size y < 2 ^ 30 -> plain v').
Proof.
  apply (json_view_refines sample_root (bs "sp") (stringValue (bs "x"))).
  - split; [split; [constructor|exact I]|]. split; [reflexivity|].
    split; [apply Forall_singleton; reflexivity|]. split; [|exact I]. split; [reflexivity|]. by split.
  - exact I.
  - reflexivity.
Defined.

End JsonView.
