(* ===== verification/Precision.v ===== *)
(** * Doubles under the settings of a writer

    A writer prints doubles with the precision its settings give: a number of significant
    digits or of decimal places ([Real.valueToString]).  The file shows how far the printed
    number is from the double, which is what the settings cost a round trip. *)
From Stdlib Require Import ZArith Lia QArith Qpower Lqa.
From Stdlib Require Strings.Byte.
From S2P Require Import Prelude Json Double Real DoubleRound JsonWriter.

Module Precision.
Import Double DoubleRound.
Open Scope Z_scope.

(** ** Decimal places *)

(** The zeros at the end of a fraction go, all but the one behind the point. *)
Lemma fix_zeros_rev_spec g a : digits g -> g <> [] ->
  exists j g', g = replicate j Byte.x30 ++ g' /\ g' <> [] /\ fix_zeros_rev (g ++ Byte.x2e :: a) = g' ++ Byte.x2e :: a.
Proof.
  intros Hg. induction Hg as [|b g Hb Hg IH]; [done|]. intros _. cbn [app fix_zeros_rev].
  case_bool_decide as Eb; cbn [negb]; [|by exists O, (b :: g)]. subst b. destruct Hg as [|c g Hc Hg].
  - exists O, [Byte.x30]. done.
  - cbn [app]. rewrite (bool_decide_eq_false_2 (c = Byte.x2e)) by (by intros ->).
    destruct IH as (j & g' & E & Hne & Ef); [done|]. exists (S j), g'. cbn [replicate app]. by rewrite <- E.
Qed.

Lemma fixZeros_text neg w f : digits w -> digits f -> f <> [] ->
  exists f', fixZerosInTheEnd (text neg w f None) = text neg w f' None /\ f' <> [] /\ digits f' /\ zlen f' <= zlen f
    /\ (text_value w f' None == text_value w f None)%Q.
Proof.
  intros Hw Hf Hne. unfold fixZerosInTheEnd, text. set (s := if neg then bs "-" else []).
  destruct (fix_zeros_rev_spec (rev f) (rev w ++ rev s)) as (j & g & Eg & Hg & Ef).
  { by apply Forall_rev. } { intros E. apply (f_equal (@rev byte)) in E. by rewrite rev_involutive in E. }
  assert (f = rev g ++ replicate j Byte.x30) as Efr.
  { rewrite <- (rev_involutive f), Eg, rev_app_distr. by rewrite rev_zeros. }
  exists (rev g). assert (rev g <> []) as Hne' by (intros E; apply (f_equal (@rev byte)) in E; by rewrite rev_involutive in E).
  assert (forall h, h <> [] -> point h = Byte.x2e :: h) as Ep by by intros [].
  assert (zlen f = zlen (rev g) + Z.of_nat j) as El by (rewrite Efr at 1; rewrite zlen_app; unfold zlen at 2; by rewrite length_replicate).
  split_and!; [|done| |lia|].
  - rewrite !Ep, !app_nil_r by done. rewrite !rev_app_distr. cbn [rev]. rewrite <- !app_assoc. cbn [app]. rewrite Ef.
    rewrite !rev_app_distr. cbn [rev]. rewrite rev_app_distr, !rev_involutive, <- !app_assoc. done.
  - rewrite Efr in Hf. by apply Forall_app in Hf as [? _].
  - unfold text_value. rewrite El, Efr, app_assoc, (number_of_app (w ++ rev g)), number_of_zeros, Z.add_0_r, inject_Z_mult.
    assert (zlen (replicate j Byte.x30) = Z.of_nat j) as -> by (unfold zlen; by rewrite length_replicate).
    rewrite <- pow_Z, <- Qmult_assoc, <- pow_add by lia. do 2 f_equiv. lia.
Qed.

Lemma integer_digits_spec v : 0 <= v < 10 ^ 400 ->
  digits (integer_digits v) /\ integer_digits v <> [] /\ number_of (integer_digits v) = v.
Proof.
  intros Hv. unfold integer_digits. destruct (decimal_digits_spec 400 v ltac:(lia)) as (Hd & _ & Hn).
  destruct (strip_zeros_rev_spec (decimal_digits 400 v)) as [j E]. set (l := strip_zeros_rev _) in *. rewrite E in Hd, Hn.
  rewrite number_of_app, number_of_zeros in Hn. change (Z.of_nat 400) with 400 in Hn. rewrite Z.mod_small in Hn by done.
  apply Forall_app in Hd as [_ Hd]. destruct l as [|b l]; [|split_and!; [done|done|lia]].
  split_and!; [by constructor|done|]. change (number_of (bs "0")) with 0. change (number_of []) with 0 in Hn. lia.
Qed.

Lemma canonical_mant v : canonical v -> 0 <= mant v.
Proof. intros [[-> _]|[[? _] _]]; lia. Qed.

Lemma canonical_size v : canonical v -> (0 <= magnitude v < pow 2 1024)%Q.
Proof.
  unfold magnitude. intros [[-> ->]|[Hv He]]; [by vm_compute|]. pose proof (size_bounds _ _ Hv He) as [H1 H2].
  pose proof (pow_pos 2 (-1074) ltac:(lia)). lra.
Qed.

Lemma printf_f_text precision v : 0 < precision -> canonical v ->
  exists whole f, printf_f precision v = text (sign v) whole f None /\ well_formed whole f None /\ zlen f = precision
    /\ within (pow 10 (- precision)) (magnitude v) (text_value whole f None).
Proof.
  intros Hp Hc. pose proof (canonical_size v Hc) as [V0 V1]. pose proof (ratio_spec v (canonical_mant v Hc)) as R. fold (magnitude v) in R.
  unfold printf_f. destruct (ratio v) as [n d]. destruct R as (Hd & _ & Hn & E).
  set (q := round_even (n * 10 ^ precision) d). pose proof (Z.pow_pos_nonneg 10 precision ltac:(lia) ltac:(lia)) as Pp.
  pose proof (round_even_spec (n * 10 ^ precision) d Hd) as [Q1 Q2]. fold q in Q1, Q2.
  assert (frac (n * 10 ^ precision) d == magnitude v * inject_Z (10 ^ precision))%Q as Ef.
  { rewrite <- E. unfold frac. rewrite inject_Z_mult. field. by apply base_ne. }
  rewrite Ef in Q1, Q2. pose proof (inject_pos _ Pp) as Pq.
  assert (0 <= q) as Hq0.
  { pose proof (Qmult_le_0_compat _ _ V0 (Qlt_le_weak _ _ Pq)). assert (inject_Z (-1) < inject_Z q)%Q as L by (change (inject_Z (-1)) with (-1)%Q; lra).
    apply (inject_lt (-1) q) in L. lia. }
  assert (q < 10 ^ 400 * 10 ^ precision) as Hq1.
  { assert (inject_Z q < inject_Z (10 ^ 400 * 10 ^ precision))%Q as L; [|by apply inject_lt in L]. rewrite inject_Z_mult.
    assert (2 * pow 2 1024 <= inject_Z (10 ^ 400))%Q as B by by vm_compute. pose proof (pow_pos 2 1024 ltac:(lia)).
    assert (magnitude v + 1 <= inject_Z (10 ^ 400))%Q as B1. { assert (1 <= pow 2 1024)%Q by (by vm_compute). lra. }
    apply (Qmult_le_compat_r _ _ (inject_Z (10 ^ precision))) in B1; [|lra].
    assert (1 <= inject_Z (10 ^ precision))%Q by (change 1%Q with (inject_Z 1); rewrite <- Zle_Qle; lia). lra. }
  pose proof (Z.div_mod q (10 ^ precision) ltac:(lia)) as Dm. pose proof (Z.mod_pos_bound q (10 ^ precision) Pp) as Mb.
  destruct (integer_digits_spec (q / 10 ^ precision)) as (W1 & W2 & W3).
  { split; [by apply Z.div_pos|]. apply Z.div_lt_upper_bound; lia. }
  destruct (decimal_digits_spec (Z.to_nat precision) (q mod 10 ^ precision) ltac:(lia)) as (F1 & F2 & F3). rewrite Z2Nat.id, Z.mod_mod in F3 by lia.
  set (w := integer_digits _) in *. set (f := decimal_digits _ _) in *. exists w, f. assert (zlen f = precision) as El by (unfold zlen; lia).
  split_and!; [|by split_and!|done|].
  - rewrite (proj2 (Z.eqb_neq precision 0)) by lia. unfold text, point. clearbody f. destruct f; [change (zlen []) with 0 in El; lia|]. by rewrite app_nil_r.
  - assert (text_value w f None == inject_Z q * pow 10 (- precision))%Q as Et.
    { unfold text_value. rewrite number_of_app, W3, F3, El. replace (q / 10 ^ precision * 10 ^ precision + q mod 10 ^ precision) with q by lia. done. }
    assert (inject_Z (10 ^ precision) * pow 10 (- precision) == 1)%Q as E1 by (rewrite <- pow_Z, <- pow_add by lia; by rewrite Z.add_opp_diag_r).
    pose proof (pow_pos 10 (- precision) ltac:(lia)) as Pu. unfold within. rewrite Et. set (u := pow 10 (- precision)) in *.
    apply (Qmult_le_compat_r _ _ u) in Q1, Q2; try lra.
    assert (magnitude v * inject_Z (10 ^ precision) * u == magnitude v)%Q as E2 by (rewrite <- Qmult_assoc, E1; ring).
    split; lra.
Qed.

(** How far the text is from the double: with decimal places, at least one of them, at most
    half a unit of the last place; with significant digits at most half a unit that has that
    many digits less than the double.  In both cases the text is a decimal number with a point
    or an exponent. *)
Theorem real_text_close precision v : 1 <= precision -> canonical v ->
  (exists whole f, valueToString_with precision false v = text (sign v) whole f None /\ well_formed whole f None /\ f <> []
     /\ zlen f <= precision /\ within (pow 10 (- precision)) (magnitude v) (text_value whole f None))
  /\ (exists whole f y u, valueToString_with precision true v = text (sign v) whole f y /\ well_formed whole f y /\ marked f y
     /\ (inject_Z (10 ^ (precision - 1)) * u <= magnitude v)%Q /\ (0 <= u)%Q /\ within u (magnitude v) (text_value whole f y)).
Proof.
  intros Hp Hc. split.
  - destruct (printf_f_text precision v ltac:(lia) Hc) as (w & f & E & Hw & Hl & Hv). unfold valueToString_with. rewrite E.
    rewrite text_no_comma by done. cbn [negb]. destruct Hw as (W1 & W2 & W3 & _).
    destruct (fixZeros_text (sign v) w f W1 W3) as (f' & -> & F1 & F2 & F3 & F4); [intros ->; change (zlen []) with 0 in Hl; lia|].
    exists w, f'. split_and!; [|by split_and!|done|lia|unfold within in *; by rewrite F4].
    assert (text (sign v) w f' None = ((if sign v then bs "-" else []) ++ w) ++ Byte.x2e :: f') as ->.
    { unfold text, point. destruct f'; [done|]. by rewrite app_nil_r, <- app_assoc. }
    rewrite existsb_app. cbn [existsb]. rewrite orb_true_r. done.
  - destruct Hc as [[Hm He]|[Hv He]].
    + assert (magnitude v == 0)%Q as E0 by (unfold magnitude; rewrite Hm; ring).
      exists (bs "0"), (bs "0"), None, 0%Q. split_and!; [by rewrite zero_text_with| |by left|rewrite E0; lra|lra|unfold within; rewrite E0; by vm_compute].
      split_and!; try done; by constructor.
    + destruct (print_text_with precision v Hp Hv He) as (w & f & y & E & Hw & Hk & u & U1 & U2 & U3 & U4).
      exists w, f, y, u. split_and!; [done..|lra|by split].
Qed.

(** ** Examples *)

Definition config (special : bool) (precision : Z) (significantDigits : bool) : Writer.Config :=
  Writer.mkConfig 74 [] false (bs ":") (bs "null") [] special false precision significantDigits.

(** 2/3, 100, an infinity and NaN with three digits, three places and no places; the last
    loses the zeros of 100. *)
Example settings_of_doubles :
  let d n e := Json.realValue (Real.finite (mkDouble false n e)) in
  let v := Json.arrayValue [d 6004799503160661 (-53); d 7036874417766400 (-46); Json.realValue (Real.infinite true);
                            Json.realValue Real.nan] in
  [Writer.write (config true 3 true) v; Writer.write (config false 3 false) v; Writer.write (config false 0 false) v]
  = map (fun t => Ok (bs t)) ["[0.667,100.0,-Infinity,NaN]"; "[0.667,100.0,-1e+9999,null]"; "[1.0,1.0,-1e+9999,null]"]%string.
Proof. vm_compute. reflexivity. Qed.

(** 2/3 with three decimal places and with three digits. *)
Lemma real_text_close_witness : let v := mkDouble false 6004799503160661 (-53) in
  (exists whole f, valueToString_with 3 false v = text (sign v) whole f None /\ well_formed whole f None /\ f <> []
     /\ zlen f <= 3 /\ within (pow 10 (- 3)) (magnitude v) (text_value whole f None))
  /\ (exists whole f y u, valueToString_with 3 true v = text (sign v) whole f y /\ well_formed whole f y /\ marked f y
     /\ (inject_Z (10 ^ (3 - 1)) * u <= magnitude v)%Q /\ (0 <= u)%Q /\ within u (magnitude v) (text_value whole f y)).
Proof. apply (real_text_close 3 (mkDouble false 6004799503160661 (-53))); [lia|]. right. split; [split_and!; cbn; lia|cbn; lia]. Defined.

End Precision.
