(* ===== verification/TraceNode.v ===== *)
(** * Trace nodes: [NodePool::TraceNode] and [Context::ContextType]
      (common/src/NodePool/TraceNode.h, TraceNode.cpp; common/src/Context/ContextType.h)

    A trace node is one timed call.  Its payload is a JSON object; a root node also has
    the bookkeeping of its trace ([RootTraceNodeExtra]). *)
From Stdlib Require Import ZArith Lia.
From Stdlib Require Strings.Byte.
From S2P Require Import Prelude Json CLib.

Module Node.
Import Json CLib.

(** ** Constants (common.h) *)

Definition E_INVALID_NODE : Z := -1.
Definition E_ROOT_NODE : Z := 0.
Definition E_OFFLINE : Z := 1.
Definition E_TRACE_PASS : Z := 2.
Definition E_TRACE_BLOCK : Z := 4.
Definition E_LOC_CURRENT : Z := 0.
Definition E_LOC_ROOT : Z := 1.

(** ** Data *)

(** The subclasses of [ContextType]. *)
Inductive ContextType :=
| StringContextType (value : list byte)
| LongContextType (l : Z).

(** Methods a subclass does not override throw [std::logic_error]. *)
Definition asStringValue (c : ContextType) : outcome (list byte) :=
  match c with StringContextType v => mret v | LongContextType _ => Throw logic_error end.
Definition asLongValue (c : ContextType) : outcome Z :=
  match c with LongContextType l => mret l | StringContextType _ => Throw logic_error end.

(** The callbacks [parseUserOption] registers. *)
Inductive UserOption :=
| TraceMinTimeMs (min : Z)
| TraceOnlyException.

(** [RootTraceNodeExtra]; its members [next] and [context_map] are never used. *)
Record RootTraceNodeExtra := mkExtra {
  last : Z;
  status : Z;
  sequence : Z
}.

Definition new_extra : RootTraceNodeExtra := mkExtra E_INVALID_NODE E_TRACE_PASS 0.

Record TraceNode := mkNode {
  root_node_extra_ptr_ : option RootTraceNodeExtra;
  root_id_ : Z;
  parent_id_ : Z;
  id_ : Z;
  next_ : Z;
  depth_ : Z;
  sequence_ : Z;
  trace_start_time_ : Z;
  pre_trace_time_ : Z;
  expired_time_ : Z;
  set_exp_ : bool;
  reference_count_ : Z;
  value_ : Value;
  context_map_ : gmap (list byte) ContextType;
  user_optional_setting_func_ : list UserOption;
  skipped_ : bool
}.

(** [TraceNode()]; [reference_count_] is set by [Reset] before its first use. *)
Definition new_TraceNode : TraceNode :=
  mkNode None E_INVALID_NODE E_INVALID_NODE E_INVALID_NODE E_INVALID_NODE 1 (-1) 0 0 (-1) false 0
    nullValue ∅ [] false.

Definition set_extra (n : TraceNode) (x : option RootTraceNodeExtra) : TraceNode :=
  mkNode x (root_id_ n) (parent_id_ n) (id_ n) (next_ n) (depth_ n) (sequence_ n)
    (trace_start_time_ n) (pre_trace_time_ n) (expired_time_ n) (set_exp_ n) (reference_count_ n)
    (value_ n) (context_map_ n) (user_optional_setting_func_ n) (skipped_ n).

(** Root, parent, next, depth and sequence. *)
Definition set_links (n : TraceNode) (r p nx d s : Z) : TraceNode :=
  mkNode (root_node_extra_ptr_ n) r p (id_ n) nx d s
    (trace_start_time_ n) (pre_trace_time_ n) (expired_time_ n) (set_exp_ n) (reference_count_ n)
    (value_ n) (context_map_ n) (user_optional_setting_func_ n) (skipped_ n).

Definition set_times (n : TraceNode) (start pre expired : Z) : TraceNode :=
  mkNode (root_node_extra_ptr_ n) (root_id_ n) (parent_id_ n) (id_ n) (next_ n) (depth_ n)
    (sequence_ n) start pre expired (set_exp_ n) (reference_count_ n)
    (value_ n) (context_map_ n) (user_optional_setting_func_ n) (skipped_ n).

Definition set_exp (n : TraceNode) (b : bool) : TraceNode :=
  mkNode (root_node_extra_ptr_ n) (root_id_ n) (parent_id_ n) (id_ n) (next_ n) (depth_ n)
    (sequence_ n) (trace_start_time_ n) (pre_trace_time_ n) (expired_time_ n) b
    (reference_count_ n) (value_ n) (context_map_ n) (user_optional_setting_func_ n) (skipped_ n).

Definition set_refs (n : TraceNode) (c : Z) : TraceNode :=
  mkNode (root_node_extra_ptr_ n) (root_id_ n) (parent_id_ n) (id_ n) (next_ n) (depth_ n)
    (sequence_ n) (trace_start_time_ n) (pre_trace_time_ n) (expired_time_ n) (set_exp_ n) c
    (value_ n) (context_map_ n) (user_optional_setting_func_ n) (skipped_ n).

Definition set_value (n : TraceNode) (v : Value) : TraceNode :=
  mkNode (root_node_extra_ptr_ n) (root_id_ n) (parent_id_ n) (id_ n) (next_ n) (depth_ n)
    (sequence_ n) (trace_start_time_ n) (pre_trace_time_ n) (expired_time_ n) (set_exp_ n)
    (reference_count_ n) v (context_map_ n) (user_optional_setting_func_ n) (skipped_ n).

Definition set_context (n : TraceNode) (m : gmap (list byte) ContextType) : TraceNode :=
  mkNode (root_node_extra_ptr_ n) (root_id_ n) (parent_id_ n) (id_ n) (next_ n) (depth_ n)
    (sequence_ n) (trace_start_time_ n) (pre_trace_time_ n) (expired_time_ n) (set_exp_ n)
    (reference_count_ n) (value_ n) m (user_optional_setting_func_ n) (skipped_ n).

Definition set_options (n : TraceNode) (o : list UserOption) (skipped : bool) : TraceNode :=
  mkNode (root_node_extra_ptr_ n) (root_id_ n) (parent_id_ n) (id_ n) (next_ n) (depth_ n)
    (sequence_ n) (trace_start_time_ n) (pre_trace_time_ n) (expired_time_ n) (set_exp_ n)
    (reference_count_ n) (value_ n) (context_map_ n) o skipped.

(** ** Operations *)

(** [AddAnnotation(key, v)]: the overloads differ in the [Value] they build. *)
Definition AddAnnotation (n : TraceNode) (key : list byte) (v : Value) : outcome TraceNode :=
  x ← assign (value_ n) key v; mret (set_value n x).

(** [AppendAnnotation(key, v)] *)
Definition AppendAnnotation (n : TraceNode) (key : list byte) (v : Value) : outcome TraceNode :=
  x ← append_at (value_ n) key v; mret (set_value n x).

(** [TraceNode::Reset]; [depth_], [sequence_] and [skipped_] keep their values. *)
Definition Reset (n : TraceNode) (id : Z) : outcome TraceNode :=
  v ← clear (value_ n);
  mret (mkNode None E_INVALID_NODE E_INVALID_NODE id E_INVALID_NODE (depth_ n) (sequence_ n)
          0 0 (-1) false 0 v ∅ [] (skipped_ n)).

Definition UpgradeToRootNode (n : TraceNode) (agent_type : Z) : outcome TraceNode :=
  let n1 := set_links (set_extra n (Some new_extra)) (id_ n) (id_ n) E_INVALID_NODE 0 0 in
  AddAnnotation n1 (bs ":FT") (intValue agent_type).

(** [now] is [get_unix_time_ms()]. *)
Definition StartTrace (n : TraceNode) (now : Z) : TraceNode :=
  set_times n now (pre_trace_time_ n) (expired_time_ n).

Definition EndTrace (n : TraceNode) (now : Z) : outcome TraceNode :=
  let n1 := set_times n (trace_start_time_ n) (pre_trace_time_ n)
              (i64 (u64 (now - trace_start_time_ n))) in
  n2 ← AddAnnotation n1 (bs ":E") (intValue (expired_time_ n1));
  n3 ← AddAnnotation n2 (bs ":S") (uintValue (u64 (trace_start_time_ n2 - pre_trace_time_ n2)));
  n4 ← (if set_exp_ n3 then AddAnnotation n3 (bs "EA") (intValue 1) else Ok n3);
  match root_node_extra_ptr_ n4 with
  | None =>
      n5 ← AddAnnotation n4 (bs ":seq") (intValue (sequence_ n4));
      AddAnnotation n5 (bs ":depth") (intValue (depth_ n5))
  | Some _ => mret n4
  end.

Definition BindParentTrace (n parent : TraceNode) : TraceNode :=
  set_links n (root_id_ n) (id_ parent) (next_ n) (i32 (depth_ parent + 1)) (sequence_ n).

Definition IsRootNode (n : TraceNode) : bool := root_id_ n =? id_ n.

Definition setContext (n : TraceNode) (key buf : list byte) : TraceNode :=
  set_context n (<[key := StringContextType buf]> (context_map_ n)).

Definition setContext_long (n : TraceNode) (key : list byte) (l : Z) : TraceNode :=
  set_context n (<[key := LongContextType l]> (context_map_ n)).

(** [context_map_.at(key)] throws [std::out_of_range]. *)
Definition getContext (n : TraceNode) (key : list byte) : outcome (list byte) :=
  match context_map_ n !! key with Some c => asStringValue c | None => Throw out_of_range end.

Definition getContext_long (n : TraceNode) (key : list byte) : outcome Z :=
  match context_map_ n !! key with Some c => asLongValue c | None => Throw out_of_range end.

Definition addReference (n : TraceNode) : TraceNode := set_refs n (i32 (reference_count_ n + 1)).
Definition decReference (n : TraceNode) : TraceNode := set_refs n (i32 (reference_count_ n - 1)).
Definition IsNotReference (n : TraceNode) : bool := reference_count_ n =? 0.

(** *** User options *)

Definition parseUserOption (n : TraceNode) (key value : list byte) : outcome TraceNode :=
  if bool_decide (key = bs "TraceMinTimeMs") then
    min ← stoll value;
    mret (set_options n (user_optional_setting_func_ n ++ [TraceMinTimeMs min]) (skipped_ n))
  else if bool_decide (key = bs "TraceOnlyException") then
    mret (set_options n (user_optional_setting_func_ n ++ [TraceOnlyException]) (skipped_ n))
  else mret n.

(** [setNodeUserOption(opt, args)]: [opts] are the C strings up to the null pointer.
    The node the options before a failing one were added to is kept. *)
Fixpoint setNodeUserOption (opts : list (list byte)) : M TraceNode unit :=
  match opts with
  | [] => mret tt
  | var :: opts' =>
      n ← get;
      n' ← lift (match split_at Byte.x3a var with
                 | None => parseUserOption n var []
                 | Some (key, value) => parseUserOption n key value
                 end);
      _ ← modify (fun _ => n');
      setNodeUserOption opts'
  end.

(** One registered callback. *)
Definition run_option (o : UserOption) (n : TraceNode) : bool * TraceNode :=
  match o with
  | TraceMinTimeMs min =>
      if min <=? expired_time_ n then (true, n)
      else (false, set_options n (user_optional_setting_func_ n) true)
  | TraceOnlyException =>
      (set_exp_ n, set_options n (user_optional_setting_func_ n) (negb (set_exp_ n)))
  end.

Fixpoint run_options (os : list UserOption) (ret : bool) (n : TraceNode) : bool * TraceNode :=
  match os with
  | [] => (ret, n)
  | o :: os' =>
      let '(b, n') := run_option o n in
      if b then (b, n') else run_options os' b n'
  end.

Definition runUserOptionFunc (n : TraceNode) : bool * TraceNode :=
  run_options (user_optional_setting_func_ n) true n.

(** *** Root bookkeeping; a node without it has a null pointer here *)

Definition GetLastNode (n : TraceNode) : outcome Z :=
  match root_node_extra_ptr_ n with Some x => mret (last x) | None => UB end.

Definition SetLastNode (n : TraceNode) (l : Z) : outcome TraceNode :=
  match root_node_extra_ptr_ n with
  | Some x => mret (set_extra n (Some (mkExtra l (status x) (sequence x))))
  | None => UB
  end.

Definition SetStatus (n : TraceNode) (s : Z) : outcome TraceNode :=
  match root_node_extra_ptr_ n with
  | Some x => mret (set_extra n (Some (mkExtra (last x) s (sequence x))))
  | None => UB
  end.

Definition GetStatus (n : TraceNode) : outcome Z :=
  match root_node_extra_ptr_ n with Some x => mret (status x) | None => UB end.

(** [return sequence++], on an atomic [int32_t] *)
Definition CreateNewSequence (n : TraceNode) : outcome (Z * TraceNode) :=
  match root_node_extra_ptr_ n with
  | Some x => mret (sequence x, set_extra n (Some (mkExtra (last x) (status x) (i32 (sequence x + 1)))))
  | None => UB
  end.

(** ** The payload *)

(** The annotations of a node; its payload is an object in order, or still null. *)
Definition payload (n : TraceNode) : members :=
  match value_ n with objectValue m => m | _ => [] end.

Definition payload_ok (n : TraceNode) : Prop :=
  as_object (value_ n) = Ok (payload n) /\ sorted (payload n).

Lemma payload_ok_iff n :
  payload_ok n <-> value_ n = nullValue \/ exists m, value_ n = objectValue m /\ sorted m.
Proof.
  unfold payload_ok, payload. split.
  - destruct (value_ n); intros [E Hs]; try done; [by left|right; eauto].
  - intros [->|(m & -> & Hs)]; [split; [done|constructor]|done].
Qed.

(** Everything but the payload. *)
Definition same_meta (n n' : TraceNode) : Prop := n' = set_value n (value_ n').

Lemma AddAnnotation_ok n key v : payload_ok n ->
  AddAnnotation n key v = Ok (set_value n (objectValue (put key v (payload n))))
  /\ payload_ok (set_value n (objectValue (put key v (payload n)))).
Proof.
  intros [E Hs]. unfold AddAnnotation, assign. rewrite E. split; [done|].
  split; [done|]. by apply put_sorted.
Qed.

(** The members [EndTrace] writes, in the order it writes them. *)
Definition end_members (n : TraceNode) (now : Z) : list (list byte * Value) :=
  [(bs ":E", intValue (i64 (u64 (now - trace_start_time_ n))));
   (bs ":S", uintValue (u64 (trace_start_time_ n - pre_trace_time_ n)))]
  ++ (if set_exp_ n then [(bs "EA", intValue 1)] else [])
  ++ match root_node_extra_ptr_ n with
     | None => [(bs ":seq", intValue (sequence_ n)); (bs ":depth", intValue (depth_ n))]
     | Some _ => []
     end.

Definition put_all (l m : list (list byte * Value)) : list (list byte * Value) :=
  foldl (fun m kv => put (fst kv) (snd kv) m) m l.

Lemma put_all_sorted l : forall m, sorted m -> sorted (put_all l m).
Proof. induction l as [|kv l IH]; intros m Hs; [done|]. apply IH. by apply put_sorted. Qed.

Lemma EndTrace_ok n now : payload_ok n ->
  EndTrace n now
  = Ok (set_value (set_times n (trace_start_time_ n) (pre_trace_time_ n)
                     (i64 (u64 (now - trace_start_time_ n))))
          (objectValue (put_all (end_members n now) (payload n)))).
Proof.
  intros Hp. unfold EndTrace, end_members, put_all.
  set (n1 := set_times n _ _ _). assert (payload_ok n1) as Hp1 by done.
  destruct (AddAnnotation_ok n1 (bs ":E") (intValue (expired_time_ n1)) Hp1) as [-> Hp2].
  cbn [mbind outcome_bind]. set (n2 := set_value n1 _) in *.
  destruct (AddAnnotation_ok n2 (bs ":S") (uintValue (u64 (trace_start_time_ n2 - pre_trace_time_ n2))) Hp2)
    as [-> Hp3].
  cbn [mbind outcome_bind]. set (n3 := set_value n2 _) in *.
  change (set_exp_ n3) with (set_exp_ n). destruct (set_exp_ n).
  - destruct (AddAnnotation_ok n3 (bs "EA") (intValue 1) Hp3) as [-> Hp4]. cbn [mbind outcome_bind].
    set (n4 := set_value n3 _) in *. change (root_node_extra_ptr_ n4) with (root_node_extra_ptr_ n).
    destruct (root_node_extra_ptr_ n) eqn:Ex; [done|].
    destruct (AddAnnotation_ok n4 (bs ":seq") (intValue (sequence_ n4)) Hp4) as [-> Hp5]. cbn [mbind outcome_bind].
    set (n5 := set_value n4 _) in *.
    by destruct (AddAnnotation_ok n5 (bs ":depth") (intValue (depth_ n5)) Hp5) as [-> _].
  - cbn [mbind outcome_bind]. change (root_node_extra_ptr_ n3) with (root_node_extra_ptr_ n).
    destruct (root_node_extra_ptr_ n) eqn:Ex; [done|].
    destruct (AddAnnotation_ok n3 (bs ":seq") (intValue (sequence_ n3)) Hp3) as [-> Hp5]. cbn [mbind outcome_bind].
    set (n5 := set_value n3 _) in *.
    by destruct (AddAnnotation_ok n5 (bs ":depth") (intValue (depth_ n5)) Hp5) as [-> _].
Qed.

Lemma find_put_all l : NoDup (fst <$> l) -> forall m key,
  find key (put_all l m) = match find key l with Some v => Some v | None => find key m end.
Proof.
  induction l as [|[k v] l IH]; intros Hd m key; [done|].
  rewrite fmap_cons in Hd. apply NoDup_cons in Hd as [Hn Hd]. cbn [put_all foldl fst snd]. fold (put_all l).
  change (foldl _ (put k v m) l) with (put_all l (put k v m)).
  rewrite IH, find_put by done. cbn [find]. case_bool_decide as E; [|done]. subst key.
  assert (find k l = None) as ->; [|done]. clear -Hn. induction l as [|[k' v'] l IHl]; [done|].
  rewrite fmap_cons in Hn. apply not_elem_of_cons in Hn as [Hne Hn]. cbn.
  rewrite bool_decide_eq_false_2 by done. by apply IHl.
Qed.

Lemma end_members_NoDup n now : NoDup (fst <$> end_members n now).
Proof.
  unfold end_members. destruct (set_exp_ n), (root_node_extra_ptr_ n); cbn;
    repeat (apply NoDup_cons; split; [|]); try apply NoDup_nil_2;
    rewrite ?not_elem_of_cons; split_and?; try done; apply not_elem_of_nil.
Qed.

(** ** Theorems *)

(** Ending a node reports its times.  On any node whose payload is an object,
    [EndTrace] never throws; it records the elapsed milliseconds, writes ":E", ":S",
    "EA" (only after an exception) and, on a span event, ":seq" and ":depth" with the
    values of the node, and changes no other annotation and no other field. *)
Theorem EndTrace_reports n now :
  payload_ok n ->
  exists n', EndTrace n now = Ok n' /\ payload_ok n'
    /\ expired_time_ n' = i64 (u64 (now - trace_start_time_ n))
    /\ same_meta (set_times n (trace_start_time_ n) (pre_trace_time_ n) (expired_time_ n')) n'
    /\ forall key, find key (payload n')
       = match find key (end_members n now) with Some v => Some v | None => find key (payload n) end.
Proof.
  intros Hp. rewrite EndTrace_ok by done. eexists. split; [done|]. split_and!; try done.
  - split; [done|]. apply put_all_sorted, Hp.
  - intros key. cbn [payload value_ set_value]. by apply find_put_all, end_members_NoDup.
Qed.

(** A recycled node carries nothing over.  After [Reset] the node has the new id, no
    annotation, no context, no options, no references, no exception mark, no times, no
    links and no root bookkeeping, whatever its previous life left in it. *)
Theorem Reset_clean n id :
  payload_ok n ->
  exists n', Reset n id = Ok n' /\ payload_ok n' /\ payload n' = [] /\ id_ n' = id
    /\ context_map_ n' = ∅ /\ user_optional_setting_func_ n' = [] /\ reference_count_ n' = 0
    /\ root_node_extra_ptr_ n' = None /\ set_exp_ n' = false
    /\ trace_start_time_ n' = 0 /\ pre_trace_time_ n' = 0 /\ expired_time_ n' = -1
    /\ root_id_ n' = E_INVALID_NODE /\ parent_id_ n' = E_INVALID_NODE /\ next_ n' = E_INVALID_NODE.
Proof.
  intros Hp. apply payload_ok_iff in Hp as Hv. unfold Reset.
  destruct Hv as [->|(m & -> & _)]; cbn; (eexists; split; [done|]); split_and!; try done;
    (split; [done|constructor]).
Qed.

(** Contexts are a key-value store with errors as values: a string that was set is
    read back, other keys are unaffected, a missing key throws [out_of_range] and a
    number read as a string [logic_error]. *)
Theorem context_roundtrip n key buf l :
  getContext (setContext n key buf) key = Ok buf
  /\ getContext (setContext_long n key l) key = Throw logic_error
  /\ getContext_long (setContext_long n key l) key = Ok l
  /\ (forall k, k <> key -> getContext (setContext n key buf) k = getContext n k)
  /\ (context_map_ n !! key = None -> getContext n key = Throw out_of_range).
Proof.
  unfold getContext, getContext_long, setContext, setContext_long; cbn.
  rewrite !lookup_insert_eq. split_and!; try done.
  - intros k Hk. by rewrite lookup_insert_ne.
  - by intros ->.
Qed.

(** The options of the documentation of [pinpoint_start_traceV1]. *)
Example user_options :
  match setNodeUserOption [bs "TraceMinTimeMs:23"; bs "TraceOnlyException"; bs "other"] new_TraceNode with
  | (Ok tt, n) => user_optional_setting_func_ n
  | _ => []
  end = [TraceMinTimeMs 23; TraceOnlyException]
  /\ fst (setNodeUserOption [bs "TraceMinTimeMs:abc"] new_TraceNode) = Throw invalid_argument.
Proof. split; vm_compute; reflexivity. Qed.

(** A span event of 30 ms that started 5 ms after its predecessor. *)
Definition demo_node : TraceNode :=
  set_times (set_links (set_value new_TraceNode (objectValue [(bs "name", stringValue (bs "f"))]))
    1 1 E_INVALID_NODE 2 0) 1005 1000 (-1).

Lemma demo_payload : payload_ok demo_node.
Proof. split; [done|constructor]. Qed.

Lemma EndTrace_reports_witness :
  exists n', EndTrace demo_node 1035 = Ok n' /\ payload_ok n'
    /\ expired_time_ n' = 30
    /\ same_meta (set_times demo_node 1005 1000 (expired_time_ n')) n'
    /\ forall key, find key (payload n')
       = match find key (end_members demo_node 1035) with
         | Some v => Some v | None => find key (payload demo_node) end.
Proof. apply (EndTrace_reports demo_node 1035). apply demo_payload. Defined.

Lemma Reset_clean_witness :
  exists n', Reset demo_node 7 = Ok n' /\ payload_ok n' /\ payload n' = [] /\ id_ n' = 7
    /\ context_map_ n' = ∅ /\ user_optional_setting_func_ n' = [] /\ reference_count_ n' = 0
    /\ root_node_extra_ptr_ n' = None /\ set_exp_ n' = false
    /\ trace_start_time_ n' = 0 /\ pre_trace_time_ n' = 0 /\ expired_time_ n' = -1
    /\ root_id_ n' = E_INVALID_NODE /\ parent_id_ n' = E_INVALID_NODE /\ next_ n' = E_INVALID_NODE.
Proof. apply (Reset_clean demo_node 7). apply demo_payload. Defined.

End Node.
