(* ===== verification/PoolManager.v ===== *)
(** * The pool of trace nodes: [NodePool::PoolManager]
      (common/src/NodePool/PoolManager.h, PoolManager.cpp)

    Nodes live in cells of 128 that are never freed; an id is an index plus one.  A
    bit vector marks the nodes in use and a stack holds the free indices.  C++ code
    handles nodes by reference, so the operations below handle them by index into a
    shared store; [with_ref] is the life time of a [WrapperTraceNodePtr]. *)
From Stdlib Require Import ZArith Lia.
From Stdlib Require Strings.Byte.
From S2P Require Import Prelude Json JsonWriter CLib TraceNode.

Module Pool.
Import Json Node.

Definition CELL_SIZE : Z := 128.
Definition POOL_MAX_NODES_LIMIT : Z := CELL_SIZE * 100.

(** [nodes] is [nodeIndexVec] with its cells in one sequence: element [i] is
    [nodeIndexVec[i / CELL_SIZE][i % CELL_SIZE]]. *)
Record PoolManager := mkPM {
  usedNodeSet_ : list bool;
  maxId : Z;
  _freeNodeList : list Z;
  nodes : list TraceNode
}.

(** The pool and the clock behind [get_unix_time_ms]. *)
Record Store := mkStore {
  pool : PoolManager;
  ms_clock : nat -> Z;
  ms_tick : nat
}.

Definition set_pool (s : Store) (p : PoolManager) : Store := mkStore p (ms_clock s) (ms_tick s).
Definition set_nodes (p : PoolManager) (ns : list TraceNode) : PoolManager :=
  mkPM (usedNodeSet_ p) (maxId p) (_freeNodeList p) ns.

Definition get_unix_time_ms : M Store Z := fun s =>
  (Ok (ms_clock s (ms_tick s)), mkStore (pool s) (ms_clock s) (S (ms_tick s))).

(** ** Nodes by index *)

Definition node (p : PoolManager) (index : Z) : option TraceNode :=
  if 0 <=? index then nodes p !! Z.to_nat index else None.

Definition read_node (index : Z) : M Store TraceNode :=
  s ← get; match node (pool s) index with Some n => mret n | None => undefined end.

Definition write_node (index : Z) (n : TraceNode) : M Store unit :=
  modify (fun s => set_pool s (set_nodes (pool s) (<[Z.to_nat index := n]> (nodes (pool s))))).

(** Apply a node operation that may throw. *)
Definition on_node (index : Z) (f : TraceNode -> outcome TraceNode) : M Store unit :=
  n ← read_node index; n' ← lift (f n); write_node index n'.

(** ** Allocation *)

Definition indexInUsedVec (p : PoolManager) (index : Z) : outcome bool :=
  if (0 <=? index) && (index <? maxId p) then
    match usedNodeSet_ p !! Z.to_nat index with Some b => Ok b | None => Throw out_of_range end
  else Ok false.

Definition expandOnce (p : PoolManager) : PoolManager :=
  mkPM (usedNodeSet_ p ++ replicate 128 false) (maxId p + CELL_SIZE)
    (reverse ((fun k => maxId p + Z.of_nat k) <$> seq 0 128) ++ _freeNodeList p)
    (nodes p ++ replicate 128 new_TraceNode).

(** [PoolManager::PoolManager] *)
Definition new_PoolManager : PoolManager := expandOnce (mkPM [] E_ROOT_NODE [] []).

(** [getReadyNode], which [GetNode] returns: the index of the new node. *)
Definition getReadyNode : M Store Z :=
  s ← get;
  _ ← (if bool_decide (_freeNodeList (pool s) = []) then
         if POOL_MAX_NODES_LIMIT <? maxId (pool s) then throw out_of_range
         else modify (fun s => set_pool s (expandOnce (pool s)))
       else mret tt);
  s ← get;
  match _freeNodeList (pool s) with
  | [] => undefined
  | index :: rest =>
      _ ← modify (fun s => set_pool s
            (mkPM (<[Z.to_nat index := true]> (usedNodeSet_ (pool s))) (maxId (pool s)) rest
               (nodes (pool s))));
      _ ← on_node index (fun n => Reset n (index + 1));
      mret index
  end.

Definition GetNode : M Store Z := getReadyNode.

(** [getUsedNode]: the index of a node in use. *)
Definition getUsedNode (id : Z) : M Store Z :=
  if id =? E_ROOT_NODE then throw out_of_range
  else
    let index := i32 (id - 1) in
    s ← get;
    used ← lift (indexInUsedVec (pool s) index);
    if (used : bool) then mret index else throw out_of_range.

(** [ReferNode] and the destructor of the [WrapperTraceNodePtr] it returns. *)
Definition ReferNode (id : Z) : M Store Z :=
  index ← getUsedNode id;
  _ ← on_node index (fun n => Ok (addReference n));
  mret index.

Definition release (index : Z) (s : Store) : Store :=
  match node (pool s) index with
  | Some n => set_pool s (set_nodes (pool s) (<[Z.to_nat index := decReference n]> (nodes (pool s))))
  | None => s
  end.

(** [{ WrapperTraceNodePtr w = ReferNode(id); body(w); }] *)
Definition with_ref {A} (id : Z) (body : Z -> M Store A) : M Store A :=
  index ← ReferNode id; finally (body index) (release index).

(** ** Release *)

(** [returnNode(id, next, force)]: the result and [next]. *)
Definition returnNode (id next : Z) (force : bool) : M Store (bool * Z) :=
  let index := i32 (id - 1) in
  s ← get;
  used ← lift (indexInUsedVec (pool s) index);
  if negb (used : bool) then mret (true, next)
  else
    index' ← getUsedNode id;
    n ← read_node index';
    if negb (IsNotReference n) && negb force then mret (false, next)
    else
      _ ← modify (fun s => set_pool s
            (mkPM (<[Z.to_nat index := false]> (usedNodeSet_ (pool s))) (maxId (pool s))
               (index :: _freeNodeList (pool s)) (nodes (pool s))));
      mret (true, next_ n).

(** The retry loop of [ReturnNode] (with one-millisecond sleeps), then force. *)
Fixpoint return_loop (tries : nat) (id : Z) : M Store Z :=
  match tries with
  | O => '(_, next) ← returnNode id E_INVALID_NODE true; mret next
  | S tries' =>
      '(done, next) ← returnNode id E_INVALID_NODE false;
      if (done : bool) then mret next else return_loop tries' id
  end.

Definition ReturnNode (id : Z) : M Store Z := return_loop 1000 id.

(** The loop of [FreeNodeTree]: every iteration but the last frees a node. *)
Fixpoint free_loop (fuel : nat) (next_id : Z) : M Store unit :=
  match fuel with
  | O => lift OutOfFuel
  | S fuel' =>
      if next_id =? E_INVALID_NODE then mret tt
      else next ← ReturnNode next_id; free_loop fuel' next
  end.

Definition FreeNodeTree (root : Z) : M Store unit :=
  if (root =? E_INVALID_NODE) || (root =? E_ROOT_NODE) then mret tt
  else
    s ← get;
    next_id ← ReturnNode root;
    free_loop (S (length (nodes (pool s)))) next_id.

(** ** Traces *)

(** The part of [AppendToRootTrace] that finds the event before [newId] and links it:
    the start time of that event, or of the root. *)
Definition link_previous (root newId : Z) : M Store Z :=
  r ← read_node root;
  lst ← lift (GetLastNode r);
  if negb (lst =? E_INVALID_NODE) then
    with_ref lst (fun l =>
      _ ← on_node l (fun x => Ok (set_links x (root_id_ x) (parent_id_ x) newId (depth_ x) (sequence_ x)));
      x ← read_node l;
      mret (trace_start_time_ x))
  else r ← read_node root; mret (trace_start_time_ r).

(** The rest of [AppendToRootTrace]: the times, the sequence and the root's bookkeeping. *)
Definition join_trace (root new newId pre : Z) : M Store unit :=
  _ ← on_node new (fun n => Ok (set_times n (trace_start_time_ n) pre (expired_time_ n)));
  _ ← on_node root (fun r => SetLastNode r newId);
  r ← read_node root;
  '(seq, r') ← lift (CreateNewSequence r);
  _ ← write_node root r';
  _ ← on_node new (fun n => Ok (set_links n (root_id_ n) (parent_id_ n) (next_ n) (depth_ n) seq));
  on_node root (fun r => Ok (if next_ r =? E_INVALID_NODE
                             then set_links r (root_id_ r) (parent_id_ r) newId (depth_ r) (sequence_ r)
                             else r)).

(** [AppendToRootTrace(root, newNode)], on the indices of both nodes. *)
Definition AppendToRootTrace (root new : Z) : M Store unit :=
  r ← read_node root;
  (* the lock is a member of the root's extra data *)
  _ ← lift (GetLastNode r);
  n ← read_node new;
  if negb (root_id_ n =? E_INVALID_NODE) then mret tt
  else
    _ ← on_node new (fun n => Ok (set_links n (id_ r) (parent_id_ n) (next_ n) (depth_ n) (sequence_ n)));
    pre ← link_previous root (id_ n);
    join_trace root new (id_ n) pre.

(** One event of [EncodeTraceToJsonSpan]: end it if it still runs and move its payload to
    the root; the result is the next id, read before. *)
Definition encode_event (root i : Z) : M Store Z :=
  n ← read_node i;
  _ ← (if expired_time_ n =? -1 then
         now ← get_unix_time_ms; on_node i (fun n => EndTrace n now)
       else mret tt);
  n' ← read_node i;
  _ ← on_node root (fun r => AppendAnnotation r (bs "event") (value_ n'));
  mret (next_ n).

(** The loop of [EncodeTraceToJsonSpan] over the chain of span events. *)
Fixpoint encode_loop (fuel : nat) (root next : Z) : M Store unit :=
  match fuel with
  | O => lift OutOfFuel
  | S fuel' =>
      if next =? E_INVALID_NODE then mret tt
      else nx ← with_ref next (encode_event root); encode_loop fuel' root nx
  end.

Definition EncodeTraceToJsonSpan (root : Z) : M Store Value :=
  r ← read_node root;
  if negb (IsRootNode r) then mret (value_ r)
  else
    s ← get;
    _ ← encode_loop (S (length (nodes (pool s)))) root (next_ r);
    _ ← on_node root (fun r => Ok (snd (runUserOptionFunc r)));
    r' ← read_node root;
    mret (value_ r').

(** ** Counters *)

(** [nodeIndexVec.size() * CELL_SIZE]; [nodes] holds whole cells. *)
Definition totalNodesCount (p : PoolManager) : Z := u32 (zlen (nodes p)).
Definition freeNodesCount (p : PoolManager) : Z := u32 (zlen (_freeNodeList p)).
Definition NoNodesLeak (p : PoolManager) : bool := freeNodesCount p =? totalNodesCount p.

(** The ids [foreachAliveNode] visits. *)
Definition alive_ids (p : PoolManager) : list Z :=
  (fun i => Z.of_nat i + 1) <$>
  filter (fun i => usedNodeSet_ p !! i = Some true) (seq 0 (Z.to_nat (maxId p))).

(** [Status]; [version] is [pinpoint_agent_version()]. *)
Definition Status (p : PoolManager) (version : list byte) : outcome (list byte) :=
  v ← Writer.assign_all nullValue
        [(bs "pool_total_node", uintValue (totalNodesCount p));
         (bs "pool_free_node", uintValue (freeNodesCount p));
         (bs "common_library_version", stringValue version)];
  v' ← foldl (fun r id => v ← r; append_at v (bs "pool_alive_nodes") (intValue id)) (Ok v) (alive_ids p);
  Writer.toStyledString v'.

(** A fresh pool reports 128 free nodes of 128. *)
Example status_demo :
  (totalNodesCount new_PoolManager, freeNodesCount new_PoolManager, alive_ids new_PoolManager)
  = (128, 128, []).
Proof. vm_compute. reflexivity. Qed.

End Pool.
