(* ===== verification/Forest.v ===== *)
(** * The node pool holds a forest of traces

    The abstract state is a finite map from root ids to the ids of their span events in
    start order.  The invariant [inv] says that the pool represents it: allocation is
    exact, every node in use is linked into exactly one trace, and reference counts are
    those of the live wrappers.  Every pool operation is specified against it. *)
From Stdlib Require Import ZArith Lia.
From Stdlib Require Strings.Byte.
From S2P Require Import Prelude Json JsonWriter CLib TraceNode PoolManager.

Module Forest.
Import Json Node Pool.

(** ** Updating one node *)

Definition upd (p : PoolManager) (i : Z) (n : TraceNode) : PoolManager :=
  set_nodes p (<[Z.to_nat i := n]> (nodes p)).

Lemma node_range p i n : node p i = Some n -> 0 <= i < zlen (nodes p).
Proof.
  unfold node. case_if; [|done]. intros E. apply lookup_lt_Some in E. unfold zlen. lia.
Qed.

Lemma node_upd_eq p i n x : node p i = Some x -> node (upd p i n) i = Some n.
Proof.
  intros E. pose proof (node_range p i x E) as Hr. unfold node in *. unfold upd, set_nodes. cbn.
  rewrite (proj2 (Z.leb_le 0 i)) in * by lia. apply list_lookup_insert_eq.
  apply lookup_lt_Some in E. done.
Qed.

Lemma node_upd_ne p i j n : 0 <= i -> i <> j -> node (upd p i n) j = node p j.
Proof.
  intros Hi Hne. unfold node, upd, set_nodes. cbn. case_if; [|done].
  apply list_lookup_insert_ne. lia.
Qed.

Lemma node_upd p i j n x : node p i = Some x ->
  node (upd p i n) j = if bool_decide (i = j) then Some n else node p j.
Proof.
  intros E. pose proof (node_range p i x E). case_bool_decide as Ei; [subst; by eapply node_upd_eq|].
  apply node_upd_ne; [lia|done].
Qed.

(** ** Ids in use *)

Definition alive (p : PoolManager) (id : Z) : Prop :=
  1 <= id <= maxId p /\ usedNodeSet_ p !! Z.to_nat (id - 1) = Some true.

#[export] Instance alive_dec p id : Decision (alive p id).
Proof. unfold alive. apply _. Defined.

(** The allocation part of the invariant: the bit vector, the stack of free indices and
    the cells agree, and every payload is an object. *)
Record alloc_ok (p : PoolManager) : Prop := mkAlloc {
  a_max : maxId p = zlen (nodes p);
  a_used : length (usedNodeSet_ p) = length (nodes p);
  a_nodup : NoDup (_freeNodeList p);
  a_free : forall i, i ∈ _freeNodeList p
             <-> 0 <= i < maxId p /\ usedNodeSet_ p !! Z.to_nat i = Some false;
  a_limit : maxId p <= POOL_MAX_NODES_LIMIT + CELL_SIZE;
  a_cells : exists k, maxId p = CELL_SIZE * k;
  a_payload : Forall payload_ok (nodes p)
}.

Lemma node_payload p i n : alloc_ok p -> node p i = Some n -> payload_ok n.
Proof.
  intros Ha E. unfold node in E. destruct (0 <=? i); [|done].
  eapply Forall_lookup_1; [apply Ha|exact E].
Qed.

Lemma node_exists p i : alloc_ok p -> 0 <= i < maxId p -> exists n, node p i = Some n.
Proof.
  intros Ha Hi. unfold node. rewrite (proj2 (Z.leb_le 0 i)) by lia.
  apply lookup_lt_is_Some_2. rewrite (a_max _ Ha) in Hi. unfold zlen in Hi. lia.
Qed.

Lemma upd_alloc_ok p i n : alloc_ok p -> payload_ok n -> alloc_ok (upd p i n).
Proof.
  intros [H1 H2 H3 H4 H5 H6 H7] Hn. split; cbn; try done.
  - unfold zlen in *. rewrite length_insert. done.
  - rewrite length_insert. done.
  - by apply Forall_insert.
Qed.

Lemma alive_upd p i n id : alive (upd p i n) id <-> alive p id.
Proof. done. Qed.

(** Indices of nodes in use and of free nodes are told apart by the bit vector. *)
Lemma used_bit p i : alloc_ok p -> 0 <= i < maxId p ->
  usedNodeSet_ p !! Z.to_nat i = Some true \/ usedNodeSet_ p !! Z.to_nat i = Some false.
Proof.
  intros Ha Hi. destruct (lookup_lt_is_Some_2 (usedNodeSet_ p) (Z.to_nat i)) as [[] E]; auto.
  rewrite (a_used _ Ha). rewrite (a_max _ Ha) in Hi. unfold zlen in Hi. lia.
Qed.

Lemma indexInUsedVec_spec p id : alloc_ok p -> in_i32 id ->
  indexInUsedVec p (i32 (id - 1)) = Ok (bool_decide (alive p id)).
Proof.
  intros Ha Hid. unfold indexInUsedVec. pose proof (a_limit _ Ha) as Hl.
  unfold POOL_MAX_NODES_LIMIT, CELL_SIZE in Hl.
  destruct (decide (id = - 2 ^ 31)) as [->|Hmin].
  { change (i32 (- 2 ^ 31 - 1)) with (2 ^ 31 - 1). rewrite (proj2 (Z.ltb_ge _ (maxId p))) by lia.
    rewrite andb_false_r. rewrite bool_decide_eq_false_2; [done|]. intros [? _]. lia. }
  rewrite i32_small by word.
  destruct (Z.leb_spec 0 (id - 1)), (Z.ltb_spec (id - 1) (maxId p)); cbn [andb];
    try (f_equal; symmetry; apply bool_decide_eq_false_2; intros [? _]; lia).
  destruct (used_bit p (id - 1) Ha) as [E|E]; [lia|..]; rewrite E; f_equal; symmetry.
  - apply bool_decide_eq_true_2. split; [lia|done].
  - apply bool_decide_eq_false_2. intros [_ E']. congruence.
Qed.

(** ** Specifications of the accessors *)

Lemma wp_read_node i n (Q : TraceNode -> Store -> Prop) E s :
  node (pool s) i = Some n -> Q n s -> wp (read_node i) Q E s.
Proof. intros En HQ. unfold read_node. wps. wps. by rewrite En. Qed.

Lemma wp_write_node i n (Q : unit -> Store -> Prop) E s :
  Q tt (set_pool s (upd (pool s) i n)) -> wp (write_node i n) Q E s.
Proof. done. Qed.

Lemma wp_on_node i n n' f (Q : unit -> Store -> Prop) E s :
  node (pool s) i = Some n -> f n = Ok n' -> Q tt (set_pool s (upd (pool s) i n')) ->
  wp (on_node i f) Q E s.
Proof.
  intros En Ef HQ. unfold on_node. wps. eapply wp_read_node; [done|]. wps. rewrite Ef.
  unfold wp at 1, lift. by apply wp_write_node.
Qed.

Lemma wp_getUsedNode id (Q : Z -> Store -> Prop) (E : exn -> Store -> Prop) s :
  alloc_ok (pool s) -> in_i32 id ->
  (alive (pool s) id -> Q (id - 1) s) -> (~ alive (pool s) id -> E out_of_range s) ->
  wp (getUsedNode id) Q E s.
Proof.
  intros Ha Hid HQ HE. unfold getUsedNode. case_if.
  { wps. apply HE. intros [? _]. unfold E_ROOT_NODE in *. lia. }
  wps. wps. wps. rewrite indexInUsedVec_spec by done. unfold wp at 1, lift.
  case_bool_decide as Hal; [|by wps; apply HE].
  wps. rewrite i32_small; [by apply HQ|]. destruct Hal as [? _]. word.
Qed.

Lemma wp_get_time (Q : Z -> Store -> Prop) E s :
  Q (ms_clock s (ms_tick s)) (mkStore (pool s) (ms_clock s) (S (ms_tick s))) ->
  wp get_unix_time_ms Q E s.
Proof. done. Qed.

(** ** The invariant *)

(** Root ids with the ids of their span events, in start order. *)
Abbreviation trees := (gmap Z (list Z)).

(** How many wrappers hold each id. *)
Abbreviation refs := (Z -> Z).

Definition id_at (cs : list Z) (i : nat) : Z := default E_INVALID_NODE (cs !! i).

(** What the forest determines of a node. *)
Definition links (n : TraceNode) : Z * Z * Z * Z * Z * option (Z * Z) :=
  (id_ n, root_id_ n, parent_id_ n, next_ n, sequence_ n,
   (fun x => (last x, sequence x)) <$> root_node_extra_ptr_ n).

Inductive linked (T : trees) (id : Z) (n : TraceNode) : Prop :=
| linked_root cs :
    T !! id = Some cs ->
    links n = (id, id, id, id_at cs 0, sequence_ n, Some (id_at cs (pred (length cs)), zlen cs)) ->
    linked T id n
| linked_event r cs i p :
    T !! r = Some cs -> cs !! i = Some id -> p ∈ r :: take i cs ->
    links n = (id, r, p, id_at cs (S i), Z.of_nat i, None) ->
    linked T id n.

(** A node that has been taken from the pool but not yet put into a trace. *)
Definition unlinked (n : TraceNode) : Prop :=
  next_ n = E_INVALID_NODE /\ root_node_extra_ptr_ n = None.

Record inv (T : trees) (U : option Z) (R : refs) (s : Store) : Prop := mkInv {
  inv_alloc : alloc_ok (pool s);
  inv_nodes : forall id, alive (pool s) id ->
    exists n, node (pool s) (id - 1) = Some n /\ id_ n = id /\ reference_count_ n = R id
      /\ (linked T id n \/ U = Some id /\ unlinked n);
  inv_trees : forall r cs, T !! r = Some cs -> NoDup (r :: cs) /\ Forall (alive (pool s)) (r :: cs);
  inv_disjoint : forall r1 cs1 r2 cs2 id, T !! r1 = Some cs1 -> T !! r2 = Some cs2 ->
    id ∈ r1 :: cs1 -> id ∈ r2 :: cs2 -> r1 = r2;
  inv_loose : forall id, U = Some id ->
    alive (pool s) id /\ forall r cs, T !! r = Some cs -> id ∉ r :: cs;
  inv_dead : forall id, ~ alive (pool s) id -> R id = 0
}.

Lemma alive_i32 p id : alloc_ok p -> alive p id -> in_i32 id /\ 1 <= id.
Proof.
  intros Ha [Hid _]. pose proof (a_limit _ Ha). unfold POOL_MAX_NODES_LIMIT, CELL_SIZE in *. word.
Qed.

(** The clock is not part of the pool. *)
Lemma inv_pool T U R s s' : pool s' = pool s -> inv T U R s -> inv T U R s'.
Proof. intros E [H1 H2 H3 H4 H5 H6]. split; rewrite ?E; done. Qed.

Lemma inv_refs_ext T U R R' s :
  (forall id, R id = R' id) -> inv T U R s -> inv T U R' s.
Proof.
  intros E [H1 H2 H3 H4 H5 H6]. split; try done; intros id Hal; [|rewrite <- E; auto].
  destruct (H2 id Hal) as (n & ? & ? & Hr & ?). exists n. rewrite <- E by done. done.
Qed.

Lemma linked_links T id n n' : links n' = links n -> linked T id n -> linked T id n'.
Proof.
  intros El [cs Ht Hl|r cs i p Ht Hi Hp Hl].
  - eapply linked_root; [done|]. rewrite El, Hl. unfold links in *. congruence.
  - eapply linked_event; [done..|]. by rewrite El.
Qed.

Lemma unlinked_links n n' : links n' = links n -> unlinked n -> unlinked n'.
Proof.
  unfold links, unlinked. intros El (H2 & H3). rewrite H3 in El. cbn in El.
  injection El as _ _ _ E2 _ E3. split; [congruence|].
  by destruct (root_node_extra_ptr_ n').
Qed.

(** Changing what the forest does not determine. *)
Lemma inv_upd_data T U R s id n n' :
  inv T U R s -> alive (pool s) id -> node (pool s) (id - 1) = Some n ->
  links n' = links n -> reference_count_ n' = reference_count_ n -> payload_ok n' ->
  inv T U R (set_pool s (upd (pool s) (id - 1) n')).
Proof.
  intros [H1 H2 H3 H4 H5 H6] Hal En El Er Hp. split; cbn [pool set_pool]; [by apply upd_alloc_ok| |done|done|done|done].
  intros id' Hal'. rewrite (node_upd _ _ _ _ _ En).
  destruct (H2 id' Hal') as (m & Em & Ei & Hr & Hl).
  case_bool_decide as Eq; [|by exists m].
  assert (id' = id) as -> by lia. rewrite En in Em. injection Em as ->. exists n'.
  split_and!; [done| |congruence|].
  - unfold links in El. congruence.
  - destruct Hl as [Hl|[? Hl]]; [left; by eapply linked_links|right; split; [done|by eapply unlinked_links]].
Qed.

(** ** Wrappers *)

Definition radd (id : Z) (R : refs) : refs := fun j => if bool_decide (j = id) then R j + 1 else R j.

(** Nodes up to their reference counts. *)
Definition view (p : PoolManager) (id : Z) : option TraceNode :=
  (fun n => set_refs n 0) <$> node p (id - 1).

Lemma view_upd p i id n x : node p i = Some x ->
  view (upd p i n) id = if bool_decide (i = id - 1) then Some (set_refs n 0) else view p id.
Proof. intros E. unfold view. rewrite (node_upd _ _ _ _ _ E). by case_bool_decide. Qed.

Lemma view_node p id n : node p (id - 1) = Some n -> view p id = Some (set_refs n 0).
Proof. unfold view. by intros ->. Qed.

Lemma view_set_refs p id n c j : node p (id - 1) = Some n ->
  view (upd p (id - 1) (set_refs n c)) j = view p j.
Proof.
  intros E. rewrite (view_upd _ _ _ _ _ E). case_bool_decide as Ej; [|done].
  assert (j = id) as -> by lia. by rewrite (view_node _ _ _ E).
Qed.

Lemma inv_set_refs T U R R' s id n c :
  inv T U R s -> alive (pool s) id -> node (pool s) (id - 1) = Some n ->
  R' id = c -> (forall j, j <> id -> R' j = R j) ->
  inv T U R' (set_pool s (upd (pool s) (id - 1) (set_refs n c))).
Proof.
  intros [H1 H2 H3 H4 H5 H6] Hal En Hc Hj. split; cbn [pool set_pool]; [|..|done|done|done|].
  - apply upd_alloc_ok; [done|]. exact (node_payload _ _ _ H1 En).
  - intros id' Hal'. rewrite (node_upd _ _ _ _ _ En).
    destruct (H2 id' Hal') as (m & Em & Ei & Hr & Hl).
    case_bool_decide as Eq.
    + assert (id' = id) as -> by lia. rewrite En in Em. injection Em as ->.
      exists (set_refs m c). split_and!; [done|done|by rewrite Hc|].
      destruct Hl as [Hl|[? Hl]]; [left; by apply (linked_links _ _ m)|by right].
    + exists m. rewrite Hj by (intros ->; done). done.
  - intros j Hd. rewrite Hj; [by apply H6|]. intros ->. done.
Qed.

(** The life time of a wrapper: the body runs with one more reference, which is gone
    afterwards on every path. *)
Lemma wp_with_ref {A} id (body : Z -> M Store A) (Q : A -> Store -> Prop) (E : exn -> Store -> Prop) s T U R :
  inv T U R s -> in_i32 id -> 0 <= R id < 100 ->
  (alive (pool s) id ->
   wp (body (id - 1)) (fun a s' => Q a (release (id - 1) s')) (fun e s' => E e (release (id - 1) s'))
     (set_pool s (upd (pool s) (id - 1)
        (default new_TraceNode (addReference <$> node (pool s) (id - 1)))))) ->
  (~ alive (pool s) id -> E out_of_range s) ->
  wp (with_ref id body) Q E s.
Proof.
  intros Hinv Hid HR Hbody Hdead. unfold with_ref, ReferNode. wps. wps.
  apply wp_getUsedNode; [apply Hinv|done| |done]. intros Hal. specialize (Hbody Hal).
  destruct (inv_nodes _ _ _ _ Hinv id Hal) as (n & En & _). rewrite En in Hbody. cbn in Hbody.
  wps. eapply wp_on_node; [done|done|]. wps. wps. exact Hbody.
Qed.

Lemma acquire_inv T U R s id n :
  inv T U R s -> alive (pool s) id -> 0 <= R id < 100 -> node (pool s) (id - 1) = Some n ->
  inv T U (radd id R) (set_pool s (upd (pool s) (id - 1) (addReference n))).
Proof.
  intros Hinv Hal HR En. destruct (inv_nodes _ _ _ _ Hinv id Hal) as (n' & En' & _ & Hr & _).
  rewrite En in En'. injection En' as <-. unfold addReference. rewrite Hr, i32_small by word.
  eapply inv_set_refs; [done..| |]; unfold radd.
  - by rewrite bool_decide_eq_true_2.
  - intros j Hj. by rewrite bool_decide_eq_false_2.
Qed.

Lemma release_inv T U R s id :
  inv T U (radd id R) s -> alive (pool s) id -> 0 <= R id < 100 -> inv T U R (release (id - 1) s).
Proof.
  intros Hinv Hal HR. destruct (inv_nodes _ _ _ _ Hinv id Hal) as (n & En & _ & Hr & _).
  unfold release. rewrite En. unfold decReference, radd in *. rewrite Hr, bool_decide_eq_true_2 by done.
  rewrite i32_small by word. replace (R id + 1 - 1) with (R id) by lia.
  eapply (inv_set_refs T U (radd id R)); [done..|]. intros j Hj. unfold radd.
  by rewrite bool_decide_eq_false_2.
Qed.

Lemma release_view i s id : view (pool (release i s)) id = view (pool s) id.
Proof.
  unfold release. destruct (node (pool s) i) as [n|] eqn:E; [|done].
  cbn. replace i with ((i + 1) - 1) in * by lia. by apply view_set_refs.
Qed.

Lemma release_alive i s id : alive (pool (release i s)) id <-> alive (pool s) id.
Proof. unfold release. by destruct (node (pool s) i). Qed.

(** ** Allocation *)

Lemma new_node_payload : payload_ok new_TraceNode.
Proof. split; [done|constructor]. Qed.

Lemma expand_lookup p i : alloc_ok p -> 0 <= i < maxId p -> node (expandOnce p) i = node p i.
Proof.
  intros Ha Hi. unfold node, expandOnce. cbn [nodes]. case_if; [|done]. apply lookup_app_l.
  rewrite (a_max _ Ha) in Hi. unfold zlen in Hi. lia.
Qed.

Lemma expand_alive p id : alloc_ok p -> alive (expandOnce p) id <-> alive p id.
Proof.
  intros Ha. pose proof (a_max _ Ha) as Hm. pose proof (a_used _ Ha) as Hu. unfold alive, expandOnce, CELL_SIZE, zlen in *.
  cbn [usedNodeSet_ maxId].
  split; intros [Hid E].
  - destruct (decide (id <= maxId p)) as [Hle|Hgt].
    + split; [lia|]. rewrite lookup_app_l in E by lia. done.
    + rewrite lookup_app_r in E by lia. apply lookup_replicate_1 in E as [? _]. done.
  - split; [lia|]. rewrite lookup_app_l by lia. done.
Qed.

Lemma expand_alloc_ok p : alloc_ok p -> maxId p <= POOL_MAX_NODES_LIMIT -> alloc_ok (expandOnce p).
Proof.
  intros [Hm Hu Hn Hf Hl [k Hk] Hp] Hlim. pose proof Hm as Hm'. unfold zlen in Hm'.
  assert (forall i, i ∈ reverse ((fun k => maxId p + Z.of_nat k) <$> seq 0 128)
    <-> maxId p <= i < maxId p + 128) as Hin.
  { intros i. rewrite elem_of_reverse, list_elem_of_fmap. split.
    - intros (j & -> & Hj). apply elem_of_seq in Hj. lia.
    - intros Hi. exists (Z.to_nat (i - maxId p)). split; [lia|]. apply elem_of_seq. lia. }
  split; cbn [maxId nodes usedNodeSet_ _freeNodeList expandOnce]; unfold CELL_SIZE in *.
  - unfold zlen. rewrite length_app, length_replicate. lia.
  - rewrite !length_app, !length_replicate. lia.
  - apply NoDup_app. split_and!; [|..|done].
    + rewrite reverse_Permutation. apply NoDup_fmap_2_strong; [|apply NoDup_seq]. intros; lia.
    + intros i Hi Hi'. apply Hin in Hi. apply Hf in Hi' as [? _]. lia.
  - intros i. rewrite elem_of_app, Hin, Hf. split.
    + intros [Hi|[Hi E]].
      * split; [lia|]. rewrite lookup_app_r by lia. apply lookup_replicate_2. lia.
      * split; [lia|]. rewrite lookup_app_l by lia. done.
    + intros [Hi E]. destruct (decide (i < maxId p)) as [Hlt|Hge]; [right|left; lia].
      rewrite lookup_app_l in E by lia. split; [lia|done].
  - lia.
  - exists (k + 1). lia.
  - apply Forall_app. split; [done|]. apply Forall_replicate, new_node_payload.
Qed.

Lemma expand_inv T U R s : inv T U R s -> maxId (pool s) <= POOL_MAX_NODES_LIMIT ->
  inv T U R (set_pool s (expandOnce (pool s))).
Proof.
  intros [H1 H2 H3 H4 H5 H6] Hl. split; cbn [pool set_pool].
  - by apply expand_alloc_ok.
  - intros id Hal. apply (proj1 (expand_alive _ _ H1)) in Hal. destruct (H2 id Hal) as (n & En & Hn).
    exists n. rewrite expand_lookup; [by split|done|]. destruct Hal; lia.
  - intros r cs Ht. destruct (H3 r cs Ht) as [Hd Ha]. split; [done|].
    eapply Forall_impl; [exact Ha|]. intros id Hal. by apply (proj2 (expand_alive _ _ H1)).
  - done.
  - intros id Hu. destruct (H5 id Hu) as [Hal Ht]. split; [by apply (proj2 (expand_alive _ _ H1))|done].
  - intros id Hd. apply H6. intros Hal. apply Hd. by apply (proj2 (expand_alive _ _ H1)).
Qed.

(** What allocation promises: a node that was not in use, reset, in no trace. *)
Definition fresh_node (i : Z) (n : TraceNode) : Prop :=
  unlinked n /\ root_id_ n = E_INVALID_NODE /\ id_ n = i + 1 /\ payload n = []
  /\ context_map_ n = ∅ /\ user_optional_setting_func_ n = [] /\ expired_time_ n = -1
  /\ set_exp_ n = false /\ reference_count_ n = 0.

Definition allocated (s : Store) (i : Z) (s' : Store) : Prop :=
  ~ alive (pool s) (i + 1) /\ in_i32 (i + 1)
  /\ (forall id, alive (pool s') id <-> alive (pool s) id \/ id = i + 1)
  /\ (forall id, alive (pool s) id -> view (pool s') id = view (pool s) id)
  /\ (exists n, node (pool s') i = Some n /\ fresh_node i n)
  /\ ms_clock s' = ms_clock s /\ ms_tick s' = ms_tick s.

(** The same on pools, with the nodes that were there left alone. *)
Record taken (p : PoolManager) (i : Z) (p' : PoolManager) : Prop := mkTaken {
  t_alloc : alloc_ok p';
  t_dead : ~ alive p (i + 1);
  t_range : in_i32 (i + 1);
  t_alive : forall id, alive p' id <-> alive p id \/ id = i + 1;
  t_others : forall j n, j <> i -> node p j = Some n -> node p' j = Some n;
  t_node : exists n, node p' i = Some n /\ fresh_node i n
}.

Lemma Reset_fresh n i : payload_ok n ->
  exists n', Reset n (i + 1) = Ok n' /\ payload_ok n' /\ fresh_node i n'.
Proof.
  intros Hp. destruct (Reset_clean n (i + 1) Hp)
    as (n' & E & Hp' & ? & ? & ? & ? & ? & ? & ? & ? & ? & ? & ? & ? & ?).
  exists n'. split_and!; [done..|]. unfold fresh_node, unlinked. split_and!; done.
Qed.

Lemma take_free_alloc p i rest n :
  alloc_ok p -> _freeNodeList p = i :: rest -> payload_ok n ->
  alloc_ok (upd (mkPM (<[Z.to_nat i := true]> (usedNodeSet_ p)) (maxId p) rest (nodes p)) i n).
Proof.
  intros [Hm Hu Hn Hf Hl Hk Hp] E Hpn. apply upd_alloc_ok; [|done].
  rewrite E in *. apply NoDup_cons in Hn as [Hi Hn].
  assert (0 <= i < maxId p) as Hir by (by apply Hf; left).
  split; cbn; try done.
  - by rewrite length_insert.
  - intros j. destruct (decide (j = i)) as [->|Hne].
    + split; [done|]. intros [Hr Hj]. unfold zlen in Hm. rewrite list_lookup_insert_eq in Hj by lia. done.
    + split.
      * intros Hj. assert (j ∈ i :: rest) as Hj' by (by right). apply Hf in Hj' as [Hr Hj']. split; [done|].
        rewrite list_lookup_insert_ne by lia. done.
      * intros [Hr Hj]. rewrite list_lookup_insert_ne in Hj by lia.
        assert (j ∈ i :: rest) as Hj' by (by apply Hf). apply elem_of_cons in Hj' as [|]; done.
Qed.

Lemma take_free_alive p i rest ns id : alloc_ok p -> 0 <= i < maxId p ->
  alive (mkPM (<[Z.to_nat i := true]> (usedNodeSet_ p)) (maxId p) rest ns) id
  <-> alive p id \/ id = i + 1.
Proof.
  intros Ha Hi. pose proof (a_used _ Ha) as Hu. pose proof (a_max _ Ha) as Hm. unfold zlen in Hm.
  unfold alive. cbn [usedNodeSet_ maxId]. destruct (decide (id = i + 1)) as [->|Hne].
  - replace (i + 1 - 1) with i by lia. rewrite list_lookup_insert_eq by lia. split; [by right|].
    intros _. split; [lia|done].
  - split; [intros [Hid E]|intros [[Hid E]|?]; [|done]].
    + rewrite list_lookup_insert_ne in E by lia. by left.
    + split; [done|]. rewrite list_lookup_insert_ne by lia. done.
Qed.

Lemma pop_free_spec p i rest :
  alloc_ok p -> _freeNodeList p = i :: rest ->
  exists n n', node p i = Some n /\ Reset n (i + 1) = Ok n'
  /\ taken p i (upd (mkPM (<[Z.to_nat i := true]> (usedNodeSet_ p)) (maxId p) rest (nodes p)) i n').
Proof.
  intros Ha Ef. assert (i ∈ _freeNodeList p) as Hi by (rewrite Ef; by left).
  apply (a_free _ Ha) in Hi as [Hir Hbit]. pose proof (a_limit _ Ha) as Hlim.
  unfold POOL_MAX_NODES_LIMIT, CELL_SIZE in Hlim.
  destruct (node_exists _ i Ha Hir) as [n En].
  destruct (Reset_fresh n i (node_payload _ _ _ Ha En)) as (n' & Er & Hp' & Hn').
  exists n, n'. split_and!; [done..|]. split.
  - by apply take_free_alloc.
  - intros [_ E]. replace (i + 1 - 1) with i in E by lia. congruence.
  - word.
  - intros id. rewrite alive_upd. by apply take_free_alive.
  - intros j m Hj Em. rewrite node_upd_ne by (lia || done). done.
  - exists n'. split; [by eapply node_upd_eq|done].
Qed.

Lemma taken_expand p i p' : alloc_ok p -> taken (expandOnce p) i p' -> taken p i p'.
Proof.
  intros Ha [H1 H2 H3 H4 H5 H6]. split; [done|..|done]; try done.
  - by rewrite <- (expand_alive p) by done.
  - intros id. by rewrite H4, expand_alive by done.
  - intros j m Hj Em. apply H5; [done|]. rewrite expand_lookup; [done..|].
    rewrite (a_max _ Ha). by eapply node_range.
Qed.

(** [GetNode] on any consistent pool: it takes a free node, after adding a cell when there
    is none, and throws only when the pool is at its limit and no node is free. *)
Lemma GetNode_alloc s : alloc_ok (pool s) ->
  wp GetNode (fun i s' => exists p', s' = set_pool s p' /\ taken (pool s) i p'
       /\ if decide (_freeNodeList (pool s) = [])
          then maxId p' = maxId (pool s) + CELL_SIZE /\ maxId (pool s) <= POOL_MAX_NODES_LIMIT
          else maxId p' = maxId (pool s))
    (fun e s' => e = out_of_range /\ s' = s /\ POOL_MAX_NODES_LIMIT < maxId (pool s)
       /\ _freeNodeList (pool s) = []) s.
Proof.
  intros Ha. unfold GetNode, getReadyNode. wps. wps. wps.
  destruct (decide (_freeNodeList (pool s) = [])) as [Ee|Ee];
    [rewrite bool_decide_eq_true_2 by done|rewrite bool_decide_eq_false_2 by done].
  - destruct (Z.ltb_spec POOL_MAX_NODES_LIMIT (maxId (pool s))) as [Hlim|Hlim]; [by wps|]. wps. wps. wps.
    cbn [pool set_pool]. destruct (_freeNodeList (expandOnce (pool s))) as [|i rest] eqn:Ef.
    { exfalso. cbn [_freeNodeList expandOnce] in Ef. apply app_eq_nil in Ef as [Ef _].
      by apply (f_equal length) in Ef; rewrite length_reverse in Ef. }
    destruct (pop_free_spec _ i rest (expand_alloc_ok _ Ha Hlim) Ef) as (n & n' & En & Er & Ht).
    wps. wps. wps. eapply wp_on_node; [exact En|exact Er|]. wps.
    eexists. split_and!; [reflexivity|by apply taken_expand|done|done].
  - wps. wps. wps. destruct (_freeNodeList (pool s)) as [|i rest] eqn:Ef; [done|].
    destruct (pop_free_spec _ i rest Ha Ef) as (n & n' & En & Er & Ht).
    wps. wps. wps. eapply wp_on_node; [exact En|exact Er|]. wps. by eexists.
Qed.

(** The forest does not change, and the new node is its loose one. *)
Lemma taken_inv T R s i p' : inv T None R s -> taken (pool s) i p' ->
  inv T (Some (i + 1)) R (set_pool s p').
Proof.
  intros [H1 H2 H3 H4 H5 H6] [Ha Hdead Hr Hal Ho (n & En & Hn)].
  split; cbn [pool set_pool]; [done|..|done| |].
  - intros id Hid. apply Hal in Hid as [Hid| ->].
    + destruct (H2 id Hid) as (m & Em & Hm1 & Hm2 & Hm3). exists m. split_and!; [|done..|].
      * apply Ho; [|done]. intros Eq. apply Hdead. by replace (i + 1) with id by lia.
      * destruct Hm3 as [|[? _]]; [by left|done].
    + exists n. replace (i + 1 - 1) with i by lia. destruct Hn as (? & ? & ? & ? & ? & ? & ? & ? & ->).
      split_and!; [done|done|symmetry; by apply H6|by right].
  - intros r cs Ht. destruct (H3 r cs Ht) as [Hd Hf]. split; [done|].
    eapply Forall_impl; [exact Hf|]. intros id Hid. apply Hal. by left.
  - intros id [= <-]. split; [apply Hal; by right|]. intros r cs Ht Hin.
    destruct (H3 r cs Ht) as [_ Hf]. rewrite Forall_forall in Hf. by apply Hdead, Hf.
  - intros id Hd. apply H6. intros Hid. apply Hd, Hal. by left.
Qed.

Lemma taken_allocated s i p' : alloc_ok (pool s) -> taken (pool s) i p' -> allocated s i (set_pool s p').
Proof.
  intros Ha [H1 H2 H3 H4 H5 H6]. split_and!; try done.
  intros id Hid. destruct (node_exists _ (id - 1) Ha) as [n En]; [destruct Hid; lia|].
  unfold view. cbn [pool set_pool]. rewrite En. rewrite (H5 _ n); [done| |done].
  intros Eq. apply H2. by replace (i + 1) with id by lia.
Qed.

(** No node is free and the pool may not grow. *)
Definition full (p : PoolManager) : Prop := _freeNodeList p = [] /\ POOL_MAX_NODES_LIMIT < maxId p.

Lemma GetNode_spec T R s : inv T None R s ->
  wp GetNode (fun i s' => ~ full (pool s) /\ inv T (Some (i + 1)) R s' /\ allocated s i s')
    (fun e s' => full (pool s) /\ e = out_of_range /\ s' = s) s.
Proof.
  intros Hinv. pose proof (inv_alloc _ _ _ _ Hinv) as Ha.
  eapply wp_mono; [by apply GetNode_alloc|..].
  - intros i s' (p' & -> & Ht & Hm). split_and!; [|by apply taken_inv|by apply taken_allocated].
    intros [Hf Hl]. case_decide; [lia|done].
  - by intros e s' (-> & -> & Hl & Hf).
Qed.

(** ** Appending a span event *)

Lemma alive_count p l : alloc_ok p -> NoDup l -> Forall (alive p) l -> zlen l <= maxId p.
Proof.
  intros Ha Hd Hl.
  assert (l ⊆+ (fun k => Z.of_nat k + 1) <$> seq 0 (Z.to_nat (maxId p))) as Hs.
  { apply NoDup_submseteq; [done|]. intros id Hid. rewrite Forall_forall in Hl.
    destruct (Hl id Hid) as [Hr _]. apply list_elem_of_fmap. exists (Z.to_nat (id - 1)).
    split; [lia|]. apply elem_of_seq. lia. }
  apply submseteq_length in Hs. rewrite length_fmap, length_seq in Hs. unfold zlen.
  pose proof (a_max _ Ha). unfold zlen in *. lia.
Qed.

(** Solve a node lookup in a pool with known updates. *)
Ltac node_of :=
  cbn [pool set_pool];
  lazymatch goal with
  | |- node (upd _ ?i _) ?i = _ => eapply node_upd_eq; node_of
  | |- node (upd _ ?i _) ?j = _ => rewrite node_upd_ne by lia; node_of
  | |- _ => eassumption
  end.

Lemma id_at_snoc cs id i : id_at (cs ++ [id]) i =
  if bool_decide (i = length cs) then id else id_at cs i.
Proof.
  unfold id_at. case_bool_decide as E.
  - subst i. by rewrite list_lookup_middle.
  - destruct (decide (i < length cs)%nat) as [Hl|Hl].
    + by rewrite lookup_app_l.
    + rewrite (lookup_ge_None_2 cs) by lia. rewrite lookup_ge_None_2; [done|]. rewrite length_app. cbn. lia.
Qed.

(** Where a node in use is linked. *)
Lemma inv_root T U R s r cs : inv T U R s -> T !! r = Some cs ->
  exists n, node (pool s) (r - 1) = Some n /\ reference_count_ n = R r /\ payload_ok n
    /\ links n = (r, r, r, id_at cs 0, sequence_ n, Some (id_at cs (pred (length cs)), zlen cs)).
Proof.
  intros Hinv Ht. destruct (inv_trees _ _ _ _ Hinv r cs Ht) as [Hd Hf].
  inversion Hf as [|? ? Hal _]; subst. destruct (inv_nodes _ _ _ _ Hinv r Hal) as (n & En & Ei & Er & Hl).
  exists n. split_and!; [done|done|exact (node_payload _ _ _ (inv_alloc _ _ _ _ Hinv) En)|].
  destruct Hl as [[cs' Ht' Hl|r' cs' i p Ht' Hi Hp Hl]|[Hu _]].
  - congruence.
  - assert (r = r') as ->.
    { eapply (inv_disjoint _ _ _ _ Hinv); [exact Ht|exact Ht'|by left|right; by eapply list_elem_of_lookup_2]. }
    exfalso. apply NoDup_cons in Hd as [Hn _]. apply Hn. rewrite Ht in Ht'. injection Ht' as ->.
    by eapply list_elem_of_lookup_2.
  - exfalso. destruct (inv_loose _ _ _ _ Hinv r Hu) as [_ Hn]. apply (Hn r cs Ht). by left.
Qed.

Lemma inv_event T U R s r cs i id : inv T U R s -> T !! r = Some cs -> cs !! i = Some id ->
  exists n p, node (pool s) (id - 1) = Some n /\ reference_count_ n = R id /\ payload_ok n
    /\ p ∈ r :: take i cs /\ links n = (id, r, p, id_at cs (S i), Z.of_nat i, None).
Proof.
  intros Hinv Ht Hi. destruct (inv_trees _ _ _ _ Hinv r cs Ht) as [Hd Hf].
  assert (id ∈ cs) as Hin by (by eapply list_elem_of_lookup_2).
  assert (alive (pool s) id) as Hal by (rewrite Forall_forall in Hf; apply Hf; by right).
  destruct (inv_nodes _ _ _ _ Hinv id Hal) as (n & En & Ei & Er & Hl). exists n.
  destruct Hl as [[cs' Ht' Hl|r' cs' i' p Ht' Hi' Hp Hl]|[Hu _]].
  - assert (r = id) as -> by (eapply (inv_disjoint _ _ _ _ Hinv); [exact Ht|exact Ht'|by right|by left]).
    apply NoDup_cons in Hd as [Hn _]. done.
  - assert (r = r') as ->.
    { eapply (inv_disjoint _ _ _ _ Hinv); [exact Ht|exact Ht'|by right|right; by eapply list_elem_of_lookup_2]. }
    rewrite Ht in Ht'. injection Ht' as <-. apply NoDup_cons in Hd as [_ Hd].
    assert (i' = i) as -> by (by eapply NoDup_lookup).
    exists p. split_and!; try done. exact (node_payload _ _ _ (inv_alloc _ _ _ _ Hinv) En).
  - exfalso. destruct (inv_loose _ _ _ _ Hinv id Hu) as [_ Hn]. apply (Hn r cs Ht). by right.
Qed.

(** Everything in a node but its root, next id, sequence, previous time and reference count. *)
Definition data (n : TraceNode) :=
  (value_ n, context_map_ n, user_optional_setting_func_ n,
   (trace_start_time_ n, expired_time_ n, set_exp_ n), (id_ n, parent_id_ n, depth_ n, skipped_ n),
   status <$> root_node_extra_ptr_ n).

(** Every node in use keeps its data. *)
Definition same_data (p p' : PoolManager) : Prop :=
  (forall id, alive p' id <-> alive p id)
  /\ forall id n, alive p id -> node p (id - 1) = Some n ->
       exists n', node p' (id - 1) = Some n' /\ data n' = data n.

Lemma last_lookup (cs : list Z) : cs <> [] -> exists l, cs !! pred (length cs) = Some l.
Proof. intros H. apply lookup_lt_is_Some_2. destruct cs; [done|]. cbn. lia. Qed.

(** The forest after an append, from the links of the nodes involved. *)
Section append.
Context (T : trees) (R : refs) (s s' : Store) (r : Z) (cs : list Z) (id p : Z) (nn nr : TraceNode).
Hypothesis Hinv : inv T (Some id) R s.
Hypothesis Ht : T !! r = Some cs.
Hypothesis Hp : p ∈ r :: cs.
Hypothesis Ha : alloc_ok (pool s').
Hypothesis Hal : forall j, alive (pool s') j <-> alive (pool s) j.
Hypothesis Hn : node (pool s') (id - 1) = Some nn /\ reference_count_ nn = R id.
Hypothesis Hnl : links nn = (id, r, p, E_INVALID_NODE, zlen cs, None).
Hypothesis Hr : node (pool s') (r - 1) = Some nr /\ reference_count_ nr = R r.
Hypothesis Hrl : links nr = (r, r, r, id_at (cs ++ [id]) 0, sequence_ nr, Some (id, zlen cs + 1)).
Hypothesis Hlast : forall i l, cs !! i = Some l -> S i = length cs ->
  exists nl pl, node (pool s') (l - 1) = Some nl /\ reference_count_ nl = R l
    /\ pl ∈ r :: take i cs /\ links nl = (l, r, pl, id, Z.of_nat i, None).
Hypothesis Hoth : forall j, j <> id -> j <> r -> cs !! pred (length cs) <> Some j ->
  node (pool s') (j - 1) = node (pool s) (j - 1).

Let T' : trees := <[r := cs ++ [id]]> T.

Lemma append_id_fresh : forall r' cs', T !! r' = Some cs' -> id ∉ r' :: cs'.
Proof. by apply (inv_loose _ _ _ _ Hinv id). Qed.

Lemma append_other r' cs' j : T !! r' = Some cs' -> r' <> r -> j ∈ r' :: cs' -> j ∉ r :: cs.
Proof. intros Ht' Hne Hj Hj'. apply Hne. by eapply (inv_disjoint _ _ _ _ Hinv). Qed.

(** The span events of the trace appended to. *)
Lemma append_event_node i j : cs !! i = Some j ->
  exists n, node (pool s') (j - 1) = Some n /\ id_ n = j /\ reference_count_ n = R j
    /\ linked T' j n.
Proof.
  intros Hi. destruct (inv_trees _ _ _ _ Hinv r cs Ht) as [Hd _].
  pose proof (lookup_lt_Some _ _ _ Hi) as Hlt. destruct (decide (S i = length cs)) as [Hil|Hil].
  - destruct (Hlast i j Hi Hil) as (nl & pl & Enl & Ernl & Hpl & Hll). exists nl.
    split_and!; [done| |done|]; [unfold links in Hll; congruence|].
    eapply linked_event; [apply lookup_insert_eq|by rewrite lookup_app_l| |].
    + rewrite take_app_le by lia. exact Hpl.
    + rewrite Hll, id_at_snoc, bool_decide_eq_true_2 by done. done.
  - destruct (inv_event _ _ _ _ _ _ _ _ Hinv Ht Hi) as (m & q & Em & Er & _ & Hq & Hl). exists m.
    assert (j ∈ cs) as Hj by (by eapply list_elem_of_lookup_2).
    apply NoDup_cons in Hd as [Hrn Hd]. rewrite Hoth.
    + split_and!; [done|unfold links in Hl; congruence|done|].
      eapply linked_event; [apply lookup_insert_eq|by rewrite lookup_app_l| |].
      * rewrite take_app_le by lia. exact Hq.
      * rewrite Hl, id_at_snoc, bool_decide_eq_false_2 by done. done.
    + intros ->. apply (append_id_fresh r cs Ht). by right.
    + by intros ->.
    + intros Hlj. pose proof (NoDup_lookup _ _ _ _ Hd Hi Hlj). lia.
Qed.

Lemma append_nodes j : alive (pool s') j ->
  exists n, node (pool s') (j - 1) = Some n /\ id_ n = j /\ reference_count_ n = R j
    /\ linked T' j n.
Proof.
  intros Hj. apply Hal in Hj. destruct (decide (j = id)) as [->|Hjid].
  { destruct Hn as [Hn1 Hn2]. exists nn. split_and!; [done|unfold links in Hnl; congruence|done|].
    eapply linked_event; [apply lookup_insert_eq|apply list_lookup_middle; reflexivity| |].
    - rewrite take_app_length. exact Hp.
    - rewrite Hnl. unfold id_at. rewrite lookup_ge_None_2; [done|]. rewrite length_app; cbn; lia. }
  destruct (decide (j = r)) as [->|Hjr].
  { destruct Hr as [Hr1 Hr2]. exists nr. split_and!; [done|unfold links in Hrl; congruence|done|].
    eapply linked_root; [apply lookup_insert_eq|]. rewrite Hrl. do 3 f_equal.
    - rewrite length_app. cbn. rewrite id_at_snoc, bool_decide_eq_true_2; [done|lia].
    - unfold zlen. rewrite length_app. cbn. lia. }
  destruct (inv_nodes _ _ _ _ Hinv j Hj) as (m & Em & Ei & Er & Hm).
  assert (forall r' cs', T !! r' = Some cs' -> r' <> r -> j ∈ r' :: cs' ->
    node (pool s') (j - 1) = Some m) as Hkeep.
  { intros r' cs' Ht' Hne Hin. rewrite Hoth; [done..|]. intros Hlj.
    apply (append_other r' cs' j Ht' Hne Hin). right. by eapply list_elem_of_lookup_2. }
  destruct Hm as [[cs' Ht' Hl|r' cs' i p' Ht' Hi Hp' Hl]|[[= ->] _]]; [| |done].
  - exists m. split_and!; [by apply (Hkeep j cs'); [..|left]|done..|].
    eapply linked_root; [|exact Hl]. unfold T'. by rewrite lookup_insert_ne.
  - destruct (decide (r' = r)) as [->|Hr'].
    + rewrite Ht in Ht'. injection Ht' as <-. by eapply append_event_node.
    + assert (j ∈ cs') as Hin by (by eapply list_elem_of_lookup_2).
      exists m. split_and!; [by apply (Hkeep r' cs'); [..|right]|done..|].
      eapply linked_event; [unfold T'; by rewrite lookup_insert_ne|done..].
Qed.

Lemma append_old r' cs' j : T' !! r' = Some cs' -> j ∈ r' :: cs' ->
  (j = id /\ r' = r) \/ exists cs0, T !! r' = Some cs0 /\ j ∈ r' :: cs0.
Proof.
  unfold T'. intros H3 Hj. destruct (decide (r' = r)) as [->|Hne].
  - rewrite lookup_insert_eq in H3. injection H3 as <-. rewrite app_comm_cons, elem_of_app in Hj.
    destruct Hj as [Hj|Hj]; [right; by exists cs|]. apply list_elem_of_singleton in Hj as ->. by left.
  - rewrite lookup_insert_ne in H3 by done. right. by exists cs'.
Qed.

Lemma append_trees r' cs' : T' !! r' = Some cs' ->
  NoDup (r' :: cs') /\ Forall (alive (pool s')) (r' :: cs').
Proof.
  assert (forall l, Forall (alive (pool s)) l -> Forall (alive (pool s')) l) as Hfa.
  { intros l Hl. eapply Forall_impl; [exact Hl|]. intros; by apply Hal. }
  unfold T'. intros Ht'. destruct (decide (r' = r)) as [->|Hne].
  - rewrite lookup_insert_eq in Ht'. injection Ht' as <-. rewrite app_comm_cons.
    destruct (inv_trees _ _ _ _ Hinv r cs Ht) as [Hd Hf]. split.
    + apply NoDup_app. split_and!; [done| |by apply NoDup_singleton].
      intros j Hj Hj'. apply list_elem_of_singleton in Hj' as ->. by apply (append_id_fresh r cs Ht).
    + apply Hfa. apply Forall_app. split; [done|]. constructor; [|done].
      by apply (inv_loose _ _ _ _ Hinv id).
  - rewrite lookup_insert_ne in Ht' by done. destruct (inv_trees _ _ _ _ Hinv r' cs' Ht') as [Hd Hf].
    split; [done|by apply Hfa].
Qed.

Lemma append_inv : inv T' None R s'.
Proof.
  split; [done|..].
  - intros j Hj. destruct (append_nodes j Hj) as (n & H1 & H2 & H3 & H4). exists n. auto.
  - exact append_trees.
  - intros r1 cs1 r2 cs2 j H1 H2 Hj1 Hj2.
    destruct (append_old r1 cs1 j H1 Hj1) as [[Ej ->]|(cs1' & H1' & Hj1')];
      destruct (append_old r2 cs2 j H2 Hj2) as [[E ->]|(cs2' & H2' & Hj2')]; [done|..].
    + subst. by destruct (append_id_fresh r2 cs2' H2').
    + subst. by destruct (append_id_fresh r1 cs1' H1').
    + by eapply (inv_disjoint _ _ _ _ Hinv).
  - done.
  - intros j Hj. apply (inv_dead _ _ _ _ Hinv). intros Hj'. apply Hj. by apply Hal.
Qed.

End append.

(** Few enough wrappers for the 32-bit counters. *)
Definition few (R : refs) : Prop := forall j, 0 <= R j < 100.

(** The state between two node updates: what a list of updates made of the pool. *)
Lemma same_data_upd p p' i n n' : 0 <= i ->
  same_data p p' -> node p' i = Some n -> data n' = data n -> same_data p (upd p' i n').
Proof.
  intros Hi [Hal Hd] En Ed. split; [exact Hal|]. intros id m Hid Em.
  destruct (Hd id m Hid Em) as (m' & Em' & Edm). rewrite (node_upd _ _ _ _ _ En).
  case_bool_decide as E; [|by exists m']. subst i. exists n'. split; [done|].
  rewrite En in Em'. injection Em' as ->. congruence.
Qed.

Lemma same_data_refl p : same_data p p.
Proof. split; [done|]. intros id n _ E. by exists n. Qed.

(** The time of the event before a new one. *)
Definition prev_start (p : PoolManager) (r : Z) (cs : list Z) : option Z :=
  trace_start_time_ <$> node p (default r (cs !! pred (length cs)) - 1).

(** What an append promises. *)
Definition appended (T : trees) (R : refs) (r : Z) (cs : list Z) (id : Z) (s s' : Store) : Prop :=
  inv (<[r := cs ++ [id]]> T) None R s' /\ same_data (pool s) (pool s')
  /\ (pre_trace_time_ <$> node (pool s') (id - 1)) = prev_start (pool s) r cs
  /\ ms_clock s' = ms_clock s /\ ms_tick s' = ms_tick s.

(** The node before the new one, with its link set. *)
Definition linked_pool (p : PoolManager) (cs : list Z) (id : Z) : PoolManager :=
  match cs !! pred (length cs) with
  | None => p
  | Some l =>
      match node p (l - 1) with
      | Some x => upd p (l - 1) (set_links x (root_id_ x) (parent_id_ x) id (depth_ x) (sequence_ x))
      | None => p
      end
  end.

Lemma upd_upd p i n n' : upd (upd p i n) i n' = upd p i n'.
Proof. unfold upd, set_nodes. cbn. f_equal. apply list_insert_insert_eq. Qed.

Lemma get_last nr l sq : ((fun x => (last x, sequence x)) <$> root_node_extra_ptr_ nr) = Some (l, sq) ->
  exists x, root_node_extra_ptr_ nr = Some x /\ last x = l /\ sequence x = sq /\ GetLastNode nr = Ok l.
Proof.
  unfold GetLastNode. destruct (root_node_extra_ptr_ nr) as [x|]; [|done]. intros [= <- <-]. by exists x.
Qed.

Lemma link_previous_spec T U R s r cs id : inv T U R s -> few R -> T !! r = Some cs ->
  wp (link_previous (r - 1) id)
    (fun pre s' => Some pre = prev_start (pool s) r cs /\ s' = set_pool s (linked_pool (pool s) cs id))
    (fun _ _ => False) s.
Proof.
  intros Hinv HR Ht. destruct (inv_root _ _ _ _ _ _ Hinv Ht) as (nr & Er & _ & _ & Hl).
  unfold links in Hl. injection Hl as _ _ _ _ Hx. apply get_last in Hx as (x & Ex & _ & _ & Hg).
  unfold link_previous, prev_start, linked_pool. wps. eapply wp_read_node; [exact Er|].
  wps. eapply wp_lift; [exact Hg|]. unfold id_at. destruct (cs !! pred (length cs)) as [l|] eqn:El; cbn [default from_option Datatypes.id].
  2: { rewrite Z.eqb_refl. cbn [negb]. wps. eapply wp_read_node; [exact Er|]. wps. rewrite Er. by destruct s. }
  destruct (inv_event _ _ _ _ _ _ _ _ Hinv Ht El) as (nl & q & Enl & Hlref & _ & _ & _).
  assert (alive (pool s) l) as Hal.
  { destruct (inv_trees _ _ _ _ Hinv r cs Ht) as [_ Hf]. rewrite Forall_forall in Hf. apply Hf.
    right. by eapply list_elem_of_lookup_2. }
  destruct (alive_i32 _ _ (inv_alloc _ _ _ _ Hinv) Hal) as [Hi32 Hl1].
  rewrite (proj2 (Z.eqb_neq l E_INVALID_NODE)) by (unfold E_INVALID_NODE; lia). cbn [negb].
  eapply wp_with_ref; [exact Hinv|done|apply HR| |done]. intros _. rewrite Enl. cbn [default from_option fmap option_fmap option_map Datatypes.id].
  wps. eapply wp_on_node; [node_of|done|]. wps. eapply wp_read_node; [node_of|]. wps.
  split; [done|]. unfold release. cbn [pool set_pool].
  erewrite node_upd_eq by (eapply node_upd_eq; exact Enl). unfold set_pool. cbn [pool ms_clock ms_tick]. f_equal.
  change (set_nodes ?p (<[Z.to_nat ?i := ?n]> (nodes ?p))) with (upd p i n). rewrite !upd_upd. f_equal.
  specialize (HR l). unfold decReference, addReference. cbn. rewrite Hlref. rewrite (i32_small (R l + 1)) by word.
  rewrite i32_small by word. rewrite Z.add_simpl_r, <- Hlref. by destruct nl.
Qed.

Lemma same_data_linked p cs id : same_data p (linked_pool p cs id).
Proof.
  unfold linked_pool. destruct (cs !! pred (length cs)) as [l|]; [|apply same_data_refl].
  destruct (node p (l - 1)) as [x|] eqn:E; [|apply same_data_refl].
  eapply same_data_upd; [pose proof (node_range _ _ _ E); lia|apply same_data_refl|exact E|done].
Qed.

Lemma same_data_trans p1 p2 p3 : same_data p1 p2 -> same_data p2 p3 -> same_data p1 p3.
Proof.
  intros [A1 D1] [A2 D2]. split; [intros id; by rewrite A2, A1|]. intros id n Hal En.
  destruct (D1 id n Hal En) as (n2 & En2 & E2). apply A1 in Hal.
  destruct (D2 id n2 Hal En2) as (n3 & En3 & E3). exists n3. split; [done|congruence].
Qed.

Lemma linked_pool_ne p cs id j : cs !! pred (length cs) <> Some j -> (forall l, l ∈ cs -> 1 <= l) ->
  node (linked_pool p cs id) (j - 1) = node p (j - 1).
Proof.
  unfold linked_pool. intros Hj Hl. destruct (cs !! pred (length cs)) as [l|] eqn:El; [|done].
  destruct (node p (l - 1)); [|done]. apply node_upd_ne.
  - apply list_elem_of_lookup_2 in El. specialize (Hl l El). lia.
  - intros E. apply Hj. f_equal. lia.
Qed.

Lemma linked_pool_alloc p cs id : alloc_ok p -> alloc_ok (linked_pool p cs id).
Proof.
  unfold linked_pool. intros Ha. destruct (cs !! pred (length cs)) as [l|]; [|done].
  destruct (node p (l - 1)) eqn:E; [|done]. apply upd_alloc_ok; [done|]. exact (node_payload _ _ _ Ha E).
Qed.

(** The last event of a trace after [link_previous]. *)
Lemma linked_pool_last T U R s r cs id i l : inv T U R s -> T !! r = Some cs ->
  cs !! i = Some l -> S i = length cs ->
  exists nl pl, node (linked_pool (pool s) cs id) (l - 1) = Some nl /\ reference_count_ nl = R l
    /\ pl ∈ r :: take i cs /\ links nl = (l, r, pl, id, Z.of_nat i, None).
Proof.
  intros Hinv Ht Hi Hlen. destruct (inv_event _ _ _ _ _ _ _ _ Hinv Ht Hi) as (n & p & En & Er & _ & Hp & Hl).
  unfold linked_pool. rewrite <- Hlen. cbn [pred]. rewrite Hi, En. eexists _, p.
  split_and!; [by eapply node_upd_eq|done|done|]. unfold links in *. cbn. congruence.
Qed.

(** The node that is not in a trace yet. *)
Lemma inv_loose_node T R s id : inv T (Some id) R s ->
  exists n, node (pool s) (id - 1) = Some n /\ id_ n = id /\ reference_count_ n = R id
    /\ payload_ok n /\ unlinked n /\ 1 <= id.
Proof.
  intros Hinv. destruct (inv_loose _ _ _ _ Hinv id eq_refl) as [Hal Hfresh].
  destruct (inv_nodes _ _ _ _ Hinv id Hal) as (n & En & Hid & Hnref & Hun). exists n.
  split_and!; [done..|exact (node_payload _ _ _ (inv_alloc _ _ _ _ Hinv) En)| |by destruct Hal; lia].
  destruct Hun as [[cs Ht _|r cs i p Ht Hi _ _]|[_ Hun]]; [..|done]; exfalso; eapply Hfresh; try exact Ht.
  - by left.
  - right. by eapply list_elem_of_lookup_2.
Qed.

Lemma inv_upd_loose T R s id n' : inv T (Some id) R s ->
  id_ n' = id -> reference_count_ n' = R id -> payload_ok n' -> unlinked n' ->
  inv T (Some id) R (set_pool s (upd (pool s) (id - 1) n')).
Proof.
  intros Hinv Hid Hr Hp Hu. destruct (inv_loose_node _ _ _ _ Hinv) as (n & En & _).
  destruct Hinv as [H1 H2 H3 H4 H5 H6]. split; cbn [pool set_pool]; [by apply upd_alloc_ok| |done..].
  intros j Hj. rewrite (node_upd _ _ _ _ _ En). case_bool_decide as E; [|by apply H2].
  assert (j = id) as -> by lia. exists n'. split_and!; [done..|by right].
Qed.

Lemma join_trace_spec s r id pre n nr x :
  1 <= r -> 1 <= id -> id <> r -> alloc_ok (pool s) ->
  node (pool s) (id - 1) = Some n -> node (pool s) (r - 1) = Some nr ->
  root_node_extra_ptr_ nr = Some x ->
  wp (join_trace (r - 1) (id - 1) id pre)
    (fun _ s' =>
       node (pool s') (id - 1) = Some (set_times (set_links n (root_id_ n) (parent_id_ n) (next_ n) (depth_ n) (sequence x))
                                         (trace_start_time_ n) pre (expired_time_ n))
       /\ node (pool s') (r - 1) = Some (set_links (set_extra nr (Some (mkExtra id (status x) (i32 (sequence x + 1)))))
            (root_id_ nr) (parent_id_ nr) (if next_ nr =? E_INVALID_NODE then id else next_ nr) (depth_ nr) (sequence_ nr))
       /\ (forall j, j <> id -> j <> r -> node (pool s') (j - 1) = node (pool s) (j - 1))
       /\ alloc_ok (pool s') /\ same_data (pool s) (pool s')
       /\ ms_clock s' = ms_clock s /\ ms_tick s' = ms_tick s)
    (fun _ _ => False) s.
Proof.
  intros Hr1 Hid1 Hne Ha En Er Ex. unfold join_trace.
  assert (payload_ok n) as Hnp by exact (node_payload _ _ _ Ha En).
  assert (payload_ok nr) as Hrp by exact (node_payload _ _ _ Ha Er).
  wps. eapply wp_on_node; [node_of|done|].
  wps. eapply wp_on_node; [node_of| unfold SetLastNode; rewrite Ex; reflexivity|].
  wps. eapply wp_read_node; [node_of|]. wps. eapply wp_lift; [reflexivity|]. cbv beta iota.
  wps. apply wp_write_node. wps. eapply wp_on_node; [node_of|done|].
  eapply wp_on_node; [node_of|reflexivity|]. split_and!; [node_of|..|done|done].
  - cbn [pool set_pool]. erewrite node_upd_eq; [|node_of]. f_equal. cbn. by case_if.
  - intros j Hj1 Hj2. cbn [pool set_pool]. rewrite !node_upd_ne by lia. done.
  - cbn [pool set_pool]. repeat apply upd_alloc_ok; try done. by case_if.
  - cbn [pool set_pool]. repeat (eapply same_data_upd; [lia| |node_of|]);
      [apply same_data_refl|..|by case_if]; try done.
    unfold data. cbn. by rewrite Ex.
Qed.

Lemma trace_length T U R s r cs : inv T U R s -> T !! r = Some cs -> 0 <= zlen cs < 12928.
Proof.
  intros Hinv Ht. destruct (inv_trees _ _ _ _ Hinv r cs Ht) as [Hd Hf].
  pose proof (alive_count _ _ (inv_alloc _ _ _ _ Hinv) Hd Hf). pose proof (a_limit _ (inv_alloc _ _ _ _ Hinv)).
  unfold POOL_MAX_NODES_LIMIT, CELL_SIZE, zlen in *. cbn in *. lia.
Qed.

Lemma id_at_first cs id : (forall l, l ∈ cs -> 1 <= l) ->
  (if id_at cs 0 =? E_INVALID_NODE then id else id_at cs 0) = id_at (cs ++ [id]) 0.
Proof.
  intros H. destruct cs as [|c cs]; [done|]. cbn.
  rewrite (proj2 (Z.eqb_neq c E_INVALID_NODE)); [done|]. specialize (H c ltac:(by left)).
  unfold E_INVALID_NODE. lia.
Qed.

Lemma AppendToRootTrace_spec T R s r cs id n :
  inv T (Some id) R s -> few R -> T !! r = Some cs ->
  node (pool s) (id - 1) = Some n -> root_id_ n = E_INVALID_NODE -> parent_id_ n ∈ r :: cs ->
  wp (AppendToRootTrace (r - 1) (id - 1)) (fun _ s' => appended T R r cs id s s') (fun _ _ => False) s.
Proof.
  intros Hinv HR Ht En Hroot Hpar.
  destruct (inv_loose_node _ _ _ _ Hinv) as (n0 & En0 & Hid & Hnref & Hnp & [Hnext Hx] & Hid1).
  rewrite En in En0. injection En0 as <-.
  destruct (inv_trees _ _ _ _ Hinv r cs Ht) as [Hd Hf].
  destruct (inv_root _ _ _ _ _ _ Hinv Ht) as (nr & Er & Hrref & Hrp & Hrl).
  destruct (inv_loose _ _ _ _ Hinv id eq_refl) as [Hidal Hfresh]. specialize (Hfresh r cs Ht).
  unfold links in Hrl. injection Hrl as Hri Hrr Hrp' Hrn Hrx. apply get_last in Hrx as (x & Ex & Hxl & Hxs & Hg).
  unfold AppendToRootTrace. wps. eapply wp_read_node; [exact Er|]. wps. eapply wp_lift; [exact Hg|].
  wps. eapply wp_read_node; [exact En|]. rewrite Hroot, Z.eqb_refl, Hri, Hid. cbn [negb].
  wps. eapply wp_on_node; [exact En|done|]. wps.
  set (n1 := set_links n _ _ _ _ _).
  assert (inv T (Some id) R (set_pool s (upd (pool s) (id - 1) n1))) as Hinv1 by (by apply inv_upd_loose).
  set (s1 := set_pool s _) in *.
  assert (node (pool s1) (id - 1) = Some n1) as En1 by (by eapply node_upd_eq).
  assert ((1 <= r /\ id <> r) /\ (r ∉ cs) /\ (id ∉ cs)) as ([Hr1 Hne] & Hrcs & Hidcs).
  { inversion Hf as [|? ? [? _] _]. apply not_elem_of_cons in Hfresh as [? ?]. apply NoDup_cons in Hd as [? _].
    split_and!; [lia|done..]. }
  assert (node (pool s1) (r - 1) = Some nr) as Er1 by (subst s1; node_of).
  assert (forall l, l ∈ cs -> 1 <= l) as Hcs1.
  { intros l Hl. inversion Hf as [|? ? _ Hf']. rewrite Forall_forall in Hf'. destruct (Hf' l Hl); lia. }
  assert (same_data (pool s) (pool s1)) as Hsd1.
  { eapply same_data_upd; [lia|apply same_data_refl|exact En|done]. }
  eapply wp_mono; [exact (link_previous_spec _ _ _ _ _ _ id Hinv1 HR Ht)| |done].
  intros pre s2 [Hpre ->].
  set (p2 := linked_pool (pool s1) cs id).
  assert (node p2 (id - 1) = Some n1) as En2.
  { rewrite <- En1. apply linked_pool_ne; [|done]. intros E. apply list_elem_of_lookup_2 in E. done. }
  assert (node p2 (r - 1) = Some nr) as Er2.
  { rewrite <- Er1. apply linked_pool_ne; [|done]. intros E. apply list_elem_of_lookup_2 in E. done. }
  eapply wp_mono; [eapply (join_trace_spec _ r id pre n1 nr x); try done; cbn [pool set_pool]|..|done].
  { by apply linked_pool_alloc, Hinv1. }
  intros [] s3 (F1 & F2 & F3 & F4 & F5 & F6 & F7). cbn [pool set_pool] in *.
  assert (same_data (pool s) (pool s3)) as Hsd.
  { eapply same_data_trans; [exact Hsd1|]. eapply same_data_trans; [|exact F5]. apply same_data_linked. }
  split_and!; [|done| |done|done].
  - eapply (append_inv T R s1 s3 r cs id (parent_id_ n)); try done.
    + intros j. rewrite (proj1 Hsd). symmetry. apply (proj1 Hsd1).
    + unfold links. cbn. rewrite Hx, Hid, Hxs, Hnext. done.
    + unfold links. cbn. rewrite Hri, Hrr, Hrp', Hrn, Hxs, id_at_first by done.
      pose proof (trace_length _ _ _ _ _ _ Hinv Ht). rewrite i32_small by word. done.
    + intros i l Hi Hlen. assert (l ∈ cs) as Hl by (by eapply list_elem_of_lookup_2).
      rewrite F3 by congruence. by apply (linked_pool_last T (Some id) R s1).
    + intros j Hj1 Hj2 Hj3. rewrite F3 by done. by apply linked_pool_ne.
  - rewrite F1. cbn. rewrite Hpre. unfold prev_start. f_equal. subst s1. cbn [pool set_pool].
    apply node_upd_ne; [lia|]. destruct (cs !! pred (length cs)) as [l|] eqn:El; cbn; [|lia].
    apply list_elem_of_lookup_2 in El. intros E. apply Hidcs. by replace id with l by lia.
Qed.

(** ** Freeing a trace *)

Definition drop_node (p : PoolManager) (id : Z) : PoolManager :=
  mkPM (<[Z.to_nat (id - 1) := false]> (usedNodeSet_ p)) (maxId p) ((id - 1) :: _freeNodeList p) (nodes p).

Definition drop_nodes (p : PoolManager) (ids : list Z) : PoolManager := foldl drop_node p ids.

Lemma drop_node_alive p id j : alloc_ok p -> alive p id ->
  alive (drop_node p id) j <-> alive p j /\ j <> id.
Proof.
  intros Ha [Hid Hu]. unfold alive, drop_node. cbn. pose proof (a_used _ Ha). pose proof (a_max _ Ha) as Hm.
  unfold zlen in Hm. destruct (decide (j = id)) as [->|Hne].
  - rewrite list_lookup_insert_eq by lia. split; by intros [_ ?].
  - split.
    + intros [Hj E]. rewrite list_lookup_insert_ne in E by lia. done.
    + intros [[Hj E] _]. split; [done|]. by rewrite list_lookup_insert_ne by lia.
Qed.

Lemma drop_node_alloc p id : alloc_ok p -> alive p id -> alloc_ok (drop_node p id).
Proof.
  intros Ha [Hid Hu]. pose proof Ha as [Hm Hl Hn Hf Hlim Hk Hp]. pose proof Hm as Hm'. unfold zlen in Hm'.
  split; cbn; try done.
  - by rewrite length_insert.
  - apply NoDup_cons. split; [|done]. rewrite Hf. intros [_ E]. congruence.
  - intros i. rewrite elem_of_cons, Hf. destruct (decide (i = id - 1)) as [->|Hne].
    + split; [|by left]. intros _. split; [lia|]. rewrite list_lookup_insert_eq by lia. done.
    + split.
      * intros [?|[Hi E]]; [done|]. split; [done|]. by rewrite list_lookup_insert_ne by lia.
      * intros [Hi E]. right. rewrite list_lookup_insert_ne in E by lia. done.
Qed.

Lemma drop_nodes_spec ids : forall p, alloc_ok p -> NoDup ids -> Forall (alive p) ids ->
  alloc_ok (drop_nodes p ids) /\ nodes (drop_nodes p ids) = nodes p
  /\ forall j, alive (drop_nodes p ids) j <-> alive p j /\ j ∉ ids.
Proof.
  induction ids as [|id ids IH]; intros p Ha Hd Hf; cbn.
  { split_and!; [done..|]. intros j. rewrite elem_of_nil. tauto. }
  apply NoDup_cons in Hd as [Hn Hd]. inversion Hf as [|? ? Hid Hf']; subst.
  pose proof (fun j => drop_node_alive p id j Ha Hid) as Hal.
  destruct (IH (drop_node p id)) as (H1 & H2 & H3); [by apply drop_node_alloc|done|..].
  { rewrite Forall_forall in Hf' |- *. intros j Hj. apply Hal. split; [by apply Hf'|]. by intros ->. }
  split_and!; [done..|]. intros j. rewrite H3, Hal, elem_of_cons. tauto.
Qed.

Lemma returnNode_spec s id n force : alloc_ok (pool s) -> alive (pool s) id ->
  node (pool s) (id - 1) = Some n ->
  returnNode id E_INVALID_NODE force s
  = (Ok (if negb (IsNotReference n) && negb force then (false, E_INVALID_NODE) else (true, next_ n)),
     if negb (IsNotReference n) && negb force then s else set_pool s (drop_node (pool s) id)).
Proof.
  intros Ha Hal En. destruct (alive_i32 _ _ Ha Hal) as [Hi32 Hid]. unfold returnNode.
  rewrite bind_get, indexInUsedVec_spec, bool_decide_eq_true_2, bind_lift by done. cbn [negb].
  assert (getUsedNode id s = (Ok (id - 1), s)) as Hg.
  { pose proof (wp_getUsedNode id (fun i s' => i = id - 1 /\ s' = s) (fun _ _ => False) s Ha Hi32) as W.
    unfold wp in W. destruct (getUsedNode id s) as [[] ?]; try (by exfalso; apply W); [].
    by destruct W as [-> ->]. }
  rewrite (bind_run _ _ _ _ _ Hg). assert (read_node (id - 1) s = (Ok n, s)) as Hrd.
  { unfold read_node. rewrite bind_get. by rewrite En. }
  rewrite (bind_run _ _ _ _ _ Hrd). destruct (negb (IsNotReference n) && negb force); [done|].
  rewrite bind_modify. rewrite i32_small by word. done.
Qed.

(** A node in use is freed whatever its count: after a thousand tries by force. *)
Lemma ReturnNode_spec s id n : alloc_ok (pool s) -> alive (pool s) id ->
  node (pool s) (id - 1) = Some n ->
  ReturnNode id s = (Ok (next_ n), set_pool s (drop_node (pool s) id)).
Proof.
  intros Ha Hal En. unfold ReturnNode. generalize 1000%nat. induction n0 as [|k IH]; cbn [return_loop].
  - rewrite (bind_run _ _ _ _ _ (returnNode_spec s id n true Ha Hal En)). by rewrite andb_false_r.
  - rewrite (bind_run _ _ _ _ _ (returnNode_spec s id n false Ha Hal En)). rewrite andb_true_r.
    by destruct (IsNotReference n).
Qed.

Lemma node_nodes p p' i : nodes p' = nodes p -> node p' i = node p i.
Proof. unfold node. by intros ->. Qed.

(** Following the chain of next ids frees exactly the ids on it. *)
Lemma free_loop_spec p0 cs : (forall i id, cs !! i = Some id ->
    exists n, node p0 (id - 1) = Some n /\ next_ n = id_at cs (S i)) ->
  forall fuel i s, (length cs - i < fuel)%nat -> (i <= length cs)%nat -> nodes (pool s) = nodes p0 ->
  alloc_ok (pool s) -> NoDup (drop i cs) -> Forall (alive (pool s)) (drop i cs) ->
  free_loop fuel (id_at cs i) s = (Ok tt, set_pool s (drop_nodes (pool s) (drop i cs))).
Proof.
  intros Hch. induction fuel as [|fuel IH]; intros i s Hf Hi Hn Ha Hd Hal; [lia|]. cbn [free_loop].
  unfold id_at. destruct (cs !! i) as [id|] eqn:Ei; cbn [default from_option Datatypes.id].
  2: { rewrite Z.eqb_refl. apply lookup_ge_None in Ei. rewrite drop_ge by done. by destruct s. }
  destruct (Hch i id Ei) as (n & En & Hnx). pose proof (lookup_lt_Some _ _ _ Ei).
  rewrite (drop_S _ _ _ Ei) in Hd, Hal |- *. apply NoDup_cons in Hd as [Hnin Hd].
  inversion Hal as [|? ? Hid Hal']; subst.
  rewrite (proj2 (Z.eqb_neq id E_INVALID_NODE)) by (destruct Hid; unfold E_INVALID_NODE; lia).
  rewrite (bind_run _ _ _ _ _ (ReturnNode_spec s id n Ha Hid ltac:(by rewrite (node_nodes _ _ _ Hn)))), Hnx.
  rewrite IH; [done|lia|lia|done|by apply drop_node_alloc|done|].
  cbn [pool set_pool]. rewrite Forall_forall in Hal' |- *. intros j Hj.
  apply drop_node_alive; [done..|]. split; [by apply Hal'|]. by intros ->.
Qed.

Lemma FreeNodeTree_spec T U R s r cs : inv T U R s -> T !! r = Some cs ->
  FreeNodeTree r s = (Ok tt, set_pool s (drop_nodes (pool s) (r :: cs))).
Proof.
  intros Hinv Ht. pose proof (inv_alloc _ _ _ _ Hinv) as Ha.
  destruct (inv_trees _ _ _ _ Hinv r cs Ht) as [Hd Hf].
  pose proof (alive_count _ _ Ha Hd Hf) as Hc. rewrite (a_max _ Ha) in Hc. unfold zlen in Hc. cbn in Hc.
  inversion Hf as [|? ? Hr Hf']; subst. apply NoDup_cons in Hd as [Hn Hd].
  destruct (inv_root _ _ _ _ _ _ Hinv Ht) as (nr & Er & _ & _ & Hl). unfold links in Hl. injection Hl as _ _ _ Hnx _.
  unfold FreeNodeTree. destruct (alive_i32 _ _ Ha Hr) as [_ Hr1].
  rewrite (proj2 (Z.eqb_neq r E_INVALID_NODE)) by (unfold E_INVALID_NODE; lia).
  rewrite (proj2 (Z.eqb_neq r E_ROOT_NODE)) by (unfold E_ROOT_NODE; lia). cbn [orb].
  rewrite bind_get, (bind_run _ _ _ _ _ (ReturnNode_spec s r nr Ha Hr Er)), Hnx.
  rewrite (free_loop_spec (pool s) cs); cbn [pool set_pool]; [done| |lia|lia|done|by apply drop_node_alloc|done|].
  - intros i id Hi. destruct (inv_event _ _ _ _ _ _ _ _ Hinv Ht Hi) as (n & p & En & _ & _ & _ & Hl).
    exists n. split; [done|]. unfold links in Hl. congruence.
  - rewrite Forall_forall in Hf' |- *. intros j Hj. apply drop_node_alive; [done..|].
    split; [by apply Hf'|]. by intros ->.
Qed.

(** The forest without a trace nobody holds. *)
Lemma drop_inv T U R s r cs : inv T U R s -> T !! r = Some cs -> (forall j, j ∈ r :: cs -> R j = 0) ->
  inv (delete r T) U R (set_pool s (drop_nodes (pool s) (r :: cs))).
Proof.
  intros Hinv Ht HR. pose proof Hinv as [H1 H2 H3 H4 H5 H6]. destruct (H3 r cs Ht) as [Hd Hf].
  destruct (drop_nodes_spec (r :: cs) (pool s) H1 Hd Hf) as (Ha & Hn & Hal).
  assert (forall r' cs', delete r T !! r' = Some cs' -> T !! r' = Some cs' /\ r' <> r) as Hdel.
  { intros r' cs' E. apply lookup_delete_Some in E as [? ?]. done. }
  split; cbn [pool set_pool]; [done|..].
  - intros id Hid. apply Hal in Hid as [Hid Hnot]. destruct (H2 id Hid) as (n & En & Ei & Er & Hl).
    exists n. rewrite (node_nodes _ _ _ Hn). split_and!; [done..|].
    destruct Hl as [[cs' Ht' Hl|r' cs' i p Ht' Hi Hp Hl]|Hl]; [left|left|by right].
    + eapply linked_root; [|exact Hl]. rewrite lookup_delete_ne; [done|]. intros ->. apply Hnot. by left.
    + eapply linked_event; [|done..]. rewrite lookup_delete_ne; [done|]. intros ->. apply Hnot. right.
      rewrite Ht in Ht'. injection Ht' as ->. by eapply list_elem_of_lookup_2.
  - intros r' cs' [Ht' Hne]%Hdel. destruct (H3 r' cs' Ht') as [Hd' Hf']. split; [done|].
    rewrite Forall_forall in Hf' |- *. intros j Hj. apply Hal. split; [by apply Hf'|].
    intros Hj'. apply Hne. by eapply H4.
  - intros r1 cs1 r2 cs2 id [E1 _]%Hdel [E2 _]%Hdel. by eapply H4.
  - intros id HU. destruct (H5 id HU) as [Hid Hnin]. split; [|intros ? ? [E _]%Hdel; by apply Hnin].
    apply Hal. split; [done|]. by apply Hnin.
  - intros id Hid. destruct (decide (id ∈ r :: cs)) as [Hin|Hnin]; [by apply HR|].
    apply H6. intros Hid'. apply Hid. by apply Hal.
Qed.

(** ** Encoding a trace *)

(** The JSON object of a span event: its payload, ended at a time of the clock if it
    still runs. *)
Definition reported (clk : nat -> Z) (n : TraceNode) (ev : Value) : Prop :=
  if expired_time_ n =? -1
  then exists k, ev = objectValue (put_all (end_members n (clk k)) (payload n))
  else ev = value_ n.

(** The member "event" can collect. *)
Definition event_slot (v : Value) : Prop :=
  exists m, as_object v = Ok m /\ sorted m
    /\ match default nullValue (find (bs "event") m) with nullValue | arrayValue _ => True | _ => False end.

(** [v] with [evs] collected under "event". *)
Definition with_events (v : Value) (evs : list Value) : outcome Value :=
  foldl (fun r ev => v ← r; append_at v (bs "event") ev) (Ok v) evs.

(** Appending an event: the slot stays one; anything else throws. *)
Lemma event_append n ev : payload_ok n ->
  (exists v', append_at (value_ n) (bs "event") ev = Ok v' /\ payload_ok (set_value n v') /\ event_slot v')
  \/ append_at (value_ n) (bs "event") ev = Throw json_logic_error /\ ~ event_slot (value_ n).
Proof.
  intros [Hm Hs]. set (m := payload n) in *. unfold append_at. rewrite Hm. cbn [mbind outcome_bind].
  assert (forall l, let v := objectValue (put (bs "event") (arrayValue l) m) in
    payload_ok (set_value n v) /\ event_slot v) as Hslot.
  { intros l. assert (sorted (put (bs "event") (arrayValue l) m)) by (by apply put_sorted).
    split; [by split|]. eexists. split_and!; [done..|]. by rewrite find_put, bool_decide_eq_true_2. }
  destruct (default nullValue (find (bs "event") m)) as [| | | | | |l|] eqn:Ef;
    cbn [append mbind outcome_bind mret outcome_ret].
  1: left; eexists; split; [done|apply Hslot].
  6: left; eexists; split; [done|apply Hslot].
  all: right; split; [done|]; intros (m' & Hm' & _ & Hd); rewrite Hm in Hm'; injection Hm' as <-; by rewrite Ef in Hd.
Qed.

Lemma with_events_snoc v ev evs : with_events v (ev :: evs) = (v' ← append_at v (bs "event") ev; with_events v' evs).
Proof.
  unfold with_events. cbn [foldl mbind outcome_bind].
  destruct (append_at v (bs "event") ev) as [v'|e| |]; [done|..]; cbn [mbind outcome_bind]; by induction evs.
Qed.

Lemma node_release i j s : i <> j -> 0 <= i -> node (pool (release i s)) j = node (pool s) j.
Proof.
  intros Hne Hi. unfold release. destruct (node (pool s) i); [|done]. cbn. by apply node_upd_ne.
Qed.

Lemma EndTrace_links n now n' : payload_ok n -> Node.EndTrace n now = Ok n' ->
  links n' = links n /\ reference_count_ n' = reference_count_ n /\ payload_ok n'
  /\ value_ n' = objectValue (put_all (end_members n now) (payload n)).
Proof.
  intros Hp. rewrite EndTrace_ok by done. intros [= <-]. split_and!; [done..| |done].
  split; [done|]. exact (put_all_sorted (end_members n now) (payload n) (proj2 Hp)).
Qed.

(** The event's node at the time it is appended. *)
Lemma force_end_spec T U R s c n : inv T U R s -> alive (pool s) c -> node (pool s) (c - 1) = Some n ->
  wp (if expired_time_ n =? -1 then now ← get_unix_time_ms; on_node (c - 1) (fun n => Node.EndTrace n now)
      else mret tt)
    (fun _ s' => inv T U R s' /\ (forall j, j <> c -> node (pool s') (j - 1) = node (pool s) (j - 1))
       /\ ms_clock s' = ms_clock s
       /\ exists n', node (pool s') (c - 1) = Some n' /\ reported (ms_clock s) n (value_ n'))
    (fun _ _ => False) s.
Proof.
  intros Hinv Hal En. unfold reported. case_if; [|wps; split_and!; [done..|by exists n]].
  assert (payload_ok n) as Hp by exact (node_payload _ _ _ (inv_alloc _ _ _ _ Hinv) En).
  wps. apply wp_get_time. set (now := ms_clock s (ms_tick s)). set (s1 := mkStore _ _ _).
  assert (inv T U R s1) as Hinv1 by (by apply (inv_pool T U R s)).
  destruct (Node.EndTrace n now) as [n'|e| |] eqn:Ee; try by rewrite EndTrace_ok in Ee.
  destruct (EndTrace_links n now n' Hp Ee) as (H1 & H2 & H3 & H4).
  eapply wp_on_node; [exact En|exact Ee|]. split_and!.
  - by apply (inv_upd_data T U R s1 c n n').
  - intros j Hj. cbn. apply node_upd_ne; [destruct Hal; lia|lia].
  - done.
  - exists n'. split; [by eapply node_upd_eq|]. by exists (ms_tick s).
Qed.

Lemma encode_event_spec T U R s r cs i c n nr :
  inv T U R s -> few R -> T !! r = Some cs -> cs !! i = Some c ->
  node (pool s) (c - 1) = Some n -> node (pool s) (r - 1) = Some nr ->
  wp (with_ref c (encode_event (r - 1)))
    (fun nx s' => nx = next_ n /\ inv T U R s' /\ ms_clock s' = ms_clock s
       /\ (forall j, j <> c -> j <> r -> node (pool s') (j - 1) = node (pool s) (j - 1))
       /\ exists ev v', reported (ms_clock s) n ev /\ append_at (value_ nr) (bs "event") ev = Ok v'
          /\ payload_ok (set_value nr v') /\ event_slot v' /\ node (pool s') (r - 1) = Some (set_value nr v'))
    (fun e s' => e = json_logic_error /\ inv T U R s' /\ ~ event_slot (value_ nr)) s.
Proof.
  intros Hinv HR Ht Hi En Er.
  destruct (inv_trees _ _ _ _ Hinv r cs Ht) as [Hd Hf]. rewrite Forall_forall in Hf.
  assert (c ∈ cs) as Hc by (by eapply list_elem_of_lookup_2). apply NoDup_cons in Hd as [Hrn Hd].
  assert (alive (pool s) c) as Hcal by (apply Hf; by right). assert (alive (pool s) r) as Hral by (apply Hf; by left).
  destruct (alive_i32 _ _ (inv_alloc _ _ _ _ Hinv) Hcal) as [Hci Hc1].
  destruct (alive_i32 _ _ (inv_alloc _ _ _ _ Hinv) Hral) as [_ Hr1].
  assert (c <> r) as Hcr by (by intros ->).
  eapply wp_with_ref; [exact Hinv|done|apply HR| |done]. intros _. rewrite En. cbn [default from_option fmap option_fmap option_map Datatypes.id].
  pose proof (acquire_inv _ _ _ _ _ _ Hinv Hcal (HR c) En) as Hinv1.
  set (s1 := set_pool s _) in *. unfold encode_event.
  assert (node (pool s1) (c - 1) = Some (addReference n)) as En1 by (by eapply node_upd_eq).
  assert (alive (pool s1) c) as Hcal1 by done.
  wps. eapply wp_read_node; [exact En1|]. wps.
  eapply wp_mono; [exact (force_end_spec _ _ _ _ _ _ Hinv1 Hcal1 En1)| |done].
  intros [] s2 (Hinv2 & Hoth2 & Hclk & n2 & En2 & Hrep). wps. eapply wp_read_node; [exact En2|].
  assert (node (pool s2) (r - 1) = Some nr) as Er2 by (rewrite Hoth2 by done; subst s1; node_of).
  destruct (inv_trees _ _ _ _ Hinv2 r cs Ht) as [_ Hf2]. rewrite Forall_forall in Hf2.
  assert (payload_ok nr) as Hpr by exact (node_payload _ _ _ (inv_alloc _ _ _ _ Hinv2) Er2).
  wps. destruct (event_append nr (value_ n2) Hpr) as [(v' & Ev & Hpv & Hslot)|[Ev Hno]].
  2: { unfold on_node. wps. eapply wp_read_node; [exact Er2|]. wps.
       eapply wp_lift_throw; [unfold AppendAnnotation; by rewrite Ev|]. split_and!; [done| |done].
       apply release_inv; [done| |apply HR]. apply Hf2. by right. }
  assert (inv T U (radd c R) (set_pool s2 (upd (pool s2) (r - 1) (set_value nr v')))) as Hinv3.
  { apply (inv_upd_data _ _ _ _ _ nr); [done|apply Hf2; by left|done..]. }
  eapply wp_on_node; [exact Er2|unfold AppendAnnotation; by rewrite Ev|]. wps. split_and!.
  - done.
  - apply release_inv; [done| |apply HR]. apply alive_upd, Hf2. by right.
  - unfold release. cbn. by destruct (node (upd _ _ _) _).
  - intros j Hj1 Hj2. rewrite node_release by lia. cbn. rewrite node_upd_ne by lia.
    rewrite Hoth2 by done. subst s1. cbn. apply node_upd_ne; lia.
  - exists (value_ n2), v'. split_and!; [exact Hrep|done..|].
    rewrite node_release by lia. cbn. by eapply node_upd_eq.
Qed.

Lemma encode_loop_spec T U R r cs s0 : few R -> T !! r = Some cs ->
  forall fuel i s nr, (length cs - i < fuel)%nat -> (i <= length cs)%nat -> inv T U R s ->
  ms_clock s = ms_clock s0 ->
  (forall j, j ∈ drop i cs -> node (pool s) (j - 1) = node (pool s0) (j - 1)) ->
  node (pool s) (r - 1) = Some nr ->
  wp (encode_loop fuel (r - 1) (id_at cs i))
    (fun _ s' => inv T U R s' /\ ms_clock s' = ms_clock s0 /\ exists evs v',
       Forall2 (fun c ev => exists n, node (pool s0) (c - 1) = Some n /\ reported (ms_clock s0) n ev) (drop i cs) evs
       /\ with_events (value_ nr) evs = Ok v' /\ payload_ok (set_value nr v')
       /\ node (pool s') (r - 1) = Some (set_value nr v'))
    (fun e s' => e = json_logic_error /\ inv T U R s' /\ ~ event_slot (value_ nr) /\ (i < length cs)%nat) s.
Proof.
  intros HR Ht. induction fuel as [|fuel IH]; intros i s nr Hf Hi Hinv Hclk Hn Er; [lia|].
  cbn [encode_loop]. unfold id_at. destruct (cs !! i) as [c|] eqn:Ei; cbn [default from_option Datatypes.id].
  2: { rewrite Z.eqb_refl. wps. split_and!; [done..|]. apply lookup_ge_None in Ei. rewrite drop_ge by done.
       exists [], (value_ nr). assert (set_value nr (value_ nr) = nr) as -> by (by destruct nr).
       split_and!; [constructor|done|exact (node_payload _ _ _ (inv_alloc _ _ _ _ Hinv) Er)|done]. }
  destruct (inv_event _ _ _ _ _ _ _ _ Hinv Ht Ei) as (n & p & En & _ & _ & _ & Hl).
  destruct (inv_trees _ _ _ _ Hinv r cs Ht) as [Hd Hfa]. rewrite Forall_forall in Hfa.
  assert (c ∈ cs) as Hc by (by eapply list_elem_of_lookup_2).
  assert (1 <= c) by (by destruct (Hfa c ltac:(by right)); lia).
  rewrite (proj2 (Z.eqb_neq c E_INVALID_NODE)) by (unfold E_INVALID_NODE; lia).
  pose proof (lookup_lt_Some _ _ _ Ei). wps. eapply wp_mono; [eapply encode_event_spec; done| |by intros ? ? (? & ? & ?)].
  intros nx s1 (-> & Hinv1 & Hclk1 & Hoth & ev & v1 & Hrep & Hap & Hp1 & Hslot1 & Er1).
  assert (next_ n = id_at cs (S i)) as -> by (unfold links in Hl; congruence).
  rewrite (drop_S _ _ _ Ei) in Hn |- *.
  apply NoDup_cons in Hd as [Hrn Hd].
  eapply wp_mono; [apply (IH (S i) s1 (set_value nr v1)); [lia|lia|done|congruence| |done]|..].
  - intros j Hj. rewrite Hoth; [apply Hn; by right|..].
    + intros ->. rewrite <- (take_drop i cs), (drop_S _ _ _ Ei) in Hd.
      apply NoDup_app in Hd as (_ & _ & Hd). by apply NoDup_cons in Hd as [? _].
    + intros ->. apply Hrn. rewrite list_elem_of_lookup in Hj. destruct Hj as [k Hk]. rewrite lookup_drop in Hk. by eapply list_elem_of_lookup_2.
  - intros [] s2 (Hinv2 & Hclk2 & evs & v' & Hevs & Hw & Hp' & Er2). split_and!; [done..|].
    exists (ev :: evs), v'. split_and!; [|by rewrite with_events_snoc, Hap|done..].
    constructor; [|done]. exists n. rewrite <- Hn, <- Hclk by (by left). done.
  - intros e s2 (-> & Hinv2 & Hno & _). done.
Qed.

Lemma run_options_meta os : forall b n, exists sk,
  snd (run_options os b n) = set_options n (user_optional_setting_func_ n) sk.
Proof.
  induction os as [|o os IH]; intros b n; cbn; [exists (skipped_ n); by destruct n|].
  assert (exists sk, snd (run_option o n) = set_options n (user_optional_setting_func_ n) sk) as [sk Hsk].
  { destruct o; cbn; [case_if|]; eexists; [|done|done]. instantiate (1 := skipped_ n). by destruct n. }
  destruct (run_option o n) as [b' n'] eqn:E. cbn in Hsk. subst n'. destruct b'; [by exists sk|].
  destruct (IH false (set_options n (user_optional_setting_func_ n) sk)) as [sk' Hsk']. exists sk'.
  rewrite Hsk'. done.
Qed.

(** A payload without "event" collects the events in order under it. *)
Lemma with_events_absent v m evs : as_object v = Ok m -> sorted m -> find (bs "event") m = None -> evs <> [] ->
  with_events v evs = Ok (objectValue (put (bs "event") (arrayValue evs) m)).
Proof.
  intros Hm Hs Hf Hne. destruct evs as [|ev evs]; [done|]. clear Hne.
  assert (forall l l', with_events (objectValue (put (bs "event") (arrayValue l) m)) l'
    = Ok (objectValue (put (bs "event") (arrayValue (l ++ l')) m))) as Hgen.
  { intros l l'. revert l. induction l' as [|e l' IH]; intros l; [by rewrite app_nil_r|].
    rewrite with_events_snoc. unfold append_at. cbn [as_object mbind outcome_bind mret outcome_ret].
    rewrite find_put, bool_decide_eq_true_2 by done. cbn [default from_option append mbind outcome_bind mret outcome_ret Datatypes.id].
    assert (put (bs "event") (arrayValue (l ++ [e])) (put (bs "event") (arrayValue l) m)
      = put (bs "event") (arrayValue (l ++ [e])) m) as ->.
    { apply sorted_ext; [by repeat apply put_sorted|by apply put_sorted|].
      intros k. rewrite !find_put. by case_bool_decide. }
    rewrite IH, <- app_assoc. done. }
  rewrite with_events_snoc. unfold append_at. rewrite Hm. cbn [mbind outcome_bind]. rewrite Hf.
  cbn [default from_option append mbind outcome_bind mret outcome_ret Datatypes.id]. apply (Hgen [ev]).
Qed.

(** The payloads of the events of a trace, in start order. *)
Definition events_of (s : Store) (cs : list Z) (evs : list Value) : Prop :=
  Forall2 (fun c ev => exists n, node (pool s) (c - 1) = Some n /\ reported (ms_clock s) n ev) cs evs.

Lemma EncodeTraceToJsonSpan_spec T U R s r cs nr :
  inv T U R s -> few R -> T !! r = Some cs -> node (pool s) (r - 1) = Some nr ->
  wp (EncodeTraceToJsonSpan (r - 1))
    (fun v s' => inv T U R s' /\ ms_clock s' = ms_clock s /\ exists evs,
       events_of s cs evs /\ with_events (value_ nr) evs = Ok v)
    (fun e s' => e = json_logic_error /\ inv T U R s' /\ ~ event_slot (value_ nr) /\ cs <> []) s.
Proof.
  intros Hinv HR Ht Er. unfold EncodeTraceToJsonSpan. wps. eapply wp_read_node; [exact Er|].
  destruct (inv_root _ _ _ _ _ _ Hinv Ht) as (nr' & Er' & _ & Hp & Hl). rewrite Er in Er'. injection Er' as <-.
  unfold links in Hl. injection Hl as Hi Hrt _ Hnx _. unfold IsRootNode. rewrite Hi, Hrt, Z.eqb_refl. cbn [negb].
  destruct (inv_trees _ _ _ _ Hinv r cs Ht) as [Hd Hf].
  pose proof (alive_count _ _ (inv_alloc _ _ _ _ Hinv) Hd Hf) as Hc.
  rewrite (a_max _ (inv_alloc _ _ _ _ Hinv)) in Hc. unfold zlen in Hc. cbn in Hc.
  wps. wps. wps. rewrite Hnx.
  eapply wp_mono; [apply (encode_loop_spec T U R r cs s HR Ht _ 0 s nr); [lia|lia|done..]| |].
  2: { intros e s' (-> & ? & ? & Hlt). split_and!; [done..|]. intros ->. cbn in Hlt. lia. }
  intros [] s1 (Hinv1 & Hclk & evs & v' & Hevs & Hw & Hp' & Er1). rewrite drop_0 in Hevs.
  destruct (run_options_meta (user_optional_setting_func_ nr) true (set_value nr v')) as [sk Hsk].
  wps. eapply wp_on_node; [exact Er1|unfold runUserOptionFunc; cbn [user_optional_setting_func_ set_value]; by rewrite Hsk|].
  wps. eapply wp_read_node; [by eapply node_upd_eq|]. wps. split_and!; [|done|by exists evs].
  apply (inv_upd_data _ _ _ _ _ (set_value nr v')); try done.
  destruct (inv_trees _ _ _ _ Hinv1 r cs Ht) as [_ Hf1]. by inversion Hf1.
Qed.

(** A new trace. *)
Lemma upgrade_inv T R s id n' : inv T (Some id) R s -> payload_ok n' -> reference_count_ n' = R id ->
  links n' = (id, id, id, E_INVALID_NODE, sequence_ n', Some (E_INVALID_NODE, 0)) ->
  inv (<[id := []]> T) None R (set_pool s (upd (pool s) (id - 1) n')).
Proof.
  intros Hinv Hp Hr Hl. destruct (inv_loose_node _ _ _ _ Hinv) as (n & En & _).
  destruct (inv_loose _ _ _ _ Hinv id eq_refl) as [Hal Hfresh].
  destruct Hinv as [H1 H2 H3 H4 H5 H6].
  assert (forall r cs, <[id := []]> T !! r = Some cs -> (r = id /\ cs = []) \/ (T !! r = Some cs /\ r <> id)) as Hins.
  { intros r cs E. apply lookup_insert_Some in E as [[? ?]|[? ?]]; auto. }
  assert (T !! id = None) as Hnone.
  { destruct (T !! id) as [cs|] eqn:E; [|done]. exfalso. apply (Hfresh id cs E). by left. }
  split; cbn [pool set_pool]; [by apply upd_alloc_ok|..|done|done].
  - intros j Hj. rewrite (node_upd _ _ _ _ _ En). case_bool_decide as E.
    + assert (j = id) as -> by lia. exists n'. split_and!; [done|unfold links in Hl; congruence|done|].
      left. eapply linked_root; [apply lookup_insert_eq|exact Hl].
    + destruct (H2 j Hj) as (m & Em & Ei & Erf & Hm). exists m. split_and!; [done..|]. left.
      destruct Hm as [[cs' Ht' Hm|r' cs' i p Ht' Hi Hpp Hm]|[[= ->] _]]; [..|done].
      * eapply linked_root; [|exact Hm]. by rewrite lookup_insert_ne by congruence.
      * eapply linked_event; [|done..]. by rewrite lookup_insert_ne by congruence.
  - intros r cs [[-> ->]|[E _]]%Hins; [|by apply H3]. split; [apply NoDup_singleton|by constructor].
  - intros r1 cs1 r2 cs2 j [[-> ->]|[E1 N1]]%Hins [[-> ->]|[E2 N2]]%Hins Hj1 Hj2; [done|..|by eapply H4].
    + apply list_elem_of_singleton in Hj1 as ->. by destruct (Hfresh r2 cs2 E2).
    + apply list_elem_of_singleton in Hj2 as ->. by destruct (Hfresh r1 cs1 E1).
Qed.

(** ** The empty pool and the counters *)

Lemma empty_alloc : alloc_ok (mkPM [] E_ROOT_NODE [] []).
Proof.
  split; cbn; try done; [apply NoDup_nil_2|..].
  - intros i. rewrite elem_of_nil. split; [done|]. unfold E_ROOT_NODE. intros [? _]. lia.
  - exists 0. done.
Qed.

Lemma new_inv clk t : inv ∅ None (fun _ => 0) (mkStore new_PoolManager clk t).
Proof.
  assert (inv ∅ None (fun _ => 0) (mkStore (mkPM [] E_ROOT_NODE [] []) clk t)) as Hinv.
  { split; cbn; try done; [apply empty_alloc|].
    intros id [H _]. cbn in H. unfold E_ROOT_NODE in H. lia. }
  apply (expand_inv _ _ _ _ Hinv). cbn. unfold E_ROOT_NODE, POOL_MAX_NODES_LIMIT, CELL_SIZE. lia.
Qed.

Lemma filter_split {A} (P : A -> Prop) `{!forall x, Decision (P x)} (l : list A) :
  (length (filter P l) + length (filter (fun x => ~ P x) l) = length l)%nat.
Proof.
  induction l as [|x l IH]; [done|]. rewrite !filter_cons. cbn [length].
  destruct (decide (P x)), (decide (~ P x)); cbn [length]; try done; lia.
Qed.

Lemma alive_ids_spec p id : alloc_ok p -> id ∈ alive_ids p <-> alive p id.
Proof.
  intros Ha. unfold alive_ids, alive. rewrite list_elem_of_fmap. split.
  - intros (i & -> & Hi). apply list_elem_of_filter in Hi as [Hu Hi]. apply elem_of_seq in Hi.
    replace (Z.to_nat (Z.of_nat i + 1 - 1)) with i by lia. split; [lia|done].
  - intros [Hid Hu]. exists (Z.to_nat (id - 1)). split; [lia|]. apply list_elem_of_filter.
    split; [done|]. apply elem_of_seq. lia.
Qed.

(** Nodes are either free or in use. *)
Lemma alloc_count p : alloc_ok p ->
  zlen (_freeNodeList p) + zlen (alive_ids p) = zlen (nodes p).
Proof.
  intros Ha. pose proof (a_max _ Ha) as Hm. pose proof (a_used _ Ha) as Hu.
  set (N := seq 0 (Z.to_nat (maxId p))).
  assert (_freeNodeList p ≡ₚ Z.of_nat <$> filter (fun i => ~ usedNodeSet_ p !! i = Some true) N) as Hperm.
  { apply NoDup_Permutation; [apply Ha| |].
    - apply NoDup_fmap_2; [intros ???; lia|]. apply NoDup_filter, NoDup_seq.
    - intros i. rewrite (a_free _ Ha), list_elem_of_fmap. split.
      + intros [Hi E]. exists (Z.to_nat i). split; [lia|]. apply list_elem_of_filter.
        split; [congruence|]. apply elem_of_seq. lia.
      + intros (k & -> & Hk). apply list_elem_of_filter in Hk as [Hk Hin]. apply elem_of_seq in Hin.
        split; [lia|]. rewrite Nat2Z.id. destruct (used_bit p (Z.of_nat k) Ha) as [E|E]; [lia|..];
          rewrite Nat2Z.id in E; done. }
  apply Permutation_length in Hperm. rewrite length_fmap in Hperm. unfold alive_ids, zlen in *.
  rewrite length_fmap, Hperm. pose proof (filter_split (fun i => usedNodeSet_ p !! i = Some true) N) as Hs.
  unfold N in *. rewrite length_seq in Hs. lia.
Qed.

(** The ids of a forest. *)
Definition in_forest (T : trees) (id : Z) : Prop := exists r cs, T !! r = Some cs /\ id ∈ r :: cs.

Lemma inv_alive T U R s id : inv T U R s ->
  alive (pool s) id <-> in_forest T id \/ U = Some id.
Proof.
  intros Hinv. split.
  - intros Hal. destruct (inv_nodes _ _ _ _ Hinv id Hal) as (n & _ & _ & _ & [Hl|[? _]]); [left|by right].
    destruct Hl as [cs Ht _|r cs i p Ht Hi _ _].
    + exists id, cs. split; [done|by left].
    + exists r, cs. split; [done|]. right. by eapply list_elem_of_lookup_2.
  - intros [(r & cs & Ht & Hin)|HU].
    + destruct (inv_trees _ _ _ _ Hinv r cs Ht) as [_ Hf]. rewrite Forall_forall in Hf. by apply Hf.
    + by apply (inv_loose _ _ _ _ Hinv id).
Qed.

Lemma count_u32 p : alloc_ok p ->
  totalNodesCount p = zlen (nodes p) /\ freeNodesCount p = zlen (_freeNodeList p).
Proof.
  intros Ha. pose proof (alloc_count p Ha) as Hc. pose proof (a_limit _ Ha) as Hl. rewrite (a_max _ Ha) in Hl.
  unfold totalNodesCount, freeNodesCount, POOL_MAX_NODES_LIMIT, CELL_SIZE, zlen in *.
  split; apply u32_small; word.
Qed.

Lemma UpgradeToRootNode_ok n ty : payload_ok n ->
  exists n', UpgradeToRootNode n ty = Ok n' /\ payload_ok n' /\ reference_count_ n' = reference_count_ n
    /\ links n' = (id_ n, id_ n, id_ n, E_INVALID_NODE, 0, Some (E_INVALID_NODE, 0))
    /\ value_ n' = objectValue (put (bs ":FT") (intValue ty) (payload n))
    /\ same_meta (set_links (set_extra n (Some new_extra)) (id_ n) (id_ n) E_INVALID_NODE 0 0) n'.
Proof.
  intros Hp. unfold UpgradeToRootNode. set (n1 := set_links _ _ _ _ _ _).
  assert (payload_ok n1) as Hp1 by done.
  destruct (AddAnnotation_ok n1 (bs ":FT") (intValue ty) Hp1) as [-> Hp2]. eexists. split; [done|]. by split_and!.
Qed.

Lemma upgrade_spec T R s id ty : inv T (Some id) R s ->
  wp (on_node (id - 1) (fun n => UpgradeToRootNode n ty))
    (fun _ s' => inv (<[id := []]> T) None R s' /\ ms_clock s' = ms_clock s /\ ms_tick s' = ms_tick s
       /\ (forall j, alive (pool s') j <-> alive (pool s) j)
       /\ forall j, j <> id -> node (pool s') (j - 1) = node (pool s) (j - 1))
    (fun _ _ => False) s.
Proof.
  intros Hinv. destruct (inv_loose_node _ _ _ _ Hinv) as (n & En & Hid & Hr & Hp & _ & Hid1).
  destruct (UpgradeToRootNode_ok n ty Hp) as (n' & E & Hp' & Hr' & Hl & _).
  eapply wp_on_node; [exact En|exact E|]. split_and!; [|done|done|done|].
  - apply upgrade_inv; [done|done|congruence|]. rewrite Hl, Hid.
    assert (sequence_ n' = 0) as -> by (unfold links in Hl; congruence). done.
  - intros j Hj. cbn. apply node_upd_ne; lia.
Qed.

(** ** Theorems *)

(** Allocation never hands out a node twice.  From a pool that represents the forest
    [T], [GetNode] returns a node whose id was not in use, reset and in no trace, and
    leaves every other node as it was, unless no node is free and the pool has grown past
    its limit, in which case it throws [out_of_range] and leaves the pool unchanged. *)
Theorem GetNode_fresh T R s :
  inv T None R s ->
  wp GetNode (fun i s' => ~ full (pool s) /\ inv T (Some (i + 1)) R s' /\ allocated s i s')
    (fun e s' => full (pool s) /\ e = out_of_range /\ s' = s) s.
Proof. apply GetNode_spec. Qed.

(** A trace lists its events in start order.  Appending the new node [id] to the trace
    of root [r] makes it the last of [r]'s events: the chain of next ids, the root's last
    id and the sequence numbers again agree with the forest, the payloads, contexts and
    times of all nodes stay, and the new node's previous time is the start time of the
    event before it (of the root for the first event).  It never fails. *)
Theorem AppendToRootTrace_appends T R s r cs id n :
  inv T (Some id) R s -> few R -> T !! r = Some cs ->
  node (pool s) (id - 1) = Some n -> root_id_ n = E_INVALID_NODE -> parent_id_ n ∈ r :: cs ->
  wp (AppendToRootTrace (r - 1) (id - 1))
    (fun _ s' => inv (<[r := cs ++ [id]]> T) None R s' /\ same_data (pool s) (pool s')
       /\ (pre_trace_time_ <$> node (pool s') (id - 1)) = prev_start (pool s) r cs)
    (fun _ _ => False) s.
Proof.
  intros. eapply wp_mono; [by eapply AppendToRootTrace_spec| |done].
  by intros [] s' (? & ? & ? & _).
Qed.

(** C20: ending a trace frees exactly its nodes.  [FreeNodeTree r] returns, the ids that are
    no longer in use are [r] and its events, the forest loses that trace and nothing else
    changes, and the pool has one more free node for each of them. *)
Theorem FreeNodeTree_exact T R s r cs :
  inv T None R s -> T !! r = Some cs -> (forall j, j ∈ r :: cs -> R j = 0) ->
  exists s', FreeNodeTree r s = (Ok tt, s') /\ inv (delete r T) None R s'
    /\ (forall j, alive (pool s') j <-> alive (pool s) j /\ j ∉ r :: cs)
    /\ nodes (pool s') = nodes (pool s)
    /\ freeNodesCount (pool s') = freeNodesCount (pool s) + 1 + zlen cs.
Proof.
  intros Hinv Ht HR. pose proof (inv_alloc _ _ _ _ Hinv) as Ha.
  destruct (inv_trees _ _ _ _ Hinv r cs Ht) as [Hd Hf].
  destruct (drop_nodes_spec (r :: cs) (pool s) Ha Hd Hf) as (Ha' & Hn & Hal).
  eexists. split; [by eapply FreeNodeTree_spec|]. split_and!; [by apply drop_inv|done|done|].
  destruct (count_u32 _ Ha) as [_ ->]. cbn [pool set_pool]. destruct (count_u32 _ Ha') as [_ ->].
  assert (forall ids p, zlen (_freeNodeList (drop_nodes p ids)) = zlen (_freeNodeList p) + zlen ids) as Hc.
  { induction ids as [|j ids IH]; intros p; [unfold zlen; cbn; lia|]. cbn [drop_nodes foldl].
    change (foldl drop_node (drop_node p j) ids) with (drop_nodes (drop_node p j) ids). rewrite IH. unfold zlen. cbn. lia. }
  rewrite Hc. unfold zlen. cbn. lia.
Qed.

(** The span of a trace holds every event once, in start order.  For a root whose
    payload has no member "event", the result is the root's payload with "event" set to
    the array of the payloads of its events; an event still running is ended first.  The
    loop over the chain ends and the forest stays. *)
Theorem EncodeTraceToJsonSpan_events T R s r cs nr :
  inv T None R s -> few R -> T !! r = Some cs -> node (pool s) (r - 1) = Some nr ->
  find (bs "event") (payload nr) = None ->
  wp (EncodeTraceToJsonSpan (r - 1))
    (fun v s' => inv T None R s' /\ exists evs, events_of s cs evs
       /\ v = if bool_decide (evs = []) then value_ nr
              else objectValue (put (bs "event") (arrayValue evs) (payload nr)))
    (fun _ _ => False) s.
Proof.
  intros Hinv HR Ht Er Hf.
  destruct (node_payload _ _ _ (inv_alloc _ _ _ _ Hinv) Er) as [Hm Hs].
  eapply wp_mono; [by eapply EncodeTraceToJsonSpan_spec|..].
  - intros v s' (Hinv' & _ & evs & Hev & Hw). split; [done|]. exists evs. split; [done|].
    case_bool_decide as E.
    + subst evs. unfold with_events in Hw. cbn in Hw. congruence.
    + rewrite (with_events_absent _ (payload nr)) in Hw by done. congruence.
  - intros e s' (_ & _ & Hno & _). destruct Hno. exists (payload nr). split_and!; [done..|]. by rewrite Hf.
Qed.

(** The pool's accounting.  In every pool that represents a forest, free nodes and
    nodes in use add up to the capacity, the capacity is a multiple of 128 and at most
    12928, the ids [Status] lists as alive are exactly the ids of the forest, and a pool
    without traces passes [NoNodesLeak]. *)
Theorem pool_accounting T R s :
  inv T None R s ->
  freeNodesCount (pool s) + zlen (alive_ids (pool s)) = totalNodesCount (pool s)
  /\ totalNodesCount (pool s) <= POOL_MAX_NODES_LIMIT + CELL_SIZE
  /\ (exists k, totalNodesCount (pool s) = CELL_SIZE * k)
  /\ (forall id, id ∈ alive_ids (pool s) <-> in_forest T id)
  /\ (T = ∅ -> NoNodesLeak (pool s) = true).
Proof.
  intros Hinv. pose proof (inv_alloc _ _ _ _ Hinv) as Ha. destruct (count_u32 _ Ha) as [Et Ef].
  pose proof (alloc_count _ Ha) as Hc.
  assert (forall id, id ∈ alive_ids (pool s) <-> in_forest T id) as Hids.
  { intros id. rewrite alive_ids_spec, (inv_alive _ _ _ _ id Hinv) by done. split; [by intros [|]|by left]. }
  split_and!; [lia|..|exact Hids|].
  - rewrite Et, <- (a_max _ Ha). apply Ha.
  - rewrite Et, <- (a_max _ Ha). apply Ha.
  - intros ->. unfold NoNodesLeak. apply Z.eqb_eq. rewrite Et, Ef.
    destruct (alive_ids (pool s)) as [|id l]; [unfold zlen in *; cbn in Hc; lia|].
    exfalso. destruct (proj1 (Hids id)) as (r & cs & E & _); [by left|]. done.
Qed.

(** ** A small forest: one trace, root 128, with the event 127 *)

Lemma wp_state {S A} (m : M S A) Q E s a : wp m Q E s -> (m s).1 = Ok a -> Q a (m s).2.
Proof. unfold wp. destruct (m s) as [r s']. cbn. by intros H ->. Qed.

Definition no_refs : refs := fun _ => 0.

Lemma no_refs_few : few no_refs.
Proof. intros j. unfold no_refs. lia. Qed.

Definition demo0 : Store := mkStore new_PoolManager (fun t => 1000 + Z.of_nat t) 0.
Definition demo1 : Store := (GetNode demo0).2.
Definition demo2 : Store := (on_node 127 (fun n => UpgradeToRootNode n 1500) demo1).2.
Definition demo3 : Store := (GetNode demo2).2.
Definition demo4 : Store := (on_node 126 (fun n => Ok (set_links n (-1) 128 (-1) 1 (-1))) demo3).2.
Definition demo5 : Store := (AppendToRootTrace 127 126 demo4).2.

Lemma demo1_inv : inv ∅ (Some 128) no_refs demo1.
Proof.
  pose proof (GetNode_spec ∅ no_refs demo0 (new_inv _ _)) as W.
  by apply (wp_state _ _ _ _ 127) in W as (_ & Hinv & _); [|vm_compute].
Qed.

Lemma demo2_inv : inv {[128 := []]} None no_refs demo2.
Proof.
  pose proof (upgrade_spec _ _ _ _ 1500 demo1_inv) as W.
  by apply (wp_state _ _ _ _ tt) in W as [Hinv _]; [|vm_compute].
Qed.

Lemma demo3_inv : inv {[128 := []]} (Some 127) no_refs demo3.
Proof.
  pose proof (GetNode_spec _ _ _ demo2_inv) as W.
  by apply (wp_state _ _ _ _ 126) in W as (_ & Hinv & _); [|vm_compute].
Qed.

Definition demo_event : TraceNode := default new_TraceNode (node (pool demo4) 126).

Lemma demo4_inv : inv {[128 := []]} (Some 127) no_refs demo4.
Proof.
  destruct (inv_loose_node _ _ _ _ demo3_inv) as (n & En & Hid & Hr & Hp & [_ Hx] & _).
  assert (wp (on_node 126 (fun n => Ok (set_links n (-1) 128 (-1) 1 (-1))))
    (fun _ s' => inv {[128 := []]} (Some 127) no_refs s') (fun _ _ => False) demo3) as W.
  { eapply wp_on_node; [exact En|done|]. by apply (inv_upd_loose _ _ _ _ _ demo3_inv). }
  by apply (wp_state _ _ _ _ tt) in W; [|vm_compute].
Qed.

Lemma demo5_inv : inv {[128 := [127]]} None no_refs demo5.
Proof.
  assert (wp (AppendToRootTrace 127 126) (fun _ s' => appended {[128 := []]} no_refs 128 [] 127 demo4 s')
    (fun _ _ => False) demo4) as W.
  { apply (AppendToRootTrace_spec _ _ _ 128 [] 127 demo_event demo4_inv no_refs_few);
      [vm_compute; reflexivity..|by left]. }
  apply (wp_state _ _ _ _ tt) in W as [Hinv _]; [|vm_compute; reflexivity].
  by rewrite insert_singleton_eq in Hinv.
Qed.

Lemma GetNode_fresh_witness :
  wp GetNode (fun i s' => ~ full (pool demo5) /\ inv {[128 := [127]]} (Some (i + 1)) no_refs s' /\ allocated demo5 i s')
    (fun e s' => full (pool demo5) /\ e = out_of_range /\ s' = demo5) demo5.
Proof. apply (GetNode_fresh {[128 := [127]]} no_refs demo5). apply demo5_inv. Defined.

Lemma AppendToRootTrace_appends_witness :
  wp (AppendToRootTrace 127 126)
    (fun _ s' => inv (<[128 := [127]]> {[128 := []]}) None no_refs s' /\ same_data (pool demo4) (pool s')
       /\ (pre_trace_time_ <$> node (pool s') 126) = prev_start (pool demo4) 128 [])
    (fun _ _ => False) demo4.
Proof.
  apply (AppendToRootTrace_appends {[128 := []]} no_refs demo4 128 [] 127 demo_event).
  - apply demo4_inv.
  - apply no_refs_few.
  - vm_compute. reflexivity.
  - vm_compute. reflexivity.
  - vm_compute. reflexivity.
  - by left.
Defined.

Lemma FreeNodeTree_exact_witness :
  exists s', FreeNodeTree 128 demo5 = (Ok tt, s') /\ inv (delete 128 {[128 := [127]]}) None no_refs s'
    /\ (forall j, alive (pool s') j <-> alive (pool demo5) j /\ j ∉ [128; 127])
    /\ nodes (pool s') = nodes (pool demo5)
    /\ freeNodesCount (pool s') = freeNodesCount (pool demo5) + 1 + 1.
Proof.
  apply (FreeNodeTree_exact {[128 := [127]]} no_refs demo5 128 [127]).
  - apply demo5_inv.
  - vm_compute. reflexivity.
  - reflexivity.
Defined.

Definition demo_root : TraceNode := default new_TraceNode (node (pool demo5) 127).

Lemma EncodeTraceToJsonSpan_events_witness :
  wp (EncodeTraceToJsonSpan 127)
    (fun v s' => inv {[128 := [127]]} None no_refs s' /\ exists evs, events_of demo5 [127] evs
       /\ v = if bool_decide (evs = []) then value_ demo_root
              else objectValue (put (bs "event") (arrayValue evs) (payload demo_root)))
    (fun _ _ => False) demo5.
Proof.
  apply (EncodeTraceToJsonSpan_events {[128 := [127]]} no_refs demo5 128 [127] demo_root).
  - apply demo5_inv.
  - apply no_refs_few.
  - vm_compute. reflexivity.
  - vm_compute. reflexivity.
  - vm_compute. reflexivity.
Defined.

Lemma pool_accounting_witness :
  freeNodesCount (pool demo5) + zlen (alive_ids (pool demo5)) = totalNodesCount (pool demo5)
  /\ totalNodesCount (pool demo5) <= POOL_MAX_NODES_LIMIT + CELL_SIZE
  /\ (exists k, totalNodesCount (pool demo5) = CELL_SIZE * k)
  /\ (forall id, id ∈ alive_ids (pool demo5) <-> in_forest {[128 := [127]]} id)
  /\ ({[128 := [127]]} = (∅ : trees) -> NoNodesLeak (pool demo5) = true).
Proof. apply (pool_accounting {[128 := [127]]} no_refs demo5). apply demo5_inv. Defined.

End Forest.
