(* ===== verification/Threads.v ===== *)
(** * The pool shared by threads: [NodePool::ThreadSafePoolManager]
      (common/src/NodePool/PoolManager.h)

    Built with [PINPOINT_MT], as the Python extension is, the agent's pool is shared by
    the threads of the process: every override of [ThreadSafePoolManager] takes the lock
    and calls the plain method.  The step relation interleaves these critical sections
    with what threads do without the lock: write to nodes, destroy wrappers (an atomic
    decrement) and sleep between the tries of [ReturnNode].  An abstract pool of ids and
    handles says what the threads are promised. *)
From Stdlib Require Import ZArith Lia.
From S2P Require Import Prelude Json JsonWriter CLib TraceNode PoolManager Forest.

Module Threads.
Import Node Pool Forest.

(** ** Interleaved executions *)

(** [wrappers] are the live [WrapperTraceNodePtr] objects: the thread that owns one and
    the index of its node.  [freeing] holds the threads inside [FreeNodeTree]: the id being
    returned and the tries of [ReturnNode] that are left before it frees by force. *)
Record SharedPool := mkShared {
  store : Store;
  wrappers : list (nat * Z);
  freeing : gmap nat (Z * nat)
}.

Definition set_store (m : SharedPool) (s : Store) : SharedPool := mkShared s (wrappers m) (freeing m).

(** What an observer sees of a step: the thread, and the id or the count concerned. *)
Inductive event :=
| Got (t : nat) (id : Z)
| Full (t : nat)
| Referred (t : nat) (id : Z)
| Refused (t : nat) (id : Z)
| Released (t : nat) (id : Z)
| Wrote (t : nat) (id : Z)
| CountedFree (t : nat) (c : Z)
| CountedAll (t : nat) (c : Z)
| Listed (t : nat) (ids : list Z)
| Began (t : nat) (id : Z)
| Waited (t : nat) (id : Z)
| Freed (t : nat) (id : Z)
| Gone (t : nat) (id : Z)
| Forced (t : nat) (id : Z).

#[export] Instance event_eq_dec : EqDecision event.
Proof. solve_decision. Defined.

Definition thread_of (e : event) : nat :=
  match e with
  | Got t _ | Full t | Referred t _ | Refused t _ | Released t _ | Wrote t _ | CountedFree t _
  | CountedAll t _ | Listed t _ | Began t _ | Waited t _ | Freed t _ | Gone t _ | Forced t _ => t
  end.

(** The loop of [FreeNodeTree] in a thread, after [ReturnNode] gave [next]. *)
Definition go_on (t : nat) (next : Z) (f : gmap nat (Z * nat)) : gmap nat (Z * nat) :=
  if next =? E_INVALID_NODE then delete t f else <[t := (next, 1000%nat)]> f.

(** The end of one [ReturnNode]: how it ended depends on whether the node was in use. *)
Definition returned (t : nat) (id : Z) (force : bool) (p : PoolManager) : event :=
  if bool_decide (alive p id) then if force then Forced t id else Freed t id else Gone t id.

Inductive step : event -> SharedPool -> SharedPool -> Prop :=
| step_get m t i s :
    freeing m !! t = None -> GetNode (store m) = (Ok i, s) ->
    step (Got t (i + 1)) m (set_store m s)
| step_full m t e s :
    freeing m !! t = None -> GetNode (store m) = (Throw e, s) ->
    step (Full t) m (set_store m s)
| step_refer m t id i s :
    freeing m !! t = None -> in_i32 id -> ReferNode id (store m) = (Ok i, s) ->
    step (Referred t id) m (mkShared s ((t, i) :: wrappers m) (freeing m))
| step_refused m t id e s :
    freeing m !! t = None -> in_i32 id -> ReferNode id (store m) = (Throw e, s) ->
    step (Refused t id) m (set_store m s)
| step_release m t i ws1 ws2 :
    freeing m !! t = None -> wrappers m = ws1 ++ (t, i) :: ws2 ->
    step (Released t (i + 1)) m (mkShared (release i (store m)) (ws1 ++ ws2) (freeing m))
(* any member function of [TraceNode] but the private counting *)
| step_write m t i n n' :
    freeing m !! t = None -> node (pool (store m)) i = Some n ->
    reference_count_ n' = reference_count_ n -> payload_ok n' -> in_i32 (next_ n') ->
    step (Wrote t (i + 1)) m (set_store m (set_pool (store m) (upd (pool (store m)) i n')))
| step_count_free m t :
    freeing m !! t = None -> step (CountedFree t (freeNodesCount (pool (store m)))) m m
| step_count_all m t :
    freeing m !! t = None -> step (CountedAll t (totalNodesCount (pool (store m)))) m m
| step_list m t :
    freeing m !! t = None -> step (Listed t (alive_ids (pool (store m)))) m m
| step_begin m t id :
    freeing m !! t = None -> in_i32 id -> id <> E_INVALID_NODE -> id <> E_ROOT_NODE ->
    step (Began t id) m (mkShared (store m) (wrappers m) (<[t := (id, 1000%nat)]> (freeing m)))
| step_wait m t id k next s :
    freeing m !! t = Some (id, S k) ->
    returnNode id E_INVALID_NODE false (store m) = (Ok (false, next), s) ->
    step (Waited t id) m (mkShared s (wrappers m) (<[t := (id, k)]> (freeing m)))
| step_return m t id k next s :
    freeing m !! t = Some (id, S k) ->
    returnNode id E_INVALID_NODE false (store m) = (Ok (true, next), s) ->
    step (returned t id false (pool (store m))) m (mkShared s (wrappers m) (go_on t next (freeing m)))
| step_force m t id r next s :
    freeing m !! t = Some (id, O) ->
    returnNode id E_INVALID_NODE true (store m) = (Ok (r, next), s) ->
    step (returned t id true (pool (store m))) m (mkShared s (wrappers m) (go_on t next (freeing m))).

(** Reference counts are [int]s: an execution has fewer than [2^31] wrappers at a time. *)
Definition few_wrappers (m : SharedPool) : Prop := zlen (wrappers m) < 2 ^ 31.

Inductive run : list event -> SharedPool -> SharedPool -> Prop :=
| run_nil m : run [] m m
| run_cons e es m1 m2 m3 : step e m1 m2 -> few_wrappers m2 -> run es m2 m3 -> run (e :: es) m1 m3.

(** The process starts with a new pool. *)
Definition shared0 (clk : nat -> Z) : SharedPool := mkShared (mkStore new_PoolManager clk 0) [] ∅.

(** ** What threads are promised *)

(** The ids in use, the handles on them and the capacity. *)
Record Spec := mkSpec {
  capacity : Z;
  live : gset Z;
  handles : list (nat * Z)
}.

Definition full (a : Spec) : Prop := Z.of_nat (size (live a)) = capacity a.

#[export] Instance full_dec a : Decision (full a).
Proof. unfold full. apply _. Defined.

Definition held (a : Spec) (id : Z) : Prop := id ∈ (snd <$> handles a).

(** A full pool grows by a cell. *)
Definition grown (a : Spec) : Z := if decide (full a) then capacity a + CELL_SIZE else capacity a.

Inductive spec_step : event -> Spec -> Spec -> Prop :=
| spec_get a t id :
    id ∉ live a -> 1 <= id <= grown a -> ~ (full a /\ POOL_MAX_NODES_LIMIT < capacity a) ->
    spec_step (Got t id) a (mkSpec (grown a) ({[id]} ∪ live a) (handles a))
| spec_full a t :
    full a -> POOL_MAX_NODES_LIMIT < capacity a -> spec_step (Full t) a a
| spec_refer a t id :
    id ∈ live a -> spec_step (Referred t id) a (mkSpec (capacity a) (live a) ((t, id) :: handles a))
| spec_refused a t id :
    id ∉ live a -> spec_step (Refused t id) a a
| spec_release a t id hs1 hs2 :
    handles a = hs1 ++ (t, id) :: hs2 ->
    spec_step (Released t id) a (mkSpec (capacity a) (live a) (hs1 ++ hs2))
| spec_write a t id :
    spec_step (Wrote t id) a a
| spec_count_free a t :
    spec_step (CountedFree t (capacity a - Z.of_nat (size (live a)))) a a
| spec_count_all a t :
    spec_step (CountedAll t (capacity a)) a a
| spec_list a t ids :
    NoDup ids -> list_to_set ids = live a -> spec_step (Listed t ids) a a
| spec_begin a t id :
    spec_step (Began t id) a a
| spec_wait a t id :
    id ∈ live a -> held a id -> spec_step (Waited t id) a a
| spec_free a t id :
    id ∈ live a -> ~ held a id ->
    spec_step (Freed t id) a (mkSpec (capacity a) (live a ∖ {[id]}) (handles a))
| spec_gone a t id :
    id ∉ live a -> spec_step (Gone t id) a a.

Inductive spec_run : list event -> Spec -> Spec -> Prop :=
| spec_nil a : spec_run [] a a
| spec_cons e es a1 a2 a3 : spec_step e a1 a2 -> spec_run es a2 a3 -> spec_run (e :: es) a1 a3.

(** The abstract pool that a shared pool implements. *)
Definition handle (w : nat * Z) : nat * Z := (w.1, w.2 + 1).

Definition abstract (m : SharedPool) : Spec :=
  mkSpec (maxId (pool (store m))) (list_to_set (alive_ids (pool (store m)))) (handle <$> wrappers m).

(** ** The invariant *)

Definition holders (m : SharedPool) (i : Z) : Z := zlen (filter (fun w => w.2 = i) (wrappers m)).

(** Allocation is exact, wrappers are on nodes in use, and reference counts count them. *)
Record shared_ok (m : SharedPool) : Prop := mkOk {
  ok_alloc : alloc_ok (pool (store m));
  ok_held : forall t i, (t, i) ∈ wrappers m -> alive (pool (store m)) (i + 1);
  ok_count : forall i n, alive (pool (store m)) (i + 1) -> node (pool (store m)) i = Some n ->
    reference_count_ n = holders m i /\ in_i32 (next_ n);
  ok_freeing : forall t id k, freeing m !! t = Some (id, k) -> in_i32 id;
  ok_few : few_wrappers m
}.

Definition not_forced (e : event) : Prop := forall t id, e <> Forced t id.


(** ** The simulation *)

Lemma live_alive p id : alloc_ok p -> id ∈@{gset Z} list_to_set (alive_ids p) <-> alive p id.
Proof. intros Ha. by rewrite elem_of_list_to_set, alive_ids_spec. Qed.

Lemma alive_ids_NoDup p : NoDup (alive_ids p).
Proof. apply NoDup_fmap_2; [intros ???; lia|]. apply NoDup_filter, NoDup_seq. Qed.

Lemma size_live p : alloc_ok p ->
  Z.of_nat (size (list_to_set (alive_ids p) : gset Z)) = maxId p - zlen (_freeNodeList p).
Proof.
  intros Ha. rewrite size_list_to_set by apply alive_ids_NoDup.
  pose proof (alloc_count p Ha) as Hc. pose proof (a_max _ Ha). unfold zlen in *. lia.
Qed.

Lemma full_free m : alloc_ok (pool (store m)) ->
  full (abstract m) <-> _freeNodeList (pool (store m)) = [].
Proof.
  intros Ha. unfold full. cbn [abstract live capacity]. rewrite size_live by done.
  destruct (_freeNodeList (pool (store m))); unfold zlen; cbn; split; (done || lia).
Qed.

Lemma held_holders m i : held (abstract m) (i + 1) <-> holders m i <> 0.
Proof.
  unfold held, holders, zlen. cbn [abstract handles]. rewrite list_elem_of_fmap. split.
  - intros ([t j] & E & Hin). apply list_elem_of_fmap in Hin as ([t' j'] & [= -> ->] & Hin). cbn in E.
    assert ((t', j') ∈ filter (fun w => w.2 = i) (wrappers m)) as Hf by (apply list_elem_of_filter; cbn; split; [lia|done]).
    destruct (filter _ _); [by apply elem_of_nil in Hf|cbn; lia].
  - intros Hn. destruct (filter (fun w => w.2 = i) (wrappers m)) as [|[t j] l] eqn:E; [done|].
    assert ((t, j) ∈ filter (fun w => w.2 = i) (wrappers m)) as Hf by (rewrite E; by left).
    apply list_elem_of_filter in Hf as [Hj Hf]. cbn in Hj. subst j.
    exists (t, i + 1). split; [done|]. apply list_elem_of_fmap. by exists (t, i).
Qed.

Lemma holders_bound m i : few_wrappers m -> 0 <= holders m i < 2 ^ 31.
Proof.
  unfold few_wrappers, holders, zlen. intros H.
  pose proof (length_filter (fun w => w.2 = i) (wrappers m)). lia.
Qed.

Lemma held_alive m id : shared_ok m -> held (abstract m) id -> alive (pool (store m)) id.
Proof.
  intros Hok Hh. unfold held in Hh. apply list_elem_of_fmap in Hh as (w & -> & Hin).
  apply list_elem_of_fmap in Hin as ([t j] & -> & Hin). by apply (ok_held _ Hok t).
Qed.

(** [IsNotReference] is the absence of handles. *)
Lemma not_referenced m i n : shared_ok m -> alive (pool (store m)) (i + 1) ->
  node (pool (store m)) i = Some n -> IsNotReference n = true <-> ~ held (abstract m) (i + 1).
Proof.
  intros Hok Hal En. destruct (ok_count _ Hok i n Hal En) as [Hc _].
  unfold IsNotReference. rewrite Hc, held_holders. rewrite Z.eqb_eq. lia.
Qed.

(** The simulation is a step of the abstract pool and the invariant. *)
Definition simulated (e : event) (m m' : SharedPool) : Prop :=
  shared_ok m' /\ spec_step e (abstract m) (abstract m').

Lemma abstract_store m s : pool s = pool (store m) -> abstract (set_store m s) = abstract m.
Proof. intros E. unfold abstract. cbn. by rewrite E. Qed.

Lemma get_simulated m t i s : shared_ok m -> GetNode (store m) = (Ok i, s) ->
  simulated (Got t (i + 1)) m (set_store m s).
Proof.
  intros Hok E. pose proof Hok as [Ha Hh Hc Hf Hw]. pose proof (GetNode_alloc _ Ha) as W.
  unfold wp in W. rewrite E in W. destruct W as (p' & -> & [Ha' Hd Hr Hal Ho (n & En & Hn)] & Hm).
  split.
  - split; cbn; [done|..|done|done].
    + intros t' j Hj. apply Hal. left. by apply (Hh t').
    + intros j nj Hj Ej. apply Hal in Hj as [Hj|Hj].
      * destruct (node_exists _ j Ha) as [nj' Ej']; [destruct Hj; lia|].
        assert (j <> i) as Hne by (by intros ->).
        rewrite (Ho _ _ Hne Ej') in Ej. injection Ej as <-. by apply Hc.
      * assert (j = i) as -> by lia. rewrite En in Ej. injection Ej as <-.
        destruct Hn as ([Hnx _] & _ & _ & _ & _ & _ & _ & _ & ->). rewrite Hnx. split; [|done].
        symmetry. change (holders m i = 0). destruct (decide (holders m i = 0)) as [|Hn]; [done|]. exfalso.
        apply Hd. apply held_holders in Hn. by apply held_alive.
  - assert (abstract (set_store m (set_pool (store m) p'))
      = mkSpec (grown (abstract m)) ({[i + 1]} ∪ live (abstract m)) (handles (abstract m))) as ->.
    { unfold abstract at 1. cbn [store set_store pool set_pool wrappers]. f_equal.
      - unfold grown. destruct (decide (full (abstract m))) as [Hfu|Hfu]; rewrite (full_free m Ha) in Hfu.
        + rewrite decide_True in Hm by done. apply Hm.
        + by rewrite decide_False in Hm.
      - apply set_eq. intros id. cbn [live abstract]. rewrite elem_of_union, elem_of_singleton, !live_alive, Hal by done. tauto. }
    constructor.
    + cbn [live abstract]. by rewrite live_alive.
    + assert (alive p' (i + 1)) as [Hi _] by (apply Hal; by right). unfold grown.
      destruct (decide (full (abstract m))) as [Hfu|Hfu]; rewrite (full_free m Ha) in Hfu.
      * rewrite decide_True in Hm by done. cbn [capacity abstract]. lia.
      * rewrite decide_False in Hm by done. cbn [capacity abstract]. lia.
    + rewrite (full_free m Ha). intros [Hfu Hl]. rewrite decide_True in Hm by done. cbn [capacity abstract] in Hl. lia.
Qed.

Lemma full_simulated m t e s : shared_ok m -> GetNode (store m) = (Throw e, s) ->
  simulated (Full t) m (set_store m s).
Proof.
  intros Hok E. pose proof (ok_alloc _ Hok) as Ha. pose proof (GetNode_alloc _ Ha) as W.
  unfold wp in W. rewrite E in W. destruct W as (-> & -> & Hl & Hf). destruct m as [s ws f]. split; [done|].
  constructor; [|done]. by apply full_free.
Qed.

Lemma ReferNode_answer s id : alloc_ok (pool s) -> in_i32 id ->
  match ReferNode id s with
  | (Ok i, s') => i = id - 1 /\ alive (pool s) id /\ exists n, node (pool s) i = Some n
      /\ s' = set_pool s (upd (pool s) i (addReference n))
  | (Throw _, s') => ~ alive (pool s) id /\ s' = s
  | _ => False
  end.
Proof.
  intros Ha Hid. assert (wp (ReferNode id)
    (fun i s' => i = id - 1 /\ alive (pool s) id /\ exists n, node (pool s) i = Some n
      /\ s' = set_pool s (upd (pool s) i (addReference n)))
    (fun _ s' => ~ alive (pool s) id /\ s' = s) s) as W.
  { unfold ReferNode. wps. apply wp_getUsedNode; [done..| |done]. intros Hal.
    destruct (node_exists _ (id - 1) Ha) as [n En]; [destruct Hal; lia|].
    wps. eapply wp_on_node; [done..|]. wps. split_and!; [done..|]. by exists n. }
  unfold wp in W. by destruct (ReferNode id s) as [[] ?].
Qed.

(** Changing the count of one node along with the wrappers on it. *)
Lemma recount_ok m s' ws i n c :
  shared_ok m -> node (pool (store m)) i = Some n ->
  s' = set_pool (store m) (upd (pool (store m)) i (set_refs n c)) ->
  (forall t j, (t, j) ∈ ws -> alive (pool (store m)) (j + 1)) ->
  (alive (pool (store m)) (i + 1) -> c = zlen (filter (fun w => w.2 = i) ws)) ->
  (forall j, j <> i -> zlen (filter (fun w => w.2 = j) ws) = holders m j) ->
  zlen ws < 2 ^ 31 ->
  shared_ok (mkShared s' ws (freeing m)).
Proof.
  intros [Ha Hh Hc Hf Hw] En -> Hws Hi Hj Hl. split; cbn; [|done| |done|done].
  - apply upd_alloc_ok; [done|]. exact (node_payload _ _ _ Ha En).
  - intros j nj Hal Ej. rewrite (node_upd _ _ _ _ _ En) in Ej. case_bool_decide as Eij.
    + subst j. injection Ej as <-. cbn. destruct (Hc i n Hal En) as [_ Hnx].
      split; [by apply Hi|done].
    + destruct (Hc j nj Hal Ej) as [-> Hnx]. split; [|done]. unfold holders at 2. cbn. symmetry. by apply Hj.
Qed.

Lemma abstract_upd m i n ws :
  abstract (mkShared (set_pool (store m) (upd (pool (store m)) i n)) ws (freeing m))
  = mkSpec (capacity (abstract m)) (live (abstract m)) (handle <$> ws).
Proof. done. Qed.

Lemma refer_simulated m t id i s :
  shared_ok m -> few_wrappers (mkShared s ((t, i) :: wrappers m) (freeing m)) -> in_i32 id ->
  ReferNode id (store m) = (Ok i, s) ->
  simulated (Referred t id) m (mkShared s ((t, i) :: wrappers m) (freeing m)).
Proof.
  intros Hok Hw Hid E. pose proof (ReferNode_answer _ _ (ok_alloc _ Hok) Hid) as W. rewrite E in W.
  destruct W as (-> & Hal & n & En & ->). pose proof (holders_bound m (id - 1) (ok_few _ Hok)) as Hb.
  assert (alive (pool (store m)) (id - 1 + 1)) as Hal' by (by replace (id - 1 + 1) with id by lia).
  destruct (ok_count _ Hok _ _ Hal' En) as [Hc _]. unfold few_wrappers, zlen in Hw. cbn [wrappers length] in Hw. split.
  - eapply recount_ok; [done|done|reflexivity|..].
    + intros t' j Hin. apply elem_of_cons in Hin as [[= -> ->]|Hin]; [done|by apply (ok_held _ Hok t')].
    + intros _. rewrite Hc. unfold holders, zlen in *. rewrite filter_cons_True by done. cbn [length].
      rewrite i32_small; [lia|]. pose proof (length_filter (fun w => w.2 = id - 1) (wrappers m)). word.
    + intros j Hj. unfold holders. by rewrite filter_cons_False by (cbn; congruence).
    + unfold zlen. cbn [length]. lia.
  - rewrite abstract_upd, fmap_cons. unfold handle at 1. cbn [fst snd].
    replace (id - 1 + 1) with id by lia. apply spec_refer. cbn [live abstract]. by apply live_alive; [apply Hok|].
Qed.

Lemma refused_simulated m t id e s : shared_ok m -> in_i32 id ->
  ReferNode id (store m) = (Throw e, s) -> simulated (Refused t id) m (set_store m s).
Proof.
  intros Hok Hid E. pose proof (ReferNode_answer _ _ (ok_alloc _ Hok) Hid) as W. rewrite E in W.
  destruct W as [Hal ->]. destruct m as [s ws f]. split; [done|].
  apply spec_refused. cbn [live abstract store] in *. rewrite live_alive; [done|apply Hok].
Qed.

Lemma release_simulated m t i ws1 ws2 : shared_ok m -> wrappers m = ws1 ++ (t, i) :: ws2 ->
  simulated (Released t (i + 1)) m (mkShared (release i (store m)) (ws1 ++ ws2) (freeing m)).
Proof.
  intros Hok Ew. assert (alive (pool (store m)) (i + 1)) as Hal.
  { apply (ok_held _ Hok t). rewrite Ew. apply elem_of_app. right. by left. }
  destruct (node_exists _ i (ok_alloc _ Hok)) as [n En]; [destruct Hal; lia|].
  destruct (ok_count _ Hok i n Hal En) as [Hc _]. pose proof (holders_bound m i (ok_few _ Hok)) as Hb.
  unfold release. rewrite En.
  change (set_nodes (pool (store m)) (<[Z.to_nat i := decReference n]> (nodes (pool (store m)))))
    with (upd (pool (store m)) i (decReference n)).
  pose proof (ok_few _ Hok) as Hw. unfold few_wrappers, zlen in Hw. rewrite Ew, length_app in Hw. cbn in Hw.
  assert (forall j, holders m j = zlen (filter (fun w => w.2 = j) (ws1 ++ ws2)) + if decide (i = j) then 1 else 0) as Hj.
  { intros j. unfold holders, zlen. rewrite Ew, !filter_app, filter_cons, !length_app. cbn [snd].
    destruct (decide (i = j)); cbn [length]; lia. }
  split.
  - eapply recount_ok; [done|done|reflexivity|..].
    + intros t' j Hin. apply (ok_held _ Hok t'). rewrite Ew. apply elem_of_app. apply elem_of_app in Hin as [|]; [by left|].
      right. by right.
    + intros _. rewrite Hc. specialize (Hj i). rewrite decide_True in Hj by done. rewrite i32_small by word. lia.
    + intros j Hne. specialize (Hj j). rewrite decide_False in Hj by done. lia.
    + unfold zlen. rewrite length_app. lia.
  - rewrite abstract_upd, fmap_app. apply spec_release. cbn [handles abstract]. by rewrite Ew, fmap_app.
Qed.

Lemma write_simulated m t i n n' : shared_ok m -> node (pool (store m)) i = Some n ->
  reference_count_ n' = reference_count_ n -> payload_ok n' -> in_i32 (next_ n') ->
  simulated (Wrote t (i + 1)) m (set_store m (set_pool (store m) (upd (pool (store m)) i n'))).
Proof.
  intros [Ha Hh Hc Hf Hw] En Er Hp Hnx. split; [|exact (spec_write (abstract m) t (i + 1))].
  split; cbn; [by apply upd_alloc_ok|done| |done|done].
  intros j nj Hal Ej. rewrite (node_upd _ _ _ _ _ En) in Ej. case_bool_decide as Eij; [|by apply Hc].
  subst j. injection Ej as <-. split; [|done]. rewrite Er. apply (Hc i n Hal En).
Qed.

(** One try of [ReturnNode]: nothing happens to a node that is referenced or not in use. *)
Lemma returnNode_run s id force : alloc_ok (pool s) -> in_i32 id ->
  exists r next s', returnNode id E_INVALID_NODE force s = (Ok (r, next), s')
  /\ ((~ alive (pool s) id /\ r = true /\ next = E_INVALID_NODE /\ s' = s)
      \/ exists n, alive (pool s) id /\ node (pool s) (id - 1) = Some n
          /\ if negb (IsNotReference n) && negb force
             then r = false /\ next = E_INVALID_NODE /\ s' = s
             else r = true /\ next = next_ n /\ s' = set_pool s (drop_node (pool s) id)).
Proof.
  intros Ha Hid. destruct (decide (alive (pool s) id)) as [Hal|Hal].
  - destruct (node_exists _ (id - 1) Ha) as [n En]; [destruct Hal; lia|].
    rewrite (returnNode_spec s id n force Ha Hal En).
    destruct (negb (IsNotReference n) && negb force) eqn:E;
      (do 3 eexists; split; [reflexivity|]; right; exists n; rewrite E; done).
  - do 3 eexists. split; [|left; split_and!; [done|reflexivity..]]. unfold returnNode.
    rewrite bind_get, indexInUsedVec_spec, bool_decide_eq_false_2, bind_lift by done. done.
Qed.

Lemma go_on_lookup t next f t' id k : go_on t next f !! t' = Some (id, k) ->
  (t' = t /\ id = next) \/ f !! t' = Some (id, k).
Proof.
  unfold go_on. case_if.
  - intros H. apply lookup_delete_Some in H as [_ H]. by right.
  - intros H. apply lookup_insert_Some in H as [[<- [= <- <-]]|[_ H]]; [by left|by right].
Qed.

Lemma drop_simulated m t id n f : shared_ok m -> alive (pool (store m)) id ->
  node (pool (store m)) (id - 1) = Some n -> IsNotReference n = true ->
  (forall t' id' k, f !! t' = Some (id', k) -> in_i32 id') ->
  simulated (Freed t id) m (mkShared (set_pool (store m) (drop_node (pool (store m)) id)) (wrappers m) f).
Proof.
  intros Hok Hal En Hr Hf'. pose proof Hok as [Ha Hh Hc Hf Hw].
  pose proof (fun j => drop_node_alive _ _ j Ha Hal) as Hd.
  assert (~ held (abstract m) id) as Hnh.
  { replace id with (id - 1 + 1) by lia. apply (not_referenced m (id - 1) n); [done| |done|done].
    by replace (id - 1 + 1) with id by lia. }
  split.
  - split; cbn; [by apply drop_node_alloc|..|done|done].
    + intros t' j Hj. apply Hd. split; [by apply (Hh t')|]. intros <-. apply Hnh. unfold held. cbn.
      apply list_elem_of_fmap. exists (t', j + 1). split; [done|]. apply list_elem_of_fmap. by exists (t', j).
    + intros j nj Hj Ej. apply Hd in Hj as [Hj _]. by apply Hc.
  - assert (abstract (mkShared (set_pool (store m) (drop_node (pool (store m)) id)) (wrappers m) f)
      = mkSpec (capacity (abstract m)) (live (abstract m) ∖ {[id]}) (handles (abstract m))) as ->.
    { unfold abstract at 1. cbn [store pool set_pool wrappers]. f_equal. apply set_eq. intros j.
      cbn [live abstract]. rewrite elem_of_difference, elem_of_singleton.
      rewrite !live_alive, Hd by (try apply drop_node_alloc; done). done. }
    constructor; [|done]. cbn [live abstract]. by rewrite live_alive.
Qed.

Lemma freeing_ok m f : shared_ok m -> (forall t id k, f !! t = Some (id, k) -> in_i32 id) ->
  shared_ok (mkShared (store m) (wrappers m) f).
Proof. intros [Ha Hh Hc Hf Hw] Hf'. by split. Qed.

Lemma go_on_ok m t next : shared_ok m -> in_i32 next ->
  forall t' id k, go_on t next (freeing m) !! t' = Some (id, k) -> in_i32 id.
Proof.
  intros Hok Hn t' id k H. apply go_on_lookup in H as [[_ ->]|H]; [done|]. by eapply (ok_freeing _ Hok).
Qed.

Lemma next_i32 m id n : shared_ok m -> alive (pool (store m)) id ->
  node (pool (store m)) (id - 1) = Some n -> in_i32 (next_ n).
Proof.
  intros Hok Hal En. apply (ok_count _ Hok (id - 1)); [|done]. by replace (id - 1 + 1) with id by lia.
Qed.

Lemma gone_simulated m t id next : shared_ok m -> ~ alive (pool (store m)) id -> in_i32 next ->
  simulated (Gone t id) m (mkShared (store m) (wrappers m) (go_on t next (freeing m))).
Proof.
  intros Hok Hal Hn. split; [apply freeing_ok, go_on_ok; done|].
  apply (spec_gone (abstract m)). cbn [live abstract]. by rewrite live_alive by apply Hok.
Qed.

Lemma wait_simulated m t id k next s : shared_ok m -> freeing m !! t = Some (id, S k) ->
  returnNode id E_INVALID_NODE false (store m) = (Ok (false, next), s) ->
  simulated (Waited t id) m (mkShared s (wrappers m) (<[t := (id, k)]> (freeing m))).
Proof.
  intros Hok Hf E. pose proof (ok_freeing _ Hok _ _ _ Hf) as Hid.
  destruct (returnNode_run (store m) id false (ok_alloc _ Hok) Hid)
    as (r & nx & s' & E' & [(_ & -> & _)|(n & Hal & En & H)]); rewrite E in E'; [done|].
  rewrite andb_true_r in H. destruct (IsNotReference n) eqn:Er; cbn in H; [by destruct H as [-> _]|].
  injection E' as <- <- <-. destruct H as (_ & _ & ->). split.
  - apply freeing_ok; [done|]. intros t' id' k' H. apply lookup_insert_Some in H as [[_ [= <- _]]|[_ H]]; [done|].
    by eapply (ok_freeing _ Hok).
  - apply (spec_wait (abstract m)).
    + cbn [live abstract]. by rewrite live_alive by apply Hok.
    + destruct (decide (holders m (id - 1) = 0)) as [H0|H0].
      * exfalso. unfold IsNotReference in Er. apply Z.eqb_neq in Er. apply Er.
        rewrite <- H0. apply (ok_count _ Hok (id - 1)); [|done]. by replace (id - 1 + 1) with id by lia.
      * apply held_holders in H0. by replace (id - 1 + 1) with id in H0 by lia.
Qed.

Lemma return_simulated m t id k next s : shared_ok m -> freeing m !! t = Some (id, S k) ->
  returnNode id E_INVALID_NODE false (store m) = (Ok (true, next), s) ->
  simulated (returned t id false (pool (store m))) m (mkShared s (wrappers m) (go_on t next (freeing m))).
Proof.
  intros Hok Hf E. pose proof (ok_freeing _ Hok _ _ _ Hf) as Hid. unfold returned.
  destruct (returnNode_run (store m) id false (ok_alloc _ Hok) Hid)
    as (r & nx & s' & E' & [(Hal & -> & -> & ->)|(n & Hal & En & H)]); rewrite E in E'; simplify_eq.
  - rewrite bool_decide_eq_false_2 by done. by apply gone_simulated.
  - rewrite bool_decide_eq_true_2 by done. rewrite andb_true_r in H.
    destruct (IsNotReference n) eqn:Er; cbn in H; [|by destruct H as [? _]].
    destruct H as (_ & -> & ->). eapply drop_simulated; [done..|].
    apply go_on_ok; [done|]. by eapply next_i32.
Qed.

Lemma force_simulated m t id r next s : shared_ok m -> freeing m !! t = Some (id, O) ->
  returnNode id E_INVALID_NODE true (store m) = (Ok (r, next), s) ->
  not_forced (returned t id true (pool (store m))) ->
  simulated (returned t id true (pool (store m))) m (mkShared s (wrappers m) (go_on t next (freeing m))).
Proof.
  intros Hok Hf E Hnf. pose proof (ok_freeing _ Hok _ _ _ Hf) as Hid. unfold returned in *.
  destruct (returnNode_run (store m) id true (ok_alloc _ Hok) Hid)
    as (r' & nx & s' & E' & [(Hal & -> & -> & ->)|(n & Hal & En & H)]); rewrite E in E'; simplify_eq.
  - rewrite bool_decide_eq_false_2 by done. by apply gone_simulated.
  - rewrite bool_decide_eq_true_2 in Hnf by done. by destruct (Hnf t id).
Qed.

Create HintDb simulated discriminated.
#[export] Hint Resolve get_simulated full_simulated refer_simulated refused_simulated release_simulated
  write_simulated wait_simulated return_simulated force_simulated : simulated.

Lemma step_simulated e m m' : shared_ok m -> step e m m' -> few_wrappers m' -> not_forced e ->
  simulated e m m'.
Proof.
  intros Hok Hs Hw Hnf. pose proof (ok_alloc _ Hok) as Ha. destruct Hs; eauto with simulated.
  - split; [done|]. destruct (count_u32 _ Ha) as [_ ->].
    replace (zlen _) with (capacity (abstract m) - Z.of_nat (size (live (abstract m)))); [constructor|].
    cbn [capacity live abstract]. rewrite size_live by done. lia.
  - split; [done|]. destruct (count_u32 _ Ha) as [-> _]. rewrite <- (a_max _ Ha).
    exact (spec_count_all (abstract m) t).
  - split; [done|]. apply spec_list; [apply alive_ids_NoDup|done].
  - split; [|exact (spec_begin (abstract m) t id)]. apply freeing_ok; [done|].
    intros t' id' k H'. apply lookup_insert_Some in H' as [[_ [= <- _]]|[_ H']]; [done|].
    by eapply (ok_freeing _ Hok).
Qed.

Lemma run_simulated es m m' : run es m m' -> shared_ok m -> Forall not_forced es ->
  shared_ok m' /\ spec_run es (abstract m) (abstract m').
Proof.
  induction 1 as [m|e es m1 m2 m3 Hs Hw _ IH]; intros Hok Hnf; [split; [done|constructor]|].
  inversion Hnf; subst. destruct (step_simulated e m1 m2) as [Hok2 Hsp]; [done..|].
  destruct (IH Hok2) as [Hok3 Hrun]; [done|]. split; [done|]. by econstructor.
Qed.

Lemma shared0_ok clk : shared_ok (shared0 clk).
Proof.
  split; cbn.
  - exact (inv_alloc _ _ _ _ (new_inv clk 0)).
  - intros t i Hi. by apply elem_of_nil in Hi.
  - intros i n Hal _. pose proof (inv_alive _ _ _ _ (i + 1) (new_inv clk 0)) as [H _].
    destruct (H Hal) as [(r & cs & Hr & _)|?]; [|done]. by rewrite lookup_empty in Hr.
  - intros t id k. by rewrite lookup_empty.
  - done.
Qed.

Definition spec0 : Spec := mkSpec 128 ∅ [].

Lemma abstract0 clk : abstract (shared0 clk) = spec0.
Proof. unfold abstract. cbn [shared0 store pool wrappers]. f_equal. Qed.

(** ** Clients of the abstract pool *)

(** A handle pins its id: it stays in use, and nobody frees it or gets it again. *)
Lemma spec_pinned es a a' : spec_run es a a' ->
  forall t id, (t, id) ∈ handles a -> id ∈ live a -> Released t id ∉ es ->
  (t, id) ∈ handles a' /\ id ∈ live a' /\ (forall t', (Freed t' id ∉ es) /\ (Got t' id ∉ es)).
Proof.
  induction 1 as [a|e es a1 a2 a3 Hs _ IH]; intros t id Hin Hl Hnr.
  { split_and!; [done..|]. intros t'. split; apply not_elem_of_nil. }
  apply not_elem_of_cons in Hnr as [Hne Hnr].
  assert (held a1 id) as Hheld by (apply list_elem_of_fmap; by exists (t, id)).
  destruct (IH t id) as (Hh & Hl' & Hno); [|..|done|].
  - destruct Hs as [| | | |a t0 id0 hs1 hs2 E| | | | | | | |]; cbn; try done; [by right|].
    rewrite E in Hin. apply elem_of_app in Hin as [Hin|Hin]; apply elem_of_app; [by left|].
    apply elem_of_cons in Hin as [[= <- <-]|Hin]; [done|by right].
  - clear IH. destruct Hs; cbn; try done; [by apply elem_of_union; right|].
    apply elem_of_difference. split; [done|]. rewrite elem_of_singleton. by intros ->.
  - split_and!; [done..|]. intros t'. destruct (Hno t') as [Hf Hg]. rewrite !not_elem_of_cons. split_and!; try done.
    + intros <-. by inversion Hs.
    + intros <-. by inversion Hs.
Qed.

(** ** The tries of [ReturnNode] *)

Lemma step_others e m m' t : step e m m' -> thread_of e <> t -> freeing m' !! t = freeing m !! t.
Proof.
  intros Hs. destruct Hs; unfold returned, go_on; repeat case_bool_decide; cbn; intros Hne; try done;
    try case_if; rewrite ?lookup_insert_ne, ?lookup_delete_ne by done; done.
Qed.

(** The events that end the return of [id]. *)
Definition ended (t : nat) (id : Z) (e : event) : Prop := e = Freed t id \/ e = Gone t id \/ e = Forced t id.

Lemma returned_ended t id force p : ended t id (returned t id force p).
Proof. unfold returned, ended. case_bool_decide; [destruct force|]; auto. Qed.

Lemma returned_thread t id force p : thread_of (returned t id force p) = t.
Proof. unfold returned. case_bool_decide; [destruct force|]; done. Qed.

(** A thread inside [ReturnNode] waits with one try less, or ends it. *)
Lemma step_try e m m' t id k : step e m m' -> thread_of e = t -> freeing m !! t = Some (id, k) ->
  (exists k', k = S k' /\ e = Waited t id /\ freeing m' !! t = Some (id, k')) \/ ended t id e.
Proof.
  intros Hs. destruct Hs; rewrite ?returned_thread; cbn [thread_of]; intros <- Hf; simplify_eq;
    try (right; by apply returned_ended).
  left. eexists. split_and!; [done..|]. cbn. by rewrite lookup_insert_eq.
Qed.

(** A thread enters a return with a thousand tries. *)
Lemma step_enter e m m' t id k : step e m m' -> thread_of e = t -> freeing m' !! t = Some (id, k) ->
  k = 1000%nat \/ (e = Waited t id /\ freeing m !! t = Some (id, S k)).
Proof.
  intros Hs. destruct Hs; rewrite ?returned_thread; cbn; intros <-; try congruence.
  - rewrite lookup_insert_eq. intros [= <- <-]. by left.
  - rewrite lookup_insert_eq. intros [= <- <-]. by right.
  - unfold go_on. case_if; [by rewrite lookup_delete_eq|]. rewrite lookup_insert_eq. intros [= <- <-]. by left.
  - unfold go_on. case_if; [by rewrite lookup_delete_eq|]. rewrite lookup_insert_eq. intros [= <- <-]. by left.
Qed.

Lemma step_forced m m' t id : step (Forced t id) m m' -> freeing m !! t = Some (id, O).
Proof.
  intros Hs. remember (Forced t id) as e eqn:E. destruct Hs; try done; unfold returned in E; case_bool_decide; congruence.
Qed.

(** The events of one thread. *)
Definition events_by (t : nat) (es : list event) : list event := filter (fun e => thread_of e = t) es.

Lemma events_by_app t es1 es2 : events_by t (es1 ++ es2) = events_by t es1 ++ events_by t es2.
Proof. apply filter_app. Qed.

(** The last events of a thread inside [ReturnNode] are its waits. *)
Definition waits (h : list event) (m : SharedPool) : Prop :=
  forall t id k, freeing m !! t = Some (id, k) ->
    exists h0, events_by t h = h0 ++ replicate (1000 - k) (Waited t id) /\ (k <= 1000)%nat.

Lemma step_waits h e m m' : waits h m -> step e m m' -> waits (h ++ [e]) m'.
Proof.
  intros Hh Hs t id k Hf. rewrite events_by_app. unfold events_by at 2.
  destruct (decide (thread_of e = t)) as [Ht|Ht].
  - rewrite filter_cons_True by done. cbn [filter]. destruct (step_enter _ _ _ _ _ _ Hs Ht Hf) as [->|[-> Hf']].
    + eexists. split; [|done]. by rewrite Nat.sub_diag, app_nil_r.
    + destruct (Hh _ _ _ Hf') as (h0 & -> & Hk). exists h0. split; [|lia].
      replace (1000 - k)%nat with (S (1000 - S k))%nat by lia. rewrite replicate_S_end, <- app_assoc. done.
  - rewrite filter_cons_False by done. cbn [filter]. rewrite app_nil_r. apply Hh.
    by rewrite <- (step_others _ _ _ _ Hs Ht).
Qed.

Lemma run_waits es m m' : run es m m' -> forall h, waits h m -> waits (h ++ es) m'.
Proof.
  induction 1 as [m|e es m1 m2 m3 Hs _ _ IH]; intros h Hh; [by rewrite app_nil_r|].
  rewrite cons_middle, app_assoc. by eapply IH, step_waits.
Qed.

Lemma run_app es1 es2 m m' : run (es1 ++ es2) m m' -> exists m1, run es1 m m1 /\ run es2 m1 m'.
Proof.
  revert m. induction es1 as [|e es1 IH]; cbn; intros m Hr; [exists m; split; [constructor|done]|].
  inversion Hr; subst. destruct (IH m2) as (m1 & Hr1 & Hr2); [done|]. exists m1. split; [|done]. by econstructor.
Qed.

Lemma run_tries es m m' : run es m m' -> forall t id k, freeing m !! t = Some (id, k) ->
  (k < length (events_by t es))%nat -> exists e, e ∈ take (S k) (events_by t es) /\ ended t id e.
Proof.
  induction 1 as [m|e es m1 m2 m3 Hs _ _ IH]; intros t id k Hf Hk; [cbn in Hk; lia|].
  unfold events_by in *. destruct (decide (thread_of e = t)) as [Ht|Ht].
  - rewrite filter_cons_True in Hk |- * by done. destruct (step_try _ _ _ _ _ _ Hs Ht Hf) as [(k' & -> & -> & Hf')|He].
    + destruct (IH t id k' Hf') as (e & Hin & He); [cbn in Hk; lia|]. exists e. split; [|done]. cbn. by right.
    + exists e. split; [cbn; by left|done].
  - rewrite filter_cons_False in Hk |- * by done. apply IH; [|done]. by rewrite (step_others _ _ _ _ Hs Ht).
Qed.

(** A thread inside [ReturnNode] is never blocked. *)
Lemma can_try m t id k : shared_ok m -> freeing m !! t = Some (id, k) ->
  exists e m', step e m m' /\ thread_of e = t /\ few_wrappers m'.
Proof.
  intros Hok Hf. pose proof (ok_freeing _ Hok _ _ _ Hf) as Hid. pose proof (ok_few _ Hok) as Hw. destruct k as [|k].
  - destruct (returnNode_run (store m) id true (ok_alloc _ Hok) Hid) as (r & next & s & E & _).
    do 2 eexists. split_and!; [by eapply step_force|by rewrite returned_thread|done].
  - destruct (returnNode_run (store m) id false (ok_alloc _ Hok) Hid) as ([] & next & s & E & _).
    + do 2 eexists. split_and!; [by eapply step_return|by rewrite returned_thread|done].
    + do 2 eexists. split_and!; [by eapply step_wait|done|done].
Qed.

(** ** A thread that runs alone *)

Lemma solo_return m t tries : forall id next s', freeing m !! t = Some (id, tries) -> few_wrappers m ->
  return_loop tries id (store m) = (Ok next, s') ->
  exists es, Forall (fun e => thread_of e = t) es
    /\ run es m (mkShared s' (wrappers m) (go_on t next (freeing m))).
Proof.
  revert m. induction tries as [|k IH]; intros m id next s' Hf Hw E; cbn [return_loop] in E.
  - apply bind_returns in E as ([r nx] & s1 & E1 & [= -> ->]).
    eexists [_]. split; [repeat constructor; by rewrite returned_thread|].
    eapply run_cons; [by eapply step_force|done|constructor].
  - apply bind_returns in E as ([[] nx] & s1 & E1 & E2).
    + injection E2 as -> ->. eexists [_]. split; [repeat constructor; by rewrite returned_thread|].
      eapply run_cons; [by eapply step_return|done|constructor].
    + destruct (IH (mkShared s1 (wrappers m) (<[t := (id, k)]> (freeing m))) id next s') as (es & Hes & Hr);
        [cbn; by rewrite lookup_insert_eq|done|done|].
      exists (Waited t id :: es). split; [by constructor|]. eapply run_cons; [by eapply step_wait|done|].
      cbn [wrappers freeing] in Hr. unfold go_on in *. case_if; by rewrite ?delete_insert_eq, ?insert_insert_eq in Hr.
Qed.

Lemma run_trans es1 es2 m1 m2 m3 : run es1 m1 m2 -> run es2 m2 m3 -> run (es1 ++ es2) m1 m3.
Proof. induction 1; cbn; [done|]. intros Hr. econstructor; eauto. Qed.

Lemma solo_free fuel : forall m t next f s', freeing m = go_on t next f -> f !! t = None -> few_wrappers m ->
  free_loop fuel next (store m) = (Ok tt, s') ->
  exists es, Forall (fun e => thread_of e = t) es /\ run es m (mkShared s' (wrappers m) f).
Proof.
  induction fuel as [|fuel IH]; intros m t next f s' Hf Hn Hw E; [done|]. cbn [free_loop] in E.
  unfold go_on in Hf. destruct (next =? E_INVALID_NODE).
  - injection E as <-. exists []. split; [constructor|]. rewrite delete_id in Hf by done.
    destruct m as [s ws f0]. cbn in *. subst f0. constructor.
  - apply bind_returns in E as (nx & s1 & E1 & E2).
    destruct (solo_return m t 1000 next nx s1) as (es1 & Hes1 & Hr1); [|done|exact E1|].
    { by rewrite Hf, lookup_insert_eq. }
    destruct (IH (mkShared s1 (wrappers m) (go_on t nx (freeing m))) t nx f s') as (es2 & Hes2 & Hr2); [|done..|].
    { cbn. rewrite Hf. unfold go_on. case_if; by rewrite ?delete_insert_eq, ?insert_insert_eq. }
    exists (es1 ++ es2). split; [by apply Forall_app|]. by eapply run_trans.
Qed.

(** ** Freeing by force *)

Lemma wait_many k : forall s ws f t id next,
  returnNode id E_INVALID_NODE false s = (Ok (false, next), s) -> zlen ws < 2 ^ 31 ->
  run (replicate k (Waited t id)) (mkShared s ws (<[t := (id, k)]> f)) (mkShared s ws (<[t := (id, O)]> f)).
Proof.
  induction k as [|k IH]; intros s ws f t id next E Hw; cbn [replicate]; [constructor|].
  eapply run_cons with (m2 := mkShared s ws (<[t := (id, k)]> f)); [|done|by eapply IH].
  pose proof (step_wait (mkShared s ws (<[t := (id, S k)]> f)) t id k next s) as H. cbn [freeing store wrappers] in H.
  rewrite insert_insert_eq in H. apply H; [by rewrite lookup_insert_eq|done].
Qed.

(** ** An execution *)

(** Thread 1 gets a node and refers to it; thread 0 then frees it, in the end by force. *)
Definition clk0 : nat -> Z := fun _ => 0.
Definition got : Store := (GetNode (mkStore new_PoolManager clk0 0)).2.
Definition referred : Store := (ReferNode 128 got).2.
Definition forced : Store := (returnNode 128 E_INVALID_NODE true referred).2.
Definition regot : Store := (GetNode forced).2.

Definition shared1 : SharedPool := mkShared got [] ∅.
Definition shared2 : SharedPool := mkShared referred [(1%nat, 127)] ∅.
Definition shared3 (k : nat) : SharedPool := mkShared referred [(1%nat, 127)] {[0%nat := (128, k)]}.

Definition es2 : list event := [Got 1 128; Referred 1 128].
Definition es3 : list event := es2 ++ [Began 0 128].

Lemma run2 : run es2 (shared0 clk0) shared2.
Proof.
  eapply run_cons; [apply (step_get (shared0 clk0) 1 127 got); reflexivity|reflexivity|].
  eapply run_cons; [apply (step_refer shared1 1 128 127 referred); [reflexivity|word|reflexivity]|reflexivity|].
  apply run_nil.
Defined.

Lemma run3 : run es3 (shared0 clk0) (shared3 1000).
Proof.
  eapply run_trans; [exact run2|]. eapply run_cons;
    [apply (step_begin shared2 0 128); [reflexivity|word|done|done]|reflexivity|apply run_nil].
Defined.

Lemma es3_not_forced : Forall not_forced es3.
Proof. repeat constructor; done. Qed.

Lemma run4 : run (es3 ++ replicate 1000 (Waited 0 128)) (shared0 clk0) (shared3 0).
Proof.
  eapply run_trans; [exact run3|]. apply (wait_many 1000 referred [(1%nat, 127)] ∅ 0 128 E_INVALID_NODE); reflexivity.
Qed.

Lemma run5 : run ((es3 ++ replicate 1000 (Waited 0 128)) ++ [Forced 0 128]) (shared0 clk0)
  (mkShared forced [(1%nat, 127)] (go_on 0 E_INVALID_NODE {[0%nat := (128, O)]})).
Proof.
  eapply run_trans; [exact run4|]. eapply run_cons;
    [apply (step_force (shared3 0) 0 128 true E_INVALID_NODE forced); reflexivity|reflexivity|apply run_nil].
Qed.

(** ** The properties *)

(** C14: the shared pool is an atomic pool of ids and handles.  Whatever threads do and
    however their calls interleave, as long as no node is freed by force, the events of the
    execution are those of the abstract pool: [GetNode] gives an id not in use and fails
    only when 12928 ids are, [ReferNode] succeeds exactly on ids in use, the counters are
    exact, and [FreeNodeTree] frees exactly ids without a handle and waits for the others. *)
Theorem shared_pool_refines clk es m :
  run es (shared0 clk) m -> Forall not_forced es -> spec_run es spec0 (abstract m).
Proof.
  intros Hr Hnf. rewrite <- (abstract0 clk). by apply run_simulated; [|apply shared0_ok|].
Qed.

(** C15: no use after free.  In every interleaving in which no thread has freed or frees a node
    by force: from the moment a thread has a wrapper until it destroys it, the node stays in
    use and counts its wrappers, no thread frees it and [GetNode] gives it to nobody. *)
Theorem wrapper_pins_node clk es m t i es' m' :
  run es (shared0 clk) m -> (t, i) ∈ wrappers m -> run es' m m' ->
  Forall not_forced (es ++ es') -> Released t (i + 1) ∉ es' ->
  (exists n, node (pool (store m')) i = Some n /\ alive (pool (store m')) (i + 1)
     /\ reference_count_ n = holders m' i /\ 0 < holders m' i)
  /\ (forall t', (Freed t' (i + 1) ∉ es') /\ (Got t' (i + 1) ∉ es')).
Proof.
  intros Hr Hin Hr' Hnf Hno. apply Forall_app in Hnf as [Hnf1 Hnf2].
  destruct (run_simulated _ _ _ Hr (shared0_ok clk) Hnf1) as [Hok _].
  destruct (run_simulated _ _ _ Hr' Hok Hnf2) as [Hok' Hs].
  destruct (spec_pinned _ _ _ Hs t (i + 1)) as (Hh & Hl & Hev); [..|done|].
  { cbn. apply list_elem_of_fmap. by exists (t, i). }
  { cbn. apply live_alive; [apply Hok|]. by apply (ok_held _ Hok t). }
  split; [|done]. cbn in Hl. apply live_alive in Hl; [|apply Hok'].
  destruct (node_exists _ i (ok_alloc _ Hok')) as [n En]; [destruct Hl; lia|].
  exists n. split_and!; [done..|by apply (ok_count _ Hok' i n)|].
  assert (holders m' i <> 0) as Hne.
  { apply held_holders. unfold held. apply list_elem_of_fmap. by exists (t, i + 1). }
  pose proof (holders_bound m' i (ok_few _ Hok')). lia.
Qed.

(** C17: a node is freed by force only by a thread whose last thousand events were waits for
    this very node, in every interleaving, forced or not. *)
Theorem forced_after_waiting clk es t id m :
  run (es ++ [Forced t id]) (shared0 clk) m ->
  exists es0, events_by t es = es0 ++ replicate 1000 (Waited t id).
Proof.
  intros Hr. apply run_app in Hr as (m1 & Hr1 & Hr2). inversion Hr2; subst.
  assert (waits [] (shared0 clk)) as Hw0 by (intros t' id' k H; cbn in H; by rewrite lookup_empty in H).
  assert (step (Forced t id) m1 m2) as Hs by done.
  destruct (run_waits _ _ _ Hr1 _ Hw0 _ _ _ (step_forced _ _ _ _ Hs)) as (es0 & E & _). by exists es0.
Qed.

(** C16: [ReturnNode] finishes.  In a state that an interleaving without a free by force leads
    to, a thread with [k] tries left can make its next step, whatever the others hold, and it
    has ended the return, by force if need be, after [k + 1] of its steps at the latest,
    whatever the steps from there on are. *)
Theorem return_finishes clk es m t id k :
  run es (shared0 clk) m -> Forall not_forced es -> freeing m !! t = Some (id, k) ->
  (exists e m', step e m m' /\ thread_of e = t /\ few_wrappers m')
  /\ (forall es' m', run es' m m' -> (k < length (events_by t es'))%nat ->
       exists e, e ∈ take (S k) (events_by t es') /\ ended t id e).
Proof.
  intros Hr Hnf Hf. destruct (run_simulated _ _ _ Hr (shared0_ok clk) Hnf) as [Hok _].
  split; [by eapply can_try|]. intros es' m' Hr'. by eapply run_tries.
Qed.

(** The interleaved steps are the sequential function: what [FreeNodeTree] does in one
    thread, the steps of that thread do when no other thread runs in between. *)
Theorem solo_is_FreeNodeTree m t root s' :
  freeing m !! t = None -> few_wrappers m -> in_i32 root -> root <> E_INVALID_NODE -> root <> E_ROOT_NODE ->
  FreeNodeTree root (store m) = (Ok tt, s') ->
  exists es, Forall (fun e => thread_of e = t) es /\ run es m (set_store m s').
Proof.
  intros Hf Hw Hid Hr1 Hr2 E. unfold FreeNodeTree in E.
  rewrite (proj2 (Z.eqb_neq _ _) Hr1), (proj2 (Z.eqb_neq _ _) Hr2) in E. cbn [orb] in E.
  apply bind_returns in E as (s0 & ? & [= <- <-] & E). apply bind_returns in E as (nx & s1 & E1 & E2).
  set (m1 := mkShared (store m) (wrappers m) (<[t := (root, 1000%nat)]> (freeing m))).
  destruct (solo_return m1 t 1000 root nx s1) as (es1 & Hes1 & Hrun1); [cbn; by rewrite lookup_insert_eq|done|exact E1|].
  destruct (solo_free (S (length (nodes (pool (store m))))) (mkShared s1 (wrappers m) (go_on t nx (freeing m1))) t nx (freeing m) s') as (es2 & Hes2 & Hrun2);
    [|done|done|exact E2|].
  { cbn. unfold go_on. case_if; by rewrite ?delete_insert_eq, ?insert_insert_eq. }
  exists (Began t root :: es1 ++ es2). split; [constructor; [done|by apply Forall_app]|].
  eapply run_cons; [by apply step_begin|done|]. by eapply run_trans.
Qed.

(** Freeing by force breaks the count.  There is an execution in which a wrapper outlives
    the forced free of its node: the next owner of the node sees the count -1 when the wrapper
    is destroyed, with no wrapper left, so every later return of the node waits in vain. *)
Theorem forced_free_miscounts :
  exists es m n, run es (shared0 clk0) m /\ wrappers m = [] /\ alive (pool (store m)) 128
    /\ node (pool (store m)) 127 = Some n /\ reference_count_ n = -1
    /\ returnNode 128 E_INVALID_NODE false (store m) = (Ok (false, E_INVALID_NODE), store m).
Proof.
  eexists _, (mkShared (release 127 regot) [] (go_on 0 E_INVALID_NODE {[0%nat := (128, O)]})), _.
  split; [|split_and!; [reflexivity| |reflexivity..]].
  - eapply run_trans; [exact run5|].
    eapply run_cons; [eapply (step_get _ 0 127 regot); reflexivity|reflexivity|].
    eapply run_cons; [eapply (step_release _ 1 127 [] []); reflexivity|reflexivity|apply run_nil].
  - split; [vm_compute; done|reflexivity].
Qed.

(** ** Witnesses *)

Lemma shared_pool_refines_witness : spec_run es3 spec0 (abstract (shared3 1000)).
Proof. exact (shared_pool_refines clk0 es3 (shared3 1000) run3 es3_not_forced). Defined.

Lemma wrapper_pins_node_witness :
  (exists n, node (pool referred) 127 = Some n /\ alive (pool referred) (127 + 1)
     /\ reference_count_ n = holders (shared3 1000) 127 /\ 0 < holders (shared3 1000) 127)
  /\ (forall t', (Freed t' (127 + 1) ∉ [Began 0 128]) /\ (Got t' (127 + 1) ∉ [Began 0 128])).
Proof.
  apply (wrapper_pins_node clk0 es2 shared2 1 127 [Began 0 128] (shared3 1000)).
  - exact run2.
  - left.
  - eapply run_cons; [apply (step_begin shared2 0 128); [reflexivity|word|done|done]|reflexivity|apply run_nil].
  - exact es3_not_forced.
  - intros H. apply elem_of_cons in H as [H|H]; [done|by apply elem_of_nil in H].
Defined.

Lemma forced_after_waiting_witness :
  exists es0, events_by 0 (es3 ++ replicate 1000 (Waited 0 128)) = es0 ++ replicate 1000 (Waited 0 128).
Proof. exact (forced_after_waiting clk0 _ 0 128 _ run5). Defined.

Lemma return_finishes_witness :
  (exists e m', step e (shared3 1000) m' /\ thread_of e = 0%nat /\ few_wrappers m')
  /\ (forall es' m', run es' (shared3 1000) m' -> (1000 < length (events_by 0 es'))%nat ->
       exists e, e ∈ take (S 1000) (events_by 0 es') /\ ended 0 128 e).
Proof. exact (return_finishes clk0 es3 (shared3 1000) 0 128 1000 run3 es3_not_forced eq_refl). Defined.

Lemma solo_is_FreeNodeTree_witness :
  exists es, Forall (fun e => thread_of e = 3%nat) es
    /\ run es shared1 (set_store shared1 (FreeNodeTree 128 got).2).
Proof. apply (solo_is_FreeNodeTree shared1 3 128); [reflexivity|reflexivity|word|done|done|reflexivity]. Defined.

End Threads.
