(* ===== verification/Agent.v ===== *)
(** * The agent: class [PP::Agent] (common/src/common.cpp)

    An agent ties the parts together: the node pool of the calling thread, the pool of
    connections, the process state and the span handler.  Its methods run on [Process];
    a C string is the list of its bytes without the NUL, and a pointer that may be null
    is an option where the code looks at it. *)
From Stdlib Require Import ZArith Lia.
From Stdlib Require Strings.Byte.
From S2P Require Import Prelude SendBuffer Sockets TransLayer Receive Transport ConnPool State Version.
From S2P Require Import Json JsonWriter JsonReader CLib TraceNode PoolManager.

Module Agent.
Import Net Layer Json CLib Node Pool ProcState.

(** ** State *)

Record Agent := mkAgent {
  span_timeout_ : Z;
  agent_type_ : Z;
  connection_pool_ : @ConnPool.SpanConnectionPool ProcessState;
  statePtr_ : ProcessState;
  (** whether a span handler is registered; what it is given goes to [handed] *)
  rawSpanHandler_ : bool
}.

(** One thread of the process: the global [_agentPtr], the thread's node pool and
    current id, the operating system, and the spans given to the span handler. *)
Record Process := mkProcess {
  _agentPtr : option Agent;
  store : Store;
  os : Env;
  handed : list (list byte);
  per_thread_current_id : Z
}.

Definition set_agent (p : Process) (a : option Agent) : Process :=
  mkProcess a (store p) (os p) (handed p) (per_thread_current_id p).
Definition set_store (p : Process) (s : Store) : Process :=
  mkProcess (_agentPtr p) s (os p) (handed p) (per_thread_current_id p).
Definition set_os (p : Process) (e : Env) : Process :=
  mkProcess (_agentPtr p) (store p) e (handed p) (per_thread_current_id p).
Definition set_handed (p : Process) (l : list (list byte)) : Process :=
  mkProcess (_agentPtr p) (store p) (os p) l (per_thread_current_id p).

(** [this], for methods called through [_agentPtr]. *)
Definition this : M Process Agent :=
  p ← get; match _agentPtr p with Some a => mret a | None => undefined end.

Definition set_this (a : Agent) : M Process unit := modify (fun p => set_agent p (Some a)).

(** Code that runs on the node pool only. *)
Definition on_store {A} (m : M Store A) : M Process A := fun p =>
  let '(r, s) := m (store p) in (r, set_store p s).

(** [WrapperTraceNodePtr] in code that does more than touch the pool. *)
Definition with_node {A} (id : Z) (body : Z -> M Process A) : M Process A :=
  index ← on_store (ReferNode id);
  finally (body index) (fun p => set_store p (release index (store p))).

(** ** Messages from the collector *)

(** [parseFromStream(builder, in_stream, &root, nullptr)] on the bytes of a message, with
    the default settings of [builder]: [root], whatever the answer is. *)
Definition parse_message (buf : list byte) : outcome Value :=
  settings ← Reader.default_settings;
  '(_, root, _) ← Reader.parseFromStream settings buf nullValue;
  mret root.

Abbreviation c_str := CLib.c_str.

(** [x[key] || x[key].isString()], then the same with [&&]: the test and [x] afterwards *)
Definition version_given (root : Value) : outcome (bool * Value) :=
  '(v, root) ← at_key root (bs "version");
  if to_bool v then mret (true, root)
  else '(v, root) ← at_key root (bs "version"); mret (isString v, root).

Definition time_given (root : Value) : outcome (bool * Value) :=
  '(v, root) ← at_key root (bs "time");
  if to_bool v then '(v, root) ← at_key root (bs "time"); mret (isString v, root)
  else mret (false, root).

(** Whether the announced version is too old, and [root] afterwards. *)
Definition version_too_old (root : Value) : outcome (bool * Value) :=
  '(given, root) ← version_given root;
  if (given : bool) then
    '(v, root) ← at_key root (bs "version");
    version ← Writer.asString v;
    c ← VersionOrder.compare_version (String.string_of_list_byte (c_str version)) "v0.7.0";
    mret (c <? 0, root)
  else mret (false, root).

(** The start time the message announces, if it does. *)
Definition announced_time (root : Value) : outcome (option Z) :=
  '(given, root) ← time_given root;
  if (given : bool) then
    '(v, _) ← at_key root (bs "time");
    text ← Writer.asString v;
    t ← stoll text;
    mret (Some (u64 t))
  else mret None.

Definition HandleHelloMsg (type : Z) (buf : list byte) : M ProcessState Z :=
  st ← get;
  if IsReady st then mret 0
  else
    root ← lift (parse_message buf);
    '(old, root) ← lift (version_too_old root);
    if (old : bool) then mret (-1)
    else
      t ← lift (announced_time root);
      _ ← modify (match t with Some t => SetStartTime t | None => fun st => st end);
      mret 0.

(** [Agent::Agent] *)
Definition new_Agent (cl_host : string) (timeout_ms trace_limit agent_type : Z) (now_ms : Z)
  : outcome Agent :=
  cp ← ConnPool.new_SpanConnectionPool cl_host [(0, HandleHelloMsg)];
  mret (mkAgent (i32 timeout_ms) agent_type cp (new_ProcessState now_ms trace_limit) false).


(** ** Sending spans *)

(** What [TrySendSpan] does with its connection. *)
Definition send_on (span : list byte) (span_timeout : Z) : M (@World ProcessState) unit :=
  _ ← copy_into_send_buffer span;
  if 0 <? span_timeout then SyncSendAll span_timeout
  else if span_timeout <? 0 then mret tt
  else _ ← PoolEventOnce 0; mret tt.

(** [TrySendSpan]: a connection is taken from the pool and given back; when an exception
    passes, the [unique_ptr] closes it instead. *)
Definition TrySendSpan (span : list byte) (span_timeout : Z) : M Process unit := fun p =>
  match _agentPtr p with
  | None => (UB, p)
  | Some a =>
      match ConnPool.get (connection_pool_ a) with
      | Ok (trans, cp) =>
          let '(r, w) := send_on span span_timeout (mkWorld trans (os p) (statePtr_ a)) in
          let back cp' := mkAgent (span_timeout_ a) (agent_type_ a) cp' (peer w) (rawSpanHandler_ a) in
          match r with
          | Ok _ => (Ok tt, set_os (set_agent p (Some (back (ConnPool.free (layer w) cp)))) (env w))
          | Throw e =>
              let w' := snd (delete_TransLayer w) in
              (Throw e, set_os (set_agent p (Some (back cp))) (env w'))
          | UB => (UB, p)
          | OutOfFuel => (OutOfFuel, p)
          end
      | Throw e => (Throw e, p)
      | UB => (UB, p)
      | OutOfFuel => (OutOfFuel, p)
      end
  end.

Definition SendSpanTrace (root_id timeout : Z) : M Process unit :=
  with_node root_id (fun root =>
    value ← on_store (EncodeTraceToJsonSpan root);
    spanStr ← lift (Writer.node_tree_write value);
    _ ← TrySendSpan spanStr timeout;
    a ← this;
    if rawSpanHandler_ a then modify (fun p => set_handed p (handed p ++ [c_str spanStr]))
    else mret tt).

(** ** Traces *)

(** The branch of [StartTrace] for a new trace. *)
Definition start_root (agent_type : Z) : M Store Z :=
  trace ← GetNode;
  _ ← on_node trace (fun n => UpgradeToRootNode n agent_type);
  now ← get_unix_time_ms;
  _ ← on_node trace (fun n => Ok (Node.StartTrace n now));
  n ← read_node trace;
  mret (id_ n).

(** [trace.setNodeUserOption(opt, args)]; the options before a failing one stay. *)
Definition set_options_of (trace : Z) (opts : list (list byte)) : M Store unit :=
  n ← read_node trace;
  let '(r, n') := setNodeUserOption opts n in
  _ ← write_node trace n';
  lift r.

(** The branch of [StartTrace] for a span event, once both wrappers are there. *)
Definition new_event (parent root : Z) (opts : list (list byte)) : M Store Z :=
  trace ← GetNode;
  now ← get_unix_time_ms;
  _ ← on_node trace (fun n => Ok (Node.StartTrace n now));
  p ← read_node parent;
  _ ← on_node trace (fun n => Ok (BindParentTrace n p));
  _ ← AppendToRootTrace root trace;
  _ ← set_options_of trace opts;
  n ← read_node trace;
  mret (id_ n).

Definition start_event (parent_id : Z) (opts : list (list byte)) : M Store Z :=
  with_ref parent_id (fun parent =>
    p ← read_node parent;
    with_ref (root_id_ p) (fun root => new_event parent root opts)).

(** [opts] is empty when [opt] is null. *)
Definition StartTrace (parent_id : Z) (opts : list (list byte)) : M Process Z :=
  if parent_id <=? E_INVALID_NODE then throw out_of_range
  else if parent_id =? E_ROOT_NODE then a ← this; on_store (start_root (agent_type_ a))
  else on_store (start_event parent_id opts).

(** The end time is read from the clock. *)
Definition end_node (index : Z) : M Store unit :=
  now ← get_unix_time_ms; on_node index (fun n => Node.EndTrace n now).

(** The scope of [w_trace] in [EndTrace]: [Some] the value an event returns. *)
Definition end_scope (id timeout : Z) (w_trace : Z) : M Process (option Z) :=
  n ← on_store (read_node w_trace);
  if negb (IsRootNode n) then
    _ ← on_store (end_node w_trace);
    n ← on_store (read_node w_trace);
    mret (Some (parent_id_ n))
  else
    status ← lift (GetStatus n);
    if status =? E_TRACE_PASS then
      _ ← on_store (end_node w_trace);
      a ← this;
      _ ← SendSpanTrace id (if timeout =? 0 then span_timeout_ a else timeout);
      mret None
    else mret None.

Definition EndTrace (id timeout : Z) : M Process Z :=
  r ← with_node id (end_scope id timeout);
  match r with
  | Some parent => mret parent
  | None => _ ← on_store (FreeNodeTree id); mret E_ROOT_NODE
  end.

Definition IsRootTrace (id : Z) : M Store bool :=
  with_ref id (fun i => n ← read_node i; mret (IsRootNode n)).

Definition GetDepth (id : Z) : M Store Z :=
  with_ref id (fun i => n ← read_node i; mret (depth_ n)).

Definition ChangeTraceStatus (id status : Z) : M Store Z :=
  with_ref id (fun i =>
    n ← read_node i;
    with_ref (root_id_ n) (fun r =>
      root ← read_node r;
      older ← lift (GetStatus root);
      _ ← on_node r (fun root => SetStatus root status);
      mret (u64 older))).

(** ** Annotations *)

(** [reason += key] with a null pointer is undefined behaviour. *)
Definition NotInternalKey (key : option (list byte)) : outcome (list byte) :=
  match key with
  | None => UB
  | Some (Byte.x3a :: _) => Throw invalid_argument
  | Some k => Ok k
  end.

(** [GetWrapperTraceNode(id, flag)] and the life time of the wrapper it returns. *)
Definition GetWrapperTraceNode (id flag : Z) : M Store Z :=
  w ← ReferNode id;
  if flag =? E_LOC_ROOT then
    finally (n ← read_node w; ReferNode (root_id_ n)) (release w)
  else mret w.

Definition with_wrapper {A} (id flag : Z) (body : Z -> M Store A) : M Store A :=
  w ← GetWrapperTraceNode id flag; finally (body w) (release w).

Definition AnnotateTrace_V1 (id : Z) (key : option (list byte)) (value : list byte) (flag : Z) : M Store unit :=
  k ← lift (NotInternalKey key);
  with_wrapper id flag (fun w => on_node w (fun n => AddAnnotation n k (stringValue value))).

Definition AnnotateTrace_V2 (id : Z) (key : option (list byte)) (value : list byte) (flag : Z) : M Store unit :=
  k ← lift (NotInternalKey key);
  with_wrapper id flag (fun w =>
    on_node w (fun n => AppendAnnotation n (bs "anno") (stringValue (k ++ bs ":" ++ value)))).

Definition AnnotateErrorTrace (id : Z) (msg error_filename : list byte) (error_lineno : Z) : M Store unit :=
  with_wrapper id E_LOC_ROOT (fun w =>
    eMsg ← lift (Writer.assign_all nullValue
      [(bs "msg", stringValue msg); (bs "file", stringValue error_filename);
       (bs "line", uintValue error_lineno)]);
    on_node w (fun n => AddAnnotation n (bs "ERR") eMsg)).

Definition AnnotateExceptionTrace (id : Z) (exception : list byte) : M Store unit :=
  with_wrapper id E_LOC_CURRENT (fun w_node =>
    _ ← on_node w_node (fun n => Ok (set_exp n true));
    with_wrapper id E_LOC_ROOT (fun w_root =>
      _ ← on_node w_root (fun n => Ok (set_exp n true));
      now ← get_unix_time_ms;
      root ← read_node w_root;
      exp ← lift (Writer.assign_all nullValue
        [(bs "M", stringValue exception); (bs "C", stringValue (bs "class"));
         (bs ":S", uintValue (u64 (now - trace_start_time_ root)))]);
      on_node w_node (fun n => AddAnnotation n (bs "EXP_V2") exp))).

Definition SetAsyncContext (id async_node_id node_sequence : Z) : M Store unit :=
  with_wrapper id E_LOC_ROOT (fun w =>
    async_value ← lift (Writer.assign_all nullValue
      [(bs "id", intValue async_node_id); (bs "seq", intValue node_sequence)]);
    on_node w (fun n => AddAnnotation n (bs "asy") async_value)).

(** ** Contexts *)

Definition AddTraceContext (id : Z) (key value : list byte) : M Store unit :=
  with_wrapper id E_LOC_ROOT (fun w => on_node w (fun n => Ok (setContext n key value))).

Definition GetSequenceId (id : Z) : M Store Z :=
  with_wrapper id E_LOC_CURRENT (fun w => n ← read_node w; mret (sequence_ n)).

(** The result and the buffer behind [pbuf] afterwards. *)
Definition GetTraceContext (id : Z) (key : list byte) (pbuf : option (list byte)) (buf_size : Z)
  : M Store (Z * option (list byte)) :=
  with_wrapper id E_LOC_ROOT (fun w =>
    n ← read_node w;
    value ← lift (getContext n key);
    match pbuf with
    | Some buf =>
        if i32 (zlen value) <? buf_size then
          buf' ← lift (strncpy buf (c_str value) buf_size);
          mret (i32 (zlen value), Some buf')
        else mret (-1, pbuf)
    | None => mret (-1, pbuf)
    end).

End Agent.
