(* ===== verification/Api.v ===== *)
(** * The C interface: [pinpoint_*] (common/src/common.cpp, common/include/common.h)

    Every function does nothing without an agent; with one it runs the agent's method
    and turns each exception into its error result.  [call] lists the functions and
    [exec] runs one, so that a sequence of calls from the bindings is a list. *)
From Stdlib Require Import ZArith Lia.
From Stdlib Require Strings.Byte.
From S2P Require Import Prelude Sockets TransLayer ConnPool State.
From S2P Require Import Json CLib TraceNode PoolManager Agent.

Module Api.
Import Net Layer Json CLib Node Pool ProcState Agent.

(** [if (_agentPtr) { try { return m; } catch ... } return failed;]: the handlers for
    [out_of_range], [runtime_error] and [exception] (or [...]) only log. *)
Definition guarded {A} (failed : A) (m : M Process A) : M Process A :=
  p ← get;
  match _agentPtr p with
  | None => mret failed
  | Some _ => try m (fun _ => mret failed)
  end.

(** [if (_agentPtr) return m; return missing;] *)
Definition with_agent {A} (missing : A) (m : Agent -> M Process A) : M Process A :=
  p ← get; match _agentPtr p with None => mret missing | Some a => m a end.

Definition pinpoint_get_per_thread_id : M Process Z := gets per_thread_current_id.
Definition pinpoint_update_per_thread_id (id : Z) : M Process unit :=
  modify (fun p => mkProcess (_agentPtr p) (store p) (os p) (handed p) id).

(** The clock of [ProcessState]'s constructor is read after the connection pool exists. *)
Definition pinpoint_set_agent (collector_agent_address : string)
    (timeout_ms trace_limit agent_type : Z) : M Process bool :=
  p ← get;
  match _agentPtr p with
  | Some _ => mret false
  | None =>
      now ← on_store get_unix_time_ms;
      a ← lift (new_Agent collector_agent_address timeout_ms trace_limit agent_type now);
      _ ← modify (fun p => set_agent p (Some a));
      mret true
  end.

(** [_agentPtr = nullptr]: the idle connections are closed, the oldest first. *)
Definition pinpoint_stop_agent : M Process unit :=
  modify (fun p =>
    match _agentPtr p with
    | None => p
    | Some a =>
        let close e l := env (snd (delete_TransLayer (mkWorld l e (statePtr_ a)))) in
        set_os (set_agent p None) (foldl close (os p) (reverse (ConnPool._pool (connection_pool_ a))))
    end).

Definition pinpoint_start_traceV1 (parentId : Z) (opts : list (list byte)) : M Process Z :=
  guarded E_INVALID_NODE (StartTrace parentId opts).
Definition pinpoint_start_trace (parentId : Z) : M Process Z := pinpoint_start_traceV1 parentId [].

Definition pinpoint_add_exception (id : Z) (exp : list byte) : M Process unit :=
  guarded tt (on_store (AnnotateExceptionTrace id exp)).

Definition pinpoint_end_trace (id : Z) : M Process Z := guarded E_INVALID_NODE (EndTrace id 0).

Definition pinpoint_trace_is_root (id : Z) : M Process Z :=
  guarded (-1) (if id =? E_ROOT_NODE then mret (-1)
                else b ← on_store (IsRootTrace id); mret (if (b : bool) then 1 else 0)).

Definition pinpoint_get_depth (id : Z) : M Process Z :=
  guarded (-1) (if id =? E_ROOT_NODE then mret (-1) else on_store (GetDepth id)).

(** The loop of [pinpoint_force_end_trace]; a parent starts before its children, so one
    round for each node of the pool is enough. *)
Fixpoint force_end_loop (fuel : nat) (id timeout : Z) : M Process unit :=
  match fuel with
  | O => lift OutOfFuel
  | S fuel' =>
      if negb (id =? E_ROOT_NODE) then
        id' ← EndTrace id timeout;
        if id' =? E_INVALID_NODE then mret tt else force_end_loop fuel' id' timeout
      else mret tt
  end.

Definition pinpoint_force_end_trace (id timeout : Z) : M Process Z :=
  guarded E_INVALID_NODE
    (p ← get;
     _ ← force_end_loop (S (S (length (nodes (pool (store p)))))) id timeout;
     mret E_ROOT_NODE).

Definition pinpoint_add_clues (id : Z) (key : option (list byte)) (value : list byte) (flag : Z) : M Process unit :=
  guarded tt (on_store (AnnotateTrace_V2 id key value flag)).
Definition pinpoint_add_clue (id : Z) (key : option (list byte)) (value : list byte) (flag : Z) : M Process unit :=
  guarded tt (on_store (AnnotateTrace_V1 id key value flag)).

Definition pinpoint_set_context_key (id : Z) (key value : list byte) : M Process unit :=
  guarded tt (on_store (AddTraceContext id key value)).
Definition pinpoint_get_context_key (id : Z) (key : list byte) (pbuf : option (list byte)) (buf_size : Z)
  : M Process (Z * option (list byte)) :=
  guarded (0, pbuf) (on_store (GetTraceContext id key pbuf buf_size)).

(** [std::time] is read when no time stamp is given. *)
Definition check_trace_limit (timestamp : Z) : M Process Z :=
  with_agent 0 (fun a => fun p =>
    let '(now, e) := if timestamp =? -1 then sys_time (os p) else (timestamp, os p) in
    let '(b, st) := CheckTraceLimit timestamp now (statePtr_ a) in
    (Ok (if (b : bool) then 1 else 0),
     set_os (set_agent p (Some (mkAgent (span_timeout_ a) (agent_type_ a) (connection_pool_ a) st
                                  (rawSpanHandler_ a)))) e)).
Definition check_tracelimit (timestamp : Z) : M Process Z := check_trace_limit timestamp.

Definition change_trace_status (id status : Z) : M Process Z :=
  guarded 0 (on_store (ChangeTraceStatus id status)).
Definition mark_current_trace_status (id status : Z) : M Process Z := change_trace_status id status.

Definition set_state_of (a : Agent) (st : ProcessState) : Agent :=
  mkAgent (span_timeout_ a) (agent_type_ a) (connection_pool_ a) st (rawSpanHandler_ a).

Definition generate_unique_id : M Process Z :=
  with_agent 0 (fun a =>
    let '(i, st) := GetUniqueId (statePtr_ a) in _ ← set_this (set_state_of a st); mret i).
Definition reset_unique_id : M Process unit :=
  with_agent tt (fun a => set_this (set_state_of a (ResetUniqueID (statePtr_ a)))).

Definition pinpoint_start_time : M Process Z :=
  p ← get;
  match _agentPtr p with
  | Some a => if negb (GetStartTime (statePtr_ a) =? 0) then mret (GetStartTime (statePtr_ a))
              else on_store get_unix_time_ms
  | None => on_store get_unix_time_ms
  end.

Definition catch_error (id : Z) (msg error_filename : list byte) (error_lineno : Z) : M Process unit :=
  guarded tt (on_store (AnnotateErrorTrace id msg error_filename error_lineno)).

Definition register_span_handler (handler : bool) : M Process unit :=
  with_agent tt (fun a =>
    set_this (mkAgent (span_timeout_ a) (agent_type_ a) (connection_pool_ a) (statePtr_ a) handler)).

Definition pinpoint_get_sequence_id (node : Z) : M Process Z := guarded (-1) (on_store (GetSequenceId node)).
Definition pinpoint_set_async_ctx (id async_node_id node_sequence : Z) : M Process unit :=
  guarded tt (on_store (SetAsyncContext id async_node_id node_sequence)).

(** ** Sequences of calls

    The functions that work on traces, the quota and the counters.  A key is [None] for the
    null pointer.  Setting up and stopping the agent, registering the handlers and the status
    page are no calls of this type. *)

Inductive call :=
| start_trace (parent : Z) (opts : list (list byte))
| end_trace (id : Z)
| force_end_trace (id timeout : Z)
| trace_is_root (id : Z)
| get_depth (id : Z)
| get_sequence_id (id : Z)
| change_status (id status : Z)
| add_clue (id : Z) (key : option (list byte)) (value : list byte) (flag : Z)
| add_clues (id : Z) (key : option (list byte)) (value : list byte) (flag : Z)
| add_exception (id : Z) (exp : list byte)
| record_error (id : Z) (msg file : list byte) (line : Z)
| set_async_ctx (id async_id seq : Z)
| set_context_key (id : Z) (key value : list byte)
| get_context_key (id : Z) (key : list byte) (pbuf : option (list byte)) (buf_size : Z)
| check_limit (timestamp : Z)
| unique_id
| start_time.

Definition result {A} (f : A -> Z) (m : M Process A) : M Process Z := a ← m; mret (f a).

Definition exec (c : call) : M Process Z :=
  match c with
  | start_trace parent opts => pinpoint_start_traceV1 parent opts
  | end_trace id => pinpoint_end_trace id
  | force_end_trace id timeout => pinpoint_force_end_trace id timeout
  | trace_is_root id => pinpoint_trace_is_root id
  | get_depth id => pinpoint_get_depth id
  | get_sequence_id id => pinpoint_get_sequence_id id
  | change_status id status => change_trace_status id status
  | add_clue id key value flag => result (fun _ => 0) (pinpoint_add_clue id key value flag)
  | add_clues id key value flag => result (fun _ => 0) (pinpoint_add_clues id key value flag)
  | add_exception id exp => result (fun _ => 0) (pinpoint_add_exception id exp)
  | record_error id msg file line => result (fun _ => 0) (catch_error id msg file line)
  | set_async_ctx id async_id seq => result (fun _ => 0) (pinpoint_set_async_ctx id async_id seq)
  | set_context_key id key value => result (fun _ => 0) (pinpoint_set_context_key id key value)
  | get_context_key id key pbuf buf_size => result fst (pinpoint_get_context_key id key pbuf buf_size)
  | check_limit timestamp => check_trace_limit timestamp
  | unique_id => generate_unique_id
  | start_time => pinpoint_start_time
  end.

(** The results of a sequence of calls, and the process afterwards. *)
Fixpoint run (cs : list call) : M Process (list Z) :=
  match cs with
  | [] => mret []
  | c :: cs' => r ← exec c; rs ← run cs'; mret (r :: rs)
  end.

(** A collector that never answers, and a network where nothing connects. *)
Definition offline : Env :=
  mkEnv [] [] [] [] [] (fun _ => 1700000000) 0 (fun _ n => Some (replicate (Z.to_nat n) Byte.x00)) 0 [] [] [] [].
Definition fresh : Process :=
  mkProcess None (mkStore new_PoolManager (fun t => 1000 + Z.of_nat t) 0) offline [] 0.

(** One trace with a nested call: all ids are free afterwards and the span handler has
    seen the span. *)
Example api_demo :
  let '(r, p) := (_ ← pinpoint_set_agent "tcp:127.0.0.1:9999" (-1) 10 1500;
                  _ ← register_span_handler true;
                  run [start_trace 0 []; start_trace 128 []; add_clue 127 (Some (bs "name")) (bs "f") 0;
                       end_trace 127; end_trace 128; end_trace 128; get_depth 128]) fresh in
  (r, NoNodesLeak (pool (store p)), length (handed p))
  = (Ok [128; 127; 0; 128; 0; -1; -1], true, 1%nat).
Proof. vm_compute. reflexivity. Qed.

End Api.
