(* ===== verification/Frame.v ===== *)
(** * What the agent leaves alone

    [fixes g m]: however [m] ends, the view [g] of the state is what it was.  The tree
    structure of a trace (each node's parent) is fixed by everything but taking a node
    from the pool, and the current id of a thread by everything but its setter. *)
From Stdlib Require Import ZArith Lia.
From Stdlib Require Strings.Byte.
From S2P Require Import Prelude Sockets TransLayer ConnPool State Json JsonWriter CLib TraceNode PoolManager Forest Agent Api.

Module Frame.
Import Json Node Pool Forest Agent Api.

Section fixes.
Context {S B : Type} (g : S -> B).

Definition fixes {A} (m : M S A) : Prop := forall s, g (m s).2 = g s.

Lemma fixes_mret {A} (a : A) : fixes (mret a).
Proof. done. Qed.

Lemma fixes_get : fixes get.
Proof. done. Qed.

Lemma fixes_gets {A} (f : S -> A) : fixes (gets f).
Proof. done. Qed.

Lemma fixes_throw {A} e : fixes (@throw S A e).
Proof. done. Qed.

Lemma fixes_undefined {A} : fixes (@undefined S A).
Proof. done. Qed.

Lemma fixes_lift {A} (m : outcome A) : fixes (lift m).
Proof. done. Qed.

Lemma fixes_modify f : (forall s, g (f s) = g s) -> fixes (modify f).
Proof. done. Qed.

Lemma fixes_bind {A C} (m : M S A) (f : A -> M S C) : fixes m -> (forall a, fixes (f a)) -> fixes (m ≫= f).
Proof.
  intros Hm Hf s. specialize (Hm s). unfold mbind, M_bind. destruct (m s) as [[a| | |] s'] eqn:E; cbn in *; try done.
  by rewrite Hf.
Qed.

Lemma fixes_finally {A} (m : M S A) f : fixes m -> (forall s, g (f s) = g s) -> fixes (finally m f).
Proof. intros Hm Hf s. specialize (Hm s). unfold finally. destruct (m s) as [[] s'] eqn:E; cbn in *; by rewrite ?Hf. Qed.

Lemma fixes_try {A} (m : M S A) h : fixes m -> (forall e, fixes (h e)) -> fixes (try m h).
Proof.
  intros Hm Hh s. specialize (Hm s). unfold try. destruct (m s) as [[] s'] eqn:E; cbn in *; try done. by rewrite Hh.
Qed.
End fixes.

Create HintDb fixes discriminated.
#[export] Hint Resolve fixes_mret fixes_get fixes_gets fixes_throw fixes_undefined fixes_lift : fixes.
#[export] Hint Extern 1 (fixes _ (modify _)) => by apply fixes_modify : fixes.

(** [fix_steps] walks through a computation. *)
Ltac fix_step :=
  lazymatch goal with
  | |- forall _, _ => intro
  | |- fixes _ (mbind _ _) => apply fixes_bind
  | |- fixes _ (finally _ _) => apply fixes_finally
  | |- fixes _ (try _ _) => apply fixes_try
  | |- fixes _ (match ?x with _ => _ end) => destruct x
  end.
Ltac fix_steps := repeat first [solve [eauto 3 with fixes] | fix_step].

(** ** Parents *)

Definition parents (s : Store) : list Z := parent_id_ <$> nodes (pool s).

Lemma parent_lookup s id : 1 <= id ->
  parent_id_ <$> node (pool s) (id - 1) = parents s !! Z.to_nat (id - 1).
Proof. intros H. unfold node, parents. rewrite (proj2 (Z.leb_le 0 (id - 1))) by lia. by rewrite list_lookup_fmap. Qed.

Lemma parents_insert s i n n' : nodes (pool s) !! i = Some n -> parent_id_ n' = parent_id_ n ->
  parents (set_pool s (set_nodes (pool s) (<[i := n']> (nodes (pool s))))) = parents s.
Proof.
  intros E Hp. unfold parents. cbn. rewrite list_fmap_insert. apply list_insert_id.
  rewrite list_lookup_fmap, E. cbn. by rewrite Hp.
Qed.

Lemma nodes_of_node p i n : node p i = Some n -> nodes p !! Z.to_nat i = Some n.
Proof. unfold node. by destruct (0 <=? i). Qed.

Lemma fixes_read_node i : fixes parents (read_node i).
Proof. intros s. unfold read_node. rewrite bind_get. by destruct (node (pool s) i). Qed.

Lemma fixes_on_node i f : (forall n n', f n = Ok n' -> parent_id_ n' = parent_id_ n) -> fixes parents (on_node i f).
Proof.
  intros Hf s. unfold on_node, read_node. unfold mbind, M_bind, get. destruct (node (pool s) i) as [n|] eqn:E; [|done].
  cbn. unfold lift. destruct (f n) as [n'| | |] eqn:Ef; try done.
  cbn. eapply parents_insert; [by apply nodes_of_node|eauto].
Qed.

Lemma fixes_release i s : parents (release i s) = parents s.
Proof.
  unfold release. destruct (node (pool s) i) as [n|] eqn:E; [|done]. eapply parents_insert; [by apply nodes_of_node|done].
Qed.

Lemma fixes_get_time : fixes parents get_unix_time_ms.
Proof. done. Qed.

#[export] Hint Resolve fixes_read_node fixes_get_time fixes_on_node fixes_release : fixes.

Lemma fixes_getUsedNode id : fixes parents (getUsedNode id).
Proof. unfold getUsedNode. fix_steps. Qed.
#[export] Hint Resolve fixes_getUsedNode : fixes.

Lemma fixes_ReferNode id : fixes parents (ReferNode id).
Proof. unfold ReferNode. fix_steps. apply fixes_on_node. by intros n n' [= <-]. Qed.
#[export] Hint Resolve fixes_ReferNode : fixes.

Lemma fixes_with_ref {A} id (body : Z -> M Store A) : (forall i, fixes parents (body i)) -> fixes parents (with_ref id body).
Proof. intros H. unfold with_ref. fix_steps. Qed.

Lemma fixes_with_wrapper {A} id flag (body : Z -> M Store A) : (forall i, fixes parents (body i)) ->
  fixes parents (with_wrapper id flag body).
Proof. intros H. unfold with_wrapper, GetWrapperTraceNode. fix_steps. Qed.

(** *** Updates of a node keep its parent *)

Lemma AddAnnotation_parent n key v n' : AddAnnotation n key v = Ok n' -> parent_id_ n' = parent_id_ n.
Proof. unfold AddAnnotation. rewrite outcome_bind_Ok. by intros (x & _ & [= <-]). Qed.

Lemma AppendAnnotation_parent n key v n' : AppendAnnotation n key v = Ok n' -> parent_id_ n' = parent_id_ n.
Proof. unfold AppendAnnotation. rewrite outcome_bind_Ok. by intros (x & _ & [= <-]). Qed.

Lemma EndTrace_parent n now n' : Node.EndTrace n now = Ok n' -> parent_id_ n' = parent_id_ n.
Proof.
  unfold Node.EndTrace. rewrite outcome_bind_Ok. intros (n2 & H2 & H). rewrite outcome_bind_Ok in H. destruct H as (n3 & H3 & H).
  rewrite outcome_bind_Ok in H. destruct H as (n4 & H4 & H).
  apply AddAnnotation_parent in H2, H3.
  assert (parent_id_ n4 = parent_id_ n3) as H4'.
  { destruct (set_exp_ n3); [by apply AddAnnotation_parent in H4|congruence]. }
  destruct (root_node_extra_ptr_ n4); [injection H as <-; cbn in *; congruence|].
  rewrite outcome_bind_Ok in H. destruct H as (n5 & H5 & H). apply AddAnnotation_parent in H5, H. cbn in *. congruence.
Qed.

Lemma SetStatus_parent n st n' : SetStatus n st = Ok n' -> parent_id_ n' = parent_id_ n.
Proof. unfold SetStatus. destruct (root_node_extra_ptr_ n); [|done]. by intros [= <-]. Qed.

#[export] Hint Resolve AddAnnotation_parent AppendAnnotation_parent EndTrace_parent SetStatus_parent : fixes.

Lemma runUserOptionFunc_parent n n' : Ok (snd (runUserOptionFunc n)) = Ok n' -> parent_id_ n' = parent_id_ n.
Proof.
  intros [= <-]. destruct (run_options_meta (user_optional_setting_func_ n) true n) as [sk E].
  unfold runUserOptionFunc. by rewrite E.
Qed.

Lemma same_parent n m n' : parent_id_ m = parent_id_ n -> Ok m = Ok n' -> parent_id_ n' = parent_id_ n.
Proof. by intros H [= <-]. Qed.

#[export] Hint Resolve runUserOptionFunc_parent same_parent fixes_with_ref fixes_with_wrapper : fixes.

(** *** The methods of the agent on the pool *)

Ltac fix_pool := repeat first
  [ solve [eauto 3 with fixes] | fix_step
  | lazymatch goal with
    | |- fixes _ (with_ref _ _) => apply fixes_with_ref
    | |- fixes _ (with_wrapper _ _ _) => apply fixes_with_wrapper
    | |- fixes _ (on_node _ _) =>
        apply fixes_on_node; intros ? ? H; first [solve [eauto 2 with fixes] | by injection H as <-]
    end ].

Lemma fixes_encode_loop fuel : forall root next, fixes parents (encode_loop fuel root next).
Proof.
  induction fuel as [|fuel IH]; intros root next; cbn [encode_loop]; [apply fixes_lift|]. unfold encode_event. fix_pool.
Qed.
#[export] Hint Resolve fixes_encode_loop : fixes.

Lemma fixes_EncodeTraceToJsonSpan root : fixes parents (EncodeTraceToJsonSpan root).
Proof. unfold EncodeTraceToJsonSpan. fix_pool. Qed.

Lemma fixes_returnNode id next force : fixes parents (returnNode id next force).
Proof. unfold returnNode. fix_steps. Qed.
#[export] Hint Resolve fixes_EncodeTraceToJsonSpan fixes_returnNode : fixes.

Lemma fixes_return_loop tries : forall id, fixes parents (return_loop tries id).
Proof. induction tries as [|t IH]; intros id; cbn [return_loop]; fix_steps. Qed.

Lemma fixes_ReturnNode id : fixes parents (ReturnNode id).
Proof. apply fixes_return_loop. Qed.
#[export] Hint Resolve fixes_ReturnNode : fixes.

Lemma fixes_free_loop fuel : forall next, fixes parents (free_loop fuel next).
Proof. induction fuel as [|fuel IH]; intros next; cbn [free_loop]; fix_steps. Qed.
#[export] Hint Resolve fixes_free_loop : fixes.

Lemma fixes_FreeNodeTree root : fixes parents (FreeNodeTree root).
Proof. unfold FreeNodeTree. fix_steps. Qed.

Lemma fixes_end_node i : fixes parents (end_node i).
Proof. unfold end_node. fix_pool. Qed.
#[export] Hint Resolve fixes_FreeNodeTree fixes_end_node : fixes.

Lemma fixes_IsRootTrace id : fixes parents (IsRootTrace id).
Proof. unfold IsRootTrace. fix_pool. Qed.

Lemma fixes_GetDepth id : fixes parents (GetDepth id).
Proof. unfold GetDepth. fix_pool. Qed.

Lemma fixes_GetSequenceId id : fixes parents (GetSequenceId id).
Proof. unfold GetSequenceId. fix_pool. Qed.

Lemma fixes_ChangeTraceStatus id st : fixes parents (ChangeTraceStatus id st).
Proof. unfold ChangeTraceStatus. fix_pool. Qed.

Lemma fixes_AnnotateTrace_V1 id key value flag : fixes parents (AnnotateTrace_V1 id key value flag).
Proof. unfold AnnotateTrace_V1. fix_pool. Qed.

Lemma fixes_AnnotateTrace_V2 id key value flag : fixes parents (AnnotateTrace_V2 id key value flag).
Proof. unfold AnnotateTrace_V2. fix_pool. Qed.

Lemma fixes_AnnotateErrorTrace id msg file line : fixes parents (AnnotateErrorTrace id msg file line).
Proof. unfold AnnotateErrorTrace. fix_pool. Qed.

Lemma fixes_AnnotateExceptionTrace id e : fixes parents (AnnotateExceptionTrace id e).
Proof. unfold AnnotateExceptionTrace. fix_pool. Qed.

Lemma fixes_SetAsyncContext id a q : fixes parents (SetAsyncContext id a q).
Proof. unfold SetAsyncContext. fix_pool. Qed.

Lemma fixes_AddTraceContext id key value : fixes parents (AddTraceContext id key value).
Proof. unfold AddTraceContext. fix_pool. Qed.

Lemma fixes_GetTraceContext id key pbuf n : fixes parents (GetTraceContext id key pbuf n).
Proof. unfold GetTraceContext. fix_pool. Qed.

#[export] Hint Resolve fixes_IsRootTrace fixes_GetDepth fixes_GetSequenceId fixes_ChangeTraceStatus
  fixes_AnnotateTrace_V1 fixes_AnnotateTrace_V2 fixes_AnnotateErrorTrace fixes_AnnotateExceptionTrace
  fixes_SetAsyncContext fixes_AddTraceContext fixes_GetTraceContext : fixes.

(** ** The process *)

(** The parents of all nodes, and the current id of the thread. *)
Definition thread_view (p : Process) : list Z * Z := (parents (store p), per_thread_current_id p).

Lemma fixes_on_store {A} (m : M Store A) : fixes parents m -> fixes thread_view (on_store m).
Proof. intros H p. unfold on_store, thread_view. specialize (H (store p)). destruct (m (store p)) as [r s]. cbn in *. by rewrite H. Qed.

Lemma fixes_with_node {A} id (body : Z -> M Process A) : (forall i, fixes thread_view (body i)) -> fixes thread_view (with_node id body).
Proof.
  intros H. unfold with_node. apply fixes_bind; [apply fixes_on_store, fixes_ReferNode|]. intros i.
  apply fixes_finally; [done|]. intros p. unfold thread_view. cbn. by rewrite fixes_release.
Qed.

Lemma fixes_guarded {A} (failed : A) m : fixes thread_view m -> fixes thread_view (guarded failed m).
Proof. intros H. unfold guarded. fix_steps. Qed.
#[export] Hint Resolve fixes_on_store fixes_guarded : fixes.

Lemma fixes_TrySendSpan span t : fixes thread_view (TrySendSpan span t).
Proof.
  intros p. unfold TrySendSpan. destruct (_agentPtr p) as [a|]; [|done].
  destruct (ConnPool.get (connection_pool_ a)) as [[trans cp]| | |]; try done.
  destruct (send_on span t _) as [[] w]; done.
Qed.

Lemma fixes_this : fixes thread_view this.
Proof. unfold this. fix_steps. Qed.
#[export] Hint Resolve fixes_TrySendSpan fixes_this : fixes.

Lemma fixes_SendSpanTrace id t : fixes thread_view (SendSpanTrace id t).
Proof. apply fixes_with_node. fix_steps. Qed.
#[export] Hint Resolve fixes_SendSpanTrace : fixes.

Lemma fixes_EndTrace id t : fixes thread_view (EndTrace id t).
Proof.
  unfold EndTrace. fix_steps. apply fixes_with_node. intros i. unfold end_scope. fix_steps.
Qed.
#[export] Hint Resolve fixes_EndTrace : fixes.

Lemma fixes_force_end_loop fuel : forall id t, fixes thread_view (force_end_loop fuel id t).
Proof. induction fuel as [|fuel IH]; intros id t; cbn [force_end_loop]; fix_steps. Qed.
#[export] Hint Resolve fixes_force_end_loop : fixes.

(** The calls that start no node. *)
Lemma exec_thread_view c : (forall parent opts, c <> start_trace parent opts) -> fixes thread_view (exec c).
Proof.
  intros Hc.
  destruct c as [parent opts|id|id t|id|id|id|id st|id key value flag|id key value flag|id e|id msg file line
    |id aid seq|id key value|id key pbuf size|ts| |]; cbn [exec]; [by destruct (Hc parent opts)|..];
    unfold result, pinpoint_end_trace, pinpoint_force_end_trace, pinpoint_trace_is_root, pinpoint_get_depth,
    check_trace_limit, generate_unique_id, pinpoint_start_time, with_agent, set_this; fix_steps;
    try (apply fixes_guarded; fix_steps).
  intros p. destruct (if ts =? -1 then _ else _) as [now e]. by destruct (ProcState.CheckTraceLimit ts now _).
Qed.

End Frame.
