(* ===== verification/Tracing.v ===== *)
(** * The agent's operations on traces

    The methods of [Agent] seen through the forest of traces: which nodes they touch,
    what they return, and how they fail.  A method holds its nodes through wrappers;
    [bump] is the pool while one wrapper is alive, and the lemmas show that a method
    leaves the reference counts as it found them on every path. *)
From Stdlib Require Import ZArith Lia.
From Stdlib Require Strings.Byte.
From S2P Require Import Prelude Json JsonWriter CLib TraceNode PoolManager Forest Agent.

Module Tracing.
Import Json Node Pool Forest Agent.

(** ** Updates of the node store *)

Lemma upd_comm p i j a b : Z.to_nat i <> Z.to_nat j -> upd (upd p i a) j b = upd (upd p j b) i a.
Proof. intros H. unfold upd, set_nodes. cbn. f_equal. by apply list_insert_insert_ne. Qed.

Lemma upd_same p i n : node p i = Some n -> upd p i n = p.
Proof.
  unfold node, upd, set_nodes. case_if; [|done]. intros E. rewrite list_insert_id by done. by destruct p.
Qed.

Lemma set_pool_twice s p q : set_pool (set_pool s p) q = set_pool s q.
Proof. done. Qed.

Lemma set_pool_same s : set_pool s (pool s) = s.
Proof. by destruct s. Qed.

(** ** Wrappers *)

(** The store while a wrapper of [id] is alive. *)
Definition bump (id : Z) (s : Store) : Store :=
  match node (pool s) (id - 1) with
  | Some n => set_pool s (upd (pool s) (id - 1) (addReference n))
  | None => s
  end.

Lemma bump_alive id s j : alive (pool (bump id s)) j <-> alive (pool s) j.
Proof. unfold bump. by destruct (node (pool s) (id - 1)). Qed.

Lemma bump_node id s j n : node (pool s) (j - 1) = Some n ->
  node (pool (bump id s)) (j - 1) = Some (if bool_decide (id = j) then addReference n else n).
Proof.
  intros E. unfold bump. destruct (node (pool s) (id - 1)) as [m|] eqn:Ei; cbn.
  - rewrite (node_upd _ _ _ _ _ Ei). repeat case_bool_decide; try lia; [|done].
    subst. by rewrite E in Ei; injection Ei as ->.
  - case_bool_decide as Ej; [|done]. subst. congruence.
Qed.

Lemma bump_inv T U R s id : inv T U R s -> few R -> alive (pool s) id -> inv T U (radd id R) (bump id s).
Proof.
  intros Hinv HR Hal. destruct (inv_nodes _ _ _ _ Hinv id Hal) as (n & En & _).
  unfold bump. rewrite En. by apply acquire_inv.
Qed.

Lemma addReference_small n c : reference_count_ n = c -> 0 <= c < 1000 -> addReference n = set_refs n (c + 1).
Proof. intros E Hc. unfold addReference. rewrite E, i32_small by word. done. Qed.

Lemma decReference_small n c : reference_count_ n = c -> 0 <= c < 1000 -> decReference n = set_refs n (c - 1).
Proof. intros E Hc. unfold decReference. rewrite E, i32_small by word. done. Qed.

(** The end of a wrapper's life on the node it updated. *)
Lemma release_bump_upd T U R s t n n' : inv T U R s -> few R -> alive (pool s) t ->
  node (pool s) (t - 1) = Some n -> reference_count_ n' = reference_count_ n ->
  release (t - 1) (set_pool (bump t s) (upd (pool (bump t s)) (t - 1) (addReference n')))
  = set_pool s (upd (pool s) (t - 1) n').
Proof.
  intros Hinv HR Hal En Er. destruct (inv_nodes _ _ _ _ Hinv t Hal) as (m & Em & _ & Hr & _).
  rewrite En in Em. injection Em as <-. specialize (HR t).
  unfold release, bump. rewrite En. cbn [pool set_pool]. rewrite upd_upd, (node_upd_eq _ _ _ _ En).
  rewrite !set_pool_twice. f_equal.
  change (set_nodes ?p (<[Z.to_nat ?i := ?x]> (nodes ?p))) with (upd p i x). rewrite upd_upd. f_equal.
  rewrite (addReference_small _ (R t)) by (congruence || lia).
  rewrite (decReference_small _ (R t + 1)) by (done || lia).
  replace (R t + 1 - 1) with (reference_count_ n') by lia. by destruct n'.
Qed.

Lemma release_bump T U R s t : inv T U R s -> few R -> alive (pool s) t -> release (t - 1) (bump t s) = s.
Proof.
  intros Hinv HR Hal. destruct (inv_nodes _ _ _ _ Hinv t Hal) as (n & En & _).
  pose proof (release_bump_upd _ _ _ _ _ n n Hinv HR Hal En eq_refl) as E.
  rewrite (upd_same (pool s)) in E by done. rewrite set_pool_same in E. rewrite <- E at 2. f_equal.
  unfold bump. rewrite En. cbn [pool set_pool]. by rewrite upd_upd.
Qed.

Lemma ReferNode_run T U R s id : inv T U R s -> in_i32 id ->
  ReferNode id s = if bool_decide (alive (pool s) id) then (Ok (id - 1), bump id s) else (Throw out_of_range, s).
Proof.
  intros Hinv Hid. pose proof (inv_alloc _ _ _ _ Hinv) as Ha.
  pose proof (wp_getUsedNode id (fun i s' => alive (pool s) id /\ i = id - 1 /\ s' = s)
    (fun e s' => ~ alive (pool s) id /\ e = out_of_range /\ s' = s) s Ha Hid) as W.
  specialize (W ltac:(done) ltac:(done)). unfold wp in W. unfold ReferNode.
  destruct (getUsedNode id s) as [[i|e| |] s'] eqn:Eg; try done.
  - destruct W as (Hal & -> & ->). rewrite (bind_run _ _ _ _ _ Eg), bool_decide_eq_true_2 by done.
    destruct (inv_nodes _ _ _ _ Hinv id Hal) as (n & En & _). unfold bump. rewrite En.
    assert (on_node (id - 1) (fun n => Ok (addReference n)) s = (Ok tt, set_pool s (upd (pool s) (id - 1) (addReference n)))) as E.
    { unfold on_node, read_node. rewrite bind_assoc, bind_get, En. done. }
    by rewrite (bind_run _ _ _ _ _ E).
  - destruct W as (Hal & -> & ->). by rewrite (bind_stop _ _ _ _ _ Eg), bool_decide_eq_false_2.
Qed.

Lemma with_ref_run {A} T U R s id (body : Z -> M Store A) : inv T U R s -> in_i32 id ->
  with_ref id body s = if bool_decide (alive (pool s) id)
    then finally (body (id - 1)) (release (id - 1)) (bump id s) else (Throw out_of_range, s).
Proof.
  intros Hinv Hid. unfold with_ref. pose proof (ReferNode_run _ _ _ _ _ Hinv Hid) as E.
  case_bool_decide; [by rewrite (bind_run _ _ _ _ _ E)|by rewrite (bind_stop _ _ _ _ _ E)].
Qed.

(** The trace an id belongs to. *)
Definition root_of (T : trees) (id r : Z) : Prop := exists cs, T !! r = Some cs /\ id ∈ r :: cs.

Lemma alive_root T R s id n : inv T None R s -> alive (pool s) id -> node (pool s) (id - 1) = Some n ->
  root_of T id (root_id_ n) /\ alive (pool s) (root_id_ n) /\ in_i32 (root_id_ n).
Proof.
  intros Hinv Hal En. destruct (inv_nodes _ _ _ _ Hinv id Hal) as (m & Em & _ & _ & [Hl|[[=] _]]).
  rewrite En in Em. injection Em as <-.
  assert (root_of T id (root_id_ n)) as Hr.
  { destruct Hl as [cs Ht Hl|r cs i p Ht Hi _ Hl]; unfold links in Hl; injection Hl as _ -> _.
    - exists cs. split; [done|by left].
    - exists cs. split; [done|]. right. by eapply list_elem_of_lookup_2. }
  destruct Hr as (cs & Ht & Hin). destruct (inv_trees _ _ _ _ Hinv _ _ Ht) as [_ Hf].
  inversion Hf as [|? ? Hral _]; subst. split; [by exists cs|]. split; [done|].
  by apply (alive_i32 _ _ (inv_alloc _ _ _ _ Hinv)).
Qed.

Lemma release_bump_bump T U R s i t : inv T U R s -> few R -> alive (pool s) i -> alive (pool s) t ->
  release (i - 1) (bump t (bump i s)) = bump t s.
Proof.
  intros Hinv HR Hi Ht.
  destruct (inv_nodes _ _ _ _ Hinv i Hi) as (n & En & _ & Hn & _).
  destruct (inv_nodes _ _ _ _ Hinv t Ht) as (m & Em & _ & Hm & _).
  pose proof (HR i). pose proof (HR t). assert (1 <= i /\ 1 <= t) as [Hi1 Ht1] by (by destruct Hi, Ht; lia).
  unfold bump. rewrite En, Em. cbn [pool set_pool]. destruct (decide (i = t)) as [<-|Hne].
  - rewrite Em in En. injection En as <-. rewrite (node_upd_eq _ _ _ _ Em). cbn [pool set_pool].
    rewrite upd_upd, set_pool_twice. unfold release. cbn [pool set_pool]. rewrite (node_upd_eq _ _ _ _ Em).
    rewrite set_pool_twice. f_equal. change (set_nodes ?p (<[Z.to_nat ?i := ?x]> (nodes ?p))) with (upd p i x).
    rewrite upd_upd. f_equal. rewrite !(addReference_small m (R i)) by (done || lia).
    rewrite (addReference_small _ (R i + 1)) by (done || lia). rewrite (decReference_small _ (R i + 1 + 1)) by (done || lia).
    cbn. f_equal. lia.
  - rewrite node_upd_ne by lia. rewrite Em. cbn [pool set_pool]. rewrite set_pool_twice. unfold release. cbn [pool set_pool].
    rewrite node_upd_ne by lia. rewrite (node_upd_eq _ _ _ _ En). rewrite set_pool_twice. f_equal.
    change (set_nodes ?p (<[Z.to_nat ?i := ?x]> (nodes ?p))) with (upd p i x).
    rewrite upd_comm, upd_upd by lia. rewrite upd_comm by lia. apply upd_same.
    rewrite node_upd_ne by lia. rewrite En. f_equal.
    rewrite (addReference_small n (R i)) by (done || lia). rewrite (decReference_small _ (R i + 1)) by (done || lia).
    replace (R i + 1 - 1) with (reference_count_ n) by lia. by destruct n.
Qed.

(** The node [GetWrapperTraceNode] designates. *)
Definition target (s : Store) (id flag : Z) : Z :=
  if flag =? E_LOC_ROOT then default id (root_id_ <$> node (pool s) (id - 1)) else id.

Lemma target_spec T R s id flag : inv T None R s -> alive (pool s) id ->
  alive (pool s) (target s id flag)
  /\ (flag = E_LOC_ROOT -> root_of T id (target s id flag)) /\ (flag <> E_LOC_ROOT -> target s id flag = id).
Proof.
  intros Hinv Hal. destruct (inv_nodes _ _ _ _ Hinv id Hal) as (n & En & _).
  destruct (alive_root _ _ _ _ _ Hinv Hal En) as (Hr & Hra & _). unfold target. case_if; [|done].
  rewrite En. cbn. by split_and!.
Qed.

Lemma few_radd R id : few R -> (forall j, 0 <= R j < 50) -> few (radd id R).
Proof. intros _ H j. unfold radd. specialize (H j). case_bool_decide; lia. Qed.

(** Wrapper counts small enough to take more. *)
Definition calm (R : refs) : Prop := forall j, 0 <= R j < 50.

Lemma calm_few R : calm R -> few R.
Proof. intros H j. specialize (H j). lia. Qed.

Lemma calm_radd R id : calm R -> few (radd id R).
Proof. intros H. apply few_radd; [by apply calm_few|exact H]. Qed.

Lemma GetWrapperTraceNode_run T R s id flag : inv T None R s -> calm R -> in_i32 id ->
  GetWrapperTraceNode id flag s
  = if bool_decide (alive (pool s) id) then (Ok (target s id flag - 1), bump (target s id flag) s)
    else (Throw out_of_range, s).
Proof.
  intros Hinv HR Hid. unfold GetWrapperTraceNode. pose proof (ReferNode_run _ _ _ _ _ Hinv Hid) as E.
  case_bool_decide as Hal; [|by rewrite (bind_stop _ _ _ _ _ E)].
  rewrite (bind_run _ _ _ _ _ E). unfold target. case_if; [|done].
  destruct (inv_nodes _ _ _ _ Hinv id Hal) as (n & En & _).
  destruct (alive_root _ _ _ _ _ Hinv Hal En) as (Hr & Hra & Hri). rewrite En. cbn [default from_option fmap option_fmap option_map Datatypes.id].
  pose proof (bump_inv _ _ _ _ _ Hinv (calm_few _ HR) Hal) as Hinv1.
  pose proof (ReferNode_run _ _ _ _ _ Hinv1 Hri) as E2. rewrite bool_decide_eq_true_2 in E2 by (by apply bump_alive).
  unfold finally. rewrite (bind_run _ _ _ (addReference n) (bump id s)).
  - change (root_id_ (addReference n)) with (root_id_ n). rewrite E2.
    by rewrite (release_bump_bump _ _ _ _ _ _ Hinv (calm_few _ HR) Hal Hra).
  - unfold read_node. rewrite bind_get, (bump_node _ _ _ _ En), bool_decide_eq_true_2 by done. done.
Qed.

Lemma with_wrapper_run {A} T R s id flag (body : Z -> M Store A) : inv T None R s -> calm R -> in_i32 id ->
  with_wrapper id flag body s
  = if bool_decide (alive (pool s) id)
    then finally (body (target s id flag - 1)) (release (target s id flag - 1)) (bump (target s id flag) s)
    else (Throw out_of_range, s).
Proof.
  intros Hinv HR Hid. unfold with_wrapper. pose proof (GetWrapperTraceNode_run _ _ _ _ flag Hinv HR Hid) as E.
  case_bool_decide; [by rewrite (bind_run _ _ _ _ _ E)|by rewrite (bind_stop _ _ _ _ _ E)].
Qed.

(** *** Updating the designated node *)

(** One update of one node through a wrapper: exactly that node changes. *)
Lemma update_run T R s id flag f n n' : inv T None R s -> calm R -> in_i32 id -> alive (pool s) id ->
  node (pool s) (target s id flag - 1) = Some n ->
  f (addReference n) = Ok (addReference n') -> reference_count_ n' = reference_count_ n ->
  with_wrapper id flag (fun w => on_node w f) s = (Ok tt, set_pool s (upd (pool s) (target s id flag - 1) n')).
Proof.
  intros Hinv HR Hid Hal En Ef Er. rewrite (with_wrapper_run _ _ _ _ _ _ Hinv HR Hid), bool_decide_eq_true_2 by done.
  destruct (target_spec _ _ _ _ flag Hinv Hal) as (Ht & _). set (t := target s id flag) in *.
  unfold finally, on_node, read_node. rewrite bind_assoc, bind_get, (bump_node _ _ _ _ En), bool_decide_eq_true_2 by done.
  rewrite bind_mret, Ef, bind_lift. unfold write_node, modify.
  f_equal. by apply (release_bump_upd _ _ _ _ _ n n' Hinv (calm_few _ HR)).
Qed.

Lemma update_fails T R s id flag f n e : inv T None R s -> calm R -> in_i32 id -> alive (pool s) id ->
  node (pool s) (target s id flag - 1) = Some n -> f (addReference n) = Throw e ->
  with_wrapper id flag (fun w => on_node w f) s = (Throw e, s).
Proof.
  intros Hinv HR Hid Hal En Ef. rewrite (with_wrapper_run _ _ _ _ _ _ Hinv HR Hid), bool_decide_eq_true_2 by done.
  destruct (target_spec _ _ _ _ flag Hinv Hal) as (Ht & _). set (t := target s id flag) in *.
  unfold finally, on_node, read_node. rewrite bind_assoc, bind_get, (bump_node _ _ _ _ En), bool_decide_eq_true_2 by done.
  rewrite bind_mret, Ef. unfold mbind, M_bind, lift.
  f_equal. by apply (release_bump _ _ _ _ _ Hinv (calm_few _ HR)).
Qed.

(** ** What every method keeps *)

Abbreviation keeps m T R s := (wp m (fun _ s' => inv T None R s') (fun _ s' => inv T None R s') s).

Lemma wp_with_wrapper {A} T R s id flag (body : Z -> M Store A) :
  inv T None R s -> calm R -> in_i32 id ->
  (alive (pool s) id -> forall s1, inv T None (radd (target s id flag) R) s1 ->
     wp (body (target s id flag - 1)) (fun _ s' => inv T None (radd (target s id flag) R) s')
       (fun _ s' => inv T None (radd (target s id flag) R) s') s1) ->
  keeps (with_wrapper id flag body) T R s.
Proof.
  intros Hinv HR Hid Hb. unfold wp at 1. rewrite (with_wrapper_run _ _ _ _ _ _ Hinv HR Hid).
  case_bool_decide as Hal; [|done]. destruct (target_spec _ _ _ _ flag Hinv Hal) as (Ht & _).
  set (t := target s id flag) in *.
  specialize (Hb Hal (bump t s) (bump_inv _ _ _ _ _ Hinv (calm_few _ HR) Ht)).
  assert (forall s', inv T None (radd t R) s' -> inv T None R (release (t - 1) s')) as Hrel.
  { intros s' Hinv'. apply release_inv; [done| |apply (calm_few _ HR)].
    apply (inv_alive _ _ _ _ t Hinv'). by apply (inv_alive _ _ _ _ t Hinv). }
  unfold finally. unfold wp in Hb. destruct (body (t - 1) (bump t s)) as [[] s']; try done; by apply Hrel.
Qed.

Lemma wp_on_node_keeps T R s t f : inv T None R s -> alive (pool s) t ->
  (forall n, node (pool s) (t - 1) = Some n -> payload_ok n ->
     match f n with
     | Ok n' => links n' = links n /\ reference_count_ n' = reference_count_ n /\ payload_ok n'
     | Throw _ => True
     | _ => False
     end) ->
  keeps (on_node (t - 1) f) T R s.
Proof.
  intros Hinv Hal Hf. destruct (inv_nodes _ _ _ _ Hinv t Hal) as (n & En & _).
  assert (payload_ok n) as Hp by exact (node_payload _ _ _ (inv_alloc _ _ _ _ Hinv) En).
  specialize (Hf n En Hp). destruct (f n) as [n'|e| |] eqn:E; try done.
  - destruct Hf as (Hl & Hr & Hp'). eapply wp_on_node; [exact En|exact E|]. by apply (inv_upd_data _ _ _ _ _ n).
  - unfold on_node. wps. eapply wp_read_node; [exact En|]. wps. by eapply wp_lift_throw.
Qed.

(** Setting a member. *)
Lemma AddAnnotation_keeps n key v : payload_ok n ->
  match AddAnnotation n key v with
  | Ok n' => links n' = links n /\ reference_count_ n' = reference_count_ n /\ payload_ok n'
  | Throw _ => True
  | _ => False
  end.
Proof. intros Hp. destruct (AddAnnotation_ok n key v Hp) as [-> Hp']. done. Qed.

Lemma AppendAnnotation_keeps n key v : payload_ok n ->
  match AppendAnnotation n key v with
  | Ok n' => links n' = links n /\ reference_count_ n' = reference_count_ n /\ payload_ok n'
  | Throw _ => True
  | _ => False
  end.
Proof.
  intros [Hm Hs]. unfold AppendAnnotation, append_at. rewrite Hm. cbn.
  destruct (default nullValue (find key (payload n))); cbn; try done;
    (split_and!; [done..|]; split; [done|]; by apply put_sorted).
Qed.

Lemma with_ref_wrapper {A} id (body : Z -> M Store A) s : with_ref id body s = with_wrapper id E_LOC_CURRENT body s.
Proof.
  unfold with_ref, with_wrapper, GetWrapperTraceNode. change (E_LOC_CURRENT =? E_LOC_ROOT) with false. cbv iota.
  unfold mbind, M_bind. by destruct (ReferNode id s) as [[]].
Qed.

Lemma target_current s id : target s id E_LOC_CURRENT = id.
Proof. done. Qed.

Lemma wp_with_ref_keeps {A} T R s id (body : Z -> M Store A) :
  inv T None R s -> calm R -> in_i32 id ->
  (alive (pool s) id -> forall s1, inv T None (radd id R) s1 -> keeps (body (id - 1)) T (radd id R) s1) ->
  keeps (with_ref id body) T R s.
Proof.
  intros Hinv HR Hid Hb. unfold wp at 1. rewrite with_ref_wrapper.
  by apply (wp_with_wrapper T R s id E_LOC_CURRENT body).
Qed.

Lemma calm0 : calm no_refs.
Proof. intros j. unfold no_refs. lia. Qed.

Lemma calm1 a : calm (radd a no_refs).
Proof. intros j. unfold radd, no_refs. case_bool_decide; lia. Qed.

Lemma calm2 a b : calm (radd a (radd b no_refs)).
Proof. intros j. unfold radd, no_refs. repeat case_bool_decide; lia. Qed.

(** Ids of the forest stay alive as long as the forest stays. *)
Lemma still_alive T R R' s s' id : inv T None R s -> inv T None R' s' -> alive (pool s) id -> alive (pool s') id.
Proof. intros H1 H2 Hal. apply (inv_alive _ _ _ _ id H2). by apply (inv_alive _ _ _ _ id H1). Qed.

Lemma wp_read_alive T R s id (Q : TraceNode -> Store -> Prop) E : inv T None R s -> alive (pool s) id ->
  (forall n, node (pool s) (id - 1) = Some n -> Q n s) -> wp (read_node (id - 1)) Q E s.
Proof.
  intros Hinv Hal HQ. destruct (inv_nodes _ _ _ _ Hinv id Hal) as (n & En & _).
  eapply wp_read_node; [exact En|by apply HQ].
Qed.

(** A method on the pool that leaves the forest and the reference counts alone, and never
    reaches undefined behaviour, however it ends. *)
Definition harmless {A} (m : M Store A) : Prop :=
  forall T s, inv T None no_refs s -> keeps m T no_refs s.

Lemma read_harmless {A} id (f : TraceNode -> A) : in_i32 id ->
  harmless (with_ref id (fun i => n ← read_node i; mret (f n))).
Proof.
  intros Hid T s Hinv. apply wp_with_ref_keeps; [done|apply calm0|done|]. intros Hal s1 Hinv1.
  wps. eapply wp_read_alive; [exact Hinv1|eauto 3 using still_alive|]. intros n _. by wps.
Qed.

Lemma annotate_harmless id flag f : in_i32 id ->
  (forall n, payload_ok n -> match f n with
     | Ok n' => links n' = links n /\ reference_count_ n' = reference_count_ n /\ payload_ok n'
     | Throw _ => True
     | _ => False
     end) -> harmless (with_wrapper id flag (fun w => on_node w f)).
Proof.
  intros Hid Hf T s Hinv. apply wp_with_wrapper; [done|apply calm0|done|]. intros Hal s1 Hinv1.
  destruct (target_spec _ _ _ _ flag Hinv Hal) as (Ht & _).
  apply wp_on_node_keeps; [done|eauto 3 using still_alive|]. intros n _. apply Hf.
Qed.

(** A member whose value is built first. *)
Lemma annotate_built_harmless id flag key built : in_i32 id -> (exists v, built = Ok v) ->
  harmless (with_wrapper id flag (fun w => v ← lift built; on_node w (fun n => AddAnnotation n key v))).
Proof.
  intros Hid [v ->] T s Hinv. apply wp_with_wrapper; [done|apply calm0|done|]. intros Hal s1 Hinv1.
  destruct (target_spec _ _ _ _ flag Hinv Hal) as (Ht & _). wps. eapply wp_lift; [done|].
  apply wp_on_node_keeps; [done|eauto 3 using still_alive|]. intros n _. apply AddAnnotation_keeps.
Qed.

Lemma ChangeTraceStatus_harmless id status : in_i32 id -> harmless (ChangeTraceStatus id status).
Proof.
  intros Hid T s Hinv. apply wp_with_ref_keeps; [done|apply calm0|done|]. intros Hal s1 Hinv1.
  assert (alive (pool s1) id) as Hal1 by eauto 3 using still_alive.
  wps. eapply wp_read_alive; [done..|]. intros n En.
  destruct (alive_root _ _ _ _ _ Hinv1 Hal1 En) as ((cs & Ht & _) & Hra & Hri).
  apply wp_with_ref_keeps; [done|apply calm1|done|]. intros _ s2 Hinv2.
  destruct (inv_root _ _ _ _ _ _ Hinv2 Ht) as (nr & Er & Hrr & Hp & Hl). pose proof Hl as Hl'. unfold links in Hl'.
  injection Hl' as _ _ _ _ Hx. apply get_last in Hx as (x & Ex & _).
  wps. eapply wp_read_node; [exact Er|]. wps. eapply wp_lift; [unfold GetStatus; by rewrite Ex|].
  wps. eapply wp_on_node; [exact Er|unfold SetStatus; by rewrite Ex|]. wps.
  apply (inv_upd_data _ _ _ _ _ nr); try done.
  - eauto 3 using still_alive.
  - unfold links. cbn. by rewrite Ex.
Qed.

Lemma AnnotateExceptionTrace_harmless id exception : in_i32 id -> harmless (AnnotateExceptionTrace id exception).
Proof.
  intros Hid T s Hinv. apply wp_with_wrapper; [done|apply calm0|done|]. intros Hal s1 Hinv1.
  rewrite target_current in *. assert (alive (pool s1) id) as Hal1 by eauto 3 using still_alive.
  wps. eapply wp_mono; [apply (wp_on_node_keeps T (radd id no_refs) s1 id); [done..|]; intros n _ Hp; by split_and!| |done].
  intros [] s2 Hinv2. assert (alive (pool s2) id) as Hal2 by eauto 3 using still_alive.
  apply wp_with_wrapper; [done|apply calm1|done|]. intros _ s3 Hinv3.
  destruct (target_spec _ _ _ _ E_LOC_ROOT Hinv2 Hal2) as (Ht & _). set (t := target s2 id E_LOC_ROOT) in *.
  assert (alive (pool s3) t) as Ht3 by eauto 3 using still_alive.
  wps. eapply wp_mono; [apply (wp_on_node_keeps T (radd t (radd id no_refs)) s3 t); [done..|]; intros n _ Hp; by split_and!| |done].
  intros [] s4 Hinv4. wps. apply wp_get_time. set (s5 := mkStore _ _ _).
  assert (inv T None (radd t (radd id no_refs)) s5) as Hinv5 by (by apply (inv_pool _ _ _ s4)).
  wps. eapply wp_read_alive; [exact Hinv5|eauto 3 using still_alive|]. intros n _.
  wps. eapply wp_lift; [done|]. apply wp_on_node_keeps; [done|eauto 3 using still_alive|].
  intros m _. apply AddAnnotation_keeps.
Qed.

Lemma strncpy_ok dst src n : 0 <= n <= zlen dst -> exists b, CLib.strncpy dst src n = Ok b.
Proof.
  intros Hn. unfold CLib.strncpy, memcpy. eexists. rewrite (proj2 (Z.leb_le 0 n)) by lia.
  rewrite (proj2 (Z.leb_le (0 + n) _)) by lia.
  assert (zlen (take (Z.to_nat n) (src ++ replicate (Z.to_nat n) Byte.x00)) = n) as ->.
  { unfold zlen. rewrite length_take, length_app, length_replicate. lia. }
  rewrite !Z.leb_refl. reflexivity.
Qed.

Lemma GetTraceContext_harmless id key pbuf buf_size : in_i32 id ->
  (forall buf, pbuf = Some buf -> 0 <= buf_size <= zlen buf) -> harmless (GetTraceContext id key pbuf buf_size).
Proof.
  intros Hid Hbuf T s Hinv. apply wp_with_wrapper; [done|apply calm0|done|]. intros Hal s1 Hinv1.
  destruct (target_spec _ _ _ _ E_LOC_ROOT Hinv Hal) as (Ht & _).
  wps. eapply wp_read_alive; [done|eauto 3 using still_alive|]. intros n _. wps.
  unfold getContext. destruct (context_map_ n !! key) as [[v|l]|]; [|by eapply wp_lift_throw..].
  eapply wp_lift; [done|]. destruct pbuf as [buf|]; [|by wps]. case_if; [|by wps].
  destruct (strncpy_ok buf (Agent.c_str v) buf_size (Hbuf buf eq_refl)) as [b Hb].
  wps. eapply wp_lift; [exact Hb|]. by wps.
Qed.

(** ** Starting a trace *)

(** Nodes in use keep their data. *)
Definition keeps_data (p p' : PoolManager) : Prop :=
  forall id n, alive p id -> node p (id - 1) = Some n ->
    exists n', node p' (id - 1) = Some n' /\ data n' = data n.

Lemma keeps_data_trans p1 p2 p3 : (forall id, alive p1 id -> alive p2 id) ->
  keeps_data p1 p2 -> keeps_data p2 p3 -> keeps_data p1 p3.
Proof.
  intros Hal D1 D2 id n Hid En. destruct (D1 id n Hid En) as (n2 & E2 & Ed2).
  destruct (D2 id n2 (Hal _ Hid) E2) as (n3 & E3 & Ed3). exists n3. split; [done|congruence].
Qed.

Lemma same_data_keeps p p' : same_data p p' -> keeps_data p p'.
Proof. by intros [_ H]. Qed.

Lemma keeps_data_upd p i n n' : node p i = Some n -> data n' = data n -> keeps_data p (upd p i n').
Proof.
  intros En Ed. pose proof (node_range _ _ _ En). apply same_data_keeps.
  eapply same_data_upd; [lia|apply same_data_refl|exact En|done].
Qed.

Lemma bump_data id s : keeps_data (pool s) (pool (bump id s)).
Proof.
  unfold bump. destruct (node (pool s) (id - 1)) as [n|] eqn:E; [|by intros j m _ Em; exists m].
  cbn. by eapply keeps_data_upd.
Qed.

Lemma release_data i s : keeps_data (pool s) (pool (release i s)).
Proof.
  unfold release. destruct (node (pool s) i) as [n|] eqn:E; [|by intros j m _ Em; exists m].
  cbn. by eapply (keeps_data_upd _ i).
Qed.

Lemma allocated_data s i s' : allocated s i s' -> keeps_data (pool s) (pool s').
Proof.
  intros (_ & _ & _ & Hv & _) id n Hal En. specialize (Hv id Hal). unfold view in Hv. rewrite En in Hv.
  destruct (node (pool s') (id - 1)) as [n'|]; [|done]. exists n'. split; [done|].
  exact (f_equal (from_option data (data n)) Hv).
Qed.

(** A node that was just started: no annotation but [anns], started at [t]. *)
Definition started (n : TraceNode) (t : Z) (anns : members) : Prop :=
  payload n = anns /\ trace_start_time_ n = t /\ expired_time_ n = -1 /\ set_exp_ n = false
  /\ context_map_ n = ∅.

Lemma start_root_spec T R s ty : inv T None R s ->
  wp (start_root ty) (fun id s' => ~ full (pool s) /\ ~ alive (pool s) id /\ in_i32 id /\ inv (<[id := []]> T) None R s'
       /\ keeps_data (pool s) (pool s')
       /\ exists n, node (pool s') (id - 1) = Some n
          /\ started n (ms_clock s (ms_tick s)) [(bs ":FT", intValue ty)] /\ depth_ n = 0)
    (fun e s' => full (pool s) /\ e = out_of_range /\ s' = s) s.
Proof.
  intros Hinv. unfold start_root. wps. eapply wp_mono; [by apply GetNode_spec| |done].
  intros i s1 (Hfull & Hinv1 & Hall). pose proof (allocated_data _ _ _ Hall) as Hd1.
  destruct Hall as (Hnew & Hi32 & Hal1 & _ & (n & En & _ & _ & Hid & Hpay & Hctx & Hopt & Hexp & Hse & Hrf) & Hclk & Htick).
  replace i with (i + 1 - 1) in * by lia. set (id := i + 1) in *. replace (id - 1 + 1) with id in * by lia.
  pose proof (node_payload _ _ _ (inv_alloc _ _ _ _ Hinv1) En) as Hp.
  destruct (UpgradeToRootNode_ok n ty Hp) as (n' & Eu & Hp' & Hr' & Hl & Hv & Hmeta).
  pose proof (upgrade_spec _ _ _ _ ty Hinv1) as W. unfold wp in W.
  assert (on_node (id - 1) (fun n => UpgradeToRootNode n ty) s1 = (Ok tt, set_pool s1 (upd (pool s1) (id - 1) n'))) as Eon.
  { unfold on_node, read_node. rewrite bind_assoc, bind_get, En, bind_mret, Eu. done. }
  rewrite Eon in W. destruct W as (Hinv2 & _ & _ & Hal2 & Hoth). set (s2 := set_pool s1 _) in *.
  wps. unfold wp at 1. rewrite Eon. fold s2. wps. apply wp_get_time.
  assert (ms_clock s2 (ms_tick s2) = ms_clock s (ms_tick s)) as -> by (cbn; congruence).
  set (t := ms_clock s (ms_tick s)). set (s3 := mkStore _ _ _).
  assert (inv (<[id := []]> T) None R s3) as Hinv3 by (by apply (inv_pool _ _ _ s2)).
  assert (node (pool s3) (id - 1) = Some n') as En3 by (subst s3 s2; node_of).
  wps. eapply wp_on_node; [exact En3|done|]. wps. eapply wp_read_node; [by eapply node_upd_eq|]. wps.
  assert (id_ n' = id) as Hid' by (unfold links in Hl; congruence). cbn [id_ set_times StartTrace]. unfold Node.StartTrace. cbn [id_ set_times].
  rewrite Hid'. assert (alive (pool s3) id) as Hal3 by (apply Hal1; by right).
  split_and!; [done..| | |].
  - by apply (inv_upd_data _ _ _ _ _ n').
  - cbn [pool set_pool]. intros j m Hj Em. destruct (Hd1 j m Hj Em) as (m' & Em' & Edm). exists m'. split; [|done].
    assert (j <> id) by (by intros ->). rewrite node_upd_ne by (destruct Hal3; lia). change (pool s3) with (pool s2).
    by rewrite Hoth.
  - eexists. split; [by eapply node_upd_eq|]. unfold same_meta in Hmeta. rewrite Hmeta. split; [|done].
    unfold started, payload. cbn. rewrite Hv, Hpay. done.
Qed.

Lemma set_options_meta opts : forall n r n', setNodeUserOption opts n = (r, n') ->
  (exists os, n' = set_options n os (skipped_ n)) /\ ((exists u, r = Ok u) \/ exists e, r = Throw e).
Proof.
  induction opts as [|var opts IH]; intros n r n' E; cbn in E.
  { injection E as <- <-. split; [exists (user_optional_setting_func_ n); by destruct n|left; by eexists]. }
  rewrite bind_get in E.
  assert (forall key value, (exists e, parseUserOption n key value = Throw e)
    \/ exists os, parseUserOption n key value = Ok (set_options n os (skipped_ n))) as Hp.
  { intros key value. unfold parseUserOption. case_bool_decide.
    - destruct (CLib.stoll value) as [m|e| |] eqn:Es; cbn; [right; by eexists|left; by eexists|..];
        exfalso; unfold CLib.stoll in Es; repeat case_match; done.
    - case_bool_decide; right; [by eexists|]. exists (user_optional_setting_func_ n). by destruct n. }
  lazymatch type of E with context [lift ?x] => set (o := x) in E end.
  assert ((exists e, o = Throw e) \/ exists os, o = Ok (set_options n os (skipped_ n))) as Ho.
  { subst o. destruct (CLib.split_at Byte.x3a var) as [[k v]|]; apply Hp. }
  destruct Ho as [[e ->]|[os ->]].
  - injection E as <- <-. split; [exists (user_optional_setting_func_ n); by destruct n|right; by eexists].
  - rewrite bind_lift, bind_modify in E. destruct (IH _ _ _ E) as [[os' ->] Hr]. split; [by exists os'|done].
Qed.

(** What a new span event is. *)
Definition event_started (T : trees) (R : refs) (s : Store) (parent r : Z) (cs : list Z) (id : Z) (s' : Store) : Prop :=
  ~ alive (pool s) id /\ in_i32 id /\ inv (<[r := cs ++ [id]]> T) None R s' /\ keeps_data (pool s) (pool s')
  /\ exists n pn, node (pool s') (id - 1) = Some n /\ node (pool s) (parent - 1) = Some pn
     /\ started n (ms_clock s (ms_tick s)) [] /\ parent_id_ n = parent /\ depth_ n = i32 (depth_ pn + 1)
     /\ sequence_ n = zlen cs.

(** Whether a list of options can be read; the node they are set on does not matter. *)
Definition read_options (opts : list (list byte)) : outcome unit := (setNodeUserOption opts new_TraceNode).1.

Lemma parse_option_outcome n n' key value :
  match parseUserOption n key value, parseUserOption n' key value with
  | Ok _, Ok _ => True
  | Throw e, Throw e' => e = e'
  | _, _ => False
  end.
Proof.
  unfold parseUserOption. case_bool_decide.
  - destruct (CLib.stoll value) eqn:Es; cbn; [done|done|..]; exfalso; unfold CLib.stoll in Es; repeat case_match; done.
  - by case_bool_decide.
Qed.

Lemma options_outcome opts : forall n n', (setNodeUserOption opts n).1 = (setNodeUserOption opts n').1.
Proof.
  induction opts as [|var opts IH]; intros n n'; [done|]. cbn [setNodeUserOption]. rewrite !bind_get.
  assert (forall key value, (((n1 ← lift (parseUserOption n key value); _ ← modify (fun _ => n1); setNodeUserOption opts) : M TraceNode unit) n).1
    = (((n1 ← lift (parseUserOption n' key value); _ ← modify (fun _ => n1); setNodeUserOption opts) : M TraceNode unit) n').1) as Hp.
  { intros key value. pose proof (parse_option_outcome n n' key value) as H.
    destruct (parseUserOption n key value), (parseUserOption n' key value); try done; [|by subst].
    rewrite !bind_lift, !bind_modify. apply IH. }
  destruct (CLib.split_at Byte.x3a var) as [[k v]|]; apply Hp.
Qed.

Lemma set_options_spec T R s id n opts : inv T None R s -> alive (pool s) id -> node (pool s) (id - 1) = Some n ->
  wp (set_options_of (id - 1) opts)
    (fun _ s' => read_options opts = Ok tt
       /\ exists os, s' = set_pool s (upd (pool s) (id - 1) (set_options n os (skipped_ n))) /\ inv T None R s')
    (fun e s' => read_options opts = Throw e
       /\ exists os, s' = set_pool s (upd (pool s) (id - 1) (set_options n os (skipped_ n))) /\ inv T None R s') s.
Proof.
  intros Hinv Hal En. unfold set_options_of. wps. eapply wp_read_node; [exact En|].
  destruct (setNodeUserOption opts n) as [r n'] eqn:E. destruct (set_options_meta _ _ _ _ E) as [[os ->] Hr].
  assert (inv T None R (set_pool s (upd (pool s) (id - 1) (set_options n os (skipped_ n))))) as Hinv'.
  { apply (inv_upd_data _ _ _ _ _ n); try done. exact (node_payload _ _ _ (inv_alloc _ _ _ _ Hinv) En). }
  assert (read_options opts = r) as Hro by (unfold read_options; by rewrite (options_outcome opts _ n), E).
  wps. apply wp_write_node. destruct Hr as [[[] ->]|[e ->]].
  - eapply wp_lift; [done|]. split; [done|by exists os].
  - eapply wp_lift_throw; [done|]. split; [done|by exists os].
Qed.

Lemma new_event_spec T R s parent r cs opts : inv T None R s -> few R -> T !! r = Some cs -> parent ∈ r :: cs ->
  wp (new_event (parent - 1) (r - 1) opts)
    (fun id s' => ~ full (pool s) /\ read_options opts = Ok tt /\ event_started T R s parent r cs id s')
    (fun e s' => (full (pool s) /\ e = out_of_range /\ s' = s)
       \/ ~ full (pool s) /\ read_options opts = Throw e /\ exists id, event_started T R s parent r cs id s') s.
Proof.
  intros Hinv HR Ht Hpar. destruct (inv_trees _ _ _ _ Hinv r cs Ht) as [_ Hf]. rewrite Forall_forall in Hf.
  pose proof (Hf parent Hpar) as Hpal. destruct (inv_nodes _ _ _ _ Hinv parent Hpal) as (pn & Epn & Hpid & _).
  unfold new_event. wps. eapply wp_mono; [by apply GetNode_spec| |intros e s' ?; by left].
  intros i s1 (Hfull & Hinv1 & Hall). pose proof (allocated_data _ _ _ Hall) as Hd1.
  destruct Hall as (Hnew & Hi32 & Hal1 & _ & (n & En & _ & Hrt & Hid & Hpay & Hctx & _ & Hexp & Hse & Hrf) & Hclk & Htick).
  replace i with (i + 1 - 1) in * by lia. set (id := i + 1) in *. replace (id - 1 + 1) with id in * by lia.
  assert (parent <> id) as Hne by (by intros ->).
  destruct (inv_loose_node _ _ _ _ Hinv1) as (n0 & En0 & _ & Hrf0 & Hp & [Hnx Hx] & Hid1).
  rewrite En in En0. injection En0 as <-.
  destruct (Hd1 parent pn Hpal Epn) as (pn1 & Epn1 & Edp).
  wps. apply wp_get_time. rewrite Hclk, Htick. set (t := ms_clock s (ms_tick s)). set (s2 := mkStore _ _ _).
  assert (inv T (Some id) R s2) as Hinv2 by (by apply (inv_pool _ _ _ s1)).
  wps. eapply wp_on_node; [exact En|done|]. wps. eapply wp_read_node; [node_of|].
  wps. eapply wp_on_node; [node_of|done|]. cbn [pool set_pool]. rewrite set_pool_twice, upd_upd.
  set (n2 := BindParentTrace _ _). set (s3 := set_pool _ _).
  assert (inv T (Some id) R s3) as Hinv3 by (by apply (inv_upd_loose T R s2)).
  assert (node (pool s3) (id - 1) = Some n2) as En3 by (subst s3; node_of).
  assert (id_ pn1 = parent /\ depth_ pn1 = depth_ pn) as [Hpi Hpd].
  { unfold data in Edp. split; [|congruence]. assert (id_ pn1 = id_ pn) by congruence. congruence. }
  assert (keeps_data (pool s) (pool s3)) as Hd3.
  { intros j m Hj Em. destruct (Hd1 j m Hj Em) as (m' & Em' & Edm). exists m'. split; [|done].
    assert (j <> id) by (by intros ->). subst s3. cbn [pool set_pool]. rewrite node_upd_ne by lia. done. }
  wps. eapply wp_mono; [eapply (AppendToRootTrace_spec T R s3 r cs id n2); try done; cbn; by rewrite Hpi| |done].
  intros [] s4 (Hinv4 & [Hal4 Hd4] & _ & _ & _).
  assert (alive (pool s3) id) as Hal3 by (apply Hal1; by right).
  destruct (Hd4 id n2 Hal3 En3) as (n4 & En4 & Ed4).
  assert (alive (pool s4) id) as Hal4' by (by apply Hal4).
  assert (forall opt, let s5 := set_pool s4 (upd (pool s4) (id - 1) (set_options n4 opt (skipped_ n4))) in
    inv (<[r := cs ++ [id]]> T) None R s5 -> event_started T R s parent r cs id s5) as Hev.
  2: { wps. eapply wp_mono; [by eapply set_options_spec|..].
       - intros [] s5 (Hro & opt & -> & Hinv5). wps. eapply wp_read_node; [by eapply node_upd_eq|]. wps.
         assert (id_ (set_options n4 opt (skipped_ n4)) = id) as -> by (unfold data in Ed4; cbn in *; congruence).
         split_and!; [done..|by apply Hev].
       - intros e s5 (Hro & opt & -> & Hinv5). right. split_and!; [done..|]. exists id. by apply Hev. }
  intros opt s5. subst s5. intros Hinv5. split_and!; [done..| |].
  - intros j m Hj Em. destruct (Hd3 j m Hj Em) as (m3 & Em3 & Ed3).
    destruct (Hd4 j m3 (proj2 (Hal1 j) (or_introl Hj)) Em3) as (m4 & Em4 & Ed4'). exists m4.
    split; [|congruence]. cbn [pool set_pool]. rewrite node_upd_ne; [done|lia|].
    intros E. apply Hnew. by replace id with j by lia.
  - destruct (inv_event _ _ _ _ _ _ (length cs) id Hinv5 (lookup_insert_eq _ _ _)) as (n5 & q & En5 & _ & _ & _ & Hl5);
      [by apply list_lookup_middle|].
    cbn [pool set_pool] in En5. eexists n5, pn. assert (n5 = set_options n4 opt (skipped_ n4)) as -> by (erewrite node_upd_eq in En5; [congruence|done]).
    unfold links in Hl5. cbn in Hl5. unfold data in Ed4. cbn in Ed4.
    assert (Hcs : sequence_ n4 = zlen cs) by (unfold zlen; congruence).
    split_and!; [done|done| |cbn; congruence|cbn; congruence|done].
    unfold started, payload in *. cbn. assert (value_ n4 = value_ n) as -> by congruence.
    change (ms_clock s (ms_tick s)) with t. split_and!; [done|congruence|congruence|congruence|congruence].
Qed.

Lemma wp_with_ref_run {A} T U R s id (body : Z -> M Store A) Q (E : exn -> Store -> Prop) :
  inv T U R s -> in_i32 id ->
  (alive (pool s) id -> wp (body (id - 1)) (fun a s' => Q a (release (id - 1) s'))
     (fun e s' => E e (release (id - 1) s')) (bump id s)) ->
  (~ alive (pool s) id -> E out_of_range s) -> wp (with_ref id body) Q E s.
Proof.
  intros Hinv Hid Hb Hd. unfold wp. rewrite (with_ref_run _ _ _ _ _ _ Hinv Hid).
  case_bool_decide as Hal; [|by apply Hd]. specialize (Hb Hal). unfold wp in Hb. unfold finally.
  by destruct (body (id - 1) (bump id s)) as [[]].
Qed.

(** Two wrappers end. *)
Lemma release_two T' R s parent r : inv T' None (radd r (radd parent R)) s -> calm R ->
  alive (pool s) parent -> alive (pool s) r ->
  inv T' None R (release (parent - 1) (release (r - 1) s)).
Proof.
  intros Hinv HR Hp Hr. pose proof (calm_few _ HR) as Hf. pose proof (calm_radd _ parent HR) as Hf1.
  assert (inv T' None (radd parent R) (release (r - 1) s)) as H1 by (apply release_inv; [done|done|apply Hf1]).
  apply release_inv; [done| |apply Hf]. by apply release_alive.
Qed.

Lemma forest_grow T r cs id j : T !! r = Some cs -> in_forest T j -> in_forest (<[r := cs ++ [id]]> T) j.
Proof.
  intros Ht (r' & cs' & Ht' & Hj). destruct (decide (r' = r)) as [->|Hne].
  - rewrite Ht in Ht'. injection Ht' as <-. exists r, (cs ++ [id]). split; [apply lookup_insert_eq|].
    rewrite app_comm_cons. apply elem_of_app. by left.
  - exists r', cs'. by rewrite lookup_insert_ne.
Qed.

Lemma bump_clock id s : ms_clock (bump id s) = ms_clock s /\ ms_tick (bump id s) = ms_tick s.
Proof. unfold bump. by destruct (node (pool s) (id - 1)). Qed.

Lemma start_event_spec T R s parent opts : inv T None R s -> calm R -> in_i32 parent ->
  wp (start_event parent opts)
    (fun id s' => ~ full (pool s) /\ read_options opts = Ok tt
       /\ exists r cs, T !! r = Some cs /\ parent ∈ r :: cs /\ event_started T R s parent r cs id s')
    (fun e s' => ((~ alive (pool s) parent \/ full (pool s)) /\ e = out_of_range /\ s' = s)
       \/ ~ full (pool s) /\ read_options opts = Throw e
          /\ exists r cs id, T !! r = Some cs /\ parent ∈ r :: cs /\ event_started T R s parent r cs id s') s.
Proof.
  intros Hinv HR Hid. unfold start_event. eapply wp_with_ref_run; [done..| |by left; split; [left|]]. intros Hal.
  destruct (inv_nodes _ _ _ _ Hinv parent Hal) as (pn & Epn & _).
  pose proof (bump_inv _ _ _ _ _ Hinv (calm_few _ HR) Hal) as Hinv1. set (s1 := bump parent s) in *.
  assert (node (pool s1) (parent - 1) = Some (addReference pn)) as Epn1.
  { unfold s1. by rewrite (bump_node _ _ _ _ Epn), bool_decide_eq_true_2. }
  wps. eapply wp_read_node; [exact Epn1|]. change (root_id_ (addReference pn)) with (root_id_ pn).
  destruct (alive_root _ _ _ _ _ Hinv Hal Epn) as ((cs & Ht & Hin) & Hra & Hri). set (r := root_id_ pn) in *.
  pose proof (calm_radd _ parent HR) as HR1.
  eapply wp_with_ref_run; [exact Hinv1|done| |]. 2: { intros Hd. destruct Hd. by apply bump_alive. }
  intros Hra1. pose proof (bump_inv _ _ _ _ _ Hinv1 HR1 Hra1) as Hinv2. set (s2 := bump r s1) in *.
  assert (few (radd r (radd parent R))) as HR2.
  { intros j. specialize (HR j). unfold radd. repeat case_bool_decide; lia. }
  assert (forall j, alive (pool s2) j <-> alive (pool s) j) as Hal2 by (intros j; unfold s2, s1; by rewrite !bump_alive).
  assert (forall id s', ~ alive (pool s) id -> inv (<[r := cs ++ [id]]> T) None (radd r (radd parent R)) s' ->
    inv (<[r := cs ++ [id]]> T) None R (release (parent - 1) (release (r - 1) s'))) as Hback.
  { intros id s' _ Hinv'. apply release_two; [done..|idtac|idtac];
      apply (inv_alive _ _ _ _ _ Hinv'); left; exists r, (cs ++ [id]); (split; [apply lookup_insert_eq|]).
    - rewrite app_comm_cons. apply elem_of_app. by left.
    - by left. }
  assert (full (pool s2) <-> full (pool s)) as Hfull2.
  { unfold full, s2, s1, bump. by repeat case_match. }
  assert (forall id s3, event_started T (radd r (radd parent R)) s2 parent r cs id s3 ->
    event_started T R s parent r cs id (release (parent - 1) (release (r - 1) s3))) as Hst3.
  { intros id s3 (Hnew & Hi & Hinv3 & Hd3 & n & pn2 & En & Epn2 & Hst & Hpa & Hde & Hsq).
    rewrite Hal2 in Hnew. split_and!; [done|done|by apply Hback| |].
    + assert (forall j, alive (pool s2) j -> alive (pool s3) j) as Hgrow.
      { intros j Hj. apply (inv_alive _ _ _ _ _ Hinv3). left. apply forest_grow; [done|].
        apply (inv_alive _ _ _ _ j Hinv2) in Hj as [|]; done. }
      apply (keeps_data_trans _ (pool s1)); [intros j; by apply bump_alive|apply bump_data|].
      apply (keeps_data_trans _ (pool s2)); [intros j; by apply bump_alive|apply bump_data|].
      apply (keeps_data_trans _ (pool s3)); [done..|].
      apply (keeps_data_trans _ (pool (release (r - 1) s3))); [intros j; by apply release_alive|apply release_data..].
    + assert (parent <> id /\ r <> id) as [Hn1 Hn2] by (split; by intros ->).
      exists n, pn. split_and!; [|done| |done|..|done].
      * rewrite !node_release; [done|..]; destruct Hal, Hra; lia.
      * unfold s2, s1 in Hst. destruct (bump_clock r (bump parent s)) as [-> ->] in Hst.
        by destruct (bump_clock parent s) as [-> ->] in Hst.
      * rewrite Hde. unfold s2 in Epn2. rewrite (bump_node _ _ _ _ Epn1) in Epn2. injection Epn2 as <-.
        by case_bool_decide. }
  eapply wp_mono; [by eapply new_event_spec|..].
  - intros id s3 (Hfl & Hro & Hev). rewrite Hfull2 in Hfl. split_and!; [done..|]. exists r, cs. split_and!; [done..|by apply Hst3].
  - intros e s3 [(Hfl & -> & ->)|(Hfl & Hro & id & Hev)]; rewrite Hfull2 in Hfl.
    + left. split_and!; [by right|done|]. unfold s2. rewrite (release_bump _ _ _ _ _ Hinv1 HR1 Hra1).
      by apply (release_bump _ _ _ _ _ Hinv (calm_few _ HR)).
    + right. split_and!; [done..|]. exists r, cs, id. split_and!; [done..|by apply Hst3].
Qed.

(** ** Contexts *)

(** Contexts live in the root of the trace. *)
Lemma target_root T R s id r cs : inv T None R s -> T !! r = Some cs -> id ∈ r :: cs -> target s id E_LOC_ROOT = r.
Proof.
  intros Hinv Ht Hin. destruct (inv_trees _ _ _ _ Hinv r cs Ht) as [_ Hf]. rewrite Forall_forall in Hf.
  destruct (target_spec _ _ _ _ E_LOC_ROOT Hinv (Hf id Hin)) as (_ & Hr & _). destruct (Hr eq_refl) as (cs' & Ht' & Hin').
  by eapply (inv_disjoint _ _ _ _ Hinv).
Qed.

Section contexts.
Context (T : trees) (s : Store) (r : Z) (cs : list Z) (nr : TraceNode).
Hypothesis Hinv : inv T None no_refs s.
Hypothesis Ht : T !! r = Some cs.
Hypothesis Hnr : node (pool s) (r - 1) = Some nr.

Lemma member_ok id : id ∈ r :: cs -> alive (pool s) id /\ in_i32 id.
Proof.
  intros Hin. destruct (inv_trees _ _ _ _ Hinv r cs Ht) as [_ Hf]. rewrite Forall_forall in Hf.
  pose proof (Hf id Hin) as Hal. split; [done|]. exact (proj1 (alive_i32 _ _ (inv_alloc _ _ _ _ Hinv) Hal)).
Qed.

Lemma AddTraceContext_run id key value : id ∈ r :: cs ->
  AddTraceContext id key value s = (Ok tt, set_pool s (upd (pool s) (r - 1) (setContext nr key value))).
Proof.
  intros Hin. destruct (member_ok id Hin) as [Hal Hid]. pose proof (target_root _ _ _ _ _ _ Hinv Ht Hin) as Htg.
  unfold AddTraceContext. rewrite (update_run T no_refs s id E_LOC_ROOT _ nr (setContext nr key value)); rewrite ?Htg; done.
Qed.

Lemma AddTraceContext_inv id key value : id ∈ r :: cs ->
  inv T None no_refs (set_pool s (upd (pool s) (r - 1) (setContext nr key value))).
Proof.
  intros Hin. eapply inv_upd_data; [done|by apply member_ok; left|done|done|done|].
  exact (node_payload _ _ _ (inv_alloc _ _ _ _ Hinv) Hnr).
Qed.

(** Reading a context changes nothing but the caller's buffer. *)
Lemma GetTraceContext_run id key buf n : id ∈ r :: cs -> 0 <= n <= zlen buf ->
  GetTraceContext id key (Some buf) n s
  = (v ← getContext nr key;
     if i32 (zlen v) <? n then mret (i32 (zlen v), Some (take (Z.to_nat n) (c_str v ++ replicate (Z.to_nat n) Byte.x00) ++ zdrop n buf))
     else mret (-1, Some buf), s).
Proof.
  intros Hin Hn. destruct (member_ok id Hin) as [Hal Hid]. pose proof (target_root _ _ _ _ _ _ Hinv Ht Hin) as Htg.
  destruct (member_ok r (list_elem_of_here _ _)) as [Har _].
  unfold GetTraceContext. rewrite (with_wrapper_run _ _ _ _ _ _ Hinv calm0 Hid), bool_decide_eq_true_2, Htg by done.
  unfold finally, read_node. rewrite bind_assoc, bind_get, (bump_node _ _ _ _ Hnr), bool_decide_eq_true_2 by done.
  rewrite bind_mret. change (getContext (addReference nr) key) with (getContext nr key).
  assert (release (r - 1) (bump r s) = s) as Hrel by (by apply (release_bump _ _ _ _ _ Hinv no_refs_few)).
  destruct (getContext nr key) as [v|e| |] eqn:Eg.
  - rewrite bind_lift. cbn [mbind outcome_bind]. case_if.
    + unfold CLib.strncpy. rewrite memcpy_ok by (unfold zlen in *; rewrite ?length_take, ?length_app, ?length_replicate; lia).
      rewrite bind_lift, ztake_0, app_nil_l. cbn -[release bump zdrop ztake take replicate]. rewrite Hrel.
      rewrite Z.add_0_l, ztake_all; [done|]. unfold zlen. rewrite length_take. lia.
    + cbn -[release bump]. by rewrite Hrel.
  - unfold mbind, M_bind, lift, outcome_bind. by rewrite Hrel.
  - exfalso. unfold getContext in Eg. destruct (context_map_ nr !! key) as [[]|]; done.
  - exfalso. unfold getContext in Eg. destruct (context_map_ nr !! key) as [[]|]; done.
Qed.

End contexts.

(** ** The forest is determined by the pool *)

Lemma chain_unique T T' U R R' s r cs cs' : inv T U R s -> inv T' U R' s ->
  T !! r = Some cs -> T' !! r = Some cs' -> forall i, cs !! i = cs' !! i.
Proof.
  intros H1 H2 Ht Ht' i.
  assert (forall cs, Forall (alive (pool s)) cs -> forall j id, id_at cs j = id ->
    cs !! j = if bool_decide (id = E_INVALID_NODE) then None else Some id) as Hat.
  { intros l Hl j id <-. unfold id_at. destruct (l !! j) as [x|] eqn:E; cbn; [|done].
    rewrite bool_decide_eq_false_2; [done|]. rewrite Forall_forall in Hl.
    destruct (Hl x) as [Hx _]; [by eapply list_elem_of_lookup_2|]. unfold E_INVALID_NODE. lia. }
  destruct (inv_trees _ _ _ _ H1 r cs Ht) as [_ Hf]. apply Forall_cons in Hf as [_ Hf].
  destruct (inv_trees _ _ _ _ H2 r cs' Ht') as [_ Hf']. apply Forall_cons in Hf' as [_ Hf'].
  destruct (inv_root _ _ _ _ _ _ H1 Ht) as (n & En & _ & _ & Hl).
  destruct (inv_root _ _ _ _ _ _ H2 Ht') as (n' & En' & _ & _ & Hl').
  rewrite En in En'. injection En' as <-. unfold links in Hl, Hl'. rewrite Hl in Hl'. injection Hl' as H0 _ _.
  induction i as [|i IH]; [by rewrite (Hat cs Hf 0%nat _ eq_refl), (Hat cs' Hf' 0%nat _ eq_refl), H0|].
  destruct (cs !! i) as [c|] eqn:Ec.
  - destruct (inv_event _ _ _ _ _ _ _ _ H1 Ht Ec) as (m & q & Em & _ & _ & _ & Hm).
    symmetry in IH. destruct (inv_event _ _ _ _ _ _ _ _ H2 Ht' IH) as (m' & q' & Em' & _ & _ & _ & Hm').
    rewrite Em in Em'. injection Em' as <-. unfold links in Hm, Hm'. rewrite Hm in Hm'. injection Hm' as _ Hn.
    by rewrite (Hat cs Hf (S i) _ eq_refl), (Hat cs' Hf' (S i) _ eq_refl), Hn.
  - apply lookup_ge_None in Ec. symmetry in IH. apply lookup_ge_None in IH. rewrite !lookup_ge_None_2 by lia. done.
Qed.

Lemma root_stays T T' R R' s r cs : inv T None R s -> inv T' None R' s -> T !! r = Some cs -> T' !! r = Some cs.
Proof.
  intros H1 H2 Ht. destruct (inv_root _ _ _ _ _ _ H1 Ht) as (n & En & _ & _ & Hl).
  destruct (inv_trees _ _ _ _ H1 r cs Ht) as [_ Hf]. apply Forall_cons in Hf as [Hal _].
  destruct (inv_nodes _ _ _ _ H2 r Hal) as (n' & En' & _ & _ & [Hl'|[? _]]); [|done].
  rewrite En in En'. injection En' as <-. destruct Hl' as [cs' Ht' _|r' cs' i p _ _ _ Hl'].
  - rewrite Ht'. f_equal. apply list_eq. intros i. symmetry. exact (chain_unique _ _ _ _ _ _ _ _ _ H1 H2 Ht Ht' i).
  - rewrite Hl in Hl'. by injection Hl'.
Qed.

(** Two forests represented by the same pool are equal. *)
Lemma inv_unique T T' R R' s : inv T None R s -> inv T' None R' s -> T = T'.
Proof.
  intros H1 H2. apply map_eq. intros r. destruct (T !! r) as [cs|] eqn:E.
  - symmetry. eapply root_stays; [exact H1|exact H2|exact E].
  - destruct (T' !! r) as [cs|] eqn:E'; [|done]. rewrite (root_stays _ _ _ _ _ _ _ H2 H1 E') in E. done.
Qed.

(** ** Theorems *)

(** The result of changing one node's payload. *)
Definition with_payload (s : Store) (t : Z) (v : Value) : Store :=
  match node (pool s) (t - 1) with
  | Some n => set_pool s (upd (pool s) (t - 1) (set_value n v))
  | None => s
  end.

(** [pinpoint_add_clue] sets one annotation of one node.  A key that starts with ':' is
    refused with [invalid_argument] and an id that is not in use with [out_of_range], both
    without any change.  Otherwise exactly one member of exactly one payload changes: that
    of the node itself, or of its trace's root for [E_LOC_ROOT]; reference counts and all
    other nodes are as before. *)
Theorem AnnotateTrace_V1_exact T s id key value flag :
  inv T None no_refs s -> in_i32 id ->
  AnnotateTrace_V1 id (Some key) value flag s
  = match key with
    | Byte.x3a :: _ => (Throw invalid_argument, s)
    | _ =>
        if bool_decide (alive (pool s) id) then
          let t := target s id flag in
          let m := default [] (payload <$> node (pool s) (t - 1)) in
          (Ok tt, with_payload s t (objectValue (put key (stringValue value) m)))
        else (Throw out_of_range, s)
    end.
Proof.
  intros Hinv Hid. unfold AnnotateTrace_V1.
  assert (forall k, with_wrapper id flag (fun w => on_node w (fun n => AddAnnotation n k (stringValue value))) s
    = if bool_decide (alive (pool s) id) then
        (Ok tt, with_payload s (target s id flag)
          (objectValue (put k (stringValue value) (default [] (payload <$> node (pool s) (target s id flag - 1))))))
      else (Throw out_of_range, s)) as Hk.
  { intros k. case_bool_decide as Hal; [|by rewrite (with_wrapper_run _ _ _ _ _ _ Hinv calm0 Hid), bool_decide_eq_false_2].
    destruct (target_spec _ _ _ _ flag Hinv Hal) as (Ht & _).
    destruct (inv_nodes _ _ _ _ Hinv _ Ht) as (n & En & _). unfold with_payload. rewrite En. cbn [fmap option_fmap option_map default from_option Datatypes.id].
    apply (update_run T no_refs s id flag _ n); [done|apply calm0|done..| |done].
    pose proof (node_payload _ _ _ (inv_alloc _ _ _ _ Hinv) En) as Hp.
    by destruct (AddAnnotation_ok (addReference n) k (stringValue value) Hp) as [-> _]. }
  destruct key as [|b key]; [exact (Hk [])|]. destruct b; first [reflexivity|exact (Hk (_ :: key))].
Qed.

(** [pinpoint_add_clues] collects.  On the designated node the text "key:value" is
    appended to the array "anno", which the first call creates; if the user has put
    something else there the call throws [LogicError] and changes nothing. *)
Theorem AnnotateTrace_V2_collects T s id key value flag n :
  inv T None no_refs s -> in_i32 id -> alive (pool s) id -> NotInternalKey (Some key) = Ok key ->
  node (pool s) (target s id flag - 1) = Some n ->
  AnnotateTrace_V2 id (Some key) value flag s
  = let text := stringValue (key ++ bs ":" ++ value) in
    match default nullValue (find (bs "anno") (payload n)) with
    | nullValue => (Ok tt, with_payload s (target s id flag) (objectValue (put (bs "anno") (arrayValue [text]) (payload n))))
    | arrayValue l =>
        (Ok tt, with_payload s (target s id flag) (objectValue (put (bs "anno") (arrayValue (l ++ [text])) (payload n))))
    | _ => (Throw json_logic_error, s)
    end.
Proof.
  intros Hinv Hid Hal Hkey En. unfold AnnotateTrace_V2, with_payload. rewrite Hkey, bind_lift, En.
  destruct (node_payload _ _ _ (inv_alloc _ _ _ _ Hinv) En) as [Hm Hs].
  set (text := stringValue _).
  assert (AppendAnnotation (addReference n) (bs "anno") text
    = match default nullValue (find (bs "anno") (payload n)) with
      | nullValue => Ok (addReference (set_value n (objectValue (put (bs "anno") (arrayValue [text]) (payload n)))))
      | arrayValue l => Ok (addReference (set_value n (objectValue (put (bs "anno") (arrayValue (l ++ [text])) (payload n)))))
      | _ => Throw json_logic_error
      end) as Ef.
  { unfold AppendAnnotation, append_at. change (value_ (addReference n)) with (value_ n). rewrite Hm.
    cbn [mbind outcome_bind]. by destruct (default nullValue (find (bs "anno") (payload n))). }
  destruct (default nullValue (find (bs "anno") (payload n))) as [| | | | | |l|];
    first [eapply update_run; [done|apply calm0|done|done|done|exact Ef|done]
          |eapply update_fails; [done|apply calm0|done|done|done|exact Ef]].
Qed.

(** The forest is a function of the pool: a pool represents at most one forest, so the
    specifications against it leave no freedom. *)
Theorem forest_determined T T' R R' s : inv T None R s -> inv T' None R' s -> T = T'.
Proof. apply inv_unique. Qed.

Lemma AnnotateTrace_V1_exact_witness :
  AnnotateTrace_V1 127 (Some (bs "name")) (bs "f") E_LOC_ROOT demo5
  = if bool_decide (alive (pool demo5) 127) then
      let t := target demo5 127 E_LOC_ROOT in
      let m := default [] (payload <$> node (pool demo5) (t - 1)) in
      (Ok tt, with_payload demo5 t (objectValue (put (bs "name") (stringValue (bs "f")) m)))
    else (Throw out_of_range, demo5).
Proof.
  apply (AnnotateTrace_V1_exact {[128 := [127]]} demo5 127 (bs "name") (bs "f") E_LOC_ROOT).
  - apply demo5_inv.
  - word.
Defined.

Lemma AnnotateTrace_V2_collects_witness :
  AnnotateTrace_V2 127 (Some (bs "k")) (bs "v") E_LOC_ROOT demo5
  = (Ok tt, with_payload demo5 (target demo5 127 E_LOC_ROOT)
              (objectValue (put (bs "anno") (arrayValue [stringValue (bs "k:v")]) (payload demo_root)))).
Proof.
  apply (AnnotateTrace_V2_collects {[128 := [127]]} demo5 127 (bs "k") (bs "v") E_LOC_ROOT demo_root).
  - apply demo5_inv.
  - word.
  - split; vm_compute; [split; discriminate|reflexivity].
  - reflexivity.
  - vm_compute. reflexivity.
Defined.

Lemma forest_determined_witness : ({[128 := [127]]} : trees) = {[128 := [127]]}.
Proof. apply (forest_determined _ _ no_refs no_refs demo5); apply demo5_inv. Defined.

End Tracing.
