(* ===== verification/Sending.v ===== *)
(** * The agent and its collector

    The message the collector greets with ([HandleHelloMsg]) and the way a span takes
    from the agent to the wire ([TrySendSpan]), on top of the transport's invariant. *)
From Stdlib Require Import ZArith Lia.
From Stdlib Require Strings.Byte.
From S2P Require Import Prelude SendBuffer Sockets TransLayer Receive Transport ConnPool State Version.
From S2P Require Import Json JsonWriter JsonReader Parsing CLib Agent.

Module Sending.
Import Net Layer Receive Transport Json CLib ProcState Agent.

(** *** Reading members *)

Lemma fits_member m key v : Writer.fits (objectValue m) -> find key m = Some v -> Writer.fits v.
Proof.
  cbn. induction m as [|[k x] m IH]; cbn; [done|]. intros [Hx Hm]. case_bool_decide; [by intros [= <-]|by apply IH].
Qed.

Lemma asString_safe v : Writer.fits v ->
  (exists t, Writer.asString v = Ok t) \/ Writer.asString v = Throw json_logic_error.
Proof.
  destruct v; cbn; intros Hf; try (left; by eexists); try by right.
  - left. destruct (Writer.valueToString_int_ok n Hf) as (d & E & _). by eexists.
  - left. destruct (Writer.uintToString_ok n Hf) as (d & E & _). by eexists.
Qed.

Lemma stoll_safe t : (exists n, stoll t = Ok n) \/ (exists e, stoll t = Throw e).
Proof. unfold stoll. repeat case_match; eauto. Qed.

(** A member that is read, and the object afterwards. *)
Lemma at_key_spec m key : exists m', at_key (objectValue m) key = Ok (default nullValue (find key m), objectValue m')
  /\ forall k, default nullValue (find k m') = default nullValue (find k m).
Proof.
  unfold at_key. cbn. destruct (find key m) as [x|] eqn:E; [by exists m|]. eexists. split; [done|].
  intros k. rewrite find_put. case_bool_decide; [subst; by rewrite E|done].
Qed.

(** What the message says about the version: [None] is silence. *)
Definition hello_version (m : members) : outcome (option (list byte)) :=
  match default nullValue (find (bs "version") m) with
  | nullValue => mret None
  | v => t ← Writer.asString v; mret (Some t)
  end.

Definition hello_time (m : members) : outcome (option Z) :=
  match default nullValue (find (bs "time") m) with
  | stringValue t => n ← stoll t; mret (Some (u64 n))
  | _ => mret None
  end.

(** A version older than 0.7.0, as numbers. *)
Definition too_old (version : list byte) : bool :=
  VersionOrder.pad_compare (VersionOrder.parts (String.string_of_list_byte (Agent.c_str version)))
    (VersionOrder.parts "v0.7.0") <? 0.

Lemma version_too_old_spec m : exists m',
  version_too_old (objectValue m)
  = (v ← hello_version m;
     mret (match v with Some t => too_old t | None => false end, objectValue m'))
  /\ forall k, default nullValue (find k m') = default nullValue (find k m).
Proof.
  unfold version_too_old, version_given, hello_version.
  destruct (at_key_spec m (bs "version")) as (m1 & E1 & H1). rewrite E1. cbn [mbind outcome_bind].
  destruct (at_key_spec m1 (bs "version")) as (m2 & E2 & H2). rewrite E2, (H1 (bs "version")).
  exists m2. split; [|intros k; by rewrite H2, H1].
  destruct (default nullValue (find (bs "version") m)) as [|n|n|t|s|b|l|o] eqn:Ed;
    cbn [to_bool isNull negb isString mbind outcome_bind mret outcome_ret]; try done.
  all: rewrite E2; cbn [mbind outcome_bind]; rewrite (H1 (bs "version")), Ed.
  all: lazymatch goal with |- context [Writer.asString ?v] => destruct (Writer.asString v) as [t'|e| |] end;
    cbn [mbind outcome_bind mret outcome_ret]; try done.
  all: by rewrite VersionOrder.compare_version_run.
Qed.

Lemma announced_time_spec m : announced_time (objectValue m) = hello_time m.
Proof.
  unfold announced_time, time_given, hello_time.
  destruct (at_key_spec m (bs "time")) as (m1 & E1 & H1). rewrite E1. cbn [mbind outcome_bind].
  destruct (at_key_spec m1 (bs "time")) as (m2 & E2 & H2). rewrite E2, (H1 (bs "time")).
  destruct (at_key_spec m2 (bs "time")) as (m3 & E3 & H3).
  destruct (default nullValue (find (bs "time") m)) as [|n|n|t|s|b|l|o] eqn:Ed;
    cbn [to_bool isNull negb isString mbind outcome_bind mret outcome_ret]; try done.
  rewrite E3. cbn [mbind outcome_bind]. rewrite H2, H1, Ed. done.
Qed.

Lemma hello_time_ext m m' : (forall k, default nullValue (find k m') = default nullValue (find k m)) ->
  hello_time m' = hello_time m.
Proof. intros H. unfold hello_time. by rewrite H. Qed.

(** The whole handler on a message that is an object. *)
Lemma HandleHelloMsg_run type buf st m :
  IsReady st = false -> parse_message buf = Ok (objectValue m) ->
  HandleHelloMsg type buf st
  = match hello_version m with
    | Ok v =>
        if (match v with Some t => too_old t | None => false end) then (Ok (-1), st)
        else match hello_time m with
             | Ok (Some t) => (Ok 0, SetStartTime t st)
             | Ok None => (Ok 0, st)
             | Throw e => (Throw e, st)
             | UB => (UB, st)
             | OutOfFuel => (OutOfFuel, st)
             end
    | Throw e => (Throw e, st)
    | UB => (UB, st)
    | OutOfFuel => (OutOfFuel, st)
    end.
Proof.
  intros Hr Hm. unfold HandleHelloMsg. rewrite bind_get, Hr, Hm, bind_lift.
  destruct (version_too_old_spec m) as (m' & -> & Hm').
  destruct (hello_version m) as [v| | |]; [|done..]. cbn [mbind outcome_bind mret outcome_ret].
  change (?b ≫= ?f) with (mbind f b). rewrite bind_lift.
  destruct (match v with Some t => too_old t | None => false end); [done|].
  rewrite announced_time_spec, (hello_time_ext m m' Hm').
  destruct (hello_time m) as [[t|]| | |]; done.
Qed.

Lemma hello_version_safe m : Writer.fits (objectValue m) ->
  (exists v, hello_version m = Ok v) \/ hello_version m = Throw json_logic_error.
Proof.
  intros Hf. unfold hello_version. destruct (find (bs "version") m) as [v|] eqn:E; cbn [default from_option Datatypes.id]; [|left; by eexists].
  assert ((exists o, (t ← Writer.asString v; mret (Some t)) = Ok o)
    \/ (t ← Writer.asString v; mret (Some t)) = Throw json_logic_error) as Hs.
  { destruct (asString_safe v (fits_member _ _ _ Hf E)) as [[t ->]| ->]; [left; by eexists|by right]. }
  destruct v; [left; by eexists|exact Hs..].
Qed.

Lemma hello_time_safe m : (exists t, hello_time m = Ok t) \/ exists e, hello_time m = Throw e.
Proof.
  unfold hello_time. destruct (default nullValue (find (bs "time") m)); try (left; by eexists).
  destruct (stoll_safe s) as [[n ->]|[e ->]]; [left|right]; by eexists.
Qed.

(** A message that fits the receive buffer is read or refused, and what is read fits. *)
Lemma parse_message_safe buf : zlen buf < IN_MSG_BUF_SIZE ->
  (exists root, parse_message buf = Ok root /\ Writer.fits root) \/ exists e, parse_message buf = Throw e.
Proof.
  unfold IN_MSG_BUF_SIZE. intros Hb. unfold parse_message.
  destruct Reader.default_settings as [settings| | |] eqn:Es; [|by vm_compute in Es..]. cbn [mbind outcome_bind].
  destruct (Parsing.parseFromStream_spec settings buf Es ltac:(lia)) as [(ok & root & errs & -> & Hg)|[->|[-> _]]];
    [left|right|right]; eexists; [|done..]. split; [done|]. apply Hg.
Qed.

(** The handler returns or throws, whatever the collector sends. *)
Lemma HandleHelloMsg_safe type buf st : zlen buf < IN_MSG_BUF_SIZE ->
  (exists ret, (HandleHelloMsg type buf st).1 = Ok ret)
  \/ (exists e, (HandleHelloMsg type buf st).1 = Throw e).
Proof.
  intros Hb. destruct (IsReady st) eqn:Er; [left; exists 0; unfold HandleHelloMsg; by rewrite bind_get, Er|].
  destruct (parse_message_safe buf Hb) as [(root & Ep & Hf)|[e Ep]];
    [|right; exists e; unfold HandleHelloMsg; by rewrite bind_get, Er, Ep].
  destruct root as [|n|n|t|s|b|l|m].
  8: { rewrite (HandleHelloMsg_run type buf st m Er Ep).
       destruct (hello_version_safe m Hf) as [[v ->]| ->]; [|right; by eexists].
       destruct (match v with Some t => too_old t | None => false end); [left; by eexists|].
       destruct (hello_time_safe m) as [[[t|] ->]|[e ->]]; [left|left|right]; by eexists. }
  1: { left. exists 0. unfold HandleHelloMsg. rewrite bind_get, Er, Ep. done. }
  all: right; exists json_logic_error; unfold HandleHelloMsg; by rewrite bind_get, Er, Ep.
Qed.

(** ** Spans on their way to the wire *)

(** The agent's connections, and the allocator behind their buffers. *)
Record agent_ok (a : Agent) (e : Env) : Prop := mkAgentOk {
  ao_pool : ConnPool.pool_ok (connection_pool_ a);
  ao_routes : ConnPool.routeVec_ (connection_pool_ a) = [(0, HandleHelloMsg)];
  ao_heap : forall i, Chunks.malloc_ok (heap e i)
}.

(** What a send never changes in the agent. *)
Definition same_agent (a a' : Agent) : Prop :=
  span_timeout_ a' = span_timeout_ a /\ agent_type_ a' = agent_type_ a
  /\ rawSpanHandler_ a' = rawSpanHandler_ a
  /\ ConnPool.same_pool (connection_pool_ a) (connection_pool_ a').

Abbreviation queued l := (Chunks.pending (chunks l)).

(** The bytes of one span on the wire. *)
Definition frame (span : list byte) : list byte := header_bytes REQ_UPDATE_SPAN (zlen span) ++ span.

(** One span handed to a connection: a connection without room for it refuses it, any other
    queues its frame (only a failed allocation cuts the header or the body short); then a
    prefix of the queue went out. *)
Definition written (span : list byte) (l : @TransLayer ProcessState) (e e' : Env) (q out : list byte) : Prop :=
  (if accepts l span then enqueued e span (queued l) q else q = queued l)
  /\ wire e' = wire e ++ out /\ out `prefix_of` q.

(** ... and the rest is still queued, unless the connection was dropped. *)
Definition delivered (span : list byte) (l : @TransLayer ProcessState) (e : Env) (l' : @TransLayer ProcessState) (e' : Env) : Prop :=
  exists q out, written span l e e' q out /\ (q = out ++ queued l' \/ queued l' = []).

(** With memory to spare the frame is whole. *)
Lemma written_whole span l e e' q out : (forall i n, heap e i n <> None) -> written span l e e' q out ->
  q = if accepts l span then queued l ++ frame span else queued l.
Proof. intros Hm [Hq _]. case_match; [by apply (enqueued_all _ _ _ _ Hm)|done]. Qed.

Lemma send_on_spec span timeout w : ok (layer w) -> handlers_safe w -> heap_ok w -> zlen span + 20 < 2 ^ 30 ->
  wp (send_on span timeout)
    (fun _ w' => ok (layer w') /\ kept w w' /\ delivered span (layer w) (env w) (layer w') (env w'))
    (fun e w' => ok (layer w') /\ kept w w' /\ fails w e
       /\ exists q out, written span (layer w) (env w) (env w') q out) w.
Proof.
  intros Hok Hs Hh Hl. unfold send_on. wps. eapply wp_mono; [by apply copy_into_send_buffer_spec| |done].
  intros b w1 [Ha Hb].
  assert (ok (layer w1) /\ kept w w1 /\ wire (env w1) = wire (env w)
    /\ if accepts (layer w) span then enqueued (env w) span (queue w) (queue w1) else queue w1 = queue w)
    as (Hok1 & Hk1 & Hw1 & Hq1).
  { rewrite <- Ha. destruct b; [|by subst]. by destruct Hb as (? & ? & ? & _ & Hq). }
  assert (handlers_safe w1) as Hs1 by (unfold handlers_safe; destruct Hk1 as (_ & -> & _); exact Hs).
  assert (forall w', stepped w1 w' -> ok (layer w') /\ kept w w'
    /\ delivered span (layer w) (env w) (layer w') (env w')) as Hst.
  { intros w' (Hok' & (out & Hw' & Hp & Hrest) & Hk'). split_and!; [done|by etrans|].
    exists (queue w1), out. split; [|done]. unfold written. by rewrite <- Hw1. }
  assert (forall e w', stepped w1 w' /\ fails w1 e -> ok (layer w') /\ kept w w' /\ fails w e
    /\ exists q out, written span (layer w) (env w) (env w') q out) as Hex.
  { intros e w' [H Hf]. destruct (Hst w' H) as (? & ? & q & out & ? & _).
    split_and!; [done..|by apply (fails_kept w w1)|by exists q, out]. }
  repeat case_if.
  - eapply wp_mono; [by apply sync_loop_spec|..]; [|done]. intros [] w' H. by apply Hst.
  - wps. apply Hst. by apply stepped_same.
  - wps. eapply wp_mono; [by apply PoolEventOnce_spec|..]; [|done]. intros ret w' [H _]. wps. by apply Hst.
Qed.

Lemma routes_safe (w : @World ProcessState) cp : ConnPool.routeVec_ cp = [(0, HandleHelloMsg)] ->
  msgRouteMap_ (layer w) = ConnPool.routes_of cp -> handlers_safe w.
Proof.
  intros Hr Hm type handler body h. rewrite Hm. unfold ConnPool.routes_of. rewrite Hr. cbn [foldl fst snd].
  rewrite insert_empty. intros [_ <-]%lookup_singleton_Some. intros Hb. by apply HandleHelloMsg_safe.
Qed.

(** The connection a send uses: the last one that was given back, or a new one. *)
Lemma get_spec (cp : @ConnPool.SpanConnectionPool ProcessState) : ConnPool.pool_ok cp ->
  exists l cp', ConnPool.get cp = Ok (l, cp') /\ ConnPool.pooled cp l /\ ConnPool.pool_ok cp' /\ ConnPool.same_pool cp cp'.
Proof.
  intros Hp. unfold ConnPool.get. destruct (ConnPool._pool cp) as [|l cs] eqn:E.
  - destruct (ConnPool.createConnection_spec cp) as (l & p' & -> & Hl & Hs & Ep & _).
    exists l, p'. split_and!; try done. by apply (ConnPool.pool_ok_same cp).
  - unfold ConnPool.pool_ok in Hp. rewrite E in Hp. apply Forall_cons in Hp as [Hl Hcs].
    exists l. eexists. by split_and!.
Qed.

(** What a send leaves of the process. *)
Definition sent (p p' : Process) (a a' : Agent) : Prop :=
  store p' = store p /\ handed p' = handed p /\ per_thread_current_id p' = per_thread_current_id p
  /\ _agentPtr p' = Some a' /\ agent_ok a' (os p') /\ same_agent a a'.

(** The connection a send uses, and the idle ones beside it. *)
Definition picked (a : Agent) (l : @TransLayer ProcessState) (cs : list (@TransLayer ProcessState)) : Prop :=
  ConnPool.pooled (connection_pool_ a) l
  /\ (ConnPool._pool (connection_pool_ a) = l :: cs \/ ConnPool._pool (connection_pool_ a) = [] /\ cs = []).

(** Why a send throws: the collector's address is a bare [tcp:], or a greeting made the
    handler throw. *)
Definition send_fails (a : Agent) (e : exn) : Prop :=
  (e = logic_error /\ no_host (Layer.c_str (ConnPool.pool_host (connection_pool_ a))))
  \/ exists type body st, zlen body < IN_MSG_BUF_SIZE /\ (HandleHelloMsg type body st).1 = Throw e.

Lemma fails_send w a l e : ConnPool.routeVec_ (connection_pool_ a) = [(0, HandleHelloMsg)] ->
  ConnPool.pooled (connection_pool_ a) l -> layer w = l -> fails w e -> send_fails a e.
Proof.
  intros Hr (_ & Hm & Hh) <- [[-> Hn]|(type & handler & body & h & Hl & Hb & Ht)]; [left|right].
  - by rewrite <- Hh.
  - rewrite Hm in Hl. unfold ConnPool.routes_of in Hl. rewrite Hr in Hl. cbn [foldl fst snd] in Hl.
    rewrite insert_empty in Hl. apply lookup_singleton_Some in Hl as [_ <-]. by exists type, body, h.
Qed.

(** The outcomes of a send. *)
Definition span_sent (span : list byte) (p : Process) (a : Agent) (p' : Process) : Prop :=
  exists a' l l' cs, sent p p' a a' /\ picked a l cs
    /\ ConnPool._pool (connection_pool_ a') = l' :: cs /\ delivered span l (os p) l' (os p').

Definition span_thrown (span : list byte) (p : Process) (a : Agent) (e : exn) (p' : Process) : Prop :=
  send_fails a e
  /\ exists a' l cs q out, sent p p' a a' /\ picked a l cs
     /\ ConnPool._pool (connection_pool_ a') = cs /\ written span l (os p) (os p') q out.

Lemma get_picked a l cp : ConnPool.pool_ok (connection_pool_ a) -> ConnPool.get (connection_pool_ a) = Ok (l, cp) ->
  ConnPool.pooled (connection_pool_ a) l -> picked a l (ConnPool._pool cp).
Proof.
  intros Hp Eg Hl. split; [done|]. unfold ConnPool.get in Eg.
  destruct (ConnPool._pool (connection_pool_ a)) as [|l0 cs0] eqn:E.
  - right. destruct (ConnPool.createConnection_spec (connection_pool_ a)) as (? & ? & Eq & _ & _ & Ep & _).
    rewrite Eq in Eg. injection Eg as -> ->. by rewrite Ep, E.
  - left. by injection Eg as -> <-.
Qed.

Lemma TrySendSpan_spec span timeout p a : _agentPtr p = Some a -> agent_ok a (os p) -> zlen span + 20 < 2 ^ 30 ->
  wp (TrySendSpan span timeout) (fun _ => span_sent span p a) (span_thrown span p a) p.
Proof.
  intros Ea [Hp Hr Hh] Hl. unfold wp, TrySendSpan. rewrite Ea.
  destruct (get_spec _ Hp) as (l & cp & Eg & Hpl & Hcp & Hsp). pose proof Hpl as (Hok & Hrt & Hho). rewrite Eg.
  pose proof (get_picked a l cp Hp Eg Hpl) as Hpick.
  pose proof (send_on_spec span timeout (mkWorld l (os p) (statePtr_ a)) Hok
    (routes_safe (mkWorld l (os p) (statePtr_ a)) _ Hr Hrt) Hh Hl) as W. unfold wp in W.
  destruct (send_on span timeout _) as [[u|e| |] w'] eqn:Es; try done.
  - destruct W as (Hok' & (Hc & Hm & _ & Hhp) & Hd). cbn in Hc, Hm, Hhp, Hd.
    exists (mkAgent (span_timeout_ a) (agent_type_ a) (ConnPool.free (layer w') cp) (peer w') (rawSpanHandler_ a)),
      l, (layer w'), (ConnPool._pool cp).
    split; [|by split].
    split_and!; try done; cbn. split; cbn; [|by destruct Hsp as [_ ->]|by rewrite Hhp].
    constructor; [|exact Hcp]. split_and!; [done|..].
    + rewrite Hm. destruct Hsp as [_ Hsv]. unfold ConnPool.routes_of in *. cbn. by rewrite Hrt, Hsv.
    + rewrite Hc. destruct Hsp as [Hsh _]. cbn. congruence.
  - destruct W as (Hok' & (Hc & Hm & _ & Hhp) & Hf & q & out & Hw). cbn in Hhp, Hw.
    split; [exact (fails_send (mkWorld l (os p) (statePtr_ a)) a l e Hr Hpl eq_refl Hf)|].
    assert (forall x : @World ProcessState, wire (env (snd (delete_TransLayer x))) = wire (env x)
      /\ heap (env (snd (delete_TransLayer x))) = heap (env x)) as Hdel
      by (intros x; unfold delete_TransLayer, modify; cbn; by case_if).
    destruct (Hdel w') as [Hdw Hdh].
    exists (mkAgent (span_timeout_ a) (agent_type_ a) cp (peer w') (rawSpanHandler_ a)), l, (ConnPool._pool cp), q, out.
    split; [|split; [done|split; [done|]]].
    + split_and!; [done..| |done]. split; [done|by cbn; destruct Hsp as [_ ->]|].
      intros i. change (Chunks.malloc_ok (heap (env (delete_TransLayer w').2) i)). by rewrite Hdh, Hhp.
    + destruct Hw as (? & ? & ?). split_and!; [done| |done].
      change (wire (env (delete_TransLayer w').2) = wire (os p) ++ out). by rewrite Hdw.
Qed.

(** ** Theorems *)

(** C29: the collector's greeting decides once.  For a process that is not ready and a
    message that parses to an object: a "version" that is a string older than v0.7.0 (as
    numbers) is answered with -1, which drops the connection, and changes nothing; with a
    recent version or none, a "time" that is a decimal string sets the start time and makes
    the process ready, a "time" that is a string without digits throws and changes nothing,
    and any other "time" is ignored. *)
Theorem HandleHelloMsg_gate type buf st m :
  IsReady st = false -> parse_message buf = Ok (objectValue m) ->
  (forall v, find (bs "version") m = Some (stringValue v) -> too_old v = true ->
     HandleHelloMsg type buf st = (Ok (-1), st))
  /\ ((forall v, find (bs "version") m = Some v -> exists t, v = stringValue t /\ too_old t = false) ->
      match find (bs "time") m with
      | Some (stringValue t) =>
          match stoll t with
          | Ok n => exists st', HandleHelloMsg type buf st = (Ok 0, st')
                      /\ IsReady st' = true /\ GetStartTime st' = u64 n /\ uuid_ st' = uuid_ st
          | Throw e => HandleHelloMsg type buf st = (Throw e, st)
          | _ => False
          end
      | _ => HandleHelloMsg type buf st = (Ok 0, st)
      end).
Proof.
  intros Hr Hm. rewrite (HandleHelloMsg_run type buf st m Hr Hm). unfold hello_version, hello_time. split.
  - intros v -> Ho. cbn. by rewrite Ho.
  - intros Hv. assert (exists o, match default nullValue (find (bs "version") m) with
                      | nullValue => mret None | v => t ← Writer.asString v; mret (Some t) end = Ok o
      /\ match o with Some t => too_old t | None => false end = false) as (o & -> & ->).
    { destruct (find (bs "version") m) as [v|]; [|by exists None].
      destruct (Hv v eq_refl) as (t & -> & Ht). by exists (Some t). }
    destruct (find (bs "time") m) as [[]|]; cbn; try done.
    destruct (stoll_safe s) as [[n ->]|[e ->]]; cbn; [|done]. eexists. split; [done|].
    unfold SetStartTime, IsReady in *. rewrite Hr. done.
Qed.


(** A new agent is one of these. *)
Lemma new_agent_ok host timeout limit ty now e a :
  new_Agent host timeout limit ty now = Ok a -> (forall i, Chunks.malloc_ok (heap e i)) -> agent_ok a e.
Proof.
  unfold new_Agent, ConnPool.new_SpanConnectionPool. intros E Hh.
  destruct (ConnPool.createConnection_spec (ConnPool.mkPool host 0 [] [(0, HandleHelloMsg)])) as (l & cp & Ec & Hl & Hs & Hp & _).
  rewrite Ec in E. cbn in E. injection E as <-. split; cbn; [|by destruct Hs as [_ ->]|done].
  unfold ConnPool.pool_ok. cbn. rewrite Hp. constructor; [|constructor].
  by apply (ConnPool.pooled_same (ConnPool.mkPool host 0 [] [(0, HandleHelloMsg)])).
Qed.

(** ** Concrete runs *)

(** The greeting of a collector at v0.6.9. *)
Definition old_greeting : list byte := Writer.compact
  (objectValue [(bs "time", stringValue (bs "1700")); (bs "version", stringValue (bs "v0.6.9"))]).

Lemma HandleHelloMsg_gate_witness :
  let m := [(bs "time", stringValue (bs "1700")); (bs "version", stringValue (bs "v0.6.9"))] in
  let st := new_ProcessState 5 10 in
  (forall v, find (bs "version") m = Some (stringValue v) -> too_old v = true ->
     HandleHelloMsg 0 old_greeting st = (Ok (-1), st))
  /\ ((forall v, find (bs "version") m = Some v -> exists t, v = stringValue t /\ too_old t = false) ->
      exists st', HandleHelloMsg 0 old_greeting st = (Ok 0, st')
        /\ IsReady st' = true /\ GetStartTime st' = u64 1700 /\ uuid_ st' = uuid_ st).
Proof.
  exact (HandleHelloMsg_gate 0 old_greeting (new_ProcessState 5 10)
    [(bs "time", stringValue (bs "1700")); (bs "version", stringValue (bs "v0.6.9"))] eq_refl ltac:(vm_compute; reflexivity)).
Defined.

(** An agent that has just been configured, offline. *)
Definition demo_agent : Agent :=
  match new_Agent "tcp:127.0.0.1:9999" 0 10 1500 1000 with
  | Ok a => a
  | _ => mkAgent 0 0 (ConnPool.mkPool "" 0 [] []) (new_ProcessState 0 0) false
  end.

Definition demo_process : Process :=
  mkProcess (Some demo_agent) (PoolManager.Pool.mkStore PoolManager.Pool.new_PoolManager (fun _ => 1000) 0)
    (quiet [] [] []) [] 0.

Lemma demo_agent_ok : agent_ok demo_agent (quiet [] [] []).
Proof.
  apply (new_agent_ok "tcp:127.0.0.1:9999" 0 10 1500 1000); [done|].
  intros i. apply Chunks.malloc0_ok.
Qed.


End Sending.
