(* ===== verification/Senders.v ===== *)
(** * Threads that send spans (Agent::TrySendSpan in common/src/common.cpp,
      common/src/ConnectionPool/SpanConnectionPool.h)

    The threads of a process share the pool of connections: its lock makes [get] and [free]
    single steps, and between them a thread works on the connection it holds.  The step
    relation interleaves the stages of [TrySendSpan] of many threads; what the system answers
    is chosen anew in every step.  Each connection carries a number and a record of what was
    handed to it and what left it since it was last opened. *)
From Stdlib Require Import ZArith Lia.
From Stdlib Require Strings.Byte.
From S2P Require Import Prelude SendBuffer Sockets TransLayer Receive Transport ConnPool State Json Agent Sending.

Module Senders.
Import Net Layer Receive Transport ProcState Agent Sending.

Abbreviation Conn := (@TransLayer ProcessState).
Abbreviation SpanConnectionPool := (@ConnPool.SpanConnectionPool ProcessState).

(** ** The stages of [TrySendSpan] *)

(** Between the calls of [TrySendSpan]: in front of [copy_into_send_buffer], of the sending,
    of [free]. *)
Inductive stage :=
| ToQueue (span : list byte) (span_timeout : Z)
| ToFlush (span_timeout : Z)
| ToFree.

(** Everything between [copy_into_send_buffer] and [free]. *)
Definition flush (span_timeout : Z) : M (@World ProcessState) unit :=
  if 0 <? span_timeout then SyncSendAll span_timeout
  else if span_timeout <? 0 then mret tt
  else _ ← PoolEventOnce 0; mret tt.

Lemma send_on_stages span t : send_on span t = (_ ← copy_into_send_buffer span; flush t).
Proof. done. Qed.

(** The spans handed to a connection since it was opened, and the bytes that left it. *)
Record Stream := mkStream { spans : list (list byte); out : list byte }.

(** [created] numbers the connections; [idle] are the numbers of those in the pool. *)
Record Senders := mkSenders {
  connection_pool_ : SpanConnectionPool;
  statePtr_ : ProcessState;
  held : gmap nat (nat * Conn * stage);
  idle : list nat;
  created : nat;
  lost : nat;
  streams : gmap nat Stream
}.

(** [get] of a thread: the number of the connection, those left in the pool, how many there
    are now. *)
Definition take_number (m : Senders) : nat * list nat * nat :=
  match idle m with [] => (created m, [], S (created m)) | id :: ids => (id, ids, created m) end.

Definition got (m : Senders) (t : nat) (l : Conn) (cp : SpanConnectionPool) (st : stage) : Senders :=
  let '(id, ids, n) := take_number m in
  mkSenders cp (statePtr_ m) (<[t := (id, l, st)]> (held m)) ids n (lost m)
    (match idle m with [] => <[id := mkStream [] []]> (streams m) | _ => streams m end).

(** The thread goes on with the connection [l]. *)
Definition worked (m : Senders) (t id : nat) (w : @World ProcessState) (st : stage) (g : Stream) : Senders :=
  mkSenders (connection_pool_ m) (peer w) (<[t := (id, layer w, st)]> (held m)) (idle m) (created m) (lost m)
    (<[id := g]> (streams m)).

(** What a stretch of sending does to the record: bytes left, or the connection was opened anew. *)
Definition flowed (g : Stream) (w w' : @World ProcessState) : Stream :=
  let bytes := drop (length (wire (env w))) (wire (env w')) in
  if bool_decide (queue w = bytes ++ queue w') then mkStream (spans g) (out g ++ bytes) else mkStream [] [].

(** What the allocator may answer. *)
Definition memory (e : Env) : Prop := (forall i, Chunks.malloc_ok (heap e i)) /\ (forall i n, heap e i n <> None).

Inductive step : Senders -> nat -> Senders -> Prop :=
| step_get m t span timeout l cp :
    held m !! t = None -> zlen span + 20 < 2 ^ 30 -> ConnPool.get (connection_pool_ m) = Ok (l, cp) ->
    step m t (got m t l cp (ToQueue span timeout))
| step_queue m t id l span timeout e b w' g :
    held m !! t = Some (id, l, ToQueue span timeout) -> memory e -> streams m !! id = Some g ->
    copy_into_send_buffer span (mkWorld l e (statePtr_ m)) = (Ok b, w') ->
    step m t (worked m t id w' (ToFlush timeout) (if b : bool then mkStream (spans g ++ [span]) (out g) else g))
| step_flush m t id l timeout e w' g :
    held m !! t = Some (id, l, ToFlush timeout) -> memory e -> streams m !! id = Some g ->
    flush timeout (mkWorld l e (statePtr_ m)) = (Ok tt, w') ->
    step m t (worked m t id w' ToFree (flowed g (mkWorld l e (statePtr_ m)) w'))
(* an exception passes and the [unique_ptr] closes the connection *)
| step_throw m t id l timeout e x w' :
    held m !! t = Some (id, l, ToFlush timeout) -> memory e ->
    flush timeout (mkWorld l e (statePtr_ m)) = (Throw x, w') ->
    step m t (mkSenders (connection_pool_ m) (peer w') (delete t (held m)) (idle m) (created m) (S (lost m)) (streams m))
| step_free m t id l :
    held m !! t = Some (id, l, ToFree) ->
    step m t (mkSenders (ConnPool.free l (connection_pool_ m)) (statePtr_ m) (delete t (held m)) (id :: idle m) (created m)
                (lost m) (streams m)).

(** Executions of the threads [0 .. n - 1]. *)
Inductive run (n : nat) : Senders -> Senders -> Prop :=
| run_nil m : run n m m
| run_snoc m m1 t m2 : run n m m1 -> (t < n)%nat -> step m1 t m2 -> run n m m2.

(** A new agent. *)
Definition start (cp : SpanConnectionPool) (st : ProcessState) : Senders :=
  mkSenders cp st ∅ [0%nat] 1 0 {[0%nat := mkStream [] []]}.

(** ** The invariant *)

(** One connection: usable, and its record tells what is queued. *)
Definition conn_ok (m : Senders) (id : nat) (l : Conn) : Prop :=
  ConnPool.pooled (connection_pool_ m) l /\ (id < created m)%nat
  /\ exists g, streams m !! id = Some g /\ framed (spans g) = out g ++ queued l.

Definition stage_ok (st : stage) : Prop := match st with ToQueue span _ => zlen span + 20 < 2 ^ 30 | _ => True end.

Record inv (n : nat) (m : Senders) : Prop := {
  iv_routes : ConnPool.routeVec_ (connection_pool_ m) = [(0, HandleHelloMsg)];
  iv_idle : Forall2 (conn_ok m) (idle m) (ConnPool._pool (connection_pool_ m));
  iv_held t id l st : held m !! t = Some (id, l, st) -> (t < n)%nat /\ conn_ok m id l /\ stage_ok st /\ id ∉ idle m;
  iv_one t t' id l l' st st' : held m !! t = Some (id, l, st) -> held m !! t' = Some (id, l', st') -> t = t';
  iv_distinct : NoDup (idle m);
  iv_count : (length (idle m) + size (held m) + lost m = created m)%nat;
  iv_few : (length (idle m) + size (held m) <= Nat.max 1 n)%nat;
  iv_counter : ConnPool.con_counter (connection_pool_ m) = u32 (Z.of_nat (created m))
}.

(** Fewer threads than numbers hold connections. *)
Lemma held_size {A} n (h : gmap nat A) : (forall t x, h !! t = Some x -> (t < n)%nat) -> (size h <= n)%nat.
Proof.
  intros Hh. rewrite <- size_dom. transitivity (size (set_seq 0 n : gset nat)); [|by rewrite size_set_seq].
  apply subseteq_size. intros t [x Hx]%elem_of_dom. apply elem_of_set_seq. specialize (Hh t x Hx). lia.
Qed.

Lemma senders_start n cp st : ConnPool.routeVec_ cp = [(0, HandleHelloMsg)] -> ConnPool.con_counter cp = 1 ->
  (exists l, ConnPool._pool cp = [l] /\ ConnPool.pooled cp l /\ queued l = []) -> inv n (start cp st).
Proof.
  intros Hr Hc (l & Ep & Hl & Hq). split; cbn; try done.
  - rewrite Ep. constructor; [|constructor]. split_and!; [done|cbn; lia|]. exists (mkStream [] []). by rewrite Hq.
  - apply NoDup_singleton.
  - rewrite map_size_empty. lia.
Qed.

(** *** What a step leaves alone *)

Lemma Forall2_elem {A B} (P Q : A -> B -> Prop) l k : Forall2 P l k -> (forall x y, x ∈ l -> P x y -> Q x y) -> Forall2 Q l k.
Proof. induction 1 as [|x y l k Hxy _ IH]; intros H; constructor; [apply H; [by left|done]|]. apply IH. intros. apply H; [by right|done]. Qed.

Lemma conn_ok_ext m m' id l : ConnPool.same_pool (connection_pool_ m) (connection_pool_ m') -> (created m <= created m')%nat ->
  streams m' !! id = streams m !! id -> conn_ok m id l -> conn_ok m' id l.
Proof.
  intros Hs Hc Hg (Hp & Hi & g & Eg & E). split_and!; [by eapply ConnPool.pooled_same|lia|]. exists g. by rewrite Hg.
Qed.

(** A thread works on the connection it holds. *)
Lemma worked_inv n m t id l st st' w' g : inv n m -> held m !! t = Some (id, l, st) -> stage_ok st' ->
  ConnPool.pooled (connection_pool_ m) (layer w') -> framed (spans g) = out g ++ queued (layer w') ->
  inv n (worked m t id w' st' g).
Proof.
  intros [Hr Hi Hh Ho Hd Hc Hf Hn] Et Hst Hp Hg. destruct (Hh _ _ _ _ Et) as (Htn & (_ & Hid & _) & _ & Hni).
  assert (forall id' l', id' <> id -> conn_ok m id' l' -> conn_ok (worked m t id w' st' g) id' l') as Hext.
  { intros id' l' Hne. apply conn_ok_ext; [done|done|]. cbn. by rewrite lookup_insert_ne. }
  split; cbn [connection_pool_ idle held created lost streams worked]; try done.
  - eapply Forall2_elem; [exact Hi|]. intros id' l' Hin. apply Hext. by intros ->.
  - intros t' id' l' st0. destruct (decide (t' = t)) as [->|Hne].
    + rewrite lookup_insert_eq. intros [= <- <- <-]. split_and!; [done| |done|done].
      split_and!; [done|done|]. exists g. cbn. by rewrite lookup_insert_eq.
    + rewrite lookup_insert_ne by done. intros E. destruct (Hh _ _ _ _ E) as (? & Hk & ? & ?). split_and!; try done.
      apply Hext; [|done]. intros ->. by destruct Hne; eapply Ho.
  - intros t1 t2 i l1 l2 s1 s2 E1 E2. rewrite !lookup_insert in E1, E2.
    repeat case_decide; simplify_eq; try done; by eapply Ho.
  - rewrite map_size_insert_Some by (by eexists). done.
  - rewrite map_size_insert_Some by (by eexists). done.
Qed.

(** *** The stages *)

Lemma pooled_kept cp l e st (w' : @World ProcessState) : ConnPool.pooled cp l -> ok (layer w') -> kept (mkWorld l e st) w' -> ConnPool.pooled cp (layer w').
Proof. intros (_ & Hm & Hc) Hok (Ec & Em & _). cbn in Ec, Em. split_and!; [done|by rewrite Em|by rewrite Ec]. Qed.

Lemma flush_spec timeout (w : @World ProcessState) : ok (layer w) -> handlers_safe w ->
  wp (flush timeout) (fun _ => stepped w) (fun _ => stepped w) w.
Proof.
  intros Hok Hs. unfold flush. repeat case_if.
  - eapply wp_mono; [by apply sync_loop_spec|done|by intros ? ? [? _]].
  - wps. by apply stepped_same.
  - wps. eapply wp_mono; [by apply PoolEventOnce_spec| |by intros ? ? [? _]]. intros ret w' [H _]. by wps.
Qed.

Lemma framed_snoc l x : framed (l ++ [x]) = framed l ++ frame x.
Proof. unfold framed. rewrite fmap_app, concat_app. cbn. by rewrite app_nil_r. Qed.

Lemma flowed_stream g (w w' : @World ProcessState) : framed (spans g) = out g ++ queue w -> sent_from w w' ->
  framed (spans (flowed g w w')) = out (flowed g w w') ++ queue w'.
Proof.
  intros Hg (o & Ew & _ & Hq). unfold flowed. rewrite Ew, drop_app_length. case_bool_decide as E; cbn [spans out].
  - by rewrite Hg, E, <- app_assoc.
  - destruct Hq as [?| ->]; done.
Qed.

Lemma held_safe n m t id l st e : inv n m -> held m !! t = Some (id, l, st) ->
  ok l /\ handlers_safe (mkWorld l e (statePtr_ m)).
Proof.
  intros Hi Et. destruct (iv_held _ _ Hi _ _ _ _ Et) as (_ & ((Hok & Hm & _) & _) & _). split; [done|].
  eapply routes_safe; [by apply (iv_routes _ _ Hi)|done].
Qed.

(** A connection that was just made has nothing queued. *)
Lemma created_empty (cp cp' : SpanConnectionPool) l : ConnPool.createConnection cp = Ok (l, cp') -> queued l = [].
Proof.
  unfold ConnPool.createConnection, new_TransLayer. cbn. intros [= <- _].
  assert (forall rs (l0 : Conn), queued l0 = [] ->
    queued (foldl (fun l v => RegPeerMsgCallback l (fst v) (snd v)) l0 rs) = []) as H; [|by apply H].
  induction rs as [|r rs IH]; intros l0 E; [done|]. cbn [foldl]. by apply IH.
Qed.

Lemma u32_succ k : u32 (u32 (Z.of_nat k) + 1) = u32 (Z.of_nat (S k)).
Proof. rewrite wrapU_add_l. f_equal. lia. Qed.

Lemma queue_inv n m t id l span timeout e b w' g : inv n m -> held m !! t = Some (id, l, ToQueue span timeout) -> memory e ->
  streams m !! id = Some g -> copy_into_send_buffer span (mkWorld l e (statePtr_ m)) = (Ok b, w') ->
  inv n (worked m t id w' (ToFlush timeout) (if b : bool then mkStream (spans g ++ [span]) (out g) else g)).
Proof.
  intros Hi Et [Hh Hm] Eg Ec. destruct (iv_held _ _ Hi _ _ _ _ Et) as (_ & (Hp & _ & g' & Eg' & Hg) & Hl & _).
  rewrite Eg in Eg'. injection Eg' as <-.
  pose proof (copy_into_send_buffer_spec span (mkWorld l e (statePtr_ m)) (proj1 Hp) Hh Hl) as W. unfold wp in W. rewrite Ec in W.
  destruct W as [_ W]. eapply worked_inv; [done|exact Et|done|..].
  - destruct b; [destruct W as (Hok & Hk & _); by eapply pooled_kept|by subst].
  - destruct b; [|by subst w']. destruct W as (_ & _ & _ & _ & Hq). cbn [spans out]. rewrite framed_snoc, Hg.
    rewrite (enqueued_all _ _ _ _ Hm Hq). cbn [layer]. by rewrite <- app_assoc.
Qed.

Lemma flush_inv n m t id l timeout e w' g : inv n m -> held m !! t = Some (id, l, ToFlush timeout) ->
  streams m !! id = Some g -> flush timeout (mkWorld l e (statePtr_ m)) = (Ok tt, w') ->
  inv n (worked m t id w' ToFree (flowed g (mkWorld l e (statePtr_ m)) w')).
Proof.
  intros Hi Et Eg Ef. destruct (iv_held _ _ Hi _ _ _ _ Et) as (_ & (Hp & _ & g' & Eg' & Hg) & _).
  rewrite Eg in Eg'. injection Eg' as <-. destruct (held_safe n m t id l _ e Hi Et) as [Hok Hs].
  pose proof (flush_spec timeout (mkWorld l e (statePtr_ m)) Hok Hs) as W. unfold wp in W. rewrite Ef in W. destruct W as (Hok' & Hsent & Hk).
  eapply worked_inv; [done|exact Et|done|by eapply pooled_kept|]. by apply flowed_stream.
Qed.

(** Connections leave the hands of a thread. *)
Lemma dropped_inv n m t id l st cp p' ids k : inv n m -> held m !! t = Some (id, l, st) ->
  ConnPool.same_pool (connection_pool_ m) cp -> ConnPool.con_counter cp = ConnPool.con_counter (connection_pool_ m) ->
  (ids = idle m /\ ConnPool._pool cp = ConnPool._pool (connection_pool_ m) /\ k = S (lost m)
   \/ ids = id :: idle m /\ ConnPool._pool cp = l :: ConnPool._pool (connection_pool_ m) /\ k = lost m) ->
  inv n (mkSenders cp p' (delete t (held m)) ids (created m) k (streams m)).
Proof.
  intros [Hr Hi Hh Ho Hd Hc Hf Hn] Et Hsp Ecn Hids. destruct (Hh _ _ _ _ Et) as (Htn & Hk & _ & Hni).
  set (m' := mkSenders _ _ _ _ _ _ _). assert (forall i x, conn_ok m i x -> conn_ok m' i x) as Hext by (intros i x; by apply conn_ok_ext).
  assert (size (delete t (held m)) = size (held m) - 1)%nat as Esz by (rewrite map_size_delete_Some by (by eexists); lia).
  assert (size (held m) <> 0)%nat as Hsz by (eapply map_size_ne_0_lookup_2; eauto).
  assert (Forall2 (conn_ok m') (idle m) (ConnPool._pool (connection_pool_ m))) as Hi' by (eapply Forall2_impl; [exact Hi|done]).
  split; cbn [connection_pool_ idle held created lost streams m']; try (subst m'; cbn); try done.
  - by destruct Hsp as [_ ->].
  - destruct Hids as [(-> & -> & _)|(-> & -> & _)]; [done|]. constructor; [|done]. by apply Hext.
  - intros t' id' l' st' E. apply lookup_delete_Some in E as [Hne E]. destruct (Hh _ _ _ _ E) as (? & ? & ? & ?). split_and!; auto.
    destruct Hids as [(-> & _)|(-> & _)]; [done|]. rewrite not_elem_of_cons. split; [|done]. intros ->. by destruct Hne; eapply Ho.
  - intros t1 t2 i l1 l2 s1 s2 E1 E2. apply lookup_delete_Some in E1 as [_ E1], E2 as [_ E2]. by eapply Ho.
  - destruct Hids as [(-> & _)|(-> & _)]; [done|]. by constructor.
  - rewrite Esz. destruct Hids as [(-> & _ & ->)|(-> & _ & ->)]; cbn; lia.
  - rewrite Esz. destruct Hids as [(-> & _)|(-> & _)]; cbn; lia.
  - by rewrite Ecn.
Qed.

(** A thread takes a connection: [ids] and [cp] are what is left, [k] the number of
    connections there have been. *)
Lemma taking_inv n m t id l st cp ids k gs : inv n m -> (t < n)%nat -> held m !! t = None -> stage_ok st ->
  ConnPool.same_pool (connection_pool_ m) cp -> ConnPool.con_counter cp = u32 (Z.of_nat k) -> (created m <= k)%nat ->
  (forall i, (i < created m)%nat -> gs !! i = streams m !! i) ->
  conn_ok (mkSenders cp (statePtr_ m) (<[t := (id, l, st)]> (held m)) ids k (lost m) gs) id l ->
  (forall t' l' st', held m !! t' <> Some (id, l', st')) ->
  NoDup (id :: ids) -> (forall i, i ∈ ids -> i ∈ idle m) -> Forall2 (conn_ok m) ids (ConnPool._pool cp) ->
  (length ids + S (size (held m)) + lost m = k)%nat -> (length ids + S (size (held m)) <= Nat.max 1 n)%nat ->
  inv n (mkSenders cp (statePtr_ m) (<[t := (id, l, st)]> (held m)) ids k (lost m) gs).
Proof.
  intros [Hr Hi Hh Ho Hd Hc Hf Hn] Htn Et Hst Hsp Ecn Hk Hgs Hok Hno [Hni Hnd]%NoDup_cons Hsub Hi' Hc' Hf'. set (m' := mkSenders _ _ _ _ _ _ _) in *.
  assert (forall i x, conn_ok m i x -> conn_ok m' i x) as Hext.
  { intros i x Hx. eapply conn_ok_ext; [done|done| |exact Hx]. apply Hgs. by destruct Hx as (_ & ? & _). }
  split; try (subst m'; cbn [connection_pool_ idle held created lost streams]); try done.
  - by destruct Hsp as [_ ->].
  - eapply Forall2_impl; [exact Hi'|done].
  - intros t' id' l' st'. destruct (decide (t' = t)) as [->|Hne].
    + rewrite lookup_insert_eq. intros [= <- <- <-]. by split_and!.
    + rewrite lookup_insert_ne by done. intros E. destruct (Hh _ _ _ _ E) as (? & ? & ? & Hni'). split_and!; auto.
  - intros t1 t2 i l1 l2 s1 s2 E1 E2. rewrite !lookup_insert in E1, E2.
    repeat case_decide; simplify_eq; try done; first [by exfalso; eapply Hno|by eapply Ho].
  - by rewrite map_size_insert_None.
  - by rewrite map_size_insert_None.
Qed.

Lemma got_inv n m t st l cp : inv n m -> (t < n)%nat -> held m !! t = None -> stage_ok st ->
  ConnPool.get (connection_pool_ m) = Ok (l, cp) -> inv n (got m t l cp st).
Proof.
  intros Hinv Htn Et Hst Eg. pose proof Hinv as [Hr Hi Hh Ho Hd Hc Hf Hn].
  unfold got, take_number. unfold ConnPool.get in Eg. destruct (idle m) as [|id ids] eqn:Eid.
  - inversion Hi as [E0 E1|]; subst. rewrite <- E1 in Eg.
    destruct (ConnPool.createConnection_spec (connection_pool_ m)) as (l0 & cp0 & E & Hp & Hsp & Ep & Ec).
    pose proof (created_empty _ _ _ E) as Hq. rewrite E in Eg. injection Eg as -> ->.
    assert (size (<[t := (created m, l, st)]> (held m)) <= n)%nat as Hsz.
    { apply held_size. intros t' [[i x] s']. destruct (decide (t' = t)) as [->|Hne]; [done|].
      rewrite lookup_insert_ne by done. intros E'. by apply Hh in E' as (? & _). }
    rewrite map_size_insert_None in Hsz by done. cbn [length] in *.
    apply taking_inv; try done; cbn [length]; try lia.
    + by rewrite Ec, Hn, u32_succ.
    + intros i Hlt. rewrite lookup_insert_ne by lia. done.
    + split_and!; cbn; [by eapply ConnPool.pooled_same|lia|]. eexists. rewrite lookup_insert_eq. split; [done|]. by rewrite Hq.
    + intros t' l' st' E'. apply Hh in E' as (_ & (_ & Hlt & _) & _). lia.
    + constructor; [apply not_elem_of_nil|constructor].
    + intros i Hin. by apply elem_of_nil in Hin.
    + rewrite Ep, <- E1. constructor.
  - inversion Hi as [|i x ids' cs Hx Hcs E0 E1]; subst. rewrite <- E1 in Eg. injection Eg as <- <-.
    apply NoDup_cons in Hd as [Hni Hnd]. cbn [length] in *. apply taking_inv; try done; cbn [length]; try lia.
    + intros t' l' st' E'. apply Hh in E' as (_ & _ & _ & Hn'). apply Hn'. by left.
    + by constructor.
    + intros i Hin. rewrite Eid. by right.
Qed.

Lemma step_inv n m t m' : inv n m -> (t < n)%nat -> step m t m' -> inv n m'.
Proof.
  intros Hi Htn Hs. destruct Hs as [m t span timeout l cp Et Hl Eg|m t id l span timeout e b w' g Et He Eg Ec
    |m t id l timeout e w' g Et He Eg Ef|m t id l timeout e x w' Et He Ef|m t id l Et].
  - by apply got_inv.
  - by eapply queue_inv.
  - by eapply flush_inv.
  - eapply dropped_inv; [done|exact Et|done|done|by left].
  - eapply dropped_inv; [done|exact Et|done|done|by right].
Qed.

Lemma run_inv n m m' : run n m m' -> inv n m -> inv n m'.
Proof. induction 1 as [|m m1 t m2 _ IH Ht Hs]; [done|]. intros Hi. eapply step_inv; [by apply IH|done|exact Hs]. Qed.

Lemma new_pool_inv n host cp st : ConnPool.new_SpanConnectionPool host [(0, HandleHelloMsg)] = Ok cp -> inv n (start cp st).
Proof.
  unfold ConnPool.new_SpanConnectionPool. intros E.
  destruct (ConnPool.createConnection_spec (ConnPool.mkPool host 0 [] [(0, HandleHelloMsg)])) as (l & cp' & Ec & Hl & Hs & Hp & Hn).
  pose proof (created_empty _ _ _ Ec) as Hq. rewrite Ec in E. cbn in E. injection E as <-.
  apply senders_start; cbn [ConnPool.routeVec_ ConnPool.con_counter ConnPool._pool ConnPool.set_pool].
  - by destruct Hs as [_ ->].
  - by rewrite Hn.
  - exists l. rewrite Hp. split_and!; [done|by eapply ConnPool.pooled_same|done].
Qed.

(** What the stage of a thread may come to under the answers [e] of the system. *)
Definition goes_on (m : Senders) (l : Conn) (st : stage) (e : Env) : Prop :=
  match st with
  | ToQueue span _ => exists b w', copy_into_send_buffer span (mkWorld l e (statePtr_ m)) = (Ok b, w')
  | ToFlush timeout => exists r w', flush timeout (mkWorld l e (statePtr_ m)) = (r, w') /\ (r = Ok tt \/ exists x, r = Throw x)
  | ToFree => True
  end.

Lemma stage_goes_on n m t id l st e : inv n m -> held m !! t = Some (id, l, st) -> memory e -> goes_on m l st e.
Proof.
  intros Hi Et [Hh Hm]. destruct (held_safe n m t id l st e Hi Et) as [Hok Hs]. destruct (iv_held _ _ Hi _ _ _ _ Et) as (_ & _ & Hl & _).
  destruct st as [span timeout|timeout|]; cbn; [..|done].
  - pose proof (copy_into_send_buffer_spec span (mkWorld l e (statePtr_ m)) Hok Hh Hl) as W. unfold wp in W.
    destruct (copy_into_send_buffer span _) as [[b| | |] w']; try done. by eexists _, _.
  - pose proof (flush_spec timeout (mkWorld l e (statePtr_ m)) Hok Hs) as W. unfold wp in W.
    destruct (flush timeout _) as [[[]|x| |] w']; try done; eexists _, _; split; eauto.
Qed.

(** ** Theorems *)


(** A thread that nobody interrupts does what [TrySendSpan] of Agent.v does. *)
Theorem alone_is_TrySendSpan n m t span timeout p p' a : inv n m -> (t < n)%nat -> held m !! t = None -> zlen span + 20 < 2 ^ 30 ->
  _agentPtr p = Some a -> Agent.connection_pool_ a = connection_pool_ m -> Agent.statePtr_ a = statePtr_ m -> memory (os p) ->
  TrySendSpan span timeout p = (Ok tt, p') ->
  exists a' m', _agentPtr p' = Some a' /\ run n m m'
    /\ Agent.connection_pool_ a' = connection_pool_ m' /\ Agent.statePtr_ a' = statePtr_ m' /\ held m' = held m.
Proof.
  intros Hi Htn Et Hl Ea Ec Es [Hh Hm] E. unfold TrySendSpan in E. rewrite Ea, Ec, Es in E.
  destruct (ConnPool.get (connection_pool_ m)) as [[l cp]| | |] eqn:Eg; try done.
  destruct (send_on span timeout (mkWorld l (os p) (statePtr_ m))) as [[[]| | |] w2] eqn:Esend; try done. injection E as <-.
  rewrite send_on_stages in Esend. apply bind_returns in Esend as (b & w1 & Eq & Ef).
  pose proof (step_get m t span timeout l cp Et Hl Eg) as S1. set (m1 := got _ _ _ _ _) in S1.
  pose proof (step_inv n m t m1 Hi Htn S1) as Hi1.
  assert (exists id, held m1 = <[t := (id, l, ToQueue span timeout)]> (held m) /\ connection_pool_ m1 = cp /\ statePtr_ m1 = statePtr_ m)
    as (id & E1 & Ecp1 & Est1) by (subst m1; unfold got; destruct (take_number m) as [[id ?] ?]; by exists id).
  assert (held m1 !! t = Some (id, l, ToQueue span timeout)) as Et1 by (by rewrite E1, lookup_insert_eq).
  destruct (iv_held _ _ Hi1 _ _ _ _ Et1) as (_ & ((Hok & _) & _ & g & Eg1 & _) & _).
  rewrite <- Est1 in Eq. pose proof (step_queue m1 t id l span timeout (os p) b w1 g Et1 (conj Hh Hm) Eg1 Eq) as S2.
  set (g1 := if b then _ else _) in S2. set (m2 := worked _ _ _ _ _ _) in S2.
  assert (memory (env w1)) as Hm1.
  { pose proof (copy_into_send_buffer_spec span (mkWorld l (os p) (statePtr_ m1)) Hok Hh Hl) as W. unfold wp in W. rewrite Eq in W. destruct W as [_ W].
    destruct b; [destruct W as (_ & (_ & _ & _ & Ehp) & _); unfold memory; by rewrite Ehp|by subst w1]. }
  assert (held m2 !! t = Some (id, layer w1, ToFlush timeout)) as Et2 by apply lookup_insert_eq.
  assert (flush timeout (mkWorld (layer w1) (env w1) (statePtr_ m2)) = (Ok tt, w2)) as Ef' by (rewrite <- Ef; by destruct w1).
  pose proof (step_flush m2 t id (layer w1) timeout (env w1) w2 g1 Et2 Hm1 (lookup_insert_eq _ _ _) Ef') as S3.
  set (m3 := worked m2 _ _ _ _ _) in S3.
  pose proof (step_free m3 t id (layer w2) (lookup_insert_eq _ _ _)) as S4.
  eexists _, _. split; [done|]. split; [|split_and!].
  - eapply run_snoc; [|exact Htn|exact S4]. eapply run_snoc; [|exact Htn|exact S3]. eapply run_snoc; [|exact Htn|exact S2].
    eapply run_snoc; [constructor|exact Htn|exact S1].
  - change (ConnPool.free (layer w2) cp = ConnPool.free (layer w2) (connection_pool_ m1)). by rewrite Ecp1.
  - done.
  - change (delete t (<[t := (id, layer w2, ToFree)]> (<[t := (id, layer w1, ToFlush timeout)]> (held m1))) = held m).
    by rewrite E1, !insert_insert_eq, delete_insert_id.
Qed.


End Senders.
