(* ===== verification/Service.v ===== *)
(** * The agent as a service

    The theorems about whole calls of the C interface: what starting and ending a trace
    does to the forest of traces, the connections and the span handler, and that no
    sequence of calls breaks the invariants or lets an exception escape. *)
From Stdlib Require Import ZArith Lia.
From Stdlib Require Strings.Byte.
From S2P Require Import Prelude SendBuffer Sockets TransLayer Receive Transport ConnPool State Version.
From S2P Require Import Json JsonWriter Layout CLib TraceNode PoolManager Forest Agent Api Tracing Sending.

Module Service.
Import Net Layer Json Node Pool Forest Agent Api Tracing Sending.

(** ** Code of the pool inside a process *)

Lemma wp_on_store {A} (m : M Store A) (Q : A -> Process -> Prop) (E : exn -> Process -> Prop) p :
  wp m (fun a s' => Q a (set_store p s')) (fun e s' => E e (set_store p s')) (store p) ->
  wp (on_store m) Q E p.
Proof. unfold wp, on_store. by destruct (m (store p)) as [[]]. Qed.

Lemma set_store_twice p s s' : set_store (set_store p s) s' = set_store p s'.
Proof. done. Qed.

Lemma set_store_same p : set_store p (store p) = p.
Proof. by destruct p. Qed.

Lemma wp_with_node {A} T U R p id (body : Z -> M Process A) Q (E : exn -> Process -> Prop) :
  inv T U R (store p) -> in_i32 id ->
  (alive (pool (store p)) id ->
   wp (body (id - 1)) (fun a p' => Q a (set_store p' (release (id - 1) (store p'))))
     (fun e p' => E e (set_store p' (release (id - 1) (store p'))))
     (set_store p (bump id (store p)))) ->
  (~ alive (pool (store p)) id -> E out_of_range p) ->
  wp (with_node id body) Q E p.
Proof.
  intros Hinv Hid Hb Hd. unfold with_node. wps. apply wp_on_store. unfold wp at 1.
  rewrite (ReferNode_run _ _ _ _ _ Hinv Hid). case_bool_decide as Hal.
  - wps. by apply Hb.
  - rewrite set_store_same. by apply Hd.
Qed.

(** The end time goes into the node's payload; the forest does not change. *)
Lemma end_node_spec T R s id n : inv T None R s -> alive (pool s) id -> node (pool s) (id - 1) = Some n ->
  wp (end_node (id - 1))
    (fun _ s' => inv T None R s' /\ ms_clock s' = ms_clock s
       /\ (forall j, j <> id -> node (pool s') (j - 1) = node (pool s) (j - 1))
       /\ exists n' k, node (pool s') (id - 1) = Some n' /\ Node.EndTrace n (ms_clock s k) = Ok n')
    (fun _ _ => False) s.
Proof.
  intros Hinv Hal En. unfold end_node. wps. apply wp_get_time. set (s1 := mkStore _ _ _).
  assert (inv T None R s1) as Hinv1 by (by apply (inv_pool _ _ _ s)).
  pose proof (node_payload _ _ _ (inv_alloc _ _ _ _ Hinv) En) as Hp.
  pose proof (EndTrace_ok n (ms_clock s (ms_tick s)) Hp) as Ee. set (n' := set_value _ _) in Ee.
  destruct (EndTrace_links _ _ _ Hp Ee) as (Hl & Hr & Hp' & Hv).
  eapply wp_on_node; [exact En|exact Ee|]. split_and!.
  - by apply (inv_upd_data _ _ _ s1 _ n).
  - done.
  - intros j Hj. cbn. apply node_upd_ne; [destruct Hal; lia|lia].
  - exists n', (ms_tick s). split; [by eapply node_upd_eq|done].
Qed.

(** A process whose pool represents the forest [T] and whose agent works. *)
Definition serving (T : trees) (R : refs) (a : Agent) (p : Process) : Prop :=
  inv T None R (store p) /\ _agentPtr p = Some a /\ agent_ok a (os p).

(** ... and that was [a] before. *)
Definition still_serving (T : trees) (R : refs) (a : Agent) (p : Process) : Prop :=
  exists a', serving T R a' p /\ same_agent a a'.

Lemma same_agent_refl a : same_agent a a.
Proof. by split_and!. Qed.

Lemma same_agent_trans a b c : same_agent a b -> same_agent b c -> same_agent a c.
Proof.
  intros (H1 & H2 & H3 & H4 & H5) (K1 & K2 & K3 & K4 & K5). split_and!; try congruence. split; congruence.
Qed.

(** The node pool may change under a serving process. *)
Lemma serving_store T R T' R' a p s : serving T R a p -> inv T' None R' s -> serving T' R' a (set_store p s).
Proof. by intros (_ & ? & ?) ?. Qed.

(** *** Spans *)

(** The payload an event has or gets when it is ended (again). *)
Definition ended_value (clk : nat -> Z) (n : TraceNode) (ev : Value) : Prop :=
  ev = value_ n \/ exists k, ev = objectValue (put_all (end_members n (clk k)) (payload n)).

Definition may_report (s : Store) (cs : list Z) (evs : list Value) : Prop :=
  Forall2 (fun c ev => exists n, node (pool s) (c - 1) = Some n /\ ended_value (ms_clock s) n ev) cs evs.

Lemma events_may_report s cs evs : events_of s cs evs -> may_report s cs evs.
Proof.
  intros H. eapply Forall2_impl; [exact H|]. intros c ev (n & En & Hr). exists n. split; [done|].
  unfold reported in Hr. case_match; [by right|by left].
Qed.

(** The text of the span of a trace is small enough to be sent, whenever its events end. *)
Definition sendable (s : Store) (r : Z) (cs : list Z) : Prop :=
  forall nr k evs v, node (pool s) (r - 1) = Some nr -> may_report s cs evs ->
    with_events (objectValue (put_all (end_members nr (ms_clock s k)) (payload nr))) evs = Ok v ->
    Writer.fits v /\ zlen (Writer.compact v) + 20 < 2 ^ 30.

(** *** Spans do not grow while events end *)

(** From [s] to [s'] the trace of [r] gains nothing but end times. *)
Definition settles (s s' : Store) (r : Z) (cs : list Z) : Prop :=
  ms_clock s' = ms_clock s
  /\ (forall c n', c ∈ cs -> node (pool s') (c - 1) = Some n' -> exists n, node (pool s) (c - 1) = Some n
        /\ forall ev, ended_value (ms_clock s) n' ev -> ended_value (ms_clock s) n ev)
  /\ (forall n', node (pool s') (r - 1) = Some n' -> exists n, node (pool s) (r - 1) = Some n
        /\ payload n' = payload n /\ forall t, end_members n' t = end_members n t).

Lemma settles_trans s1 s2 s3 r cs : settles s1 s2 r cs -> settles s2 s3 r cs -> settles s1 s3 r cs.
Proof.
  intros (C1 & E1 & R1) (C2 & E2 & R2). split_and!; [congruence|..].
  - intros c n3 Hc En3. destruct (E2 c n3 Hc En3) as (n2 & En2 & H2). destruct (E1 c n2 Hc En2) as (n1 & En1 & H1).
    exists n1. split; [done|]. intros ev He. apply H1. rewrite C1 in H2. by apply H2.
  - intros n3 En3. destruct (R2 n3 En3) as (n2 & En2 & P2 & M2). destruct (R1 n2 En2) as (n1 & En1 & P1 & M1).
    exists n1. split_and!; [done|congruence|]. intros t. by rewrite M2, M1.
Qed.

Lemma settles_sendable s s' r cs : settles s s' r cs -> sendable s r cs -> sendable s' r cs.
Proof.
  intros (Hc & He & Hr) Hs nr' k evs v En' Hev Hw. destruct (Hr nr' En') as (nr & En & Hp & Hm).
  rewrite Hp, Hm, Hc in Hw. eapply (Hs nr k evs v En); [|done]. unfold may_report in *. rewrite Hc in Hev.
  eapply Forall2_impl_in; [exact Hev|]. intros c ev Hcin (n' & Enn & Hv).
  destruct (He c n' Hcin Enn) as (n & En0 & H0). exists n. auto.
Qed.

(** Nodes that change their reference count only. *)
Lemma settles_refs s s' r cs : ms_clock s' = ms_clock s ->
  (forall j n', node (pool s') (j - 1) = Some n' -> exists n c, node (pool s) (j - 1) = Some n /\ n' = set_refs n c) ->
  settles s s' r cs.
Proof.
  intros Hc H. split_and!; [done|..].
  - intros c n' _ E. destruct (H c n' E) as (n & k & En & ->). by exists n.
  - intros n' E. destruct (H r n' E) as (n & k & En & ->). by exists n.
Qed.

Lemma settles_upd_refs s i n c r cs : node (pool s) i = Some n ->
  settles s (set_pool s (upd (pool s) i (set_refs n c))) r cs.
Proof.
  intros En. apply settles_refs; [done|]. intros j n'. cbn. rewrite (node_upd _ _ _ _ _ En).
  case_bool_decide as E; [subst i; intros [= <-]; by exists n, c|].
  intros E'. exists n', (reference_count_ n'). split; [done|]. by destruct n'.
Qed.

Lemma settles_bump id s r cs : settles s (bump id s) r cs.
Proof.
  unfold bump. destruct (node (pool s) (id - 1)) as [n|] eqn:E; [by apply settles_upd_refs|].
  apply settles_refs; [done|]. intros j n' E'. exists n', (reference_count_ n'). split; [done|]. by destruct n'.
Qed.

Lemma settles_release i s r cs : settles s (release i s) r cs.
Proof.
  unfold release. destruct (node (pool s) i) as [n|] eqn:E; [by apply (settles_upd_refs s i)|].
  apply settles_refs; [done|]. intros j n' E'. exists n', (reference_count_ n'). split; [done|]. by destruct n'.
Qed.

(** Ending a node again overwrites what ending it wrote. *)
Lemma put_all_again n t t' m : sorted m ->
  put_all (end_members n t') (put_all (end_members n t) m) = put_all (end_members n t') m.
Proof.
  intros Hs. apply sorted_ext; [by repeat apply put_all_sorted|by apply put_all_sorted|]. intros key.
  rewrite !find_put_all by apply end_members_NoDup. destruct (find key (end_members n t')) eqn:E; [done|].
  destruct (find key (end_members n t)) eqn:E'; [|done]. exfalso. revert E E'. unfold end_members.
  destruct (set_exp_ n), (root_node_extra_ptr_ n); cbn [app find]; repeat case_bool_decide; done.
Qed.

Lemma ended_again clk n n' k : payload_ok n -> Node.EndTrace n (clk k) = Ok n' ->
  (forall t, end_members n' t = end_members n t) /\ forall ev, ended_value clk n' ev -> ended_value clk n ev.
Proof.
  intros Hp. rewrite EndTrace_ok by done. intros [= <-]. split; [done|]. intros ev [->|[k' ->]].
  - right. by exists k.
  - right. exists k'. f_equal. exact (put_all_again n (clk k) (clk k') (payload n) (proj2 Hp)).
Qed.

(** *** Events *)

Lemma end_scope_event T R p a r cs i id timeout :
  serving T R a p -> T !! r = Some cs -> cs !! i = Some id ->
  wp (end_scope id timeout (id - 1))
    (fun ret p' => exists parent, ret = Some parent /\ parent ∈ r :: take i cs
       /\ parent_id_ <$> node (pool (store p)) (id - 1) = Some parent
       /\ serving T R a p' /\ settles (store p) (store p') r cs
       /\ node (pool (store p')) (r - 1) = node (pool (store p)) (r - 1) /\ os p' = os p /\ handed p' = handed p)
    (fun _ _ => False) p.
Proof.
  intros Hs Ht Hi. pose proof Hs as (Hinv & Ea & Hao). destruct (inv_event _ _ _ _ _ _ _ _ Hinv Ht Hi) as (n & par & En & Er & Hp & Hpar & Hl).
  destruct (inv_trees _ _ _ _ Hinv r cs Ht) as [Hd Hf]. rewrite Forall_forall in Hf.
  assert (id ∈ cs) as Hin by (by eapply list_elem_of_lookup_2).
  assert (alive (pool (store p)) id) as Hal by (apply Hf; by right).
  unfold end_scope. wps. apply wp_on_store. eapply wp_read_node; [exact En|].
  rewrite set_store_same. pose proof Hl as Hl'. unfold links in Hl. injection Hl as Hid Hrt Hpr _ _ _.
  assert (IsRootNode n = false) as ->.
  { unfold IsRootNode. rewrite Hid, Hrt. apply Z.eqb_neq. intros ->. apply NoDup_cons in Hd as [Hn _]. done. }
  cbn [negb]. wps. apply wp_on_store. eapply wp_mono; [by apply end_node_spec| |done].
  intros [] s1 (Hinv1 & Hclk & Hoth & n' & k & En' & Ee). wps. apply wp_on_store.
  destruct (EndTrace_links _ _ _ Hp Ee) as (Hl1 & _). destruct (ended_again (ms_clock (store p)) _ _ k Hp Ee) as [_ Hval].
  eapply wp_read_node; [exact En'|]. wps. rewrite set_store_twice. exists par.
  split_and!; [|done|rewrite En; cbn; by rewrite Hpr|by eapply serving_store| | |done|done].
  - f_equal. rewrite Hl' in Hl1. unfold links in Hl1. congruence.
  - apply NoDup_cons in Hd as [Hn _]. split_and!; [done|..]; cbn [store set_store].
    + intros c m Hc Em. destruct (decide (c = id)) as [->|Hne]; [|exists m; rewrite <- Hoth; done].
      rewrite En' in Em. injection Em as <-. by exists n.
    + intros m Em. exists m. rewrite <- Hoth; [done|]. intros ->. done.
  - apply NoDup_cons in Hd as [Hn _]. apply Hoth. by intros ->.
Qed.

(** The span of the trace of [r]: its root's payload, ended, with its events. *)
Definition span_of (s : Store) (r : Z) (cs : list Z) (v : Value) : Prop :=
  exists nr k evs, node (pool s) (r - 1) = Some nr /\ events_of s cs evs
    /\ with_events (objectValue (put_all (end_members nr (ms_clock s k)) (payload nr))) evs = Ok v.

(** The text of [v] was sent: what became of the connections and of the system is what one
    run of [TrySendSpan] on it makes of them, and the span handler, if there is one, saw the
    text. *)
Definition sent_span (a : Agent) (timeout : Z) (v : Value) (p p' : Process) : Prop :=
  (exists p1, TrySendSpan (Writer.compact v) timeout p = (Ok tt, p1) /\ span_sent (Writer.compact v) p a p1
     /\ _agentPtr p' = _agentPtr p1 /\ os p' = os p1)
  /\ handed p' = handed p ++ (if rawSpanHandler_ a then [Agent.c_str (Writer.compact v)] else []).

(** That run threw. *)
Definition send_threw (a : Agent) (timeout : Z) (v : Value) (e : exn) (p p' : Process) : Prop :=
  exists p1, TrySendSpan (Writer.compact v) timeout p = (Throw e, p1) /\ span_thrown (Writer.compact v) p a e p1
    /\ _agentPtr p' = _agentPtr p1 /\ os p' = os p1.

(** The timeout of a send: the agent's own when the caller gives none. *)
Definition timeout_of (a : Agent) (timeout : Z) : Z := if timeout =? 0 then span_timeout_ a else timeout.

(** A send does not look at the node pool. *)
Lemma TrySendSpan_store span timeout p s :
  TrySendSpan span timeout (set_store p s)
  = ((TrySendSpan span timeout p).1, set_store (TrySendSpan span timeout p).2 s).
Proof.
  unfold TrySendSpan. change (_agentPtr (set_store p s)) with (_agentPtr p). change (os (set_store p s)) with (os p).
  destruct (_agentPtr p) as [a|]; [|done]. destruct (ConnPool.get _) as [[l cp]| | |]; [|done..].
  by destruct (send_on _ _ _) as [[] w].
Qed.

Lemma sent_span_store a timeout v p s p' : _agentPtr p = Some a -> agent_ok a (os p) ->
  zlen (Writer.compact v) + 20 < 2 ^ 30 ->
  sent_span a timeout v (set_store p s) p' -> sent_span a timeout v p p'.
Proof.
  intros Ea Hao Hl [(p1 & Et & _ & E1 & E2) Hhd]. split; [|done]. rewrite TrySendSpan_store in Et.
  pose proof (TrySendSpan_spec (Writer.compact v) timeout p a Ea Hao Hl) as W. unfold wp in W.
  destruct (TrySendSpan (Writer.compact v) timeout p) as [o p2]. cbn in Et. injection Et as -> <-. by exists p2.
Qed.

Lemma send_threw_store a timeout v e p s p' : _agentPtr p = Some a -> agent_ok a (os p) ->
  zlen (Writer.compact v) + 20 < 2 ^ 30 ->
  send_threw a timeout v e (set_store p s) p' -> send_threw a timeout v e p p'.
Proof.
  intros Ea Hao Hl (p1 & Et & _ & E1 & E2). rewrite TrySendSpan_store in Et.
  pose proof (TrySendSpan_spec (Writer.compact v) timeout p a Ea Hao Hl) as W. unfold wp in W. unfold send_threw.
  destruct (TrySendSpan (Writer.compact v) timeout p) as [o p2]. cbn in Et. injection Et as -> <-. by exists p2.
Qed.

Lemma node_tree_write_run v : Writer.fits v -> Writer.node_tree_write v = Ok (Writer.compact v).
Proof. apply Layout.node_tree_write_fits. Qed.

Lemma events_of_bump s r cs nr evs : node (pool s) (r - 1) = Some nr -> r ∉ cs -> 1 <= r ->
  events_of (bump r s) cs evs -> events_of s cs evs.
Proof.
  intros En Hn Hr. unfold events_of. destruct (bump_clock r s) as [-> _]. intros H2.
  eapply Forall2_impl_in; [exact H2|]. intros c ev Hc (n & Enn & Hrep). exists n. split; [|done].
  rewrite <- Enn. unfold bump. rewrite En. cbn. symmetry. apply node_upd_ne; [lia|]. intros E. apply Hn.
  by replace r with c by lia.
Qed.

Lemma SendSpanTrace_spec T R p a r cs nr timeout :
  serving T R a p -> calm R -> T !! r = Some cs -> node (pool (store p)) (r - 1) = Some nr ->
  (forall evs v, events_of (store p) cs evs -> with_events (value_ nr) evs = Ok v ->
     Writer.fits v /\ zlen (Writer.compact v) + 20 < 2 ^ 30) ->
  wp (SendSpanTrace r timeout)
    (fun _ p' => still_serving T R a p' /\ exists evs v, events_of (store p) cs evs
       /\ with_events (value_ nr) evs = Ok v /\ sent_span a timeout v p p')
    (fun e p' => still_serving T R a p' /\ handed p' = handed p
       /\ ((e = json_logic_error /\ cs <> [] /\ ~ event_slot (value_ nr) /\ _agentPtr p' = _agentPtr p /\ os p' = os p)
           \/ exists evs v, events_of (store p) cs evs
              /\ with_events (value_ nr) evs = Ok v /\ send_threw a timeout v e p p')) p.
Proof.
  intros Hs HR Ht En Hsm. pose proof Hs as (Hinv & Ea & Hao).
  destruct (inv_trees _ _ _ _ Hinv r cs Ht) as [Hd Hf]. inversion Hf as [|? ? Hal Hfcs]; subst.
  destruct (alive_i32 _ _ (inv_alloc _ _ _ _ Hinv) Hal) as [Hi32 Hr1].
  pose proof (bump_inv _ _ _ _ _ Hinv (calm_few _ HR) Hal) as Hinv1. pose proof (calm_radd _ r HR) as HR1.
  assert (forall p', inv T None (radd r R) (store p') -> inv T None R (release (r - 1) (store p'))) as Hrel.
  { intros p' Hinv'. apply release_inv; [done| |apply (calm_few _ HR)]. eauto 3 using still_alive. }
  unfold SendSpanTrace. eapply wp_with_node; [done..| |done]. intros _. wps. apply wp_on_store.
  change (store (set_store p (bump r (store p)))) with (bump r (store p)). set (s1 := bump r (store p)) in *.
  assert (node (pool s1) (r - 1) = Some (addReference nr)) as En1.
  { unfold s1. by rewrite (bump_node _ _ _ _ En), bool_decide_eq_true_2. }
  assert (forall evs, events_of s1 cs evs -> events_of (store p) cs evs) as Hev.
  { intros evs. apply NoDup_cons in Hd as [Hn _]. by eapply events_of_bump. }
  eapply wp_mono; [exact (EncodeTraceToJsonSpan_spec _ _ _ _ _ _ _ Hinv1 HR1 Ht En1)|..].
  2: { intros e s2 (-> & Hinv2 & Hslot & Hcs). split_and!; [|done|by left].
       exists a. split; [|apply same_agent_refl]. exact (serving_store T R T R a p _ Hs (Hrel (set_store p s2) Hinv2)). }
  intros v s2 (Hinv2 & _ & evs & Hevs & Hw). change (value_ (addReference nr)) with (value_ nr) in Hw.
  apply Hev in Hevs. destruct (Hsm evs v Hevs Hw) as [Hfits Hlen].
  wps. eapply wp_lift; [by apply node_tree_write_run|].
  wps. unfold wp at 1. pose proof (TrySendSpan_spec (Writer.compact v) timeout p a Ea Hao Hlen) as W.
  rewrite set_store_twice, TrySendSpan_store. unfold wp in W.
  destruct (TrySendSpan (Writer.compact v) timeout p) as [[[]|e| |] p1] eqn:Et; try done; cbn [fst snd].
  2: { pose proof W as (_ & a' & l & cs' & q & out & (Hst & Hhd & _ & Ea' & Hao' & Hsa) & _).
       split_and!; [|done|right; exists evs, v; split_and!; [done..|by exists p1]].
       exists a'. split; [|done]. split_and!; [|done..]. cbn. by apply (Hrel (set_store p1 s2)). }
  pose proof W as (a' & l & l' & cs' & (Hst & Hhd & _ & Ea' & Hao' & Hsa) & _).
  wps. unfold this. wps. wps. cbn [_agentPtr set_store]. rewrite Ea'. wps.
  assert (forall h, still_serving T R a (set_store (set_handed p1 h) (release (r - 1) s2))) as Hss.
  { intros h. exists a'. split; [|done]. split_and!; [|done..]. cbn. by apply (Hrel (set_store p1 s2)). }
  assert (rawSpanHandler_ a' = rawSpanHandler_ a) as Hraw by apply Hsa. unfold sent_span. rewrite Hraw.
  destruct (rawSpanHandler_ a); wps; cbn [store set_store set_handed handed _agentPtr os].
  - split; [apply Hss|]. exists evs, v. split_and!; [done..|by exists p1|by rewrite Hhd].
  - split; [|exists evs, v; split_and!; [done..|by exists p1|by rewrite Hhd, app_nil_r]].
    specialize (Hss (handed p1)). by destruct p1.
Qed.

(** *** Ending a node *)

Definition root_status (s : Store) (r : Z) : option Z :=
  n ← node (pool s) (r - 1); status <$> root_node_extra_ptr_ n.

Lemma EndTrace_event_spec T p a r cs i id timeout :
  serving T no_refs a p -> T !! r = Some cs -> cs !! i = Some id ->
  wp (EndTrace id timeout)
    (fun ret p' => ret ∈ r :: take i cs /\ parent_id_ <$> node (pool (store p)) (id - 1) = Some ret
       /\ serving T no_refs a p' /\ settles (store p) (store p') r cs
       /\ root_status (store p') r = root_status (store p) r
       /\ os p' = os p /\ handed p' = handed p)
    (fun _ _ => False) p.
Proof.
  intros Hs Ht Hi. pose proof Hs as (Hinv & Ea & Hao).
  destruct (inv_trees _ _ _ _ Hinv r cs Ht) as [_ Hf]. rewrite Forall_forall in Hf.
  assert (alive (pool (store p)) id) as Hal by (apply Hf; right; by eapply list_elem_of_lookup_2).
  destruct (alive_i32 _ _ (inv_alloc _ _ _ _ Hinv) Hal) as [Hi32 _].
  unfold EndTrace. wps. eapply wp_with_node; [done..| |done]. intros _.
  pose proof (bump_inv _ _ _ _ _ Hinv no_refs_few Hal) as Hinv1.
  eapply wp_mono; [eapply (end_scope_event T (radd id no_refs)); [|done..]; by eapply serving_store| |done].
  intros ret p1 (par & -> & Hpar & Hpn & (Hinv2 & Ea2 & Hao2) & Hset & Hrt & Hos & Hhd). wps.
  split_and!; [done| | | | |done|done].
  - cbn [store set_store] in Hpn. destruct (inv_nodes _ _ _ _ Hinv id Hal) as (n & En & _).
    rewrite (bump_node _ _ _ _ En), bool_decide_eq_true_2 in Hpn by done. by rewrite En.
  - split_and!; [|done..]. apply release_inv; [done|eauto 3 using still_alive|done].
  - eapply settles_trans; [apply settles_bump|]. eapply settles_trans; [exact Hset|]. apply settles_release.
  - destruct (inv_nodes _ _ _ _ Hinv id Hal) as (n & En & _). destruct (inv_root _ _ _ _ _ _ Hinv Ht) as (nr & Er & _).
    destruct (inv_trees _ _ _ _ Hinv r cs Ht) as [Hd _]. apply NoDup_cons in Hd as [Hn _].
    assert (r <> id) by (intros ->; apply Hn; by eapply list_elem_of_lookup_2).
    assert (1 <= id /\ 1 <= r) as [? ?] by (split; [by destruct Hal; lia|]; destruct (Hf r ltac:(by left)); lia).
    unfold root_status. cbn [store set_store] in *. rewrite node_release by lia. rewrite Hrt. unfold bump. rewrite En.
    cbn [pool set_pool]. rewrite node_upd_ne by lia. done.
Qed.

(** The root holds an annotation that is in the way of the events. *)
Definition event_clue (s : Store) (r : Z) : Prop :=
  exists nr, node (pool s) (r - 1) = Some nr /\ ~ event_slot (value_ nr).

(** End times do not get in the way. *)
Lemma event_slot_ended n t : payload_ok n -> event_slot (value_ n) ->
  event_slot (objectValue (put_all (end_members n t) (payload n))).
Proof.
  intros [Hm Hs] (m & Em & _ & Hf). rewrite Hm in Em. injection Em as <-.
  exists (put_all (end_members n t) (payload n)). split_and!; [done|by apply put_all_sorted|].
  rewrite find_put_all by apply end_members_NoDup. assert (find (bs "event") (end_members n t) = None) as ->; [|done].
  unfold end_members. destruct (set_exp_ n), (root_node_extra_ptr_ n); cbn [app find]; repeat case_bool_decide; done.
Qed.

(** Why ending a trace throws: its span was due (status PASS), and either an annotation
    "event" of the root, that is neither null nor an array, is in the way of its events, or
    sending the span threw.  The span handler saw nothing. *)
Definition end_threw (a : Agent) (timeout r : Z) (cs : list Z) (e : exn) (p p' : Process) : Prop :=
  root_status (store p) r = Some E_TRACE_PASS /\ handed p' = handed p
  /\ ((e = json_logic_error /\ cs <> [] /\ event_clue (store p) r /\ _agentPtr p' = _agentPtr p /\ os p' = os p)
      \/ exists v, span_of (store p) r cs v /\ send_threw a (timeout_of a timeout) v e p p').

(** The scope of the wrapper when a trace ends. *)
Lemma end_scope_root T p a r cs timeout :
  serving T (radd r no_refs) a p -> T !! r = Some cs -> sendable (store p) r cs ->
  wp (end_scope r timeout (r - 1))
    (fun ret p' => ret = None /\ still_serving T (radd r no_refs) a p'
       /\ if bool_decide (root_status (store p) r = Some E_TRACE_PASS)
          then exists v, span_of (store p) r cs v /\ sent_span a (timeout_of a timeout) v p p'
          else _agentPtr p' = _agentPtr p /\ os p' = os p /\ handed p' = handed p)
    (fun e p' => still_serving T (radd r no_refs) a p' /\ end_threw a timeout r cs e p p') p.
Proof.
  intros Hs Ht Hsm. pose proof Hs as (Hinv & Ea & Hao).
  destruct (inv_root _ _ _ _ _ _ Hinv Ht) as (nr & En & Hrf & Hp & Hl). pose proof Hl as Hl'.
  unfold links in Hl'. injection Hl' as Hid Hrt _ _ Hx. apply get_last in Hx as (x & Ex & _).
  assert (root_status (store p) r = Some (status x)) as Hst by (unfold root_status; rewrite En; cbn; by rewrite Ex).
  destruct (inv_trees _ _ _ _ Hinv r cs Ht) as [Hd Hf]. apply Forall_cons in Hf as [Hal _]. apply NoDup_cons in Hd as [Hrn _].
  unfold end_scope. wps. apply wp_on_store. eapply wp_read_node; [exact En|]. rewrite set_store_same.
  unfold IsRootNode. rewrite Hid, Hrt, Z.eqb_refl. cbn [negb]. wps.
  eapply wp_lift; [unfold GetStatus; by rewrite Ex|]. rewrite Hst.
  destruct (Z.eqb_spec (status x) E_TRACE_PASS) as [Hps|Hps].
  2: { wps. rewrite bool_decide_eq_false_2 by congruence. split_and!; [done| |done..]. exists a. split; [done|apply same_agent_refl]. }
  rewrite bool_decide_eq_true_2 by congruence.
  wps. apply wp_on_store. eapply wp_mono; [by apply end_node_spec| |done].
  intros [] s1 (Hinv1 & Hclk & Hoth & n' & k & En' & Ee).
  destruct (EndTrace_links _ _ _ Hp Ee) as (_ & _ & _ & Hv). wps. unfold this. wps. wps. cbn [_agentPtr set_store]. rewrite Ea. wps. wps.
  assert (forall evs, events_of s1 cs evs -> events_of (store p) cs evs) as Hev.
  { intros evs. unfold events_of. rewrite Hclk. intros H2. eapply Forall2_impl_in; [exact H2|].
    intros c ev Hc (n & Enn & Hrep). exists n. split; [|done]. rewrite <- Hoth; [done|]. by intros ->. }
  eapply wp_mono; [eapply (SendSpanTrace_spec T (radd r no_refs) (set_store p s1) a r cs n'); [by eapply serving_store|apply calm1|done|done|]|..].
  - intros evs v Hevs Hw. rewrite Hv in Hw. by eapply Hsm; [|apply events_may_report, Hev|].
  - intros [] p2 (Hss & evs & v & Hevs & Hw & Hsent). wps. split_and!; [done|done|]. exists v. rewrite Hv in Hw.
    split; [exists nr, k, evs; split_and!; [done|by apply Hev|done]|].
    eapply sent_span_store; [done|done| |exact Hsent]. by eapply Hsm; [|apply events_may_report, Hev|].
  - intros e p2 (Hss & Hhd & Hcause). split; [done|]. split_and!; [congruence|done|].
    destruct Hcause as [(-> & Hcs & Hno & E1 & E2)|(evs & v & Hevs & Hw & Hth)]; [left|right].
    + split_and!; [done|done| |done|done]. exists nr. split; [done|]. intros Hsl. apply Hno. rewrite Hv. by apply event_slot_ended.
    + exists v. rewrite Hv in Hw. split; [exists nr, k, evs; split_and!; [done|by apply Hev|done]|].
      eapply send_threw_store; [done|done| |exact Hth]. by eapply Hsm; [|apply events_may_report, Hev|].
Qed.

(** The result of ending a trace. *)
Definition trace_ended (T : trees) (a : Agent) (timeout r : Z) (cs : list Z) (p p' : Process) : Prop :=
  still_serving (delete r T) no_refs a p'
  /\ (forall j, alive (pool (store p')) j <-> alive (pool (store p)) j /\ j ∉ r :: cs)
  /\ if bool_decide (root_status (store p) r = Some E_TRACE_PASS)
     then exists v, span_of (store p) r cs v /\ sent_span a (timeout_of a timeout) v p p'
     else _agentPtr p' = _agentPtr p /\ os p' = os p /\ handed p' = handed p.

Lemma bump_root s r cs T U R : inv T U R s -> T !! r = Some cs ->
  exists nr, node (pool s) (r - 1) = Some nr /\ node (pool (bump r s)) (r - 1) = Some (addReference nr)
    /\ 1 <= r /\ (r ∉ cs) /\ in_i32 r /\ alive (pool s) r.
Proof.
  intros Hinv Ht. destruct (inv_root _ _ _ _ _ _ Hinv Ht) as (nr & En & _). exists nr.
  destruct (inv_trees _ _ _ _ Hinv r cs Ht) as [Hd Hf]. apply Forall_cons in Hf as [Hal _]. apply NoDup_cons in Hd as [Hn _].
  destruct (alive_i32 _ _ (inv_alloc _ _ _ _ Hinv) Hal) as [Hi Hr].
  split_and!; try done. by rewrite (bump_node _ _ _ _ En), bool_decide_eq_true_2.
Qed.

Lemma EndTrace_root_spec T p a r cs timeout :
  serving T no_refs a p -> T !! r = Some cs -> sendable (store p) r cs ->
  wp (EndTrace r timeout) (fun ret p' => ret = E_ROOT_NODE /\ trace_ended T a timeout r cs p p')
    (fun e p' => still_serving T no_refs a p' /\ end_threw a timeout r cs e p p') p.
Proof.
  intros Hs Ht Hsm. pose proof Hs as (Hinv & Ea & Hao).
  destruct (bump_root _ _ _ _ _ _ Hinv Ht) as (nr & En & En1 & Hr1 & Hrn & Hi32 & Hal).
  pose proof (bump_inv _ _ _ _ _ Hinv no_refs_few Hal) as Hinv1.
  destruct (bump_clock r (store p)) as [Hclk _].
  assert (sendable (bump r (store p)) r cs) as Hsm1.
  { eapply settles_sendable; [apply settles_bump|done]. }
  assert (forall p', still_serving T (radd r no_refs) a p' ->
    still_serving T no_refs a (set_store p' (release (r - 1) (store p')))) as Hrel.
  { intros p' (a' & (Hinv' & ? & ?) & Hsa). exists a'. split; [|done]. split_and!; [|done..].
    cbn. apply release_inv; [done|eauto 3 using still_alive|done]. }
  unfold EndTrace. wps. eapply wp_with_node; [done..| |]. 2: done. intros _.
  assert (root_status (bump r (store p)) r = root_status (store p) r) as Hrs by (unfold root_status; by rewrite En, En1).
  assert (forall v, span_of (bump r (store p)) r cs v -> span_of (store p) r cs v
    /\ zlen (Writer.compact v) + 20 < 2 ^ 30) as Hspan.
  { intros v (n & k & evs & En' & Hev & Hw). rewrite En1 in En'. injection En' as <-. rewrite Hclk in Hw.
    assert (events_of (store p) cs evs) as Hev' by (by eapply events_of_bump).
    split; [exists nr, k, evs; by split_and!|]. exact (proj2 (Hsm nr k evs v En (events_may_report _ _ _ Hev') Hw)). }
  eapply wp_mono; [eapply end_scope_root; [by eapply serving_store|done|done]| |].
  2: { intros e p' [Hss (Hst & Hhd & Hcause)]. split; [by apply Hrel|]. cbn [store set_store] in *. rewrite Hrs in Hst.
       split_and!; [done..|]. destruct Hcause as [(-> & Hcs & (n & En' & Hno) & E1 & E2)|(v & Hv & Hth)]; [left|right].
       - split_and!; [done|done| |done|done]. exists nr. rewrite En1 in En'. injection En' as <-. done.
       - destruct (Hspan v Hv) as [Hv' Hlen]. exists v. split; [done|]. by apply (send_threw_store _ _ _ _ _ (bump r (store p))). }
  intros ret p1 (-> & Hss & Hres). wps. apply wp_on_store.
  destruct (Hrel p1 Hss) as (a' & (Hinv2 & Ea2 & Hao2) & Hsa). cbn [store set_store] in *.
  unfold wp at 1. rewrite (FreeNodeTree_spec _ _ _ _ _ _ Hinv2 Ht). wps. split; [done|].
  destruct (inv_trees _ _ _ _ Hinv2 r cs Ht) as [Hd2 Hf2].
  destruct (drop_nodes_spec (r :: cs) _ (inv_alloc _ _ _ _ Hinv2) Hd2 Hf2) as (_ & _ & Hal2).
  split_and!.
  - exists a'. split; [|done]. split_and!; [|done..]. by apply drop_inv.
  - intros j. cbn [store set_store pool set_pool]. rewrite Hal2. split; intros [Hj1 Hj2]; (split; [|done]); eauto 3 using still_alive.
  - rewrite <- Hrs. cbn [store set_store] in Hres. case_bool_decide; [|exact Hres].
    destruct Hres as (v & Hv & Hsent). destruct (Hspan v Hv) as [Hv' Hlen]. exists v. split; [done|].
    by apply (sent_span_store _ _ _ _ (bump r (store p))).
Qed.

(** An id that is not in use. *)
Lemma EndTrace_dead T p a id timeout : serving T no_refs a p -> in_i32 id -> ~ alive (pool (store p)) id ->
  EndTrace id timeout p = (Throw out_of_range, p).
Proof.
  intros (Hinv & _) Hid Hd. unfold EndTrace, with_node. unfold mbind, M_bind, on_store.
  rewrite (ReferNode_run _ _ _ _ _ Hinv Hid), bool_decide_eq_false_2 by done. by rewrite set_store_same.
Qed.

(** *** Ending everything *)

(** The parent of an event comes before it. *)
Lemma earlier_position (r : Z) cs i ret : ret ∈ r :: take i cs ->
  exists j, (j <= i)%nat /\ (r :: cs) !! j = Some ret.
Proof.
  intros [->|H]%elem_of_cons; [exists O; split; [lia|done]|].
  apply list_elem_of_lookup in H as [k Hk]. apply lookup_take_Some in Hk as [Hk Hlt]. exists (S k). split; [lia|done].
Qed.

(** Some events of the trace end, then the trace. *)
Definition events_ended (T : trees) (a : Agent) (r : Z) (cs : list Z) (p p0 : Process) : Prop :=
  serving T no_refs a p0 /\ settles (store p) (store p0) r cs
  /\ root_status (store p0) r = root_status (store p) r /\ os p0 = os p /\ handed p0 = handed p.

Definition force_ended (T : trees) (a : Agent) (timeout r : Z) (cs : list Z) (p p' : Process) : Prop :=
  exists p0, events_ended T a r cs p p0 /\ trace_ended T a timeout r cs p0 p'.

(** ... or, after some events ended, ending the trace threw. *)
Definition force_end_threw (T : trees) (a : Agent) (timeout r : Z) (cs : list Z) (e : exn) (p p' : Process) : Prop :=
  exists p0, events_ended T a r cs p p0 /\ end_threw a timeout r cs e p0 p'.

Lemma events_ended_refl T a r cs p : serving T no_refs a p -> events_ended T a r cs p p.
Proof.
  intros Hs. split_and!; [done| |done..]. apply settles_refs; [done|].
  intros j n' E. exists n', (reference_count_ n'). split; [done|]. by destruct n'.
Qed.

Lemma events_ended_trans T a r cs p p1 p2 : events_ended T a r cs p p1 -> events_ended T a r cs p1 p2 ->
  events_ended T a r cs p p2.
Proof.
  intros (_ & H1 & H2 & H3 & H4) (K0 & K1 & K2 & K3 & K4).
  split_and!; [done|by eapply settles_trans|congruence..].
Qed.

Lemma force_end_loop_spec T a r cs timeout : T !! r = Some cs ->
  forall fuel j id p, (j + 2 <= fuel)%nat -> (r :: cs) !! j = Some id ->
  serving T no_refs a p -> sendable (store p) r cs ->
  wp (force_end_loop fuel id timeout) (fun _ p' => force_ended T a timeout r cs p p')
    (fun e p' => still_serving T no_refs a p' /\ force_end_threw T a timeout r cs e p p') p.
Proof.
  intros Ht. induction fuel as [|fuel IH]; intros j id p Hf Hj Hs Hsm; [lia|]. cbn [force_end_loop].
  pose proof Hs as (Hinv & _). destruct (inv_trees _ _ _ _ Hinv r cs Ht) as [_ Hfa]. rewrite Forall_forall in Hfa.
  assert (forall j, j ∈ r :: cs -> 1 <= j) as Hpos by (intros j' Hj'; destruct (Hfa j' Hj'); lia).
  assert (1 <= id) as Hid by (apply Hpos; by eapply list_elem_of_lookup_2).
  rewrite (proj2 (Z.eqb_neq id E_ROOT_NODE)) by (unfold E_ROOT_NODE; lia). cbn [negb]. wps.
  destruct j as [|i]; cbn in Hj.
  - injection Hj as <-. pose proof (events_ended_refl T a r cs p Hs) as Hrefl.
    eapply wp_mono; [by eapply EndTrace_root_spec| |]. 2: { intros e p' [Hss Hth]. split; [done|by exists p]. }
    intros ret p' [-> Hend]. change (E_ROOT_NODE =? E_INVALID_NODE) with false. cbv iota.
    destruct fuel as [|fuel]; [lia|]. cbn [force_end_loop]. rewrite Z.eqb_refl. cbn [negb]. wps. by exists p.
  - eapply wp_mono; [by eapply EndTrace_event_spec| |done].
    intros ret p1 (Hret & _ & Hs1 & Hset & Hrs & Hos & Hhd).
    assert (events_ended T a r cs p p1) as Hee by (by split_and!). destruct (earlier_position _ _ _ _ Hret) as (j' & Hj' & Ej').
    assert (1 <= ret) by (apply Hpos; by eapply list_elem_of_lookup_2).
    rewrite (proj2 (Z.eqb_neq ret E_INVALID_NODE)) by (unfold E_INVALID_NODE; lia).
    eapply wp_mono; [apply (IH j' ret p1); [lia|done|done|by eapply settles_sendable]|..].
    + intros [] p2 (p0 & Hee0 & Hend). exists p0. split; [by eapply events_ended_trans|done].
    + intros e p2 (Hss & p0 & Hee0 & Hth). split; [done|]. exists p0. split; [by eapply events_ended_trans|done].
Qed.

(** ** The interface *)

Lemma wp_guarded {A} (failed : A) m (Q : A -> Process -> Prop) E p a : _agentPtr p = Some a ->
  wp m Q (fun _ p' => Q failed p') p -> wp (guarded failed m) Q E p.
Proof.
  intros Ea Hm. unfold guarded. wps. wps. rewrite Ea. wps. eapply wp_mono; [exact Hm|done|].
  intros e p' HQ. by wps.
Qed.

(** Methods that only look at or annotate the pool. *)
Lemma harmless_call {A} (failed : A) m T a p : harmless m -> serving T no_refs a p ->
  wp (guarded failed (on_store m)) (fun _ p' => serving T no_refs a p') (fun _ _ => False) p.
Proof.
  intros Hm Hs. pose proof Hs as (Hinv & Ea & Hao). eapply wp_guarded; [done|]. apply wp_on_store.
  eapply wp_mono; [by apply Hm|..]; intros ? s' Hinv'; by eapply serving_store.
Qed.

(** Every trace is small enough to be sent. *)
Definition all_sendable (T : trees) (p : Process) : Prop :=
  forall r cs, T !! r = Some cs -> sendable (store p) r cs.

(** The process serves some forest, with the agent it had. *)
Definition goes_on (a : Agent) (p : Process) : Prop := exists T, still_serving T no_refs a p.

(** Arguments as their C types have them. *)
Definition call_ok (c : call) : Prop :=
  match c with
  | start_trace id _ | end_trace id | force_end_trace id _ | trace_is_root id | get_depth id
  | get_sequence_id id | change_status id _
  | add_exception id _ | record_error id _ _ _ | set_async_ctx id _ _ | set_context_key id _ _ => in_i32 id
  (* [NotInternalKey] reads through the key: a null key is undefined behaviour *)
  | add_clue id key _ _ | add_clues id key _ _ => in_i32 id /\ is_Some key
  | get_context_key id _ pbuf buf_size =>
      in_i32 id /\ forall buf, pbuf = Some buf -> 0 <= buf_size <= zlen buf
  | check_limit _ | unique_id | start_time => True
  end.

Lemma goes_on_intro T a p : still_serving T no_refs a p -> goes_on a p.
Proof. by exists T. Qed.

Lemma serving_goes_on T a p : serving T no_refs a p -> goes_on a p.
Proof. intros H. exists T, a. split; [done|apply same_agent_refl]. Qed.

Lemma wp_result {A} (f : A -> Z) m Q E p : wp m (fun a p' => Q (f a) p') E p -> wp (result f m) Q E p.
Proof. intros H. unfold result. wps. eapply wp_mono; [exact H|..|done]. intros x p' HQ. by wps. Qed.

Lemma StartTrace_goes_on T a p parent opts : serving T no_refs a p -> in_i32 parent ->
  wp (StartTrace parent opts) (fun _ p' => goes_on a p') (fun _ p' => goes_on a p') p.
Proof.
  intros Hs Hid. pose proof Hs as (Hinv & Ea & Hao). pose proof (serving_goes_on _ _ _ Hs) as Hgo.
  assert (forall T' s, inv T' None no_refs s -> goes_on a (set_store p s)) as Hgo'.
  { intros T' s Hinv'. apply (serving_goes_on T'). by eapply serving_store. }
  unfold StartTrace. case_if; [by wps|]. case_if.
  - unfold this. wps. wps. wps. rewrite Ea. wps. apply wp_on_store.
    eapply wp_mono; [by apply start_root_spec|..].
    + intros id s' (_ & _ & _ & Hinv' & _). by eapply Hgo'.
    + intros e s' (_ & _ & ->). by eapply Hgo'.
  - apply wp_on_store. eapply wp_mono; [apply start_event_spec; [done|apply calm0|done]|..].
    + intros id s' (_ & _ & r & cs & _ & _ & _ & _ & Hinv' & _). by eapply Hgo'.
    + intros e s' [(_ & _ & ->)|(_ & _ & r & cs & id & _ & _ & _ & _ & Hinv' & _)]; by eapply Hgo'.
Qed.

(** An id in use is a root or an event of the forest. *)
Lemma alive_position T R s id : inv T None R s -> alive (pool s) id ->
  exists r cs j, T !! r = Some cs /\ (r :: cs) !! j = Some id.
Proof.
  intros Hinv Hal. apply (inv_alive _ _ _ _ id Hinv) in Hal as [(r & cs & Ht & Hin)|]; [|done].
  apply list_elem_of_lookup in Hin as [j Hj]. eauto.
Qed.

Lemma EndTrace_goes_on T a p id timeout : serving T no_refs a p -> in_i32 id -> all_sendable T p ->
  wp (EndTrace id timeout) (fun _ p' => goes_on a p') (fun _ p' => goes_on a p') p.
Proof.
  intros Hs Hid Hsm. pose proof Hs as (Hinv & _). destruct (decide (alive (pool (store p)) id)) as [Hal|Hd].
  - destruct (alive_position _ _ _ _ Hinv Hal) as (r & cs & [|i] & Ht & Hj); cbn in Hj.
    + injection Hj as ->. eapply wp_mono; [eapply EndTrace_root_spec; [done..|by apply Hsm]|..].
      * intros ret p' [_ [Hss _]]. by eapply goes_on_intro.
      * intros e p' [Hss _]. exact (goes_on_intro _ _ _ Hss).
    + eapply wp_mono; [by eapply EndTrace_event_spec| |done]. intros ret p' (_ & _ & Hs' & _). by eapply serving_goes_on.
  - unfold wp. rewrite (EndTrace_dead T p a id timeout Hs Hid Hd). by eapply serving_goes_on.
Qed.

Lemma force_end_goes_on T a p id timeout : serving T no_refs a p -> in_i32 id -> all_sendable T p ->
  wp (force_end_loop (S (S (length (nodes (pool (store p)))))) id timeout)
    (fun _ p' => goes_on a p') (fun _ p' => goes_on a p') p.
Proof.
  intros Hs Hid Hsm. pose proof Hs as (Hinv & _). destruct (decide (alive (pool (store p)) id)) as [Hal|Hd].
  - destruct (alive_position _ _ _ _ Hinv Hal) as (r & cs & j & Ht & Hj).
    destruct (inv_trees _ _ _ _ Hinv r cs Ht) as [Hnd Hf].
    pose proof (alive_count _ _ (inv_alloc _ _ _ _ Hinv) Hnd Hf) as Hc.
    rewrite (a_max _ (inv_alloc _ _ _ _ Hinv)) in Hc. unfold zlen in Hc. pose proof (lookup_lt_Some _ _ _ Hj).
    eapply wp_mono; [apply (force_end_loop_spec T a r cs timeout Ht _ j id p); [lia|done|done|by apply Hsm]|..].
    + intros [] p' (p0 & _ & Hss & _). by eapply goes_on_intro.
    + intros e p' [Hss _]. exact (goes_on_intro _ _ _ Hss).
  - cbn [force_end_loop]. case_if; [|wps; by eapply serving_goes_on]. wps. unfold wp at 1.
    rewrite (EndTrace_dead T p a id timeout Hs Hid Hd). by eapply serving_goes_on.
Qed.

(** Annotations refuse internal keys before they touch the pool. *)
Lemma annotation_harmless {A} key (body : list byte -> M Store A) : (forall k, harmless (body k)) ->
  harmless (k ← lift (NotInternalKey (Some key)); body k).
Proof.
  intros Hb T s Hinv. wps. destruct (NotInternalKey (Some key)) as [k|e| |] eqn:E.
  - eapply wp_lift; [done|]. by apply Hb.
  - by eapply wp_lift_throw.
  - exfalso. destruct key as [|[] ?]; done.
  - exfalso. destruct key as [|[] ?]; done.
Qed.

(** The calls that neither start nor end a node. *)
Definition quiet (c : call) : Prop :=
  match c with start_trace _ _ | end_trace _ | force_end_trace _ _ => False | _ => True end.

Lemma serving_still T a p : serving T no_refs a p -> still_serving T no_refs a p.
Proof. exists a. split; [done|apply same_agent_refl]. Qed.

Lemma harmless_quiet {A} (failed : A) m T a p : harmless m -> serving T no_refs a p ->
  wp (guarded failed (on_store m)) (fun _ p' => still_serving T no_refs a p') (fun _ _ => False) p.
Proof.
  intros Hm Hs. eapply wp_mono; [by apply (harmless_call failed m T a p)| |done].
  intros ? p' H. exact (serving_still _ _ _ H).
Qed.

(** The quota changes the agent's state only. *)
Lemma check_trace_limit_quiet T a ts p : serving T no_refs a p ->
  wp (check_trace_limit ts) (fun _ p' => still_serving T no_refs a p') (fun _ _ => False) p.
Proof.
  intros (Hinv & Ea & Hao). unfold check_trace_limit, with_agent. wps. wps. rewrite Ea. unfold wp.
  destruct (if ts =? -1 then sys_time (os p) else (ts, os p)) as [now e] eqn:Et.
  destruct (ProcState.CheckTraceLimit ts now (statePtr_ a)) as [b st].
  assert (heap e = heap (os p)) as Hh by (unfold sys_time in Et; case_match; by injection Et as <- <-).
  eexists. split; [split_and!; [done|done|]|exact (same_agent_refl a)].
  destruct Hao as [H1 H2 H3]. split; cbn; [done|done|by rewrite Hh].
Qed.

Lemma exec_quiet T a c p : serving T no_refs a p -> call_ok c -> quiet c ->
  wp (exec c) (fun _ p' => still_serving T no_refs a p') (fun _ _ => False) p.
Proof.
  intros Hs Hc Hq. pose proof Hs as (Hinv & Ea & Hao). pose proof (serving_still _ _ _ Hs) as Hss.
  assert (forall s, inv T None no_refs s -> still_serving T no_refs a (set_store p s)) as Hst.
  { intros s H. apply serving_still. by eapply serving_store. }
  destruct c as [parent opts|id|id timeout|id|id|id|id st|id key value flag|id key value flag|id e|id msg file line
    |id aid seq|id key value|id key pbuf size|ts| |]; cbn [exec call_ok] in *; try done; try apply wp_result.
  - eapply wp_guarded; [done|]. case_if; [by wps|]. wps. apply wp_on_store.
    eapply wp_mono; [by apply (read_harmless id IsRootNode Hc T)|..]; [|by auto].
    intros b s' Hinv'. wps. by apply Hst.
  - eapply wp_guarded; [done|]. case_if; [by wps|]. apply wp_on_store.
    eapply wp_mono; [by apply (read_harmless id depth_ Hc T)|..]; by auto.
  - eapply harmless_quiet; [|done]. intros T' s Hinv'. unfold GetSequenceId, wp at 1.
    rewrite <- with_ref_wrapper. by apply (read_harmless id sequence_ Hc T').
  - eapply harmless_quiet; [|done]. by apply ChangeTraceStatus_harmless.
  - destruct Hc as [Hid [k0 ->]]. eapply harmless_quiet; [|done]. apply annotation_harmless. intros k.
    apply annotate_harmless; [done|]. intros n. apply AddAnnotation_keeps.
  - destruct Hc as [Hid [k0 ->]]. eapply harmless_quiet; [|done]. apply annotation_harmless. intros k.
    apply annotate_harmless; [done|]. intros n. apply AppendAnnotation_keeps.
  - eapply harmless_quiet; [|done]. by apply AnnotateExceptionTrace_harmless.
  - eapply harmless_quiet; [|done]. apply annotate_built_harmless; [done|by eexists].
  - eapply harmless_quiet; [|done]. apply annotate_built_harmless; [done|by eexists].
  - eapply harmless_quiet; [|done]. apply annotate_harmless; [done|]. intros n Hp. by split_and!.
  - eapply harmless_quiet; [|done]. destruct Hc as [Hid Hb]. by apply GetTraceContext_harmless.
  - by apply check_trace_limit_quiet.
  - unfold generate_unique_id, with_agent. wps. wps. rewrite Ea. cbn. wps. unfold set_this. wps. wps.
    eexists. split; [split_and!; [done|done|]|exact (same_agent_refl a)]. by destruct Hao as [H1 H2 H3].
  - unfold pinpoint_start_time. wps. wps. rewrite Ea. case_if; [by wps|]. apply wp_on_store. apply wp_get_time.
    apply Hst. by apply (inv_pool _ _ _ (store p)).
Qed.

Lemma exec_goes_on T a c p : serving T no_refs a p -> call_ok c -> all_sendable T p ->
  wp (exec c) (fun _ p' => goes_on a p') (fun _ _ => False) p.
Proof.
  intros Hs Hc Hsm. pose proof Hs as (Hinv & Ea & Hao). destruct c.
  4-17: (eapply wp_mono; [by apply (exec_quiet T a _ p Hs Hc)| |done]; intros ? ? H; exact (goes_on_intro _ _ _ H)).
  - eapply wp_guarded; [done|]. by eapply StartTrace_goes_on.
  - eapply wp_guarded; [done|]. by eapply EndTrace_goes_on.
  - eapply wp_guarded; [done|]. wps. wps. wps. cbn [call_ok] in Hc.
    eapply wp_mono; [by eapply (force_end_goes_on T a p id timeout)|..].
    + intros [] p' H. wps. exact H.
    + intros e p' H. exact H.
Qed.

Lemma StartTrace_root_spec T a p opts :
  serving T no_refs a p ->
  wp (StartTrace E_ROOT_NODE opts)
    (fun id p' => ~ full (pool (store p)) /\ ~ alive (pool (store p)) id /\ serving (<[id := []]> T) no_refs a p'
       /\ keeps_data (pool (store p)) (pool (store p'))
       /\ exists n, node (pool (store p')) (id - 1) = Some n /\ depth_ n = 0
          /\ started n (ms_clock (store p) (ms_tick (store p))) [(bs ":FT", intValue (agent_type_ a))])
    (fun e p' => full (pool (store p)) /\ e = out_of_range /\ p' = p) p.
Proof.
  intros Hs. pose proof Hs as (Hinv & Ea & Hao). unfold StartTrace. change (E_ROOT_NODE <=? E_INVALID_NODE) with false.
  rewrite Z.eqb_refl. cbv iota. unfold this. wps. wps. wps. rewrite Ea. wps. apply wp_on_store.
  eapply wp_mono; [by apply start_root_spec|..].
  - intros id s' (Hfl & Hn & _ & Hinv' & Hd & n & En & Hst & Hde). split_and!; [done|done|by eapply serving_store|done|by exists n].
  - intros e s' (? & -> & ->). by rewrite set_store_same.
Qed.

Lemma StartTrace_event_spec T a p parent opts :
  serving T no_refs a p -> in_i32 parent -> parent <> E_ROOT_NODE ->
  wp (StartTrace parent opts)
    (fun id p' => ~ full (pool (store p)) /\ read_options opts = Ok tt
       /\ exists r cs, T !! r = Some cs /\ parent ∈ r :: cs
          /\ event_started T no_refs (store p) parent r cs id (store p') /\ serving (<[r := cs ++ [id]]> T) no_refs a p')
    (fun e p' => ((~ alive (pool (store p)) parent \/ full (pool (store p))) /\ e = out_of_range /\ p' = p)
       \/ ~ full (pool (store p)) /\ read_options opts = Throw e
          /\ exists r cs id, T !! r = Some cs /\ parent ∈ r :: cs
             /\ event_started T no_refs (store p) parent r cs id (store p') /\ serving (<[r := cs ++ [id]]> T) no_refs a p') p.
Proof.
  intros Hs Hid Hne. pose proof Hs as (Hinv & Ea & Hao). unfold StartTrace. case_if.
  { wps. left. split_and!; [left|done|done]. intros [? _]. unfold E_INVALID_NODE in *. lia. }
  rewrite (proj2 (Z.eqb_neq parent E_ROOT_NODE)) by done. apply wp_on_store.
  eapply wp_mono; [apply start_event_spec; [done|apply calm0|done]|..].
  - intros id s' (Hfl & Hro & r & cs & Ht & Hin & Hev). split_and!; [done..|]. exists r, cs.
    split_and!; [done..|]. eapply serving_store; [done|]. apply Hev.
  - intros e s' [(Hw & -> & ->)|(Hfl & Hro & r & cs & id & Ht & Hin & Hev)]; [left; by rewrite set_store_same|].
    right. split_and!; [done..|]. exists r, cs, id. split_and!; [done..|]. eapply serving_store; [done|]. apply Hev.
Qed.

(** [pinpoint_force_end_trace] with the cause of its failure. *)
Lemma force_end_trace_outcome T a p r cs id timeout :
  serving T no_refs a p -> T !! r = Some cs -> id ∈ r :: cs -> sendable (store p) r cs ->
  wp (pinpoint_force_end_trace id timeout)
    (fun ret p' => ret = E_ROOT_NODE /\ force_ended T a timeout r cs p p'
       \/ ret = E_INVALID_NODE /\ still_serving T no_refs a p' /\ exists e, force_end_threw T a timeout r cs e p p')
    (fun _ _ => False) p.
Proof.
  intros Hs Ht Hin Hsm. pose proof Hs as (Hinv & Ea & _). apply list_elem_of_lookup in Hin as [j Hj].
  destruct (inv_trees _ _ _ _ Hinv r cs Ht) as [Hnd Hf].
  pose proof (alive_count _ _ (inv_alloc _ _ _ _ Hinv) Hnd Hf) as Hc.
  rewrite (a_max _ (inv_alloc _ _ _ _ Hinv)) in Hc. unfold zlen in Hc. pose proof (lookup_lt_Some _ _ _ Hj).
  eapply wp_guarded; [done|]. wps. wps. wps.
  eapply wp_mono; [apply (force_end_loop_spec T a r cs timeout Ht _ j id p); [lia|done..]|..].
  - intros [] p' Hend. wps. by left.
  - intros e p' [Hss Hth]. right. split_and!; [done..|by exists e].
Qed.

Lemma force_ended_alive T a timeout r cs p p' : inv T None no_refs (store p) -> force_ended T a timeout r cs p p' ->
  still_serving (delete r T) no_refs a p'
  /\ forall j, alive (pool (store p')) j <-> alive (pool (store p)) j /\ j ∉ r :: cs.
Proof.
  intros Hinv (p0 & ((Hinv0 & _) & _) & Hss & Hal & _). split; [done|].
  intros k. rewrite Hal. split; intros [Hk1 Hk2]; (split; [|done]); eauto 3 using still_alive.
Qed.

Lemma force_end_trace_spec T a p r cs id timeout :
  serving T no_refs a p -> T !! r = Some cs -> id ∈ r :: cs -> sendable (store p) r cs ->
  wp (pinpoint_force_end_trace id timeout)
    (fun ret p' => ret = E_ROOT_NODE /\ still_serving (delete r T) no_refs a p'
          /\ (forall j, alive (pool (store p')) j <-> alive (pool (store p)) j /\ j ∉ r :: cs)
       \/ ret = E_INVALID_NODE /\ still_serving T no_refs a p')
    (fun _ _ => False) p.
Proof.
  intros Hs Ht Hin Hsm. eapply wp_mono; [by eapply force_end_trace_outcome| |done].
  intros ret p' [[-> Hend]|(-> & Hss & _)]; [left|by right].
  destruct (force_ended_alive _ _ _ _ _ _ _ (proj1 Hs) Hend). done.
Qed.

(** An id that is not in use is no root. *)
Lemma trace_is_root_dead T a p id : serving T no_refs a p -> in_i32 id -> ~ alive (pool (store p)) id ->
  pinpoint_trace_is_root id p = (Ok (-1), p).
Proof.
  intros (Hinv & Ea & _) Hid Hd. unfold pinpoint_trace_is_root, guarded. rewrite bind_get, Ea. unfold try.
  case_if; [done|]. unfold mbind, M_bind, on_store, IsRootTrace.
  rewrite (with_ref_run _ _ _ _ _ _ Hinv Hid), bool_decide_eq_false_2 by done. by rewrite set_store_same.
Qed.

(** The results of starting and ending are ids. *)
Lemma start_trace_result T a p id : serving T no_refs a p -> in_i32 id ->
  wp (pinpoint_start_trace id) (fun r p' => in_i32 r /\ goes_on a p') (fun _ _ => False) p.
Proof.
  intros Hs Hid. pose proof Hs as (Hinv & Ea & _). pose proof (serving_goes_on _ _ _ Hs) as Hgo.
  eapply wp_guarded; [done|]. destruct (decide (id = E_ROOT_NODE)) as [->|Hne].
  - eapply wp_mono; [by apply StartTrace_root_spec|..].
    + intros r p' (_ & _ & Hs' & _). split; [|by eapply serving_goes_on].
      destruct (inv_trees _ _ _ _ (proj1 Hs') r [] (lookup_insert_eq _ _ _)) as [_ Hf]. apply Forall_cons in Hf as [Hal _].
      exact (proj1 (alive_i32 _ _ (inv_alloc _ _ _ _ (proj1 Hs')) Hal)).
    + by intros e p' (_ & -> & ->).
  - eapply wp_mono; [by apply StartTrace_event_spec|..].
    + intros r p' (_ & _ & r' & cs & _ & _ & (_ & Hi & _) & Hs'). split; [done|by eapply serving_goes_on].
    + intros e p' [(_ & -> & ->)|(_ & _ & r & cs & j & _ & _ & _ & Hs')]; (split; [done|]); [done|by eapply serving_goes_on].
Qed.

Lemma end_trace_result T a p id : serving T no_refs a p -> in_i32 id -> all_sendable T p ->
  wp (pinpoint_end_trace id) (fun r p' => in_i32 r /\ goes_on a p') (fun _ _ => False) p.
Proof.
  intros Hs Hid Hsm. pose proof Hs as (Hinv & Ea & _). eapply wp_guarded; [done|].
  destruct (decide (alive (pool (store p)) id)) as [Hal|Hd].
  - destruct (alive_position _ _ _ _ Hinv Hal) as (r & cs & [|i] & Ht & Hj); cbn in Hj.
    + injection Hj as <-. eapply wp_mono; [apply (EndTrace_root_spec T p a r cs 0); [done|done|by apply Hsm]|..].
      * intros ret p' (-> & Hss & _). split; [done|]. exact (goes_on_intro _ _ _ Hss).
      * intros e p' [Hss _]. split; [done|]. exact (goes_on_intro _ _ _ Hss).
    + eapply wp_mono; [by eapply EndTrace_event_spec| |done]. intros ret p' (Hret & _ & Hs' & _).
      split; [|by eapply serving_goes_on]. destruct (inv_trees _ _ _ _ Hinv r cs Ht) as [_ Hf].
      rewrite Forall_forall in Hf. apply (alive_i32 _ _ (inv_alloc _ _ _ _ Hinv)), Hf.
      apply elem_of_cons in Hret as [->|Hret]; [by left|right]. apply elem_of_take in Hret as (k & Hk & _).
      by eapply list_elem_of_lookup_2.
  - unfold wp. rewrite (EndTrace_dead T p a id 0 Hs Hid Hd). split; [done|by eapply serving_goes_on].
Qed.

(** ** Theorems *)

(** C2: one call of the C interface is safe.  Whatever function is called with whatever
    arguments of its C types, on a process whose pool represents a forest, the call
    returns: no exception escapes, nothing undefined happens, no loop runs on, every
    wrapper it took is gone, and pool and connections satisfy their invariants again.
    (Spans of a gigabyte are excluded.) *)
Theorem call_safe T a c p :
  serving T no_refs a p -> call_ok c -> all_sendable T p ->
  wp (exec c) (fun _ p' => exists T', still_serving T' no_refs a p') (fun _ _ => False) p.
Proof. apply exec_goes_on. Qed.

(** The conditions on a sequence of calls. *)
Fixpoint run_ok (cs : list call) (p : Process) : Prop :=
  match cs with
  | [] => True
  | c :: cs' =>
      call_ok c /\ (forall T, inv T None no_refs (store p) -> all_sendable T p) /\ run_ok cs' (exec c p).2
  end.

(** C1: no sequence of calls breaks the agent.  Any sequence, in any order and with stale or
    invented ids, runs to its end with one result per call, and afterwards the pool still
    represents a forest of traces and the agent still works. *)
Theorem run_safe cs T a p :
  serving T no_refs a p -> run_ok cs p ->
  wp (run cs) (fun rs p' => length rs = length cs /\ exists T', still_serving T' no_refs a p')
    (fun _ _ => False) p.
Proof.
  revert T a p. induction cs as [|c cs IH]; intros T a p Hs Hr; cbn [run].
  { wps. split; [done|]. by eapply serving_goes_on. }
  destruct Hr as (Hc & Hsm & Hr). pose proof (exec_goes_on T a c p Hs Hc (Hsm T (proj1 Hs))) as W.
  wps. unfold wp in W |- *. destruct (exec c p) as [[ret|e| |] p1]; try done.
  destruct W as (T1 & a1 & Hs1 & Hsa). specialize (IH T1 a1 p1 Hs1 Hr).
  change (wp (rs ← run cs; mret (ret :: rs)) (fun rs p' => length rs = S (length cs) /\ exists T', still_serving T' no_refs a p')
    (fun _ _ => False) p1).
  wps. eapply wp_mono; [exact IH| |done]. intros rs p2 [Hl (T2 & a2 & Hs2 & Hsa2)]. wps. cbn. split; [lia|].
  exists T2, a2. split; [done|]. by eapply same_agent_trans.
Qed.

(** C5: starting a trace makes a root.  [StartTrace] under id 0 returns an id that was not
    in use; the forest gains a trace without events whose root has depth 0, starts now and
    carries the agent's type; all other nodes keep their data.  Exactly when the pool is full
    (no node is free and it has grown past its limit) the call throws [out_of_range] instead
    and changes nothing. *)
Theorem StartTrace_new_root T a p opts :
  serving T no_refs a p ->
  wp (StartTrace E_ROOT_NODE opts)
    (fun id p' => ~ full (pool (store p)) /\ ~ alive (pool (store p)) id /\ serving (<[id := []]> T) no_refs a p'
       /\ keeps_data (pool (store p)) (pool (store p'))
       /\ exists n, node (pool (store p')) (id - 1) = Some n /\ depth_ n = 0
          /\ started n (ms_clock (store p) (ms_tick (store p))) [(bs ":FT", intValue (agent_type_ a))])
    (fun e p' => full (pool (store p)) /\ e = out_of_range /\ p' = p) p.
Proof. apply StartTrace_root_spec. Qed.

(** C4: starting a span event appends it to its parent's trace.  Under a parent in use,
    [StartTrace] returns an id that was not in use and the parent's trace gains it as its
    last event: its parent is the given one, its depth one more than the parent's, its
    sequence number the count of events before it, its start time the clock's; all other
    nodes keep their data.  It throws [out_of_range] and changes nothing only for a parent
    that is not in use (or negative) or on a full pool; with a malformed option it throws the
    error of reading that option after the same event has joined the trace. *)
Theorem StartTrace_appends_event T a p parent opts :
  serving T no_refs a p -> in_i32 parent -> parent <> E_ROOT_NODE ->
  wp (StartTrace parent opts)
    (fun id p' => ~ full (pool (store p)) /\ read_options opts = Ok tt
       /\ exists r cs, T !! r = Some cs /\ parent ∈ r :: cs
          /\ event_started T no_refs (store p) parent r cs id (store p') /\ serving (<[r := cs ++ [id]]> T) no_refs a p')
    (fun e p' => ((~ alive (pool (store p)) parent \/ full (pool (store p))) /\ e = out_of_range /\ p' = p)
       \/ ~ full (pool (store p)) /\ read_options opts = Throw e
          /\ exists r cs id, T !! r = Some cs /\ parent ∈ r :: cs
             /\ event_started T no_refs (store p) parent r cs id (store p') /\ serving (<[r := cs ++ [id]]> T) no_refs a p') p.
Proof. apply StartTrace_event_spec. Qed.

(** C6: ending an event returns its parent.  For the event at position [i] of a trace the
    result is the parent it was started under, which is the root or an event before it; the
    forest, the connections and the span handler's list are as before. *)
Theorem EndTrace_event T a p r cs i id timeout :
  serving T no_refs a p -> T !! r = Some cs -> cs !! i = Some id ->
  wp (EndTrace id timeout)
    (fun ret p' => parent_id_ <$> node (pool (store p)) (id - 1) = Some ret /\ ret ∈ r :: take i cs
       /\ serving T no_refs a p' /\ os p' = os p /\ handed p' = handed p)
    (fun _ _ => False) p.
Proof.
  intros Hs Ht Hi. eapply wp_mono; [by eapply EndTrace_event_spec| |done].
  by intros ret p' (? & ? & ? & _ & _ & ? & ?).
Qed.

(** C3: ending a root sends its span and frees its trace.  [EndTrace] returns 0; the ids of
    the trace, and only they, are free again; if the trace's status is PASS the compact JSON
    of the root's payload with its end times and all its events in order was sent (the
    connections and the system are as one run of [TrySendSpan] on that text leaves them, with
    the agent's timeout when none is given) and handed to the span handler, and with any other
    status nothing was sent.  It throws only when the status is PASS and either the root holds
    an annotation "event" that is neither null nor an array while the trace has events, or the
    sending throws; the trace then stays in the pool, the span handler saw nothing and the
    invariants hold. *)
Theorem EndTrace_root T a p r cs timeout :
  serving T no_refs a p -> T !! r = Some cs -> sendable (store p) r cs ->
  wp (EndTrace r timeout)
    (fun ret p' => ret = E_ROOT_NODE /\ still_serving (delete r T) no_refs a p'
       /\ (forall j, alive (pool (store p')) j <-> alive (pool (store p)) j /\ j ∉ r :: cs)
       /\ if bool_decide (root_status (store p) r = Some E_TRACE_PASS)
          then exists v, span_of (store p) r cs v /\ sent_span a (timeout_of a timeout) v p p'
          else _agentPtr p' = _agentPtr p /\ os p' = os p /\ handed p' = handed p)
    (fun e p' => still_serving T no_refs a p' /\ end_threw a timeout r cs e p p') p.
Proof. apply EndTrace_root_spec. Qed.

(** C7: forcing the end of a trace always ends it.  From any node of a trace the loop of
    [pinpoint_force_end_trace] walks up to the root in at most as many rounds as the pool
    has nodes; it returns 0 with the whole trace freed, or -1 if an exception stopped it. *)
Theorem force_end_trace_ends T a p r cs id timeout :
  serving T no_refs a p -> T !! r = Some cs -> id ∈ r :: cs -> sendable (store p) r cs ->
  wp (pinpoint_force_end_trace id timeout)
    (fun ret p' => ret = E_ROOT_NODE /\ still_serving (delete r T) no_refs a p'
          /\ (forall j, alive (pool (store p')) j <-> alive (pool (store p)) j /\ j ∉ r :: cs)
       \/ ret = E_INVALID_NODE /\ still_serving T no_refs a p')
    (fun _ _ => False) p.
Proof. apply force_end_trace_spec. Qed.

(** C8: a stale id is refused everywhere.  An id that is not in use, whether it was freed or
    never handed out, makes every function of the C interface that takes a trace id return its
    error value (or nothing, for the functions without a result) and leaves the whole process
    unchanged: start, end, forced end, the three queries, the status, both kinds of clue with
    a key that is not null, exceptions, errors, the asynchronous context and the two context
    functions ([debug_nodeid] only logs). *)
Theorem stale_id_refused T a p id :
  serving T no_refs a p -> in_i32 id -> id <> E_ROOT_NODE -> ~ alive (pool (store p)) id ->
  (forall opts, pinpoint_start_traceV1 id opts p = (Ok E_INVALID_NODE, p))
  /\ pinpoint_end_trace id p = (Ok E_INVALID_NODE, p)
  /\ (forall timeout, pinpoint_force_end_trace id timeout p = (Ok E_INVALID_NODE, p))
  /\ pinpoint_trace_is_root id p = (Ok (-1), p) /\ pinpoint_get_depth id p = (Ok (-1), p)
  /\ pinpoint_get_sequence_id id p = (Ok (-1), p)
  /\ (forall st, change_trace_status id st p = (Ok 0, p))
  /\ (forall st, mark_current_trace_status id st p = (Ok 0, p))
  /\ (forall key value flag, pinpoint_add_clue id (Some key) value flag p = (Ok tt, p))
  /\ (forall key value flag, pinpoint_add_clues id (Some key) value flag p = (Ok tt, p))
  /\ (forall exp, pinpoint_add_exception id exp p = (Ok tt, p))
  /\ (forall msg file line, catch_error id msg file line p = (Ok tt, p))
  /\ (forall async_id seq, pinpoint_set_async_ctx id async_id seq p = (Ok tt, p))
  /\ (forall key value, pinpoint_set_context_key id key value p = (Ok tt, p))
  /\ (forall key pbuf n, pinpoint_get_context_key id key pbuf n p = (Ok (0, pbuf), p)).
Proof.
  intros Hs Hid Hne Hd. pose proof Hs as (Hinv & Ea & _).
  assert (forall A (failed : A) m e, m p = (Throw e, p) -> guarded failed m p = (Ok failed, p)) as Hg.
  { intros A failed m e E. unfold guarded. rewrite bind_get, Ea. unfold try. by rewrite E. }
  assert (forall A (m : M Store A) e, m (store p) = (Throw e, store p) -> on_store m p = (Throw e, p)) as Hon.
  { intros A m e E. unfold on_store. rewrite E. by rewrite set_store_same. }
  assert (forall A (body : Z -> M Store A), with_ref id body (store p) = (Throw out_of_range, store p)) as Hwr.
  { intros A body. by rewrite (with_ref_run _ _ _ _ _ _ Hinv Hid), bool_decide_eq_false_2. }
  assert (forall A flag (body : Z -> M Store A), with_wrapper id flag body (store p) = (Throw out_of_range, store p)) as Hww.
  { intros A flag body. by rewrite (with_wrapper_run _ _ _ _ _ _ Hinv calm0 Hid), bool_decide_eq_false_2. }
  assert (forall key (body : list byte -> M Store unit), (forall k, body k (store p) = (Throw out_of_range, store p)) ->
    guarded tt (on_store (k ← lift (NotInternalKey (Some key)); body k)) p = (Ok tt, p)) as Hclue.
  { intros key body Hb. destruct (NotInternalKey (Some key)) as [k|e| |] eqn:E;
      [..|destruct key as [|[] ?]; done|destruct key as [|[] ?]; done].
    - eapply Hg. apply Hon. rewrite bind_lift. apply Hb.
    - eapply Hg. by apply Hon. }
  pose proof (fun t => EndTrace_dead T p a id t Hs Hid Hd) as Hend.
  apply Z.eqb_neq in Hne. unfold pinpoint_trace_is_root, pinpoint_get_depth. rewrite Hne.
  split_and!.
  - intros opts. eapply Hg. unfold StartTrace. case_if; [done|].
    rewrite (proj2 (Z.eqb_neq id E_ROOT_NODE)) by done. apply Hon, Hwr.
  - eapply Hg, Hend.
  - intros t. eapply Hg. rewrite bind_get. cbn [force_end_loop]. rewrite Hne. cbn [negb].
    unfold mbind, M_bind. by rewrite Hend.
  - eapply Hg. unfold mbind, M_bind. by rewrite (Hon _ (IsRootTrace id) _ (Hwr _ _)).
  - eapply Hg. apply Hon, Hwr.
  - eapply Hg. apply Hon, Hww.
  - intros st. eapply Hg. apply Hon, Hwr.
  - intros st. eapply Hg. apply Hon, Hwr.
  - intros key value flag. apply Hclue. intros k. apply Hww.
  - intros key value flag. apply Hclue. intros k. apply Hww.
  - intros exp. eapply Hg. apply Hon, Hww.
  - intros msg file line. eapply Hg. apply Hon, Hww.
  - intros async_id seq. eapply Hg. apply Hon, Hww.
  - intros key value. eapply Hg. apply Hon, Hww.
  - intros key pbuf n. eapply Hg. apply Hon, Hww.
Qed.

(** ** A process with one trace: root 128, event 127 *)

Definition proc0 : Process := demo_process.
Definition proc1 : Process := (on_store (start_root 1500) proc0).2.
Definition proc2 : Process := (on_store (start_event 128 []) proc1).2.

Lemma proc0_serving : serving ∅ no_refs demo_agent proc0.
Proof. split_and!; [apply new_inv|done|apply demo_agent_ok]. Qed.

Lemma proc1_serving : serving {[128 := []]} no_refs demo_agent proc1.
Proof.
  assert (wp (on_store (start_root 1500)) (fun id p' => inv (<[id := []]> ∅) None no_refs (store p')
    /\ p' = set_store proc0 (store p')) (fun _ _ => True) proc0) as W.
  { apply wp_on_store. eapply wp_mono; [by apply start_root_spec, (proj1 proc0_serving)|..|done].
    intros id s' (_ & _ & _ & H & _). done. }
  apply (wp_state _ _ _ _ 128) in W as [Hinv E]; [|vm_compute; reflexivity].
  unfold proc1. rewrite E. apply (serving_store ∅ no_refs _ _ _ _ _ proc0_serving). exact Hinv.
Qed.

Lemma proc2_serving : serving {[128 := [127]]} no_refs demo_agent proc2.
Proof.
  assert (wp (on_store (start_event 128 [])) (fun id p' => exists r cs, ({[128 := []]} : trees) !! r = Some cs
    /\ inv (<[r := cs ++ [id]]> {[128 := []]}) None no_refs (store p') /\ p' = set_store proc1 (store p'))
    (fun _ _ => True) proc1) as W.
  { apply wp_on_store. eapply wp_mono; [apply start_event_spec; [apply proc1_serving|apply calm0|word]|..|done].
    intros id s' (_ & _ & r & cs & Ht & _ & _ & _ & H & _). by exists r, cs. }
  assert ((on_store (start_event 128 []) proc1).1 = Ok 127) as E1 by (vm_compute; reflexivity).
  pose proof (wp_state _ _ _ _ _ W E1) as (r & cs & Ht & Hinv & E).
  apply lookup_singleton_Some in Ht as [Hr Hc]. subst r cs. rewrite insert_singleton_eq in Hinv. unfold proc2. rewrite E.
  apply (serving_store {[128 := []]} no_refs _ _ _ _ _ proc1_serving). exact Hinv.
Qed.

Lemma proc2_sendable : sendable (store proc2) 128 [127].
Proof.
  intros nr k evs v En Hev Hw. apply Forall2_cons_inv_l in Hev as (ev & evs' & (n & Enn & Hn) & Hev & ->).
  apply Forall2_nil_inv_l in Hev as ->. vm_compute in En, Enn. injection En as <-. injection Enn as <-.
  destruct Hn as [->|[k' ->]]; vm_compute in Hw; injection Hw as <-; vm_compute; intuition congruence.
Qed.

Lemma proc2_all_sendable : all_sendable {[128 := [127]]} proc2.
Proof. intros r cs [<- <-]%lookup_singleton_Some. apply proc2_sendable. Qed.

Lemma call_safe_witness :
  wp (exec (end_trace 128)) (fun _ p' => exists T', still_serving T' no_refs demo_agent p')
    (fun _ _ => False) proc2.
Proof.
  apply (call_safe {[128 := [127]]} demo_agent (end_trace 128) proc2).
  - apply proc2_serving.
  - cbn. word.
  - apply proc2_all_sendable.
Defined.

Lemma empty_sendable p T : inv ∅ None no_refs (store p) -> inv T None no_refs (store p) -> all_sendable T p.
Proof. intros H0 H. rewrite (inv_unique _ _ _ _ _ H H0). intros r cs E. by rewrite lookup_empty in E. Qed.

(** A call with an id that was never handed out, then one with a negative id. *)
Lemma run_safe_witness :
  wp (run [get_depth 77; end_trace (-5)])
    (fun rs p' => length rs = 2%nat /\ exists T', still_serving T' no_refs demo_agent p')
    (fun _ _ => False) proc0.
Proof.
  apply (run_safe [get_depth 77; end_trace (-5)] ∅ demo_agent proc0).
  - apply proc0_serving.
  - assert ((exec (get_depth 77) proc0).2 = proc0) as E by reflexivity.
    cbn [run_ok]. rewrite E. split_and!; [cbn; word| |cbn; word| |done];
      intros T HT; exact (empty_sendable proc0 T (proj1 proc0_serving) HT).
Defined.

Lemma StartTrace_new_root_witness :
  wp (StartTrace E_ROOT_NODE [])
    (fun id p' => ~ full (pool (store proc2)) /\ ~ alive (pool (store proc2)) id
       /\ serving (<[id := []]> {[128 := [127]]}) no_refs demo_agent p'
       /\ keeps_data (pool (store proc2)) (pool (store p'))
       /\ exists n, node (pool (store p')) (id - 1) = Some n /\ depth_ n = 0
          /\ started n (ms_clock (store proc2) (ms_tick (store proc2))) [(bs ":FT", intValue (agent_type_ demo_agent))])
    (fun e p' => full (pool (store proc2)) /\ e = out_of_range /\ p' = proc2) proc2.
Proof. apply (StartTrace_new_root {[128 := [127]]} demo_agent proc2 []). apply proc2_serving. Defined.

Lemma StartTrace_appends_event_witness :
  wp (StartTrace 127 [bs "TraceMinTimeMs:23"])
    (fun id p' => ~ full (pool (store proc2)) /\ read_options [bs "TraceMinTimeMs:23"] = Ok tt
       /\ exists r cs, ({[128 := [127]]} : trees) !! r = Some cs /\ 127 ∈ r :: cs
          /\ event_started {[128 := [127]]} no_refs (store proc2) 127 r cs id (store p')
          /\ serving (<[r := cs ++ [id]]> {[128 := [127]]}) no_refs demo_agent p')
    (fun e p' => ((~ alive (pool (store proc2)) 127 \/ full (pool (store proc2))) /\ e = out_of_range /\ p' = proc2)
       \/ ~ full (pool (store proc2)) /\ read_options [bs "TraceMinTimeMs:23"] = Throw e
          /\ exists r cs id, ({[128 := [127]]} : trees) !! r = Some cs /\ 127 ∈ r :: cs
             /\ event_started {[128 := [127]]} no_refs (store proc2) 127 r cs id (store p')
             /\ serving (<[r := cs ++ [id]]> {[128 := [127]]}) no_refs demo_agent p') proc2.
Proof.
  apply (StartTrace_appends_event {[128 := [127]]} demo_agent proc2 127 [bs "TraceMinTimeMs:23"]).
  - apply proc2_serving.
  - word.
  - discriminate.
Defined.

Lemma EndTrace_event_witness :
  wp (EndTrace 127 0)
    (fun ret p' => parent_id_ <$> node (pool (store proc2)) 126 = Some ret /\ ret ∈ 128 :: take 0 [127]
       /\ serving {[128 := [127]]} no_refs demo_agent p' /\ os p' = os proc2 /\ handed p' = handed proc2)
    (fun _ _ => False) proc2.
Proof.
  apply (EndTrace_event {[128 := [127]]} demo_agent proc2 128 [127] 0 127 0).
  - apply proc2_serving.
  - vm_compute. reflexivity.
  - reflexivity.
Defined.

Lemma EndTrace_root_witness :
  wp (EndTrace 128 0)
    (fun ret p' => ret = E_ROOT_NODE /\ still_serving (delete 128 {[128 := [127]]}) no_refs demo_agent p'
       /\ (forall j, alive (pool (store p')) j <-> alive (pool (store proc2)) j /\ j ∉ [128; 127])
       /\ if bool_decide (root_status (store proc2) 128 = Some E_TRACE_PASS)
          then exists v, span_of (store proc2) 128 [127] v /\ sent_span demo_agent (timeout_of demo_agent 0) v proc2 p'
          else _agentPtr p' = _agentPtr proc2 /\ os p' = os proc2 /\ handed p' = handed proc2)
    (fun e p' => still_serving {[128 := [127]]} no_refs demo_agent p'
       /\ end_threw demo_agent 0 128 [127] e proc2 p') proc2.
Proof.
  apply (EndTrace_root {[128 := [127]]} demo_agent proc2 128 [127] 0).
  - apply proc2_serving.
  - vm_compute. reflexivity.
  - apply proc2_sendable.
Defined.

Lemma force_end_trace_ends_witness :
  wp (pinpoint_force_end_trace 127 0)
    (fun ret p' => ret = E_ROOT_NODE /\ still_serving (delete 128 {[128 := [127]]}) no_refs demo_agent p'
          /\ (forall j, alive (pool (store p')) j <-> alive (pool (store proc2)) j /\ j ∉ [128; 127])
       \/ ret = E_INVALID_NODE /\ still_serving {[128 := [127]]} no_refs demo_agent p')
    (fun _ _ => False) proc2.
Proof.
  apply (force_end_trace_ends {[128 := [127]]} demo_agent proc2 128 [127] 127 0).
  - apply proc2_serving.
  - vm_compute. reflexivity.
  - right. by left.
  - apply proc2_sendable.
Defined.

Lemma stale_id_refused_witness :
  (forall opts, pinpoint_start_traceV1 5 opts proc2 = (Ok E_INVALID_NODE, proc2))
  /\ pinpoint_end_trace 5 proc2 = (Ok E_INVALID_NODE, proc2)
  /\ (forall timeout, pinpoint_force_end_trace 5 timeout proc2 = (Ok E_INVALID_NODE, proc2))
  /\ pinpoint_trace_is_root 5 proc2 = (Ok (-1), proc2) /\ pinpoint_get_depth 5 proc2 = (Ok (-1), proc2)
  /\ pinpoint_get_sequence_id 5 proc2 = (Ok (-1), proc2)
  /\ (forall st, change_trace_status 5 st proc2 = (Ok 0, proc2))
  /\ (forall st, mark_current_trace_status 5 st proc2 = (Ok 0, proc2))
  /\ (forall key value flag, pinpoint_add_clue 5 (Some key) value flag proc2 = (Ok tt, proc2))
  /\ (forall key value flag, pinpoint_add_clues 5 (Some key) value flag proc2 = (Ok tt, proc2))
  /\ (forall exp, pinpoint_add_exception 5 exp proc2 = (Ok tt, proc2))
  /\ (forall msg file line, catch_error 5 msg file line proc2 = (Ok tt, proc2))
  /\ (forall async_id seq, pinpoint_set_async_ctx 5 async_id seq proc2 = (Ok tt, proc2))
  /\ (forall key value, pinpoint_set_context_key 5 key value proc2 = (Ok tt, proc2))
  /\ (forall key pbuf n, pinpoint_get_context_key 5 key pbuf n proc2 = (Ok (0, pbuf), proc2)).
Proof.
  apply (stale_id_refused {[128 := [127]]} demo_agent proc2 5).
  - apply proc2_serving.
  - word.
  - discriminate.
  - intros [_ H]. vm_compute in H. discriminate.
Defined.

(** A user annotation named "event" is not an array, so encoding the span throws, the nodes
    of the trace are never freed and a second attempt fails in the same way. *)
Example event_clue_leaks :
  let '(r, p) := run [start_trace 0 []; start_trace 128 []; add_clue 128 (Some (bs "event")) (bs "x") 0;
                      end_trace 127; end_trace 128; end_trace 128] proc0 in
  (r, alive_ids (pool (store p))) = (Ok [128; 127; 0; 128; -1; -1], [127; 128]).
Proof. vm_compute. reflexivity. Qed.

End Service.
