(* ===== verification/ThreadLocal.v ===== *)
(** * Thread-local traces

    The bindings keep the id of the innermost open node of a thread in
    [Agent::per_thread_current_id]: starting without an id starts under it and moves to the
    new node, ending without an id ends it and moves to its parent.  Abstractly the thread
    has a stack of open nodes.  [Tracer] is what a binding promises about its two
    functions; the theorems on sequences of calls are proved from it. *)
From Stdlib Require Import ZArith Lia.
From Stdlib Require Strings.Byte.
From S2P Require Import Prelude Sockets TransLayer ConnPool State Json JsonWriter CLib TraceNode PoolManager.
From S2P Require Import Forest Agent Api Frame Tracing Sending Service.

Module ThreadLocal.
Import Json Node Pool Forest Agent Api Frame Tracing Sending Service.

(** ** The abstract machine *)

(** The open nodes of the thread, innermost first; [Lost] once the current id is -1. *)
Inductive local :=
| Open (stack : list Z)
| Lost.

Definition current (st : local) : Z :=
  match st with Open [] => E_ROOT_NODE | Open (id :: _) => id | Lost => E_INVALID_NODE end.

Inductive op := Start | End_.

(** One call: the forest and the stack before, the result, the forest and the stack after. *)
Inductive step : trees -> local -> op -> Z -> trees -> local -> Prop :=
| start_root T id : ~ in_forest T id -> 1 <= id ->
    step T (Open []) Start id (<[id := []]> T) (Open [id])
| start_event T parent stk r cs id : T !! r = Some cs -> parent ∈ r :: cs -> ~ in_forest T id -> 1 <= id ->
    step T (Open (parent :: stk)) Start id (<[r := cs ++ [id]]> T) (Open (id :: parent :: stk))
| start_fails T stk : step T (Open stk) Start E_INVALID_NODE T Lost
| end_event T id parent stk : step T (Open (id :: parent :: stk)) End_ parent T (Open (parent :: stk))
| end_root T r cs : T !! r = Some cs -> step T (Open [r]) End_ E_ROOT_NODE (delete r T) (Open [])
| end_fails T r : step T (Open [r]) End_ E_INVALID_NODE T Lost
| end_nothing T : step T (Open []) End_ E_INVALID_NODE T Lost
| lost_stays T o : step T Lost o E_INVALID_NODE T Lost.

Inductive steps : trees -> local -> list op -> list Z -> trees -> local -> Prop :=
| steps_nil T st : steps T st [] [] T st
| steps_cons T1 st1 T2 st2 T3 st3 o ops r rs :
    step T1 st1 o r T2 st2 -> steps T2 st2 ops rs T3 st3 -> steps T1 st1 (o :: ops) (r :: rs) T3 st3.

(** ** What the process represents *)

(** A stack that leads from a node to the root [r] along the parents. *)
Fixpoint path (s : Store) (r : Z) (cs : list Z) (stk : list Z) : Prop :=
  match stk with
  | [] => False
  | [id] => id = r
  | id :: (parent :: _) as rest =>
      id ∈ cs /\ parents s !! Z.to_nat (id - 1) = Some parent /\ path s r cs rest
  end.

Definition on_path (T : trees) (s : Store) (st : local) : Prop :=
  match st with
  | Open [] | Lost => True
  | Open stk => exists r cs, T !! r = Some cs /\ path s r cs stk
  end.

Definition tracks (a : Agent) (T : trees) (st : local) (p : Process) : Prop :=
  still_serving T no_refs a p /\ per_thread_current_id p = current st /\ on_path T (store p) st.

(** ** The interface *)

Class Tracer := {
  tracer_start : M Process Z;
  tracer_end : M Process Z;
  tracer_start_refines a T st p : tracks a T st p ->
    wp tracer_start (fun r p' => exists T' st', step T st Start r T' st' /\ tracks a T' st' p') (fun _ _ => False) p;
  tracer_end_refines a T st p : tracks a T st p -> all_sendable T p ->
    wp tracer_end (fun r p' => exists T' st', step T st End_ r T' st' /\ tracks a T' st' p') (fun _ _ => False) p
}.

(** ** Paths *)

Lemma path_elem s r cs stk id : path s r cs (id :: stk) -> id ∈ r :: cs.
Proof. destruct stk as [|q stk]; cbn; [intros ->; by left|intros (? & _); by right]. Qed.

Lemma path_tail s r cs id q stk : path s r cs (id :: q :: stk) ->
  id ∈ cs /\ parents s !! Z.to_nat (id - 1) = Some q /\ path s r cs (q :: stk).
Proof. done. Qed.

Lemma path_mono s s' r cs cs' stk :
  (forall id, id ∈ cs -> id ∈ cs') ->
  (forall id q, id ∈ cs -> parents s !! Z.to_nat (id - 1) = Some q -> parents s' !! Z.to_nat (id - 1) = Some q) ->
  path s r cs stk -> path s' r cs' stk.
Proof.
  intros Hc Hp. induction stk as [|id [|q stk] IH]; [done|done|]. intros (Hin & Hq & H). split_and!; eauto.
Qed.

Lemma on_path_fixed T s s' st : parents s' = parents s -> on_path T s st -> on_path T s' st.
Proof.
  intros E. destruct st as [[|id stk]|]; [done| |done]. intros (r & cs & Ht & H). exists r, cs. split; [done|].
  eapply path_mono; [done| |exact H]. by rewrite E.
Qed.

(** ** The shape both bindings have *)

Definition start_here : M Process Z :=
  id ← pinpoint_get_per_thread_id; new ← pinpoint_start_trace id; _ ← pinpoint_update_per_thread_id new; mret new.

Definition end_here : M Process Z :=
  id ← pinpoint_get_per_thread_id; parent ← pinpoint_end_trace id; _ ← pinpoint_update_per_thread_id parent; mret parent.

Definition set_current (p : Process) (id : Z) : Process :=
  mkProcess (_agentPtr p) (store p) (os p) (handed p) id.

(** A call on the current id whose result becomes the current id. *)
Lemma wp_here (f : Z -> M Process Z) Q p :
  wp (f (per_thread_current_id p)) (fun r p' => Q r (set_current p' r)) (fun _ _ => False) p ->
  wp (id ← pinpoint_get_per_thread_id; r ← f id; _ ← pinpoint_update_per_thread_id r; mret r) Q (fun _ _ => False) p.
Proof.
  intros H. unfold pinpoint_get_per_thread_id, pinpoint_update_per_thread_id. wps. wps. wps.
  eapply wp_mono; [exact H| |done]. intros r p' HQ. wps. wps. by wps.
Qed.

Lemma tracks_current a T st p : still_serving T no_refs a p -> on_path T (store p) st ->
  tracks a T st (set_current p (current st)).
Proof. intros Hs Hp. by split_and!. Qed.

Lemma parents_kept T a p p' id q : serving T no_refs a p -> keeps_data (pool (store p)) (pool (store p')) ->
  alive (pool (store p)) id -> parents (store p) !! Z.to_nat (id - 1) = Some q ->
  parents (store p') !! Z.to_nat (id - 1) = Some q.
Proof.
  intros (Hinv & _) Hd Hal Hq. destruct (alive_i32 _ _ (inv_alloc _ _ _ _ Hinv) Hal) as [_ H1].
  destruct (inv_nodes _ _ _ _ Hinv id Hal) as (n & En & _). destruct (Hd id n Hal En) as (n' & En' & Ed).
  rewrite <- parent_lookup in Hq |- * by done. rewrite En in Hq. rewrite En'. cbn in *. unfold data in Ed. congruence.
Qed.

Lemma still_from T R a a' p : same_agent a a' -> still_serving T R a' p -> still_serving T R a p.
Proof. intros H (a2 & Hs & H2). exists a2. split; [done|]. by eapply same_agent_trans. Qed.

Lemma not_in_forest T a p id : serving T no_refs a p -> ~ alive (pool (store p)) id -> ~ in_forest T id.
Proof. intros (Hinv & _) Hn Hf. apply Hn, (inv_alive _ _ _ _ id Hinv). by left. Qed.

Lemma start_here_refines a T st p : tracks a T st p ->
  wp start_here (fun r p' => exists T' st', step T st Start r T' st' /\ tracks a T' st' p') (fun _ _ => False) p.
Proof.
  intros ((a' & Hs & Hsa) & Hc & Hp). pose proof Hs as (Hinv & Ea & Hao). apply wp_here. rewrite Hc.
  assert (still_serving T no_refs a p) as Hss by (by exists a').
  eapply wp_guarded; [done|]. destruct st as [[|parent stk]|]; cbn [current].
  - eapply wp_mono; [by apply StartTrace_root_spec|..].
    + intros id p' (_ & Hn & Hs' & _). exists (<[id := []]> T), (Open [id]).
      pose proof (inv_trees _ _ _ _ (proj1 Hs') id [] (lookup_insert_eq _ _ _)) as [_ Hf].
      apply Forall_cons in Hf as [[Hr _] _].
      split; [|apply (tracks_current _ _ (Open [id])); [by exists a'|exists id, []; by rewrite lookup_insert_eq]].
      constructor; [by eapply not_in_forest|lia].
    + intros e p' (_ & -> & ->). exists T, Lost. split; [constructor|]. by apply (tracks_current _ _ Lost).
  - destruct Hp as (r & cs & Ht & Hp). pose proof (path_elem _ _ _ _ _ Hp) as Hin.
    destruct (inv_trees _ _ _ _ Hinv r cs Ht) as [_ Hf]. rewrite Forall_forall in Hf.
    destruct (alive_i32 _ _ (inv_alloc _ _ _ _ Hinv) (Hf parent Hin)) as [Hi32 H1].
    eapply wp_mono; [apply StartTrace_event_spec; [done|done|unfold E_ROOT_NODE; lia]|..].
    + intros id p' (_ & _ & r' & cs' & Ht' & Hin' & (Hn & _ & _ & Hd & n & pn & En & _ & _ & Hpar & _) & Hs').
      assert (r' = r) as -> by (by eapply (inv_disjoint _ _ _ _ Hinv)). rewrite Ht in Ht'. injection Ht' as <-.
      exists (<[r := cs ++ [id]]> T), (Open (id :: parent :: stk)).
      pose proof (inv_trees _ _ _ _ (proj1 Hs') r _ (lookup_insert_eq _ _ _)) as [_ Hf'].
      rewrite Forall_forall in Hf'. assert (1 <= id) as H1'.
      { destruct (Hf' id) as [? _]; [right; apply elem_of_app; right; by left|lia]. }
      split; [constructor; [done|done|by eapply not_in_forest|done]|].
      apply (tracks_current _ _ (Open (id :: parent :: stk))); [by exists a'|]. exists r, (cs ++ [id]).
      split; [apply lookup_insert_eq|]. split_and!; [apply elem_of_app; right; by left| |].
      * rewrite <- parent_lookup by done. rewrite En. cbn. by rewrite Hpar.
      * eapply path_mono; [| |exact Hp]; [intros j Hj; apply elem_of_app; by left|].
        intros j q Hj. eapply parents_kept; [exact Hs|done|]. apply Hf. by right.
    + intros e p' [(_ & -> & ->)|(_ & ? & _)]; [|done]. exists T, Lost. split; [constructor|]. by apply (tracks_current _ _ Lost).
  - unfold StartTrace. change (E_INVALID_NODE <=? E_INVALID_NODE) with true. cbv iota. wps.
    exists T, Lost. split; [constructor|]. by apply (tracks_current _ _ Lost).
Qed.

Lemma end_here_refines a T st p : tracks a T st p -> all_sendable T p ->
  wp end_here (fun r p' => exists T' st', step T st End_ r T' st' /\ tracks a T' st' p') (fun _ _ => False) p.
Proof.
  intros ((a' & Hs & Hsa) & Hc & Hp) Hsm. pose proof Hs as (Hinv & Ea & Hao). apply wp_here. rewrite Hc.
  assert (still_serving T no_refs a p) as Hss by (by exists a').
  assert (forall id, in_i32 id -> ~ alive (pool (store p)) id -> step T st End_ E_INVALID_NODE T Lost ->
    wp (EndTrace id 0) (fun r p' => exists T' st', step T st End_ r T' st' /\ tracks a T' st' (set_current p' r))
      (fun _ p' => exists T' st', step T st End_ E_INVALID_NODE T' st' /\ tracks a T' st' (set_current p' E_INVALID_NODE)) p) as Hdead.
  { intros id Hid Hd Hst. unfold wp. rewrite (EndTrace_dead _ _ _ _ _ Hs Hid Hd).
    exists T, Lost. split; [done|]. by apply (tracks_current _ _ Lost). }
  eapply wp_guarded; [done|]. destruct st as [[|id [|parent stk]]|]; cbn [current].
  - apply Hdead; [done|intros [? _]; unfold E_ROOT_NODE in *; lia|constructor].
  - destruct Hp as (r & cs & Ht & ->). eapply wp_mono; [apply (EndTrace_root_spec T p a' r cs 0); [done|done|by apply Hsm]|..].
    + intros ret p' [-> (Hs' & _)]. exists (delete r T), (Open []). split; [by econstructor|].
      apply (tracks_current _ _ (Open [])); [by eapply still_from|done].
    + intros e p' [Hs' _]. exists T, Lost. split; [constructor|]. apply (tracks_current _ _ Lost); [by eapply still_from|done].
  - destruct Hp as (r & cs & Ht & (Hin & Hq & Hp)). apply list_elem_of_lookup in Hin as [i Hi].
    destruct (inv_trees _ _ _ _ Hinv r cs Ht) as [_ Hf]. rewrite Forall_forall in Hf.
    destruct (Hf id) as [Hr _]; [right; by eapply list_elem_of_lookup_2|].
    pose proof (fixes_EndTrace id 0 p) as Hfr. unfold wp.
    pose proof (EndTrace_event_spec T p a' r cs i id 0 Hs Ht Hi) as W. unfold wp in W.
    destruct (EndTrace id 0 p) as [[ret| | |] p']; try done. destruct W as (_ & Hret & Hs' & _).
    rewrite parent_lookup, Hq in Hret by lia. injection Hret as <-. injection Hfr as Hfr _.
    exists T, (Open (parent :: stk)). split; [constructor|].
    apply (tracks_current _ _ (Open (parent :: stk))); [by exists a'|].
    eapply on_path_fixed; [exact Hfr|]. by exists r, cs.
  - apply Hdead; [done|intros [? _]; unfold E_INVALID_NODE in *; lia|constructor].
Qed.

(** ** Balanced sequences, abstractly *)

Definition disjoint_trees (T : trees) : Prop :=
  forall r1 cs1 r2 cs2 id, T !! r1 = Some cs1 -> T !! r2 = Some cs2 -> id ∈ r1 :: cs1 -> id ∈ r2 :: cs2 -> r1 = r2.

Inductive balanced : list op -> Prop :=
| balanced_nil : balanced []
| balanced_nest u v : balanced u -> balanced v -> balanced (Start :: u ++ End_ :: v).

(** The trace of the innermost open node has gained events at its end; nothing else changed. *)
Definition grown (T : trees) (st : local) (T' : trees) : Prop :=
  match st with
  | Open (id :: _) => forall r cs, T !! r = Some cs -> id ∈ r :: cs -> exists new, T' = <[r := cs ++ new]> T
  | Open [] | Lost => T' = T
  end.

Lemma grown_refl T st : grown T st T.
Proof.
  destruct st as [[|id stk]|]; [done| |done]. intros r cs Ht _. exists []. by rewrite app_nil_r, insert_id.
Qed.

Lemma disjoint_insert T r cs id : disjoint_trees T -> ~ in_forest T id ->
  (T !! r = Some cs \/ r = id /\ cs = []) -> disjoint_trees (<[r := if bool_decide (r = id) then [] else cs ++ [id]]> T).
Proof.
  intros Hd Hn Hr r1 cs1 r2 cs2 j H1 H2 Hj1 Hj2.
  assert (forall r' cs', T !! r' = Some cs' -> id ∉ r' :: cs') as Hfresh.
  { intros r' cs' E Hin. apply Hn. by exists r', cs'. }
  assert (forall r' cs', (<[r := if bool_decide (r = id) then [] else cs ++ [id]]> T) !! r' = Some cs' -> j ∈ r' :: cs' ->
    r' = r /\ j = id \/ exists c, T !! r' = Some c /\ j ∈ r' :: c) as Hin.
  { intros r' cs' E Hj. destruct (decide (r' = r)) as [->|Hne]; [|right; rewrite lookup_insert_ne in E by done; eauto].
    rewrite lookup_insert_eq in E. injection E as <-. case_bool_decide as E1.
    - apply list_elem_of_singleton in Hj. left. by subst.
    - destruct Hr as [Hr|[? _]]; [|done]. rewrite app_comm_cons in Hj. apply elem_of_app in Hj as [Hj|Hj]; [eauto|].
      apply list_elem_of_singleton in Hj. by left. }
  destruct (Hin _ _ H1 Hj1) as [[-> ->]|(c1 & E1 & K1)], (Hin _ _ H2 Hj2) as [[-> E]|(c2 & E2 & K2)]; try done.
  - by destruct (Hfresh _ _ E2).
  - subst j. by destruct (Hfresh _ _ E1).
  - by eapply Hd.
Qed.

Lemma steps_app T st u v rs T' st' : steps T st (u ++ v) rs T' st' ->
  exists rs1 rs2 T1 st1, rs = rs1 ++ rs2 /\ steps T st u rs1 T1 st1 /\ steps T1 st1 v rs2 T' st'.
Proof.
  revert T st rs. induction u as [|o u IH]; intros T st rs H; [exists [], rs, T, st; split_and!; [done|constructor|done]|].
  inversion H as [|? ? T1 st1 ? ? ? ? r rs' H1 H2]; subst. destruct (IH _ _ _ H2) as (rs1 & rs2 & T2 & st2 & -> & K1 & K2).
  exists (r :: rs1), rs2, T2, st2. split_and!; [done|by econstructor|done].
Qed.

Lemma balanced_steps ops : balanced ops -> forall T st rs T' st', disjoint_trees T ->
  steps T st ops rs T' st' -> Forall (fun r => r <> E_INVALID_NODE) rs ->
  st' = st /\ grown T st T' /\ disjoint_trees T'.
Proof.
  induction 1 as [|u v Hu IHu Hv IHv]; intros T st rs T' st' Hd H Hok.
  { inversion H; subst. split_and!; [done|apply grown_refl|done]. }
  inversion H as [|? ? T1 st1 ? ? ? ? r1 rs1 H1 H2]; subst. apply Forall_cons in Hok as [Hr1 Hok].
  apply steps_app in H2 as (ra & rb & T2 & st2 & -> & K1 & K2). apply Forall_app in Hok as [Hoka Hokb].
  inversion K2 as [|? ? T3 st3 ? ? ? ? r3 rs3 H3 H4]; subst. apply Forall_cons in Hokb as [Hr3 Hokb].
  inversion H1 as [T0 id Hf Hid|T0 parent stk r cs id Ht Hp Hf Hid| | | | | |]; subst; try done.
  - assert (disjoint_trees (<[r1 := []]> T)) as Hd1.
    { pose proof (disjoint_insert T r1 [] r1 Hd Hf (or_intror (conj eq_refl eq_refl))) as K. by rewrite bool_decide_eq_true_2 in K. }
    destruct (IHu _ _ _ _ _ Hd1 K1 Hoka) as (-> & Hg & Hd2).
    destruct (Hg r1 [] (lookup_insert_eq _ _ _)) as [new ->]; [by left|]. rewrite insert_insert_eq in *.
    inversion H3 as [| | | |T0 r cs Ht| | |]; subst; try done.
    rewrite delete_insert_id in H4; [exact (IHv _ _ _ _ _ Hd H4 Hokb)|].
    destruct (T !! r1) eqn:E; [|done]. destruct Hf. exists r1. eexists. split; [done|by left].
  - assert (r <> r1) as Hne by (intros ->; apply Hf; exists r1, cs; by split; [|left]).
    assert (disjoint_trees (<[r := cs ++ [r1]]> T)) as Hd1.
    { pose proof (disjoint_insert T r cs r1 Hd Hf (or_introl Ht)) as K. by rewrite bool_decide_eq_false_2 in K. }
    destruct (IHu _ _ _ _ _ Hd1 K1 Hoka) as (-> & Hg & Hd2).
    destruct (Hg r _ (lookup_insert_eq _ _ _)) as [new ->]; [right; apply elem_of_app; right; by left|].
    rewrite insert_insert_eq in *. inversion H3; subst; try done.
    destruct (IHv _ _ _ _ _ Hd2 H4 Hokb) as (-> & Hg' & Hd'). split_and!; [done| |done].
    intros r' cs' Ht' Hp'. assert (r' = r) as -> by (by eapply Hd). rewrite Ht in Ht'. injection Ht' as <-.
    destruct (Hg' r _ (lookup_insert_eq _ _ _)) as [new' ->].
    { apply elem_of_cons in Hp as [->|Hp]; [by left|right; by do 2 (apply elem_of_app; left)]. }
    rewrite insert_insert_eq. exists ([r1] ++ new ++ new'). by rewrite <- !app_assoc.
Qed.

Lemma lost_steps ops : forall T rs T' st', steps T Lost ops rs T' st' ->
  rs = replicate (length ops) E_INVALID_NODE /\ T' = T /\ st' = Lost.
Proof.
  induction ops as [|o ops IH]; intros T rs T' st' H; inversion H as [|? ? ? ? ? ? ? ? ? ? H1 H2]; subst; [done|].
  inversion H1; subst. destruct (IH _ _ _ _ H2) as (-> & -> & ->). done.
Qed.

(** ** Sequences of calls of a binding *)

Section sequences.
Context `{Tracer}.

Definition local_exec (o : op) : M Process Z := match o with Start => tracer_start | End_ => tracer_end end.

Fixpoint run_local (ops : list op) : M Process (list Z) :=
  match ops with
  | [] => mret []
  | o :: ops' => r ← local_exec o; rs ← run_local ops'; mret (r :: rs)
  end.

(** No trace on the way is too big to be sent. *)
Fixpoint run_local_ok (ops : list op) (p : Process) : Prop :=
  match ops with
  | [] => True
  | o :: ops' => (forall T, inv T None no_refs (store p) -> all_sendable T p) /\ run_local_ok ops' (local_exec o p).2
  end.

Lemma local_exec_refines a T st o p : tracks a T st p -> all_sendable T p ->
  wp (local_exec o) (fun r p' => exists T' st', step T st o r T' st' /\ tracks a T' st' p') (fun _ _ => False) p.
Proof. intros Ht Hs. destruct o; [by apply tracer_start_refines|by apply tracer_end_refines]. Qed.

Lemma run_local_refines ops : forall a T st p, tracks a T st p -> run_local_ok ops p ->
  wp (run_local ops) (fun rs p' => exists T' st', steps T st ops rs T' st' /\ tracks a T' st' p') (fun _ _ => False) p.
Proof.
  induction ops as [|o ops IH]; intros a T st p Ht Hok; cbn [run_local].
  { wps. exists T, st. split; [constructor|done]. }
  destruct Hok as [Hsm Hok]. pose proof Ht as ((a' & (Hinv & _) & _) & _).
  pose proof (local_exec_refines a T st o p Ht (Hsm T Hinv)) as W. wps. unfold wp in W |- *.
  destruct (local_exec o p) as [[r| | |] p1]; try done. destruct W as (T1 & st1 & Hstep & Ht1).
  specialize (IH a T1 st1 p1 Ht1 Hok). unfold wp, mbind, M_bind in IH |- *.
  destruct (run_local ops p1) as [[rs| | |] p2]; try done. destruct IH as (T2 & st2 & Hsteps & Ht2).
  exists T2, st2. split; [by econstructor|done].
Qed.

Lemma tracks_disjoint a T st p : tracks a T st p -> disjoint_trees T.
Proof. intros ((a' & (Hinv & _) & _) & _). exact (inv_disjoint _ _ _ _ Hinv). Qed.

(** Balanced sequences, for any binding. *)
Lemma run_balanced ops a T st p : balanced ops -> tracks a T st p -> run_local_ok ops p ->
  wp (run_local ops)
    (fun rs p' => Forall (fun r => r <> E_INVALID_NODE) rs -> exists T', tracks a T' st p' /\ grown T st T')
    (fun _ _ => False) p.
Proof.
  intros Hb Ht Hok. eapply wp_mono; [by apply run_local_refines| |done].
  intros rs p' (T' & st' & Hst & Ht') Hrs.
  destruct (balanced_steps _ Hb _ _ _ _ _ (tracks_disjoint _ _ _ _ Ht) Hst Hrs) as (-> & Hg & _). by exists T'.
Qed.

(** An unmatched end, for any binding. *)
Lemma run_unmatched_end ops a T p : tracks a T (Open []) p -> run_local_ok (End_ :: ops) p ->
  wp (run_local (End_ :: ops))
    (fun rs p' => rs = replicate (S (length ops)) E_INVALID_NODE /\ tracks a T Lost p') (fun _ _ => False) p.
Proof.
  intros Ht Hok. eapply wp_mono; [by apply run_local_refines| |done]. intros rs p' (T' & st' & Hst & Ht').
  inversion Hst as [|? ? ? ? ? ? ? ? ? ? H1 H2]; subst. inversion H1; subst.
  by destruct (lost_steps _ _ _ _ _ H2) as (-> & -> & ->).
Qed.

End sequences.

(** The thread of the demo process is outside any trace. *)
Lemma proc0_tracks : tracks demo_agent ∅ (Open []) proc0.
Proof. split_and!; [apply serving_still, proc0_serving|done|done]. Qed.

(** ** Calls one at a time *)

(** The agent works and the thread's current id is an id. *)
Definition ready (a : Agent) (p : Process) : Prop := goes_on a p /\ in_i32 (per_thread_current_id p).

Lemma wp_of_result {A} (f : A -> Z) m Q (E : exn -> Process -> Prop) p :
  wp (result f m) Q E p -> wp m (fun x p' => Q (f x) p') E p.
Proof. unfold wp, result, mbind, M_bind. by destruct (m p) as [[]]. Qed.

Lemma exec_ready T a c p : (forall parent opts, c <> start_trace parent opts) ->
  serving T no_refs a p -> in_i32 (per_thread_current_id p) -> call_ok c -> all_sendable T p ->
  wp (exec c) (fun _ p' => ready a p') (fun _ _ => False) p.
Proof.
  intros Hc Hs Hi Hok Hsm. pose proof (exec_goes_on T a c p Hs Hok Hsm) as W.
  pose proof (exec_thread_view c Hc p) as Hv. unfold wp in *. destruct (exec c p) as [[]]; try done.
  injection Hv as _ Hv. split; [done|]. cbn in Hv. by rewrite Hv.
Qed.

Lemma fixes_start_trace id : fixes per_thread_current_id (pinpoint_start_trace id).
Proof.
  unfold pinpoint_start_trace, pinpoint_start_traceV1, guarded, StartTrace, this. fix_steps;
    intros q; unfold on_store; by case_match.
Qed.

Lemma fixes_end_trace id : fixes per_thread_current_id (pinpoint_end_trace id).
Proof. intros q. pose proof (fixes_guarded E_INVALID_NODE _ (fixes_EndTrace id 0) q) as E. by injection E. Qed.

End ThreadLocal.
