(* ===== verification/Python.v ===== *)
(** * The Python module (src/PY/_pinpoint_py.cpp)

    Every function parses its arguments, replaces the id -1 by the thread's current id and
    calls the C interface.  What [PyArg_ParseTuple] made of the arguments is the argument
    here: [None] when it failed, and an optional argument that was not given is [None]
    inside; the variable then keeps its initial value. *)
From Stdlib Require Import ZArith Lia.
From Stdlib Require Strings.Byte.
From S2P Require Import Prelude Sockets TransLayer ConnPool State Json JsonWriter CLib TraceNode PoolManager.
From S2P Require Import Forest Agent Api Frame Tracing Sending Service ThreadLocal.

Module Python.
Import Json Node Pool Forest Agent Api Frame Tracing Sending Service ThreadLocal.

(** What a function returns: [Py_NULL] tells the interpreter that an exception is set. *)
Inductive PyObject :=
| Py_NULL
| Py_True
| Py_False
| Py_int (z : Z)
| Py_str (s : list byte).

Definition Py_bool (b : bool) : PyObject := if b then Py_True else Py_False.

(** [if (id == -1) id = pinpoint_get_per_thread_id();] *)
Definition given_id (id : option Z) : M Process Z :=
  if default (-1) id =? -1 then pinpoint_get_per_thread_id else mret (default (-1) id).

(** [if (PyArg_ParseTuple(...)) { ... } else { return NULL; }] *)
Definition with_args {A} (args : option A) (body : A -> M Process PyObject) : M Process PyObject :=
  match args with Some x => body x | None => mret Py_NULL end.

Definition py_pinpoint_add_clues (args : option (list byte * list byte * option Z * option Z)) : M Process PyObject :=
  with_args args (fun '(key, value, id, loc) =>
    id ← given_id id;
    _ ← pinpoint_add_clues id (Some key) value (default 0 loc);
    mret Py_True).

Definition py_pinpoint_add_clue (args : option (list byte * list byte * option Z * option Z)) : M Process PyObject :=
  with_args args (fun '(key, value, id, loc) =>
    id ← given_id id;
    _ ← pinpoint_add_clue id (Some key) value (default 0 loc);
    mret Py_True).

Definition py_pinpoint_context_key (args : option (list byte * list byte * option Z)) : M Process PyObject :=
  with_args args (fun '(key, value, id) =>
    id ← given_id id;
    _ ← pinpoint_set_context_key id key value;
    mret Py_True).

Definition py_pinpoint_get_key (args : option (list byte * option Z)) : M Process PyObject :=
  with_args args (fun '(key, id) =>
    id ← given_id id;
    let buf := replicate 1024 Byte.x00 in
    '(n, buf) ← pinpoint_get_context_key id key (Some buf) 1024;
    if 0 <? n then mret (Py_str (c_str (default [] buf))) else mret Py_False).

Definition py_pinpoint_get_sequence_id (args : option (option Z)) : M Process PyObject :=
  with_args args (fun id => id ← given_id id; n ← pinpoint_get_sequence_id id; mret (Py_int n)).

Definition py_pinpoint_set_async_ctx (args : option (Z * Z * Z)) : M Process PyObject :=
  with_args args (fun '(id, async_id, node_sequence) =>
    _ ← pinpoint_set_async_ctx id async_id node_sequence; mret Py_True).

Definition py_check_trace_limit (args : option (option Z)) : M Process PyObject :=
  with_args args (fun timestamp =>
    ret ← check_trace_limit (default (-1) timestamp); mret (Py_bool (negb (ret =? 0)))).

Definition py_force_flush_span (args : option (option Z * option Z)) : M Process PyObject :=
  with_args args (fun '(timeout, id) =>
    id ← given_id id;
    ret ← pinpoint_force_end_trace id (default 3 timeout);
    if negb (ret =? E_ROOT_NODE) then mret Py_False
    else
      current_id ← pinpoint_get_per_thread_id;
      gone ← (if negb (current_id =? E_ROOT_NODE)
              then b ← pinpoint_trace_is_root current_id; mret (b =? -1) else mret false);
      _ ← (if (gone : bool) then pinpoint_update_per_thread_id E_ROOT_NODE else mret tt);
      mret Py_True).

Definition start_thread_local_trace : M Process Z :=
  cur ← pinpoint_get_per_thread_id;
  id ← pinpoint_start_trace cur;
  _ ← pinpoint_update_per_thread_id id;
  mret id.

Definition py_pinpoint_start_trace (args : option (option Z)) : M Process PyObject :=
  with_args args (fun id =>
    let id := default (-1) id in
    new_id ← (if id =? -1 then start_thread_local_trace else pinpoint_start_trace id);
    mret (Py_int new_id)).

Definition end_thread_local_trace : M Process Z :=
  local_id ← pinpoint_get_per_thread_id;
  parent_id ← pinpoint_end_trace local_id;
  _ ← pinpoint_update_per_thread_id parent_id;
  mret parent_id.

Definition py_pinpoint_end_trace (args : option (option Z)) : M Process PyObject :=
  with_args args (fun id =>
    let id := default (-1) id in
    ret ← (if id =? -1 then end_thread_local_trace else pinpoint_end_trace id);
    mret (Py_int ret)).

(** The 64-bit id is handed over as a [long]. *)
Definition py_generate_unique_id : M Process PyObject := ret ← generate_unique_id; mret (Py_int (i64 ret)).

Definition py_is_root_trace (args : option (option Z)) : M Process PyObject :=
  with_args args (fun id => id ← given_id id; ret ← pinpoint_trace_is_root id; mret (Py_bool (ret =? 1))).

Definition py_trace_has_root (args : option (option Z)) : M Process PyObject :=
  with_args args (fun id => id ← given_id id; ret ← pinpoint_trace_is_root id; mret (Py_bool (negb (ret =? -1)))).

Definition py_pinpoint_drop_trace (args : option (option Z)) : M Process PyObject :=
  with_args args (fun id => id ← given_id id; _ ← mark_current_trace_status id E_TRACE_BLOCK; mret Py_True).

Definition py_pinpoint_start_time : M Process PyObject := t ← pinpoint_start_time; mret (Py_int t).

Definition py_set_agent (args : option (string * option Z * option Z)) : M Process PyObject :=
  with_args args (fun '(collector_host, trace_limit, timeout_ms) =>
    _ ← pinpoint_set_agent collector_host (default 0 timeout_ms) (default (-1) trace_limit) 1700;
    mret Py_True).

(** [line_no] is parsed as an [int] into an unsigned variable. *)
Definition py_pinpoint_mark_an_error (args : option (list byte * list byte * Z * option Z)) : M Process PyObject :=
  with_args args (fun '(msg, file_name, line_no, id) =>
    id ← given_id id; _ ← catch_error id msg file_name (u32 line_no); mret Py_True).

Definition py_pinpoint_add_exception (args : option (list byte * option Z)) : M Process PyObject :=
  with_args args (fun '(msg, id) => id ← given_id id; _ ← pinpoint_add_exception id msg; mret Py_True).

(** ** The method table

    But for [enable_debug], which is in Logging.v. *)

Inductive py_call :=
| py_start_trace (args : option (option Z))
| py_end_trace (args : option (option Z))
| py_unique_id
| py_has_root (args : option (option Z))
| py_is_root (args : option (option Z))
| py_drop_trace (args : option (option Z))
| py_start_time
| py_add_clues (args : option (list byte * list byte * option Z * option Z))
| py_add_clue (args : option (list byte * list byte * option Z * option Z))
| py_set_context_key (args : option (list byte * list byte * option Z))
| py_get_context_key (args : option (list byte * option Z))
| py_get_sequence_id (args : option (option Z))
| py_set_async_ctx (args : option (Z * Z * Z))
| py_check_tracelimit (args : option (option Z))
| py_force_flush_trace (args : option (option Z * option Z))
| py_mark_as_error (args : option (list byte * list byte * Z * option Z))
| py_add_exception (args : option (list byte * option Z))
| py_set_agent_ (args : option (string * option Z * option Z)).

Definition py_exec (c : py_call) : M Process PyObject :=
  match c with
  | py_start_trace args => py_pinpoint_start_trace args
  | py_end_trace args => py_pinpoint_end_trace args
  | py_unique_id => py_generate_unique_id
  | py_has_root args => py_trace_has_root args
  | py_is_root args => py_is_root_trace args
  | py_drop_trace args => py_pinpoint_drop_trace args
  | py_start_time => py_pinpoint_start_time
  | py_add_clues args => py_pinpoint_add_clues args
  | py_add_clue args => py_pinpoint_add_clue args
  | py_set_context_key args => py_pinpoint_context_key args
  | py_get_context_key args => py_pinpoint_get_key args
  | py_get_sequence_id args => py_pinpoint_get_sequence_id args
  | py_set_async_ctx args => py_pinpoint_set_async_ctx args
  | py_check_tracelimit args => py_check_trace_limit args
  | py_force_flush_trace args => py_force_flush_span args
  | py_mark_as_error args => py_pinpoint_mark_an_error args
  | py_add_exception args => py_pinpoint_add_exception args
  | py_set_agent_ args => py_set_agent args
  end.

Fixpoint py_run (cs : list py_call) : M Process (list PyObject) :=
  match cs with
  | [] => mret []
  | c :: cs' => r ← py_exec c; rs ← py_run cs'; mret (r :: rs)
  end.

(** A nested pair of traces with a context, then a failed parse and a flush. *)
Example python_demo :
  let '(r, p) := py_run [py_set_agent_ (Some ("tcp:127.0.0.1:9999"%string, None, None));
                         py_start_trace (Some None); py_start_trace (Some None);
                         py_set_context_key (Some (bs "k", bs "v", None)); py_get_context_key (Some (bs "k", Some 128));
                         py_end_trace (Some None); py_add_clue None; py_force_flush_trace (Some (None, None));
                         py_has_root (Some None)] fresh in
  (r, per_thread_current_id p, NoNodesLeak (pool (store p)))
  = (Ok [Py_True; Py_int 128; Py_int 127; Py_True; Py_str (bs "v"); Py_int 128; Py_NULL; Py_True; Py_False], 0, true).
Proof. vm_compute. reflexivity. Qed.

(** Starting before the agent is set up loses the thread. *)
Example start_before_set_agent :
  let '(r, p) := py_run [py_start_trace (Some None);
                         py_set_agent_ (Some ("tcp:127.0.0.1:9999"%string, None, None));
                         py_start_trace (Some None); py_force_flush_trace (Some (None, None)); py_start_trace (Some None)] fresh in
  (r, per_thread_current_id p)
  = (Ok [Py_int (-1); Py_True; Py_int (-1); Py_False; Py_int (-1)], -1).
Proof. vm_compute. reflexivity. Qed.

(** ** Thread-local traces *)

#[export] Instance python_tracer : Tracer := {
  tracer_start := start_thread_local_trace;
  tracer_end := end_thread_local_trace;
  tracer_start_refines := start_here_refines;
  tracer_end_refines := end_here_refines
}.

(** What a thread gets by calling [start_trace()] and [end_trace()] in the given order. *)
Definition python_run : list op -> M Process (list Z) := @run_local python_tracer.
Definition python_run_ok : list op -> Process -> Prop := @run_local_ok python_tracer.

(** C11: the module's thread-local functions implement a stack.  Whatever a thread starts and
    ends without naming ids, the results are those of the machine [step]: starting pushes a
    fresh node, which is a new root or the last event of the trace the top of the stack
    belongs to; ending pops it and returns the one below; ending the bottom frees its trace;
    a failure returns -1 and loses the stack.  The current id of the thread is the top of
    the stack throughout, and no call throws. *)
Theorem thread_local_is_stack ops a T st p : tracks a T st p -> python_run_ok ops p ->
  wp (python_run ops) (fun rs p' => exists T' st', steps T st ops rs T' st' /\ tracks a T' st' p') (fun _ _ => False) p.
Proof. apply run_local_refines. Qed.

(** An unmatched end disables the thread.  Ending without an id outside a trace leaves -1 as
    the thread's current id, and from then on every start and end without an id returns -1
    and changes nothing. *)
Theorem unmatched_end_loses_thread ops a T p : tracks a T (Open []) p -> python_run_ok (End_ :: ops) p ->
  wp (python_run (End_ :: ops))
    (fun rs p' => rs = replicate (S (length ops)) E_INVALID_NODE /\ tracks a T Lost p') (fun _ _ => False) p.
Proof. apply run_unmatched_end. Qed.

Lemma wp_given_id id Q E p :
  Q (if default (-1) id =? -1 then per_thread_current_id p else default (-1) id) p -> wp (given_id id) Q E p.
Proof. unfold given_id, pinpoint_get_per_thread_id. case_if; intros H; by wps. Qed.

(** Where the thread is after the trace of [r] was closed. *)
Definition after_flush (st : local) (r : Z) (cs : list Z) : local :=
  match st with
  | Open (id :: _) => if bool_decide (id ∈ r :: cs) then Open [] else st
  | Open [] | Lost => Open []
  end.

(** An id in use: the answer is 0 or 1 and nothing changes. *)
Lemma trace_is_root_alive T a p id : serving T no_refs a p -> alive (pool (store p)) id ->
  exists b : bool, pinpoint_trace_is_root id p = (Ok (if b then 1 else 0), p).
Proof.
  intros (Hinv & Ea & _) Hal. destruct (alive_i32 _ _ (inv_alloc _ _ _ _ Hinv) Hal) as [Hid H1].
  destruct (inv_nodes _ _ _ _ Hinv id Hal) as (n & En & _). exists (IsRootNode n).
  unfold pinpoint_trace_is_root, guarded. rewrite bind_get, Ea. unfold try.
  rewrite (proj2 (Z.eqb_neq id E_ROOT_NODE)) by (unfold E_ROOT_NODE; lia).
  unfold mbind, M_bind, on_store, IsRootTrace. rewrite (with_ref_run _ _ _ _ _ _ Hinv Hid), bool_decide_eq_true_2 by done.
  unfold finally, read_node. unfold mbind, M_bind, get. rewrite (bump_node _ _ _ _ En), bool_decide_eq_true_2 by done.
  cbn -[release]. rewrite (release_bump _ _ _ _ _ Hinv no_refs_few Hal). by rewrite set_store_same.
Qed.

(** The end of [py_force_flush_span]. *)
Lemma flush_tail_spec a T r cs st p p' : tracks a T st p -> T !! r = Some cs ->
  still_serving (delete r T) no_refs a p' -> thread_view p' = thread_view p ->
  wp (current_id ← pinpoint_get_per_thread_id;
      gone ← (if negb (current_id =? E_ROOT_NODE)
              then b ← pinpoint_trace_is_root current_id; mret (b =? -1) else mret false);
      _ ← (if (gone : bool) then pinpoint_update_per_thread_id E_ROOT_NODE else mret tt);
      mret Py_True)
    (fun ret p2 => ret = Py_True /\ tracks a (delete r T) (after_flush st r cs) p2) (fun _ _ => False) p'.
Proof.
  intros ((a1 & (Hinv1 & _) & _) & Hc & Hp) Ht Hss [= Hpar Hcur]. pose proof Hss as (a' & Hs' & Hsa).
  unfold pinpoint_get_per_thread_id, pinpoint_update_per_thread_id. wps. wps. rewrite Hcur, Hc.
  assert (forall id, ~ alive (pool (store p')) id -> in_i32 id -> after_flush st r cs = Open [] ->
    wp (gone ← (b ← pinpoint_trace_is_root id; mret (b =? -1));
        _ ← (if (gone : bool) then pinpoint_update_per_thread_id E_ROOT_NODE else mret tt); mret Py_True)
      (fun ret p2 => ret = Py_True /\ tracks a (delete r T) (after_flush st r cs) p2) (fun _ _ => False) p') as Hgone.
  { intros id Hd Hi ->. wps. wps. unfold wp at 1. rewrite (trace_is_root_dead _ _ _ _ Hs' Hi Hd). wps. wps.
    rewrite Z.eqb_refl. unfold pinpoint_update_per_thread_id. wps. wps. split; [done|]. by apply (tracks_current _ _ (Open [])). }
  destruct st as [[|c stk]|]; cbn [current].
  - rewrite Z.eqb_refl. cbn [negb]. wps. wps. wps. wps. wps. split; [done|]. by split_and!; [|rewrite Hcur|].
  - destruct Hp as (r' & cs' & Ht' & Hp). pose proof (path_elem _ _ _ _ _ Hp) as Hin.
    destruct (inv_trees _ _ _ _ Hinv1 r' cs' Ht') as [_ Hf]. rewrite Forall_forall in Hf.
    destruct (alive_i32 _ _ (inv_alloc _ _ _ _ Hinv1) (Hf c Hin)) as [Hi H1].
    rewrite (proj2 (Z.eqb_neq c E_ROOT_NODE)) by (unfold E_ROOT_NODE; lia). cbn [negb].
    cbn [after_flush] in *. case_bool_decide as Hcin.
    + apply Hgone; [|done|done]. intros Hal. apply (inv_alive _ _ _ _ c (proj1 Hs')) in Hal as [(r2 & cs2 & Ht2 & Hin2)|?]; [|done].
      apply lookup_delete_Some in Ht2 as [Hne Ht2]. apply Hne. by eapply (inv_disjoint _ _ _ _ Hinv1).
    + assert (r' <> r) as Hne by (intros ->; rewrite Ht in Ht'; by injection Ht' as <-).
      assert (alive (pool (store p')) c) as Hal.
      { apply (inv_alive _ _ _ _ c (proj1 Hs')). left. exists r', cs'. by rewrite lookup_delete_ne. }
      destruct (trace_is_root_alive _ _ _ _ Hs' Hal) as [b Eb]. wps. wps. unfold wp at 1. rewrite Eb. wps. wps.
      assert (((if b then 1 else 0) =? -1) = false) as -> by (by destruct b). wps. wps. split; [done|].
      split_and!; [done|by rewrite Hcur|]. exists r', cs'. split; [by rewrite lookup_delete_ne|].
      eapply path_mono; [done| |exact Hp]. by rewrite Hpar.
  - apply Hgone; [intros [? _]; unfold E_INVALID_NODE in *; lia|done|done].
Qed.

(** C13: flushing closes a whole trace and leaves the thread at a valid place.  With the
    id of any node of a trace, [force_flush_trace] ends the trace and answers True; if the
    thread's current node was in it, or the thread was lost, the thread is outside any
    trace afterwards, and otherwise its own stack is untouched.  It answers False, with forest
    and thread as before, only when ending the root threw, for one of the causes [end_threw]
    names: the trace's status is PASS and an annotation "event" is in the way of its events or
    sending the span threw. *)
Theorem force_flush_resets_thread a T st p r cs id timeout :
  tracks a T st p -> T !! r = Some cs -> id ∈ r :: cs -> sendable (store p) r cs ->
  wp (py_force_flush_span (Some (timeout, Some id)))
    (fun ret p' => ret = Py_True /\ tracks a (delete r T) (after_flush st r cs) p'
       \/ ret = Py_False /\ tracks a T st p'
          /\ exists a' e, _agentPtr p = Some a' /\ force_end_threw T a' (default 3 timeout) r cs e p p')
    (fun _ _ => False) p.
Proof.
  intros Htr Ht Hin Hsm. pose proof Htr as ((a' & Hs & Hsa) & Hc & Hp). pose proof Hs as (Hinv & _).
  destruct (inv_trees _ _ _ _ Hinv r cs Ht) as [_ Hf]. rewrite Forall_forall in Hf.
  destruct (alive_i32 _ _ (inv_alloc _ _ _ _ Hinv) (Hf id Hin)) as [Hi H1].
  unfold py_force_flush_span, with_args. wps. apply wp_given_id. change (default (-1) (Some id)) with id. rewrite (proj2 (Z.eqb_neq id (-1))) by lia.
  wps. pose proof (force_end_trace_outcome T a' p r cs id (default 3 timeout) Hs Ht Hin Hsm) as W.
  pose proof (exec_thread_view (force_end_trace id (default 3 timeout)) ltac:(done) p) as Hfr. cbn [exec] in Hfr.
  unfold wp in W |- *. destruct (pinpoint_force_end_trace id (default 3 timeout) p) as [[ret| | |] p1]; try done.
  cbn [snd] in Hfr. destruct W as [(-> & Hfe)|(-> & Hss & e & Hth)].
  - destruct (force_ended_alive _ _ _ _ _ _ _ Hinv Hfe) as [Hss _]. rewrite Z.eqb_refl. cbn [negb].
    pose proof (flush_tail_spec a T r cs st p p1 Htr Ht (still_from _ _ _ _ _ Hsa Hss) Hfr) as K.
    eapply wp_mono in K; [exact K| |done]. intros ret p2 H. by left.
  - change (negb (E_INVALID_NODE =? E_ROOT_NODE)) with true. cbv iota. right. injection Hfr as Hpar Hcur. split; [done|].
    split; [split_and!; [by eapply still_from|by rewrite Hcur|by eapply on_path_fixed]|]. exists a', e. split; [apply Hs|done].
Qed.

(** ** Every function is safe *)

(** [PyArg_ParseTuple] accepted the arguments. *)
Definition parsed (c : py_call) : bool :=
  match c with
  | py_unique_id | py_start_time => true
  | py_start_trace args | py_end_trace args | py_has_root args | py_is_root args | py_drop_trace args
  | py_get_sequence_id args | py_check_tracelimit args => bool_decide (is_Some args)
  | py_add_clues args | py_add_clue args => bool_decide (is_Some args)
  | py_set_context_key args => bool_decide (is_Some args)
  | py_get_context_key args | py_add_exception args => bool_decide (is_Some args)
  | py_set_async_ctx args => bool_decide (is_Some args)
  | py_force_flush_trace args => bool_decide (is_Some args)
  | py_mark_as_error args => bool_decide (is_Some args)
  | py_set_agent_ args => bool_decide (is_Some args)
  end.

Definition id_given (id : option Z) : Prop := in_i32 (default (-1) id).

(** The ids are those of a C [int]. *)
Definition py_call_ok (c : py_call) : Prop :=
  match c with
  | py_start_trace (Some id) | py_end_trace (Some id) | py_has_root (Some id) | py_is_root (Some id)
  | py_drop_trace (Some id) | py_get_sequence_id (Some id) | py_add_clues (Some (_, id, _))
  | py_add_clue (Some (_, id, _)) | py_set_context_key (Some (_, id)) | py_get_context_key (Some (_, id))
  | py_force_flush_trace (Some (_, id)) | py_mark_as_error (Some (_, id)) | py_add_exception (Some (_, id)) => id_given id
  | py_set_async_ctx (Some (id, _, _)) => in_i32 id
  | _ => True
  end.

Section safe.
Context (T : trees) (a : Agent) (p : Process).
Hypothesis Hs : serving T no_refs a p.
Hypothesis Hi : in_i32 (per_thread_current_id p).
Hypothesis Hsm : all_sendable T p.

Lemma id_range id : id_given id -> in_i32 (if default (-1) id =? -1 then per_thread_current_id p else default (-1) id).
Proof. intros H. by case_if. Qed.

(** A function that makes one call and answers something else than NULL. *)
Lemma one_call {A} id (f : Z -> M Process A) (c : Z -> call) (k : A -> M Process PyObject) :
  id_given id ->
  (forall i (Q : Process -> Prop), wp (exec (c i)) (fun _ => Q) (fun _ _ => False) p -> wp (f i) (fun _ => Q) (fun _ _ => False) p) ->
  (forall i, in_i32 i -> call_ok (c i)) -> (forall i parent opts, c i <> start_trace parent opts) ->
  (forall x, exists ret, k x = mret ret /\ ret <> Py_NULL) ->
  wp (i ← given_id id; x ← f i; k x)
    (fun ret p' => ret <> Py_NULL /\ ready a p') (fun _ _ => False) p.
Proof.
  intros Hid Hc Hok Hns Hans. wps. apply wp_given_id. set (i := if default (-1) id =? -1 then per_thread_current_id p else default (-1) id). wps.
  pose proof (exec_ready T a (c i) p (Hns i) Hs Hi (Hok i (id_range id Hid)) Hsm) as W.
  apply Hc in W. eapply wp_mono; [exact W| |done]. intros x p' H.
  destruct (Hans x) as (ret & -> & Hn). wps. by split.
Qed.

Lemma thread_call (f : Z -> M Process Z) id : id_given id ->
  (forall i, in_i32 i -> wp (f i) (fun r p' => in_i32 r /\ goes_on a p') (fun _ _ => False) p) ->
  (forall i, fixes per_thread_current_id (f i)) ->
  wp (r ← (if default (-1) id =? -1
           then i ← pinpoint_get_per_thread_id; r ← f i; _ ← pinpoint_update_per_thread_id r; mret r
           else f (default (-1) id)); mret (Py_int r))
    (fun ret p' => ret <> Py_NULL /\ ready a p') (fun _ _ => False) p.
Proof.
  intros Hid Hf Hfix. wps. case_if.
  - apply wp_here. eapply wp_mono; [by apply Hf| |done]. intros r p' [Hr Hgo]. wps. by split_and!.
  - pose proof (Hf _ Hid) as W. pose proof (Hfix (default (-1) id) p) as E. unfold wp in W |- *.
    destruct (f (default (-1) id) p) as [[]]; try done. cbn in *. destruct W as [_ Hgo]. split; [done|].
    split; [done|by rewrite E].
Qed.

Lemma flush_safe timeout id : id_given id ->
  wp (py_force_flush_span (Some (timeout, id))) (fun ret p' => ret <> Py_NULL /\ ready a p') (fun _ _ => False) p.
Proof.
  intros Hid. unfold py_force_flush_span, with_args. wps. apply wp_given_id.
  set (i := if default (-1) id =? -1 then per_thread_current_id p else default (-1) id). wps.
  pose proof (exec_ready T a (force_end_trace i (default 3 timeout)) p ltac:(done) Hs Hi (id_range id Hid) Hsm) as W.
  eapply wp_mono; [exact W| |done]. intros ret p1 [(T1 & a1 & Hs1 & Hsa) Hi1]. pose proof (serving_goes_on _ _ _ Hs1) as Hg1.
  assert (ready a p1) as Hrd by (split; [by exists T1, a1|done]).
  case_if; [by wps|]. unfold pinpoint_get_per_thread_id, pinpoint_update_per_thread_id. wps. wps. wps.
  case_if; [|wps; wps; wps; by wps]. wps.
  pose proof (exec_quiet T1 a1 (trace_is_root (per_thread_current_id p1)) p1 Hs1 Hi1 I) as Wq.
  pose proof (exec_thread_view (trace_is_root (per_thread_current_id p1)) ltac:(done) p1) as Hv. cbn [exec] in *.
  unfold wp in Wq. unfold wp at 1. destruct (pinpoint_trace_is_root _ p1) as [[b| | |] p2]; try done.
  injection Hv as _ Hv. cbn in Hv. assert (goes_on a p2) as Hg2.
  { destruct Wq as (a2 & Hs2 & Hsa2). exists T1, a2. split; [done|by eapply same_agent_trans]. }
  wps. wps. destruct (b =? -1); wps; wps; (split; [done|]); (split; [done|]); [done|by rewrite Hv].
Qed.

Ltac one c :=
  apply (one_call _ _ c); [done|intros ? ? W; first [exact W|by apply wp_of_result in W]|try done|done|
    intros x; unfold Py_bool; repeat case_match; by eexists].

Lemma py_exec_safe c : py_call_ok c ->
  wp (py_exec c) (fun ret p' => (ret = Py_NULL <-> parsed c = false) /\ ready a p') (fun _ _ => False) p.
Proof.
  intros Hok. assert (ready a p) as Hrd by (split; [by eapply serving_goes_on|done]).
  assert (forall (m : M Process PyObject), wp m (fun ret p' => ret <> Py_NULL /\ ready a p') (fun _ _ => False) p ->
    wp m (fun ret p' => (ret = Py_NULL <-> true = false) /\ ready a p') (fun _ _ => False) p) as Hnn.
  { intros m W. eapply wp_mono; [exact W| |done]. intros ret p' [Hn Hr]. by split. }
  destruct c as [[id|]|[id|]| |[id|]|[id|]|[id|]| |[[[[key value] id] loc]|]|[[[[key value] id] loc]|]|[[[key value] id]|]|[[key id]|]|[id|]
    |[[[id aid] seq]|]|[ts|]|[[timeout id]|]|[[[[msg file] line] id]|]|[[msg id]|]|[[[host limit] timeout]|]]; cbn [parsed]; rewrite ?bool_decide_eq_true_2, ?bool_decide_eq_false_2 by (by eauto || by intros [? ?]);
    try (cbn; by split); apply Hnn; cbn [py_exec py_call_ok] in *.
  - apply (thread_call pinpoint_start_trace id Hok); [|apply fixes_start_trace]. intros i Hr. by eapply start_trace_result.
  - apply (thread_call pinpoint_end_trace id Hok); [|apply fixes_end_trace]. intros i Hr. by eapply end_trace_result.
  - unfold py_generate_unique_id. wps. eapply wp_mono; [by apply (exec_ready T a unique_id p)|by intros; wps|done].
  - one trace_is_root.
  - one trace_is_root.
  - one (fun i => change_status i E_TRACE_BLOCK).
  - unfold py_pinpoint_start_time. wps. eapply wp_mono; [by apply (exec_ready T a start_time p)|by intros; wps|done].
  - one (fun i => add_clues i (Some key) value (default 0 loc)).
  - one (fun i => add_clue i (Some key) value (default 0 loc)).
  - one (fun i => set_context_key i key value).
  - one (fun i => get_context_key i key (Some (replicate 1024 Byte.x00)) 1024).
    intros i Hr. split; [done|]. by intros buf [= <-].
  - one get_sequence_id.
  - unfold py_pinpoint_set_async_ctx. cbn [with_args]. wps.
    pose proof (exec_ready T a (set_async_ctx id aid seq) p ltac:(done) Hs Hi Hok Hsm) as W. apply wp_of_result in W.
    eapply wp_mono; [exact W|by intros; wps|done].
  - unfold py_check_trace_limit. cbn [with_args]. wps.
    eapply wp_mono; [by apply (exec_ready T a (check_limit (default (-1) ts)) p)| |done].
    intros r p' H. wps. split; [|done]. unfold Py_bool. by case_match.
  - by apply flush_safe.
  - one (fun i => record_error i msg file (u32 line)).
  - one (fun i => add_exception i msg).
  - unfold py_set_agent, pinpoint_set_agent. cbn [with_args]. destruct Hs as (_ & Ea & _). wps. wps. wps. rewrite Ea. wps. by wps.
Qed.

End safe.

(** C21: every function of the module is safe.  Whatever Python passes, a call on a
    working agent comes back, without an exception of the C++ code; it answers NULL exactly
    when the arguments could not be parsed, and agent, forest and the thread's current id
    are fit for the next call. *)
Theorem py_call_safe T a c p :
  serving T no_refs a p -> in_i32 (per_thread_current_id p) -> py_call_ok c -> all_sendable T p ->
  wp (py_exec c)
    (fun ret p' => (ret = Py_NULL <-> parsed c = false) /\ (exists T', still_serving T' no_refs a p')
       /\ in_i32 (per_thread_current_id p'))
    (fun _ _ => False) p.
Proof. intros Hs Hi Hok Hsm. exact (py_exec_safe T a p Hs Hi Hsm c Hok). Qed.

(** ** Witnesses *)

Lemma py_call_safe_witness :
  wp (py_exec (py_end_trace (Some (Some 128))))
    (fun ret p' => (ret = Py_NULL <-> parsed (py_end_trace (Some (Some 128))) = false)
       /\ (exists T', still_serving T' no_refs demo_agent p') /\ in_i32 (per_thread_current_id p'))
    (fun _ _ => False) proc2.
Proof.
  apply (py_call_safe {[128 := [127]]} demo_agent (py_end_trace (Some (Some 128))) proc2).
  - apply proc2_serving.
  - vm_compute. split; congruence.
  - cbn. vm_compute. split; congruence.
  - apply proc2_all_sendable.
Defined.

(** A thread inside the trace of [proc2], at its event. *)
Definition proc3 : Process := set_current proc2 127.

Lemma proc3_tracks : tracks demo_agent {[128 := [127]]} (Open [127; 128]) proc3.
Proof.
  split_and!.
  - apply serving_still. exact proc2_serving.
  - done.
  - exists 128, [127]. split; [done|]. split_and!; [by left|vm_compute; reflexivity|done].
Qed.

Lemma force_flush_resets_thread_witness :
  wp (py_force_flush_span (Some (None, Some 128)))
    (fun ret p' => ret = Py_True /\ tracks demo_agent (delete 128 {[128 := [127]]}) (after_flush (Open [127; 128]) 128 [127]) p'
       \/ ret = Py_False /\ tracks demo_agent {[128 := [127]]} (Open [127; 128]) p'
          /\ exists a' e, _agentPtr proc3 = Some a' /\ force_end_threw {[128 := [127]]} a' 3 128 [127] e proc3 p')
    (fun _ _ => False) proc3.
Proof.
  apply (force_flush_resets_thread demo_agent {[128 := [127]]} (Open [127; 128]) proc3 128 [127] 128 None).
  - apply proc3_tracks.
  - vm_compute. reflexivity.
  - by left.
  - apply proc2_sendable.
Defined.

Lemma proc0_small T : inv T None no_refs (store proc0) -> all_sendable T proc0.
Proof. exact (empty_sendable proc0 T (proj1 proc0_serving)). Qed.

Lemma unmatched_end_loses_thread_witness :
  wp (python_run [End_])
    (fun rs p' => rs = [-1] /\ tracks demo_agent ∅ Lost p') (fun _ _ => False) proc0.
Proof.
  apply (unmatched_end_loses_thread [] demo_agent ∅ proc0).
  - apply proc0_tracks.
  - split; [exact proc0_small|done].
Defined.

Lemma thread_local_is_stack_witness :
  wp (python_run [Start])
    (fun rs p' => exists T' st', steps ∅ (Open []) [Start] rs T' st' /\ tracks demo_agent T' st' p') (fun _ _ => False) proc0.
Proof.
  apply (thread_local_is_stack [Start] demo_agent ∅ (Open []) proc0).
  - apply proc0_tracks.
  - split; [exact proc0_small|done].
Defined.

End Python.
