(* ===== verification/Php.v ===== *)
(** * The PHP extension: traces (pinpoint_php.cpp)

    The functions the extension adds to PHP, as compiled for PHP 7 and later.  What
    [zend_parse_parameters] stored is the argument: an optional number is [None] when it
    was not given or not accepted, and the variable then keeps its initial value; [None]
    for a whole list of required arguments is the result [FAILURE].  A PHP string may hold
    NUL bytes; the C interface sees it up to the first one. *)
From Stdlib Require Import ZArith Lia.
From Stdlib Require Strings.Byte.
From S2P Require Import Prelude Sockets TransLayer ConnPool State Json Double JsonWriter CLib TraceNode PoolManager.
From S2P Require Import Forest Agent Api Frame Tracing Sending Service ThreadLocal.

Module Php.
Import Net Json Node Pool Forest Agent Api Frame Tracing Sending Service ThreadLocal.

(** ** Values *)

(** What a function leaves in [return_value]; [IS_NULL] when it returns without setting it. *)
Inductive retval :=
| IS_NULL
| IS_FALSE
| IS_TRUE
| IS_LONG (z : Z)
| IS_DOUBLE (d : Double.double)
| IS_STRING (s : list byte).

(** [static_cast<double>] of an integer, and back; leaving [int64_t] is undefined. *)
Definition double_of_int (z : Z) : Double.double :=
  if z =? 0 then Double.mkDouble false 0 0
  else let '(m, e) := Double.nearest (Z.abs z) 1 in Double.mkDouble (z <? 0) m e.

Definition int64_of_double (d : Double.double) : outcome Z :=
  let a := if 0 <=? Double.expo d then Double.mant d * 2 ^ Double.expo d else Double.mant d / 2 ^ (- Double.expo d) in
  let z := if Double.sign d then - a else a in
  if (- 2 ^ 63 <=? z) && (z <? 2 ^ 63) then Ok z else UB.

(** [timestamp == -1] *)
Definition is_minus_one (d : Double.double) : bool :=
  Double.sign d && (if 0 <=? Double.expo d then Double.mant d * 2 ^ Double.expo d =? 1
                    else Double.mant d =? 2 ^ (- Double.expo d)).

(** [_id == -1] selects the current id of the thread; other numbers are cut to 32 bits. *)
Definition node_id (_id : option Z) : M Process Z :=
  if default (-1) _id =? -1 then pinpoint_get_per_thread_id else mret (i32 (default (-1) _id)).

(** ** Functions *)

Definition _pinpoint_drop_trace (_id : option Z) : M Process retval :=
  id ← node_id _id; _ ← change_trace_status id E_TRACE_BLOCK; mret IS_TRUE.

Definition _pinpoint_get_trace_depth (_id : option Z) : M Process retval :=
  id ← node_id _id; d ← pinpoint_get_depth id; mret (IS_LONG d).

(** [zvalue] is [None] when it is no string. *)
Definition _pinpoint_set_context (args : option (list byte * option (list byte) * option Z)) : M Process retval :=
  match args with
  | None => mret IS_NULL
  | Some (zkey, zvalue, _id) =>
      id ← node_id _id;
      match zvalue with
      | Some value => _ ← pinpoint_set_context_key id (c_str zkey) (c_str value); mret IS_TRUE
      | None => mret IS_NULL
      end
  end.

Definition _pinpoint_get_context (args : option (list byte * option Z)) : M Process retval :=
  match args with
  | None => mret IS_NULL
  | Some (zkey, _id) =>
      id ← node_id _id;
      '(len, value) ← pinpoint_get_context_key id (c_str zkey) (Some (replicate 1024 Byte.x00)) 1024;
      if 0 <? len then mret (IS_STRING (ztake len (default [] value))) else mret IS_FALSE
  end.

Definition _pinpoint_start_time : M Process retval := t ← pinpoint_start_time; mret (IS_DOUBLE (double_of_int t)).

Definition _pinpoint_start_trace (_id : option Z) : M Process retval :=
  if default (-1) _id =? -1 then
    id ← pinpoint_get_per_thread_id;
    cur_id ← pinpoint_start_trace id;
    _ ← pinpoint_update_per_thread_id cur_id;
    mret (IS_LONG cur_id)
  else
    cur_id ← pinpoint_start_trace (i32 (default (-1) _id));
    mret (IS_LONG cur_id).

Definition _pinpoint_end_trace (_id : option Z) : M Process retval :=
  if default (-1) _id =? -1 then
    id ← pinpoint_get_per_thread_id;
    cur_id ← pinpoint_end_trace id;
    _ ← pinpoint_update_per_thread_id cur_id;
    mret (IS_LONG cur_id)
  else
    cur_id ← pinpoint_end_trace (i32 (default (-1) _id));
    mret (IS_LONG cur_id).

(** The engine's error callback; [error_reporting] is the mask in force.  The old callback
    is called afterwards, in the engine. *)
Definition apm_error_cb (error_reporting type : Z) (error_filename : list byte) (error_lineno : Z) (msg : list byte)
  : M Process unit :=
  if negb (Z.land error_reporting type =? 0) then
    id ← pinpoint_get_per_thread_id; catch_error id (c_str msg) (c_str error_filename) error_lineno
  else mret tt.

Definition _pinpoint_add_clue (args : option (list byte * list byte * option Z * option Z)) : M Process retval :=
  match args with
  | None => mret IS_NULL
  | Some (key, value, _id, _flag) =>
      id ← node_id _id;
      _ ← pinpoint_add_clue id (Some (c_str key)) (c_str value) (i32 (default E_LOC_CURRENT _flag));
      mret IS_NULL
  end.

Definition _pinpoint_add_clues (args : option (list byte * list byte * option Z * option Z)) : M Process retval :=
  match args with
  | None => mret IS_NULL
  | Some (key, value, _id, _flag) =>
      id ← node_id _id;
      _ ← pinpoint_add_clues id (Some (c_str key)) (c_str value) (i32 (default E_LOC_CURRENT _flag));
      mret IS_NULL
  end.

Definition _pinpoint_unique_id : M Process retval := i ← generate_unique_id; mret (IS_DOUBLE (double_of_int i)).

Definition _pinpoint_mark_as_error (args : option (list byte * list byte * option Z * option Z)) : M Process retval :=
  match args with
  | None => mret IS_NULL
  | Some (msg, fileName, _lineno, _id) =>
      id ← node_id _id;
      _ ← catch_error id (c_str msg) (c_str fileName) (u32 (default 0 _lineno));
      mret IS_NULL
  end.

Definition _pinpoint_trace_limit (timestamp : option Double.double) : M Process retval :=
  let timestamp := default (double_of_int (-1)) timestamp in
  timestamp_64 ← (if is_minus_one timestamp
                  then (fun p => let '(now, e) := sys_time (os p) in (Ok now, set_os p e))
                  else lift (int64_of_double timestamp));
  r ← check_trace_limit timestamp_64;
  mret (if r =? 1 then IS_TRUE else IS_FALSE).

Definition _pinpoint_get_sequence_id (_id : option Z) : M Process retval :=
  id ← node_id _id; sequence ← pinpoint_get_sequence_id id; mret (IS_LONG sequence).

Definition _pinpoint_set_async_ctx (_id async_node_id node_sequence : option Z) : M Process retval :=
  id ← node_id _id;
  _ ← pinpoint_set_async_ctx id (i32 (default (-1) async_node_id)) (i32 (default (-1) node_sequence));
  mret IS_NULL.

(** ** The function table *)

(** The functions that work on traces, and the error callback; the function table also has
    [_pinpoint_join_cut], [pinpoint_get_this] and [pinpoint_get_caller_arg] (Interceptors.v)
    and [pinpoint_status], which prints the text of [PoolManager.Status]. *)
Inductive php_call :=
| php_drop_trace (_id : option Z)
| php_get_trace_depth (_id : option Z)
| php_set_context (args : option (list byte * option (list byte) * option Z))
| php_get_context (args : option (list byte * option Z))
| php_start_time
| php_start_trace (_id : option Z)
| php_end_trace (_id : option Z)
| php_error (error_reporting type : Z) (error_filename : list byte) (error_lineno : Z) (msg : list byte)
| php_add_clue (args : option (list byte * list byte * option Z * option Z))
| php_add_clues (args : option (list byte * list byte * option Z * option Z))
| php_unique_id
| php_mark_as_error (args : option (list byte * list byte * option Z * option Z))
| php_trace_limit (timestamp : option Double.double)
| php_get_sequence_id (_id : option Z)
| php_set_async_ctx (_id async_node_id node_sequence : option Z).

Definition php_exec (c : php_call) : M Process retval :=
  match c with
  | php_drop_trace _id => _pinpoint_drop_trace _id
  | php_get_trace_depth _id => _pinpoint_get_trace_depth _id
  | php_set_context args => _pinpoint_set_context args
  | php_get_context args => _pinpoint_get_context args
  | php_start_time => _pinpoint_start_time
  | php_start_trace _id => _pinpoint_start_trace _id
  | php_end_trace _id => _pinpoint_end_trace _id
  | php_error mask type file line msg => _ ← apm_error_cb mask type file line msg; mret IS_NULL
  | php_add_clue args => _pinpoint_add_clue args
  | php_add_clues args => _pinpoint_add_clues args
  | php_unique_id => _pinpoint_unique_id
  | php_mark_as_error args => _pinpoint_mark_as_error args
  | php_trace_limit timestamp => _pinpoint_trace_limit timestamp
  | php_get_sequence_id _id => _pinpoint_get_sequence_id _id
  | php_set_async_ctx _id async_node_id node_sequence => _pinpoint_set_async_ctx _id async_node_id node_sequence
  end.

(** A timestamp that a 64-bit integer can hold; every other argument is acceptable. *)
Definition php_call_ok (c : php_call) : Prop :=
  match c with
  | php_trace_limit (Some d) => is_minus_one d = true \/ exists z, int64_of_double d = Ok z
  | _ => True
  end.

(** ** The module *)

(** The part of [PHP_MINIT_FUNCTION] that concerns the agent. *)
Definition minit_agent (co_host : string) (w_timeout_ms tracelimit : Z) : M Process bool :=
  pinpoint_set_agent co_host w_timeout_ms tracelimit 1500.

(** The loop of [PHP_RSHUTDOWN_FUNCTION]; a parent starts before its children, so one
    round for each node of the pool is enough. *)
Fixpoint shutdown_loop (fuel : nat) (_parent_id : Z) : M Process unit :=
  match fuel with
  | O => lift OutOfFuel
  | S fuel' =>
      if E_ROOT_NODE <? _parent_id then
        next ← pinpoint_end_trace _parent_id; shutdown_loop fuel' next
      else mret tt
  end.

Definition rshutdown_traces : M Process unit :=
  _parent_id ← pinpoint_get_per_thread_id;
  p ← get;
  _ ← shutdown_loop (S (S (length (nodes (pool (store p)))))) _parent_id;
  pinpoint_update_per_thread_id E_ROOT_NODE.

(** A request that leaves a trace with two open events behind. *)
Example shutdown_demo :
  let '(r, p) := (_ ← minit_agent "tcp:127.0.0.1:9999" 0 10;
                  a ← _pinpoint_start_trace None; b ← _pinpoint_start_trace None; c ← _pinpoint_start_trace None;
                  x ← _pinpoint_set_context (Some (bs "k", Some (bs "v"), None)); y ← _pinpoint_get_context (Some (bs "k", Some 128));
                  _ ← rshutdown_traces;
                  mret [a; b; c; x; y]) fresh in
  (r, per_thread_current_id p, NoNodesLeak (pool (store p)))
  = (Ok [IS_LONG 128; IS_LONG 127; IS_LONG 126; IS_TRUE; IS_STRING (bs "v")], 0, true).
Proof. vm_compute. reflexivity. Qed.

(** ** Thread-local traces *)

Definition long_of (r : retval) : Z := match r with IS_LONG z => z | _ => 0 end.

Lemma wp_long (f : Z -> M Process Z) Q p :
  wp (id ← pinpoint_get_per_thread_id; r ← f id; _ ← pinpoint_update_per_thread_id r; mret r) Q (fun _ _ => False) p ->
  wp (x ← (id ← pinpoint_get_per_thread_id; r ← f id; _ ← pinpoint_update_per_thread_id r; mret (IS_LONG r));
      mret (long_of x)) Q (fun _ _ => False) p.
Proof.
  unfold wp, mbind, M_bind, pinpoint_get_per_thread_id, pinpoint_update_per_thread_id, gets, modify.
  by destruct (f (per_thread_current_id p) p) as [[]].
Qed.

#[export] Program Instance php_tracer : Tracer := {
  tracer_start := r ← _pinpoint_start_trace None; mret (long_of r);
  tracer_end := r ← _pinpoint_end_trace None; mret (long_of r)
}.
Next Obligation. intros a T st p H. apply (wp_long pinpoint_start_trace). by apply start_here_refines. Qed.
Next Obligation. intros a T st p H Hs. apply (wp_long pinpoint_end_trace). by apply end_here_refines. Qed.

Definition php_run : list op -> M Process (list Z) := @run_local php_tracer.
Definition php_run_ok : list op -> Process -> Prop := @run_local_ok php_tracer.

(** C12: balanced calls nest.  After a balanced sequence of starts and ends without ids in
    which no call failed, the thread is at the node where it was; outside any trace the
    forest is exactly what it was, and inside one its trace has gained events at its end and
    nothing else has changed. *)
Theorem balanced_calls_restore ops a T st p : balanced ops -> tracks a T st p -> php_run_ok ops p ->
  wp (php_run ops)
    (fun rs p' => Forall (fun r => r <> E_INVALID_NODE) rs -> exists T', tracks a T' st p' /\ grown T st T')
    (fun _ _ => False) p.
Proof. apply run_balanced. Qed.

(** ** The end of a request *)

Lemma shutdown_loop_spec T a r cs : T !! r = Some cs ->
  forall fuel j id p, (j + 2 <= fuel)%nat -> (r :: cs) !! j = Some id ->
  serving T no_refs a p -> sendable (store p) r cs ->
  wp (shutdown_loop fuel id) (fun _ p' => force_ended T a 0 r cs p p'
       \/ still_serving T no_refs a p' /\ exists e, force_end_threw T a 0 r cs e p p') (fun _ _ => False) p.
Proof.
  intros Ht. induction fuel as [|fuel IH]; intros j id p Hf Hj Hs Hsm; [lia|]. cbn [shutdown_loop].
  pose proof Hs as (Hinv & Ea & _). destruct (inv_trees _ _ _ _ Hinv r cs Ht) as [_ Hfa]. rewrite Forall_forall in Hfa.
  destruct (Hfa id ltac:(by eapply list_elem_of_lookup_2)) as [Hid _].
  rewrite (proj2 (Z.ltb_lt E_ROOT_NODE id)) by (unfold E_ROOT_NODE; lia). wps. eapply wp_guarded; [done|].
  assert (forall (Q : Process -> Prop) ret p', ret <= 0 -> Q p' ->
    wp (shutdown_loop fuel ret) (fun _ p' => Q p') (fun _ _ => False) p') as Hstop.
  { intros Q ret p' Hr Hp'. destruct fuel as [|fuel]; [lia|]. cbn [shutdown_loop].
    rewrite (proj2 (Z.ltb_ge E_ROOT_NODE ret)) by (unfold E_ROOT_NODE; lia). by wps. }
  destruct j as [|i]; cbn in Hj.
  - injection Hj as <-. pose proof (events_ended_refl T a r cs p Hs) as Hrefl.
    eapply wp_mono; [by eapply EndTrace_root_spec|..].
    + intros ret p' (-> & Hend). apply (Hstop (fun p' => _)); [done|]. left. by exists p.
    + intros e p' [Hss Hth]. apply (Hstop (fun p' => _)); [done|]. right. split; [done|]. by exists e, p.
  - eapply wp_mono; [by eapply EndTrace_event_spec| |done]. intros ret p1 (Hret & _ & Hs1 & Hset & Hrs & Hos & Hhd).
    assert (events_ended T a r cs p p1) as Hee by (by split_and!).
    destruct (earlier_position _ _ _ _ Hret) as (j' & Hj' & Ej').
    eapply wp_mono; [apply (IH j'); [lia|done|done|by eapply settles_sendable]| |done].
    intros [] p' [(p0 & Hee0 & Hend)|(Hss & e & p0 & Hee0 & Hth)]; [left|right; split; [done|exists e]];
      exists p0; (split; [by eapply events_ended_trans|done]).
Qed.

(** C22: at the end of a request the thread leaves its trace.  Whatever the script left
    open, the loop ends after at most one round for each node of the pool and the thread is
    outside any trace.  If its current id was in a trace, that trace and no other is gone from
    the forest, its open events and its root having been ended (span sent as [EndTrace] says);
    it stays in the pool only if ending its root threw, for one of the causes [end_threw]
    names.  If its current id was in no trace, the forest is as before. *)
Theorem rshutdown_ends_request T a p :
  serving T no_refs a p -> in_i32 (per_thread_current_id p) -> all_sendable T p ->
  wp rshutdown_traces
    (fun _ p' => exists T', tracks a T' (Open []) p'
       /\ ((~ in_forest T (per_thread_current_id p) /\ T' = T)
           \/ exists r cs, T !! r = Some cs /\ per_thread_current_id p ∈ r :: cs
              /\ (T' = delete r T /\ force_ended T a 0 r cs p p'
                  \/ T' = T /\ exists e, force_end_threw T a 0 r cs e p p')))
    (fun _ _ => False) p.
Proof.
  intros Hs Hi Hsm. pose proof Hs as (Hinv & Ea & _). set (id := per_thread_current_id p) in *.
  unfold rshutdown_traces, pinpoint_get_per_thread_id, pinpoint_update_per_thread_id. wps. wps. wps. wps. wps. fold id.
  assert (forall T' p', still_serving T' no_refs a p' -> tracks a T' (Open []) (set_current p' E_ROOT_NODE)) as Hend.
  { intros T' p' H. by apply (tracks_current _ _ (Open [])). }
  destruct (decide (alive (pool (store p)) id)) as [Hal|Hd].
  - destruct (alive_position _ _ _ _ Hinv Hal) as (r & cs & j & Ht & Hj).
    destruct (inv_trees _ _ _ _ Hinv r cs Ht) as [Hnd Hf].
    pose proof (alive_count _ _ (inv_alloc _ _ _ _ Hinv) Hnd Hf) as Hc.
    rewrite (a_max _ (inv_alloc _ _ _ _ Hinv)) in Hc. unfold zlen in Hc. pose proof (lookup_lt_Some _ _ _ Hj).
    eapply wp_mono; [apply (shutdown_loop_spec T a r cs Ht _ j id p); [lia|done|done|by apply Hsm]| |done].
    pose proof (list_elem_of_lookup_2 _ _ _ Hj) as Hin. intros [] p' [Hfe|[Hss Hth]]; wps.
    + exists (delete r T). split; [apply Hend; exact (proj1 (force_ended_alive _ _ _ _ _ _ _ Hinv Hfe))|].
      right. exists r, cs. split_and!; [done..|]. by left.
    + exists T. split; [by apply Hend|]. right. exists r, cs. split_and!; [done..|]. by right.
  - assert (wp (shutdown_loop (S (S (length (nodes (pool (store p)))))) id) (fun _ p' => p' = p) (fun _ _ => False) p) as W.
    { cbn [shutdown_loop]. case_if; [|by wps]. wps. eapply wp_guarded; [done|]. unfold wp at 1.
      rewrite (EndTrace_dead T p a id 0 Hs Hi Hd). change (E_ROOT_NODE <? E_INVALID_NODE) with false. cbv iota. by wps. }
    eapply wp_mono; [exact W| |done]. intros [] p' ->. wps. exists T. split; [apply Hend; by apply serving_still|].
    left. split; [|done]. intros Hf. apply Hd, (inv_alive _ _ _ _ id Hinv). by left.
Qed.

(** ** Contexts *)

Lemma node_id_given id p : in_i32 id -> id <> -1 -> node_id (Some id) p = (Ok id, p).
Proof.
  intros Hi Hn. unfold node_id. change (default (-1) (Some id)) with id. rewrite (proj2 (Z.eqb_neq _ _)) by done.
  by rewrite i32_small.
Qed.

Lemma guarded_store_run {A} (failed : A) m p a x s : _agentPtr p = Some a -> m (store p) = (Ok x, s) ->
  guarded failed (on_store m) p = (Ok x, set_store p s).
Proof. intros Ea E. unfold guarded, try, on_store. by rewrite bind_get, Ea, E. Qed.

Lemma prefix_of_buffer v rest : Byte.x00 ∉ v -> zlen v < 1024 ->
  ztake (zlen v) (take (Z.to_nat 1024) (c_str v ++ replicate (Z.to_nat 1024) Byte.x00) ++ rest) = v.
Proof.
  intros Hn Hl. rewrite CLib.c_str_id by done. unfold ztake, zlen in *. rewrite Nat2Z.id.
  rewrite take_app_le by (rewrite length_take, length_app, length_replicate; lia).
  rewrite take_take, Nat.min_l by lia. apply take_app_length.
Qed.

(** C23: contexts round-trip.  A string stored under a key from any node of a trace is
    read back from any node of the same trace: the text up to its first NUL, if that is not
    empty and shorter than the 1024 bytes of the buffer, and False otherwise; and reading
    changes nothing. *)
Theorem php_context_roundtrip T a p r cs id id' key value :
  serving T no_refs a p -> T !! r = Some cs -> id ∈ r :: cs -> id' ∈ r :: cs -> zlen value < 2 ^ 31 ->
  exists p', _pinpoint_set_context (Some (key, Some value, Some id)) p = (Ok IS_TRUE, p')
    /\ serving T no_refs a p'
    /\ _pinpoint_get_context (Some (key, Some id')) p'
       = (Ok (if (0 <? zlen (c_str value)) && (zlen (c_str value) <? 1024) then IS_STRING (c_str value) else IS_FALSE), p').
Proof.
  intros Hs Ht Hin Hin' Hlen. pose proof Hs as (Hinv & Ea & _).
  destruct (inv_root _ _ _ _ _ _ Hinv Ht) as (nr & Enr & _).
  destruct (member_ok _ _ _ _ Hinv Ht id Hin) as [[Hr _] Hi], (member_ok _ _ _ _ Hinv Ht id' Hin') as [[Hr' _] Hi'].
  set (v := c_str value). set (k := c_str key). set (s1 := set_pool (store p) (upd (pool (store p)) (r - 1) (setContext nr k v))).
  pose proof (AddTraceContext_run _ _ _ _ _ Hinv Ht Enr id k v Hin) as Eadd. fold s1 in Eadd.
  pose proof (AddTraceContext_inv _ _ _ _ _ Hinv Ht Enr id k v Hin) as Hinv1. fold s1 in Hinv1.
  assert (node (pool s1) (r - 1) = Some (setContext nr k v)) as Enr1 by (by eapply node_upd_eq).
  assert (zlen v <= zlen value) as Hv.
  { unfold v, CLib.c_str. destruct (CLib.split_at Byte.x00 value) as [[u w]|] eqn:E; [|lia].
    apply CLib.split_at_spec in E as [-> _]. rewrite zlen_app. pose proof (zlen_nonneg (Byte.x00 :: w)). lia. }
  assert (i32 (zlen v) = zlen v) as Ev by (apply i32_small; pose proof (zlen_nonneg v); word).
  pose proof (GetTraceContext_run _ _ _ _ _ Hinv1 Ht Enr1 id' k (replicate 1024 Byte.x00) 1024 Hin' ltac:(done)) as Eget.
  assert (getContext (setContext nr k v) k = Ok v) as Eg.
  { unfold getContext, setContext. cbn. by rewrite lookup_insert_eq. }
  rewrite Eg in Eget. cbn [mbind outcome_bind] in Eget. rewrite Ev in Eget.
  exists (set_store p s1). split_and!.
  - unfold _pinpoint_set_context. rewrite (bind_run _ _ _ _ _ (node_id_given id p Hi ltac:(lia))).
    unfold pinpoint_set_context_key. by rewrite (bind_run _ _ _ _ _ (guarded_store_run tt _ p a _ _ Ea Eadd)).
  - by eapply serving_store.
  - unfold _pinpoint_get_context. rewrite (bind_run _ _ _ _ _ (node_id_given id' _ Hi' ltac:(lia))).
    unfold pinpoint_get_context_key. fold k.
    destruct (Z.ltb_spec (zlen v) 1024) as [Hlt|Hge];
      erewrite bind_run by (eapply (guarded_store_run _ _ (set_store p s1) a); [exact Ea|exact Eget]); cbn -[zlen ztake take replicate zdrop].
    + rewrite andb_true_r. destruct (0 <? zlen v); [|done]. rewrite prefix_of_buffer by (unfold v; first [apply CLib.c_str_nul|done]). done.
    + by rewrite andb_false_r.
Qed.

(** ** Every function is safe *)

Section safe.
Context (T : trees) (a : Agent) (p : Process).
Hypothesis Hs : serving T no_refs a p.
Hypothesis Hi : in_i32 (per_thread_current_id p).
Hypothesis Hsm : all_sendable T p.

Lemma wp_node_id {A} _id (f : Z -> M Process A) Q E :
  (forall i, in_i32 i -> wp (f i) Q E p) -> wp (i ← node_id _id; f i) Q E p.
Proof.
  intros Hf. unfold node_id. wps. case_if.
  - unfold pinpoint_get_per_thread_id. wps. by apply Hf.
  - wps. apply Hf. apply i32_range.
Qed.

(** One call of the C interface, then an answer. *)
Lemma one_php_call {A} (m : M Process A) c (k : A -> M Process retval) :
  (forall Q : Process -> Prop, wp (exec c) (fun _ => Q) (fun _ _ => False) p -> wp m (fun _ => Q) (fun _ _ => False) p) ->
  call_ok c -> (forall parent opts, c <> start_trace parent opts) -> (forall x, exists ret, k x = mret ret) ->
  wp (x ← m; k x) (fun _ p' => ready a p') (fun _ _ => False) p.
Proof.
  intros Hc Hok Hns Hk. pose proof (exec_ready T a c p Hns Hs Hi Hok Hsm) as W. apply Hc in W.
  wps. eapply wp_mono; [exact W| |done]. intros x p' H. destruct (Hk x) as [ret ->]. by wps.
Qed.

(** A start or an end: with an id the thread stays where it is, without one it moves to
    the answer. *)
Lemma thread_php_call (f : Z -> M Process Z) _id :
  (forall i, in_i32 i -> wp (f i) (fun r p' => in_i32 r /\ goes_on a p') (fun _ _ => False) p) ->
  (forall i, fixes per_thread_current_id (f i)) ->
  wp (if default (-1) _id =? -1
      then id ← pinpoint_get_per_thread_id; r ← f id; _ ← pinpoint_update_per_thread_id r; mret (IS_LONG r)
      else r ← f (i32 (default (-1) _id)); mret (IS_LONG r))
    (fun _ p' => ready a p') (fun _ _ => False) p.
Proof.
  intros Hf Hfix. case_if.
  - unfold pinpoint_get_per_thread_id, pinpoint_update_per_thread_id. wps. wps. wps.
    eapply wp_mono; [by apply Hf| |done]. intros r p' [Hr Hgo]. wps. wps. by wps.
  - pose proof (Hf _ (i32_range (default (-1) _id))) as W. pose proof (Hfix (i32 (default (-1) _id)) p) as E. wps.
    unfold wp in W |- *. destruct (f (i32 (default (-1) _id)) p) as [[]]; try done. cbn in *. destruct W as [_ Hgo].
    split; [done|by rewrite E].
Qed.

(** The clock leaves the agent as it is. *)
Lemma trace_limit_safe timestamp : php_call_ok (php_trace_limit timestamp) ->
  wp (_pinpoint_trace_limit timestamp) (fun _ p' => ready a p') (fun _ _ => False) p.
Proof.
  intros Hok. unfold _pinpoint_trace_limit. wps.
  assert (forall ts p', serving T no_refs a p' -> per_thread_current_id p' = per_thread_current_id p -> all_sendable T p' ->
    wp (r ← check_trace_limit ts; mret (if r =? 1 then IS_TRUE else IS_FALSE)) (fun _ p' => ready a p') (fun _ _ => False) p') as Hcheck.
  { intros ts p' Hs' Hi' Hsm'. wps. rewrite <- Hi' in Hi.
    eapply wp_mono; [by apply (exec_ready T a (check_limit ts) p')| |done]. intros r q H. by wps. }
  destruct (is_minus_one (default (double_of_int (-1)) timestamp)) eqn:Hm.
  - unfold wp, sys_time. apply (Hcheck _ (set_os p _)); [|done|done]. destruct Hs as (Hinv & Ea & [H1 H2 H3]).
    split_and!; [done|done|by split].
  - destruct timestamp as [d|]; [|by vm_compute in Hm]. change (default (double_of_int (-1)) (Some d)) with d in *.
    destruct Hok as [Hd|[z Hz]].
    + congruence.
    + unfold lift, wp. rewrite Hz. by apply Hcheck.
Qed.

Ltac one c :=
  apply (one_php_call _ c); [intros ? W; first [exact W|by apply wp_of_result in W]|try done|done|
    intros x; repeat case_match; by eexists].

Lemma php_exec_safe c : php_call_ok c -> wp (php_exec c) (fun _ p' => ready a p') (fun _ _ => False) p.
Proof.
  intros Hok. assert (ready a p) as Hrd by (split; [by eapply serving_goes_on|done]).
  destruct c as [_id|_id|[[[key value] _id]|]|[[key _id]|]| |_id|_id|mask type file line msg|[[[[key value] _id] flag]|]
    |[[[[key value] _id] flag]|]| |[[[[msg file] line] _id]|]|ts|_id|_id aid seq]; cbn [php_exec];
    unfold _pinpoint_drop_trace, _pinpoint_get_trace_depth, _pinpoint_set_context, _pinpoint_get_context,
      _pinpoint_add_clue, _pinpoint_add_clues, _pinpoint_mark_as_error, _pinpoint_get_sequence_id, _pinpoint_set_async_ctx;
    try (by wps); try (apply wp_node_id; intros i Hr).
  - one (change_status i E_TRACE_BLOCK).
  - one (get_depth i).
  - destruct value as [value|]; [|by wps]. one (set_context_key i (c_str key) (c_str value)).
  - one (get_context_key i (c_str key) (Some (replicate 1024 Byte.x00)) 1024). split; [done|]. by intros buf [= <-].
  - one start_time.
  - apply (thread_php_call pinpoint_start_trace); [|apply fixes_start_trace]. intros i Hr. by eapply start_trace_result.
  - apply (thread_php_call pinpoint_end_trace); [|apply fixes_end_trace]. intros i Hr. by eapply end_trace_result.
  - unfold apm_error_cb. case_if; [|wps; wps; by wps]. unfold pinpoint_get_per_thread_id. wps. wps. wps.
    pose proof (exec_ready T a (record_error (per_thread_current_id p) (c_str msg) (c_str file) line) p ltac:(done) Hs Hi Hi Hsm) as W.
    apply wp_of_result in W. eapply wp_mono; [exact W| |done]. intros x p' H. by wps.
  - one (add_clue i (Some (c_str key)) (c_str value) (i32 (default E_LOC_CURRENT flag))).
  - one (add_clues i (Some (c_str key)) (c_str value) (i32 (default E_LOC_CURRENT flag))).
  - one unique_id.
  - one (record_error i (c_str msg) (c_str file) (u32 (default 0 line))).
  - by apply trace_limit_safe.
  - one (get_sequence_id i).
  - one (set_async_ctx i (i32 (default (-1) aid)) (i32 (default (-1) seq))).
Qed.

End safe.

(** C35: the functions of the extension that work on traces, and the error callback, are safe.
    Whatever a script passes, but for a time stamp of [_pinpoint_trace_limit] that no 64-bit
    integer can hold, a call on a working agent whose spans are below a gigabyte comes back
    without an exception of the C++ code and without undefined behaviour, and agent, forest
    and the thread's current id are fit for the next call. *)
Theorem php_call_safe T a c p :
  serving T no_refs a p -> in_i32 (per_thread_current_id p) -> php_call_ok c -> all_sendable T p ->
  wp (php_exec c) (fun _ p' => (exists T', still_serving T' no_refs a p') /\ in_i32 (per_thread_current_id p'))
    (fun _ _ => False) p.
Proof. intros Hs Hi Hok Hsm. exact (php_exec_safe T a p Hs Hi Hsm c Hok). Qed.

(** The time stamps that are left out: the cast of [1e30] to [int64_t] is undefined. *)
Example trace_limit_cast_undefined p :
  (php_exec (php_trace_limit (Some (let '(m, e) := Double.nearest (10 ^ 30) 1 in Double.mkDouble false m e))) p).1 = UB.
Proof. vm_compute. reflexivity. Qed.

Lemma php_call_safe_witness :
  wp (php_exec (php_trace_limit (Some (double_of_int 1000))))
    (fun _ p' => (exists T', still_serving T' no_refs demo_agent p') /\ in_i32 (per_thread_current_id p'))
    (fun _ _ => False) proc2.
Proof.
  apply (php_call_safe {[128 := [127]]} demo_agent (php_trace_limit (Some (double_of_int 1000))) proc2).
  - apply proc2_serving.
  - vm_compute. split; congruence.
  - right. exists 1000. vm_compute. reflexivity.
  - apply proc2_all_sendable.
Defined.

Lemma rshutdown_ends_request_witness :
  wp rshutdown_traces
    (fun _ p' => exists T', tracks demo_agent T' (Open []) p'
       /\ ((~ in_forest {[128 := [127]]} (per_thread_current_id (set_current proc2 127)) /\ T' = {[128 := [127]]})
           \/ exists r cs, ({[128 := [127]]} : trees) !! r = Some cs
              /\ per_thread_current_id (set_current proc2 127) ∈ r :: cs
              /\ (T' = delete r {[128 := [127]]} /\ force_ended {[128 := [127]]} demo_agent 0 r cs (set_current proc2 127) p'
                  \/ T' = {[128 := [127]]}
                     /\ exists e, force_end_threw {[128 := [127]]} demo_agent 0 r cs e (set_current proc2 127) p')))
    (fun _ _ => False) (set_current proc2 127).
Proof.
  apply (rshutdown_ends_request {[128 := [127]]} demo_agent (set_current proc2 127)).
  - exact proc2_serving.
  - vm_compute. split; congruence.
  - exact proc2_all_sendable.
Defined.

Lemma php_context_roundtrip_witness :
  exists p', _pinpoint_set_context (Some (bs "key", Some (bs "value"), Some 127)) proc2 = (Ok IS_TRUE, p')
    /\ serving {[128 := [127]]} no_refs demo_agent p'
    /\ _pinpoint_get_context (Some (bs "key", Some 128)) p'
       = (Ok (if (0 <? zlen (c_str (bs "value"))) && (zlen (c_str (bs "value")) <? 1024)
              then IS_STRING (c_str (bs "value")) else IS_FALSE), p').
Proof.
  apply (php_context_roundtrip {[128 := [127]]} demo_agent proc2 128 [127] 127 128 (bs "key") (bs "value")).
  - exact proc2_serving.
  - vm_compute. reflexivity.
  - right. by left.
  - by left.
  - vm_compute. reflexivity.
Defined.

Lemma proc1_small : all_sendable {[128 := []]} proc1.
Proof.
  intros r cs [<- <-]%lookup_singleton_Some nr k evs v En Hev Hw. apply Forall2_nil_inv_l in Hev as ->.
  vm_compute in En. injection En as <-. vm_compute in Hw. injection Hw as <-. vm_compute. intuition congruence.
Qed.

Lemma balanced_calls_restore_witness :
  wp (php_run [Start; End_])
    (fun rs p' => Forall (fun r => r <> E_INVALID_NODE) rs ->
       exists T', tracks demo_agent T' (Open []) p' /\ grown ∅ (Open []) T') (fun _ _ => False) proc0.
Proof.
  apply (balanced_calls_restore [Start; End_] demo_agent ∅ (Open []) proc0).
  - exact (balanced_nest [] [] balanced_nil balanced_nil).
  - apply proc0_tracks.
  - split; [exact (fun T => empty_sendable proc0 T (proj1 proc0_serving))|]. split; [|done]. intros T HT.
    assert (store (@local_exec php_tracer Start proc0).2 = store proc1) as E by reflexivity.
    rewrite E in HT. rewrite (inv_unique _ _ _ _ _ HT (proj1 proc1_serving)). intros r cs Ht. rewrite E. by apply proc1_small.
Defined.

End Php.
