(* ===== verification/Interceptors.v ===== *)
(** * The PHP extension: interceptors (pinpoint_php.cpp)

    [_pinpoint_join_cut] puts callbacks around an internal function of PHP: it replaces the
    function's handler by [pinpoint_interceptor_handler_entry] and keeps the old one in a
    hash table of the request.  The engine is a parameter: its hash table is the class
    [HashTable] with its laws, the calls of PHP code are functions on the state.  Where
    the code branches on the version, PHP 8.2 and later is modelled. *)
From Stdlib Require Import ZArith Lia.
From Stdlib Require Strings.Byte.
From S2P Require Import Prelude Json Double CLib.

Module Interceptors.
Import Json CLib.

(** ** Values *)

(** The elements of an array are its buckets in order; a deleted one is [IS_UNDEF].  An
    [IS_REFERENCE] is not represented: the parameters of a function are values, none is
    taken by reference. *)
Inductive zval :=
| IS_UNDEF
| IS_NULL
| IS_FALSE
| IS_TRUE
| IS_LONG (z : Z)
| IS_DOUBLE (d : Double.double)
| IS_STRING (s : list byte)
| IS_ARRAY (buckets : list zval)
| IS_OBJECT (handle : nat)
| IS_RESOURCE (handle : nat).

Definition Z_TYPE_P (v : zval) : Z :=
  match v with
  | IS_UNDEF => 0 | IS_NULL => 1 | IS_FALSE => 2 | IS_TRUE => 3 | IS_LONG _ => 4
  | IS_DOUBLE _ => 5 | IS_STRING _ => 6 | IS_ARRAY _ => 7 | IS_OBJECT _ => 8 | IS_RESOURCE _ => 9
  end.

(** [zend_array_count], [zend_hash_num_elements] *)
Definition zend_array_count (buckets : list zval) : nat := length (filter (fun v => Z_TYPE_P v <> 0) buckets).

(** The loop of [zend_array_index]; [None] is the null pointer. *)
Fixpoint array_index_loop (rest : list zval) (index : nat) (ret_zval : option zval) : option zval :=
  match rest, index with
  | z :: rest', S index' => array_index_loop rest' index' (Some z)
  | _, _ => ret_zval
  end.

Definition zend_array_index (buckets : list zval) (index : nat) : option zval := array_index_loop buckets index None.

(** Reading through the pointer. *)
Definition deref (v : option zval) : outcome zval := match v with Some v => Ok v | None => UB end.

(** ** The engine *)

Inductive zif_handler :=
| native (code : nat)
| pinpoint_interceptor_handler_entry.

#[export] Instance zif_handler_eq_dec : EqDecision zif_handler.
Proof. solve_decision. Defined.

Record zend_function := mkFunction {
  internal : bool;
  handler : zif_handler;
  function_name : list byte;
  scope : option (list byte)
}.

Definition with_handler (h : zif_handler) (f : zend_function) : zend_function :=
  mkFunction (internal f) h (function_name f) (scope f).

Record pp_interceptor_v_t := mkInterceptor {
  before : zval;
  end_ : zval;
  exception : zval;
  origin : zif_handler;
  origin_func : nat;
  name : list byte
}.

(** Zend's hash tables with string keys, as far as they are used: finding, adding a key
    that is not there, and the values in the order of iteration and of destruction. *)
Class HashTable (H : Type) := {
  hash_init : H;
  str_find_ptr : H -> list byte -> option pp_interceptor_v_t;
  add_ptr : H -> list byte -> pp_interceptor_v_t -> option H;
  foreach_ptr : H -> list pp_interceptor_v_t;
  init_empty : foreach_ptr hash_init = [];
  find_in h k v : str_find_ptr h k = Some v -> v ∈ foreach_ptr h;
  add_known h k v v' : str_find_ptr h k = Some v -> add_ptr h k v' = None;
  add_unknown h k v' : str_find_ptr h k = None ->
    exists h', add_ptr h k v' = Some h' /\ foreach_ptr h' = foreach_ptr h ++ [v']
}.

(** [functions] holds every function by its address. *)
Record Engine (H : Type) := mkEngine {
  functions : gmap nat zend_function;
  function_table : gmap (list byte) nat;
  class_table : gmap (list byte) (gmap (list byte) nat);
  interceptors : option H
}.
#[global] Arguments mkEngine {H}.
#[global] Arguments functions {H}.
#[global] Arguments function_table {H}.
#[global] Arguments class_table {H}.
#[global] Arguments interceptors {H}.

Section extension.
Context {H : Type} `{HashTable H}.
(** [zend_string_tolower] and [zend_is_callable] *)
Context (zend_string_tolower : list byte -> list byte) (zend_is_callable : zval -> bool).

Definition set_functions (e : Engine H) (fs : gmap nat zend_function) : Engine H :=
  mkEngine fs (function_table e) (class_table e) (interceptors e).
Definition set_interceptors (e : Engine H) (h : option H) : Engine H :=
  mkEngine (functions e) (function_table e) (class_table e) h.

(** [func->internal_function.handler = h] *)
Definition set_handler (func : nat) (h : zif_handler) : M (Engine H) unit :=
  modify (fun e => set_functions e (alter (with_handler h) func (functions e))).

Definition read_function (func : nat) : M (Engine H) zend_function :=
  e ← get; match functions e !! func with Some f => mret f | None => undefined end.

Definition table : M (Engine H) H :=
  e ← get; match interceptors e with Some h => mret h | None => undefined end.

(** ** Registration *)

Definition merge_pp_style_name (scope : option (list byte)) (func : list byte) : list byte :=
  match scope with
  | Some s => zend_string_tolower (s ++ bs "::" ++ func)
  | None => zend_string_tolower func
  end.

Definition make_interceptor (name : list byte) (before end_ exception : zval) (func : nat)
  : M (Engine H) pp_interceptor_v_t :=
  f ← read_function func; mret (mkInterceptor before end_ exception (handler f) func name).

Definition free_interceptor (i : pp_interceptor_v_t) : M (Engine H) unit := set_handler (origin_func i) (origin i).

(** The part both kinds of interceptors share: make it, add it, hook the function. *)
Definition insert_interceptor (name : list byte) (before end_ exception : zval) (func : nat) : M (Engine H) unit :=
  interceptor ← make_interceptor name before end_ exception func;
  h ← table;
  match add_ptr h name interceptor with
  | None => free_interceptor interceptor
  | Some h' =>
      _ ← modify (fun e => set_interceptors e (Some h'));
      set_handler func pinpoint_interceptor_handler_entry
  end.

Definition add_function_interceptor (name : list byte) (before end_ exception : zval) : M (Engine H) unit :=
  e ← get;
  match function_table e !! name with
  | None => mret tt
  | Some func =>
      f ← read_function func;
      if negb (internal f) then mret tt
      else if bool_decide (handler f = pinpoint_interceptor_handler_entry) then mret tt
      else insert_interceptor name before end_ exception func
  end.

Definition add_class_method_interceptor (cls_name method : list byte) (before end_ exception : zval) : M (Engine H) unit :=
  e ← get;
  match class_table e !! cls_name with
  | None => mret tt
  | Some methods =>
      match methods !! method with
      | None => mret tt
      | Some original =>
          f ← read_function original;
          if negb (internal f) then mret tt
          else if bool_decide (handler f = pinpoint_interceptor_handler_entry) then mret tt
          else insert_interceptor (merge_pp_style_name (Some cls_name) (function_name f)) before end_ exception original
      end
  end.

Definition add_interceptor (joinable : list zval) (before end_ exception : zval) : M (Engine H) unit :=
  match zend_array_count joinable with
  | 2%nat =>
      v ← lift (deref (zend_array_index joinable 1));
      match v with
      | IS_STRING s =>
          let module_ := zend_string_tolower s in
          v ← lift (deref (zend_array_index joinable 2));
          match v with
          | IS_STRING s => add_class_method_interceptor module_ (zend_string_tolower s) before end_ exception
          | _ => mret tt
          end
      | _ => mret tt
      end
  | 1%nat =>
      v ← lift (deref (zend_array_index joinable 1));
      match v with
      | IS_STRING s => add_function_interceptor (zend_string_tolower s) before end_ exception
      | _ => mret tt
      end
  | _ => mret tt
  end.

(** [None]: the arguments were not four with an array first. *)
Definition _pinpoint_join_cut (args : option (list zval * zval * zval * zval)) : M (Engine H) zval :=
  match args with
  | None => mret IS_NULL
  | Some (joinable, before, end_, exception) =>
      if bool_decide (zend_array_count joinable = 0%nat) then mret IS_FALSE
      else if negb (zend_is_callable before) || negb (zend_is_callable end_) || negb (zend_is_callable exception)
      then mret IS_FALSE
      else _ ← add_interceptor joinable before end_ exception; mret IS_TRUE
  end.

(** ** Requests *)

(** The table of [PHP_RINIT_FUNCTION]. *)
Definition rinit : M (Engine H) unit := modify (fun e => set_interceptors e (Some hash_init)).

(** [zend_interceptor_hash_dtor] on each element. *)
Fixpoint hash_destroy (l : list pp_interceptor_v_t) : M (Engine H) unit :=
  match l with
  | [] => mret tt
  | i :: l' => _ ← free_interceptor i; hash_destroy l'
  end.

(** The interceptors' part of [PHP_RSHUTDOWN_FUNCTION]. *)
Definition rshutdown_interceptors : M (Engine H) unit :=
  e ← get;
  match interceptors e with
  | Some h => _ ← hash_destroy (foreach_ptr h); modify (fun e => set_interceptors e None)
  | None => mret tt
  end.

(** ** Finding the interceptor of a call *)

(** [func] with the class of the object it is called on, if there is one. *)
Definition get_pp_style_function_name (f : zend_function) (This : option (list byte)) : list byte :=
  match This, scope f with
  | _, Some s => merge_pp_style_name (Some s) (function_name f)
  | Some cls, None => merge_pp_style_name (Some cls) (function_name f)
  | None, None => merge_pp_style_name None (function_name f)
  end.

Definition find_interceptor (h : H) (func_name : list byte) (func : nat) : option pp_interceptor_v_t :=
  let named := str_find_ptr h func_name in
  match named with
  | Some i => if bool_decide (origin_func i = func) then Some i
              else match list_find (fun j => origin_func j = func) (foreach_ptr h) with
                   | Some (_, j) => Some j
                   | None => named
                   end
  | None => match list_find (fun j => origin_func j = func) (foreach_ptr h) with
            | Some (_, j) => Some j
            | None => None
            end
  end.

(** ** Running an intercepted call *)

(** [check_types]: the first loop of [replace_ex_caller_parameters]; [replace_loop]: the
    second.  [i] counts up from the front of the remaining parameters. *)
Fixpoint check_types (argv : list zval) (i : nat) (ex_params : list zval) : outcome bool :=
  match ex_params with
  | [] => Ok true
  | ex_param :: rest =>
      val ← deref (zend_array_index argv (i + 1));
      if negb (Z_TYPE_P ex_param =? Z_TYPE_P val) then Ok false else check_types argv (S i) rest
  end.

Fixpoint replace_loop (argv : list zval) (i : nat) (ex_params : list zval) : outcome (list zval) :=
  match ex_params with
  | [] => Ok []
  | _ :: rest =>
      val ← deref (zend_array_index argv (i + 1));
      rest' ← replace_loop argv (S i) rest;
      mret (val :: rest')
  end.

(** The parameters of the running call, after the value the callback returned. *)
Definition replace_ex_caller_parameters (argv : zval) (ex_params : list zval) : outcome (list zval) :=
  match argv with
  | IS_ARRAY buckets =>
      if (zend_array_count buckets <? length ex_params)%nat then Ok ex_params
      else
        same ← check_types buckets 0 ex_params;
        if (same : bool) then replace_loop buckets 0 ex_params else Ok ex_params
  | _ => Ok ex_params
  end.

(** ** The invariant of a request *)

(** [fs0]: the functions as they were when the request began, with handlers of their own. *)
Definition unhooked (fs0 : gmap nat zend_function) : Prop :=
  forall f fn, fs0 !! f = Some fn -> handler fn <> pinpoint_interceptor_handler_entry.

Definition hook_all (fs0 : gmap nat zend_function) (hooked : list nat) (f : nat) : option zend_function :=
  if bool_decide (f ∈ hooked) then with_handler pinpoint_interceptor_handler_entry <$> fs0 !! f else fs0 !! f.

(** Exactly the functions of the table are hooked, each once, and each entry of the table
    has the handler its function came with. *)
Record hooks_ok (fs0 : gmap nat zend_function) (e : Engine H) (h : H) : Prop := mkHooks {
  hk_table : interceptors e = Some h;
  hk_functions : forall f, functions e !! f = hook_all fs0 (origin_func <$> foreach_ptr h) f;
  hk_origin : Forall (fun i => exists fn, fs0 !! origin_func i = Some fn /\ origin i = handler fn) (foreach_ptr h);
  hk_once : NoDup (origin_func <$> foreach_ptr h)
}.

(** The tables of the engine name functions that exist. *)
Record tables_ok (e : Engine H) : Prop := mkTables {
  tb_functions : forall n f, function_table e !! n = Some f -> is_Some (functions e !! f);
  tb_classes : forall c ms n f, class_table e !! c = Some ms -> ms !! n = Some f -> is_Some (functions e !! f)
}.

Definition same_tables (e e' : Engine H) : Prop :=
  function_table e' = function_table e /\ class_table e' = class_table e
  /\ forall f, is_Some (functions e' !! f) <-> is_Some (functions e !! f).

Lemma same_tables_refl e : same_tables e e.
Proof. done. Qed.

Lemma tables_same e e' : same_tables e e' -> tables_ok e -> tables_ok e'.
Proof. intros (E1 & E2 & E3) [H1 H2]. split; setoid_rewrite E3; rewrite ?E1, ?E2; done. Qed.

(** Code that keeps a request in order. *)
Definition orderly {A} (m : M (Engine H) A) : Prop := forall fs0 e h, unhooked fs0 -> hooks_ok fs0 e h -> tables_ok e ->
  wp m (fun _ e' => exists h', hooks_ok fs0 e' h' /\ same_tables e e') (fun _ _ => False) e.

Lemma with_handler_same fn : with_handler (handler fn) fn = fn.
Proof. by destruct fn. Qed.

Lemma with_handler_twice h h' fn : with_handler h (with_handler h' fn) = with_handler h fn.
Proof. done. Qed.

Lemma not_hooked fs0 e h f fn : hooks_ok fs0 e h -> functions e !! f = Some fn ->
  handler fn <> pinpoint_interceptor_handler_entry -> (f ∉ origin_func <$> foreach_ptr h) /\ fs0 !! f = Some fn.
Proof.
  intros Hk E Hn. rewrite (hk_functions _ _ _ Hk) in E. unfold hook_all in E. case_bool_decide; [|done].
  destruct (fs0 !! f); [|done]. injection E as <-. by destruct Hn.
Qed.

(** An alter that changes nothing. *)
Lemma set_same_handler e f fn : functions e !! f = Some fn ->
  set_functions e (alter (with_handler (handler fn)) f (functions e)) = e.
Proof.
  intros E. unfold set_functions. rewrite alter_id; [by destruct e|]. intros fn' E'. rewrite E in E'. injection E' as <-.
  apply with_handler_same.
Qed.

Lemma insert_orderly fs0 e h name b en ex func fn : hooks_ok fs0 e h -> functions e !! func = Some fn ->
  handler fn <> pinpoint_interceptor_handler_entry ->
  wp (insert_interceptor name b en ex func) (fun _ e' => exists h', hooks_ok fs0 e' h' /\ same_tables e e') (fun _ _ => False) e.
Proof.
  intros Hk E Hn. destruct (not_hooked _ _ _ _ _ Hk E Hn) as [Hnew E0]. pose proof (hk_table _ _ _ Hk) as Et.
  unfold insert_interceptor, make_interceptor, read_function, table. wps. wps. wps. wps. rewrite E. wps. wps.
  wps. wps. wps. rewrite Et. wps. set (i := mkInterceptor _ _ _ _ _ _).
  destruct (str_find_ptr h name) as [j|] eqn:Ef.
  - rewrite (add_known h name j i Ef). unfold free_interceptor, set_handler. wps. cbn [origin origin_func i].
    rewrite (set_same_handler _ _ _ E). by exists h.
  - destruct (add_unknown h name i Ef) as (h' & -> & Efe). wps. wps. unfold set_handler. wps. exists h'. split.
    + split; cbn [interceptors functions set_functions set_interceptors]; rewrite ?Efe; [done|..].
      * intros f. rewrite fmap_app. cbn [fmap list_fmap origin_func i]. unfold hook_all.
        destruct (decide (f = func)) as [->|Hne].
        -- rewrite lookup_alter_eq, E, bool_decide_eq_true_2 by (apply elem_of_app; right; by left). by rewrite E0.
        -- rewrite lookup_alter_ne by done. rewrite (hk_functions _ _ _ Hk). unfold hook_all.
           assert (f ∈ (origin_func <$> foreach_ptr h) ++ [func] <-> f ∈ origin_func <$> foreach_ptr h) as Eiff.
           { rewrite elem_of_app, list_elem_of_singleton. split; [by intros [? | ->]|by left]. }
           by rewrite (bool_decide_ext _ _ Eiff).
      * apply Forall_app. split; [apply Hk|]. apply Forall_singleton. by exists fn.
      * rewrite fmap_app. cbn [fmap list_fmap origin_func i]. apply NoDup_app. split_and!; [apply Hk| |apply NoDup_singleton].
        intros f Hf. rewrite list_elem_of_singleton. by intros ->.
    + split_and!; [done..|]. intros f. cbn. destruct (decide (f = func)) as [->|Hne].
      * rewrite lookup_alter_eq, E. split; by eexists.
      * by rewrite lookup_alter_ne.
Qed.

Lemma orderly_here fs0 e h : hooks_ok fs0 e h -> exists h', hooks_ok fs0 e h' /\ same_tables e e.
Proof. intros Hk. exists h. by split. Qed.

(** What both kinds of interceptors do with a function of the engine's tables. *)
Lemma hook_orderly fs0 e h func (k : zend_function -> list byte) b en ex : hooks_ok fs0 e h -> is_Some (functions e !! func) ->
  wp (f ← read_function func;
      if negb (internal f) then mret tt
      else if bool_decide (handler f = pinpoint_interceptor_handler_entry) then mret tt
      else insert_interceptor (k f) b en ex func)
    (fun _ e' => exists h', hooks_ok fs0 e' h' /\ same_tables e e') (fun _ _ => False) e.
Proof.
  intros Hk [fn E]. pose proof (orderly_here _ _ _ Hk) as Hh. unfold read_function. wps. wps. wps. rewrite E. wps.
  destruct (internal fn); cbn [negb]; [|by wps]. case_bool_decide; [by wps|]. by eapply insert_orderly.
Qed.

Lemma add_function_orderly name b en ex : orderly (add_function_interceptor name b en ex).
Proof.
  intros fs0 e h Hu Hk Ht. unfold add_function_interceptor. wps. wps.
  destruct (function_table e !! name) as [func|] eqn:Ef; [|wps; by eapply orderly_here].
  apply (hook_orderly fs0 e h func (fun _ => name)); [done|]. by apply Ht in Ef.
Qed.

Lemma add_class_method_orderly cls method b en ex : orderly (add_class_method_interceptor cls method b en ex).
Proof.
  intros fs0 e h Hu Hk Ht. unfold add_class_method_interceptor. wps. wps.
  destruct (class_table e !! cls) as [ms|] eqn:Ec; [|wps; by eapply orderly_here].
  destruct (ms !! method) as [func|] eqn:Em; [|wps; by eapply orderly_here].
  apply (hook_orderly fs0 e h func (fun f => merge_pp_style_name (Some cls) (function_name f))); [done|].
  by eapply (tb_classes _ Ht).
Qed.

(** [zend_array_index(ar, i)] is element [i - 1] as long as there is one. *)
Lemma array_index_loop_spec rest : forall index ret, (0 < index <= length rest)%nat ->
  array_index_loop rest index ret = rest !! pred index.
Proof.
  induction rest as [|z rest IH]; intros [|[|index]] ret Hi; cbn in *; try lia; [by destruct rest|].
  rewrite IH by lia. done.
Qed.

Lemma zend_array_index_spec buckets i : (0 < i <= length buckets)%nat -> zend_array_index buckets i = buckets !! pred i.
Proof. apply array_index_loop_spec. Qed.

Lemma array_count_le buckets : (zend_array_count buckets <= length buckets)%nat.
Proof. apply length_filter. Qed.

Lemma wp_index {A} buckets i (k : zval -> M (Engine H) A) Q E e : (0 < i <= zend_array_count buckets)%nat ->
  (forall v, wp (k v) Q E e) -> wp (v ← lift (deref (zend_array_index buckets i)); k v) Q E e.
Proof.
  intros Hi Hk. pose proof (array_count_le buckets). rewrite zend_array_index_spec by lia.
  destruct (lookup_lt_is_Some_2 buckets (pred i)) as [v E1]; [lia|]. rewrite E1. wps. by eapply wp_lift.
Qed.

Lemma add_interceptor_orderly joinable b en ex : orderly (add_interceptor joinable b en ex).
Proof.
  intros fs0 e h Hu Hk Ht. pose proof (orderly_here _ _ _ Hk) as Hh. unfold add_interceptor.
  destruct (zend_array_count joinable) as [|[|[|n]]] eqn:Ec; [by wps|..|by wps].
  - apply wp_index; [lia|]. intros []; try by wps. by apply (add_function_orderly _ b en ex fs0 e h).
  - apply wp_index; [lia|]. intros []; try by wps. apply wp_index; [lia|]. intros []; try by wps.
    by apply (add_class_method_orderly _ _ b en ex fs0 e h).
Qed.

(** C24: registering interceptors keeps the engine in order.  Whatever PHP code passes to
    [_pinpoint_join_cut], exactly the functions of the interceptor table are hooked
    afterwards, each once and with the handler it came with remembered; no function
    disappears and no null pointer is read. *)
Theorem join_cut_keeps_order fs0 e h args : unhooked fs0 -> hooks_ok fs0 e h -> tables_ok e ->
  wp (_pinpoint_join_cut args)
    (fun ret e' => (ret = IS_NULL <-> args = None) /\ tables_ok e' /\ exists h', hooks_ok fs0 e' h') (fun _ _ => False) e.
Proof.
  intros Hu Hk Ht. destruct args as [[[[joinable b] en] ex]|]; cbn [_pinpoint_join_cut]; [|wps; naive_solver].
  case_bool_decide; [wps; naive_solver|]. case_match; [wps; naive_solver|]. wps.
  eapply wp_mono; [by apply (add_interceptor_orderly joinable b en ex fs0 e h)| |done].
  intros [] e' (h' & Hk' & Hs). wps. split; [done|]. split; [by eapply tables_same|by exists h'].
Qed.

(** *** The end of a request *)

Lemma hash_destroy_run l : forall e, (hash_destroy l e) =
  (Ok tt, set_functions e (foldl (fun fs i => alter (with_handler (origin i)) (origin_func i) fs) (functions e) l)).
Proof.
  induction l as [|i l IH]; intros e; cbn [hash_destroy foldl]; [by destruct e|].
  unfold free_interceptor, set_handler. rewrite bind_modify, IH. done.
Qed.

Lemma unhook_lookup l : NoDup (origin_func <$> l) -> forall (fs : gmap nat zend_function) f,
  foldl (fun fs i => alter (with_handler (origin i)) (origin_func i) fs) fs l !! f
  = match list_find (fun i => origin_func i = f) l with
    | Some (_, i) => with_handler (origin i) <$> fs !! f
    | None => fs !! f
    end.
Proof.
  induction l as [|i l IH]; intros Hd fs f; [done|]. cbn in Hd. apply NoDup_cons in Hd as [Hn Hd].
  cbn [foldl]. rewrite IH by done. cbn [list_find]. destruct (decide (origin_func i = f)) as [<-|Hne].
  - assert (list_find (fun j => origin_func j = origin_func i) l = None) as ->; [|by rewrite lookup_alter_eq].
    apply list_find_None, Forall_forall. intros j Hj E. apply Hn. rewrite <- E. by apply list_elem_of_fmap_2.
  - rewrite lookup_alter_ne by done. by destruct (list_find _ l) as [[]|].
Qed.

(** The end of a request gives every function its own handler back and the table is
    gone, whatever was registered. *)
Theorem rshutdown_restores_handlers fs0 e h : unhooked fs0 -> hooks_ok fs0 e h ->
  exists e', rshutdown_interceptors e = (Ok tt, e') /\ functions e' = fs0 /\ interceptors e' = None.
Proof.
  intros Hu Hk. unfold rshutdown_interceptors. rewrite bind_get, (hk_table _ _ _ Hk). unfold mbind, M_bind. rewrite hash_destroy_run.
  eexists. split; [done|]. split; [|done]. cbn. apply map_eq. intros f.
  rewrite (unhook_lookup _ (hk_once _ _ _ Hk)), (hk_functions _ _ _ Hk). unfold hook_all.
  destruct (list_find (fun i => origin_func i = f) (foreach_ptr h)) as [[n i]|] eqn:El.
  - apply list_find_Some in El as (El & Ei & _). apply list_elem_of_lookup_2 in El. subst f.
    rewrite bool_decide_eq_true_2 by (by apply list_elem_of_fmap_2).
    pose proof (hk_origin _ _ _ Hk) as Ho. rewrite Forall_forall in Ho. destruct (Ho i El) as (fn & E & Eo).
    rewrite E. cbn. by rewrite with_handler_twice, Eo, with_handler_same.
  - rewrite bool_decide_eq_false_2; [done|]. intros Hf. apply list_elem_of_fmap in Hf as (i & -> & Hi).
    apply list_find_None in El. rewrite Forall_forall in El. by apply (El i Hi).
Qed.

(** *** Calls of hooked functions *)

Lemma find_interceptor_spec fs0 e h func fn func_name : unhooked fs0 -> hooks_ok fs0 e h ->
  functions e !! func = Some fn -> handler fn = pinpoint_interceptor_handler_entry ->
  exists i fn0, find_interceptor h func_name func = Some i /\ i ∈ foreach_ptr h /\ origin_func i = func
    /\ fs0 !! func = Some fn0 /\ origin i = handler fn0 /\ origin i <> pinpoint_interceptor_handler_entry.
Proof.
  intros Hu Hk E Eh. pose proof (hk_origin _ _ _ Hk) as Ho. rewrite Forall_forall in Ho.
  assert (func ∈ origin_func <$> foreach_ptr h) as Hf.
  { rewrite (hk_functions _ _ _ Hk) in E. unfold hook_all in E. case_bool_decide; [done|]. by apply Hu in E. }
  assert (forall i, i ∈ foreach_ptr h -> origin_func i = func -> exists fn0, fs0 !! func = Some fn0 /\ origin i = handler fn0
    /\ origin i <> pinpoint_interceptor_handler_entry) as Hown.
  { intros i Hi Ei. destruct (Ho i Hi) as (fn0 & E0 & Eo). rewrite Ei in E0. exists fn0. split_and!; [done..|].
    rewrite Eo. by eapply Hu. }
  assert (exists n j, list_find (fun j => origin_func j = func) (foreach_ptr h) = Some (n, j) /\ j ∈ foreach_ptr h /\ origin_func j = func)
    as (n & j & El & Hj & Ej).
  { apply list_elem_of_fmap in Hf as (i & Ei & Hi). destruct (list_find_elem_of (fun j => origin_func j = func) _ i Hi (eq_sym Ei)) as [[n j] El].
    exists n, j. split; [done|]. apply list_find_Some in El as (El & Ej & _). split; [by eapply list_elem_of_lookup_2|done]. }
  destruct (Hown j Hj Ej) as (fn0 & ?). unfold find_interceptor. rewrite El.
  destruct (str_find_ptr h func_name) as [i|] eqn:Es; [|by exists j, fn0].
  case_bool_decide as Ei; [|by exists j, fn0]. pose proof (find_in _ _ _ Es) as Hi. destruct (Hown i Hi Ei) as (fn1 & ?). by exists i, fn1.
Qed.

(** A hooked function finds its own interceptor.  Whatever name the call goes by
    (an inherited method goes by its parent's), [find_interceptor] returns the one entry
    that was made for this function, and the handler in it is the function's own, so the
    call reaches the original code and never the entry again. *)
Theorem find_interceptor_own fs0 e h func fn func_name : unhooked fs0 -> hooks_ok fs0 e h ->
  functions e !! func = Some fn -> handler fn = pinpoint_interceptor_handler_entry ->
  exists i fn0, find_interceptor h func_name func = Some i /\ origin_func i = func
    /\ fs0 !! func = Some fn0 /\ origin i = handler fn0 /\ origin i <> pinpoint_interceptor_handler_entry.
Proof.
  intros Hu Hk E Eh. destruct (find_interceptor_spec fs0 e h func fn func_name Hu Hk E Eh) as (i & fn0 & ? & _ & ?).
  by exists i, fn0.
Qed.

(** *** Parameters *)

Lemma check_types_spec argv : forall ex_params i, (i + length ex_params <= length argv)%nat ->
  check_types argv i ex_params = Ok (bool_decide (Forall2 (fun p v => Z_TYPE_P p = Z_TYPE_P v) ex_params (take (length ex_params) (drop i argv)))).
Proof.
  induction ex_params as [|q rest IH]; intros i Hi; [done|]. cbn [check_types length] in *.
  rewrite zend_array_index_spec by lia. replace (pred (i + 1)) with i by lia.
  destruct (lookup_lt_is_Some_2 argv i) as [v Ev]; [lia|]. rewrite Ev. cbn [deref mbind outcome_bind].
  rewrite (drop_S _ v i Ev). cbn [take]. destruct (Z.eqb_spec (Z_TYPE_P q) (Z_TYPE_P v)) as [Eq|Ne]; cbn [negb].
  - rewrite IH by lia. f_equal. apply bool_decide_ext. rewrite Forall2_cons. split; [by split|by intros [_ ?]].
  - rewrite bool_decide_eq_false_2; [done|]. rewrite Forall2_cons. by intros [? _].
Qed.

Lemma replace_loop_spec argv : forall ex_params i, (i + length ex_params <= length argv)%nat ->
  replace_loop argv i ex_params = Ok (take (length ex_params) (drop i argv)).
Proof.
  induction ex_params as [|q rest IH]; intros i Hi; [done|]. cbn [replace_loop length] in *.
  rewrite zend_array_index_spec by lia. replace (pred (i + 1)) with i by lia.
  destruct (lookup_lt_is_Some_2 argv i) as [v Ev]; [lia|]. rewrite Ev. cbn [deref mbind outcome_bind].
  rewrite IH by lia. by rewrite (drop_S _ v i Ev).
Qed.

Lemma replace_parameters_spec argv ex_params :
  exists ps, replace_ex_caller_parameters argv ex_params = Ok ps
    /\ Forall2 (fun p v => Z_TYPE_P p = Z_TYPE_P v) ex_params ps
    /\ (ps = ex_params \/ exists buckets, argv = IS_ARRAY buckets /\ ps = take (length ex_params) buckets)
    /\ forall buckets, argv = IS_ARRAY buckets -> (length ex_params <= zend_array_count buckets)%nat ->
       Forall2 (fun p v => Z_TYPE_P p = Z_TYPE_P v) ex_params (take (length ex_params) buckets) ->
       ps = take (length ex_params) buckets.
Proof.
  assert (Forall2 (fun p v => Z_TYPE_P p = Z_TYPE_P v) ex_params ex_params) as Hrefl by (by apply Forall_Forall2_diag, Forall_true).
  destruct argv as [| | | | | | |buckets| |]; try (exists ex_params; split_and!; [done|done|by left|done]).
  cbn [replace_ex_caller_parameters]. pose proof (array_count_le buckets).
  destruct (Nat.ltb_spec (zend_array_count buckets) (length ex_params)).
  { exists ex_params. split_and!; [done|done|by left|]. intros b [= <-]. lia. }
  rewrite check_types_spec, drop_0 by lia. cbn [mbind outcome_bind]. case_bool_decide as Hty.
  - rewrite replace_loop_spec, drop_0 by lia. eexists. split_and!; [done|done|right; by eexists|]. by intros b [= <-].
  - exists ex_params. split_and!; [done|done|by left|]. by intros b [= <-].
Qed.

(** C27: a callback replaces all parameters or none.  The parameters of the call become
    the first elements of the returned array exactly if it has at least as many elements
    as the call has parameters and each has the type of the parameter it replaces;
    otherwise they stay as they are.  Their number and types never change, and the array is
    never read beyond its end. *)
Theorem replace_parameters_all_or_nothing argv ex_params :
  exists ps, replace_ex_caller_parameters argv ex_params = Ok ps
    /\ Forall2 (fun p v => Z_TYPE_P p = Z_TYPE_P v) ex_params ps
    /\ (ps = ex_params \/ exists buckets, argv = IS_ARRAY buckets /\ ps = take (length ex_params) buckets)
    /\ forall buckets, argv = IS_ARRAY buckets -> (length ex_params <= zend_array_count buckets)%nat ->
       Forall2 (fun p v => Z_TYPE_P p = Z_TYPE_P v) ex_params (take (length ex_params) buckets) ->
       ps = take (length ex_params) buckets.
Proof. apply replace_parameters_spec. Qed.

(** ** The handler of hooked functions *)

(** The engine while a call runs: [EG_exception] is the pending exception, an object by
    its handle; [world] is what PHP code can reach otherwise. *)
Context {W : Type}.
Record Run := mkRun { engine : Engine H; EG_exception : option nat; world : W }.

(** PHP code is a parameter: [zend_call_function] runs a callback ([None]: it could not be
    called), [native_call] the code of an internal function, [throwable] tells ordinary
    exceptions from those of the engine, [set_previous] chains two exceptions. *)
Context (zend_call_function : zval -> list zval -> Run -> option zval * Run).
Context (native_call : nat -> list zval -> Run -> zval * Run).
Context (throwable : nat -> bool) (set_previous : nat -> nat -> W -> W).

Definition set_exception (x : option nat) : M Run unit := modify (fun s => mkRun (engine s) x (world s)).

Definition on_engine {A} (m : M (Engine H) A) : M Run A := fun s =>
  let '(r, e) := m (engine s) in (r, mkRun e (EG_exception s) (world s)).

(** The value is [IS_UNDEF] when the callback could not be called. *)
Definition call_callback_function (callback : zval) (params : list zval) : M Run zval := fun s =>
  let '(r, s') := zend_call_function callback params s in (Ok (default IS_UNDEF r), s').

(** The parameters the call goes on with. *)
Definition call_interceptor_before (i : pp_interceptor_v_t) (ex_params : list zval) : M Run (list zval) :=
  retval ← call_callback_function (before i) ex_params;
  x ← gets EG_exception;
  match x with
  | None => lift (replace_ex_caller_parameters retval ex_params)
  | Some _ => mret ex_params
  end.

Definition call_interceptor_end (i : pp_interceptor_v_t) (return_value : zval) : M Run unit :=
  _ ← call_callback_function (end_ i) [return_value]; mret tt.

(** Called with [exception] pending. *)
Definition call_interceptor_exception (i : pp_interceptor_v_t) (x : nat) : M Run unit :=
  if negb (throwable x) then mret tt
  else
    _ ← set_exception None;
    _ ← call_callback_function (exception i) [IS_OBJECT x];
    y ← gets EG_exception;
    match y with
    | Some y =>
        if negb (throwable y) then mret tt
        else
          _ ← modify (fun s => mkRun (engine s) (EG_exception s) (set_previous x y (world s)));
          set_exception (Some x)
    | None => set_exception (Some x)
    end.

(** [interceptor->origin(...)]; calling the entry here would never come back. *)
Definition call_origin (h : zif_handler) (ex_params : list zval) : M Run zval :=
  match h with
  | native code => fun s => let '(v, s') := native_call code ex_params s in (Ok v, s')
  | pinpoint_interceptor_handler_entry => lift OutOfFuel
  end.

(** A call of [func] (on an object of class [This]) with [ex_params]: the return value. *)
Definition handler_entry (func : nat) (This : option (list byte)) (ex_params : list zval) : M Run zval :=
  f ← on_engine (read_function func);
  h ← on_engine table;
  match find_interceptor h (get_pp_style_function_name f This) func with
  | None => mret IS_NULL
  | Some i =>
      ex_params ← call_interceptor_before i ex_params;
      x ← gets EG_exception;
      match x with
      | Some x => _ ← call_interceptor_exception i x; mret IS_NULL
      | None =>
          return_value ← call_origin (origin i) ex_params;
          x ← gets EG_exception;
          match x with
          | Some x => _ ← call_interceptor_exception i x; mret return_value
          | None => _ ← call_interceptor_end i return_value; mret return_value
          end
      end
  end.

(** The callback's part in which exception is pending afterwards. *)
Lemma call_interceptor_exception_spec i x s : EG_exception s = Some x ->
  wp (call_interceptor_exception i x)
    (fun _ s' => EG_exception s' = Some x
       \/ exists y, throwable x = true /\ throwable y = false /\ EG_exception s' = Some y
          /\ s' = (zend_call_function (exception i) [IS_OBJECT x] (mkRun (engine s) None (world s))).2)
    (fun _ _ => False) s.
Proof.
  intros Ex. unfold call_interceptor_exception. destruct (throwable x) eqn:Tx; cbn [negb]; [|wps; by left].
  unfold set_exception, call_callback_function. wps. wps. wps. unfold wp at 1.
  destruct (zend_call_function _ _ _) as [r s1] eqn:Ec. wps. wps.
  destruct (EG_exception s1) as [y|] eqn:Ey; [|wps; by left].
  destruct (throwable y) eqn:Ty; cbn [negb]; [wps; wps; wps; by left|]. wps. right. exists y. split_and!; done.
Qed.

(** The handler of a hooked function, with its interceptor found. *)
Lemma handler_entry_found fs0 s h func fn This ex_params : unhooked fs0 -> hooks_ok fs0 (engine s) h ->
  functions (engine s) !! func = Some fn -> handler fn = pinpoint_interceptor_handler_entry ->
  exists i fn0 code, fs0 !! func = Some fn0 /\ handler fn0 = native code /\ origin i = native code /\ i ∈ foreach_ptr h
    /\ handler_entry func This ex_params s =
       (ex_params ← call_interceptor_before i ex_params;
        x ← gets EG_exception;
        match x with
        | Some x => _ ← call_interceptor_exception i x; mret IS_NULL
        | None =>
            return_value ← call_origin (native code) ex_params;
            x ← gets EG_exception;
            match x with
            | Some x => _ ← call_interceptor_exception i x; mret return_value
            | None => _ ← call_interceptor_end i return_value; mret return_value
            end
        end) s.
Proof.
  intros Hu Hk E Eh. pose proof (find_interceptor_spec fs0 (engine s) h func fn
    (get_pp_style_function_name fn This) Hu Hk E Eh) as (i & fn0 & Ef & Hin & Ei & E0 & Eo & Hn).
  destruct (handler fn0) as [code|] eqn:Eh0; [|congruence]. exists i, fn0, code. split_and!; [done..|].
  unfold handler_entry. erewrite bind_run.
  2: { unfold on_engine, read_function. rewrite bind_get, E. done. }
  cbv beta. erewrite bind_run.
  2: { unfold on_engine, table. rewrite bind_get. cbn [engine]. by rewrite (hk_table _ _ _ Hk). }
  cbv beta. rewrite Ef, Eo. by destruct s.
Qed.

Lemma call_before_spec i ex_params s r s1 : zend_call_function (before i) ex_params s = (r, s1) ->
  exists ps, call_interceptor_before i ex_params s = (Ok ps, s1)
    /\ (EG_exception s1 = None -> replace_ex_caller_parameters (default IS_UNDEF r) ex_params = Ok ps).
Proof.
  intros E. unfold call_interceptor_before. rewrite (bind_run _ _ _ (default IS_UNDEF r) s1).
  2: { unfold call_callback_function. by rewrite E. }
  rewrite bind_gets. destruct (EG_exception s1); [by exists ex_params|].
  destruct (replace_parameters_spec (default IS_UNDEF r) ex_params) as (ps & -> & _). by exists ps.
Qed.

(** C25: callbacks that neither throw nor return an array are invisible.  A hooked call
    then runs the function's own code once, on the parameters of the caller, and the caller
    gets its return value and its exception, whichever of the two callbacks at the end
    ran. *)
Theorem passive_callbacks_invisible fs0 s h func fn This ex_params : unhooked fs0 -> hooks_ok fs0 (engine s) h ->
  functions (engine s) !! func = Some fn -> handler fn = pinpoint_interceptor_handler_entry ->
  (forall cb params t, EG_exception t = None -> EG_exception (zend_call_function cb params t).2 = None) ->
  (forall cb params t b, (zend_call_function cb params t).1 <> Some (IS_ARRAY b)) -> EG_exception s = None ->
  exists i fn0 code, i ∈ foreach_ptr h /\ fs0 !! func = Some fn0 /\ handler fn0 = native code /\
    let s1 := (zend_call_function (before i) ex_params s).2 in
    wp (handler_entry func This ex_params)
      (fun v s' => v = (native_call code ex_params s1).1 /\ EG_exception s' = EG_exception (native_call code ex_params s1).2)
      (fun _ _ => False) s.
Proof.
  intros Hu Hk E Eh Hcalm Hret Hs. destruct (handler_entry_found fs0 s h func fn This ex_params Hu Hk E Eh) as (i & fn0 & code & E0 & Ec & _ & Hi & Er).
  exists i, fn0, code. split_and!; [done..|]. unfold wp. rewrite Er. clear Er.
  pose proof (Hcalm (before i) ex_params s Hs) as H1. pose proof (Hret (before i) ex_params s) as H2.
  destruct (zend_call_function (before i) ex_params s) as [r s1] eqn:Eb. cbn [fst snd] in *.
  destruct (call_before_spec _ _ _ _ _ Eb) as (ps & Ecb & Hps). specialize (Hps H1).
  assert (ps = ex_params) as ->.
  { destruct r as [[]|]; cbn in Hps; congruence. }
  rewrite (bind_run _ _ _ _ _ Ecb), bind_gets, H1. unfold call_origin.
  destruct (native_call code ex_params s1) as [v s2] eqn:En. rewrite (bind_run _ _ _ v s2) by (by rewrite En). rewrite bind_gets. cbn [fst snd].
  destruct (EG_exception s2) as [x|] eqn:Ex.
  - pose proof (call_interceptor_exception_spec i x s2 Ex) as W1. unfold wp, mbind, M_bind in W1 |- *.
    destruct (call_interceptor_exception i x s2) as [[[]| | |] s3]; try done. split; [done|].
    destruct W1 as [?|(y & _ & _ & Ey & ->)]; [done|]. by rewrite Hcalm in Ey.
  - unfold call_interceptor_end, call_callback_function. unfold mbind, M_bind.
    pose proof (Hcalm (end_ i) [v] s2 Ex) as H3. by destruct (zend_call_function (end_ i) [v] s2).
Qed.

(** C26: the first exception survives the callbacks.  If the callback before the call
    throws, the function's own code does not run; if that code throws, its return value is
    passed on.  In both cases the exception callback runs with no exception pending, and
    afterwards the exception that was thrown first is pending again, whatever the callback
    did, unless the callback ended the script with an exception of the engine. *)
Theorem exception_survives fs0 s h func fn This ex_params : unhooked fs0 -> hooks_ok fs0 (engine s) h ->
  functions (engine s) !! func = Some fn -> handler fn = pinpoint_interceptor_handler_entry ->
  exists i fn0 code, i ∈ foreach_ptr h /\ fs0 !! func = Some fn0 /\ handler fn0 = native code /\
    let after x s' := EG_exception s' = Some x
      \/ exists y, throwable x = true /\ throwable y = false /\ EG_exception s' = Some y in
    let s1 := (zend_call_function (before i) ex_params s).2 in
    (forall x, EG_exception s1 = Some x ->
       wp (handler_entry func This ex_params) (fun v s' => v = IS_NULL /\ after x s') (fun _ _ => False) s)
    /\ (EG_exception s1 = None -> exists ps,
       replace_ex_caller_parameters (default IS_UNDEF (zend_call_function (before i) ex_params s).1) ex_params = Ok ps
       /\ forall x, EG_exception (native_call code ps s1).2 = Some x ->
          wp (handler_entry func This ex_params)
            (fun v s' => v = (native_call code ps s1).1 /\ after x s') (fun _ _ => False) s).
Proof.
  intros Hu Hk E Eh. destruct (handler_entry_found fs0 s h func fn This ex_params Hu Hk E Eh) as (i & fn0 & code & E0 & Ec & _ & Hi & Er).
  exists i, fn0, code. split_and!; [done..|]. cbv zeta.
  destruct (zend_call_function (before i) ex_params s) as [r s1] eqn:Eb. cbn [fst snd].
  destruct (call_before_spec _ _ _ _ _ Eb) as (ps & Ecb & Hps). unfold wp. rewrite Er. clear Er. rewrite (bind_run _ _ _ _ _ Ecb), bind_gets.
  assert (forall x s' (v : zval), EG_exception s' = Some x ->
    wp (_ ← call_interceptor_exception i x; mret v) (fun v' s2 => v' = v /\ (EG_exception s2 = Some x
      \/ exists y, throwable x = true /\ throwable y = false /\ EG_exception s2 = Some y)) (fun _ _ => False) s') as Hx.
  { intros x s' v Ex. wps. eapply wp_mono; [by apply call_interceptor_exception_spec| |done].
    intros [] s2 Hs2. wps. split; [done|]. destruct Hs2 as [?|(y & ? & ? & ? & _)]; [by left|right; by exists y]. }
  split.
  - intros x Ex. rewrite Ex. exact (Hx x s1 IS_NULL Ex).
  - intros Ex. exists ps. split; [by apply Hps|]. intros x Ex2. rewrite Ex. unfold call_origin.
    destruct (native_call code ps s1) as [v s2] eqn:En. rewrite (bind_run _ _ _ v s2) by (by rewrite En). rewrite bind_gets. cbn [fst snd] in *.
    rewrite Ex2. exact (Hx x s2 v Ex2).
Qed.

End extension.

(** ** The caller's arguments *)

(** A frame of the engine: its variables and temporaries in slots.  The declared
    parameters are the first [num_params] slots; arguments beyond them follow the
    [last_var] variables and [T] temporaries of the function. *)
Record execute_data := mkFrame {
  call_code : bool;
  num_args : Z;
  num_params : Z;
  last_var : Z;
  temporaries : Z;
  slots : list zval
}.

Definition slot (ex : execute_data) (n : Z) : outcome zval :=
  if 0 <=? n then match slots ex !! Z.to_nat n with Some v => Ok v | None => UB end else UB.

(** [This] of the frame two above the running one, if there is such a frame. *)
Definition pinpoint_get_this (This : option zval) : zval :=
  match This with
  | Some self => if negb (Z_TYPE_P self =? 0) then self else IS_FALSE
  | None => IS_FALSE
  end.

(** [ex] is the frame two above the running one, [dynamic] whether the engine allows the
    call from where it was made. *)
Definition pinpoint_get_caller_arg (requested_offset : option Z) (ex : option execute_data) (dynamic : bool) : outcome zval :=
  match requested_offset with
  | None => mret IS_NULL
  | Some requested_offset =>
      if requested_offset <? 0 then mret IS_FALSE
      else
        match ex with
        | None => mret IS_FALSE
        | Some ex =>
            if call_code ex then mret IS_FALSE
            else if negb dynamic then mret IS_NULL
            else if num_args ex <=? requested_offset then mret IS_FALSE
            else
              let first_extra_arg := num_params ex in
              arg ← (if (first_extra_arg <=? requested_offset) && (first_extra_arg <? num_args ex)
                     then slot ex (last_var ex + temporaries ex + (requested_offset - first_extra_arg))
                     else slot ex requested_offset);
              mret (if Z_TYPE_P arg =? 0 then IS_NULL else arg)
        end
  end.

(** Where the engine puts the arguments of a call. *)
Record holds_args (ex : execute_data) (args : list zval) : Prop := mkHolds {
  ha_count : num_args ex = zlen args;
  ha_params : forall i v, args !! i = Some v -> Z.of_nat i < num_params ex -> slots ex !! i = Some v;
  ha_extra : forall i v, args !! i = Some v -> num_params ex <= Z.of_nat i ->
    slots ex !! Z.to_nat (last_var ex + temporaries ex + (Z.of_nat i - num_params ex)) = Some v;
  ha_sizes : 0 <= num_params ex /\ 0 <= last_var ex /\ 0 <= temporaries ex
}.

(** The caller's argument is found wherever the engine keeps it.  In a function call
    the argument with the requested number is returned, declared or not, and False if the
    call has no such argument; no slot outside the frame is read. *)
Theorem get_caller_arg_exact ex args n : holds_args ex args -> call_code ex = false ->
  pinpoint_get_caller_arg (Some n) (Some ex) true
  = Ok (if 0 <=? n then match args !! Z.to_nat n with
                        | Some v => if Z_TYPE_P v =? 0 then IS_NULL else v
                        | None => IS_FALSE
                        end
        else IS_FALSE).
Proof.
  intros [Hc Hp He (H1 & H2 & H3)] Hcode. cbn [pinpoint_get_caller_arg negb]. rewrite Hcode.
  destruct (Z.ltb_spec n 0), (Z.leb_spec 0 n); try lia; [done|]. rewrite Hc.
  destruct (Z.leb_spec (zlen args) n); [rewrite lookup_ge_None_2 by (unfold zlen in *; lia); done|].
  destruct (lookup_lt_is_Some_2 args (Z.to_nat n)) as [v Ev]; [unfold zlen in *; lia|]. rewrite Ev. unfold slot.
  destruct (Z.leb_spec (num_params ex) n); cbn [andb].
  - rewrite (proj2 (Z.ltb_lt _ _)) by lia. rewrite (proj2 (Z.leb_le 0 _)) by lia.
    specialize (He _ _ Ev). rewrite Z2Nat.id in He by lia. rewrite He by lia. done.
  - rewrite (proj2 (Z.leb_le 0 n)) by lia. rewrite (Hp _ _ Ev) by lia. done.
Qed.

Lemma get_caller_arg_exact_witness :
  pinpoint_get_caller_arg (Some 1) (Some (mkFrame false 2 1 1 1 [IS_TRUE; IS_UNDEF; IS_LONG 5])) true = Ok (IS_LONG 5).
Proof.
  apply (get_caller_arg_exact (mkFrame false 2 1 1 1 [IS_TRUE; IS_UNDEF; IS_LONG 5]) [IS_TRUE; IS_LONG 5] 1).
  - split; cbn; [reflexivity|..|lia].
    + intros [|[|i]] v; cbn; [done|lia|done].
    + intros [|[|i]] v E; cbn in *; [lia|by injection E as <-|done].
  - reflexivity.
Defined.

(** ** A table, and a request with one hooked function *)

Abbreviation assoc := (list (list byte * pp_interceptor_v_t)).

Fixpoint assoc_find (h : assoc) (k : list byte) : option pp_interceptor_v_t :=
  match h with
  | [] => None
  | (k', v) :: h' => if bool_decide (k' = k) then Some v else assoc_find h' k
  end.

Definition assoc_add (h : assoc) (k : list byte) (v : pp_interceptor_v_t) : option assoc :=
  match assoc_find h k with Some _ => None | None => Some (h ++ [(k, v)]) end.

Lemma assoc_find_in h k v : assoc_find h k = Some v -> v ∈ h.*2.
Proof.
  induction h as [|[k' v'] h IH]; [done|]. cbn. case_bool_decide; [intros [= ->]; by left|]. intros E. right. by apply IH.
Qed.

#[export] Program Instance assoc_table : HashTable assoc := {
  hash_init := [];
  str_find_ptr := assoc_find;
  add_ptr := assoc_add;
  foreach_ptr h := h.*2
}.
Next Obligation. done. Qed.
Next Obligation. apply assoc_find_in. Qed.
Next Obligation. intros h k v v' E. unfold assoc_add. by rewrite E. Qed.
Next Obligation. intros h k v' E. unfold assoc_add. rewrite E. eexists. split; [done|]. by rewrite fmap_app. Qed.

Definition demo_function : zend_function := mkFunction true (native 3) (bs "curl_exec") None.
Definition demo_functions : gmap nat zend_function := {[7%nat := demo_function]}.
Definition demo_engine : Engine assoc := mkEngine demo_functions {[bs "curl_exec" := 7%nat]} ∅ (Some []).

(** The callbacks of the demo are objects 1, 2 and 3. *)
Definition demo_cut : option (list zval * zval * zval * zval) :=
  Some ([IS_STRING (bs "curl_exec")], IS_OBJECT 1, IS_OBJECT 2, IS_OBJECT 3).
Definition demo_join : M (Engine assoc) zval := _pinpoint_join_cut (fun s => s) (fun _ => true) demo_cut.
Definition hooked_engine : Engine assoc := (demo_join demo_engine).2.
Definition demo_interceptor : pp_interceptor_v_t :=
  mkInterceptor (IS_OBJECT 1) (IS_OBJECT 2) (IS_OBJECT 3) (native 3) 7 (bs "curl_exec").

(** Joining twice registers once, and the end of the request restores the handler. *)
Example join_cut_demo :
  let '(r, e) := (_ ← demo_join; _ ← demo_join; e ← get; _ ← rshutdown_interceptors; mret e) demo_engine in
  (match r with Ok e' => (handler <$> functions e' !! 7%nat, length <$> interceptors e') | _ => (None, None) end,
   handler <$> functions e !! 7%nat)
  = ((Some pinpoint_interceptor_handler_entry, Some 1%nat), Some (native 3)).
Proof. vm_compute. reflexivity. Qed.

Lemma demo_unhooked : unhooked demo_functions.
Proof. intros f fn E. unfold demo_functions in E. by apply lookup_singleton_Some in E as [<- <-]. Qed.

Lemma demo_hooks : hooks_ok demo_functions demo_engine [].
Proof. split; [done|done|constructor|constructor]. Qed.

Lemma demo_tables : tables_ok demo_engine.
Proof.
  split; cbn.
  - intros n f [<- <-]%lookup_singleton_Some. by eexists.
  - intros c ms n f E. by rewrite lookup_empty in E.
Qed.

Lemma hooked_hooks : hooks_ok demo_functions hooked_engine [(bs "curl_exec", demo_interceptor)].
Proof.
  split.
  - vm_compute. reflexivity.
  - intros f. assert (functions hooked_engine = {[7%nat := with_handler pinpoint_interceptor_handler_entry demo_function]}) as ->
      by (vm_compute; reflexivity).
    unfold hook_all. cbn. destruct (decide (f = 7%nat)) as [->|Hne].
    + rewrite lookup_singleton_eq, bool_decide_eq_true_2 by (by left). reflexivity.
    + rewrite lookup_singleton_ne by done. rewrite bool_decide_eq_false_2 by (rewrite list_elem_of_singleton; done).
      unfold demo_functions. by rewrite lookup_singleton_ne.
  - repeat constructor. exists demo_function. done.
  - apply NoDup_singleton.
Qed.

Lemma join_cut_keeps_order_witness :
  wp demo_join
    (fun ret e' => (ret = IS_NULL <-> demo_cut = None) /\ tables_ok e' /\ exists h', hooks_ok demo_functions e' h')
    (fun _ _ => False) demo_engine.
Proof.
  apply (join_cut_keeps_order (fun s => s) (fun _ => true) demo_functions demo_engine [] demo_cut).
  - apply demo_unhooked.
  - apply demo_hooks.
  - apply demo_tables.
Defined.

Lemma rshutdown_restores_handlers_witness :
  exists e', rshutdown_interceptors hooked_engine = (Ok tt, e') /\ functions e' = demo_functions /\ interceptors e' = None.
Proof.
  apply (rshutdown_restores_handlers demo_functions hooked_engine [(bs "curl_exec", demo_interceptor)]).
  - apply demo_unhooked.
  - apply hooked_hooks.
Defined.

(** Under another name than it was registered with. *)
Lemma find_interceptor_own_witness :
  exists i fn0, find_interceptor [(bs "curl_exec", demo_interceptor)] (bs "parent::exec") 7 = Some i /\ origin_func i = 7%nat
    /\ demo_functions !! 7%nat = Some fn0 /\ origin i = handler fn0 /\ origin i <> pinpoint_interceptor_handler_entry.
Proof.
  apply (find_interceptor_own demo_functions hooked_engine [(bs "curl_exec", demo_interceptor)] 7
    (with_handler pinpoint_interceptor_handler_entry demo_function) (bs "parent::exec")).
  - apply demo_unhooked.
  - apply hooked_hooks.
  - vm_compute. reflexivity.
  - reflexivity.
Defined.

(** Callbacks that write down that they ran; the function returns 42 and throws object 9
    if it is called with [IS_TRUE]. *)
Abbreviation demo_run := (@Run assoc (list zval)).
Definition demo_call (cb : zval) (params : list zval) (t : demo_run) : option zval * demo_run :=
  (Some IS_NULL, mkRun (engine t) (EG_exception t) (world t ++ [cb])).
Definition demo_native (code : nat) (params : list zval) (t : demo_run) : zval * demo_run :=
  (IS_LONG 42, mkRun (engine t) (match params with [IS_TRUE] => Some 9%nat | _ => EG_exception t end) (world t)).
Definition demo_start : demo_run := mkRun hooked_engine None [].
Definition demo_entry (ps : list zval) : M demo_run zval :=
  handler_entry (fun s => s) demo_call demo_native (fun _ => true) (fun _ _ w => w) 7 None ps.

(** The order of the callbacks, without and with an exception. *)
Example handler_entry_demo :
  let '(r, s) := demo_entry [IS_FALSE] demo_start in
  let '(r', s') := demo_entry [IS_TRUE] demo_start in
  (r, world s, EG_exception s, (r', world s', EG_exception s'))
  = (Ok (IS_LONG 42), [IS_OBJECT 1; IS_OBJECT 2], None, (Ok (IS_LONG 42), [IS_OBJECT 1; IS_OBJECT 3], Some 9%nat)).
Proof. vm_compute. reflexivity. Qed.

Lemma passive_callbacks_invisible_witness :
  exists i fn0 code, i ∈ foreach_ptr [(bs "curl_exec", demo_interceptor)] /\ demo_functions !! 7%nat = Some fn0 /\ handler fn0 = native code /\
    let s1 := (demo_call (before i) [IS_FALSE] demo_start).2 in
    wp (demo_entry [IS_FALSE])
      (fun v s' => v = (demo_native code [IS_FALSE] s1).1 /\ EG_exception s' = EG_exception (demo_native code [IS_FALSE] s1).2)
      (fun _ _ => False) demo_start.
Proof.
  apply (passive_callbacks_invisible (fun s => s) demo_call demo_native (fun _ => true) (fun _ _ w => w)
    demo_functions demo_start [(bs "curl_exec", demo_interceptor)] 7
    (with_handler pinpoint_interceptor_handler_entry demo_function) None [IS_FALSE]).
  - apply demo_unhooked.
  - apply hooked_hooks.
  - vm_compute. reflexivity.
  - reflexivity.
  - intros cb params t E. exact E.
  - intros cb params t b. discriminate.
  - reflexivity.
Defined.

Lemma exception_survives_witness :
  exists i fn0 code, i ∈ foreach_ptr [(bs "curl_exec", demo_interceptor)] /\ demo_functions !! 7%nat = Some fn0 /\ handler fn0 = native code /\
    let after x s' := EG_exception s' = Some x
      \/ exists y, (fun _ : nat => true) x = true /\ (fun _ : nat => true) y = false /\ EG_exception s' = Some y in
    let s1 := (demo_call (before i) [IS_TRUE] demo_start).2 in
    (forall x, EG_exception s1 = Some x ->
       wp (demo_entry [IS_TRUE]) (fun v s' => v = IS_NULL /\ after x s') (fun _ _ => False) demo_start)
    /\ (EG_exception s1 = None -> exists ps,
       replace_ex_caller_parameters (default IS_UNDEF (demo_call (before i) [IS_TRUE] demo_start).1) [IS_TRUE] = Ok ps
       /\ forall x, EG_exception (demo_native code ps s1).2 = Some x ->
          wp (demo_entry [IS_TRUE]) (fun v s' => v = (demo_native code ps s1).1 /\ after x s') (fun _ _ => False) demo_start).
Proof.
  apply (exception_survives (fun s => s) demo_call demo_native (fun _ => true) (fun _ _ w => w)
    demo_functions demo_start [(bs "curl_exec", demo_interceptor)] 7
    (with_handler pinpoint_interceptor_handler_entry demo_function) None [IS_TRUE]).
  - apply demo_unhooked.
  - apply hooked_hooks.
  - vm_compute. reflexivity.
  - reflexivity.
Defined.

End Interceptors.
